(* ===== verification/_CoqProject ===== *)
-Q . S2P
Prelude.v
Effects.v
StdMap.v
Expected.v
ExpectedStorage.v
ExpectedSwap.v
Unexpected.v
ExpectedConstruct.v
ExpectedOverloads.v
ExpectedCategories.v
ExpectedVoid.v
ExpectedMembers.v
TemplateCache.v
Http.v
StringParser.v
Message.v
Parser.v
Url.v
FileSystem.v
ContentCoding.v
FileManager.v
Headers.v
RequestHandler.v
HttpHandler.v
LockFreeQueue.v
QueueProgress.v
Connections.v
WeakQueue.v
QueueAdequacy.v
Servers.v
History.v
System.v
SystemTls.v
Overlap.v
Races.v
Process.v
Program.v
ProcessRun.v
