(* ===== verification/Prelude.v ===== *)
(** * SimpleServ: a verification development

    SimpleServ is a static-file HTTP server in C++: [main] reads the directory
    [../webdir] into a file manager and starts a TCP and a TLS server; an accept
    loop reads each request into a buffer and queues it; worker threads take
    requests from a lock-free queue, call the HTTP handler, send its response and
    close the connection.  This library translates that program and proves what
    each part does, on every branch, the failing ones included.

    ** How the code is represented

    - Strings and views are lists of 8-bit characters ([str]); [std::map] and
      [std::unordered_map] are finite maps; enumerations are inductive types in
      Modules of their names; classes are records, their member functions
      functions of the record.  Abstract classes and concepts are type classes
      ([FileManager.FileFetcher], [RequestHandler.IGETRequestHandler],
      [Connections.IHandler]); their clients are verified against the class.
    - A call has an [Effects.outcome]: it returns, throws, terminates the process,
      is undefined behaviour, or ran out of the rounds its model was given.  A
      call that changes state lives in the state-passing monad [Effects.M].
    - Indices of the queue are [uint32_t] with wrap-around, positions in
      [Url.searchpart] are [size_t] with wrap-around at [2^64]; the percent codes
      are [int] with [stoi]'s range check and are narrowed to 8 bits.

    ** Parts, files and the code they model

    Paths are relative to [src/]; [H] stands for [include/simpleserv].

    - Foundations: [Prelude] (this file: strings, searching, shared automation),
      [Effects] (outcomes and the state monad), [StdMap] (the iteration order of
      [std::map] and repeated assignment).
    - [H/utility/expected.hpp]: [Expected] has the values, the monadic members and
      comparison; [ExpectedStorage] the storage (a union, its flag, the lifetimes
      of the members of two objects) with assignment, [emplace] and [swap], and
      shows that it implements the values; [ExpectedConstruct] the constructors and
      destructors of its specialisations; [ExpectedVoid] the storage of
      [expected<void, E>]; [ExpectedMembers] which copy and move members the base
      classes give [expected]; [ExpectedCategories] the members by the category
      of the object they are called on; [ExpectedSwap] when [swap] is declared, compiles and
      is [noexcept]; [ExpectedOverloads] which constructor converts from a value or
      from another [expected]; [Unexpected] the wrapper of errors.
    - [TemplateCache]: [H/cache.hpp], a cache over any storage, in memory or in
      files; no other part uses it.
    - [Http], [Message], [Headers]: [H/http/http.hpp], [message.hpp],
      [headers.hpp].
    - [StringParser], [Parser]: [H/utility/string_parser.hpp],
      [src/simpleserv/http/parser.cpp].  [Parser.parse_http_request] calls
      [Message.method_string_to_enum] and the operations of [StringParser].
    - [Url]: [H/utility/url.hpp], [src/simpleserv/utility/url.cpp].
    - [FileSystem], [ContentCoding], [FileManager]: the file system the code sees
      and the directory traversal two functions share;
      [src/simpleserv/utility/content_coding.cpp]; [H/utility/file_manager.hpp]
      and [file_manager.cpp].  The manager is a cache over a disk fetcher; the
      cache is verified against any fetcher.
    - [RequestHandler]: [src/simpleserv/http/request_handler.cpp].
    - [HttpHandler]: [src/simpleserv/http/http_handler.cpp], which composes parser,
      file manager and messages.
    - [LockFreeQueue]: [H/utility/lock_free_queue.hpp], sequentially and as a
      system of threads interleaving atomic actions; [QueueProgress] shows that
      this system makes progress; [WeakQueue] runs the same actions on the memory
      of C++, under the memory orders the code asks for, and [QueueAdequacy] shows
      that it has all the runs of [LockFreeQueue].
    - [Connections]: [H/request_processing/]: worker loop, senders and closers.
    - [Servers]: [H/server/tcp_server.hpp] and [tls_server.hpp]: start, stop and
      the accept loops.
    - [History]: runs whose steps are observed, and what the connections accepted
      and taken tell of a queue between them.
    - [System]: a server at work.  The rounds of its accept loop, which it reaches
      through the class [System.Acceptor] that both servers implement, and those of
      its workers interleave around the job queue; [System.spec_step] is what the
      server promises.  [SystemTls] is its instance for the TLS server.
    - [Overlap]: the same servers with threads that overlap.  The accept loop, which
      enters through [System.Incoming], and the workers take turns at the atomic
      actions of the queue, at the call of the handler, at sending and at closing.
    - [Races]: the accesses that threads inside [FileManager::get_file] make.
    - [Process]: [H/server/server_manager.hpp], the set-up in
      [src/serverexec/main.cpp], and the two file managers of the running program.
    - [Program]: [main] to the end of the process; [Process] and [System] composed.
    - [ProcessRun]: the two servers of [Process] with all their threads, as in
      [Overlap], around the file manager and the system they share.

    ** What the theorems show

    - The handler: files below [webdir] are served byte for byte with the type of
      their extension and nothing else is ([HttpHandler.handle_serves_webdir]);
      no request reaches outside the walked tree ([no_path_traversal]); what
      malformed input does ([handle_errors]).
    - A server: every run of it is one of its specification, in which the same
      connections are accepted and taken ([System.server_refines_spec]): they are
      taken in the order of their acceptance, each at most once, and for each that
      is taken the trace has one answer at most and one close
      ([tcp_server_history], [SystemTls.tls_server_history]); and each is taken in
      its turn ([tcp_connection_served]).  When its threads overlap, it still takes every
      connection once and makes for each the calls of one answer, in order and
      whole unless a worker has it in hand ([Overlap.overlapping_threads_serve]).
    - The parser: it inverts printing for the versions 1.1 and 2.0, is sound on all input, always ends, and
      keeps the last of equal headers; the inputs it rejects or is undefined on
      are characterised.
    - The queue: a FIFO list for one thread; under any interleaving of one
      producer that respects the capacity with any number of consumers, each
      element is delivered once, in the order of pushing.  Outside that
      discipline, elements are lost ([push_on_full_loses_all]) or delivered twice
      ([queue_pop_aba]).  No operation waits for another thread, and the consumers
      cannot all fail ([QueueProgress.queue_progress]).  All that is under
      sequential consistency.  The memory orders of the code give as much in the
      first lap of the ring to one consumer ([WeakQueue.weak_first_lap]); two
      consumers can take what was never pushed ([weak_pop_unpublished]), and using
      a slot a second time is a data race ([weak_reuse_races]).
    - The file manager: the table is exactly the files of the tree, the cache is
      transparent as long as the files do not change and never forgets, encoding
      does not depend on the order of the hash table; [encode_directory] is totally
      correct.  Two threads race on a manager that has been filled, and not on
      one that has not ([Races]).
    - The servers: what is queued for an accepted connection, and which inputs stop
      the loop or the process; the life of the manager; and that the handler of
      the linked program consults a file manager nobody fills
      ([Process.every_request_not_found]), so that its servers, end to end, answer
      [404 Not Found] to everything ([Program.program_serves_404] for the first in
      rounds, [ProcessRun.process_serves_404] for both and all their threads); and that
      once the servers run the process never exits: it is killed, its behaviour is
      undefined, or its destructor waits for ever ([Process.manager_lifecycle],
      [Program.main_outcomes]).
    - [expected]: monad laws, comparison, refinement of values by storage, [swap];
      where the exception guarantees of its comments fail, what converting costs
      and which constructor does it, what the members leave of an rvalue
      ([ExpectedCategories.members_by_category]), what [swap] promises, and for which types its
      members exist and compile.
    - The template cache is its storage: the capacity does nothing.
    - URLs: splitting inverts rendering and always returns; percent coding.

    ** Fuel

    [Parser.parse_headers_loop] is given one round more than the length of the
    text, and [Url.searchpart_loop] one more than that of the string: every round
    consumes a character or ends the loop ([Parser.parse_http_request_exits],
    [Url.from_string_total]: [NoFuel] is never the outcome).  [FileSystem.walk] is
    given the number of directories of the tree to the depth of the longest path,
    and each directory is visited once ([construct_file_descriptors_correct]
    returns a result).  Loops that wait for the environment take one answer of it
    per round; when the answers are used up, the loops inside one round
    ([Servers.recv_loop], [Servers.tls_read_loop], [Connections.TLS_send_loop])
    end in [NoFuel], and the accept loops return their state; a process that waits
    for a thread or for an event is [NoFuel] too ([Process.join_servers],
    [Program.main_wait]).  Their theorems
    quantify over the number of repetitions.

    ** Not modelled

    - The kernel, wolfSSL and libbrotli: their answers are arguments, and what the
      theorems rely on is in the classes [Servers.WolfSSLSpec] and
      [ContentCoding.BrotliSpec] and in the predicate [Servers.linux_accept].
    - Inside one step of [Overlap]: a call of the handler, and all the calls that
      send one response or take one connection down, are one step each ([Races] has
      the accesses of a handler that overlap those of another); the queue's memory
      is sequentially consistent there ([WeakQueue] has the other), and runs in
      which a push laps a worker are left out ([LockFreeQueue.queue_pop_aba],
      [LockFreeQueue.push_on_full_loses_all] have what happens in them).  [System]
      takes whole rounds to be atomic.
    - A signal that is delivered to the thread of an accept loop, which the handler
      would join from itself, and the restrictions on what a handler may call.
    - Console output and the logger; [HTTPRequest::to_string], whose result is an
      address; in [utility/expected.hpp] the selection of overloads other than the
      converting constructors and [swap], which appears as Boolean arguments (the
      traits of [T] and [E]), and the branches of its conditional compilation for
      compilers without C++14 or without exceptions.
    - Of [cache.hpp], which cannot be compiled, the members that name a variable
      that is not declared; [tcp_server_asio.hpp] (a declaration),
      [brotli_stream_compressor.hpp] (commented out); [Threadpool::add_connection]
      and [LockFreeQueue::createRef] (ill-formed if used). *)

From Stdlib Require Export Ascii.
From stdpp Require Export base tactics list numbers gmap strings sorting pretty.

(** ** Bytes and strings

    [std::string] and [std::string_view] values are lists of 8-bit characters.
    [$"abc"] writes a literal. *)


Abbreviation str := (list ascii).

Definition lit (s : string) : str := String.list_ascii_of_string s.

Declare Scope ss_scope.
Delimit Scope ss_scope with ss.
Notation "$ s" := (lit s%string) (at level 1, s at level 0, format "$ s") : ss_scope.
#[global] Open Scope ss_scope.

Definition CR : ascii := "013"%char.
Definition LF : ascii := "010"%char.
Definition SP : ascii := " "%char.
Definition CRLF : str := [CR; LF].

(** The value of a [char] as an [int]: [char] is signed on the targets of the
    build (x86-64 Linux). *)
Definition char_to_int (c : ascii) : Z :=
  let n := Z.of_N (N_of_ascii c) in if (n <? 128)%Z then n else (n - 256)%Z.

(** [std::to_string(int)] and the ["{}"] of [std::format] on an integer. *)
Definition to_string (z : Z) : str := lit (pretty z).

(** ** Tactics and hints *)

Create HintDb simpleserv discriminated.
Create Rewrite HintDb ss_rw.

(** Case analysis on the scrutinee of the goal's or a hypothesis' first
    conditional, with the equations simplified away. *)
Ltac case_all :=
  repeat (case_match || case_decide || case_bool_decide); simplify_eq/=.

(** ** Search in lists

    [find_idx p s] is the first position whose element satisfies [p]; [None]
    stands for [std::string::npos]. *)

Section find_idx.
Context {A : Type}.
Implicit Types (p : A → bool) (s t : list A).

Fixpoint find_idx p s : option nat :=
  match s with
  | [] => None
  | c :: s' => if p c then Some 0 else S <$> find_idx p s'
  end.

Lemma find_idx_None p s : find_idx p s = None ↔ Forall (λ c, p c = false) s.
Proof.
  induction s as [|c s IH]; simpl; [by split|].
  rewrite Forall_cons. destruct (p c) eqn:E.
  - split; [done|]. by intros [? _].
  - rewrite fmap_None, IH. split; [done|]. by intros [_ ?].
Qed.

Lemma find_idx_Some p s i :
  find_idx p s = Some i ↔
  Forall (λ c, p c = false) (take i s) ∧ ∃ c, s !! i = Some c ∧ p c = true.
Proof.
  revert i. induction s as [|c s IH]; intros i; simpl.
  { split; [done|]. by intros (_ & c & H & _). }
  destruct (p c) eqn:E, i as [|i]; simpl; rewrite ?Forall_cons.
  - split; eauto.
  - split; [done|]. intros ([? _] & _). congruence.
  - split; [by destruct (find_idx p s)|]. intros (_ & c' & [= <-] & ?). congruence.
  - rewrite fmap_Some. split.
    + intros (j & Hj & [= ->]). by apply IH in Hj as (? & ?).
    + intros ([_ ?] & ?). exists i. split; [|done]. by apply IH.
Qed.

Lemma find_idx_app_stop p s c t :
  Forall (λ x, p x = false) s → p c = true →
  find_idx p (s ++ c :: t) = Some (length s).
Proof.
  intros Hs Hc. apply find_idx_Some.
  rewrite take_app_length. split; [done|].
  exists c. by rewrite list_lookup_middle.
Qed.

Lemma find_idx_lt p s i : find_idx p s = Some i → i < length s.
Proof. intros (_ & c & H & _)%find_idx_Some. by eapply lookup_lt_Some. Qed.

(** The split of a string at the first hit. *)
Lemma find_idx_split p s i :
  find_idx p s = Some i →
  ∃ c, s = take i s ++ c :: drop (S i) s ∧ p c = true
       ∧ Forall (λ x, p x = false) (take i s).
Proof.
  intros (Hf & c & Hc & Hp)%find_idx_Some. exists c. split_and!; auto.
  by rewrite take_drop_middle.
Qed.
End find_idx.

(** ** Prefixes *)

Fixpoint starts_with (p s : str) : bool :=
  match p, s with
  | [], _ => true
  | a :: p', b :: s' => Ascii.eqb a b && starts_with p' s'
  | _ :: _, [] => false
  end.

Lemma starts_with_app p s : starts_with p (p ++ s) = true.
Proof. induction p as [|a p IH]; simpl; [done|]. by rewrite Ascii.eqb_refl. Qed.

Lemma starts_with_spec p s : starts_with p s = true ↔ s = p ++ drop (length p) s.
Proof.
  split; [|intros ->; apply starts_with_app].
  revert s. induction p as [|a p IH]; intros [|b s]; simpl; try done.
  intros [->%Ascii.eqb_eq H%IH]%andb_true_iff. by f_equal.
Qed.

Lemma starts_with_inv p s : starts_with p s = true → ∃ t, s = p ++ t.
Proof. intros ->%starts_with_spec. eauto. Qed.

Lemma starts_with_length p s : starts_with p s = true → length p ≤ length s.
Proof. intros ->%starts_with_spec. rewrite length_app. lia. Qed.

#[export] Hint Rewrite starts_with_app : ss_rw.

Lemma mjoin_fmap_cons {A B} (f : A → list B) x l :
  mjoin (f <$> x :: l) = f x ++ mjoin (f <$> l).
Proof. done. Qed.

(** ** Suffixes, as invariants of string views *)

Lemma suffix_drop {A} (k : list A) n : drop n k `suffix_of` k.
Proof. exists (take n k). by rewrite take_drop. Qed.

#[export] Hint Resolve suffix_drop : simpleserv.

Lemma lit_app s t : lit (s +:+ t) = lit s ++ lit t.
Proof. induction s as [|c s IH]; simpl; [done|]. unfold lit in *. simpl. by rewrite IH. Qed.

(** A number is printed in a way of its own, with a digit at least. *)
Lemma to_string_inj a b : to_string a = to_string b → a = b.
Proof.
  unfold to_string, lit. intros E. apply (inj pretty).
  by rewrite <- (String.string_of_list_ascii_of_string (pretty a)), E,
    String.string_of_list_ascii_of_string.
Qed.

Lemma pretty_N_go_not_empty x s : s ≠ EmptyString → pretty_N_go x s ≠ EmptyString.
Proof.
  revert s. induction (N.lt_wf_0 x) as [x _ IH]; intros s Hs.
  destruct (decide (x = 0%N)) as [->|Hx]; [by rewrite pretty_N_go_0|].
  rewrite pretty_N_go_step by lia. apply IH; [apply N.div_lt; lia|done].
Qed.

Lemma pretty_positive_not_empty (p : positive) : pretty p ≠ EmptyString.
Proof.
  unfold pretty, pretty_positive, pretty, pretty_N. rewrite decide_False by done.
  rewrite pretty_N_go_step by lia. by apply pretty_N_go_not_empty.
Qed.

Lemma to_string_not_nil z : to_string z ≠ [].
Proof.
  unfold to_string, lit. pose proof pretty_positive_not_empty as Hp.
  destruct z as [|p|p]; [done| |done]. specialize (Hp p).
  change (pretty (Z.pos p)) with (pretty p). by destruct (pretty p).
Qed.
