(* ===== verification/Effects.v ===== *)
(** * Effects: the outcomes of a C++ evaluation

    A call of the modelled code either returns, throws, terminates the process
    ([std::terminate], an exception leaving a [noexcept] function or a thread)
    or runs into undefined behaviour.  [NoFuel] is the outcome of a loop whose
    model was given too few rounds; each such loop comes with a theorem that the
    fuel its callers pass is enough.  Later components are written in the two
    monads of this file: [outcome] and the state-passing [M S]. *)

From S2P Require Import Prelude.

Inductive exn : Type :=
  | out_of_range            (** [std::out_of_range] *)
  | invalid_argument        (** [std::invalid_argument] *)
  | bad_expected_access     (** [utility::bad_expected_access<E>] *)
  | runtime_error (what : str)
  | filesystem_error
  | user_exn (n : nat).     (** an exception of a template argument's own *)

Inductive outcome (A : Type) : Type :=
  | Ret (a : A)
  | Throw (e : exn)
  | Terminate
  | Undef
  | NoFuel.   (** the bound on a loop's rounds was reached *)
Arguments Ret {A} a.
Arguments Throw {A} e.
Arguments Terminate {A}.
Arguments Undef {A}.
Arguments NoFuel {A}.

#[export] Instance exn_eq_dec : EqDecision exn.
Proof. solve_decision. Defined.
#[export] Instance outcome_eq_dec {A} `{EqDecision A} : EqDecision (outcome A).
Proof. solve_decision. Defined.

#[export] Instance Ret_inj {A} : Inj (=) (=) (@Ret A).
Proof. by intros ? ? [=]. Qed.

(** ** The outcome monad *)

#[export] Instance outcome_ret : MRet outcome := @Ret.
#[export] Instance outcome_bind : MBind outcome := λ A B f m,
  match m with
  | Ret a => f a
  | Throw e => Throw e
  | Terminate => Terminate
  | Undef => Undef
  | NoFuel => NoFuel
  end.
#[export] Instance outcome_fmap : FMap outcome := λ A B f m, m ≫= λ a, Ret (f a).

Lemma outcome_bind_Ret_inv {A B} (m : outcome A) (f : A → outcome B) b :
  m ≫= f = Ret b → ∃ a, m = Ret a ∧ f a = Ret b.
Proof. destruct m; simpl; intros; simplify_eq; eauto. Qed.

Lemma outcome_bind_NoFuel_inv {A B} (m : outcome A) (f : A → outcome B) :
  m ≫= f = NoFuel → m = NoFuel ∨ ∃ a, m = Ret a ∧ f a = NoFuel.
Proof. destruct m; cbn; intros; simplify_eq; eauto. Qed.

Lemma outcome_bind_assoc {A B C} (m : outcome A) (f : A → outcome B) (g : B → outcome C) :
  (m ≫= f) ≫= g = m ≫= λ a, f a ≫= g.
Proof. by destruct m. Qed.

Lemma outcome_bind_ret {A} (m : outcome A) : m ≫= Ret = m.
Proof. by destruct m. Qed.

(** What a run returned, or a default. *)
Definition result {A} (m : outcome A) (d : A) : A := match m with Ret a => a | _ => d end.

(** An outcome that is defined: no undefined behaviour. *)
Definition defined {A} (m : outcome A) : Prop := m ≠ Undef.

(** A [noexcept] function: an exception that would leave it terminates. *)
Definition noexcept {A} (m : outcome A) : outcome A :=
  match m with Throw _ => Terminate | _ => m end.

(** [exits_only Q m]: [m] does not terminate the process, its loops had enough
    fuel, and the exceptions it throws satisfy [Q].  It may return or be
    undefined. *)
Definition exits_only (Q : exn → Prop) {A} (m : outcome A) : Prop :=
  match m with
  | Ret _ | Undef => True
  | Throw e => Q e
  | Terminate | NoFuel => False
  end.

Lemma exits_only_bind Q {A B} (m : outcome A) (f : A → outcome B) :
  exits_only Q m → (∀ a, m = Ret a → exits_only Q (f a)) → exits_only Q (m ≫= f).
Proof. destruct m; simpl; auto. Qed.

Lemma exits_only_mono (Q R : exn → Prop) {A} (m : outcome A) :
  (∀ e, Q e → R e) → exits_only Q m → exits_only R m.
Proof. destruct m; simpl; auto. Qed.

(** ** State passing: an object of type [S] that the code mutates *)

Definition M (S A : Type) : Type := S → outcome (A * S).

#[export] Instance M_ret {S} : MRet (M S) := λ A a s, Ret (a, s).
#[export] Instance M_bind {S} : MBind (M S) := λ A B f m s,
  m s ≫= λ '(a, s'), f a s'.

Definition get {S} : M S S := λ s, Ret (s, s).
Definition put {S} (s : S) : M S () := λ _, Ret ((), s).
Definition modify {S} (f : S → S) : M S () := λ s, Ret ((), f s).
Definition raise {S A} (e : exn) : M S A := λ _, Throw e.
Definition undef {S A} : M S A := λ _, Undef.
Definition liftO {S A} (m : outcome A) : M S A := λ s, m ≫= λ a, Ret (a, s).

Lemma M_bind_Ret_inv {S A B} (m : M S A) (f : A → M S B) s b s'' :
  (m ≫= f) s = Ret (b, s'') → ∃ a s', m s = Ret (a, s') ∧ f a s' = Ret (b, s'').
Proof. intros ([a s'] & ? & ?)%outcome_bind_Ret_inv. eauto. Qed.

Lemma M_bind_run {S A B} (m : M S A) (f : A → M S B) s a s' :
  m s = Ret (a, s') → (m ≫= f) s = f a s'.
Proof. intros H. unfold mbind, M_bind. by rewrite H. Qed.

Lemma exits_only_M_bind Q {S A B} (m : M S A) (f : A → M S B) s :
  exits_only Q (m s) → (∀ a s', m s = Ret (a, s') → exits_only Q (f a s')) →
  exits_only Q ((m ≫= f) s).
Proof. intros Hm Hf. apply exits_only_bind; [done|]. intros [a s']. apply Hf. Qed.

Lemma liftO_run {S A} (m : outcome A) (s : S) a : m = Ret a → liftO m s = Ret (a, s).
Proof. by intros ->. Qed.

Lemma M_bind_Throw {S A B} (m : M S A) (f : A → M S B) s e :
  m s = Throw e → (m ≫= f) s = Throw e.
Proof. intros H. unfold mbind, M_bind. by rewrite H. Qed.

Lemma M_bind_Undef {S A B} (m : M S A) (f : A → M S B) s :
  m s = Undef → (m ≫= f) s = Undef.
Proof. intros H. unfold mbind, M_bind. by rewrite H. Qed.

(** Inversion of a successful run of a monadic block. *)
Ltac run_inv H :=
  repeat match type of H with
  | (_ ≫= _) _ = Ret _ =>
      let a := fresh "a" in let s := fresh "s" in let E := fresh "E" in
      apply M_bind_Ret_inv in H as (a & s & E & H)
  end.

(** Reads off the equations of the primitive steps [run_inv] leaves. *)
Ltac run_prims :=
  unfold mret, M_ret, get, put, modify, raise, undef, liftO in *; simplify_eq/=;
  repeat match goal with
  | H : _ ≫= _ = Ret _ |- _ =>
      let a := fresh "a" in let E := fresh "E" in
      apply outcome_bind_Ret_inv in H as (a & E & H); simplify_eq/=
  | x : _ * _ |- _ => destruct x; simplify_eq/=
  end.
