(* ===== verification/StdMap.v ===== *)
(** * std::map<std::string, V>

    A [std::map] is a finite map ([gmap]) whose iteration visits the keys in
    ascending order of [std::less<std::string>], the lexicographic order of
    [char_traits<char>::compare], which compares characters as unsigned bytes.
    [map_in_order] is that traversal; [map_in_order_unique] shows that it is the
    only one with the contract of the Standard. *)

From S2P Require Import Prelude.

(** ** The order of the keys *)

Fixpoint str_leb (s t : str) : bool :=
  match s, t with
  | [], _ => true
  | _ :: _, [] => false
  | a :: s', b :: t' =>
      if (N_of_ascii a <? N_of_ascii b)%N then true
      else if Ascii.eqb a b then str_leb s' t' else false
  end.

Definition str_le (s t : str) : Prop := str_leb s t = true.

Lemma N_of_ascii_inj a b : N_of_ascii a = N_of_ascii b → a = b.
Proof. intros H. by rewrite <- (ascii_N_embedding a), <- (ascii_N_embedding b), H. Qed.

Lemma str_le_cons a b s t :
  str_le (a :: s) (b :: t) ↔ (N_of_ascii a < N_of_ascii b)%N ∨ a = b ∧ str_le s t.
Proof.
  unfold str_le; simpl. destruct (N.ltb_spec (N_of_ascii a) (N_of_ascii b)) as [Hl|Hl].
  - split; auto.
  - destruct (Ascii.eqb_spec a b) as [->|Hne].
    + split; [auto|]. intros [?|[_ ?]]; [lia|done].
    + split; [done|]. intros [?|[? _]]; [lia|done].
Qed.

#[export] Instance str_le_dec : RelDecision str_le.
Proof. intros s t. unfold str_le. apply _. Defined.

#[export] Instance str_le_trans : Transitive str_le.
Proof.
  intros s. induction s as [|a s IH]; intros [|b t] [|c u]; try done.
  rewrite !str_le_cons. intros [?|[-> ?]] [?|[-> ?]]; auto; [left; lia|].
  right. eauto.
Qed.

#[export] Instance str_le_total : Total str_le.
Proof.
  intros s. induction s as [|a s IH]; intros [|b t]; [by left..|by right|].
  rewrite !str_le_cons.
  destruct (N.lt_trichotomy (N_of_ascii a) (N_of_ascii b)) as [?|[->%N_of_ascii_inj|?]]; auto.
  destruct (IH t); auto.
Qed.

#[export] Instance str_le_antisym : AntiSymm (=) str_le.
Proof.
  intros s. induction s as [|a s IH]; intros [|b t]; try done.
  rewrite !str_le_cons. intros [?|[-> ?]] [?|[? ?]]; try lia; [by subst; lia|].
  f_equal. auto.
Qed.

(** ** In-order traversal *)

Section traversal.
Context {V : Type}.
Implicit Types (m : gmap str V) (l : list (str * V)).

Definition key_le (x y : str * V) : Prop := str_le x.1 y.1.

#[export] Instance key_le_dec : RelDecision key_le.
Proof. intros x y. unfold key_le. apply _. Defined.
#[export] Instance key_le_total : Total key_le.
Proof. intros x y. apply str_le_total. Qed.
#[export] Instance key_le_trans : Transitive key_le.
Proof. intros x y z. apply str_le_trans. Qed.

Definition map_in_order m : list (str * V) := merge_sort key_le (map_to_list m).

Lemma map_in_order_Permutation m : map_in_order m ≡ₚ map_to_list m.
Proof. apply merge_sort_Permutation. Qed.

Lemma map_in_order_sorted m : StronglySorted key_le (map_in_order m).
Proof. apply (StronglySorted_merge_sort _). Qed.

Lemma map_in_order_elem_of m k v : (k, v) ∈ map_in_order m ↔ m !! k = Some v.
Proof. by rewrite map_in_order_Permutation, elem_of_map_to_list. Qed.

Lemma map_in_order_NoDup m : NoDup (map_in_order m).*1.
Proof. rewrite map_in_order_Permutation. apply NoDup_fst_map_to_list. Qed.

Lemma list_to_map_in_order m : list_to_map (map_in_order m) = m.
Proof.
  rewrite <- (list_to_map_to_list m) at 2. apply list_to_map_proper.
  - apply map_in_order_NoDup.
  - apply map_in_order_Permutation.
Qed.

(** The traversal the Standard prescribes is unique. *)
Lemma map_in_order_unique m l :
  NoDup l.*1 → StronglySorted key_le l → list_to_map l = m → l = map_in_order m.
Proof.
  intros Hnd Hs <-.
  assert (Hp : l ≡ₚ map_in_order (list_to_map l)).
  { rewrite map_in_order_Permutation. symmetry. by apply map_to_list_to_map. }
  eapply StronglySorted_unique_strong; [|done|apply map_in_order_sorted|done].
  intros [k1 v1] [k2 v2] H1 H2 Hle1 Hle2. unfold key_le in *; simpl in *.
  pose proof (str_le_antisym _ _ Hle1 Hle2) as ->. f_equal.
  rewrite <- Hp in H2. apply (elem_of_list_to_map_1 (M := gmap str)) in H1, H2; auto.
  congruence.
Qed.

(** Folding assignments [m[k] = v] over a list: the last one for a key wins. *)
Definition assign_all (kvs : list (str * V)) (m : gmap str V) : gmap str V :=
  foldl (λ m kv, <[kv.1 := kv.2]> m) m kvs.

Lemma assign_all_app l1 l2 m : assign_all (l1 ++ l2) m = assign_all l2 (assign_all l1 m).
Proof. apply foldl_app. Qed.

Lemma assign_all_reverse l m : assign_all l m = list_to_map (reverse l) ∪ m.
Proof.
  revert m. induction l as [|[k v] l IH] using rev_ind; intros m.
  - by rewrite (left_id_L _ (∪)).
  - rewrite assign_all_app, IH, reverse_app. simpl. by rewrite insert_union_l.
Qed.

Lemma assign_all_lookup l m k :
  assign_all l m !! k =
  match (list_to_map (reverse l) : gmap str V) !! k with Some v => Some v | None => m !! k end.
Proof. rewrite assign_all_reverse, lookup_union. by destruct (_ !! k), (m !! k). Qed.

Lemma assign_all_lookup_last l m k :
  assign_all l m !! k =
  match snd <$> last (filter (λ kv, kv.1 = k) l) with Some v => Some v | None => m !! k end.
Proof.
  revert m. induction l as [|[k' v] l IH] using rev_ind; intros m; [done|].
  rewrite assign_all_app, filter_app, last_app. simpl.
  rewrite filter_cons, filter_nil. simpl. case_decide as Hk.
  - subst. simpl. by rewrite lookup_insert_eq.
  - simpl. by rewrite lookup_insert_ne.
Qed.

Lemma assign_all_NoDup l :
  NoDup l.*1 → assign_all l ∅ = list_to_map l.
Proof.
  intros Hnd. rewrite assign_all_reverse, (right_id_L _ (∪)).
  apply list_to_map_proper; [|by rewrite reverse_Permutation].
  by rewrite fmap_reverse, reverse_Permutation.
Qed.
End traversal.

Lemma assign_all_in_order {V} (m : gmap str V) : assign_all (map_in_order m) ∅ = m.
Proof. rewrite assign_all_NoDup by apply map_in_order_NoDup. apply list_to_map_in_order. Qed.

#[export] Hint Resolve map_in_order_NoDup map_in_order_sorted : simpleserv.
