(* ===== verification/Expected.v ===== *)
(** * utility::expected, at the level of values

    [include/simpleserv/utility/expected.hpp]: [expected<T,E>] holds a [T] or an
    [unexpected<E>].  This file models the observers, the monadic members and
    the comparison operators.  The callables a member receives may have effects
    of their own, so they return outcomes.  [expected<void,E>] is [expected () E].
    Construction, assignment, [emplace] and [swap], which manage the lifetime of
    the held object, are the subject of ExpectedStorage. *)

From S2P Require Import Prelude Effects.

Inductive expected (T E : Type) : Type :=
  | Expected (m_val : T)
  | Unexpected (m_unexpect : E).
Arguments Expected {T E} m_val.
Arguments Unexpected {T E} m_unexpect.

#[export] Instance expected_eq_dec {T E} `{EqDecision T, EqDecision E} :
  EqDecision (expected T E).
Proof. solve_decision. Defined.

Section observers.
Context {T E : Type}.
Implicit Types x : expected T E.

(** [has_value] and [operator bool]. *)
Definition has_value x : bool := if x is Expected _ then true else false.

(** [operator*] and [operator->] assert [has_value()]; with [NDEBUG] the
    assertion is gone and an inactive member is read. *)
Definition deref x : outcome T :=
  match x with Expected t => Ret t | Unexpected _ => Undef end.

(** [value()] throws [bad_expected_access]. *)
Definition value x : outcome T :=
  match x with Expected t => Ret t | Unexpected _ => Throw bad_expected_access end.

(** [error()] asserts [!has_value()]. *)
Definition error x : outcome E :=
  match x with Expected _ => Undef | Unexpected e => Ret e end.

Definition value_or x (v : T) : T :=
  match x with Expected t => t | Unexpected _ => v end.
End observers.

Section monadic.
Context {T E : Type}.
Implicit Types x : expected T E.

Definition and_then_impl {U} x (f : T → outcome (expected U E)) : outcome (expected U E) :=
  if has_value x then t ← deref x; f t
  else e ← error x; Ret (Unexpected e).

Definition expected_map_impl {U} x (f : T → outcome U) : outcome (expected U E) :=
  if has_value x then t ← deref x; u ← f t; Ret (Expected u)
  else e ← error x; Ret (Unexpected e).

Definition map_error_impl {F} x (f : E → outcome F) : outcome (expected T F) :=
  if has_value x then t ← deref x; Ret (Expected t)
  else e ← error x; e' ← f e; Ret (Unexpected e').

(** [F] returns an [expected]. *)
Definition or_else_impl x (f : E → outcome (expected T E)) : outcome (expected T E) :=
  if has_value x then Ret x else e ← error x; f e.

(** [F] returns [void]: it is called for its effect and [exp] is returned. *)
Definition or_else_impl_void x (f : E → outcome ()) : outcome (expected T E) :=
  if has_value x then Ret x else e ← error x; _ ← f e; Ret x.
End monadic.

(** The specialisations for [T = void]: the callable takes no argument. *)
Section monadic_void.
Context {E : Type}.
Implicit Types x : expected () E.

Definition and_then_impl_void {U} x (f : outcome (expected U E)) : outcome (expected U E) :=
  if has_value x then f else e ← error x; Ret (Unexpected e).

Definition expected_map_impl_void {U} x (f : outcome U) : outcome (expected U E) :=
  if has_value x then u ← f; Ret (Expected u)
  else e ← error x; Ret (Unexpected e).

Definition map_error_impl_void {F} x (f : E → outcome F) : outcome (expected () F) :=
  if has_value x then Ret (Expected ())
  else e ← error x; e' ← f e; Ret (Unexpected e').
End monadic_void.

(** The members, which forward to the functions above. *)
Definition and_then {T E U} (x : expected T E) (f : T → outcome (expected U E)) :=
  and_then_impl x f.
Definition map {T E U} (x : expected T E) (f : T → outcome U) := expected_map_impl x f.
Definition transform {T E U} (x : expected T E) (f : T → outcome U) := expected_map_impl x f.
Definition map_error {T E F} (x : expected T E) (f : E → outcome F) := map_error_impl x f.
Definition transform_error {T E F} (x : expected T E) (f : E → outcome F) := map_error_impl x f.
Definition or_else {T E} (x : expected T E) (f : E → outcome (expected T E)) := or_else_impl x f.

(** ** Comparison

    [==] and [!=] of the held types are separate operators of the code, so they
    are separate parameters. *)
Section comparison.
Context {T E U F : Type}.
Context (eqT neT : T → U → bool) (eqE neE : E → F → bool).

Definition operator_eq (lhs : expected T E) (rhs : expected U F) : outcome bool :=
  if negb (Bool.eqb (has_value lhs) (has_value rhs)) then Ret false
  else if negb (has_value lhs) then l ← error lhs; r ← error rhs; Ret (eqE l r)
  else l ← deref lhs; r ← deref rhs; Ret (eqT l r).

Definition operator_ne (lhs : expected T E) (rhs : expected U F) : outcome bool :=
  if negb (Bool.eqb (has_value lhs) (has_value rhs)) then Ret true
  else if negb (has_value lhs) then l ← error lhs; r ← error rhs; Ret (neE l r)
  else l ← deref lhs; r ← deref rhs; Ret (neT l r).

(** [expected<void,E>]. *)
Definition operator_eq_void (lhs : expected () E) (rhs : expected () F) : outcome bool :=
  if negb (Bool.eqb (has_value lhs) (has_value rhs)) then Ret false
  else if negb (has_value lhs) then l ← error lhs; r ← error rhs; Ret (eqE l r)
  else Ret true.

Definition operator_ne_void (lhs : expected () E) (rhs : expected () F) : outcome bool :=
  if negb (Bool.eqb (has_value lhs) (has_value rhs)) then Ret true
  else if negb (has_value lhs) then l ← error lhs; r ← error rhs; Ret (eqE l r)
  else Ret false.

(** Against a plain value and against an [unexpected]. *)
Definition operator_eq_value (x : expected T E) (v : U) : outcome bool :=
  if has_value x then t ← deref x; Ret (eqT t v) else Ret false.
Definition operator_ne_value (x : expected T E) (v : U) : outcome bool :=
  if has_value x then t ← deref x; Ret (neT t v) else Ret true.
Definition operator_eq_unexpected (x : expected T E) (e : F) : outcome bool :=
  if has_value x then Ret false else l ← error x; Ret (eqE l e).
Definition operator_ne_unexpected (x : expected T E) (e : F) : outcome bool :=
  if has_value x then Ret true else l ← error x; Ret (neE l e).
End comparison.

(** ** Lemmas *)

Section lemmas.
Context {T E : Type}.
Implicit Types x : expected T E.

Lemma and_then_Expected {U} t (f : T → outcome (expected U E)) :
  and_then (Expected t) f = f t.
Proof. done. Qed.
Lemma and_then_Unexpected {U} e (f : T → outcome (expected U E)) :
  and_then (Unexpected e) f = Ret (Unexpected e).
Proof. done. Qed.
End lemmas.

(** The monadic members satisfy the laws a chain of them relies on, the effects
    and exceptions of the callables included: [and_then] has [expected]'s
    constructor as unit on both sides and is associative, [transform] is
    [and_then] with the result wrapped, [transform_error] touches errors only, and
    [or_else] undoes nothing of a value; a callable of the other side is never
    called, and no member reads the inactive side. *)
Lemma expected_monad_laws {T E U V F} (x : expected T E) (f : T → outcome (expected U E))
    (g : U → outcome (expected V E)) (h : T → outcome U) (k : E → outcome F)
    (o : E → outcome (expected T E)) :
  (∀ t, and_then (Expected t) f = f t) ∧
  and_then x (λ t, Ret (Expected t)) = Ret x ∧
  (y ← and_then x f; and_then y g) = and_then x (λ t, y ← f t; and_then y g) ∧
  transform x h = and_then x (λ t, u ← h t; Ret (Expected u)) ∧
  transform_error x k =
    match x with Expected t => Ret (Expected t) | Unexpected e => e' ← k e; Ret (Unexpected e') end ∧
  or_else x o = match x with Expected t => Ret (Expected t) | Unexpected e => o e end ∧
  (has_value x = false → and_then x f = and_then x (λ _, Throw invalid_argument)) ∧
  ((∀ t, defined (f t)) → defined (and_then x f)).
Proof. destruct x; split_and!; try done; intros H; try done; apply H. Qed.

(** Comparison.  If [!=] of the held types is the negation of [==], then [!=] of
    two [expected] is the negation of [==], for any two objects, and so for an
    [expected] and a value or an [unexpected].  For [expected<void,E>] it is not:
    on two errors [!=] gives the same answer as [==], so that equal errors are
    both equal and different. *)
Lemma expected_not_equal {T E U F} (eqT neT : T → U → bool) (eqE neE : E → F → bool) :
  (∀ t u, neT t u = negb (eqT t u)) → (∀ e e', neE e e' = negb (eqE e e')) →
  (∀ x y, operator_ne neT neE x y = negb <$> operator_eq eqT eqE x y) ∧
  (∀ x v, operator_ne_value neT (E := E) x v = negb <$> operator_eq_value eqT x v) ∧
  (∀ x e, operator_ne_unexpected neE (T := T) x e = negb <$> operator_eq_unexpected eqE x e) ∧
  (∀ e e', operator_ne_void eqE (Unexpected e) (Unexpected e') =
           operator_eq_void eqE (Unexpected e) (Unexpected e')) ∧
  (∀ x y, has_value x || has_value y = true →
     operator_ne_void eqE x y = negb <$> operator_eq_void eqE x y).
Proof.
  intros HT HE. split_and!; [| | |done|by intros [] []].
  - intros [t|e] [u|e']; try done; unfold operator_ne, operator_eq; simpl; by rewrite ?HT, ?HE.
  - intros [t|e] v; [|done]. unfold operator_ne_value, operator_eq_value. simpl. by rewrite HT.
  - intros [t|e] v; [done|]. unfold operator_ne_unexpected, operator_eq_unexpected. simpl. by rewrite HE.
Qed.

Lemma expected_not_equal_witness :
  operator_ne_void Nat.eqb (Unexpected 1) (Unexpected 1) =
  operator_eq_void Nat.eqb (Unexpected 1) (Unexpected 1) ∧
  operator_eq_void Nat.eqb (Unexpected 1) (Unexpected 1) = Ret true.
Proof.
  split; [|reflexivity].
  apply (expected_not_equal Nat.eqb (λ a b, negb (Nat.eqb a b)) Nat.eqb
    (λ a b, negb (Nat.eqb a b))); done.
Defined.
