(* ===== verification/ExpectedStorage.v ===== *)
(** * utility::expected, at the level of its storage

    [include/simpleserv/utility/expected.hpp]: a union of a [T] and an
    [unexpected<E>] and a flag.  This file models the members that begin and end
    the lifetime of the held object: construction, the assignments, [emplace] and
    [swap].  The special members of [T] and [E] may throw; reading, assigning or
    destroying an object that is not alive is undefined. *)

From S2P Require Import Prelude Effects Expected.

(** ** Exceptions that leave the objects as they are at the throw *)

Inductive xres (S A : Type) : Type :=
  | XRet (a : A) (s : S)
  | XThrow (e : exn) (s : S)
  | XTerminate
  | XUndef.
Arguments XRet {S A} a s.
Arguments XThrow {S A} e s.
Arguments XTerminate {S A}.
Arguments XUndef {S A}.

Definition X (S A : Type) : Type := S → xres S A.

#[export] Instance X_ret {S} : MRet (X S) := λ A a s, XRet a s.
#[export] Instance X_bind {S} : MBind (X S) := λ A B f m s,
  match m s with
  | XRet a s => f a s | XThrow e s => XThrow e s | XTerminate => XTerminate | XUndef => XUndef
  end.

#[export] Instance X_fmap {S} : FMap (X S) := λ A B f m, m ≫= λ a, mret (f a).

(** [try { m } catch (...) { h; throw; }]. *)
Definition catch_rethrow {S A} (m : X S A) (h : X S ()) : X S A := λ s,
  match m s with
  | XThrow e s => match h s with
      | XRet _ s => XThrow e s | XThrow e' s => XThrow e' s
      | XTerminate => XTerminate | XUndef => XUndef end
  | r => r
  end.

Definition x_noexcept {S A} (m : X S A) : X S A := λ s,
  match m s with XThrow _ _ => XTerminate | r => r end.

(** A computation on the values alone. *)
Definition eval {S A} (m : outcome A) : X S A := λ s,
  match m with
  | Ret a => XRet a s | Throw e => XThrow e s | Terminate => XTerminate
  | Undef | NoFuel => XUndef
  end.

(** ** Special members *)

(** Moves return the new object and what they leave in the source.  A member that
    throws leaves its operands unchanged. *)
Class Special (A : Type) := {
  copy : A → outcome A;
  move : A → outcome (A * A);
  copy_assign : A → A → outcome A;
  move_assign : A → A → outcome (A * A) }.

Section storage.
Context {T E : Type} `{!Special T, !Special E}.

(** The active member of the union, if any. *)
Inductive member : Type := NoMember | Val (t : T) | Err (e : E).

Record storage : Type := mk_storage { held : member; m_has_val : bool }.

(** [*this] and [rhs]. *)
Inductive who : Type := This | Rhs.
Definition objects : Type := storage * storage.

Definition obj (w : who) (s : objects) : storage := match w with This => s.1 | Rhs => s.2 end.
Definition other (w : who) : who := match w with This => Rhs | Rhs => This end.
Definition set_obj (w : who) (o : storage) (s : objects) : objects :=
  match w with This => (o, s.2) | Rhs => (s.1, o) end.

Definition has_value_of (w : who) : X objects bool := λ s, XRet (m_has_val (obj w s)) s.

(** [get()] and [geterr()]: the live member. *)
Definition get_val (w : who) : X objects T := λ s,
  match held (obj w s) with Val t => XRet t s | _ => XUndef end.
Definition get_err (w : who) : X objects E := λ s,
  match held (obj w s) with Err e => XRet e s | _ => XUndef end.

Definition set_member (w : who) (m : member) : X objects () := λ s,
  XRet () (set_obj w (mk_storage m (m_has_val (obj w s))) s).
Definition set_flag (w : who) (b : bool) : X objects () := λ s,
  XRet () (set_obj w (mk_storage (held (obj w s)) b) s).

Definition destroy_val (w : who) : X objects () := _ ← get_val w; set_member w NoMember.
Definition destroy_err (w : who) : X objects () := _ ← get_err w; set_member w NoMember.

(** Placement [new] of the result of a constructor. *)
Definition new_val (w : who) (c : X objects T) : X objects () := t ← c; set_member w (Val t).
Definition new_err (w : who) (c : X objects E) : X objects () := e ← c; set_member w (Err e).

(** Sources of constructors and assignments: [rhs.get()] copied or moved. *)
Definition copy_val (w : who) : X objects T := t ← get_val w; eval (copy t).
Definition move_val (w : who) : X objects T :=
  t ← get_val w; '(t', rest) ← eval (move t); _ ← set_member w (Val rest); mret t'.
Definition copy_err (w : who) : X objects E := e ← get_err w; eval (copy e).
Definition move_err (w : who) : X objects E :=
  e ← get_err w; '(e', rest) ← eval (move e); _ ← set_member w (Err rest); mret e'.

(** [geterr() = std::move(tmp)] for a local [tmp]. *)
Definition assign_err (w : who) (tmp : E) : X objects () :=
  e ← get_err w; '(e', _) ← eval (move_assign e tmp); set_member w (Err e').
Definition assign_val (w : who) (v : T) : X objects () :=
  t ← get_val w; '(t', _) ← eval (move_assign t v); set_member w (Val t').

(** ** [expected_operations_base] *)

Definition construct (w : who) (c : X objects T) : X objects () :=
  x_noexcept (_ ← new_val w c; set_flag w true).
Definition construct_error (w : who) (c : X objects E) : X objects () :=
  x_noexcept (_ ← new_err w c; set_flag w false).

(** [assign_common] for an lvalue and for an rvalue [rhs]. *)
Definition assign_common (rvalue : bool) : X objects () :=
  this_has ← has_value_of This;
  rhs_has ← has_value_of Rhs;
  if this_has : bool then
    if rhs_has : bool then
      t ← get_val This; r ← get_val Rhs;
      if rvalue then
        '(t', rest) ← eval (move_assign t r);
        _ ← set_member This (Val t'); set_member Rhs (Val rest)
      else t' ← eval (copy_assign t r); set_member This (Val t')
    else
      _ ← destroy_val This;
      construct_error This (if rvalue then move_err Rhs else copy_err Rhs)
  else
    if rhs_has : bool then mret ()
    else
      e ← get_err This; r ← get_err Rhs;
      if rvalue then
        '(e', rest) ← eval (move_assign e r);
        _ ← set_member This (Err e'); set_member Rhs (Err rest)
      else e' ← eval (copy_assign e r); set_member This (Err e').

(** Whether [*this] has an error and [rhs] a value. *)
Definition only_rhs : X objects bool :=
  a ← has_value_of This; b ← has_value_of Rhs; mret (negb a && b).

(** The overload for a [T] that is nothrow copy constructible. *)
Definition assign_nothrow_copy : X objects () := x_noexcept (
  b ← only_rhs;
  if b : bool then _ ← destroy_err This; construct This (copy_val Rhs)
  else assign_common false).

(** The overload for a [T] that is only nothrow move constructible. *)
Definition assign_nothrow_move : X objects () := x_noexcept (
  b ← only_rhs;
  if b : bool then
    tmp ← copy_val Rhs;
    _ ← destroy_err This;
    construct This ('(t, _) ← eval (move tmp); mret t)
  else assign_common false).

(** The overload for the worst case. *)
Definition assign_throwing : X objects () :=
  b ← only_rhs;
  if b : bool then
    tmp ← move_err This;
    _ ← destroy_err This;
    catch_rethrow (construct This (copy_val Rhs)) (assign_err This tmp)
  else assign_common false.

(** The same for an rvalue. *)
Definition assign_rvalue_nothrow : X objects () := x_noexcept (
  b ← only_rhs;
  if b : bool then _ ← destroy_err This; construct This (move_val Rhs)
  else assign_common true).

Definition assign_rvalue_throwing : X objects () :=
  b ← only_rhs;
  if b : bool then
    tmp ← move_err This;
    _ ← destroy_err This;
    catch_rethrow (construct This (move_val Rhs)) (assign_err This tmp)
  else assign_common true.

(** Overload resolution, by the traits of [T]. *)
Definition assign (nothrow_copy nothrow_move : bool) : X objects () :=
  if nothrow_copy then assign_nothrow_copy
  else if nothrow_move then assign_nothrow_move else assign_throwing.
Definition assign_rvalue (nothrow_move : bool) : X objects () :=
  if nothrow_move then assign_rvalue_nothrow else assign_rvalue_throwing.

(** The copy and the move constructor of the storage. *)
Definition copy_construct : X objects () :=
  b ← has_value_of Rhs;
  if b : bool then construct This (copy_val Rhs) else construct_error This (copy_err Rhs).
Definition move_construct : X objects () :=
  b ← has_value_of Rhs;
  if b : bool then construct This (move_val Rhs) else construct_error This (move_err Rhs).

(** The destructors of the four specialisations: neither [T] nor [E] is trivially
    destructible, both are (the destructor is defaulted and runs nothing), [T] is,
    [E] is. *)
Definition destroy_false_false (w : who) : X objects () :=
  b ← has_value_of w; if b : bool then destroy_val w else destroy_err w.
Definition destroy_true_true (w : who) : X objects () := mret ().
Definition destroy_true_false (w : who) : X objects () :=
  b ← has_value_of w; if negb b then destroy_err w else mret ().
Definition destroy_false_true (w : who) : X objects () :=
  b ← has_value_of w; if b : bool then destroy_val w else mret ().

Definition destroy (trivial_T trivial_E : bool) : who → X objects () :=
  match trivial_T, trivial_E with
  | false, false => destroy_false_false
  | true, true => destroy_true_true
  | true, false => destroy_true_false
  | false, true => destroy_false_true
  end.

(** ** [expected] *)

(** [operator=(U&&)] for a nothrow and for a throwing construction of [T] out of
    the argument, [c]; [v] is the value assigned. *)
Definition assign_value_nothrow (v : T) (c : outcome T) : X objects () :=
  b ← has_value_of This;
  if b : bool then assign_val This v
  else _ ← destroy_err This; _ ← new_val This (eval c); set_flag This true.

Definition assign_value_throwing (v : T) (c : outcome T) : X objects () :=
  b ← has_value_of This;
  if b : bool then assign_val This v
  else
    tmp ← move_err This;
    _ ← destroy_err This;
    catch_rethrow (_ ← new_val This (eval c); set_flag This true) (assign_err This tmp).

(** [operator=] from an [unexpected]. *)
Definition assign_unexpected (e : E) (c : outcome E) : X objects () :=
  b ← has_value_of This;
  if b : bool then
    _ ← destroy_val This; _ ← new_err This (eval c); set_flag This false
  else assign_err This e.

Definition emplace_nothrow (c : outcome T) : X objects () :=
  b ← has_value_of This;
  _ ← (if b : bool then destroy_val This
       else _ ← destroy_err This; set_flag This true);
  new_val This (eval c).

Definition emplace_throwing (c : outcome T) : X objects () :=
  b ← has_value_of This;
  if b : bool then _ ← destroy_val This; new_val This (eval c)
  else
    tmp ← move_err This;
    _ ← destroy_err This;
    catch_rethrow (_ ← new_val This (eval c); set_flag This true) (assign_err This tmp).

(** The overloads with an initializer list build the value first. *)
Definition emplace_il_nothrow (c : outcome T) : X objects () :=
  b ← has_value_of This;
  if b : bool then t ← eval c; assign_val This t
  else _ ← destroy_err This; _ ← new_val This (eval c); set_flag This true.

Definition emplace_il_throwing (c : outcome T) : X objects () :=
  b ← has_value_of This;
  if b : bool then t ← eval c; assign_val This t
  else
    tmp ← move_err This;
    _ ← destroy_err This;
    catch_rethrow (_ ← new_val This (eval c); set_flag This true) (assign_err This tmp).

(** *** [swap] *)

Definition swap_flags : X objects () := λ s,
  XRet () (mk_storage (held s.1) (m_has_val s.2), mk_storage (held s.2) (m_has_val s.1)).

(** Both nothrow move constructible; [w] has the value. *)
Definition swap_one_nothrow (w : who) : X objects () := x_noexcept (
  temp ← move_val w;
  _ ← destroy_val w;
  _ ← new_err w (move_err (other w));
  _ ← destroy_err (other w);
  _ ← new_val (other w) ('(t, _) ← eval (move temp); mret t);
  swap_flags).

(** Moving an [E] can throw. *)
Definition swap_one_error_throws (w : who) : X objects () :=
  temp ← move_val w;
  _ ← destroy_val w;
  catch_rethrow
    (_ ← new_err w (move_err (other w));
     _ ← destroy_err (other w);
     _ ← new_val (other w) ('(t, _) ← eval (move temp); mret t);
     swap_flags)
    (assign_val w temp).

(** Moving a [T] can throw. *)
Definition swap_one_value_throws (w : who) : X objects () :=
  temp ← move_err (other w);
  _ ← destroy_err (other w);
  catch_rethrow
    (_ ← new_val (other w) (move_val w);
     _ ← destroy_val w;
     _ ← new_err w ('(e, _) ← eval (move temp); mret e);
     swap_flags)
    (assign_err (other w) temp).

Definition swap_where_only_one_has_value (nothrow_t nothrow_e : bool) (w : who) : X objects () :=
  if nothrow_t then if nothrow_e then swap_one_nothrow w else swap_one_error_throws w
  else swap_one_value_throws w.

(** [std::swap] of two values: one move construction, two move assignments. *)
Definition swap_vals : X objects () :=
  a ← get_val This; b ← get_val Rhs;
  '(tmp, a) ← eval (move a); _ ← set_member This (Val a);
  '(a, b) ← eval (move_assign a b); _ ← set_member This (Val a); _ ← set_member Rhs (Val b);
  '(b, _) ← eval (move_assign b tmp); set_member Rhs (Val b).
Definition swap_errs : X objects () :=
  a ← get_err This; b ← get_err Rhs;
  '(tmp, a) ← eval (move a); _ ← set_member This (Err a);
  '(a, b) ← eval (move_assign a b); _ ← set_member This (Err a); _ ← set_member Rhs (Err b);
  '(b, _) ← eval (move_assign b tmp); set_member Rhs (Err b).

Definition swap (nothrow_t nothrow_e : bool) : X objects () :=
  a ← has_value_of This; b ← has_value_of Rhs;
  if a : bool then
    if b : bool then swap_vals else swap_where_only_one_has_value nothrow_t nothrow_e This
  else
    if b : bool then swap_where_only_one_has_value nothrow_t nothrow_e Rhs else swap_errs.
End storage.

(** ** Refinement of the values *)

(** Special members that do not throw and keep the value. *)
Class Regular (A : Type) `{Special A} := {
  moved_from : A → A;
  copy_eq a : copy a = Ret a;
  move_eq a : move a = Ret (a, moved_from a);
  copy_assign_eq a b : copy_assign a b = Ret b;
  move_assign_eq a b : move_assign a b = Ret (b, moved_from b) }.

(** The storage of a value. *)
Definition rep {T E} (x : expected T E) : storage :=
  match x with
  | Expected t => mk_storage (Val t) true
  | Unexpected e => mk_storage (Err e) false
  end.

(** What a move leaves. *)
Definition moved_rep {T E} `{Regular T, Regular E} (x : expected T E) : expected T E :=
  match x with
  | Expected t => Expected (moved_from t) | Unexpected e => Unexpected (moved_from e) end.

Ltac storage_step :=
  rewrite ?copy_eq, ?move_eq, ?copy_assign_eq, ?move_assign_eq; cbv beta iota.

(** Runs a storage operation, from the outside in. *)
Ltac storage_run :=
  repeat (progress (cbv [mbind X_bind mret X_ret eval catch_rethrow x_noexcept
    has_value_of get_val get_err set_member set_flag obj set_obj other destroy_val destroy_err
    new_val new_err copy_val move_val copy_err move_err assign_err assign_val construct
    construct_error only_rhs swap_flags rep held m_has_val fst snd negb andb]; storage_step)).

Section refinement.
Context {T E : Type} `{Regular T, Regular E}.
Implicit Types x y : expected T E.

Lemma assign_run nc nm x y : assign nc nm (rep x, rep y) = XRet () (rep y, rep y).
Proof.
  unfold assign, assign_nothrow_copy, assign_nothrow_move, assign_throwing, assign_common.
  destruct nc, nm, x, y; by storage_run.
Qed.

Lemma assign_rvalue_run nm x y :
  assign_rvalue nm (rep x, rep y) = XRet () (rep y, rep (moved_rep y)).
Proof.
  unfold assign_rvalue, assign_rvalue_nothrow, assign_rvalue_throwing, assign_common, moved_rep.
  destruct nm, x, y; by storage_run.
Qed.
End refinement.

(** C35: when the special members of [T] and [E] do not throw, the storage implements
    the value: for all four combinations of value and error and for every
    overload, copying and copy assignment make [*this] represent the value of
    [rhs] and leave [rhs] alone, moves leave in [rhs] the moved-from value on the
    same side, [operator=] and all four forms of [emplace] represent the new
    value, and no operation touches a dead object; the destructor ends the
    lifetime of the held object, unless that is trivially destructible, and then
    does nothing. *)
Theorem storage_refines_value {T E} `{Regular T, Regular E} (x y : expected T E) (v : T) (e : E)
    (nothrow_copy nothrow_move : bool) :
  assign nothrow_copy nothrow_move (rep x, rep y) = XRet () (rep y, rep y) ∧
  assign_rvalue nothrow_move (rep x, rep y) = XRet () (rep y, rep (moved_rep y)) ∧
  (∀ b, copy_construct (mk_storage NoMember b, rep y) = XRet () (rep y, rep y)) ∧
  (∀ b, move_construct (mk_storage NoMember b, rep y) = XRet () (rep y, rep (moved_rep y))) ∧
  Forall (λ op, op (rep x, rep y) = XRet () (rep (Expected v), rep y))
    [assign_value_nothrow v (Ret v); assign_value_throwing v (Ret v); emplace_nothrow (Ret v);
     emplace_throwing (Ret v); emplace_il_nothrow (Ret v); emplace_il_throwing (Ret v)] ∧
  assign_unexpected e (Ret e) (rep x, rep y) = XRet () (rep (Unexpected e), rep y) ∧
  ∀ trivial_T trivial_E : bool,
    destroy trivial_T trivial_E This (rep x, rep y) =
    XRet () (if (if has_value x then trivial_T else trivial_E) then rep x else mk_storage NoMember (has_value x), rep y).
Proof.
  split_and!; [apply assign_run|apply assign_rvalue_run|..].
  - intros b. unfold copy_construct. destruct y; by storage_run.
  - intros b. unfold move_construct, moved_rep. destruct y; by storage_run.
  - unfold assign_value_nothrow, assign_value_throwing, emplace_nothrow, emplace_throwing,
      emplace_il_nothrow, emplace_il_throwing. repeat constructor; destruct x; by storage_run.
  - unfold assign_unexpected. destruct x; by storage_run.
  - intros [|] [|]; cbn [destroy];
      unfold destroy_false_false, destroy_true_true, destroy_true_false, destroy_false_true;
      destruct x; by storage_run.
Qed.

(** [swap] exchanges the values, in all four combinations of value and error and
    for every combination of nothrow traits it is enabled for. *)
Lemma storage_swap {T E} `{Regular T, Regular E} (x y : expected T E) (nothrow_t nothrow_e : bool) :
  nothrow_t || nothrow_e = true →
  swap nothrow_t nothrow_e (rep x, rep y) = XRet () (rep y, rep x).
Proof.
  intros Hn. unfold swap, swap_where_only_one_has_value, swap_one_nothrow, swap_one_error_throws,
    swap_one_value_throws, swap_vals, swap_errs.
  destruct nothrow_t, nothrow_e, x, y; try done; by storage_run.
Qed.

(** Natural numbers, which a move copies. *)
#[local] Instance nat_special : Special nat :=
  Build_Special nat Ret (λ a, Ret (a, a)) (λ _ b, Ret b) (λ _ b, Ret (b, b)).
#[local] Program Instance nat_regular : Regular nat := {| moved_from a := a |}.
Solve Obligations with done.

Lemma storage_swap_witness :
  swap false true (rep (Expected 1 : expected nat nat), rep (Unexpected 2)) =
  XRet () (rep (Unexpected 2), rep (Expected 1)).
Proof. apply (storage_swap (Expected 1 : expected nat nat) (Unexpected 2) false true). reflexivity. Defined.

Lemma storage_refines_value_witness :
  assign false true (rep (Unexpected 2 : expected nat nat), rep (Expected 1)) =
  XRet () (rep (Expected 1), rep (Expected 1)).
Proof.
  apply (storage_refines_value (Unexpected 2 : expected nat nat) (Expected 1) 3 4 false true).
Defined.

(** C38: the exception guarantees the comments promise do not hold.  Assigning a value
    over an error when copying the value throws terminates the process instead of
    keeping the error, for every overload that can be chosen, since [construct] and
    [assign] are [noexcept]; [operator=] and [emplace], with and without an
    initializer list, over an error, when the construction throws, move the saved
    error into an object that has been destroyed: undefined behaviour.  Over a value,
    [emplace] with an initializer list builds the new value first and keeps the old
    one; but [emplace] without one lets the exception through and leaves a storage
    that claims a value and holds none, whose destructor is undefined if [T] is not
    trivially destructible, and runs nothing if it is. *)
Theorem storage_exception_guarantees {T E} `{!Special T, Regular E} (e : E) (t v : T)
    (rhs : storage) (x : exn) (nothrow_move : bool) :
  copy t = Throw x →
  assign false nothrow_move (rep (Unexpected e), rep (Expected t)) = XTerminate ∧
  Forall (λ op, op (rep (Unexpected e), rhs) = XUndef)
    [assign_value_throwing v (Throw x); emplace_throwing (Throw x); emplace_il_throwing (Throw x)] ∧
  emplace_il_throwing (Throw x) (rep (Expected v), rhs) = XThrow x (rep (Expected v), rhs) ∧
  ∃ s, emplace_throwing (Throw x) (rep (Expected v), rhs) = XThrow x s ∧
    s.1 = mk_storage NoMember true ∧ s.2 = rhs ∧
    ∀ trivial_E, destroy false trivial_E This s = XUndef ∧ destroy true trivial_E This s = XRet () s.
Proof.
  intros Hc. split_and!.
  - unfold assign, assign_nothrow_move, assign_throwing. destruct nothrow_move;
      repeat (storage_run; rewrite ?Hc); done.
  - unfold assign_value_throwing, emplace_throwing, emplace_il_throwing.
    repeat constructor; by storage_run.
  - done.
  - eexists. split_and!; [done..|]. by intros [|].
Qed.

Lemma storage_exception_guarantees_witness :
  let S := Build_Special nat (λ _, Throw invalid_argument) (λ a, Ret (a, a)) (λ _ b, Ret b)
    (λ _ b, Ret (b, b)) in
  assign (T := nat) (E := nat) (Special0 := S) (Special1 := nat_special)
    false false (rep (Unexpected 1), rep (Expected 2)) = XTerminate.
Proof.
  intros S. apply (storage_exception_guarantees (Special0 := S) (H := nat_special) (H0 := nat_regular) 1 2 3 (rep (Expected 4))
    invalid_argument false). reflexivity.
Defined.
