(* ===== verification/ExpectedSwap.v ===== *)
(** * utility::expected: swap

    When [swap] of [include/simpleserv/utility/expected.hpp] takes part in overload
    resolution, whether it can then be compiled, and what it promises by its
    [noexcept].  The traits that decide look for a [swap] of [T] or [E]; the
    errors, however, are exchanged as [unexpected<E>], which has none. *)

From S2P Require Import Prelude Effects Expected ExpectedStorage.

(** ** The traits *)

(** What overload resolution finds for [swap(T&, T&)], with the generic [swap] of
    [swap_adl_tests] in scope: nothing that can be called (or two functions, one
    as good as the other), that generic function, or one that [T] brings along. *)
Inductive swap_call : Type := No_swap | Generic | Own (nothrow : bool).

Record swap_traits : Type := mk_swap_traits {
  is_void : bool;
  adl_swap : swap_call;
  is_move_constructible : bool;
  is_move_assignable : bool;
  is_nothrow_move_constructible : bool;
  is_nothrow_move_assignable : bool }.

Definition can_swap (T : swap_traits) : bool :=
  match adl_swap T with No_swap => false | _ => true end.

(** The [noexcept] of the [can_swap] that is chosen. *)
Definition can_swap_noexcept (T : swap_traits) : bool :=
  match adl_swap T with Own nothrow => nothrow | _ => false end.

Definition uses_std (T : swap_traits) : bool :=
  match adl_swap T with Generic => true | _ => false end.

Definition is_std_swap_noexcept (T : swap_traits) : bool :=
  is_nothrow_move_constructible T && is_nothrow_move_assignable T.

Definition is_adl_swap_noexcept (T : swap_traits) : bool := can_swap_noexcept T.

Definition is_swappable (T : swap_traits) : bool :=
  can_swap T && (negb (uses_std T) || (is_move_assignable T && is_move_constructible T)).

Definition is_nothrow_swappable (T : swap_traits) : bool :=
  is_swappable T && ((uses_std T && is_std_swap_noexcept T) ||
                     (negb (uses_std T) && is_adl_swap_noexcept T)).

(** What the traits of a type have to do with each other. *)
Record coherent (T : swap_traits) : Prop := {
  nothrow_constructible :
    is_nothrow_move_constructible T = true → is_move_constructible T = true;
  nothrow_assignable : is_nothrow_move_assignable T = true → is_move_assignable T = true;
  void_traits : is_void T = true → adl_swap T = No_swap }.

(** Runs a storage operation on the representations of two values. *)
Ltac swap_run := repeat (storage_run; cbv [swap_vals swap_errs]).

Section swap.
Context (tT tE : swap_traits).

(** The member [swap]: when it is enabled, and its [noexcept]. *)
Definition swap_enabled : bool :=
  is_swappable tT && is_swappable tE &&
  (is_nothrow_move_constructible tT || is_nothrow_move_constructible tE).

Definition swap_noexcept : bool :=
  is_nothrow_move_constructible tT && is_nothrow_swappable tT &&
  is_nothrow_move_constructible tE && is_nothrow_swappable tE.

(** The function [swap]. *)
Definition free_swap_enabled : bool :=
  (is_void tT || is_move_constructible tT) && is_swappable tT &&
  is_move_constructible tE && is_swappable tE.

(** The code the member uses: it swaps two [T], moves a [T] and an [E], assigns to
    the one that has to be restored, and swaps two [unexpected<E>]. *)
Definition swap_compiles : bool :=
  (negb (uses_std tT) || (is_move_constructible tT && is_move_assignable tT)) &&
  is_move_constructible tT && is_move_constructible tE &&
  (if is_nothrow_move_constructible tT then
     if is_nothrow_move_constructible tE then true else is_move_assignable tT
   else is_move_assignable tE) &&
  is_move_assignable tE.

(** ** The member *)

Context {T E : Type} `{!Special T, !Special E}.
(** The [swap] that [T] brings along. *)
Context (own_swap : T → T → outcome (T * T)).

Definition swap_where_both_have_value : X (@objects T E) () :=
  match adl_swap tT with
  | Own _ =>
    a ← get_val This; b ← get_val Rhs;
    '(a, b) ← eval (own_swap a b);
    _ ← set_member This (Val a); set_member Rhs (Val b)
  | _ => swap_vals
  end.

(** [swap], as it is declared. *)
Definition swap_declared : X (@objects T E) () :=
  (if swap_noexcept then x_noexcept else λ m, m) (
    a ← has_value_of This; b ← has_value_of Rhs;
    if a : bool then
      if b : bool then swap_where_both_have_value
      else swap_where_only_one_has_value (is_nothrow_move_constructible tT)
             (is_nothrow_move_constructible tE) This
    else
      if b : bool then
        swap_where_only_one_has_value (is_nothrow_move_constructible tT)
          (is_nothrow_move_constructible tE) Rhs
      else swap_errs).

(** The traits describe the types. *)
Record describes : Prop := {
  d_move_T : is_nothrow_move_constructible tT = true → ∀ a : T, ∃ r, move a = Ret r;
  d_assign_T : is_nothrow_move_assignable tT = true → ∀ a b : T, ∃ r, move_assign a b = Ret r;
  d_move_E : is_nothrow_move_constructible tE = true → ∀ a : E, ∃ r, move a = Ret r;
  d_own : adl_swap tT = Own true → ∀ a b, ∃ r, own_swap a b = Ret r }.

(** ** What can throw *)

Lemma is_nothrow_swappable_inv (t : swap_traits) :
  is_nothrow_swappable t = true →
  adl_swap t = Own true ∨
  adl_swap t = Generic ∧ is_nothrow_move_constructible t = true ∧ is_nothrow_move_assignable t = true.
Proof.
  unfold is_nothrow_swappable, is_swappable, can_swap, uses_std, is_adl_swap_noexcept, can_swap_noexcept,
    is_std_swap_noexcept.
  destruct (adl_swap t) as [| |[]]; cbn; rewrite ?andb_false_r, ?orb_false_r; [done| |by left|done].
  rewrite !andb_true_iff. tauto.
Qed.

Lemma swap_values_return (t u : T) :
  describes → is_nothrow_swappable tT = true →
  ∃ s, swap_where_both_have_value (rep (Expected t : expected T E), rep (Expected u)) = XRet () s.
Proof.
  intros D Hn. unfold swap_where_both_have_value.
  destruct (is_nothrow_swappable_inv tT Hn) as [Ho|(Ho & Hc & Ha)]; rewrite Ho.
  - destruct (d_own D Ho t u) as [[t' u'] E1]. swap_run. rewrite E1. by eexists.
  - destruct (d_move_T D Hc t) as [[t' r] E1].
    destruct (d_assign_T D Ha r u) as [[a b] E2]. destruct (d_assign_T D Ha b t') as [[c d] E3].
    swap_run. rewrite E1. swap_run. rewrite E2. swap_run. rewrite E3. swap_run. by eexists.
Qed.

Lemma swap_one_return (t : T) (e : E) (w : who) :
  (∀ a : T, ∃ r, move a = Ret r) → (∀ a : E, ∃ r, move a = Ret r) →
  ∃ s, swap_where_only_one_has_value true true w
    (match w with This => (rep (Expected t), rep (Unexpected e))
                | Rhs => (rep (Unexpected e), rep (Expected t)) end) = XRet () s.
Proof.
  intros HT HE. unfold swap_where_only_one_has_value, swap_one_nothrow.
  destruct (HT t) as [[t1 r1] E1], (HE e) as [[e1 r2] E2], (HT t1) as [[t2 r3] E3].
  destruct w; swap_run; rewrite E1; swap_run; rewrite E2; swap_run; rewrite E3; swap_run; by eexists.
Qed.
End swap.

Lemma noexcept_returns {S A} (m : X S A) s a s' : m s = XRet a s' → x_noexcept m s = XRet a s'.
Proof. intros H. unfold x_noexcept. by rewrite H. Qed.

(** ** Theorems *)

(** C39: what [swap] promises.  If it is declared [noexcept], by the traits of [T] and
    [E], nothing is thrown and it returns, but for two errors: these are exchanged
    as [unexpected<E>] by [std::swap], which moves and assigns them, although the
    traits ask for a [swap] of [E].  If assigning an [E] throws, the process is
    terminated.  Where it is not [noexcept] the exception that the code expects is
    not survived: if moving the error (or the value) throws, the object that is to
    be restored has been destroyed and is assigned to, which is undefined. *)
Theorem swap_promises {T E} `{!Special T, !Special E} (tT tE : swap_traits)
    (own_swap : T → T → outcome (T * T)) (t u : T) (e f : E) :
  describes (E := E) tT tE own_swap →
  let swap := swap_declared tT tE own_swap in
  (swap_noexcept tT tE = true →
     (∃ s, swap (rep (Expected t), rep (Expected u)) = XRet () s) ∧
     (∃ s, swap (rep (Expected t), rep (Unexpected e)) = XRet () s) ∧
     (∃ s, swap (rep (Unexpected e), rep (Expected t)) = XRet () s) ∧
     (∀ e' r x, move e = Ret (e', r) → move_assign r f = Throw x →
        swap (rep (Unexpected e), rep (Unexpected f)) = XTerminate)) ∧
  (∀ x, is_nothrow_move_constructible tT = true → is_nothrow_move_constructible tE = false →
     move e = Throw x →
     swap (rep (Expected t), rep (Unexpected e)) = XUndef ∧
     swap (rep (Unexpected e), rep (Expected t)) = XUndef) ∧
  (∀ x, is_nothrow_move_constructible tT = false → is_nothrow_move_constructible tE = true →
     move t = Throw x →
     swap (rep (Expected t), rep (Unexpected e)) = XUndef ∧
     swap (rep (Unexpected e), rep (Expected t)) = XUndef).
Proof.
  intros D swap. unfold swap, swap_declared. split_and!.
  - intros Hn. rewrite Hn. unfold swap_noexcept in Hn.
    apply andb_true_iff in Hn as [[[HT HsT]%andb_true_iff HE]%andb_true_iff HsE].
    pose proof (d_move_T _ _ _ D HT) as MT. pose proof (d_move_E _ _ _ D HE) as ME.
    split_and!.
    + destruct (swap_values_return tT tE own_swap t u D HsT) as [s Hs]. exists s.
      by apply noexcept_returns.
    + rewrite HT, HE. destruct (swap_one_return t e This MT ME) as [s Hs]. exists s.
      by apply noexcept_returns.
    + rewrite HT, HE. destruct (swap_one_return t e Rhs MT ME) as [s Hs]. exists s.
      by apply noexcept_returns.
    + intros e' r x E1 E2. swap_run. rewrite E1. swap_run. by rewrite E2.
  - intros x HT HE Hx. unfold swap_noexcept. rewrite HT, HE, !andb_false_r, andb_false_l.
    destruct (d_move_T _ _ _ D HT t) as [[t' r] Et].
    unfold swap_where_only_one_has_value, swap_one_error_throws.
    split; swap_run; rewrite Et; swap_run; rewrite Hx; swap_run; reflexivity.
  - intros x HT HE Hx. unfold swap_noexcept. rewrite HT, HE, !andb_false_l.
    destruct (d_move_E _ _ _ D HE e) as [[e' r] Ee].
    unfold swap_where_only_one_has_value, swap_one_value_throws.
    split; swap_run; rewrite Ee; swap_run; rewrite Hx; swap_run; reflexivity.
Qed.

(** A number that is moved without an exception and cannot be assigned without
    one, and has a [swap] of its own that does not throw. *)
Definition no_assign : Special nat :=
  Build_Special nat Ret (λ a, Ret (a, a)) (λ _ b, Throw invalid_argument) (λ _ b, Throw invalid_argument).

Definition example_own : swap_traits := mk_swap_traits false (Own true) true true true false.

Lemma swap_promises_witness :
  swap_declared (T := nat) (E := nat) (Special0 := no_assign) (Special1 := no_assign)
    example_own example_own (λ a b, Ret (b, a)) (rep (Unexpected 1), rep (Unexpected 2)) = XTerminate.
Proof.
  destruct (swap_promises (Special0 := no_assign) (Special1 := no_assign) example_own example_own
    (λ a b, Ret (b, a)) 0 0 1 2) as [H _].
  - split; [by eexists|done|by eexists|by eexists].
  - destruct H as (_ & _ & _ & H); [reflexivity|]. by apply (H 1 1 invalid_argument).
Defined.

(** Where there is a [swap].  None for [expected<void, E>]: no [void&] can be
    swapped, so that the overloads for [void] are never called.  The function
    is declared wherever the member is, if [T] and [E] can be moved, and for one
    kind of types more: if moving either may throw there is no member to call, and
    using the function, which hides that of [std], does not compile.  The member
    compiles wherever it is enabled, except that a type with a [swap] of its own
    need not have the moves and assignments its code uses: those of [E] always, the
    move of [T], and the assignment of [T] if only moving [E] can throw. *)
Lemma swap_available (tT tE : swap_traits) :
  coherent tT → coherent tE →
  (is_void tT = true → swap_enabled tT tE = false ∧ free_swap_enabled tT tE = false) ∧
  (swap_enabled tT tE = true → is_move_constructible tT = true → is_move_constructible tE = true →
     free_swap_enabled tT tE = true) ∧
  (free_swap_enabled tT tE = true →
     swap_enabled tT tE = false ↔
     is_nothrow_move_constructible tT = false ∧ is_nothrow_move_constructible tE = false) ∧
  (swap_enabled tT tE = true →
     swap_compiles tT tE = false ↔
     (uses_std tE = false ∧ (is_move_constructible tE = false ∨ is_move_assignable tE = false)) ∨
     (uses_std tT = false ∧ (is_move_constructible tT = false ∨
        is_move_assignable tT = false ∧ is_nothrow_move_constructible tT = true ∧
        is_nothrow_move_constructible tE = false))).
Proof.
  intros [NcT NaT Vt] [NcE NaE Ve].
  unfold swap_enabled, free_swap_enabled, swap_compiles, is_swappable, can_swap, uses_std.
  destruct (is_void tT) eqn:Hv; [rewrite (Vt eq_refl)|].
  all: destruct (adl_swap tT), (adl_swap tE), (is_move_constructible tT), (is_move_assignable tT),
    (is_move_constructible tE), (is_move_assignable tE), (is_nothrow_move_constructible tT),
    (is_nothrow_move_constructible tE); cbn in *; intuition congruence.
Qed.

(** A type that can be swapped but not assigned, as error. *)
Lemma swap_available_witness :
  let tE := mk_swap_traits false (Own true) true false true false in
  let tT := mk_swap_traits false Generic true true true true in
  swap_enabled tT tE = true ∧ swap_compiles tT tE = false.
Proof.
  intros tE tT. split; [reflexivity|].
  destruct (swap_available tT tE) as (_ & _ & _ & H); [by split|by split|].
  apply H; [reflexivity|]. left. split; [reflexivity|]. by right.
Defined.
