(* ===== verification/Unexpected.v ===== *)
(** * utility::unexpected

    The wrapper of errors of [include/simpleserv/utility/expected.hpp], its six
    comparison operators, and the exception [bad_expected_access]. *)

From S2P Require Import Prelude Effects.

(** The operators of a type are six functions, one for each symbol. *)
Class Comparison (A : Type) := {
  op_eq : A → A → bool; op_ne : A → A → bool;
  op_lt : A → A → bool; op_le : A → A → bool;
  op_gt : A → A → bool; op_ge : A → A → bool }.

(** They agree on one total order. *)
Class ComparisonSpec (A : Type) `{!Comparison A} : Prop := {
  lt_irrefl a : op_lt a a = false;
  lt_trans a b c : op_lt a b = true → op_lt b c = true → op_lt a c = true;
  lt_or_eq_or_gt a b : op_lt a b = true ∨ op_eq a b = true ∨ op_lt b a = true;
  eq_spec a b : op_eq a b = true ↔ op_lt a b = false ∧ op_lt b a = false;
  ne_spec a b : op_ne a b = negb (op_eq a b);
  le_spec a b : op_le a b = negb (op_lt b a);
  gt_spec a b : op_gt a b = op_lt b a;
  ge_spec a b : op_ge a b = negb (op_lt a b) }.

(** [m_val] is read by [value()]. *)
Record unexpected (E : Type) : Type := mk_unexpected { m_val : E }.
Arguments mk_unexpected {E} m_val.
Arguments m_val {E} u.

(** Construction of the value; [make_unexpected] forwards its argument. *)
Definition unexpected_new {E} (c : outcome E) : outcome (unexpected E) := e ← c; Ret (mk_unexpected e).
Definition make_unexpected {E} (forward : outcome E) : outcome (unexpected E) := unexpected_new forward.

Section operators.
Context {E : Type} `{!Comparison E}.
Implicit Types lhs rhs : unexpected E.

Definition operator_eq lhs rhs : bool := op_eq (m_val lhs) (m_val rhs).
Definition operator_ne lhs rhs : bool := op_ne (m_val lhs) (m_val rhs).
Definition operator_lt lhs rhs : bool := op_lt (m_val lhs) (m_val rhs).
Definition operator_le lhs rhs : bool := op_le (m_val lhs) (m_val rhs).
Definition operator_gt lhs rhs : bool := op_gt (m_val lhs) (m_val rhs).
Definition operator_ge lhs rhs : bool := op_ge (m_val lhs) (m_val rhs).

#[export] Instance unexpected_comparison : Comparison (unexpected E) := {|
  op_eq := operator_eq; op_ne := operator_ne; op_lt := operator_lt; op_le := operator_le;
  op_gt := operator_gt; op_ge := operator_ge |}.

(** The wrapper is ordered as what it wraps. *)
#[export] Instance unexpected_comparison_spec `{!ComparisonSpec E} : ComparisonSpec (unexpected E).
Proof.
  split; cbn; intros.
  - apply lt_irrefl.
  - by eapply lt_trans.
  - apply lt_or_eq_or_gt.
  - apply eq_spec.
  - apply ne_spec.
  - apply le_spec.
  - apply gt_spec.
  - apply ge_spec.
Qed.
End operators.

(** ** The exception *)

Record bad_expected_access (E : Type) : Type := mk_bad_access { bad_val : E }.
Arguments mk_bad_access {E} bad_val.
Arguments bad_val {E} b.

(** [value()] throws it with a copy of the error; [error()] gives that back. *)
Definition bad_expected_access_error {E} (x : bad_expected_access E) : E := bad_val x.
Definition bad_expected_access_what {E} (_ : bad_expected_access E) : str := $"Bad expected access".
