(* ===== verification/ExpectedConstruct.v ===== *)
(** * utility::expected: construction

    The storage of [include/simpleserv/utility/expected.hpp] in its four
    specialisations for objects, with their constructors and destructors, and the
    constructors of [expected].  Those that convert from another [expected] first
    construct a [T] they do not destroy. *)

From S2P Require Import Prelude Effects Expected ExpectedStorage.

Section storage_classes.
Context {T E : Type}.
Abbreviation storage := (@storage T E).
Abbreviation member := (@member T E).

(** A specialisation of the storage: its constructors, out of the results of the
    constructors of [T] and [E], and its destructor. *)
Record storage_class : Type := mk_class {
  sc_default : outcome T → outcome storage;     (** [T{}] *)
  sc_no_init : storage;
  sc_in_place : outcome T → outcome storage;    (** with or without a list *)
  sc_unexpect : outcome E → outcome storage;
  sc_destroy : storage → outcome storage }.

(** The end of the lifetime of a member. *)
Definition end_val (o : storage) : outcome storage :=
  match held o with Val _ => Ret (mk_storage NoMember (m_has_val o)) | _ => Undef end.
Definition end_err (o : storage) : outcome storage :=
  match held o with Err _ => Ret (mk_storage NoMember (m_has_val o)) | _ => Undef end.

(** Neither is trivially destructible. *)
Definition storage_base_false_false : storage_class := {|
  sc_default c := t ← c; Ret (mk_storage (Val t) true);
  sc_no_init := mk_storage NoMember false;
  sc_in_place c := t ← c; Ret (mk_storage (Val t) true);
  sc_unexpect c := e ← c; Ret (mk_storage (Err e) false);
  sc_destroy o := if m_has_val o then end_val o else end_err o |}.

(** Both are. *)
Definition storage_base_true_true : storage_class := {|
  sc_default c := t ← c; Ret (mk_storage (Val t) true);
  sc_no_init := mk_storage NoMember false;
  sc_in_place c := t ← c; Ret (mk_storage (Val t) true);
  sc_unexpect c := e ← c; Ret (mk_storage (Err e) false);
  sc_destroy o := Ret o |}.

(** [T] is. *)
Definition storage_base_true_false : storage_class := {|
  sc_default c := t ← c; Ret (mk_storage (Val t) true);
  sc_no_init := mk_storage NoMember false;
  sc_in_place c := t ← c; Ret (mk_storage (Val t) true);
  sc_unexpect c := e ← c; Ret (mk_storage (Err e) false);
  sc_destroy o := if negb (m_has_val o) then end_err o else Ret o |}.

(** [E] is. *)
Definition storage_base_false_true : storage_class := {|
  sc_default c := t ← c; Ret (mk_storage (Val t) true);
  sc_no_init := mk_storage NoMember false;
  sc_in_place c := t ← c; Ret (mk_storage (Val t) true);
  sc_unexpect c := e ← c; Ret (mk_storage (Err e) false);
  sc_destroy o := if m_has_val o then end_val o else Ret o |}.

Definition storage_base (trivial_T trivial_E : bool) : storage_class :=
  match trivial_T, trivial_E with
  | false, false => storage_base_false_false
  | true, true => storage_base_true_true
  | true, false => storage_base_true_false
  | false, true => storage_base_false_true
  end.

(** ** The constructors of [expected] *)

Context (sc : storage_class).

Definition expected_default (c : outcome T) : outcome storage := sc_default sc c.
Definition expected_in_place (c : outcome T) : outcome storage := sc_in_place sc c.
Definition expected_unexpect (c : outcome E) : outcome storage := sc_unexpect sc c.

(** From an [unexpected<G>], whose value is converted; an rvalue is moved from. *)
Definition expected_from_unexpected {G} (conv : G → outcome E) (e : G) : outcome storage :=
  sc_unexpect sc (conv e).
Definition expected_from_unexpected_rvalue {G} (conv : G → outcome (E * G)) (e : G) :
    outcome (storage * G) :=
  '(e', rest) ← conv e; o ← sc_unexpect sc (Ret e'); Ret (o, rest).

(** From a value. *)
Definition expected_from_value {U} (conv : U → outcome T) (v : U) : outcome storage :=
  expected_in_place (conv v).

(** Placement [new] into the storage: a member that was alive is lost. *)
Definition place (m : member) (b : bool) (s : storage * list member) : storage * list member :=
  let '(o, lost) := s in
  (mk_storage m b, match held o with NoMember => lost | m' => lost ++ [m'] end).

(** [construct] and [construct_error] of the base, which are [noexcept]. *)
Definition base_construct (c : outcome T) (s : storage * list member) : outcome (storage * list member) :=
  noexcept (t ← c; Ret (place (Val t) true s)).
Definition base_construct_error (c : outcome E) (s : storage * list member) :
    outcome (storage * list member) :=
  noexcept (e ← c; Ret (place (Err e) false s)).

(** From another [expected]: the base is default constructed ([c] is [T{}]), then
    a second object is placed over its value. *)
Definition expected_from_other {U G} (c : outcome T) (conv_t : U → outcome T) (conv_e : G → outcome E)
    (rhs : expected U G) : outcome (storage * list member) :=
  o ← sc_default sc c;
  if has_value rhs then u ← deref rhs; base_construct (conv_t u) (o, [])
  else g ← error rhs; base_construct_error (conv_e g) (o, []).

(** The same for an rvalue; also what is left of [rhs]. *)
Definition expected_from_other_rvalue {U G} (c : outcome T) (conv_t : U → outcome (T * U))
    (conv_e : G → outcome (E * G)) (rhs : expected U G) :
    outcome (storage * list member * expected U G) :=
  o ← sc_default sc c;
  if has_value rhs then
    u ← deref rhs;
    noexcept ('(t, rest) ← conv_t u; s ← base_construct (Ret t) (o, []); Ret (s, Expected rest))
  else
    g ← error rhs;
    noexcept ('(e, rest) ← conv_e g; s ← base_construct_error (Ret e) (o, []); Ret (s, Unexpected rest)).
End storage_classes.
Arguments storage_class T E : clear implicits.

(** ** Theorems *)

(** What a destructor may leave alive: nothing, or an object whose destructor is
    trivial. *)
Definition ended {T E} (trivial_T trivial_E : bool) (o : @storage T E) : bool :=
  match held o with NoMember => true | Val _ => trivial_T | Err _ => trivial_E end.

Section construct.
Context {T E : Type} (trivial_T trivial_E : bool).
Abbreviation sc := (@storage_base T E trivial_T trivial_E).

Lemma storage_base_constructors :
  (∀ c, sc_default sc c = t ← c; Ret (rep (Expected t))) ∧
  (∀ c, sc_in_place sc c = t ← c; Ret (rep (Expected t))) ∧
  (∀ c, sc_unexpect sc c = e ← c; Ret (rep (Unexpected e))).
Proof. by destruct trivial_T, trivial_E. Qed.

Lemma storage_base_destroys (x : expected T E) :
  ∃ o, sc_destroy sc (rep x) = Ret o ∧ ended trivial_T trivial_E o = true.
Proof. destruct trivial_T, trivial_E, x; cbn; by eexists. Qed.
End construct.

(** In every specialisation of the storage the constructors of [expected] make the
    representation of the value or the error they are given; an exception of the
    constructor of [T] or [E] goes through.  The destructor is defined, and leaves
    nothing alive but an object whose destructor is trivial. *)
Lemma expected_constructors {T E U G} (trivial_T trivial_E : bool) (c : outcome T) (d : outcome E)
    (conv_t : U → outcome T) (conv_e : G → outcome E) (conv_e' : G → outcome (E * G)) (u : U) (g : G) :
  let sc := storage_base trivial_T trivial_E in
  let value (c : outcome T) := x ← Expected <$> c; Ret (rep x) : outcome (@storage T E) in
  let unexpected (d : outcome E) := x ← Unexpected <$> d; Ret (rep x) : outcome (@storage T E) in
  expected_default sc c = value c ∧ expected_in_place sc c = value c ∧
  expected_unexpect sc d = unexpected d ∧ expected_from_value sc conv_t u = value (conv_t u) ∧
  expected_from_unexpected sc conv_e g = unexpected (conv_e g) ∧
  fst <$> expected_from_unexpected_rvalue sc conv_e' g = unexpected (fst <$> conv_e' g) ∧
  ∀ x : expected T E, ∃ o, sc_destroy sc (rep x) = Ret o ∧ ended trivial_T trivial_E o = true.
Proof.
  intros sc value unexpected. unfold expected_default, expected_in_place, expected_unexpect, expected_from_value,
    expected_from_unexpected, expected_from_unexpected_rvalue, expected_in_place.
  destruct (@storage_base_constructors T E trivial_T trivial_E) as (Hd & Hi & Hu).
  split_and!; rewrite ?Hd, ?Hi, ?Hu; [by destruct c..|by destruct d|by destruct (conv_t u)| | |].
  - by destruct (conv_e g).
  - destruct (conv_e' g) as [[]| | | |]; try done. cbn. by rewrite Hu.
  - apply storage_base_destroys.
Qed.

(** An rvalue is converted like an lvalue. *)
Lemma expected_from_other_rvalue_eq {T E U G} (sc : storage_class T E) c (conv_t : U → outcome (T * U))
    (conv_e : G → outcome (E * G)) rhs :
  fst <$> expected_from_other_rvalue sc c conv_t conv_e rhs =
  expected_from_other sc c (λ u, fst <$> conv_t u) (λ g, fst <$> conv_e g) rhs.
Proof.
  unfold expected_from_other_rvalue, expected_from_other, base_construct, base_construct_error.
  destruct (sc_default sc c); [|done..]. destruct rhs as [u|g]; cbn.
  - by destruct (conv_t u) as [[]| | | |].
  - by destruct (conv_e g) as [[]| | | |].
Qed.

(** Converting from another [expected] costs a [T].  The constructor needs a
    default constructor of [T], whose exception goes through; the [T] it makes is
    then overwritten by the converted value or error, and its destructor never
    runs.  An exception of the conversion terminates the process.  Converting an
    rvalue does the same. *)
Lemma expected_converting_constructor {T E U G} (trivial_T trivial_E : bool) (c : outcome T)
    (conv_t : U → outcome T) (conv_e : G → outcome E) (conv_t' : U → outcome (T * U))
    (conv_e' : G → outcome (E * G)) (rhs : expected U G) :
  let sc := storage_base trivial_T trivial_E in
  let new := expected_from_other sc c conv_t conv_e rhs in
  fst <$> expected_from_other_rvalue sc c conv_t' conv_e' rhs =
    expected_from_other sc c (λ u, fst <$> conv_t' u) (λ g, fst <$> conv_e' g) rhs ∧
  (∀ x, c = Throw x → new = Throw x) ∧
  ∀ t0, c = Ret t0 →
    match rhs with
    | Expected u =>
        (∀ t, conv_t u = Ret t → new = Ret (rep (Expected t), [Val t0])) ∧
        (∀ x, conv_t u = Throw x → new = Terminate)
    | Unexpected g =>
        (∀ e, conv_e g = Ret e → new = Ret (rep (Unexpected e), [Val t0])) ∧
        (∀ x, conv_e g = Throw x → new = Terminate)
    end.
Proof.
  intros sc new. split; [apply expected_from_other_rvalue_eq|]. unfold new, sc, expected_from_other.
  destruct (@storage_base_constructors T E trivial_T trivial_E) as (-> & _).
  split; [by intros x ->|]. intros t0 ->. cbn [mbind outcome_bind].
  unfold base_construct, base_construct_error.
  destruct rhs as [u|g]; cbn; split; intros x ->; done.
Qed.
