(* ===== verification/ExpectedOverloads.v ===== *)
(** * utility::expected: which constructor converts

    [include/simpleserv/utility/expected.hpp] has constructors from another
    [expected] and constructors from a value; the conditions
    [expected_enable_from_other] and [expected_enable_forward_value] are to keep
    them apart.  Here they are functions on types, with what the standard's traits
    say of other types as an argument; the constructor that is chosen is then run
    on the storage. *)

From S2P Require Import Prelude Effects Expected ExpectedStorage ExpectedConstruct.

(** ** Types *)

(** [bool], the tag [in_place_t], the templates, and all other types. *)
Inductive ty : Type :=
  | Bool | In_place | Other (name : nat) | Exp (T E : ty) | Unex (E : ty).

#[export] Instance ty_eq_dec : EqDecision ty.
Proof. solve_decision. Defined.

(** How an expression refers to an object of a type. *)
Inductive ref : Type := Lvalue | Const_lvalue | Rvalue | Const_rvalue.

#[export] Instance ref_eq_dec : EqDecision ref.
Proof. solve_decision. Defined.

Definition refs : list ref := [Lvalue; Rvalue; Const_lvalue; Const_rvalue].

Section overloads.
(** [std::is_constructible<T, U r>] and [std::is_convertible<U r, T>], where they do
    not ask for a [bool] out of an [expected]. *)
Context (constructible convertible : ty → ty → ref → bool).

(** The conversion of an [expected] to [bool] is explicit: it constructs, and does
    not convert. *)
Definition is_constructible (T U : ty) (r : ref) : bool :=
  match T, U with Bool, Exp _ _ => true | _, _ => constructible T U r end.
Definition is_convertible (U : ty) (r : ref) (T : ty) : bool :=
  match T, U with Bool, Exp _ _ => false | _, _ => convertible T U r end.

(** [expected_enable_forward_value<T, E, U>] for a [U] that is a type [U] with [r];
    the comparisons are of the decayed type. *)
Definition expected_enable_forward_value (T E U : ty) (r : ref) : bool :=
  is_constructible T U r && bool_decide (U ≠ In_place) && bool_decide (Exp T E ≠ U) &&
  bool_decide (Unex E ≠ U).

(** [expected_enable_from_other<T, E, U, G, UR, GR>], where [r] is the reference in
    [UR] and [GR]. *)
Definition expected_enable_from_other (T E U G : ty) (r : ref) : bool :=
  is_constructible T U r && is_constructible E G r &&
  forallb (λ r, negb (is_constructible T (Exp U G) r)) refs &&
  forallb (λ r, negb (is_convertible (Exp U G) r T)) refs.

(** ** Candidates *)

(** The constructors from a [const expected<U, G> &], from an [expected<U, G> &&],
    and from a [U &&]; of the first two and of the last there is an explicit and an
    implicit one, under opposite conditions. *)
Inductive ctor : Type := From_other | From_other_rvalue | Forward_value.

#[export] Instance ctor_eq_dec : EqDecision ctor.
Proof. solve_decision. Defined.

(** The candidates for an argument of type [Exp U G] referred to by [r], and whether
    they are explicit.  A constant reference binds to all; the rvalue reference is
    none to a constant, and is no forwarding reference. *)
Definition candidates (T E U G : ty) (r : ref) : list (ctor * bool) :=
  (if expected_enable_from_other T E U G Const_lvalue then
     [(From_other, negb (is_convertible U Const_lvalue T && is_convertible G Const_lvalue E))] else []) ++
  (if bool_decide (r = Rvalue) && expected_enable_from_other T E U G Rvalue then
     [(From_other_rvalue, negb (is_convertible U Rvalue T && is_convertible G Rvalue E))] else []) ++
  (if expected_enable_forward_value T E (Exp U G) r then
     [(Forward_value, negb (is_convertible (Exp U G) r T))] else []).

(** Direct initialisation considers the explicit ones too. *)
Definition viable (direct : bool) (T E U G : ty) (r : ref) : list ctor :=
  fst <$> filter (λ c, direct = true ∨ c.2 = false) (candidates T E U G r).

(** ** Overload resolution *)

(** Whether [a] is better than [b]: an rvalue binds better to an rvalue reference,
    an lvalue better to a reference that adds no [const]; between equals the more
    specialised template, which is the one from an [expected]. *)
Definition better (r : ref) (a b : ctor) : bool :=
  match a, b with
  | From_other_rvalue, (From_other | Forward_value) => true
  | Forward_value, From_other => bool_decide (r ≠ Const_lvalue)
  | From_other, Forward_value => bool_decide (r = Const_lvalue)
  | _, _ => false
  end.

Inductive resolution : Type := No_viable | Chosen (k : ctor) | Ambiguous.

(** The viable one that is better than all others. *)
Definition resolve (direct : bool) (T E U G : ty) (r : ref) : resolution :=
  let vs := viable direct T E U G r in
  match vs, filter (λ a, Forall (λ b, a = b ∨ better r a b = true) vs) vs with
  | [], _ => No_viable
  | _, [k] => Chosen k
  | _, _ => Ambiguous
  end.

(** The constructors that can be called: for direct initialisation all that are
    enabled, otherwise those whose conversions are implicit. *)
Definition callable (direct : bool) (T E U G : ty) (q : ref) : bool :=
  expected_enable_from_other T E U G q && (direct || is_convertible U q T && is_convertible G q E).

Lemma refs_all r : r ∈ refs.
Proof. destruct r; unfold refs; set_solver. Qed.

(** A constructor from the other [expected] is enabled only where one from a value
    is not. *)
Lemma candidates_exclusive T E U G q r :
  expected_enable_from_other T E U G q = true →
  expected_enable_forward_value T E (Exp U G) r = false.
Proof.
  unfold expected_enable_from_other. rewrite !andb_true_iff. intros [[_ Hc] _].
  rewrite forallb_forall in Hc.
  specialize (Hc r (proj1 (list_elem_of_In _ _) (refs_all r))). apply negb_true_iff in Hc.
  unfold expected_enable_forward_value. by rewrite Hc.
Qed.

(** What is viable. *)
Lemma viable_eq direct T E U G r :
  viable direct T E U G r =
  (if callable direct T E U G Const_lvalue then [From_other] else []) ++
  (if bool_decide (r = Rvalue) && callable direct T E U G Rvalue then [From_other_rvalue] else []) ++
  (if expected_enable_forward_value T E (Exp U G) r && (direct || is_convertible (Exp U G) r T)
   then [Forward_value] else []).
Proof.
  unfold viable, candidates, callable. rewrite !filter_app, !fmap_app. f_equal; [|f_equal].
  - destruct (expected_enable_from_other _ _ _ _ _); [|done]. cbn.
    by destruct direct, (is_convertible U _ T), (is_convertible G _ E).
  - destruct (bool_decide _), (expected_enable_from_other _ _ _ _ _); try done. cbn.
    by destruct direct, (is_convertible U _ T), (is_convertible G _ E).
  - destruct (expected_enable_forward_value _ _ _ _); [|done]. cbn.
    by destruct direct, (is_convertible _ _ T).
Qed.

Lemma callable_enabled direct T E U G q :
  callable direct T E U G q = true → expected_enable_from_other T E U G q = true.
Proof. by intros [? _]%andb_true_iff. Qed.

(** The choice, for every combination. *)
Lemma resolve_eq direct T E U G r :
  resolve direct T E U G r =
  if bool_decide (r = Rvalue) && callable direct T E U G Rvalue then Chosen From_other_rvalue
  else if callable direct T E U G Const_lvalue then Chosen From_other
  else if expected_enable_forward_value T E (Exp U G) r && (direct || is_convertible (Exp U G) r T)
  then Chosen Forward_value else No_viable.
Proof.
  unfold resolve. rewrite viable_eq.
  destruct (callable direct T E U G Const_lvalue) eqn:Hc.
  - rewrite (candidates_exclusive T E U G Const_lvalue r) by by eapply callable_enabled.
    by destruct (bool_decide (r = Rvalue)), (callable direct T E U G Rvalue).
  - destruct (bool_decide (r = Rvalue)); cbn [andb].
    + destruct (callable direct T E U G Rvalue) eqn:Hr.
      * by rewrite (candidates_exclusive T E U G Rvalue r) by by eapply callable_enabled.
      * by destruct (_ && _).
    + by destruct (_ && _).
Qed.

Lemma enable_bool E U G q : expected_enable_from_other Bool E U G q = false.
Proof. unfold expected_enable_from_other. apply andb_false_iff. left. apply andb_false_r. Qed.
End overloads.

(** ** The conversion *)

(** What the chosen constructor makes; [wrap] constructs a [T] out of the whole
    [expected], and the conversions of an rvalue move from it. *)
Definition convert {T E U G} (sc : storage_class T E) (k : ctor) (c : outcome T)
    (conv_t : U → outcome T) (conv_e : G → outcome E)
    (move_t : U → outcome (T * U)) (move_e : G → outcome (E * G)) (wrap : expected U G → outcome T)
    (rhs : expected U G) : outcome (@storage T E) :=
  match k with
  | From_other => fst <$> expected_from_other sc c conv_t conv_e rhs
  | From_other_rvalue => (λ x, x.1.1) <$> expected_from_other_rvalue sc c move_t move_e rhs
  | Forward_value => expected_from_value sc wrap rhs
  end.

(** [operator bool]. *)
Definition operator_bool {U G} (x : expected U G) : outcome bool := Ret (has_value x).

(** C40: converting one [expected] into another.  The call is never ambiguous, by
    any reference and in both kinds of initialisation.  For an rvalue both
    constructors from an [expected] can be viable, and then the one that moves is
    chosen; in copy initialisation, where that one is explicit and the other is
    not, the one that copies is.  The two turn values into values and errors into
    errors.  But they are disabled for [bool]: every [expected<U, G>] can be made
    into an [expected<bool, E>] by direct initialisation, through the constructor
    from a value, and the result holds the value [has_value()]: an error becomes
    the value [false], and the value [false] becomes [true]. *)
Theorem expected_conversions (constructible convertible : ty → ty → ref → bool) (T E U G : ty) (r : ref) :
  let resolve direct := resolve constructible convertible direct T E U G r in
  let callable direct := callable constructible convertible direct T E U G in
  Exp U G ≠ Exp T E →
  (∀ direct, resolve direct ≠ Ambiguous) ∧
  (∀ direct, r = Rvalue → callable direct Rvalue = true → resolve direct = Chosen From_other_rvalue) ∧
  (∀ direct, r ≠ Rvalue ∨ callable direct Rvalue = false → callable direct Const_lvalue = true →
     resolve direct = Chosen From_other) ∧
  (T = Bool → resolve true = Chosen Forward_value ∧ resolve false = No_viable) ∧
  (∀ (A B C D : Type) trivial_A trivial_B (a : A) (conv_t : C → A) (conv_e : D → B) rest_t rest_e wrap rhs k,
     k ≠ Forward_value →
     convert (storage_base trivial_A trivial_B) k (Ret a) (Ret ∘ conv_t) (Ret ∘ conv_e)
       (λ x, Ret (conv_t x, rest_t x)) (λ x, Ret (conv_e x, rest_e x)) wrap rhs =
     Ret (rep (match rhs with Expected c => Expected (conv_t c) | Unexpected d => Unexpected (conv_e d) end))) ∧
  (∀ (B C D : Type) trivial_A trivial_B b0 (conv_t : C → outcome bool) (conv_e : D → outcome B) move_t move_e rhs,
     convert (storage_base trivial_A trivial_B) Forward_value b0 conv_t conv_e move_t move_e operator_bool rhs =
     Ret (rep (Expected (has_value rhs)))).
Proof.
  intros resolve callable Hne. unfold resolve, callable. split_and!.
  - intros direct. rewrite resolve_eq. by repeat case_match.
  - intros direct -> H. rewrite resolve_eq, H. done.
  - intros direct Hr H. rewrite resolve_eq, H. destruct Hr as [Hr|Hr].
    + by rewrite bool_decide_eq_false_2.
    + by rewrite Hr, andb_false_r.
  - intros ->. rewrite !resolve_eq. unfold ExpectedOverloads.callable. rewrite !enable_bool. cbn [andb].
    rewrite andb_false_r. unfold expected_enable_forward_value. cbn [is_constructible is_convertible].
    by rewrite !bool_decide_eq_true_2 by congruence.
  - intros A B C D tA tB a conv_t conv_e rest_t rest_e wrap rhs k Hk.
    destruct k; [| |done]; unfold convert, expected_from_other, expected_from_other_rvalue;
      destruct (@storage_base_constructors A B tA tB) as (-> & _); by destruct rhs.
  - intros B C D tA tB b0 conv_t conv_e move_t move_e rhs. unfold convert, expected_from_value, expected_in_place.
    by destruct (@storage_base_constructors bool B tA tB) as (_ & -> & _).
Qed.

(** An [expected<bool, int>] with the value [false], into one with another error. *)
Lemma expected_conversions_witness :
  resolve (λ _ _ _, true) (λ _ _ _, true) true Bool (Other 1) Bool (Other 0) Const_lvalue = Chosen Forward_value ∧
  convert (storage_base true true) Forward_value (Ret true) Ret Ret (λ x, Ret (x, x)) (λ x, Ret (x, x))
    operator_bool (Expected false : expected bool nat) = Ret (rep (Expected true : expected bool nat)).
Proof.
  destruct (expected_conversions (λ _ _ _, true) (λ _ _ _, true) Bool (Other 1) Bool (Other 0) Const_lvalue)
    as (_ & _ & _ & Hb & _ & Hc); [discriminate|]. split; [by apply Hb|]. apply Hc.
Defined.

(** An rvalue [expected<int, int>] into an [expected<long, int>]: both constructors
    are viable. *)
Example two_viable :
  let standard (T U : ty) (r : ref) := match T, U with Other _, Other _ => true | _, _ => false end in
  viable standard (λ U T r, standard T U r) false (Other 1) (Other 0) (Other 0) (Other 0) Rvalue =
    [From_other; From_other_rvalue] ∧
  resolve standard (λ U T r, standard T U r) false (Other 1) (Other 0) (Other 0) (Other 0) Rvalue =
    Chosen From_other_rvalue.
Proof. vm_compute. by split. Qed.
