(* ===== verification/ExpectedCategories.v ===== *)
(** * utility::expected: the members by the category of the object

    The observers and monadic members of [include/simpleserv/utility/expected.hpp]
    exist for lvalues, rvalues and constant ones: called on an rvalue they move out
    of the object what they pass on.  [Expected] has them as functions of values;
    here they run on the storage of the object, with the copies and moves they
    make, and with callables that may change the argument they are given. *)

From S2P Require Import Prelude Effects Expected ExpectedStorage ExpectedOverloads.

(** ** The parts of the object *)

Section parts.
Context {T E : Type}.

(** Runs [f], which is given a reference to the value, or to the error. *)
Definition on_val {B} (f : X T B) : X (@storage T E) B := λ s,
  match held s with
  | Val t =>
    match f t with
    | XRet b t => XRet b (mk_storage (Val t) (m_has_val s))
    | XThrow e t => XThrow e (mk_storage (Val t) (m_has_val s))
    | XTerminate => XTerminate
    | XUndef => XUndef
    end
  | _ => XUndef
  end.

Definition on_err {B} (f : X E B) : X (@storage T E) B := λ s,
  match held s with
  | Err e =>
    match f e with
    | XRet b e => XRet b (mk_storage (Err e) (m_has_val s))
    | XThrow x e => XThrow x (mk_storage (Err e) (m_has_val s))
    | XTerminate => XTerminate
    | XUndef => XUndef
    end
  | _ => XUndef
  end.

Definition has_val : X (@storage T E) bool := λ s, XRet (m_has_val s) s.
End parts.

(** The object that is constructed from a reference: moved from an rvalue, and
    copied otherwise, from a constant rvalue too. *)
Definition take {A} `{!Special A} (r : ref) : X A A := λ a,
  match r with
  | Rvalue => match move a with
              | Ret (a', rest) => XRet a' rest | Throw e => XThrow e a
              | Terminate => XTerminate | Undef | NoFuel => XUndef end
  | _ => eval (copy a) a
  end.

(** The result of a construction from a temporary. *)
Definition from_temporary {A} `{!Special A} {S} (a : A) : X S A := fst <$> eval (move a).

(** A callable that takes its argument by value. *)
Definition by_value {A B} `{!Special A} (r : ref) (f : A → outcome B) : X A B :=
  a ← take r; eval (f a).

(** ** The members *)

Section members.
Context {T E : Type} `{!Special T, !Special E}.
Context (r : ref).

(** A copy, or a move, of the whole object. *)
Definition take_expected : X (@storage T E) (expected T E) :=
  b ← has_val;
  x_noexcept (if b : bool then Expected <$> on_val (take r) else Unexpected <$> on_err (take r)).

(** [value()]: the reference that is returned is to the held value.  The error is the
    parameter of the exception's constructor, then its member, and is moved once
    more with the exception when that is thrown. *)
Definition value_ref : X (@storage T E) T :=
  b ← has_val;
  if b : bool then on_val (λ t, XRet t t)
  else
    e ← on_err (take r); e ← from_temporary e; _ ← from_temporary e; eval (Throw bad_expected_access).

Definition value_or_ref (v : outcome T) : X (@storage T E) T :=
  b ← has_val; if b : bool then on_val (take r) else eval v.

Definition and_then_ref {U} (f : X T (expected U E)) : X (@storage T E) (expected U E) :=
  b ← has_val; if b : bool then on_val f else Unexpected <$> on_err (take r).

Definition map_ref {U} `{!Special U} (f : X T U) : X (@storage T E) (expected U E) :=
  b ← has_val;
  if b : bool then u ← on_val f; Expected <$> from_temporary u
  else Unexpected <$> on_err (take r).

(** [F] returns [void]. *)
Definition map_void_ref (f : X T ()) : X (@storage T E) (expected () E) :=
  b ← has_val;
  if b : bool then _ ← on_val f; mret (Expected ()) else Unexpected <$> on_err (take r).

Definition map_error_ref {F} `{!Special F} (f : X E F) : X (@storage T E) (expected T F) :=
  b ← has_val;
  if b : bool then Expected <$> on_val (take r)
  else e ← on_err f; Unexpected <$> from_temporary e.

(** [F] returns [void]: the error becomes a [monostate]. *)
Definition map_error_void_ref (f : X E ()) : X (@storage T E) (expected T ()) :=
  b ← has_val;
  if b : bool then Expected <$> on_val (take r) else _ ← on_err f; mret (Unexpected ()).

Definition or_else_ref (f : X E (expected T E)) : X (@storage T E) (expected T E) :=
  b ← has_val; if b : bool then take_expected else on_err f.

(** [F] returns [void]: the object is taken after the call. *)
Definition or_else_void_ref (f : X E ()) : X (@storage T E) (expected T E) :=
  b ← has_val; if b : bool then take_expected else _ ← on_err f; take_expected.
End members.

(** ** The values the members pass on *)

(** What a member that is called by [r] leaves in the object. *)
Definition left_by {T E} `{Regular T, Regular E} (r : ref) (x : expected T E) : expected T E :=
  match r with Rvalue => moved_rep x | _ => x end.

Ltac members_step :=
  rewrite ?copy_eq, ?move_eq; cbv beta iota.
Ltac members_unfold :=
  cbv [value_ref value_or_ref and_then_ref map_ref map_void_ref map_error_ref map_error_void_ref
    or_else_ref or_else_void_ref take_expected on_val on_err has_val take from_temporary by_value
    mbind X_bind mret X_ret fmap X_fmap eval x_noexcept outcome_bind outcome_ret rep left_by moved_rep held m_has_val].
(** Runs a member on the storage of a value. *)
Ltac members_run := repeat (progress (members_unfold; members_step)).

(** Runs a member whose callable [f] is given what is held; a result of [void] is
    the unit. *)
Ltac by_cases f :=
  members_run; try done;
  match goal with |- context [f ?a] => destruct (f a) end; members_run;
  repeat match goal with u : () |- _ => destruct u end; done.

Section refinement.
Context {T E : Type} `{Regular T, Regular E}.

Implicit Types x : expected T E.

Lemma and_then_ref_run {U} r x (f : T → outcome (expected U E)) :
  and_then_ref r (by_value r f) (rep x) = eval (and_then x f) (rep (left_by r x)).
Proof. destruct x, r; unfold and_then, and_then_impl; cbn; by_cases f. Qed.

Lemma map_ref_run {U} `{Regular U} r x (f : T → outcome U) :
  map_ref r (by_value r f) (rep x) = eval (map x f) (rep (left_by r x)).
Proof. destruct x, r; unfold map, expected_map_impl; cbn; by_cases f. Qed.

Lemma map_void_ref_run r x (f : T → outcome ()) :
  map_void_ref r (by_value r f) (rep x) = eval (map x f) (rep (left_by r x)).
Proof. destruct x, r; unfold map, expected_map_impl; cbn; by_cases f. Qed.

Lemma map_error_ref_run {F} `{Regular F} r x (f : E → outcome F) :
  map_error_ref r (by_value r f) (rep x) = eval (map_error x f) (rep (left_by r x)).
Proof. destruct x, r; unfold map_error, map_error_impl; cbn; by_cases f. Qed.

Lemma map_error_void_ref_run r x (f : E → outcome ()) :
  map_error_void_ref r (by_value r f) (rep x) = eval (map_error x f) (rep (left_by r x)).
Proof. destruct x, r; unfold map_error, map_error_impl; cbn; by_cases f. Qed.

Lemma or_else_ref_run r x (f : E → outcome (expected T E)) :
  or_else_ref r (by_value r f) (rep x) = eval (or_else x f) (rep (left_by r x)).
Proof. destruct x, r; unfold or_else, or_else_impl; cbn; by_cases f. Qed.

Lemma value_ref_run r x :
  value_ref r (rep x) = eval (value x) (rep match x with Expected _ => x | _ => left_by r x end).
Proof. by destruct x, r; unfold value; members_run. Qed.

Lemma value_or_ref_run r x (v : T) :
  value_or_ref r (Ret v) (rep x) =
  XRet (value_or x v) (rep match x with Expected _ => left_by r x | _ => x end).
Proof. by destruct x, r; unfold value_or; members_run. Qed.

(** The callable is given the error; what it leaves of it is taken. *)
Lemma or_else_void_ref_run r e e' (f : X E ()) :
  f e = XRet () e' →
  or_else_void_ref r f (rep (Unexpected e : expected T E)) =
  XRet (Unexpected e') (rep (left_by r (Unexpected e'))).
Proof. intros Hf. destruct r; members_run; rewrite Hf; by members_run. Qed.

Lemma take_expected_run r x : take_expected r (rep x) = XRet x (rep (left_by r x)).
Proof. by destruct x, r; members_run. Qed.
End refinement.

(** Taking the whole object is what the copy constructor of the storage does. *)
Lemma take_expected_copy {T E} `{!Special T, !Special E} (x : expected T E) b :
  copy_construct (mk_storage NoMember b, rep x) =
  match take_expected Const_lvalue (rep x) with
  | XRet y s => XRet () (rep y, s) | XThrow e s => XThrow e (mk_storage NoMember b, s)
  | XTerminate => XTerminate | XUndef => XUndef
  end.
Proof.
  destruct x as [t|e]; unfold copy_construct; storage_run; members_run.
  - by destruct (copy t); storage_run; members_run.
  - by destruct (copy e); storage_run; members_run.
Qed.

(** ** Theorems *)

(** C37: the members by category.  Where copies and moves do not throw, every member
    called by any kind of reference gives the result that [Expected] has for the
    value, the effects of a callable that takes its argument by value included,
    and leaves an lvalue and a constant object alone; an rvalue holds afterwards what
    the move of its value, or of its error, has left, on the same side ([value] moves
    the error only, [value_or] the value only).  There is one exception: [or_else]
    with a callable that returns nothing gives it the error first and takes the
    object afterwards; so, of an rvalue, it returns the error that was moved from. *)
Theorem members_by_category {T E U F} `{Regular T, Regular E, Regular U, Regular F} (r : ref)
    (x : expected T E) (e : E) (v : T) (f : T → outcome (expected U E)) (g : T → outcome U)
    (h : E → outcome F) (k : E → outcome (expected T E)) (o : E → outcome ()) :
  and_then_ref r (by_value r f) (rep x) = eval (and_then x f) (rep (left_by r x)) ∧
  map_ref r (by_value r g) (rep x) = eval (map x g) (rep (left_by r x)) ∧
  map_error_ref r (by_value r h) (rep x) = eval (map_error x h) (rep (left_by r x)) ∧
  or_else_ref r (by_value r k) (rep x) = eval (or_else x k) (rep (left_by r x)) ∧
  value_ref r (rep x) = eval (value x) (rep match x with Expected _ => x | _ => left_by r x end) ∧
  value_or_ref r (Ret v) (rep x) =
    XRet (value_or x v) (rep match x with Expected _ => left_by r x | _ => x end) ∧
  (r ≠ Rvalue → or_else_void_ref r (by_value r o) (rep x) = eval (or_else_impl_void x o) (rep x)) ∧
  (o e = Ret () →
   or_else_void_ref Rvalue (by_value Rvalue o) (rep (Unexpected e : expected T E)) =
   XRet (Unexpected (moved_from e)) (rep (Unexpected (moved_from (moved_from e))))).
Proof.
  split_and!.
  - apply and_then_ref_run.
  - apply map_ref_run.
  - apply map_error_ref_run.
  - apply or_else_ref_run.
  - apply value_ref_run.
  - apply value_or_ref_run.
  - intros Hr. destruct x as [t|e']; unfold or_else_impl_void; cbn; destruct r; try done; by_cases o.
  - intros Ho. apply (or_else_void_ref_run Rvalue e (moved_from e)). members_run. by rewrite Ho.
Qed.

(** Exceptions of a copy.  [map], [and_then] and [map_error] let it through and leave
    the object as it was; [or_else] copies the whole object, by a constructor that
    is [noexcept], and terminates the process; in [value] it takes the place of
    [bad_expected_access]. *)
Lemma members_throw {T E U} `{!Special T, !Special E, !Special U} (r : ref) (t : T) (e : E) (x y : exn)
    (f : X T (expected U E)) (g : X T U) (h : X E U) (k : X E (expected T E)) (o : X E ()) :
  r ≠ Rvalue → copy t = Throw x → copy e = Throw y →
  and_then_ref r f (rep (Unexpected e)) = XThrow y (rep (Unexpected e)) ∧
  map_ref r g (rep (Unexpected e)) = XThrow y (rep (Unexpected e)) ∧
  map_error_ref r h (rep (Expected t)) = XThrow x (rep (Expected t)) ∧
  value_ref r (rep (Unexpected e : expected T E)) = XThrow y (rep (Unexpected e)) ∧
  or_else_ref r k (rep (Expected t)) = XTerminate ∧
  or_else_void_ref r o (rep (Expected t)) = XTerminate ∧
  (o e = XRet () e → or_else_void_ref r o (rep (Unexpected e : expected T E)) = XTerminate).
Proof.
  intros Hr Ht He. destruct r; try done; split_and!.
  all: try (intros Ho); members_run; rewrite ?Ho, ?Ht, ?He; members_run; by rewrite ?He.
Qed.

(** A string of length [n], of which a move leaves the empty one. *)
#[local] Instance string_special : Special nat :=
  Build_Special nat Ret (λ a, Ret (a, 0)) (λ _ b, Ret b) (λ _ b, Ret (b, 0)).
#[local] Program Instance string_regular : Regular nat := {| moved_from _ := 0 |}.
Solve Obligations with done.

Lemma members_by_category_witness :
  or_else_void_ref Rvalue (by_value Rvalue (λ _, Ret ())) (rep (Unexpected 5 : expected nat nat)) =
  XRet (Unexpected 0) (rep (Unexpected 0)).
Proof.
  destruct (members_by_category (U := nat) (F := nat) Rvalue (Unexpected 5 : expected nat nat) 5 0
    (λ _, Throw invalid_argument) (λ n, Ret n) (λ n, Ret n) (λ _, Throw invalid_argument) (λ _, Ret ()))
    as (_ & _ & _ & _ & _ & _ & _ & H).
  by apply H.
Defined.
