(* ===== verification/ExpectedVoid.v ===== *)
(** * utility::expected<void, E>

    The specialisations of [include/simpleserv/utility/expected.hpp] for [T = void]:
    the union holds an [unexpected<E>] or nothing, construction and assignment
    have code of their own.  As in ExpectedStorage, the special members of [E] may
    throw, and touching an error that is not alive is undefined. *)

From S2P Require Import Prelude Effects Expected ExpectedStorage.

Section void.
Context {E : Type} `{!Special E}.

(** The error, if it is alive, and the flag. *)
Record vstorage : Type := mk_vstorage { v_err : option E; v_has_val : bool }.

(** The constructors of the storage. *)
Definition v_default : vstorage := mk_vstorage None true.
Definition v_no_init : vstorage := mk_vstorage None false.
Definition v_in_place : vstorage := mk_vstorage None true.
Definition v_unexpect (c : outcome E) : outcome vstorage := e ← c; Ret (mk_vstorage (Some e) false).

(** [*this] and [rhs]. *)
Definition vobjects : Type := vstorage * vstorage.
Definition vobj (w : who) (s : vobjects) : vstorage := match w with This => s.1 | Rhs => s.2 end.
Definition set_vobj (w : who) (o : vstorage) (s : vobjects) : vobjects :=
  match w with This => (o, s.2) | Rhs => (s.1, o) end.

Definition v_has_value (w : who) : X vobjects bool := λ s, XRet (v_has_val (vobj w s)) s.
Definition v_geterr (w : who) : X vobjects E := λ s,
  match v_err (vobj w s) with Some e => XRet e s | None => XUndef end.
Definition v_set_err (w : who) (m : option E) : X vobjects () := λ s,
  XRet () (set_vobj w (mk_vstorage m (v_has_val (vobj w s))) s).
Definition v_set_flag (w : who) (b : bool) : X vobjects () := λ s,
  XRet () (set_vobj w (mk_vstorage (v_err (vobj w s)) b) s).

Definition v_destroy_err (w : who) : X vobjects () := _ ← v_geterr w; v_set_err w None.
Definition v_destroy_val (w : who) : X vobjects () := mret ().

(** The error of an operand, copied or moved. *)
Definition v_take_err (rvalue : bool) (w : who) : X vobjects E :=
  e ← v_geterr w;
  if rvalue then '(e', rest) ← eval (move e); _ ← v_set_err w (Some rest); mret e'
  else eval (copy e).

(** Assignment between two errors. *)
Definition v_assign_err (rvalue : bool) : X vobjects () :=
  e ← v_geterr This; r ← v_geterr Rhs;
  if rvalue then
    '(e', rest) ← eval (move_assign e r);
    _ ← v_set_err This (Some e'); v_set_err Rhs (Some rest)
  else e' ← eval (copy_assign e r); v_set_err This (Some e').

(** ** [expected_operations_base<void, E>] *)

Definition v_construct (w : who) : X vobjects () := v_set_flag w true.
Definition v_construct_with (w : who) : X vobjects () := v_set_flag w true.
Definition v_construct_error (w : who) (c : X vobjects E) : X vobjects () :=
  x_noexcept (e ← c; _ ← v_set_err w (Some e); v_set_flag w false).

(** One [assign] for lvalues and rvalues. *)
Definition v_assign (rvalue : bool) : X vobjects () := x_noexcept (
  this_has ← v_has_value This;
  rhs_has ← v_has_value Rhs;
  if negb this_has then
    if rhs_has : bool then _ ← v_destroy_err This; v_construct This
    else v_assign_err rvalue
  else
    if negb rhs_has then v_construct_error This (v_take_err rvalue Rhs) else mret ()).

(** The destructor: trivial if that of [E] is. *)
Definition v_destroy (trivial_E : bool) (w : who) : X vobjects () :=
  if trivial_E then mret ()
  else b ← v_has_value w; if negb b then v_destroy_err w else mret ().

(** The copy and the move constructor, after [no_init]. *)
Definition v_copy_construct (rvalue : bool) : X vobjects () :=
  rhs_has ← v_has_value Rhs;
  if rhs_has : bool then v_construct_with This
  else v_construct_error This (v_take_err rvalue Rhs).

(** ** [expected<void, E>] *)

(** [operator=] from an [unexpected]. *)
Definition v_assign_unexpected (e : E) (c : outcome E) : X vobjects () :=
  b ← v_has_value This;
  if negb b then
    old ← v_geterr This; '(e', _) ← eval (move_assign old e); v_set_err This (Some e')
  else
    _ ← v_destroy_val This; x ← eval c; _ ← v_set_err This (Some x); v_set_flag This false.

(** The overloads for [void] that [swap] would call.  [swap] itself is not there:
    [is_swappable] is false of [void]. *)
Definition v_swap_flags : X vobjects () := λ s,
  XRet () (mk_vstorage (v_err s.1) (v_has_val s.2), mk_vstorage (v_err s.2) (v_has_val s.1)).

Definition v_swap_where_both_have_value : X vobjects () := mret ().

(** [w] has the value; [noexcept] if moving an [E] is. *)
Definition v_swap_where_only_one_has_value (nothrow_e : bool) (w : who) : X vobjects () :=
  (if nothrow_e then x_noexcept else λ m, m) (
    e ← v_take_err true (other w);
    _ ← v_set_err w (Some e);
    _ ← v_destroy_err (other w);
    v_swap_flags).
End void.

(** ** The storage implements the value *)

(** [expected<void, E>] as a value is [expected () E]. *)
Definition v_rep {E} (x : expected () E) : vstorage :=
  match x with Expected _ => mk_vstorage None true | Unexpected e => mk_vstorage (Some e) false end.

Definition v_moved {E} `{Regular E} (x : expected () E) : expected () E :=
  match x with Expected u => Expected u | Unexpected e => Unexpected (moved_from e) end.

(** Runs an operation on two representations. *)
Ltac void_run :=
  repeat (progress (cbv [mbind X_bind mret X_ret eval x_noexcept other negb fst snd
    vobj set_vobj v_has_value v_geterr v_set_err v_set_flag v_destroy_err v_destroy_val v_take_err
    v_assign_err v_construct v_construct_with v_construct_error v_swap_flags v_rep v_err v_has_val];
    storage_step)).

(** [expected<void, E>] implements the value: when the special members of [E]
    do not throw, copying and assigning, lvalues and rvalues, make [*this] the
    value of [rhs] in all four combinations of value and error, and [rhs] moved
    from or untouched; assigning an [unexpected] and the destructor do what they
    say; no operation touches an error that is not alive. *)
Lemma void_storage_refines_value {E} `{Regular E} (x y : expected () E) (e : E) (rvalue b : bool) :
  let after (y : expected () E) := v_rep (if rvalue then v_moved y else y) in
  v_assign rvalue (v_rep x, v_rep y) = XRet () (v_rep y, after y) ∧
  v_copy_construct rvalue (v_no_init, v_rep y) = XRet () (v_rep y, after y) ∧
  v_assign_unexpected e (Ret e) (v_rep x, v_rep y) = XRet () (v_rep (Unexpected e), v_rep y) ∧
  (∃ o, v_destroy b This (v_rep x, v_rep y) = XRet () (o, v_rep y) ∧
    (b = false → o = mk_vstorage None (has_value x))) ∧
  v_unexpect (Ret e) = Ret (v_rep (Unexpected e)) ∧ v_default = v_rep (Expected () : expected () E) ∧
  v_in_place = v_rep (Expected () : expected () E).
Proof.
  intros after. unfold after, v_assign, v_copy_construct, v_no_init, v_assign_unexpected, v_destroy, v_moved.
  split_and!; [destruct rvalue, x, y; by void_run|destruct rvalue, y; by void_run| | |done..].
  - destruct x; by void_run.
  - destruct b, x; void_run; by eexists.
Qed.

(** When copying an [E] throws, copying the error terminates the process. *)
Lemma void_storage_copy_throws {E} `{!Special E} (e : E) (x : exn) :
  copy e = Throw x →
  v_assign false (v_rep (Expected ()), v_rep (Unexpected e)) = XTerminate ∧
  v_copy_construct false (v_no_init, v_rep (Unexpected e)) = XTerminate.
Proof.
  intros Hc. unfold v_assign, v_copy_construct, v_no_init.
  split; repeat (void_run; rewrite ?Hc); done.
Qed.

(** The overloads for [void] exchange the values. *)
Lemma void_swap {E} `{Regular E} (e : E) (nothrow_e : bool) :
  v_swap_where_only_one_has_value nothrow_e This (v_rep (Expected ()), v_rep (Unexpected e)) =
    XRet () (v_rep (Unexpected e), v_rep (Expected ())) ∧
  v_swap_where_both_have_value (v_rep (Expected () : expected () E), v_rep (Expected ())) =
    XRet () (v_rep (Expected ()), v_rep (Expected ())).
Proof.
  unfold v_swap_where_only_one_has_value, v_swap_where_both_have_value.
  destruct nothrow_e; split; by void_run.
Qed.

Lemma void_storage_refines_value_witness :
  v_assign (E := nat) (Special0 := nat_special) true (v_rep (Expected ()), v_rep (Unexpected 2)) =
  XRet () (v_rep (Unexpected 2), v_rep (Unexpected 2)).
Proof.
  apply (void_storage_refines_value (H := nat_special) (H0 := nat_regular) (Expected ())
    (Unexpected 2) 3 true false).
Defined.
