(* ===== verification/ExpectedMembers.v ===== *)
(** * utility::expected: which special members it has

    The base classes of [expected] in [include/simpleserv/utility/expected.hpp] exist
    to give it the copy and move members that [T] and [E] allow, trivial where
    they can be.  The classes and the rules of C++ for implicit and defaulted
    members are functions on [members]; the members of [expected] are computed
    from the traits of [T] and [E]. *)

From Stdlib Require Import Btauto.
From S2P Require Import Prelude.

(** ** Special member functions *)

(** What a function that is not trivial does with the held object. *)
Inductive body : Type := Copies | Moves.

Inductive fn : Type := Deleted | Trivial | Code (b : body).

#[export] Instance body_eq_dec : EqDecision body.
Proof. solve_decision. Defined.
#[export] Instance fn_eq_dec : EqDecision fn.
Proof. solve_decision. Defined.

(** The copy and move members of a class, without those that overload resolution
    does not see: a move member that is not declared, or is defaulted and would be
    deleted. *)
Record members : Type := mk_members {
  copy_ctor : fn;
  move_ctor : option fn;
  copy_asgn : fn;
  move_asgn : option fn }.

(** The functions called for a constant lvalue are the copies; those for an
    rvalue: *)
Definition ctor_for_rvalue (c : members) : fn := default (copy_ctor c) (move_ctor c).
Definition asgn_for_rvalue (c : members) : fn := default (copy_asgn c) (move_asgn c).

(** A defaulted function calls those of the bases. *)
Definition defaulted (fs : list fn) : fn :=
  if decide (Deleted ∈ fs) then Deleted
  else default Trivial (find (λ f, bool_decide (f ≠ Trivial)) fs).

(** A defaulted move that is deleted is ignored. *)
Definition unless_deleted (f : fn) : option fn :=
  match f with Deleted => None | f => Some f end.

(** All four defaulted, or implicit in a class that declares none. *)
Definition defaulted_members (bases : list members) : members := {|
  copy_ctor := defaulted (copy_ctor <$> bases);
  move_ctor := unless_deleted (defaulted (ctor_for_rvalue <$> bases));
  copy_asgn := defaulted (copy_asgn <$> bases);
  move_asgn := unless_deleted (defaulted (asgn_for_rvalue <$> bases)) |}.

(** ** Traits *)

(** How a type can be copied, moved or assigned. *)
Inductive quality : Type := Absent | Provided | TriviallyProvided.

Record traits : Type := mk_traits {
  is_void : bool;
  is_default_constructible : bool;
  copy_constructible : quality;
  move_constructible : quality;
  copy_assignable : quality;
  move_assignable : quality;
  is_trivially_destructible : bool }.

Definition has (q : quality) : bool := match q with Absent => false | _ => true end.
Definition trivially (q : quality) : bool := match q with TriviallyProvided => true | _ => false end.

Definition is_copy_constructible T := has (copy_constructible T).
Definition is_move_constructible T := has (move_constructible T).
Definition is_copy_assignable T := has (copy_assignable T).
Definition is_move_assignable T := has (move_assignable T).
Definition is_trivially_copy_constructible T := trivially (copy_constructible T).
Definition is_trivially_move_constructible T := trivially (move_constructible T).
Definition is_trivially_copy_assignable T := trivially (copy_assignable T).
Definition is_trivially_move_assignable T := trivially (move_assignable T).

Definition conjunction (bs : list bool) : bool := forallb id bs.
Definition is_void_or (T : traits) (u : bool) : bool := if is_void T then true else u.
Definition is_copy_constructible_or_void T := is_void_or T (is_copy_constructible T).
Definition is_move_constructible_or_void T := is_void_or T (is_move_constructible T).
Definition is_copy_assignable_or_void T := is_void_or T (is_copy_assignable T).
Definition is_move_assignable_or_void T := is_void_or T (is_move_assignable T).

Lemma trivially_has (q : traits → quality) X : trivially (q X) = true → has (q X) = true.
Proof. by destruct (q X). Qed.

Section members.
Context (T E : traits).

(** ** The layers *)

(** The destructor of the storage runs no code in the specialisations for
    trivially destructible types; those for [void] look at [E] only. *)
Definition storage_trivially_destructible : bool :=
  match is_void T, is_trivially_destructible T, is_trivially_destructible E with
  | true, _, e => e
  | false, true, true => true
  | false, false, false | false, true, false | false, false, true => false
  end.

(** The storage declares its destructor in every specialisation, so that it has no
    move members.  The copies of a union are deleted unless those of its members
    are trivial. *)
Definition expected_storage_base : members := {|
  copy_ctor := if is_void_or T (is_trivially_copy_constructible T) && is_trivially_copy_constructible E
               then Trivial else Deleted;
  move_ctor := None;
  copy_asgn := if is_void_or T (is_trivially_copy_assignable T) && is_trivially_copy_assignable E
               then Trivial else Deleted;
  move_asgn := None |}.

(** It declares none. *)
Definition expected_operations_base : members := defaulted_members [expected_storage_base].

Definition expected_copy_base : members :=
  let d := defaulted_members [expected_operations_base] in
  if is_void_or T (is_trivially_copy_constructible T) && is_trivially_copy_constructible E then d
  else mk_members (Code Copies) (move_ctor d) (copy_asgn d) (move_asgn d).

Definition expected_move_base : members :=
  let d := defaulted_members [expected_copy_base] in
  if is_void_or T (is_trivially_move_constructible T) && is_trivially_move_constructible E then d
  else mk_members (copy_ctor d) (Some (Code Moves)) (copy_asgn d) (move_asgn d).

Definition expected_copy_assign_base : members :=
  let d := defaulted_members [expected_move_base] in
  if is_void_or T (conjunction [is_trivially_copy_assignable T; is_trivially_copy_constructible T;
                                is_trivially_destructible T]) &&
     is_trivially_copy_assignable E && is_trivially_copy_constructible E &&
     is_trivially_destructible E
  then d
  else mk_members (copy_ctor d) (move_ctor d) (Code Copies) (move_asgn d).

Definition expected_move_assign_base : members :=
  let d := defaulted_members [expected_copy_assign_base] in
  if is_void_or T (conjunction [is_trivially_destructible T; is_trivially_move_constructible T;
                                is_trivially_move_assignable T]) &&
     is_trivially_destructible E && is_trivially_move_constructible E &&
     is_trivially_move_assignable E
  then d
  else mk_members (copy_ctor d) (move_ctor d) (copy_asgn d) (Some (Code Moves)).

(** The classes that only delete: [= delete] is seen by overload resolution. *)
Definition expected_delete_ctor_base : members :=
  let EnableCopy := is_copy_constructible_or_void T && is_copy_constructible E in
  let EnableMove := is_move_constructible_or_void T && is_move_constructible E in
  match EnableCopy, EnableMove with
  | true, true => mk_members Trivial (Some Trivial) Trivial (Some Trivial)
  | true, false => mk_members Trivial (Some Deleted) Trivial (Some Trivial)
  | false, true => mk_members Deleted (Some Trivial) Trivial (Some Trivial)
  | false, false => mk_members Deleted (Some Deleted) Trivial (Some Trivial)
  end.

Definition expected_delete_assign_base : members :=
  let EnableCopy := is_copy_constructible_or_void T && is_copy_constructible E &&
                    is_copy_assignable_or_void T && is_copy_assignable E in
  let EnableMove := is_move_constructible_or_void T && is_move_constructible E &&
                    is_move_assignable_or_void T && is_move_assignable E in
  match EnableCopy, EnableMove with
  | true, true => mk_members Trivial (Some Trivial) Trivial (Some Trivial)
  | true, false => mk_members Trivial (Some Trivial) Trivial (Some Deleted)
  | false, true => mk_members Trivial (Some Trivial) Deleted (Some Trivial)
  | false, false => mk_members Trivial (Some Trivial) Deleted (Some Deleted)
  end.

(** This one deletes the default constructor, or not. *)
Definition expected_default_ctor_base : bool * members :=
  (is_default_constructible T || is_void T, mk_members Trivial (Some Trivial) Trivial (Some Trivial)).

(** ** The class *)

Definition expected : members := defaulted_members
  [expected_move_assign_base; expected_delete_ctor_base; expected_delete_assign_base;
   expected_default_ctor_base.2].

(** Of the default constructors of the bases only one can be deleted. *)
Definition expected_default_constructible : bool := expected_default_ctor_base.1.

(** ** Whether the code can be instantiated *)

(** The bodies of the constructors construct a [T] or an [E], those of the
    assignments construct or assign one. *)
Definition ctor_compiles (f : fn) : bool :=
  match f with
  | Code Copies => is_copy_constructible_or_void T && is_copy_constructible E
  | Code Moves => is_move_constructible_or_void T && is_move_constructible E
  | _ => true
  end.
Definition asgn_compiles (f : fn) : bool :=
  match f with
  | Code Copies => ctor_compiles (Code Copies) && is_copy_assignable_or_void T && is_copy_assignable E
  | Code Moves => ctor_compiles (Code Moves) && is_move_assignable_or_void T && is_move_assignable E
  | _ => true
  end.
End members.

(** ** What the layers amount to *)

Section layers.
Context (T E : traits).

(** Both, or [E] alone for [void]. *)
Definition both (p : traits → bool) : bool := is_void_or T (p T) && p E.

Definition copy_ctors : bool := both is_copy_constructible.
Definition move_ctors : bool := both is_move_constructible.
Definition copy_asgns : bool := copy_ctors && both is_copy_assignable.
Definition move_asgns : bool := move_ctors && both is_move_assignable.
Definition trivial_copies : bool :=
  both is_trivially_copy_assignable && both is_trivially_copy_constructible &&
  both is_trivially_destructible.
Definition trivial_moves : bool :=
  both is_trivially_destructible && both is_trivially_move_constructible &&
  both is_trivially_move_assignable.

Lemma trivial_copies_eq :
  is_void_or T (conjunction [is_trivially_copy_assignable T; is_trivially_copy_constructible T;
                             is_trivially_destructible T]) &&
    is_trivially_copy_assignable E && is_trivially_copy_constructible E &&
    is_trivially_destructible E = trivial_copies.
Proof. unfold trivial_copies, both, is_void_or, conjunction, id, forallb. destruct (is_void T); btauto. Qed.

Lemma trivial_moves_eq :
  is_void_or T (conjunction [is_trivially_destructible T; is_trivially_move_constructible T;
                             is_trivially_move_assignable T]) &&
    is_trivially_destructible E && is_trivially_move_constructible E &&
    is_trivially_move_assignable E = trivial_moves.
Proof. unfold trivial_moves, both, is_void_or, conjunction, id, forallb. destruct (is_void T); btauto. Qed.

Lemma copy_enabled_eq :
  is_copy_constructible_or_void T && is_copy_constructible E &&
    is_copy_assignable_or_void T && is_copy_assignable E = copy_asgns.
Proof.
  unfold copy_asgns, copy_ctors, both, is_copy_constructible_or_void, is_copy_assignable_or_void.
  btauto.
Qed.

Lemma move_enabled_eq :
  is_move_constructible_or_void T && is_move_constructible E &&
    is_move_assignable_or_void T && is_move_assignable E = move_asgns.
Proof.
  unfold move_asgns, move_ctors, both, is_move_constructible_or_void, is_move_assignable_or_void.
  btauto.
Qed.

(** The functions of the innermost class that is not the bare storage. *)
Lemma expected_move_assign_base_eq :
  let c := expected_move_assign_base T E in
  copy_ctor c = (if both is_trivially_copy_constructible then Trivial else Code Copies) ∧
  ctor_for_rvalue c =
    (if both is_trivially_move_constructible then
       if both is_trivially_copy_constructible then Trivial else Code Copies
     else Code Moves) ∧
  copy_asgn c =
    (if trivial_copies then Trivial else Code Copies) ∧
  asgn_for_rvalue c =
    (if trivial_moves then
       if both is_trivially_copy_assignable then Trivial else Code Copies
     else Code Moves).
Proof.
  unfold expected_move_assign_base, expected_copy_assign_base, expected_move_base, expected_copy_base,
    expected_operations_base, expected_storage_base.
  rewrite trivial_copies_eq, trivial_moves_eq.
  unfold trivial_copies. fold (both is_trivially_copy_constructible) (both is_trivially_copy_assignable)
    (both is_trivially_move_constructible).
  destruct (both is_trivially_copy_constructible), (both is_trivially_copy_assignable),
    (both is_trivially_move_constructible), (both is_trivially_destructible), trivial_moves; cbn; try done.
Qed.

(** The guards: deleted, or trivial. *)
Lemma expected_guards_eq :
  let g := expected_delete_ctor_base T E in
  let h := expected_delete_assign_base T E in
  copy_ctor g = (if copy_ctors then Trivial else Deleted) ∧
  ctor_for_rvalue g = (if move_ctors then Trivial else Deleted) ∧
  copy_asgn g = Trivial ∧ asgn_for_rvalue g = Trivial ∧
  copy_ctor h = Trivial ∧ ctor_for_rvalue h = Trivial ∧
  copy_asgn h = (if copy_asgns then Trivial else Deleted) ∧
  asgn_for_rvalue h = (if move_asgns then Trivial else Deleted).
Proof.
  unfold expected_delete_ctor_base, expected_delete_assign_base.
  rewrite copy_enabled_eq, move_enabled_eq.
  change (is_copy_constructible_or_void T && is_copy_constructible E) with copy_ctors.
  change (is_move_constructible_or_void T && is_move_constructible E) with move_ctors.
  by destruct copy_ctors, move_ctors, copy_asgns, move_asgns.
Qed.

Lemma both_mono (p q : traits → bool) :
  (∀ X, p X = true → q X = true) → both p = true → both q = true.
Proof.
  intros Hpq. unfold both, is_void_or. destruct (is_void T); rewrite !andb_true_iff; intros [? ?]; auto.
Qed.

(** What deletion of the move means: overload resolution takes the copy. *)
Lemma default_unless_deleted f d : default d (unless_deleted f) = if decide (f = Deleted) then d else f.
Proof. by destruct f. Qed.
End layers.

(** The members of the class, by the traits. *)
Definition expected_closed_form (T E : traits) (c : members) : Prop :=
  copy_ctor c =
    (if copy_ctors T E then if both T E is_trivially_copy_constructible then Trivial else Code Copies
     else Deleted) ∧
  copy_asgn c =
    (if copy_asgns T E then if trivial_copies T E then Trivial else Code Copies else Deleted) ∧
  ctor_for_rvalue c =
    (if move_ctors T E then
       if both T E is_trivially_move_constructible then
         if both T E is_trivially_copy_constructible then Trivial else Code Copies
       else Code Moves
     else copy_ctor c) ∧
  asgn_for_rvalue c =
    (if move_asgns T E then
       if trivial_moves T E then if both T E is_trivially_copy_assignable then Trivial else Code Copies
       else Code Moves
     else copy_asgn c).

Lemma expected_eq T E : expected_closed_form T E (expected T E).
Proof.
  unfold expected_closed_form, expected, defaulted_members, ctor_for_rvalue at 1, asgn_for_rvalue at 1.
  cbn [copy_ctor copy_asgn move_ctor move_asgn fmap list_fmap].
  destruct (expected_move_assign_base_eq T E) as (-> & -> & -> & ->).
  destruct (expected_guards_eq T E) as (-> & -> & -> & -> & -> & -> & -> & ->).
  cbn. rewrite !default_unless_deleted.
  destruct (copy_ctors T E), (copy_asgns T E), (move_ctors T E), (move_asgns T E),
    (both T E is_trivially_copy_constructible), (both T E is_trivially_copy_assignable),
    (both T E is_trivially_move_constructible), (trivial_copies T E), (trivial_moves T E); cbn; done.
Qed.

(** The copy and move members of [expected<T, E>].  It can be copied, or copy
    assigned, exactly if [T] (or [T] is [void]) and [E] can, and copying it is
    trivial where copying both is.  Where both can be moved, an rvalue is moved,
    or copied trivially, except that if both can be moved trivially and one of
    them cannot be copied trivially an rvalue is copied by the code for lvalues.
    Where one of them cannot be moved an rvalue is copied, although the classes
    that enable the moves delete them. *)
Lemma expected_members_closed_form (T E : traits) : expected_closed_form T E (expected T E).
Proof. apply expected_eq. Qed.

(** C36: every copy and move member of [expected<T, E>] that is not deleted can be
    instantiated, with the traits of [T] and [E], but for one kind of types.  If
    both are trivially movable and not both can be copied (say a move-only handle,
    and an enumeration), the class claims to be movable and its move constructor
    does not compile; so for the move assignment of types that are trivially
    movable and assignable and cannot be copied and assigned. *)
Theorem expected_members_compile (T E : traits) :
  let c := expected T E in
  ctor_compiles T E (copy_ctor c) = true ∧
  asgn_compiles T E (copy_asgn c) = true ∧
  (ctor_for_rvalue c ≠ Deleted ∧ ctor_compiles T E (ctor_for_rvalue c) = false ↔
     both T E is_trivially_move_constructible = true ∧ copy_ctors T E = false) ∧
  (asgn_for_rvalue c ≠ Deleted ∧ asgn_compiles T E (asgn_for_rvalue c) = false ↔
     trivial_moves T E = true ∧ both T E is_trivially_copy_assignable = false ∧
     copy_asgns T E = false).
Proof.
  intros c. destruct (expected_eq T E) as (Ecc & Eca & Emc & Ema). fold c in Ecc, Eca, Emc, Ema.
  rewrite Emc, Ema, Ecc, Eca.
  assert (Hcc : ctor_compiles T E (Code Copies) = copy_ctors T E) by done.
  assert (Hmc : ctor_compiles T E (Code Moves) = move_ctors T E) by done.
  assert (Hca : asgn_compiles T E (Code Copies) = copy_asgns T E) by apply copy_enabled_eq.
  assert (Hma : asgn_compiles T E (Code Moves) = move_asgns T E) by apply move_enabled_eq.
  assert (Ht1 : both T E is_trivially_copy_constructible = true → copy_ctors T E = true)
    by apply both_mono, trivially_has.
  assert (Ht2 : both T E is_trivially_move_constructible = true → move_ctors T E = true)
    by apply both_mono, trivially_has.
  assert (Ht3 : trivial_moves T E = true → move_asgns T E = true).
  { unfold trivial_moves, move_asgns, move_ctors. rewrite !andb_true_iff. intros [[_ H1] H2].
    split; [revert H1|revert H2]; apply both_mono, trivially_has. }
  destruct (copy_ctors T E) eqn:E1, (copy_asgns T E) eqn:E2, (move_ctors T E) eqn:E3, (move_asgns T E) eqn:E4,
    (both T E is_trivially_copy_constructible) eqn:E5, (both T E is_trivially_copy_assignable) eqn:E6,
    (both T E is_trivially_move_constructible) eqn:E7, (trivial_copies T E) eqn:E8,
    (trivial_moves T E) eqn:E9; rewrite ?Hcc, ?Hmc, ?Hca, ?Hma; cbn; intuition congruence.
Qed.
