(* ===== verification/TemplateCache.v ===== *)
(** * The template cache

    [include/simpleserv/cache.hpp], which nothing includes and no compiler accepts:
    the specialisation [ContentParser<std::string>] comes before its template, the
    queue holds references, [Storage] is no template, and [FileStore::remove] and
    [clear] name a variable [file] that is not declared.  The other members are
    modelled as they read; [FileStore] for values whose [operator<<] is [shown]. *)

From S2P Require Import Prelude Effects.

(** ** [ContentParser] *)

Class ContentParser (V : Type) := { encode : V → str; decode : str → option V }.

#[export] Instance content_parser_string : ContentParser str := {|
  encode content := content; decode content := Some content |}.

(** ** The interface of a storage *)

Class Storage (St K V : Type) := {
  storage_get : K → M St (option V);
  storage_put : K → V → M St ();
  storage_remove : K → M St ();
  storage_clear : M St () }.

(** A storage implements a finite map. *)
Class StorageSpec (St K V : Type) `{Countable K, !Storage St K V} := {
  stores : St → gmap K V → Prop;
  storage_get_spec k s m :
    stores s m → ∃ s', storage_get k s = Ret (m !! k, s') ∧ stores s' m;
  storage_put_spec k v s m :
    stores s m → ∃ s', storage_put k v s = Ret ((), s') ∧ stores s' (<[k := v]> m);
  storage_remove_spec k s m :
    stores s m → ∃ s', storage_remove k s = Ret ((), s') ∧ stores s' (delete k m);
  storage_clear_spec s m :
    stores s m → ∃ s', storage_clear s = Ret ((), s') ∧ stores s' ∅ }.

(** ** [InMemoryStore] *)

Section memory.
Context {K V : Type} `{Countable K}.

Definition InMemoryStore_get (key : K) : M (gmap K V) (option V) :=
  store ← get;
  match store !! key with None => mret None | Some value => mret (Some value) end.
Definition InMemoryStore_put (key : K) (value : V) : M (gmap K V) () := modify <[key := value]>.
Definition InMemoryStore_remove (key : K) : M (gmap K V) () := modify (delete key).
Definition InMemoryStore_clear : M (gmap K V) () := put ∅.

#[export] Instance InMemoryStore : Storage (gmap K V) K V := {|
  storage_get := InMemoryStore_get; storage_put := InMemoryStore_put;
  storage_remove := InMemoryStore_remove; storage_clear := InMemoryStore_clear |}.

#[export] Instance InMemoryStore_spec : StorageSpec (gmap K V) K V.
Proof.
  refine {| stores s m := s = m |}.
  - intros k s m ->. exists m. split; [|done]. cbn. unfold InMemoryStore_get.
    rewrite (M_bind_run _ _ m m m) by done. by destruct (m !! k).
  - intros k v s m ->. by eexists.
  - intros k s m ->. by eexists.
  - intros s m ->. by eexists.
Defined.
End memory.

(** ** [FileStore] *)

Section file_store.
Context {K V : Type} `{Countable K, !ContentParser V}.
Context (shown : V → str) (path : str).
(** Whether a file can be created or truncated. *)
Context (creatable : str → bool).

Definition INT_MAX : Z := 2 ^ 31 - 1.

(** The members [id] and [index], and the files.  No constructor gives [id] a
    value. *)
Record FileStore : Type := mk_FileStore {
  fs_id : Z; fs_index : gmap K str; fs_files : gmap str str }.

(** [index[key]] inserts the empty string under a key that is not there. *)
Definition index_at (key : K) : M FileStore str := λ s,
  match fs_index s !! key with
  | Some name => Ret (name, s)
  | None => Ret ([], mk_FileStore (fs_id s) (<[key := []]> (fs_index s)) (fs_files s))
  end.

Definition FileStore_get (key : K) : M FileStore (option V) :=
  name ← index_at key;
  s ← get;
  match fs_files s !! (path ++ name) with
  | None => mret None
  | Some content => mret (decode content)
  end.

(** [id++], a signed overflow at the end; the result of [encode] is not used. *)
Definition FileStore_put (key : K) (value : V) : M FileStore () :=
  s ← get;
  if decide (fs_id s = INT_MAX) then undef
  else
    _ ← put (mk_FileStore (fs_id s + 1) (<[key := to_string (fs_id s)]> (fs_index s)) (fs_files s));
    name ← index_at key;
    s ← get;
    if creatable (path ++ name) then
      put (mk_FileStore (fs_id s) (fs_index s) (<[path ++ name := shown value]> (fs_files s)))
    else mret ().
End file_store.
Arguments FileStore K {_ _}.

(** ** [Cache] *)

Section cache.
Context {St K V : Type} `{!Storage St K V}.

Record Cache : Type := mk_Cache { c_queue : list K; c_storage : St; c_capacity : Z }.

(** The members of the storage. *)
Definition on_storage {A} (m : M St A) : M Cache A := λ c,
  '(a, st) ← m (c_storage c); Ret (a, mk_Cache (c_queue c) st (c_capacity c)).

(** [int] to [size_t]. *)
Definition to_size_t (z : Z) : Z := z `mod` 2 ^ 64.

Definition Cache_get (key : K) : M Cache (option V) := on_storage (storage_get key).
Definition Cache_remove (key : K) : M Cache () := on_storage (storage_remove key).

(** [front()] of an empty queue is undefined. *)
Definition evict : M Cache () :=
  c ← get;
  match c_queue c with
  | [] => undef
  | key :: queue => _ ← put (mk_Cache queue (c_storage c) (c_capacity c)); Cache_remove key
  end.

Definition Cache_put (key : K) (value : V) : M Cache () :=
  c ← get;
  _ ← (if decide (to_size_t (c_capacity c) ≤ Z.of_nat (length (c_queue c)))%Z then evict else mret ());
  on_storage (storage_put key value).

Definition Cache_clear : M Cache () :=
  _ ← on_storage storage_clear; modify (λ c, mk_Cache [] (c_storage c) (c_capacity c)).

(** The uses of a cache; what [get] answered. *)
Inductive cache_op : Type := Get (key : K) | Put (key : K) (value : V) | Remove (key : K) | Clear.

Definition cache_do (op : cache_op) : M Cache (list (option V)) :=
  match op with
  | Get key => v ← Cache_get key; mret [v]
  | Put key value => _ ← Cache_put key value; mret []
  | Remove key => _ ← Cache_remove key; mret []
  | Clear => _ ← Cache_clear; mret []
  end.

Fixpoint cache_run (ops : list cache_op) : M Cache (list (option V)) :=
  match ops with
  | [] => mret []
  | op :: ops => a ← cache_do op; b ← cache_run ops; mret (a ++ b)
  end.
End cache.
Arguments Cache St K : clear implicits.
Arguments cache_op K V : clear implicits.

(** ** A cache is its storage *)

(** What the operations do to a map, and what [get] answers. *)
Definition map_do {K V} `{Countable K} (op : cache_op K V) (m : gmap K V) : list (option V) * gmap K V :=
  match op with
  | Get key => ([m !! key], m)
  | Put key value => ([], <[key := value]> m)
  | Remove key => ([], delete key m)
  | Clear => ([], ∅)
  end.

Fixpoint map_run {K V} `{Countable K} (ops : list (cache_op K V)) (m : gmap K V) :
    list (option V) * gmap K V :=
  match ops with
  | [] => ([], m)
  | op :: ops => let '(a, m) := map_do op m in let '(b, m) := map_run ops m in (a ++ b, m)
  end.

Section cache_spec.
Context {St K V : Type} `{StorageSpec St K V}.
Context (capacity : Z) (Hcap : to_size_t capacity ≠ 0%Z).

(** A cache that stores [m]: nothing is queued. *)
Definition caches (c : Cache St K) (m : gmap K V) : Prop :=
  c_queue c = [] ∧ c_capacity c = capacity ∧ stores (c_storage c) m.

Lemma to_size_t_pos : (0 < to_size_t capacity)%Z.
Proof using Hcap. unfold to_size_t in *. pose proof (Z.mod_pos_bound capacity (2 ^ 64)). lia. Qed.

Lemma cache_do_run op c m :
  caches c m → ∃ c', cache_do op c = Ret ((map_do op m).1, c') ∧ caches c' (map_do op m).2.
Proof using Hcap.
  pose proof to_size_t_pos as Hp. destruct c as [queue s cap]. intros (Hq & Hc & Hs). cbn in Hq, Hc, Hs.
  subst queue cap. destruct op as [k|k v|k|]; cbn [map_do fst snd].
  - destruct (storage_get_spec k s m Hs) as (s' & E & Hs'). exists (mk_Cache [] s' capacity).
    unfold cache_do, Cache_get. erewrite M_bind_run; [done|]. unfold on_storage. cbn. by rewrite E.
  - destruct (storage_put_spec k v s m Hs) as (s' & E & Hs'). exists (mk_Cache [] s' capacity).
    unfold cache_do, Cache_put. erewrite M_bind_run; [done|].
    rewrite (M_bind_run get _ (mk_Cache [] s capacity) (mk_Cache [] s capacity)
      (mk_Cache [] s capacity)) by done.
    cbn [c_queue c_capacity length]. rewrite decide_False by lia.
    rewrite (M_bind_run _ _ (mk_Cache [] s capacity) () (mk_Cache [] s capacity)) by done.
    unfold on_storage. cbn. by rewrite E.
  - destruct (storage_remove_spec k s m Hs) as (s' & E & Hs'). exists (mk_Cache [] s' capacity).
    unfold cache_do, Cache_remove. erewrite M_bind_run; [done|]. unfold on_storage. cbn. by rewrite E.
  - destruct (storage_clear_spec s m Hs) as (s' & E & Hs'). exists (mk_Cache [] s' capacity).
    unfold cache_do, Cache_clear. erewrite M_bind_run; [done|].
    erewrite M_bind_run; [|unfold on_storage; cbn; by rewrite E]. done.
Qed.

Lemma cache_run_eq ops c m :
  caches c m → ∃ c', cache_run ops c = Ret ((map_run ops m).1, c') ∧ caches c' (map_run ops m).2.
Proof using Hcap.
  revert c m. induction ops as [|op ops IH]; intros c m Hc; [by exists c|].
  destruct (cache_do_run op c m Hc) as (c1 & E1 & Hc1).
  cbn [map_run cache_run]. destruct (map_do op m) as [a m1]. cbn [fst snd] in *.
  destruct (IH c1 m1 Hc1) as (c2 & E2 & Hc2). destruct (map_run ops m1) as [b m2]. cbn [fst snd] in *.
  exists c2. split; [|done]. rewrite (M_bind_run _ _ _ _ _ E1). by rewrite (M_bind_run _ _ _ _ _ E2).
Qed.
End cache_spec.

(** The capacity of the cache does nothing.  No key is ever queued, so over
    any storage that implements a map, and for any capacity but 0 (a negative one
    is a large [size_t]), the cache answers every sequence of operations as an
    unbounded map: it never evicts.  With capacity 0 the first [put] takes the
    front of an empty queue: undefined behaviour. *)
Lemma cache_never_evicts {St K V : Type} `{StorageSpec St K V} (st : St) (m : gmap K V)
    (capacity : Z) (ops : list (cache_op K V)) (key : K) (value : V) :
  stores st m →
  (to_size_t capacity ≠ 0%Z →
   ∃ c, cache_run ops (mk_Cache [] st capacity) = Ret ((map_run ops m).1, c) ∧
     c_queue c = [] ∧ stores (c_storage c) (map_run ops m).2) ∧
  cache_run (Put key value :: ops) (mk_Cache [] st 0) = Undef.
Proof.
  intros Hs. split; [|done]. intros Hcap.
  destruct (cache_run_eq capacity Hcap ops (mk_Cache [] st capacity) m) as (c & E & Hq & _ & Hst); [done|].
  by exists c.
Qed.

Lemma cache_never_evicts_witness :
  ∃ c, cache_run [Put 1 10; Put 2 20; Put 3 30; Get 1] (mk_Cache [] (∅ : gmap nat nat) 1) =
    Ret ([Some 10], c) ∧ c_queue c = [].
Proof.
  destruct (cache_never_evicts (∅ : gmap nat nat) ∅ 1 [Put 1 10; Put 2 20; Put 3 30; Get 1] 4 40)
    as [Hc _].
  - reflexivity.
  - destruct Hc as (c & E & Hq & _); [by vm_compute|]. by exists c.
Defined.

(** ** The store in files *)

Section file_store_spec.
Context {K V : Type} `{Countable K, !ContentParser V}.
Context (shown : V → str) (path : str).
Context (decode_shown : ∀ v, decode (shown v) = Some v).

(** A key is absent, or was looked up in vain, or has a file of its own, with the
    number it was given. *)
Record file_store_ok (s : FileStore K) (m : gmap K V) : Prop := {
  fi_path : fs_files s !! path = None;
  fi_index k name : fs_index s !! k = Some name →
    (name = [] ∧ m !! k = None) ∨
    ∃ i v, name = to_string i ∧ (i < fs_id s)%Z ∧ m !! k = Some v ∧
      fs_files s !! (path ++ name) = Some (shown v);
  fi_none k : fs_index s !! k = None → m !! k = None }.

Lemma FileStore_get_run k s m :
  file_store_ok s m →
  ∃ s', FileStore_get path k s = Ret (m !! k, s') ∧ file_store_ok s' m ∧ fs_id s' = fs_id s.
Proof using decode_shown.
  intros [Hp Hi Hn]. unfold FileStore_get. destruct (fs_index s !! k) as [name|] eqn:E.
  - exists s. split; [|done].
    rewrite (M_bind_run _ _ s name s) by (unfold index_at; by rewrite E).
    rewrite (M_bind_run get _ s s s) by done.
    destruct (Hi k name E) as [[-> ->]|(i & v & -> & _ & -> & ->)].
    + by rewrite app_nil_r, Hp.
    + by rewrite decode_shown.
  - exists (mk_FileStore (fs_id s) (<[k := []]> (fs_index s)) (fs_files s)). split; [|split; [split|done]]; cbn.
    + erewrite M_bind_run by (unfold index_at; by rewrite E).
      erewrite M_bind_run by done. cbn. by rewrite app_nil_r, Hp, (Hn k E).
    + done.
    + intros k' name [[<- <-]|[Hne Hl]]%lookup_insert_Some; [left; auto|by apply Hi].
    + intros k' [Hl _]%lookup_insert_None. auto.
Qed.

Lemma FileStore_put_run creatable k v s m :
  (∀ name, creatable name = true) → (fs_id s < INT_MAX)%Z → file_store_ok s m →
  ∃ s', FileStore_put shown path creatable k v s = Ret ((), s') ∧ file_store_ok s' (<[k := v]> m) ∧
    fs_id s' = (fs_id s + 1)%Z.
Proof using.
  clear decode_shown. intros Hc Hid [Hp Hi Hn]. unfold FileStore_put.
  rewrite (M_bind_run get _ s s s) by done. rewrite decide_False by lia.
  erewrite M_bind_run by done. erewrite M_bind_run by (unfold index_at; cbn; by rewrite lookup_insert_eq).
  erewrite M_bind_run by done. rewrite Hc. eexists. split; [done|]. split; [|done]. split; cbn.
  - apply lookup_insert_None. split; [done|]. intros E. rewrite <- (app_nil_r path) in E at 2.
    by apply app_inv_head, to_string_not_nil in E.
  - intros k' name [[<- <-]|[Hne Hl]]%lookup_insert_Some.
    + right. exists (fs_id s), v. rewrite !lookup_insert_eq. repeat split; lia.
    + rewrite lookup_insert_ne by done. destruct (Hi k' name Hl) as [?|(i & w & -> & Hlt & Hm & Hf)]; [by left|].
      right. exists i, w. rewrite lookup_insert_ne; [repeat split; (done || lia)|].
      intros E%app_inv_head%to_string_inj. lia.
  - intros k' [Hl Hne]%lookup_insert_None. rewrite lookup_insert_ne by done. auto.
Qed.
End file_store_spec.

(** Puts and gets on a store of files. *)
Inductive file_op (K V : Type) : Type := File_get (key : K) | File_put (key : K) (value : V).
Arguments File_get {K V} key.
Arguments File_put {K V} key value.

Fixpoint file_run {K V} `{Countable K, !ContentParser V} (shown : V → str) (path : str)
    (creatable : str → bool) (ops : list (file_op K V)) : M (FileStore K) (list (option V)) :=
  match ops with
  | [] => mret []
  | File_get key :: ops =>
    a ← FileStore_get path key; b ← file_run shown path creatable ops; mret (a :: b)
  | File_put key value :: ops =>
    _ ← FileStore_put shown path creatable key value; file_run shown path creatable ops
  end.

(** The same on a cache without bounds. *)
Definition as_cache_op {K V} (op : file_op K V) : cache_op K V :=
  match op with File_get key => Get key | File_put key value => Put key value end.

(** A [FileStore] works as a map, as long as every file can be created, no file is
    named as the directory [path] itself, the parser reads what [operator<<]
    writes, and the numbers of the files do not overflow: [get] answers what was
    last put under the key, through a file of its own, and nothing for a key that
    was never put, although looking it up adds it to the index. *)
Lemma file_store_refines_map {K V} `{Countable K, !ContentParser V} (shown : V → str) (path : str)
    (creatable : str → bool) (ops : list (file_op K V)) (s : FileStore K) (m : gmap K V) :
  (∀ v, decode (shown v) = Some v) → (∀ name, creatable name = true) →
  file_store_ok shown path s m → (fs_id s + Z.of_nat (length ops) ≤ INT_MAX)%Z →
  ∃ s', file_run shown path creatable ops s = Ret ((map_run (as_cache_op <$> ops) m).1, s') ∧
    file_store_ok shown path s' (map_run (as_cache_op <$> ops) m).2.
Proof.
  intros Hd Hc. revert s m. induction ops as [|[k|k v] ops IH]; intros s m Hs Hid; [by exists s| |];
    cbn [length fmap list_fmap as_cache_op map_run map_do file_run] in *.
  - destruct (FileStore_get_run shown path Hd k s m Hs) as (s1 & E1 & Hs1 & Hi).
    destruct (IH s1 m Hs1) as (s2 & E2 & Hs2); [lia|]. exists s2.
    rewrite (M_bind_run _ _ _ _ _ E1), (M_bind_run _ _ _ _ _ E2).
    by destruct (map_run (as_cache_op <$> ops) m).
  - destruct (FileStore_put_run shown path creatable k v s m Hc) as (s1 & E1 & Hs1 & Hi); [lia|done|].
    destruct (IH s1 _ Hs1) as (s2 & E2 & Hs2); [lia|]. exists s2.
    rewrite (M_bind_run _ _ _ _ _ E1), E2. by destruct (map_run (as_cache_op <$> ops) _).
Qed.

Lemma file_store_refines_map_witness :
  ∃ s', file_run id ($"cache/") (λ _, true)
      [File_get 1; File_put 1 ($"a"); File_put 2 ($"b"); File_put 1 ($"c"); File_get 1; File_get 3]
      (mk_FileStore 0 ∅ ∅ : FileStore nat) = Ret ([None; Some ($"c"); None], s').
Proof.
  destruct (file_store_refines_map (V := str) id ($"cache/") (λ _, true)
    [File_get 1; File_put 1 ($"a"); File_put 2 ($"b"); File_put 1 ($"c"); File_get 1; File_get 3]
    (mk_FileStore 0 ∅ ∅ : FileStore nat) ∅) as (s' & E & _).
  - done.
  - done.
  - split; [done|by intros k name|done].
  - vm_compute. discriminate.
  - exists s'. exact E.
Defined.
