(* ===== verification/Http.v ===== *)
(** * The HTTP vocabulary: methods, versions, status codes

    [include/simpleserv/http/http.hpp], and the version type of
    [include/simpleserv/http/message.hpp].  An enumeration of the code is an
    inductive type in a Module of its name; the tables indexed by an enumerator
    are lists read at its position. *)

From S2P Require Import Prelude Effects.

Module HTTPMethod.
Inductive t : Type := GET | POST | PUT | DELETE | HEAD | OPTIONS | TRACE | CONNECT.

#[global] Instance eq_dec : EqDecision t.
Proof. solve_decision. Defined.

Definition to_nat (m : t) : nat :=
  match m with
  | GET => 0 | POST => 1 | PUT => 2 | DELETE => 3
  | HEAD => 4 | OPTIONS => 5 | TRACE => 6 | CONNECT => 7
  end.
End HTTPMethod.

Definition HTTP_METHOD_STRINGS : list str :=
  [$"GET"; $"POST"; $"PUT"; $"DELETE"; $"HEAD"; $"OPTIONS"; $"TRACE"; $"CONNECT"].

Module HTTPVersion.
Inductive t : Type := HTTP_1_0 | HTTP_1_1 | HTTP_2_0 | HTTP_INVALID.

#[global] Instance eq_dec : EqDecision t.
Proof. solve_decision. Defined.

Definition to_nat (v : t) : nat :=
  match v with HTTP_1_0 => 0 | HTTP_1_1 => 1 | HTTP_2_0 => 2 | HTTP_INVALID => 3 end.
End HTTPVersion.

Definition HTTP_VERSION_STRINGS : list str := [$"HTTP/1.0"; $"HTTP/1.1"; $"HTTP/2.0"].

(** [std::array::operator[]]: an index past the end is undefined behaviour. *)
Definition array_at {A} (arr : list A) (i : nat) : outcome A :=
  match arr !! i with Some a => Ret a | None => Undef end.

Module HTTPStatusCode.
Inductive t : Type :=
  | CONTINUE | SWITCHING_PROTOCOLS
  | OK | CREATED | ACCEPTED | NO_CONTENT
  | MULTIPLE_CHOICES | MOVED_PERMANENTLY | FOUND | SEE_OTHER | NOT_MODIFIED
  | BAD_REQUEST | UNAUTHORIZED | FORBIDDEN | NOT_FOUND
  | INTERNAL_SERVER_ERROR | NOT_IMPLEMENTED | BAD_GATEWAY | SERVICE_UNAVAILABLE.

#[global] Instance eq_dec : EqDecision t.
Proof. solve_decision. Defined.

(** The value of an enumerator. *)
Definition to_Z (s : t) : Z :=
  match s with
  | CONTINUE => 100 | SWITCHING_PROTOCOLS => 101
  | OK => 200 | CREATED => 201 | ACCEPTED => 202 | NO_CONTENT => 204
  | MULTIPLE_CHOICES => 300 | MOVED_PERMANENTLY => 301 | FOUND => 302
  | SEE_OTHER => 303 | NOT_MODIFIED => 304
  | BAD_REQUEST => 400 | UNAUTHORIZED => 401 | FORBIDDEN => 403 | NOT_FOUND => 404
  | INTERNAL_SERVER_ERROR => 500 | NOT_IMPLEMENTED => 501 | BAD_GATEWAY => 502
  | SERVICE_UNAVAILABLE => 503
  end.
End HTTPStatusCode.

Definition HTTP_RESPONSE_STATUS : list str :=
  [$"100 Continue"; $"101 Switching Protocols"; $"200 OK"; $"201 Created";
   $"202 Accepted"; $"204 No Content"; $"301 Moved Permanently"; $"302 Found";
   $"304 Not Modified"; $"400 Bad Request"; $"401 Unauthorized"; $"403 Forbidden";
   $"404 Not Found"; $"500 Internal Server Error"; $"501 Not Implemented";
   $"502 Bad Gateway"; $"503 Service Unavailable"].

Definition status_code_to_string (status_code : HTTPStatusCode.t) : str :=
  match status_code with
  | HTTPStatusCode.CONTINUE => $"100 Continue"
  | HTTPStatusCode.SWITCHING_PROTOCOLS => $"101 Switching Protocols"
  | HTTPStatusCode.OK => $"200 OK"
  | HTTPStatusCode.CREATED => $"201 Created"
  | HTTPStatusCode.ACCEPTED => $"202 Accepted"
  | HTTPStatusCode.NO_CONTENT => $"204 No Content"
  | HTTPStatusCode.MULTIPLE_CHOICES => $"300 Multiple Choices"
  | HTTPStatusCode.MOVED_PERMANENTLY => $"300 Moved Permanently"
  | HTTPStatusCode.FOUND => $"301 Found"
  | HTTPStatusCode.SEE_OTHER => $"303 See Other"
  | HTTPStatusCode.NOT_MODIFIED => $"304 Not Modified"
  | HTTPStatusCode.BAD_REQUEST => $"400 Bad Request"
  | HTTPStatusCode.UNAUTHORIZED => $"401 Unauthorized"
  | HTTPStatusCode.FORBIDDEN => $"403 Forbidden"
  | HTTPStatusCode.NOT_FOUND => $"404 Not Found"
  | HTTPStatusCode.INTERNAL_SERVER_ERROR => $"500 Internal Server Error"
  | HTTPStatusCode.NOT_IMPLEMENTED => $"501 Not Implemented"
  | HTTPStatusCode.BAD_GATEWAY => $"502 Bad Gateway"
  | HTTPStatusCode.SERVICE_UNAVAILABLE => $"503 Service Unavailable"
  end.

(** The three digits a reason line starts with. *)
Definition status_digits (s : HTTPStatusCode.t) : str := to_string (HTTPStatusCode.to_Z s).

Lemma method_string_at m :
  ∃ w, array_at HTTP_METHOD_STRINGS (HTTPMethod.to_nat m) = Ret w.
Proof. destruct m; cbv; eauto. Qed.

(** The status line agrees with the status code for every code but two: its
    first three characters are the digits of the code, except that
    [MOVED_PERMANENTLY] (301) is sent as ["300 Moved Permanently"] and [FOUND] (302)
    as ["301 Found"].  The table [HTTP_RESPONSE_STATUS] has the right text of both. *)
Lemma status_line_digits (s : HTTPStatusCode.t) :
  (take 3 (status_code_to_string s) = status_digits s ↔
     s ≠ HTTPStatusCode.MOVED_PERMANENTLY ∧ s ≠ HTTPStatusCode.FOUND) ∧
  (status_code_to_string s ∉ HTTP_RESPONSE_STATUS ↔
     s = HTTPStatusCode.MOVED_PERMANENTLY ∨ s = HTTPStatusCode.FOUND ∨
     s = HTTPStatusCode.MULTIPLE_CHOICES ∨ s = HTTPStatusCode.SEE_OTHER).
Proof.
  split.
  - destruct s; (split; [intros H; split; intros [=]; vm_compute in H; discriminate|
      by intros [? ?]]).
  - destruct s; (split; [|intros [?|[?|[?|?]]]; try done; by apply (bool_decide_unpack _)]);
      intros H; auto; destruct H; by apply (bool_decide_unpack _).
Qed.
