(* ===== verification/StringParser.v ===== *)
(** * utility::StringParser

    [include/simpleserv/utility/string_parser.hpp]: the owned string, the view
    of its unread part, and the scanning operations.  The operations mutate the
    view, so they live in the monad [M StringParser].  A view is represented by
    the characters it shows; [StringParser_ok] says they are a suffix of the
    owned string.  [std::string::npos] is the absence of a position; reading an
    empty view's first character with [operator[]] and [remove_prefix] past the
    end of a view are undefined behaviour, [at] on an empty view throws. *)

From S2P Require Import Prelude Effects.

(** ** parser_error *)

(** [std::source_location::current()]: the file, as the code includes it, the
    line, and the unqualified name of the function (the spelling of both names
    is the compiler's choice). *)
Record source_location : Type := mk_loc {
  file_name : str; line : Z; function_name : str }.

Record parser_error : Type := mk_parser_error {
  location_ : source_location; msg_ : str }.

(** The constructor without a message. *)
Definition parser_error_default (location : source_location) : parser_error :=
  mk_parser_error location ($"An error has occured during parsing.").

(** The constructor with one. *)
Definition parser_error_msg (message : str) (location : source_location) : parser_error :=
  mk_parser_error location
    ($"Parser error in " ++ file_name location ++ $", line " ++ to_string (line location) ++
     $", function " ++ function_name location ++ [LF] ++ $" " ++ message).

Definition what (e : parser_error) : str := msg_ e.

(** ** The parser *)

Record StringParser : Type := mk_StringParser { sp_str : str; sp_view : str }.

(** Both constructors copy or move the argument and set the view to all of it. *)
Definition StringParser_new (str_in : str) : StringParser := mk_StringParser str_in str_in.

Abbreviation P := (M StringParser).

Definition set_view (v : str) : P () := modify (λ p, mk_StringParser (sp_str p) v).

(** [std::string_view::remove_prefix]: defined for [n <= size()]. *)
Definition remove_prefix (n : nat) (view : str) : outcome str :=
  if decide (n ≤ length view) then Ret (drop n view) else Undef.
#[global] Arguments remove_prefix : simpl never.

(** [remove_prefix(find(..))]: [npos] exceeds every size. *)
Definition remove_prefix_pos (pos : option nat) (view : str) : outcome str :=
  match pos with Some n => remove_prefix n view | None => Undef end.

(** [substr(0, n)] with a position as the count: [npos] means all of it. *)
Definition substr0 (view : str) (pos : option nat) : str :=
  match pos with Some n => take n view | None => view end.

Definition starts_with_char (c : ascii) (view : str) : bool :=
  match view with c' :: _ => Ascii.eqb c c' | [] => false end.

Definition move (steps : nat) : P () :=
  p ← get; v ← liftO (remove_prefix steps (sp_view p)); set_view v.

(** [view[0]]. *)
Definition view_front (view : str) : outcome ascii :=
  match view with c :: _ => Ret c | [] => Undef end.

Definition loc_expect_char : source_location :=
  mk_loc ($"simpleserv/utility/string_parser.hpp") 51 ($"expect").
Definition loc_expect_two : source_location :=
  mk_loc ($"simpleserv/utility/string_parser.hpp") 70 ($"expect_two").

Definition expect_char (char1 : ascii) : P (option parser_error) :=
  p ← get;
  if negb (starts_with_char char1 (sp_view p)) then
    c ← liftO (view_front (sp_view p));
    mret (Some (parser_error_msg
      ($"Expected character: " ++ [char1] ++ $" (" ++ to_string (char_to_int char1) ++
       $"), got " ++ [c] ++ $" (" ++ to_string (char_to_int c) ++ $")")
      loc_expect_char))
  else
    v ← liftO (remove_prefix 1 (sp_view p)); _ ← set_view v; mret None.

Definition expect (chars : str) (location : source_location) : P (option parser_error) :=
  p ← get;
  if negb (starts_with chars (sp_view p)) then
    mret (Some (parser_error_msg
      ($"Expected characters: " ++ chars ++ $", got " ++ sp_view p) location))
  else
    v ← liftO (remove_prefix (length chars) (sp_view p)); _ ← set_view v; mret None.

Definition expect_two (char1 char2 : ascii) : P (option parser_error) :=
  p ← get;
  if negb (starts_with_char char1 (sp_view p)) && negb (starts_with_char char2 (sp_view p)) then
    c ← liftO (view_front (sp_view p));
    mret (Some (parser_error_msg
      ($"Expected character: " ++ [char1] ++ $" (" ++ to_string (char_to_int char1) ++
       $") or " ++ [char2] ++ $" (" ++ to_string (char_to_int char2) ++
       $"), got " ++ sp_str p ++ $" (" ++ to_string (char_to_int c) ++ $")")
      loc_expect_two))
  else
    v ← liftO (remove_prefix 1 (sp_view p)); _ ← set_view v; mret None.

(** The loops remove one character per round, so they recurse on the view. *)
Fixpoint consume_while (p : ascii → bool) (view : str) : str :=
  match view with
  | c :: view' => if p c then consume_while p view' else view
  | [] => []
  end.

Definition consume_all (char1 : ascii) : P () :=
  modify (λ p, mk_StringParser (sp_str p) (consume_while (Ascii.eqb char1) (sp_view p))).

Definition consume_all_two (char1 char2 : ascii) : P () :=
  modify (λ p, mk_StringParser (sp_str p)
    (consume_while (λ c, Ascii.eqb char1 c || Ascii.eqb char2 c) (sp_view p))).

Definition head : P ascii :=
  p ← get; match sp_view p with c :: _ => mret c | [] => raise out_of_range end.

(** The callback may replace the view it gets by reference. *)
Definition process_function {A} (function : str → outcome (A * str)) : P A :=
  p ← get; '(a, v) ← liftO (function (sp_view p)); _ ← set_view v; mret a.

(** The callback gets a view of its own. *)
Definition process_function_own {A} (function : str → outcome A) : P A :=
  p ← get; liftO (function (sp_view p)).

Definition next_token (delim : ascii) : P str :=
  p ← get;
  let end_ := find_idx (Ascii.eqb delim) (sp_view p) in
  let token := substr0 (sp_view p) end_ in
  v ← liftO (remove_prefix_pos end_ (sp_view p)); _ ← set_view v; mret token.

(** The static overload, on a view passed by value. *)
Definition next_token_view (view : str) (delim : ascii) : outcome (str * str) :=
  let end_ := find_idx (Ascii.eqb delim) view in
  let token := substr0 view end_ in
  v ← remove_prefix_pos end_ view; Ret (token, v).

(** ** What the operations compute

    Equations [op p = Ret (a, p')], collected in the database [runs]; the tactic
    [prun] executes a block with them. *)

Create HintDb runs discriminated.

Ltac pstep := erewrite M_bind_run by (eauto with runs nocore); cbv beta iota.
Ltac prun := repeat pstep.

Lemma remove_prefix_app {w v : str} : remove_prefix (length w) (w ++ v) = Ret v.
Proof.
  unfold remove_prefix. rewrite decide_True by (rewrite length_app; lia).
  by rewrite drop_app_length.
Qed.

Lemma remove_prefix_1 c v : remove_prefix 1 (c :: v) = Ret v.
Proof. apply (remove_prefix_app (w := [c])). Qed.

Lemma get_run s v : get (mk_StringParser s v) = Ret (mk_StringParser s v, mk_StringParser s v).
Proof. done. Qed.

Lemma set_view_run s v w : set_view w (mk_StringParser s v) = Ret ((), mk_StringParser s w).
Proof. done. Qed.

#[export] Hint Resolve get_run set_view_run liftO_run remove_prefix_1 remove_prefix_app : runs.

Section runs.
Implicit Types (s v w : str) (c d : ascii) (l : source_location).

Lemma move_run s c v : move 1 (mk_StringParser s (c :: v)) = Ret ((), mk_StringParser s v).
Proof. unfold move. by prun. Qed.

Lemma head_run s c v : head (mk_StringParser s (c :: v)) = Ret (c, mk_StringParser s (c :: v)).
Proof. done. Qed.

Lemma head_empty s : head (mk_StringParser s []) = Throw out_of_range.
Proof. done. Qed.

Lemma expect_hit s w v l :
  expect w l (mk_StringParser s (w ++ v)) = Ret (None, mk_StringParser s v).
Proof.
  unfold expect. pstep. simpl. rewrite starts_with_app. simpl. by prun.
Qed.

Definition expect_error w v l : parser_error :=
  parser_error_msg ($"Expected characters: " ++ w ++ $", got " ++ v) l.

Lemma expect_miss s w v l :
  starts_with w v = false →
  expect w l (mk_StringParser s v) = Ret (Some (expect_error w v l), mk_StringParser s v).
Proof. intros H. unfold expect. pstep. simpl. by rewrite H. Qed.

(** [expect] either consumes the characters or leaves the view alone. *)
Lemma expect_total s w v l :
  (∃ v', v = w ++ v' ∧ expect w l (mk_StringParser s v) = Ret (None, mk_StringParser s v')) ∨
  (starts_with w v = false ∧
   expect w l (mk_StringParser s v) = Ret (Some (expect_error w v l), mk_StringParser s v)).
Proof.
  destruct (starts_with w v) eqn:H.
  - left. apply starts_with_spec in H. exists (drop (length w) v).
    split; [done|]. rewrite H at 1. apply expect_hit.
  - right. eauto using expect_miss.
Qed.

Lemma expect_two_hit s c d1 d2 v :
  c = d1 ∨ c = d2 →
  expect_two d1 d2 (mk_StringParser s (c :: v)) = Ret (None, mk_StringParser s v).
Proof.
  intros H. unfold expect_two. pstep. simpl.
  replace (negb (Ascii.eqb d1 c) && negb (Ascii.eqb d2 c)) with false
    by (destruct H as [->| ->]; rewrite Ascii.eqb_refl; simpl; by rewrite ?andb_false_r).
  by prun.
Qed.

Lemma expect_two_hit_r s c d v :
  expect_two c d (mk_StringParser s (d :: v)) = Ret (None, mk_StringParser s v).
Proof. apply expect_two_hit. auto. Qed.

Lemma expect_two_empty s d1 d2 : expect_two d1 d2 (mk_StringParser s []) = Undef.
Proof. done. Qed.

Lemma consume_while_stop (p : ascii → bool) c v :
  p c = false → consume_while p (c :: v) = c :: v.
Proof. intros H. simpl. by rewrite H. Qed.

Lemma consume_while_spec (p : ascii → bool) v :
  ∃ u, v = u ++ consume_while p v ∧ Forall (λ c, p c = true) u ∧
       ∀ c, List.head (consume_while p v) = Some c → p c = false.
Proof.
  induction v as [|c v (u & Hv & Hu & Hh)]; simpl; [by exists []|].
  destruct (p c) eqn:E.
  - exists (c :: u). simpl. split_and!; [by f_equal|by constructor|done].
  - exists []. split_and!; [done..|]. simpl. by intros ? [= <-].
Qed.

Lemma consume_all_two_stop s c d1 d2 v :
  c ≠ d1 → c ≠ d2 →
  consume_all_two d1 d2 (mk_StringParser s (c :: v)) = Ret ((), mk_StringParser s (c :: v)).
Proof.
  intros H1 H2. unfold consume_all_two, modify. simpl.
  rewrite (proj2 (Ascii.eqb_neq d1 c)), (proj2 (Ascii.eqb_neq d2 c)) by done. done.
Qed.

Lemma consume_all_two_blanks s ws c d1 d2 v :
  Forall (λ b, b = d1 ∨ b = d2) ws → c ≠ d1 → c ≠ d2 →
  consume_all_two d1 d2 (mk_StringParser s (ws ++ c :: v)) = Ret ((), mk_StringParser s (c :: v)).
Proof.
  intros Hws H1 H2. unfold consume_all_two, modify. do 3 f_equal; simpl.
  induction Hws as [|b ws Hb _ IH]; cbn [app consume_while].
  - rewrite (proj2 (Ascii.eqb_neq d1 c)), (proj2 (Ascii.eqb_neq d2 c)) by done. done.
  - by destruct Hb as [->| ->]; rewrite Ascii.eqb_refl, ?orb_true_r.
Qed.

Lemma find_char d v w :
  Forall (.≠ d) v → find_idx (Ascii.eqb d) (v ++ d :: w) = Some (length v).
Proof.
  intros H. apply find_idx_app_stop; [|by apply Ascii.eqb_refl].
  eapply Forall_impl; [done|]. intros c Hc. by apply Ascii.eqb_neq.
Qed.

Lemma find_char_npos d v : Forall (.≠ d) v → find_idx (Ascii.eqb d) v = None.
Proof.
  intros H. apply find_idx_None. eapply Forall_impl; [done|].
  intros c Hc. by apply Ascii.eqb_neq.
Qed.

Lemma next_token_hit s d t v :
  Forall (.≠ d) t →
  next_token d (mk_StringParser s (t ++ d :: v)) = Ret (t, mk_StringParser s (d :: v)).
Proof.
  intros H. unfold next_token. pstep. simpl. rewrite find_char by done. simpl.
  rewrite take_app_length. by prun.
Qed.

Lemma next_token_npos s d v :
  Forall (.≠ d) v → next_token d (mk_StringParser s v) = Undef.
Proof.
  intros H. unfold next_token. pstep. simpl. by rewrite find_char_npos.
Qed.

Lemma next_token_view_hit d t v :
  Forall (.≠ d) t → next_token_view (t ++ d :: v) d = Ret (t, d :: v).
Proof.
  intros H. unfold next_token_view. rewrite find_char by done. simpl.
  by rewrite remove_prefix_app, take_app_length.
Qed.

Lemma next_token_view_npos d v : Forall (.≠ d) v → next_token_view v d = Undef.
Proof.
  intros H. unfold next_token_view. by rewrite find_char_npos.
Qed.

Lemma process_function_run {A} s v (f : str → outcome (A * str)) a w :
  f v = Ret (a, w) →
  process_function f (mk_StringParser s v) = Ret (a, mk_StringParser s w).
Proof. intros H. unfold process_function. by prun. Qed.

Lemma process_function_own_run {A} s v (f : str → outcome A) a :
  f v = Ret a →
  process_function_own f (mk_StringParser s v) = Ret (a, mk_StringParser s v).
Proof. intros H. unfold process_function_own. pstep. by apply liftO_run. Qed.
End runs.

#[export] Hint Resolve move_run head_run expect_hit expect_miss
  expect_two_hit consume_all_two_stop consume_all_two_blanks next_token_hit
  process_function_run process_function_own_run : runs.
#[export] Hint Extern 1 (starts_with _ _ = false) => reflexivity : runs.

(** ** Views only shrink

    [keeps m]: [m] leaves the owned string alone and moves the view to one of
    its suffixes, so no operation ever shows a character outside the string. *)

Definition StringParser_ok (p : StringParser) : Prop := sp_view p `suffix_of` sp_str p.

Definition keeps {A} (m : P A) : Prop := ∀ p a p',
  m p = Ret (a, p') → sp_str p' = sp_str p ∧ sp_view p' `suffix_of` sp_view p.

Section keeps.
Context {A B : Type}.

Lemma keeps_ret (a : A) : keeps (mret a).
Proof. intros p a' p' [= <- <-]. auto. Qed.

Lemma keeps_bind (m : P A) (f : A → P B) :
  keeps m → (∀ a, keeps (f a)) → keeps (m ≫= f).
Proof.
  intros Hm Hf p b p'' (a & p' & H1 & H2)%M_bind_Ret_inv.
  apply Hm in H1 as [E1 S1]. apply Hf in H2 as [E2 S2].
  split; [congruence|by etrans].
Qed.

Lemma keeps_raise e : keeps (raise e : P A).
Proof. done. Qed.

Lemma keeps_set_view (f : str → outcome (A * str)) :
  (∀ v a v', f v = Ret (a, v') → v' `suffix_of` v) →
  keeps (process_function f).
Proof.
  intros Hf [s v] a p' H. unfold process_function in H. run_inv H. run_prims.
  unfold set_view in H. run_inv H. run_prims. eauto.
Qed.
End keeps.

(** The primitive operations. *)

Lemma remove_prefix_suffix n v w : remove_prefix n v = Ret w → w `suffix_of` v.
Proof. unfold remove_prefix. case_decide; intros [= <-]. apply suffix_drop. Qed.

Lemma remove_prefix_pos_suffix pos v w : remove_prefix_pos pos v = Ret w → w `suffix_of` v.
Proof. destruct pos; simpl; [apply remove_prefix_suffix|done]. Qed.

Lemma consume_while_suffix f v : consume_while f v `suffix_of` v.
Proof.
  destruct (consume_while_spec f v) as (u & Hv & _). exists u. done.
Qed.

#[export] Hint Resolve remove_prefix_suffix remove_prefix_pos_suffix consume_while_suffix
  : simpleserv.

Ltac keeps_prim :=
  let s := fresh "s" in let v := fresh "v" in
  intros [s v] ? ? H; run_inv H; run_prims;
  repeat first [case_match | progress (run_inv H; unfold set_view in *; run_prims)];
  split; eauto with simpleserv.

Lemma keeps_move n : keeps (move n).
Proof. unfold move. keeps_prim. Qed.

Lemma keeps_expect_char c : keeps (expect_char c).
Proof. unfold expect_char. keeps_prim. Qed.

Lemma keeps_expect w l : keeps (expect w l).
Proof. unfold expect. keeps_prim. Qed.

Lemma keeps_expect_two c d : keeps (expect_two c d).
Proof. unfold expect_two. keeps_prim. Qed.

Lemma keeps_consume_all c : keeps (consume_all c).
Proof. unfold consume_all. keeps_prim. Qed.

Lemma keeps_consume_all_two c d : keeps (consume_all_two c d).
Proof. unfold consume_all_two. keeps_prim. Qed.

Lemma keeps_head : keeps head.
Proof. unfold head. keeps_prim. Qed.

Lemma keeps_next_token d : keeps (next_token d).
Proof. unfold next_token. keeps_prim. Qed.

Lemma keeps_process_function_own {A} (f : str → outcome A) : keeps (process_function_own f).
Proof. unfold process_function_own. keeps_prim. Qed.

Create HintDb keeps discriminated.
#[export] Hint Resolve keeps_ret keeps_raise keeps_move keeps_expect_char keeps_expect
  keeps_expect_two keeps_consume_all keeps_consume_all_two keeps_head keeps_next_token
  keeps_process_function_own : keeps.

(** Follows the structure of a block down to its primitive operations. *)
Ltac solve_keeps :=
  repeat first
    [ solve [eauto with keeps nocore]
    | apply keeps_bind; [|intros ?]
    | case_match ].

(** ** What a returning call tells about the view *)

Section inversion.
Implicit Types (s v : str) (c d : ascii) (p : StringParser).

Lemma find_idx_token d v n w :
  find_idx (Ascii.eqb d) v = Some n → remove_prefix n v = Ret w →
  v = take n v ++ w ∧ Forall (.≠ d) (take n v) ∧ ∃ w', w = d :: w'.
Proof.
  intros (c & Hv & ->%Ascii.eqb_eq & Hf)%find_idx_split Hw.
  unfold remove_prefix in Hw. case_decide; simplify_eq. rewrite take_drop.
  split_and!; [done| |].
  - eapply Forall_impl; [exact Hf|]. intros c' Hc'. by apply not_eq_sym, Ascii.eqb_neq.
  - exists (drop (S n) v). rewrite Hv at 1. rewrite drop_app_ge; rewrite length_take_le; auto.
    by rewrite Nat.sub_diag.
Qed.

Lemma next_token_view_inv d v t w :
  next_token_view v d = Ret (t, w) → v = t ++ w ∧ Forall (.≠ d) t ∧ ∃ w', w = d :: w'.
Proof.
  unfold next_token_view. destruct (find_idx (Ascii.eqb d) v) as [n|] eqn:E; [|done].
  intros (w' & Hw & [= <- <-])%outcome_bind_Ret_inv. by apply find_idx_token.
Qed.

Lemma next_token_inv d s v t p :
  next_token d (mk_StringParser s v) = Ret (t, p) →
  v = t ++ sp_view p ∧ Forall (.≠ d) t ∧ ∃ w', sp_view p = d :: w'.
Proof.
  intros H. unfold next_token in H. run_inv H. run_prims.
  destruct (find_idx (Ascii.eqb d) v) as [n|] eqn:En; [|done].
  unfold set_view in *. run_prims. by apply find_idx_token.
Qed.

Lemma process_function_inv {A} s v (f : str → outcome (A * str)) a p :
  process_function f (mk_StringParser s v) = Ret (a, p) →
  ∃ w, f v = Ret (a, w) ∧ p = mk_StringParser s w.
Proof.
  intros H. unfold process_function in H. run_inv H. run_prims.
  unfold set_view in H. run_inv H. run_prims. eauto.
Qed.

Lemma process_function_own_inv {A} s v (f : str → outcome A) a p :
  process_function_own f (mk_StringParser s v) = Ret (a, p) → f v = Ret a.
Proof. intros H. unfold process_function_own in H. by run_inv H; run_prims. Qed.

Lemma consume_all_two_inv d1 d2 s v u p :
  consume_all_two d1 d2 (mk_StringParser s v) = Ret (u, p) →
  ∀ c, List.head (sp_view p) = Some c → c ≠ d1 ∧ c ≠ d2.
Proof.
  intros [= _ <-] c; simpl. intros Hc.
  destruct (consume_while_spec (λ c, Ascii.eqb d1 c || Ascii.eqb d2 c) v) as (_ & _ & _ & H).
  apply H in Hc as [?%Ascii.eqb_neq ?%Ascii.eqb_neq]%orb_false_iff. auto.
Qed.
End inversion.

(** ** How the operations can end

    No operation loops or terminates the process; the only exception is the
    [out_of_range] of [head]. *)

Definition m_exits {A} (m : P A) : Prop := ∀ p, exits_only (.= out_of_range) (m p).

Section exits.
Context {A B : Type}.

Lemma m_exits_ret (a : A) : m_exits (mret a).
Proof. by intros p. Qed.

Lemma m_exits_bind (m : P A) (f : A → P B) :
  m_exits m → (∀ a, m_exits (f a)) → m_exits (m ≫= f).
Proof. intros Hm Hf p. apply exits_only_M_bind; [apply Hm|]. intros a p' _. apply Hf. Qed.

Lemma m_exits_get : m_exits (get : P StringParser).
Proof. by intros p. Qed.

Lemma m_exits_modify f : m_exits (modify f : P ()).
Proof. by intros p. Qed.

Lemma m_exits_raise : m_exits (raise out_of_range : P A).
Proof. by intros p. Qed.

Lemma m_exits_liftO (m : outcome A) : exits_only (.= out_of_range) m → m_exits (liftO m : P A).
Proof. intros H p. by apply exits_only_bind. Qed.
End exits.

Lemma exits_remove_prefix Q n v : exits_only Q (remove_prefix n v).
Proof. unfold remove_prefix. by case_decide. Qed.

Lemma exits_remove_prefix_pos Q pos v : exits_only Q (remove_prefix_pos pos v).
Proof. destruct pos; [apply exits_remove_prefix|done]. Qed.

Lemma exits_view_front Q v : exits_only Q (view_front v).
Proof. by destruct v. Qed.

Create HintDb exits discriminated.
#[export] Hint Resolve m_exits_ret m_exits_get m_exits_modify m_exits_raise m_exits_liftO
  exits_remove_prefix exits_remove_prefix_pos exits_view_front : exits.

Ltac solve_exits :=
  repeat first
    [ solve [eauto with exits nocore]
    | apply m_exits_bind; [|intros ?]
    | case_match ].

Lemma m_exits_set_view v : m_exits (set_view v).
Proof. unfold set_view. solve_exits. Qed.
#[export] Hint Resolve m_exits_set_view : exits.

Lemma m_exits_move n : m_exits (move n).
Proof. unfold move. solve_exits. Qed.
Lemma m_exits_expect_char c : m_exits (expect_char c).
Proof. unfold expect_char. solve_exits. Qed.
Lemma m_exits_expect w l : m_exits (expect w l).
Proof. unfold expect. solve_exits. Qed.
Lemma m_exits_expect_two c d : m_exits (expect_two c d).
Proof. unfold expect_two. solve_exits. Qed.
Lemma m_exits_consume_all c : m_exits (consume_all c).
Proof. unfold consume_all. solve_exits. Qed.
Lemma m_exits_consume_all_two c d : m_exits (consume_all_two c d).
Proof. unfold consume_all_two. solve_exits. Qed.
Lemma m_exits_head : m_exits head.
Proof. unfold head. solve_exits. Qed.
Lemma m_exits_next_token d : m_exits (next_token d).
Proof. unfold next_token. solve_exits. Qed.
#[export] Hint Resolve m_exits_move m_exits_expect_char m_exits_expect m_exits_expect_two
  m_exits_consume_all m_exits_consume_all_two m_exits_head m_exits_next_token : exits.

Lemma m_exits_process_function {A} (f : str → outcome (A * str)) :
  (∀ v, exits_only (.= out_of_range) (f v)) → m_exits (process_function f).
Proof. intros Hf. unfold process_function. solve_exits. Qed.

Lemma m_exits_process_function_own {A} (f : str → outcome A) :
  (∀ v, exits_only (.= out_of_range) (f v)) → m_exits (process_function_own f).
Proof. intros Hf. unfold process_function_own. solve_exits. Qed.
