(* ===== verification/Message.v ===== *)
(** * HTTP messages

    [include/simpleserv/http/message.hpp]: recognising the method and the
    version at the head of a parser, the request and response objects, and their
    stream output. *)

From S2P Require Import Prelude Effects StdMap Expected Http StringParser.

Definition loc_message (l : Z) (f : str) : source_location :=
  mk_loc ($"simpleserv/http/message.hpp") l f.

(** ** Methods *)

(** The function [transform_fn(method)] returns. *)
Definition transform_fn (method : HTTPMethod.t) (res : option parser_error) :
    expected HTTPMethod.t parser_error :=
  match res with Some e => Unexpected e | None => Expected method end.

Definition method_string_to_enum : P (expected HTTPMethod.t parser_error) :=
  let ex (l : Z) (s : string) := expect (lit s) (loc_message l ($"method_string_to_enum")) in
  c ← head;
  if decide (c = "G"%char) then
    _ ← move 1; r ← ex 34%Z "ET"%string; mret (transform_fn HTTPMethod.GET r)
  else if decide (c = "P"%char) then
    _ ← move 1; c' ← head;
    if decide (c' = "O"%char) then
      _ ← move 1; r ← ex 40%Z "ST"%string; mret (transform_fn HTTPMethod.POST r)
    else
      r ← ex 42%Z "UT"%string; mret (transform_fn HTTPMethod.PUT r)
  else if decide (c = "D"%char) then
    _ ← move 1; r ← ex 47%Z "ELETE"%string; mret (transform_fn HTTPMethod.DELETE r)
  else if decide (c = "H"%char) then
    _ ← move 1; r ← ex 51%Z "EAD"%string; mret (transform_fn HTTPMethod.HEAD r)
  else if decide (c = "O"%char) then
    _ ← move 1; r ← ex 55%Z "PTIONS"%string; mret (transform_fn HTTPMethod.OPTIONS r)
  else if decide (c = "T"%char) then
    _ ← move 1; r ← ex 59%Z "RACE"%string; mret (transform_fn HTTPMethod.TRACE r)
  else if decide (c = "C"%char) then
    _ ← move 1; r ← ex 63%Z "ONNECT"%string; mret (transform_fn HTTPMethod.CONNECT r)
  else
    token ← next_token SP;
    mret (Unexpected (parser_error_msg ($"Invalid HTTP method string: " ++ token)
                        (loc_message 69 ($"method_string_to_enum")))).

(** ** Versions

    The results of [expect] are dropped: a mismatch leaves the view where it is
    and the function goes on. *)
Definition version_string_to_enum : P HTTPVersion.t :=
  let ex (l : Z) (s : string) := expect (lit s) (loc_message l ($"version_string_to_enum")) in
  _ ← ex 78%Z "HTTP/"%string;
  hd ← head;
  if decide (hd = "2"%char) then
    _ ← move 1; _ ← ex 84%Z ".0"%string; mret HTTPVersion.HTTP_2_0
  else
    _ ← move 1; _ ← ex 88%Z "1."%string;
    head1 ← head;
    if decide (head1 = "0"%char) then
      _ ← move 1; mret HTTPVersion.HTTP_1_0
    else
      _ ← move 1; _ ← ex 95%Z "1"%string; mret HTTPVersion.HTTP_1_1.

(** ** Message objects *)

Record HTTPMessage : Type := mk_HTTPMessage {
  version_ : HTTPVersion.t;
  headers_ : gmap str str;
  body_ : str }.

(** The members' default initialisers. *)
Definition HTTPMessage_new : HTTPMessage := mk_HTTPMessage HTTPVersion.HTTP_1_0 ∅ [].

Definition SetHeader (key value : str) (m : HTTPMessage) : HTTPMessage :=
  mk_HTTPMessage (version_ m) (<[key := value]> (headers_ m)) (body_ m).

Definition SetContent (content : str) (m : HTTPMessage) : HTTPMessage :=
  mk_HTTPMessage (version_ m) (headers_ m) content.

Definition set_version (version : HTTPVersion.t) (m : HTTPMessage) : HTTPMessage :=
  mk_HTTPMessage version (headers_ m) (body_ m).

(** [key: value\r\n] for every header, in the order of the map. *)
Definition print_header (header : str * str) : str :=
  header.1 ++ $": " ++ header.2 ++ CRLF.

Definition print_headers (headers : gmap str str) : str :=
  mjoin (print_header <$> map_in_order headers).

Record HTTPRequest : Type := mk_HTTPRequest {
  req_message : HTTPMessage; method_ : HTTPMethod.t; path_ : str }.

Definition HTTPRequest_new (method : HTTPMethod.t) (path : str) (version : HTTPVersion.t) :
    HTTPRequest :=
  mk_HTTPRequest (set_version version HTTPMessage_new) method path.

(** Inherited members on a request. *)
Definition with_message (f : HTTPMessage → HTTPMessage) (r : HTTPRequest) : HTTPRequest :=
  mk_HTTPRequest (f (req_message r)) (method_ r) (path_ r).

(** [operator<<(ostream, HTTPRequest)]: what it writes. *)
Definition HTTPRequest_print (request : HTTPRequest) : outcome str :=
  m ← array_at HTTP_METHOD_STRINGS (HTTPMethod.to_nat (method_ request));
  v ← array_at HTTP_VERSION_STRINGS (HTTPVersion.to_nat (version_ (req_message request)));
  Ret (m ++ $" " ++ path_ request ++ $" " ++ v ++ CRLF ++
       print_headers (headers_ (req_message request)) ++ CRLF ++
       body_ (req_message request)).

Record HTTPResponse : Type := mk_HTTPResponse {
  resp_message : HTTPMessage; status_code_ : HTTPStatusCode.t }.

Definition HTTPResponse_new (status_code : HTTPStatusCode.t) (version : HTTPVersion.t) :
    HTTPResponse :=
  mk_HTTPResponse (SetContent [] (set_version version HTTPMessage_new)) status_code.

Definition resp_with_message (f : HTTPMessage → HTTPMessage) (r : HTTPResponse) : HTTPResponse :=
  mk_HTTPResponse (f (resp_message r)) (status_code_ r).

(** [operator<<(ostream, HTTPResponse)]. *)
Definition HTTPResponse_print (response : HTTPResponse) : outcome str :=
  v ← array_at HTTP_VERSION_STRINGS (HTTPVersion.to_nat (version_ (resp_message response)));
  Ret (v ++ $" " ++ status_code_to_string (status_code_ response) ++ CRLF ++
       print_headers (headers_ (resp_message response)) ++ CRLF ++
       body_ (resp_message response)).

(** [to_string] of a response prints into a fresh stream. *)
Definition HTTPResponse_to_string (response : HTTPResponse) : outcome str :=
  HTTPResponse_print response.

(** ** Recognising methods *)

Definition method_str (m : HTTPMethod.t) : str :=
  match HTTP_METHOD_STRINGS !! HTTPMethod.to_nat m with Some w => w | None => [] end.

Lemma method_str_at m : array_at HTTP_METHOD_STRINGS (HTTPMethod.to_nat m) = Ret (method_str m).
Proof. by destruct m. Qed.

(** Every method string is recognised, and exactly it is consumed. *)
Lemma method_string_run s m v :
  method_string_to_enum (mk_StringParser s (method_str m ++ v)) =
  Ret (Expected m, mk_StringParser s v).
Proof.
  destruct m; unfold method_string_to_enum, method_str; simpl; by prun.
Qed.
#[export] Hint Resolve method_string_run : runs.

(** The tail of every branch but the default one. *)
Lemma transform_expect_inv s w v l m m' p :
  (r ← expect w l; mret (transform_fn m r)) (mk_StringParser s v) = Ret (Expected m', p) →
  m' = m ∧ v = w ++ sp_view p.
Proof.
  destruct (expect_total s w v l) as [(v' & -> & H)|(_ & H)];
    erewrite M_bind_run by exact H; by intros [= <- <-].
Qed.

(** [move(1)] after a successful look at the first character. *)
Lemma move_bind {A} s c v (f : () → P A) :
  (move 1 ≫= f) (mk_StringParser s (c :: v)) = f () (mk_StringParser s v).
Proof. apply M_bind_run, move_run. Qed.

Lemma method_string_inv s v m p :
  method_string_to_enum (mk_StringParser s v) = Ret (Expected m, p) →
  v = method_str m ++ sp_view p.
Proof.
  destruct v as [|c v]; [done|]. unfold method_string_to_enum. pstep.
  repeat case_decide; subst; rewrite ?move_bind.
  2: destruct v as [|c v]; [done|]; pstep; case_decide; subst; rewrite ?move_bind.
  all: try (intros [-> ->]%transform_expect_inv; done).
  by intros (? & ? & _ & [=])%M_bind_Ret_inv.
Qed.

Lemma keeps_method_string_to_enum : keeps method_string_to_enum.
Proof. unfold method_string_to_enum. solve_keeps. Qed.

(** ** Recognising versions *)

Lemma version_11_run s v :
  version_string_to_enum (mk_StringParser s ($"HTTP/1.1" ++ v)) =
  Ret (HTTPVersion.HTTP_1_1, mk_StringParser s v).
Proof.
  unfold version_string_to_enum.
  change ($"HTTP/1.1" ++ v) with ($"HTTP/" ++ "1"%char :: "."%char :: $"1" ++ v). by prun.
Qed.

Lemma version_20_run s v :
  version_string_to_enum (mk_StringParser s ($"HTTP/2.0" ++ v)) =
  Ret (HTTPVersion.HTTP_2_0, mk_StringParser s v).
Proof.
  unfold version_string_to_enum.
  change ($"HTTP/2.0" ++ v) with ($"HTTP/" ++ "2"%char :: $".0" ++ v). by prun.
Qed.

(** ["HTTP/1.0"] is read as 1.1 and its last character is left in the view. *)
Lemma version_10_run s v :
  version_string_to_enum (mk_StringParser s ($"HTTP/1.0" ++ v)) =
  Ret (HTTPVersion.HTTP_1_1, mk_StringParser s ("0"%char :: v)).
Proof.
  unfold version_string_to_enum.
  change ($"HTTP/1.0" ++ v) with ($"HTTP/" ++ "1"%char :: "."%char :: "0"%char :: v). by prun.
Qed.
#[export] Hint Resolve version_11_run version_20_run version_10_run : runs.

Lemma keeps_version_string_to_enum : keeps version_string_to_enum.
Proof. unfold version_string_to_enum. solve_keeps. Qed.
#[export] Hint Resolve keeps_method_string_to_enum keeps_version_string_to_enum : keeps.

Lemma m_exits_method_string_to_enum : m_exits method_string_to_enum.
Proof. unfold method_string_to_enum. solve_exits. Qed.
Lemma m_exits_version_string_to_enum : m_exits version_string_to_enum.
Proof. unfold version_string_to_enum. solve_exits. Qed.
#[export] Hint Resolve m_exits_method_string_to_enum m_exits_version_string_to_enum : exits.

(** The method recogniser accepts exactly the eight method words: it returns
    a method iff the view starts with its word, and consumes just that word. *)
Lemma method_string_exact (s v w : str) (m : HTTPMethod.t) :
  method_string_to_enum (mk_StringParser s v) = Ret (Expected m, mk_StringParser s w) ↔
  v = method_str m ++ w.
Proof.
  split; [apply method_string_inv|]. intros ->. apply method_string_run.
Qed.

Lemma version_string_valid p v p' :
  version_string_to_enum p = Ret (v, p') → v ≠ HTTPVersion.HTTP_INVALID.
Proof.
  unfold version_string_to_enum. intros H. run_inv H.
  repeat (case_decide; run_inv H); by injection H as <- _.
Qed.

(** The version recogniser reads ["HTTP/1.1"] and ["HTTP/2.0"] and consumes
    them; on ["HTTP/1.0"] it answers 1.1 and leaves the ["0"] behind; it never
    answers [HTTP_INVALID], so the caller's check for it is dead. *)
Lemma version_string_results (s w : str) :
  version_string_to_enum (mk_StringParser s ($"HTTP/1.1" ++ w)) =
    Ret (HTTPVersion.HTTP_1_1, mk_StringParser s w) ∧
  version_string_to_enum (mk_StringParser s ($"HTTP/2.0" ++ w)) =
    Ret (HTTPVersion.HTTP_2_0, mk_StringParser s w) ∧
  version_string_to_enum (mk_StringParser s ($"HTTP/1.0" ++ w)) =
    Ret (HTTPVersion.HTTP_1_1, mk_StringParser s ("0"%char :: w)) ∧
  ∀ p p' v, version_string_to_enum p = Ret (v, p') → v ≠ HTTPVersion.HTTP_INVALID.
Proof.
  split_and!; [apply version_11_run|apply version_20_run|apply version_10_run|].
  intros p p' v. apply version_string_valid.
Qed.
