(* ===== verification/Parser.v ===== *)
(** * Parsing a request

    [src/simpleserv/http/parser.cpp], with the [Header] of
    [include/simpleserv/http/parser.hpp]. *)

From S2P Require Import Prelude Effects StdMap Expected Http StringParser Message.

Record Header : Type := mk_Header { key : str; value : str }.

Definition ASCII_HT : ascii := "009"%char.

Definition loc_parser (l : Z) (f : str) : source_location :=
  mk_loc ($"simpleserv/http/parser.cpp") l f.

Definition parse_request_line : P (expected HTTPRequest parser_error) :=
  method_res ← method_string_to_enum;
  match method_res with
  | Unexpected e => mret (Unexpected e)
  | Expected method =>
    space_res ← expect_two ASCII_HT SP;
    match space_res with
    | Some e => mret (Unexpected e)
    | None =>
      _ ← consume_all_two ASCII_HT SP;
      url ← next_token SP;
      space_res ← expect_two ASCII_HT SP;
      match space_res with
      | Some e => mret (Unexpected e)
      | None =>
        _ ← consume_all_two ASCII_HT SP;
        version ← version_string_to_enum;
        if decide (version = HTTPVersion.HTTP_INVALID) then
          mret (Unexpected (parser_error_default (loc_parser 50 ($"parse_request_line"))))
        else
          end_res ← expect CRLF (loc_parser 53 ($"parse_request_line"));
          match end_res with
          | Some e => mret (Unexpected e)
          | None => mret (Expected (HTTPRequest_new method url version))
          end
      end
    end
  end.

(** [std::string_view::back] and [ends_with]. *)
Definition view_back (view : str) : outcome ascii :=
  match last view with Some c => Ret c | None => Undef end.

Definition ends_with_char (c : ascii) (view : str) : bool :=
  match last view with Some c' => Ascii.eqb c c' | None => false end.

Definition remove_suffix (n : nat) (view : str) : outcome str :=
  if decide (n ≤ length view) then Ret (take (length view - n) view) else Undef.

Definition parse_header (header : str) : outcome (expected Header parser_error) :=
  '(field_name, field_value) ← next_token_view header SP;
  if negb (ends_with_char ":"%char field_name) then
    c ← view_back field_name;
    Ret (Unexpected (parser_error_msg
      ($"Expected header field name to end with ':', got: " ++ [c] ++
       $" (" ++ to_string (char_to_int c) ++ $")")
      (loc_parser 66 ($"parse_header"))))
  else
    field_name ← remove_suffix 1 field_name;
    field_value ← remove_prefix 1 field_value;
    Ret (Expected (mk_Header field_name field_value)).

Definition is_crlf_char (c : ascii) : bool := Ascii.eqb CR c || Ascii.eqb LF c.

(** The [while] loop of [parse_message_headers]; every round removes at least
    two characters, so the length of the view bounds their number. *)
Fixpoint parse_headers_loop (fuel : nat) (str_view : str) (headers : list Header) :
    outcome (expected (list Header) parser_error * str) :=
  match fuel with
  | 0 => NoFuel
  | S fuel =>
    if starts_with CRLF str_view then
      v ← remove_prefix 2 str_view; Ret (Expected headers, v)
    else
      match find_idx is_crlf_char str_view with
      | None =>
        Ret (Unexpected (parser_error_msg
          ($"Could not find the terminating characters of the header.")
          (loc_parser 90 ($"parse_message_headers"))), str_view)
      | Some next_header =>
        result ← parse_header (take next_header str_view);
        match result with
        | Unexpected e => Ret (Unexpected e, str_view)
        | Expected h =>
          v ← remove_prefix (next_header + 2) str_view;
          parse_headers_loop fuel v (headers ++ [h])
        end
      end
  end.

(** The reference argument is written on success only. *)
Definition parse_message_headers (str_ : str) :
    outcome (expected (list Header) parser_error * str) :=
  '(result, v) ← parse_headers_loop (S (length str_)) str_ [];
  match result with
  | Expected headers => Ret (Expected headers, v)
  | Unexpected e => Ret (Unexpected e, str_)
  end.

Definition parse_http_request_P : P (expected HTTPRequest parser_error) :=
  result ← parse_request_line;
  match result with
  | Unexpected e => mret (Unexpected e)
  | Expected request =>
    headers_result ← process_function parse_message_headers;
    match headers_result with
    | Unexpected e => mret (Unexpected e)
    | Expected headers =>
      let request := foldl (λ r h, with_message (SetHeader (key h) (value h)) r) request headers in
      content ← process_function_own (λ strv, Ret strv);
      mret (Expected (with_message (SetContent content) request))
    end
  end.

Definition parse_http_request (str_ : str) : outcome (expected HTTPRequest parser_error) :=
  fst <$> parse_http_request_P (StringParser_new str_).

(** ** Header lines *)

(** What a field name, a field value and a path must be for the parser to read
    them back. *)
Definition not_line_end (c : ascii) : Prop := c ≠ CR ∧ c ≠ LF.
Definition field_name_ok (k : str) : Prop := Forall (λ c, not_line_end c ∧ c ≠ SP) k.
Definition field_value_ok (v : str) : Prop := Forall not_line_end v.
Definition header_ok (kv : str * str) : Prop := field_name_ok kv.1 ∧ field_value_ok kv.2.
Definition path_ok (p : str) : Prop :=
  Forall (.≠ SP) p ∧ ∃ c p', p = c :: p' ∧ c ≠ ASCII_HT.

#[global] Instance not_line_end_dec c : Decision (not_line_end c).
Proof. unfold not_line_end. apply _. Defined.
#[global] Instance header_ok_dec kv : Decision (header_ok kv).
Proof. unfold header_ok, field_name_ok, field_value_ok. apply _. Defined.

Definition to_Header (kv : str * str) : Header := mk_Header kv.1 kv.2.

Lemma is_crlf_char_false c : not_line_end c → is_crlf_char c = false.
Proof.
  intros [H1 H2]. unfold is_crlf_char.
  by rewrite (proj2 (Ascii.eqb_neq CR c)), (proj2 (Ascii.eqb_neq LF c)) by done.
Qed.

Lemma parse_header_run k v :
  Forall (.≠ SP) k → parse_header (k ++ $": " ++ v) = Ret (Expected (mk_Header k v)).
Proof.
  intros Hk. unfold parse_header.
  change (k ++ $": " ++ v) with (k ++ [":"%char] ++ SP :: v).
  rewrite (assoc_L (++)), next_token_view_hit by (apply Forall_app; by repeat constructor).
  simpl. unfold ends_with_char, remove_suffix. rewrite last_snoc. simpl.
  rewrite length_app, decide_True by (simpl; lia). simpl.
  replace (length k + 1 - 1) with (length k) by lia.
  by rewrite take_app_length.
Qed.

(** A line in which the name is not followed by a space. *)
Lemma parse_header_no_space line : Forall (.≠ SP) line → parse_header line = Undef.
Proof. intros H. unfold parse_header. by rewrite next_token_view_npos. Qed.

(** A line without its terminator, as the loop cuts it. *)
Definition header_text (kv : str * str) : str := kv.1 ++ $": " ++ kv.2.

Lemma header_text_ok kv : header_ok kv → Forall not_line_end (header_text kv).
Proof.
  intros [Hk Hv]. unfold header_text. rewrite !Forall_app. split_and!; [|by repeat constructor|done].
  eapply Forall_impl; [exact Hk|]. by intros ? [? _].
Qed.

Lemma parse_header_text kv :
  header_ok kv → parse_header (header_text kv) = Ret (Expected (to_Header kv)).
Proof.
  intros [Hk _]. apply parse_header_run. eapply Forall_impl; [exact Hk|]. by intros ? [_ ?].
Qed.

Lemma starts_with_CRLF_header kv s : header_ok kv → starts_with CRLF (header_text kv ++ s) = false.
Proof.
  intros [Hk _]. destruct kv as [[|c k] v]; [done|]. apply Forall_cons in Hk as [[[Hc _] _] _].
  apply andb_false_intro1, Ascii.eqb_neq. done.
Qed.

Lemma find_line_end line s :
  Forall not_line_end line → find_idx is_crlf_char (line ++ CRLF ++ s) = Some (length line).
Proof.
  intros H. apply find_idx_app_stop; [|done].
  eapply Forall_impl; [exact H|]. apply is_crlf_char_false.
Qed.

Lemma remove_prefix_line line s : remove_prefix (length line + 2) (line ++ CRLF ++ s) = Ret s.
Proof.
  rewrite (assoc_L (++)). replace (length line + 2) with (length (line ++ CRLF))
    by (rewrite length_app; simpl; lia). apply remove_prefix_app.
Qed.

(** One round of the loop, and all of them. *)
Lemma parse_headers_loop_line fuel kv s acc :
  header_ok kv →
  parse_headers_loop (S fuel) (header_text kv ++ CRLF ++ s) acc =
  parse_headers_loop fuel s (acc ++ [to_Header kv]).
Proof.
  intros Hkv. cbn [parse_headers_loop]. rewrite starts_with_CRLF_header, find_line_end by auto using header_text_ok.
  rewrite take_app_length, parse_header_text by done.
  cbn [mbind outcome_bind]. by rewrite remove_prefix_line.
Qed.

Lemma print_header_text kv : print_header kv = header_text kv ++ CRLF.
Proof. unfold print_header, header_text. by rewrite !(assoc_L (++)). Qed.

Lemma parse_headers_loop_run kvs s acc fuel :
  Forall header_ok kvs → length kvs < fuel →
  parse_headers_loop fuel (mjoin (print_header <$> kvs) ++ CRLF ++ s) acc =
  Ret (Expected (acc ++ (to_Header <$> kvs)), s).
Proof.
  intros H. revert acc fuel. induction H as [|kv kvs Hkv _ IH]; intros acc [|fuel] Hf;
    cbn [length] in Hf; try lia.
  - cbn [parse_headers_loop fmap list_fmap mjoin list_join app].
    by rewrite starts_with_app, app_nil_r, (remove_prefix_app (w := CRLF)).
  - rewrite mjoin_fmap_cons, print_header_text, <- !(assoc_L (++)).
    rewrite parse_headers_loop_line, IH by (done || lia).
    by rewrite <- (assoc_L (++)).
Qed.

Lemma length_print_header kv : 1 ≤ length (print_header kv).
Proof. unfold print_header. rewrite !length_app. simpl. lia. Qed.

Lemma length_print_headers kvs : length kvs ≤ length (mjoin (print_header <$> kvs)).
Proof.
  induction kvs as [|kv kvs IH]; [done|].
  rewrite mjoin_fmap_cons, length_app.
  apply (Nat.add_le_mono 1 _ (length kvs)); [apply length_print_header|exact IH].
Qed.

Lemma parse_message_headers_run kvs s :
  Forall header_ok kvs →
  parse_message_headers (mjoin (print_header <$> kvs) ++ CRLF ++ s) =
  Ret (Expected (to_Header <$> kvs), s).
Proof.
  intros H. unfold parse_message_headers. rewrite parse_headers_loop_run; [done..|].
  rewrite length_app. pose proof (length_print_headers kvs). lia.
Qed.
#[export] Hint Resolve parse_message_headers_run : runs.

(** ** Request lines *)

Definition blank (c : ascii) : Prop := c = ASCII_HT ∨ c = SP.

(** The text of a request line: blanks [ws1] between method and path, a space
    and blanks [ws2] between path and version. *)
Definition request_line (m : HTTPMethod.t) (ws1 : str) (p ws2 vs : str) : str :=
  method_str m ++ SP :: ws1 ++ p ++ SP :: ws2 ++ vs ++ CRLF.

Section request_line.
Context (s : str) (m : HTTPMethod.t) (ws1 p ws2 vs r : str) (ver : HTTPVersion.t).
Context (Hws1 : Forall blank ws1) (Hp : path_ok p) (Hws2 : Forall blank ws2).

(** Up to the version, for a version text that starts with an [H]. *)
Lemma parse_request_line_run v res p' :
  version_string_to_enum (mk_StringParser s ("H"%char :: v)) = Ret (ver, p') →
  ver ≠ HTTPVersion.HTTP_INVALID →
  expect CRLF (loc_parser 53 ($"parse_request_line")) p' = res →
  parse_request_line (mk_StringParser s
    (method_str m ++ SP :: ws1 ++ p ++ SP :: ws2 ++ "H"%char :: v)) =
  res ≫= λ '(r, q), Ret (match r with
                         | Some e => Unexpected e
                         | None => Expected (HTTPRequest_new m p ver)
                         end, q).
Proof using Hws1 Hp Hws2.
  intros Hv Hver Hres. unfold parse_request_line. pstep.
  erewrite M_bind_run by (apply expect_two_hit; auto). cbv beta iota.
  destruct Hp as [Hsp (c & q & -> & Hc)]. simpl.
  pose proof (Forall_inv Hsp) as HcSP. simpl in HcSP.
  erewrite M_bind_run by (by apply consume_all_two_blanks).
  change (c :: q ++ SP :: ws2 ++ "H"%char :: v)
    with ((c :: q) ++ SP :: ws2 ++ "H"%char :: v).
  pstep. erewrite M_bind_run by (apply expect_two_hit; auto). cbv beta iota.
  erewrite M_bind_run by (by apply consume_all_two_blanks).
  erewrite M_bind_run by exact Hv. rewrite decide_False by done.
  subst res. unfold mbind at 1, M_bind at 1.
  by destruct (expect CRLF _ p') as [[[e|] q']| | | |].
Qed.
End request_line.

Lemma request_line_app m ws1 p ws2 vs r :
  request_line m ws1 p ws2 vs ++ r =
  method_str m ++ SP :: ws1 ++ p ++ SP :: ws2 ++ vs ++ CRLF ++ r.
Proof.
  unfold request_line. rewrite <- !(assoc_L (++)). do 2 f_equal. cbn [app]. f_equal.
  rewrite <- !(assoc_L (++)). do 3 f_equal. cbn [app]. by rewrite <- !(assoc_L (++)).
Qed.

(** The two versions the parser understands, and the one it does not. *)
Lemma request_line_11 s m ws1 p ws2 r :
  Forall blank ws1 → path_ok p → Forall blank ws2 →
  parse_request_line (mk_StringParser s (request_line m ws1 p ws2 ($"HTTP/1.1") ++ r)) =
  Ret (Expected (HTTPRequest_new m p HTTPVersion.HTTP_1_1), mk_StringParser s r).
Proof.
  intros. rewrite request_line_app.
  change ($"HTTP/1.1" ++ CRLF ++ r) with ("H"%char :: $"TTP/1.1" ++ CRLF ++ r).
  by erewrite parse_request_line_run
    by (done || apply (version_11_run s (CRLF ++ r)) || apply expect_hit).
Qed.

Lemma request_line_20 s m ws1 p ws2 r :
  Forall blank ws1 → path_ok p → Forall blank ws2 →
  parse_request_line (mk_StringParser s (request_line m ws1 p ws2 ($"HTTP/2.0") ++ r)) =
  Ret (Expected (HTTPRequest_new m p HTTPVersion.HTTP_2_0), mk_StringParser s r).
Proof.
  intros. rewrite request_line_app.
  change ($"HTTP/2.0" ++ CRLF ++ r) with ("H"%char :: $"TTP/2.0" ++ CRLF ++ r).
  by erewrite parse_request_line_run
    by (done || apply (version_20_run s (CRLF ++ r)) || apply expect_hit).
Qed.

Lemma request_line_10 s m ws1 p ws2 r :
  Forall blank ws1 → path_ok p → Forall blank ws2 →
  parse_request_line (mk_StringParser s (request_line m ws1 p ws2 ($"HTTP/1.0") ++ r)) =
  Ret (Unexpected (expect_error CRLF ("0"%char :: CRLF ++ r)
                     (loc_parser 53 ($"parse_request_line"))),
       mk_StringParser s ("0"%char :: CRLF ++ r)).
Proof.
  intros. rewrite request_line_app.
  change ($"HTTP/1.0" ++ CRLF ++ r) with ("H"%char :: $"TTP/1.0" ++ CRLF ++ r).
  by erewrite parse_request_line_run
    by (done || apply (version_10_run s (CRLF ++ r)) || by apply expect_miss).
Qed.

(** ** Whole requests *)

Definition version_str (v : HTTPVersion.t) : str :=
  match HTTP_VERSION_STRINGS !! HTTPVersion.to_nat v with Some w => w | None => [] end.

Definition supported (v : HTTPVersion.t) : Prop :=
  v = HTTPVersion.HTTP_1_1 ∨ v = HTTPVersion.HTTP_2_0.

(** The text of a request with header lines [kvs]. *)
Definition request_text (m : HTTPMethod.t) (ws1 p ws2 : str) (v : HTTPVersion.t)
    (kvs : list (str * str)) (body : str) : str :=
  request_line m ws1 p ws2 (version_str v) ++
  mjoin (print_header <$> kvs) ++ CRLF ++ body.

Lemma set_headers_run kvs r :
  foldl (λ r h, with_message (SetHeader (key h) (value h)) r) r (to_Header <$> kvs) =
  with_message (λ m, mk_HTTPMessage (version_ m) (assign_all kvs (headers_ m)) (body_ m)) r.
Proof.
  revert r. induction kvs as [|[k v] kvs IH]; intros r; [by destruct r as [[]]|].
  cbn [fmap list_fmap foldl]. by rewrite IH.
Qed.

Lemma request_line_supported s m ws1 p ws2 v r :
  Forall blank ws1 → path_ok p → Forall blank ws2 → supported v →
  parse_request_line (mk_StringParser s (request_line m ws1 p ws2 (version_str v) ++ r)) =
  Ret (Expected (HTTPRequest_new m p v), mk_StringParser s r).
Proof. intros ??? [-> | ->]; [by apply request_line_11|by apply request_line_20]. Qed.
#[export] Hint Resolve request_line_supported : runs.

Lemma parse_http_request_text m ws1 p ws2 v kvs body :
  Forall blank ws1 → path_ok p → Forall blank ws2 → supported v → Forall header_ok kvs →
  parse_http_request (request_text m ws1 p ws2 v kvs body) =
  Ret (Expected (mk_HTTPRequest (mk_HTTPMessage v (assign_all kvs ∅) body) m p)).
Proof.
  intros ?? ? ? ?. unfold parse_http_request, StringParser_new, parse_http_request_P.
  unfold request_text at 2. pstep.
  erewrite M_bind_run by (by apply process_function_run, parse_message_headers_run).
  cbv beta iota. erewrite M_bind_run by (by apply process_function_own_run).
  by rewrite set_headers_run.
Qed.

(** Printing produces such a text. *)
Lemma HTTPRequest_print_text r :
  supported (version_ (req_message r)) →
  HTTPRequest_print r = Ret (request_text (method_ r) [] (path_ r) []
    (version_ (req_message r)) (map_in_order (headers_ (req_message r))) (body_ (req_message r))).
Proof.
  intros Hv. unfold HTTPRequest_print. rewrite method_str_at. cbn [mbind outcome_bind].
  replace (array_at HTTP_VERSION_STRINGS (HTTPVersion.to_nat (version_ (req_message r))))
    with (Ret (version_str (version_ (req_message r)))) by (destruct Hv as [Hv | Hv]; by rewrite Hv).
  cbn [mbind outcome_bind]. unfold request_text. rewrite request_line_app. reflexivity.
Qed.

(** A path is not empty, does not begin with a tab and has no space; the names of
    headers have no space or line end, their values no line end. *)
Definition HTTPRequest_ok (r : HTTPRequest) : Prop :=
  path_ok (path_ r) ∧ map_Forall (λ k v, header_ok (k, v)) (headers_ (req_message r)).

Lemma parse_print_supported (r : HTTPRequest) :
  HTTPRequest_ok r → supported (version_ (req_message r)) →
  (s ← HTTPRequest_print r; parse_http_request s) = Ret (Expected r).
Proof.
  intros (Hp & Hh) Hv. rewrite HTTPRequest_print_text by done. cbn [mbind outcome_bind].
  rewrite parse_http_request_text; auto.
  - rewrite assign_all_in_order. by destruct r as [[] ? ?].
  - apply Forall_forall. intros [k v] Hkv. by apply (Hh k v), map_in_order_elem_of.
Qed.

(** A request with a header and a body, for the examples. *)
Definition example_request : HTTPRequest :=
  mk_HTTPRequest (mk_HTTPMessage HTTPVersion.HTTP_1_1 {[$"Host" := $"x"]} ($"body"))
    HTTPMethod.POST ($"/a?b=c").

Lemma example_path_ok : path_ok ($"/a?b=c").
Proof. split; [by repeat constructor|by eexists _, _]. Qed.

Lemma example_header_ok : header_ok ($"Host", $"x").
Proof. by apply (bool_decide_unpack _); vm_compute. Qed.

(** ** What a successful parse tells about the text *)

Lemma parse_header_inv line h :
  parse_header line = Ret (Expected h) →
  line = header_text (key h, value h) ∧ Forall (.≠ SP) (key h).
Proof.
  unfold parse_header. intros ([t w] & Ht & H)%outcome_bind_Ret_inv.
  apply next_token_view_inv in Ht as (-> & Hsp & w' & ->).
  unfold ends_with_char, view_back in H.
  destruct (last t) as [c|] eqn:Hl; [|done].
  destruct (Ascii.eqb ":"%char c) eqn:Hc; cbn [negb] in H; [|done].
  apply Ascii.eqb_eq in Hc as <-. apply last_Some in Hl as [k ->].
  apply Forall_app in Hsp as [Hk _].
  unfold remove_suffix in H. rewrite length_app, decide_True in H by (simpl; lia).
  replace (length k + length [":"%char] - 1) with (length k) in H by (simpl; lia).
  rewrite take_app_length in H. cbn [mbind outcome_bind] in H.
  rewrite remove_prefix_1 in H. simplify_eq/=. split; [|done].
  unfold header_text. by rewrite <- (assoc_L (++)).
Qed.

Lemma is_crlf_char_not c : is_crlf_char c = false → not_line_end c.
Proof.
  intros [H1%Ascii.eqb_neq H2%Ascii.eqb_neq]%orb_false_iff. split; congruence.
Qed.

(** The loop splits the text into lines of the form [name: value], each ended by
    two characters of which the first is a line end, and a blank line. *)
Lemma parse_headers_loop_inv fuel v acc hs w :
  parse_headers_loop fuel v acc = Ret (Expected hs, w) →
  ∃ new pre, hs = acc ++ new ∧ v = pre ++ CRLF ++ w ∧
    Forall (λ h, header_ok (key h, value h)) new ∧
    Forall (λ h, ∃ l r, pre = l ++ header_text (key h, value h) ++ r) new.
Proof.
  revert v acc. induction fuel as [|fuel IH]; intros v acc; [done|].
  cbn [parse_headers_loop]. destruct (starts_with CRLF v) eqn:Hcr.
  - apply starts_with_inv in Hcr as [u ->].
    intros (w' & Hw & [= <- <-])%outcome_bind_Ret_inv.
    rewrite (remove_prefix_app (w := CRLF)) in Hw. simplify_eq.
    exists [], []. by rewrite app_nil_r.
  - destruct (find_idx is_crlf_char v) as [n|] eqn:Hn; [|done].
    intros ([h|e] & Hh & H)%outcome_bind_Ret_inv; [|done].
    apply outcome_bind_Ret_inv in H as (v' & Hv' & H).
    apply IH in H as (new & pre & -> & -> & Hok & Hsub).
    apply parse_header_inv in Hh as [Hline Hk].
    apply find_idx_split in Hn as (c & Hv & Hc & Hf).
    unfold remove_prefix in Hv'. case_decide; [|done]. injection Hv' as Hv'.
    exists (h :: new), (take (n + 2) v ++ pre). split_and!.
    + by rewrite <- (assoc_L (++)).
    + rewrite <- (assoc_L (++)). etrans; [symmetry; apply (take_drop (n + 2))|]. by f_equal.
    + constructor; [|done]. rewrite Hline in Hf. unfold header_text in Hf; cbn [fst snd] in Hf.
      rewrite !Forall_app in Hf. destruct Hf as (Hfk & _ & Hfv). split; simpl.
      * apply Forall_and; split; [|done]. eapply Forall_impl; [exact Hfk|]. apply is_crlf_char_not.
      * eapply Forall_impl; [exact Hfv|]. apply is_crlf_char_not.
    + constructor.
      * exists [], (take 2 (drop n v) ++ pre). rewrite <- Hline. simpl.
        by rewrite (assoc_L (++)), take_take_drop.
      * eapply Forall_impl; [exact Hsub|]. intros h' (l & r & ->).
        exists (take (n + 2) v ++ l), r. by rewrite <- !(assoc_L (++)).
Qed.

Lemma parse_message_headers_inv v hs w :
  parse_message_headers v = Ret (Expected hs, w) →
  ∃ pre, v = pre ++ CRLF ++ w ∧
    Forall (λ h, header_ok (key h, value h)) hs ∧
    Forall (λ h, ∃ l r, pre = l ++ header_text (key h, value h) ++ r) hs.
Proof.
  intros ([[hs'|e] w'] & H & [= <- <-])%outcome_bind_Ret_inv.
  apply parse_headers_loop_inv in H as (new & pre & -> & ? & ? & ?). eauto.
Qed.

Lemma parse_message_headers_suffix v a w :
  parse_message_headers v = Ret (a, w) → w `suffix_of` v.
Proof.
  destruct a as [hs|e].
  - intros (pre & -> & _)%parse_message_headers_inv. exists (pre ++ CRLF). by rewrite (assoc_L (++)).
  - by intros ([[?|?] ?] & _ & [= <- <-])%outcome_bind_Ret_inv.
Qed.

Lemma keeps_parse_request_line : keeps parse_request_line.
Proof. unfold parse_request_line. solve_keeps. Qed.

Lemma keeps_parse_message_headers : keeps (process_function parse_message_headers).
Proof. apply keeps_set_view, parse_message_headers_suffix. Qed.
#[export] Hint Resolve keeps_parse_request_line keeps_parse_message_headers : keeps.

Lemma keeps_parse_http_request_P : keeps parse_http_request_P.
Proof. unfold parse_http_request_P. solve_keeps. Qed.

Lemma parse_request_line_inv s v r p :
  parse_request_line (mk_StringParser s v) = Ret (Expected r, p) →
  ∃ m path ver, r = HTTPRequest_new m path ver ∧ path_ok path ∧
    ver ≠ HTTPVersion.HTTP_INVALID ∧
    ∃ mid, v = method_str m ++ mid ∧ sp_view p `suffix_of` mid.
Proof.
  unfold parse_request_line. intros (mr & p1 & H1 & H)%M_bind_Ret_inv.
  destruct mr as [m|]; [|done]. destruct p1 as [s1 v1].
  pose proof (method_string_inv _ _ _ _ H1) as ->. cbn [sp_view].
  apply M_bind_Ret_inv in H as (r2 & [s2 v2] & H2 & H). destruct r2; [done|].
  apply M_bind_Ret_inv in H as (u3 & [s3 v3] & H3 & H).
  apply M_bind_Ret_inv in H as (path & [s4 v4] & H4 & H).
  pose proof (consume_all_two_inv _ _ _ _ _ _ H3) as Hhd.
  pose proof (next_token_inv _ _ _ _ _ H4) as (Hv3 & Hsp & w & Hw). cbn [sp_view] in *.
  assert (Hp : path_ok path).
  { split; [done|]. destruct path as [|c q].
    - simpl in Hv3. subst v3 v4. by destruct (Hhd SP).
    - exists c, q. split; [done|]. apply Hhd. by rewrite Hv3. }
  apply M_bind_Ret_inv in H as (r5 & p5 & H5 & H). destruct r5; [done|].
  apply M_bind_Ret_inv in H as (u6 & p6 & H6 & H).
  apply M_bind_Ret_inv in H as (ver & p7 & H7 & H). apply version_string_valid in H7 as Hver.
  rewrite decide_False in H by done.
  apply M_bind_Ret_inv in H as (r8 & p8 & H8 & H). destruct r8; [done|]. injection H as <- <-.
  exists m, path, ver. split_and!; auto. exists v1. split; [done|].
  apply keeps_expect_two in H2 as [_ H2]. apply keeps_consume_all_two in H3 as [_ H3].
  apply keeps_next_token in H4 as [_ H4]. apply keeps_expect_two in H5 as [_ H5].
  apply keeps_consume_all_two in H6 as [_ H6].
  apply keeps_version_string_to_enum in H7 as [_ H7]. apply keeps_expect in H8 as [_ H8].
  by do 6 (etrans; [eassumption|]).
Qed.

(** Later assignments to a key win, so a header of the map is a line of the list. *)
Lemma assign_all_map_Forall {V} (Q : str → V → Prop) kvs m :
  Forall (λ kv, Q kv.1 kv.2) kvs → map_Forall Q m → map_Forall Q (assign_all kvs m).
Proof.
  intros H. revert m. induction H as [|[k v] kvs Hkv _ IH]; intros m Hm; [done|].
  apply IH. by apply map_Forall_insert_2.
Qed.

Lemma set_headers_Header hs r :
  foldl (λ r h, with_message (SetHeader (key h) (value h)) r) r hs =
  with_message (λ m, mk_HTTPMessage (version_ m)
    (assign_all ((λ h, (key h, value h)) <$> hs) (headers_ m)) (body_ m)) r.
Proof.
  rewrite <- set_headers_run, <- list_fmap_compose. f_equal. symmetry.
  rewrite <- (list_fmap_id hs) at 2. apply list_fmap_ext. by intros ? [].
Qed.

Lemma parse_http_request_inv (s : str) (r : HTTPRequest) :
  parse_http_request s = Ret (Expected r) →
  path_ok (path_ r) ∧ version_ (req_message r) ≠ HTTPVersion.HTTP_INVALID ∧
  map_Forall (λ k v, header_ok (k, v)) (headers_ (req_message r)) ∧
  ∃ pre, s = method_str (method_ r) ++ pre ++ CRLF ++ body_ (req_message r) ∧
    map_Forall (λ k v, ∃ a b, pre = a ++ header_text (k, v) ++ b) (headers_ (req_message r)).
Proof.
  unfold parse_http_request, StringParser_new. intros H.
  apply outcome_bind_Ret_inv in H as ([x p] & H & [= ->]).
  unfold parse_http_request_P in H.
  apply M_bind_Ret_inv in H as ([r0|] & [s1 v1] & H1 & H); [|done].
  apply parse_request_line_inv in H1 as (m & path & ver & -> & Hp & Hv & mid & -> & [mid' Hmid]).
  apply M_bind_Ret_inv in H as ([hs|] & p2 & H2 & H); [|done].
  apply process_function_inv in H2 as (w & (pre & -> & Hok & Hsub)%parse_message_headers_inv & ->).
  apply M_bind_Ret_inv in H as (c & p3 & [= <-]%process_function_own_inv & [= <- _]).
  rewrite set_headers_Header. simpl in *. subst mid.
  split_and!; [done|done| |].
  - apply assign_all_map_Forall; [by apply Forall_fmap|apply map_Forall_empty].
  - exists (mid' ++ pre). rewrite <- !(assoc_L (++)). split; [done|].
    apply assign_all_map_Forall; [|apply map_Forall_empty]. apply Forall_fmap.
    eapply Forall_impl; [exact Hsub|]. intros h (a & b & ->). exists (mid' ++ a), b.
    by rewrite <- !(assoc_L (++)).
Qed.

(** C15: what the parser returns is well formed, whatever the text: the path is not
    empty, has no space and no leading blank; the version is one of the three
    real ones; no header name has a space or a line end, no value a line end.
    And it is in the text: the text starts with the method, has every header as
    [name: value], and ends with a blank line and the body. *)
Theorem parse_http_request_sound (s : str) (r : HTTPRequest) :
  parse_http_request s = Ret (Expected r) →
  path_ok (path_ r) ∧ version_ (req_message r) ≠ HTTPVersion.HTTP_INVALID ∧
  map_Forall (λ k v, header_ok (k, v)) (headers_ (req_message r)) ∧
  ∃ pre, s = method_str (method_ r) ++ pre ++ CRLF ++ body_ (req_message r) ∧
    map_Forall (λ k v, ∃ a b, pre = a ++ header_text (k, v) ++ b) (headers_ (req_message r)).
Proof. apply parse_http_request_inv. Qed.

Lemma parse_http_request_sound_witness :
  path_ok (path_ example_request) ∧
  ∃ pre, $"POST /a?b=c HTTP/1.1" ++ CRLF ++ $"Host: x" ++ CRLF ++ CRLF ++ $"body" =
    $"POST" ++ pre ++ CRLF ++ $"body".
Proof.
  destruct (parse_http_request_sound
    ($"POST /a?b=c HTTP/1.1" ++ CRLF ++ $"Host: x" ++ CRLF ++ CRLF ++ $"body") example_request)
    as (Hp & _ & _ & pre & Hpre & _); [vm_compute; reflexivity|].
  split; [exact Hp|]. exists pre. exact Hpre.
Defined.

(** ** How parsing can end *)

Lemma exits_next_token_view Q v d : exits_only Q (next_token_view v d).
Proof. unfold next_token_view. by destruct (find_idx _ v); [apply exits_only_bind; [apply exits_remove_prefix|]|]. Qed.

Lemma exits_parse_header Q line : exits_only Q (parse_header line).
Proof.
  apply exits_only_bind; [apply exits_next_token_view|]. intros [t w] _. case_match.
  - apply exits_only_bind; [|done]. unfold view_back. by destruct (last t).
  - apply exits_only_bind; [unfold remove_suffix; by case_decide|]. intros k _.
    by apply exits_only_bind; [apply exits_remove_prefix|].
Qed.

(** Every round removes at least two characters, so the length is fuel enough. *)
Lemma exits_parse_headers_loop Q fuel v acc :
  length v < fuel → exits_only Q (parse_headers_loop fuel v acc).
Proof.
  revert v acc. induction fuel as [|fuel IH]; intros v acc Hf; [lia|].
  cbn [parse_headers_loop]. case_match.
  - by apply exits_only_bind; [apply exits_remove_prefix|].
  - case_match; [|done]. apply exits_only_bind; [apply exits_parse_header|].
    intros [h|e] _; [|done]. apply exits_only_bind; [apply exits_remove_prefix|].
    intros v' Hv'. apply IH. unfold remove_prefix in Hv'. case_decide; [|done].
    injection Hv' as <-. rewrite length_drop. lia.
Qed.

Lemma exits_parse_message_headers Q v : exits_only Q (parse_message_headers v).
Proof.
  apply exits_only_bind; [apply exits_parse_headers_loop; lia|]. by intros [[?|?] ?] _.
Qed.

Lemma m_exits_parse_request_line : m_exits parse_request_line.
Proof. unfold parse_request_line. solve_exits. Qed.
#[export] Hint Resolve m_exits_parse_request_line m_exits_process_function
  m_exits_process_function_own exits_parse_message_headers : exits.

Lemma m_exits_parse_http_request_P : m_exits parse_http_request_P.
Proof. unfold parse_http_request_P; solve_exits; by apply m_exits_process_function_own. Qed.

Lemma exits_parse_http_request s : exits_only (.= out_of_range) (parse_http_request s).
Proof. apply exits_only_bind; [apply m_exits_parse_http_request_P|done]. Qed.

(** C22: parsing always ends: it returns a request or an error, throws
    [std::out_of_range], or reads or cuts a view beyond its end; it never loops
    and never terminates the process by itself.  [std::out_of_range] is thrown for
    the empty input. *)
Theorem parse_http_request_exits :
  (∀ s, exits_only (.= out_of_range) (parse_http_request s)) ∧
  parse_http_request [] = Throw out_of_range.
Proof. split; [apply exits_parse_http_request|done]. Qed.

(** Header lines are assignments in order: for a list of well-formed lines,
    duplicates included, the map of the request has for every name the value of
    its last line, and nothing else; blanks around the path are skipped. *)
Lemma parse_duplicate_headers (m : HTTPMethod.t) (ws1 p ws2 : str) (v : HTTPVersion.t)
    (kvs : list (str * str)) (body : str) :
  Forall blank ws1 → path_ok p → Forall blank ws2 → supported v → Forall header_ok kvs →
  ∃ r, parse_http_request (request_text m ws1 p ws2 v kvs body) = Ret (Expected r) ∧
    method_ r = m ∧ path_ r = p ∧ version_ (req_message r) = v ∧ body_ (req_message r) = body ∧
    ∀ k, headers_ (req_message r) !! k = snd <$> last (filter (λ kv, kv.1 = k) kvs).
Proof.
  intros. eexists. split; [by apply parse_http_request_text|]. split_and!; [done..|].
  intros k. simpl. rewrite assign_all_lookup_last. by rewrite lookup_empty; destruct (last _).
Qed.

Lemma parse_duplicate_headers_witness :
  ∃ r, parse_http_request ($"GET /a?b=c HTTP/1.1" ++ CRLF ++ $"Host: x" ++ CRLF ++
         $"Host: y" ++ CRLF ++ CRLF) = Ret (Expected r) ∧
    headers_ (req_message r) !! ($"Host") = Some ($"y").
Proof.
  destruct (parse_duplicate_headers HTTPMethod.GET [] ($"/a?b=c") [] HTTPVersion.HTTP_1_1
    [($"Host", $"x"); ($"Host", $"y")] []) as (r & H & _ & _ & _ & _ & Hh).
  - constructor.
  - apply example_path_ok.
  - constructor.
  - by left.
  - by repeat constructor.
  - exists r. split; [exact H|]. rewrite Hh. reflexivity.
Defined.

(** An HTTP/1.0 request line is answered with a parse error, whatever the
    method, the path and the rest of the request. *)
Lemma http_1_0_rejected (m : HTTPMethod.t) (ws1 p ws2 r : str) :
  Forall blank ws1 → path_ok p → Forall blank ws2 →
  ∃ e, parse_http_request (request_line m ws1 p ws2 ($"HTTP/1.0") ++ r) = Ret (Unexpected e).
Proof.
  intros. eexists. unfold parse_http_request, StringParser_new, parse_http_request_P.
  by erewrite M_bind_run by (by apply request_line_10).
Qed.

Lemma http_1_0_rejected_witness :
  ∃ e, parse_http_request ($"GET /a?b=c HTTP/1.0" ++ CRLF ++ CRLF) = Ret (Unexpected e).
Proof.
  destruct (http_1_0_rejected HTTPMethod.GET [] ($"/a?b=c") [] CRLF) as [e H];
    [constructor|apply example_path_ok|constructor|]. exists e. exact H.
Defined.

(** Printing for the version that is not parsed back. *)
Lemma HTTPRequest_print_10 r :
  version_ (req_message r) = HTTPVersion.HTTP_1_0 →
  HTTPRequest_print r = Ret (request_line (method_ r) [] (path_ r) [] ($"HTTP/1.0") ++
    print_headers (headers_ (req_message r)) ++ CRLF ++ body_ (req_message r)).
Proof.
  intros Hv. unfold HTTPRequest_print. rewrite method_str_at, Hv. cbn [mbind outcome_bind].
  unfold request_line. cbn [HTTPVersion.to_nat array_at HTTP_VERSION_STRINGS lookup list_lookup mbind outcome_bind].
  f_equal. rewrite <- !(assoc_L (++)). cbn. by rewrite <- !(assoc_L (++)).
Qed.

(** C2: printing a request and parsing the text gives the request back, for every
    method, the versions 1.1 and 2.0, every path that is not empty, does not begin
    with a tab and has no space, every header map whose names have no space or line
    end and whose values have no line end, and every body.  Under the same
    conditions the text of an HTTP/1.0 request is printed but the parser rejects
    it; and printing the version [HTTP_INVALID] reads behind the array of version
    strings. *)
Theorem parse_print_request (r : HTTPRequest) :
  HTTPRequest_ok r →
  let parsed := s ← HTTPRequest_print r; parse_http_request s in
  match version_ (req_message r) with
  | HTTPVersion.HTTP_1_1 | HTTPVersion.HTTP_2_0 => parsed = Ret (Expected r)
  | HTTPVersion.HTTP_1_0 => ∃ e, parsed = Ret (Unexpected e)
  | HTTPVersion.HTTP_INVALID => HTTPRequest_print r = Undef
  end.
Proof.
  intros Hr parsed. unfold parsed. destruct (version_ (req_message r)) eqn:Hv.
  - rewrite HTTPRequest_print_10 by done. apply http_1_0_rejected; [constructor|apply Hr|constructor].
  - apply parse_print_supported; [done|by left].
  - apply parse_print_supported; [done|by right].
  - unfold HTTPRequest_print. by rewrite method_str_at, Hv.
Qed.

Lemma parse_print_request_witness :
  HTTPRequest_ok example_request ∧
  parse_http_request ($"POST /a?b=c HTTP/1.1" ++ CRLF ++ $"Host: x" ++ CRLF ++ CRLF ++ $"body") =
  Ret (Expected example_request).
Proof.
  assert (H : HTTPRequest_ok example_request).
  { split; [apply example_path_ok|]. apply map_Forall_singleton, example_header_ok. }
  split; [exact H|]. exact (parse_print_request example_request H).
Defined.

(** After well-formed lines the loop goes on with what follows. *)
Lemma parse_headers_loop_lines kvs s acc fuel :
  Forall header_ok kvs →
  parse_headers_loop (length kvs + fuel) (mjoin (print_header <$> kvs) ++ s) acc =
  parse_headers_loop fuel s (acc ++ (to_Header <$> kvs)).
Proof.
  intros H. revert acc. induction H as [|kv kvs Hkv _ IH]; intros acc.
  - by rewrite app_nil_r.
  - cbn [length Nat.add]. rewrite mjoin_fmap_cons, print_header_text, <- !(assoc_L (++)).
    rewrite parse_headers_loop_line, IH by done. by rewrite <- (assoc_L (++)).
Qed.

Lemma parse_headers_no_space kvs line rest :
  Forall header_ok kvs → line ≠ [] → Forall (λ c, not_line_end c ∧ c ≠ SP) line →
  parse_message_headers (mjoin (print_header <$> kvs) ++ line ++ CRLF ++ rest) = Undef.
Proof.
  intros Hkvs Hne [Hle Hsp]%Forall_and. unfold parse_message_headers.
  set (n := length (_ ++ _)). assert (Hn : length kvs ≤ n).
  { unfold n. rewrite length_app. pose proof (length_print_headers kvs). lia. }
  replace (S n) with (length kvs + S (n - length kvs)) by lia.
  rewrite parse_headers_loop_lines by done. cbn [parse_headers_loop].
  replace (starts_with CRLF (line ++ CRLF ++ rest)) with false.
  - by rewrite find_line_end, take_app_length, parse_header_no_space.
  - destruct line as [|c line]; [done|]. apply Forall_cons in Hle as [[Hc _] _].
    symmetry. apply andb_false_intro1, Ascii.eqb_neq. done.
Qed.

(** C30: a header line in which no space follows the name (["Host:x"], or no colon at
    all) makes the parser remove [npos] characters from a view: undefined
    behaviour, after any number of well-formed lines and whatever follows. *)
Theorem header_without_space_undefined (m : HTTPMethod.t) (p : str) (v : HTTPVersion.t)
    (kvs : list (str * str)) (line rest : str) :
  path_ok p → supported v → Forall header_ok kvs →
  line ≠ [] → Forall (λ c, not_line_end c ∧ c ≠ SP) line →
  parse_http_request
    (request_line m [] p [] (version_str v) ++
     mjoin (print_header <$> kvs) ++ line ++ CRLF ++ rest) = Undef.
Proof.
  intros. unfold parse_http_request, StringParser_new, parse_http_request_P.
  erewrite M_bind_run by (by apply request_line_supported). cbv beta iota.
  rewrite M_bind_Undef; [done|]. unfold process_function. pstep.
  rewrite M_bind_Undef; [done|]. unfold liftO. cbn [sp_view].
  by rewrite parse_headers_no_space.
Qed.

Lemma header_without_space_undefined_witness :
  parse_http_request ($"GET /a?b=c HTTP/1.1" ++ CRLF ++ $"Host: x" ++ CRLF ++
    $"Accept:*" ++ CRLF ++ CRLF) = Undef.
Proof.
  apply (header_without_space_undefined HTTPMethod.GET ($"/a?b=c") HTTPVersion.HTTP_1_1
    [($"Host", $"x")] ($"Accept:*") CRLF).
  - apply example_path_ok.
  - by left.
  - by repeat constructor.
  - done.
  - by repeat constructor.
Defined.

(** ** Responses are unambiguous *)

Definition HTTPResponse_ok (r : HTTPResponse) : Prop :=
  version_ (resp_message r) ≠ HTTPVersion.HTTP_INVALID ∧
  map_Forall (λ k v, header_ok (k, v)) (headers_ (resp_message r)).

Lemma HTTPResponse_print_text r :
  version_ (resp_message r) ≠ HTTPVersion.HTTP_INVALID →
  HTTPResponse_print r = Ret (version_str (version_ (resp_message r)) ++
    ($" " ++ status_code_to_string (status_code_ r)) ++ CRLF ++
    mjoin (print_header <$> map_in_order (headers_ (resp_message r))) ++ CRLF ++
    body_ (resp_message r)).
Proof.
  intros Hv. unfold HTTPResponse_print.
  replace (array_at HTTP_VERSION_STRINGS (HTTPVersion.to_nat (version_ (resp_message r))))
    with (Ret (version_str (version_ (resp_message r)))) by (by destruct (version_ _)).
  cbn [mbind outcome_bind]. by rewrite <- !(assoc_L (++)).
Qed.

Lemma version_str_length v : v ≠ HTTPVersion.HTTP_INVALID → length (version_str v) = 8.
Proof. by destruct v. Qed.

Lemma version_str_inj v w : version_str v = version_str w → v = w.
Proof. by destruct v, w. Qed.

Lemma status_code_inj a b : status_code_to_string a = status_code_to_string b → a = b.
Proof. by destruct a, b. Qed.

(** Lines without CR end at the same place. *)
Lemma line_inj l1 l2 r1 r2 :
  Forall (.≠ CR) l1 → Forall (.≠ CR) l2 → l1 ++ CRLF ++ r1 = l2 ++ CRLF ++ r2 → l1 = l2 ∧ r1 = r2.
Proof.
  intros H1 H2. revert l2 H2. induction H1 as [|c l1 Hc H1 IH]; intros [|d l2] H2 E; simpl in E.
  - by simplify_eq.
  - apply Forall_cons in H2 as [? _]. by simplify_eq.
  - by simplify_eq.
  - apply Forall_cons in H2 as [_ H2]. injection E as -> E. by destruct (IH l2 H2 E) as [-> ->].
Qed.

Lemma status_line_no_cr a : Forall (.≠ CR) ($" " ++ status_code_to_string a).
Proof. apply (bool_decide_unpack _). by destruct a; vm_compute. Qed.

#[global] Instance to_Header_inj : Inj (=) (=) to_Header.
Proof. by intros [? ?] [? ?] [= -> ->]. Qed.

(** C31: what the server sends can be read back: two responses with header lines of
    the usual form that print to the same bytes are the same response. *)
Theorem HTTPResponse_print_inj (r1 r2 : HTTPResponse) :
  HTTPResponse_ok r1 → HTTPResponse_ok r2 →
  HTTPResponse_print r1 = HTTPResponse_print r2 → r1 = r2.
Proof.
  intros [Hv1 Hh1] [Hv2 Hh2]. rewrite !HTTPResponse_print_text by done. intros E%(inj Ret).
  apply app_inj_1 in E as [Ev E]; [|by rewrite !version_str_length].
  apply version_str_inj in Ev. apply line_inj in E as [Ec E]; [|apply status_line_no_cr..].
  apply app_inv_head, status_code_inj in Ec.
  apply (f_equal parse_message_headers) in E.
  assert (Hok : ∀ r, map_Forall (λ k v, header_ok (k, v)) (headers_ (resp_message r)) →
    Forall header_ok (map_in_order (headers_ (resp_message r)))).
  { intros r Hr. apply Forall_forall. intros [k v] Hkv. by apply (Hr k v), map_in_order_elem_of. }
  rewrite !parse_message_headers_run in E by auto. apply (inj Ret) in E. injection E as Eh Eb.
  apply (inj (fmap to_Header)) in Eh. apply (f_equal (list_to_map (M := gmap str str))) in Eh.
  rewrite !list_to_map_in_order in Eh.
  destruct r1 as [[] ?], r2 as [[] ?]; simpl in *; congruence.
Qed.

Lemma HTTPResponse_print_inj_witness :
  let r := mk_HTTPResponse (mk_HTTPMessage HTTPVersion.HTTP_1_1 {[$"Host" := $"x"]} ($"b"))
    HTTPStatusCode.OK in
  let r' := resp_with_message (SetHeader ($"Host") ($"x")) (resp_with_message (SetContent ($"b"))
    (HTTPResponse_new HTTPStatusCode.OK HTTPVersion.HTTP_1_1)) in
  r = r'.
Proof.
  intros r r'. apply HTTPResponse_print_inj.
  - split; [done|]. apply map_Forall_singleton, example_header_ok.
  - split; [done|]. apply map_Forall_singleton, example_header_ok.
  - vm_compute. reflexivity.
Defined.
