(* ===== verification/Url.v ===== *)
(** * URLs

    [src/simpleserv/utility/url.cpp] and [include/simpleserv/utility/url.hpp]:
    splitting a target into path and query, the query map, percent coding. *)

From S2P Require Import Prelude Effects StdMap Expected.

Record URL : Type := mk_URL { url_path : str; query : gmap str str }.

Definition GetPath (u : URL) : str := url_path u.
Definition GetQuery (u : URL) : gmap str str := query u.

(** The overload with a key reads [query\[key\]], which inserts an empty value
    when the key is missing. *)
Definition GetQuery_key (key : str) : M URL str :=
  u ← get;
  match query u !! key with
  | Some v => mret v
  | None => _ ← put (mk_URL (url_path u) (<[key := []]> (query u))); mret []
  end.

(** ** Splitting *)

Definition find_char_from (c : ascii) (s : str) (pos : nat) : option nat :=
  Nat.add pos <$> find_idx (Ascii.eqb c) (drop pos s).

(** The range of [size_t]. *)
Definition SIZE_MOD : Z := 2 ^ 64.

(** [std::string::substr(pos, count)]. *)
Definition substr (s : str) (pos : nat) (count : Z) : outcome str :=
  if decide (pos ≤ length s) then
    Ret (take (Z.to_nat (Z.min count (Z.of_nat (length s - pos)))) (drop pos s))
  else Throw out_of_range.

Definition path (s : str) : outcome str :=
  match find_char_from "?"%char s 0 with
  | Some query_index => substr s 0 (Z.of_nat query_index)
  | None => Ret s
  end.

(** The [while (true)] loop of [searchpart]; the counts are differences of
    [size_t] values, taken modulo [SIZE_MOD].  [query_index] grows in every
    round, so the length bounds their number. *)
Fixpoint searchpart_loop (fuel : nat) (s : str) (query_index : nat) (query : gmap str str) :
    outcome (gmap str str) :=
  match fuel with
  | 0 => NoFuel
  | S fuel =>
    let eq_pos := find_char_from "="%char s query_index in
    let amp_pos :=
      match find_char_from "&"%char s query_index with Some p => p | None => length s end in
    match eq_pos with
    | None => Ret query
    | Some eq_pos =>
      key ← substr s query_index ((Z.of_nat eq_pos - Z.of_nat query_index) mod SIZE_MOD)%Z;
      value ← substr s (eq_pos + 1) ((Z.of_nat amp_pos - Z.of_nat eq_pos - 1) mod SIZE_MOD)%Z;
      searchpart_loop fuel s (amp_pos + 1) (<[key := value]> query)
    end
  end.

Definition searchpart (s : str) (start : nat) : outcome (gmap str str) :=
  searchpart_loop (S (length s)) s start ∅.

Definition from_string (s : str) : outcome (expected URL str) :=
  path_str ← path s;
  query ← searchpart s (length path_str + 1);
  Ret (Expected (mk_URL path_str query)).

(** ** Percent coding *)

Definition is_space (c : ascii) : bool :=
  let n := N_of_ascii c in ((n =? 32) || (9 <=? n) && (n <=? 13))%N.

Definition hex_digit (c : ascii) : option Z :=
  let n := Z.of_N (N_of_ascii c) in
  if ((48 <=? n) && (n <=? 57))%Z then Some (n - 48)%Z
  else if ((65 <=? n) && (n <=? 70))%Z then Some (n - 55)%Z
  else if ((97 <=? n) && (n <=? 102))%Z then Some (n - 87)%Z
  else None.

Fixpoint hex_digits (acc : Z) (s : str) : Z :=
  match s with
  | c :: s' => match hex_digit c with Some d => hex_digits (16 * acc + d)%Z s' | None => acc end
  | [] => acc
  end.

Fixpoint drop_spaces (s : str) : str :=
  match s with c :: s' => if is_space c then drop_spaces s' else s | [] => [] end.

(** The digits of [strtol(.., 16)]: an optional ["0x"] counts only before a digit. *)
Definition strtol16_digits (s : str) : option Z :=
  let digits := match s with
    | z :: x :: (d :: _) as s' =>
      if Ascii.eqb z "0"%char && (Ascii.eqb x "x"%char || Ascii.eqb x "X"%char) &&
         bool_decide (is_Some (hex_digit d)) then s' else s
    | _ => s
    end in
  match digits with
  | d :: _ => match hex_digit d with Some _ => Some (hex_digits 0 digits) | None => None end
  | [] => None
  end.

(** [std::stoi(s, nullptr, 16)]. *)
Definition stoi16 (s : str) : outcome Z :=
  let s := drop_spaces s in
  let '(sign, s) := match s with
    | c :: s' => if Ascii.eqb c "-"%char then (-1, s')%Z
                 else if Ascii.eqb c "+"%char then (1, s')%Z else (1, s)%Z
    | [] => (1, s)%Z
    end in
  match strtol16_digits s with
  | None => Throw invalid_argument
  | Some n =>
    let v := (sign * n)%Z in
    if ((- 2 ^ 31 <=? v) && (v <? 2 ^ 31))%Z then Ret v else Throw out_of_range
  end.

(** [static_cast<char>(int)]. *)
Definition int_to_char (n : Z) : ascii := ascii_of_N (Z.to_N (n mod 256)).

(** The loop over [i]; after ["%"] it takes up to two characters and skips two. *)
Fixpoint percent_decode (s : str) : outcome str :=
  match s with
  | [] => Ret []
  | c :: s' =>
    if decide (c = "%"%char) then
      match s' with
      | a :: b :: s'' =>
          char_code ← stoi16 [a; b]; decoded ← percent_decode s'';
          Ret (int_to_char char_code :: decoded)
      | hex => char_code ← stoi16 hex; Ret [int_to_char char_code]
      end
    else decoded ← percent_decode s'; Ret (c :: decoded)
  end.

(** The characters with a [case] of their own. *)
Definition reserved : list ascii :=
  [" "; "!"; "034"; "#"; "$"; "%"; "&"; "'"; "("; ")"; "*"; "+"; ","; "/"; ":"; ";"; "=";
   "?"; "@"; "["; "]"]%char.

Definition percent_encode_char (current_char : ascii) : str :=
  if decide (current_char ∈ reserved) then "%"%char :: to_string (char_to_int current_char)
  else [current_char].

Definition percent_encode (s : str) : str := mjoin (percent_encode_char <$> s).

(** ** Lemmas on splitting *)

Lemma find_char_from_app c (pre s t : str) :
  Forall (.≠ c) s →
  find_char_from c (pre ++ s ++ c :: t) (length pre) = Some (length pre + length s).
Proof.
  intros H. unfold find_char_from. rewrite drop_app_length.
  rewrite find_idx_app_stop with (p := Ascii.eqb c); [done| |by apply Ascii.eqb_refl].
  eapply Forall_impl; [exact H|]. intros c' Hc'. by apply Ascii.eqb_neq.
Qed.

Lemma find_char_from_None c (pre s : str) :
  Forall (.≠ c) s → find_char_from c (pre ++ s) (length pre) = None.
Proof.
  intros H. unfold find_char_from. rewrite drop_app_length.
  replace (find_idx (Ascii.eqb c) s) with (@None nat); [done|]. symmetry. apply find_idx_None.
  eapply Forall_impl; [exact H|]. intros c' Hc'. by apply Ascii.eqb_neq.
Qed.

Lemma find_char_from_ge c s pos : length s ≤ pos → find_char_from c s pos = None.
Proof. intros H. unfold find_char_from. by rewrite drop_ge. Qed.

Lemma find_char_from_lt c s pos i : find_char_from c s pos = Some i → pos ≤ i < length s.
Proof.
  intros (j & Hj & ->)%fmap_Some. apply find_idx_lt in Hj. rewrite length_drop in Hj. lia.
Qed.

Lemma substr_app (pre s t : str) n :
  n = Z.of_nat (length s) → substr (pre ++ s ++ t) (length pre) n = Ret s.
Proof.
  intros ->. unfold substr. rewrite !length_app, decide_True by lia.
  rewrite drop_app_length. f_equal.
  replace (Z.to_nat _) with (length s) by lia. apply take_app_length.
Qed.

Lemma substr_rest (pre s : str) n :
  (Z.of_nat (length s) ≤ n)%Z → substr (pre ++ s) (length pre) n = Ret s.
Proof.
  intros H. unfold substr. rewrite !length_app, decide_True by lia.
  rewrite drop_app_length. f_equal. apply take_ge. lia.
Qed.

Lemma path_no_query s : Forall (.≠ "?"%char) s → path s = Ret s.
Proof. intros H. unfold path. by rewrite (find_char_from_None _ [] s). Qed.

Lemma path_query p q : Forall (.≠ "?"%char) p → path (p ++ "?"%char :: q) = Ret p.
Proof.
  intros H. unfold path. pose proof (find_char_from_app _ [] p q H) as E.
  cbn [app length] in E. rewrite E. by apply (substr_app [] p).
Qed.

(** [substr] throws only for a position past the end. *)
Lemma substr_defined s pos n : pos ≤ length s → ∃ t, substr s pos n = Ret t.
Proof. intros H. unfold substr. rewrite decide_True by done. eauto. Qed.

Lemma path_total s : ∃ p, path s = Ret p.
Proof.
  unfold path. destruct (find_char_from _ s 0) eqn:E; [|eauto]. apply substr_defined. lia.
Qed.

Lemma searchpart_loop_total fuel s i q :
  length s < fuel + i → 0 < fuel → ∃ m, searchpart_loop fuel s i q = Ret m.
Proof.
  revert i q. induction fuel as [|fuel IH]; intros i q Hf ?; [lia|]. cbn [searchpart_loop].
  destruct (find_char_from "="%char s i) as [e|] eqn:He; [|eauto].
  apply find_char_from_lt in He.
  edestruct (substr_defined s i) as [k ->]; [lia|].
  edestruct (substr_defined s (e + 1)) as [v ->]; [lia|]. cbn [mbind outcome_bind].
  apply IH; destruct (find_char_from "&"%char s i) as [a|] eqn:Ha;
    try apply find_char_from_lt in Ha; lia.
Qed.

(** ** Rendering of queries *)

Definition render_pair (kv : str * str) : str := kv.1 ++ "="%char :: kv.2.

Fixpoint render_query (kvs : list (str * str)) : str :=
  match kvs with
  | [] => []
  | [kv] => render_pair kv
  | kv :: kvs => render_pair kv ++ "&"%char :: render_query kvs
  end.

Lemma render_query_cons kv kvs :
  kvs ≠ [] → render_query (kv :: kvs) = render_pair kv ++ "&"%char :: render_query kvs.
Proof. by destruct kvs. Qed.

Definition pair_ok (kv : str * str) : Prop :=
  Forall (λ c, c ≠ "="%char ∧ c ≠ "&"%char) kv.1 ∧ Forall (.≠ "&"%char) kv.2.

Definition fits (s : str) : Prop := (Z.of_nat (length s) < 2 ^ 63)%Z.

Lemma pair_ok_render kv : pair_ok kv → Forall (.≠ "&"%char) (render_pair kv).
Proof.
  intros [Hk Hv]. apply Forall_app. split; [|by constructor].
  eapply Forall_impl; [exact Hk|]. by intros ? [_ ?].
Qed.

(** One round: the pair at [query_index], ended by a ["&"] or by the string. *)
Section round.
Context (pre : str) (kv : str * str) (fuel : nat) (q : gmap str str).
Context (Hkv : pair_ok kv).

Lemma searchpart_round tail amp :
  fits (pre ++ render_pair kv ++ tail) →
  amp = length pre + length (render_pair kv) →
  match find_char_from "&"%char (pre ++ render_pair kv ++ tail) (length pre) with
  | Some p => p | None => length (pre ++ render_pair kv ++ tail) end = amp →
  searchpart_loop (S fuel) (pre ++ render_pair kv ++ tail) (length pre) q =
  searchpart_loop fuel (pre ++ render_pair kv ++ tail) (amp + 1) (<[kv.1 := kv.2]> q).
Proof using Hkv.
  destruct kv as [k v], Hkv as [Hk _]. unfold render_pair; cbn [fst snd] in *.
  intros Hfit -> Hamp. unfold fits in Hfit. unfold SIZE_MOD in *.
  rewrite !length_app in Hfit; cbn [length] in Hfit.
  cbn [searchpart_loop]. rewrite Hamp. clear Hamp.
  assert (Heq : (k ++ "="%char :: v) ++ tail = k ++ "="%char :: (v ++ tail))
    by (by rewrite <- (assoc_L (++))).
  rewrite Heq, find_char_from_app
    by (eapply Forall_impl; [exact Hk|]; by intros ? [? _]).
  rewrite substr_app by (unfold SIZE_MOD; rewrite Z.mod_small; lia). cbn [mbind outcome_bind].
  replace (pre ++ k ++ "="%char :: v ++ tail) with ((pre ++ k ++ ["="%char]) ++ v ++ tail)
    by (by rewrite <- !(assoc_L (++))).
  replace (length pre + length k + 1) with (length (pre ++ k ++ ["="%char]))
    by (rewrite !length_app; simpl; lia).
  rewrite substr_app; [done|].
  unfold SIZE_MOD. rewrite length_app; cbn [length]. rewrite Z.mod_small; lia.
Qed.

Lemma searchpart_round_last :
  fits (pre ++ render_pair kv) →
  searchpart_loop (S fuel) (pre ++ render_pair kv) (length pre) q =
  searchpart_loop fuel (pre ++ render_pair kv) (length (pre ++ render_pair kv) + 1)
    (<[kv.1 := kv.2]> q).
Proof using Hkv.
  intros Hf. rewrite <- (app_nil_r (render_pair kv)) in *.
  rewrite (searchpart_round [] (length (pre ++ render_pair kv ++ []))); [done..| |].
  - rewrite !length_app. simpl. lia.
  - rewrite find_char_from_None; [done|]. rewrite app_nil_r. by apply pair_ok_render.
Qed.

Lemma searchpart_round_more rest :
  fits (pre ++ render_pair kv ++ "&"%char :: rest) →
  searchpart_loop (S fuel) (pre ++ render_pair kv ++ "&"%char :: rest) (length pre) q =
  searchpart_loop fuel (pre ++ render_pair kv ++ "&"%char :: rest)
    (length (pre ++ render_pair kv ++ ["&"%char])) (<[kv.1 := kv.2]> q).
Proof using Hkv.
  intros Hf. erewrite searchpart_round; [|done..|].
  - f_equal. rewrite !length_app. simpl. lia.
  - rewrite find_char_from_app; [done|]. by apply pair_ok_render.
Qed.
End round.

Lemma searchpart_loop_end fuel s i q :
  length s ≤ i → searchpart_loop (S fuel) s i q = Ret q.
Proof. intros H. cbn [searchpart_loop]. by rewrite find_char_from_ge. Qed.

Lemma searchpart_loop_render kvs pre fuel q :
  Forall pair_ok kvs → kvs ≠ [] → fits (pre ++ render_query kvs) → length kvs < fuel →
  searchpart_loop fuel (pre ++ render_query kvs) (length pre) q = Ret (assign_all kvs q).
Proof.
  intros H. revert pre fuel q. induction H as [|kv kvs Hkv H IH]; intros pre fuel q Hne Hf Hl; [done|].
  destruct fuel as [|fuel]; [lia|]. destruct kvs as [|kv' kvs].
  - cbn [render_query] in *. rewrite searchpart_round_last by done.
    simpl in Hl. destruct fuel; [lia|]. by rewrite searchpart_loop_end by lia.
  - rewrite render_query_cons in * by done. rewrite searchpart_round_more by done.
    set (pre' := pre ++ render_pair kv ++ ["&"%char]).
    replace (pre ++ render_pair kv ++ "&"%char :: render_query (kv' :: kvs))
      with (pre' ++ render_query (kv' :: kvs)) in * by (unfold pre'; by rewrite <- !(assoc_L (++))).
    rewrite IH; [done..|]. simpl in *. lia.
Qed.

Lemma length_render_query kvs : length kvs ≤ length (render_query kvs).
Proof.
  induction kvs as [|kv [|kv' kvs] IH]; [done| |].
  - cbn [render_query length]. unfold render_pair. rewrite length_app. simpl. lia.
  - cbn [render_query length] in *. rewrite length_app. cbn [length]. lia.
Qed.

(** ** Properties *)

(** [from_string] always returns a URL: its loop ends, and none of its
    [substr] calls is out of range. *)
Lemma from_string_total (s : str) : ∃ u, from_string s = Ret (Expected u).
Proof.
  unfold from_string. destruct (path_total s) as [p ->]. cbn [mbind outcome_bind].
  unfold searchpart.
  destruct (searchpart_loop_total (S (length s)) s (length p + 1) ∅) as [m ->]; [lia..|]. eauto.
Qed.

(** C32: splitting is the inverse of rendering: a path without ["?"] and a list of
    pairs whose names have no ["="] or ["&"] and whose values have no ["&"] come
    back as the path and the map of the pairs, the last of equal names winning. *)
Theorem from_string_render (p : str) (kvs : list (str * str)) :
  Forall (.≠ "?"%char) p → Forall pair_ok kvs → kvs ≠ [] →
  fits (p ++ "?"%char :: render_query kvs) →
  from_string (p ++ "?"%char :: render_query kvs) = Ret (Expected (mk_URL p (assign_all kvs ∅))).
Proof.
  intros Hp Hkvs Hne Hf. unfold from_string. rewrite path_query by done. cbn [mbind outcome_bind].
  unfold searchpart. set (n := S _). assert (Hn : length kvs < n).
  { unfold n. rewrite length_app. cbn [length]. pose proof (length_render_query kvs). lia. }
  clearbody n. replace (p ++ "?"%char :: render_query kvs) with
    ((p ++ ["?"%char]) ++ render_query kvs) in * by (by rewrite <- !(assoc_L (++))).
  replace (length p + 1) with (length (p ++ ["?"%char])) by (by rewrite length_app).
  by rewrite searchpart_loop_render.
Qed.

Lemma from_string_render_witness :
  from_string ($"/a?x=1&y=2") =
  Ret (Expected (mk_URL ($"/a") (assign_all [($"x", $"1"); ($"y", $"2")] ∅))).
Proof.
  apply (from_string_render ($"/a") [($"x", $"1"); ($"y", $"2")]).
  - by repeat constructor.
  - by repeat constructor.
  - done.
  - vm_compute. reflexivity.
Defined.

(** A round whose ["="] lies behind the next ["&"]. *)
Lemma searchpart_round_swallow pre k1 k2 v fuel q :
  pair_ok (k1, []) → pair_ok (k2, v) →
  let s := pre ++ k1 ++ "&"%char :: render_pair (k2, v) in
  fits s →
  searchpart_loop (S fuel) s (length pre) q =
  searchpart_loop fuel s (length (pre ++ k1 ++ ["&"%char])) (<[k1 ++ "&"%char :: k2 := v]> q).
Proof.
  intros [H1 _] [H2 _] s Hf. cbn [fst snd] in *. unfold fits, s in *. clear s.
  unfold render_pair in *; cbn [fst snd] in *. rewrite !length_app in Hf; cbn [length] in Hf.
  rewrite length_app in Hf; cbn [length] in Hf. cbn [searchpart_loop].
  rewrite (find_char_from_app "&"%char) by (eapply Forall_impl; [exact H1|]; by intros ? [_ ?]).
  replace (pre ++ k1 ++ "&"%char :: k2 ++ "="%char :: v)
    with (pre ++ (k1 ++ "&"%char :: k2) ++ "="%char :: v) by (by rewrite <- !(assoc_L (++))).
  rewrite (find_char_from_app "="%char).
  2:{ apply Forall_app; split; [eapply Forall_impl; [exact H1|]; by intros ? [? _]|].
      constructor; [done|]. eapply Forall_impl; [exact H2|]. by intros ? [? _]. }
  rewrite substr_app.
  2:{ unfold SIZE_MOD. rewrite length_app; cbn [length]. rewrite Z.mod_small; lia. }
  cbn [mbind outcome_bind].
  replace (pre ++ (k1 ++ "&"%char :: k2) ++ "="%char :: v)
    with ((pre ++ (k1 ++ "&"%char :: k2) ++ ["="%char]) ++ v) by (by rewrite <- !(assoc_L (++))).
  replace (length pre + length (k1 ++ "&"%char :: k2) + 1)
    with (length (pre ++ (k1 ++ "&"%char :: k2) ++ ["="%char])) by (rewrite !length_app; simpl; lia).
  rewrite substr_rest.
  - cbn [mbind outcome_bind]. f_equal. rewrite !length_app. simpl. lia.
  - unfold SIZE_MOD. rewrite length_app; cbn [length].
    rewrite <- (Z.mod_add _ 1), Z.mod_small; lia.
Qed.

(** A segment without ["="] swallows its successor: [k1&k2=v] yields the names
    [k1&k2] and [k2], both with value [v], because the ["="] found for [k1] lies
    behind the ["&"] and the count of the value wraps around. *)
Lemma searchpart_missing_equals (p k1 k2 v : str) :
  Forall (.≠ "?"%char) p → pair_ok (k1, []) → pair_ok (k2, v) →
  fits (p ++ "?"%char :: k1 ++ "&"%char :: render_pair (k2, v)) →
  from_string (p ++ "?"%char :: k1 ++ "&"%char :: render_pair (k2, v)) =
  Ret (Expected (mk_URL p (<[k2 := v]> {[k1 ++ "&"%char :: k2 := v]}))).
Proof.
  intros Hp H1 H2 Hf. unfold from_string. rewrite path_query by done. cbn [mbind outcome_bind].
  unfold searchpart. set (n := length _). assert (Hn : 1 < n).
  { unfold n. rewrite !length_app. cbn [length]. rewrite length_app. simpl. lia. }
  clearbody n. destruct n as [|[|n]]; [lia..|]. clear Hn.
  replace (length p + 1) with (length (p ++ ["?"%char])) by (by rewrite length_app).
  replace (p ++ "?"%char :: k1 ++ "&"%char :: render_pair (k2, v)) with
    ((p ++ ["?"%char]) ++ k1 ++ "&"%char :: render_pair (k2, v)) in *
    by (by rewrite <- !(assoc_L (++))).
  rewrite searchpart_round_swallow by done.
  replace ((p ++ ["?"%char]) ++ k1 ++ "&"%char :: render_pair (k2, v)) with
    (((p ++ ["?"%char]) ++ k1 ++ ["&"%char]) ++ render_pair (k2, v)) in *
    by (by rewrite <- !(assoc_L (++))).
  rewrite searchpart_round_last by done. by rewrite searchpart_loop_end by lia.
Qed.

(** ** Percent coding *)

(** The character whose code in hexadecimal has the decimal digits of the code
    of [c]. *)
Definition reread (c : ascii) : ascii :=
  if decide (c ∈ reserved) then
    let n := char_to_int c in int_to_char (16 * (n / 10) + n mod 10)
  else c.

Definition reserved_check (c : ascii) : bool :=
  match percent_encode_char c with
  | [p; a; b] =>
      match stoi16 [a; b] with
      | Ret n => Ascii.eqb p "%"%char && Ascii.eqb (int_to_char n) (reread c) &&
                 negb (Ascii.eqb (reread c) c)
      | _ => false
      end
  | _ => false
  end.

Lemma reserved_checked : forallb reserved_check reserved = true.
Proof. vm_compute. reflexivity. Qed.

Lemma reserved_encode c : c ∈ reserved →
  ∃ a b n, percent_encode_char c = ["%"%char; a; b] ∧ stoi16 [a; b] = Ret n ∧
           int_to_char n = reread c ∧ reread c ≠ c.
Proof.
  intros H%list_elem_of_In. pose proof (proj1 (forallb_forall _ _) reserved_checked c H) as Hc.
  unfold reserved_check in Hc. destruct (percent_encode_char c) as [|p [|a [|b [|]]]]; try done.
  destruct (stoi16 [a; b]) as [n| | | |] eqn:Hn; try done.
  apply andb_true_iff in Hc as [[->%Ascii.eqb_eq Hr%Ascii.eqb_eq]%andb_true_iff Hne].
  apply negb_true_iff, Ascii.eqb_neq in Hne. eauto 10.
Qed.

Lemma percent_decode_app c s :
  percent_decode (percent_encode_char c ++ s) =
  (t ← percent_decode s; Ret (reread c :: t)).
Proof.
  destruct (decide (c ∈ reserved)) as [H|H].
  - destruct (reserved_encode c H) as (a & b & n & -> & Hn & Hr & _).
    cbn [app percent_decode]. rewrite decide_True by done. rewrite Hn. cbn [mbind outcome_bind].
    by rewrite Hr.
  - unfold percent_encode_char, reread. rewrite !decide_False by done. cbn [app percent_decode].
    rewrite decide_False; [done|]. intros ->. apply H. by apply (bool_decide_unpack _).
Qed.

(** [percent_encode] writes decimal codes and [percent_decode] reads
    hexadecimal ones: decoding an encoded string never fails, but it gives the
    string back only if it has no reserved character. *)
Lemma percent_decode_encode (s : str) :
  percent_decode (percent_encode s) = Ret (reread <$> s) ∧
  (reread <$> s = s ↔ Forall (.∉ reserved) s).
Proof.
  split.
  - unfold percent_encode. induction s as [|c s IH]; [done|].
    by rewrite mjoin_fmap_cons, percent_decode_app, IH.
  - induction s as [|c s IH]; [by split; [constructor|]|].
    cbn [fmap list_fmap]. rewrite Forall_cons, <- IH. split.
    + intros [= Hc Hs]. split; [|done]. intros Hin.
      by destruct (reserved_encode c Hin) as (? & ? & ? & _ & _ & _ & ?).
    + intros [Hc Hs]. f_equal; [|done]. unfold reread. by rewrite decide_False.
Qed.

(** The encoding of RFC 3986: ["%"] and two hexadecimal digits. *)
Definition hex_char (n : N) : ascii := ascii_of_N (if (n <? 10)%N then 48 + n else 55 + n).
Definition hex_encode_char (P : ascii → bool) (c : ascii) : str :=
  if P c then ["%"%char; hex_char (N_of_ascii c / 16); hex_char (N_of_ascii c mod 16)] else [c].

Lemma stoi16_hex c :
  stoi16 [hex_char (N_of_ascii c / 16); hex_char (N_of_ascii c mod 16)] =
    Ret (Z.of_N (N_of_ascii c)) ∧
  int_to_char (Z.of_N (N_of_ascii c)) = c.
Proof.
  destruct c as [b0 b1 b2 b3 b4 b5 b6 b7].
  destruct b0, b1, b2, b3, b4, b5, b6, b7; vm_compute; auto.
Qed.

(** [percent_decode] inverts the encoding of RFC 3986, whichever characters
    (["%"] among them) are encoded. *)
Lemma percent_decode_hex (P : ascii → bool) (s : str) :
  P "%"%char = true → percent_decode (mjoin (hex_encode_char P <$> s)) = Ret s.
Proof.
  intros HP. induction s as [|c s IH]; [done|]. rewrite mjoin_fmap_cons.
  unfold hex_encode_char at 1. destruct (P c) eqn:Hc; cbn [app percent_decode].
  - rewrite decide_True by done. destruct (stoi16_hex c) as [-> Hn]. rewrite IH.
    cbn [mbind outcome_bind]. by rewrite Hn.
  - rewrite decide_False by congruence. by rewrite IH.
Qed.
