(* ===== verification/FileSystem.v ===== *)
(** * std::filesystem, as the code uses it

    Paths are their POSIX strings.  A file system is what the process can see of
    it: the contents of the regular files that can be opened, the entries of the
    directories in the order [directory_iterator] yields them, and the paths that
    can be opened for writing.  [walk] is the traversal that
    [DiskFileFetcher::construct_file_descriptors] and
    [FileEncoder::encode_directory] share: a stack of directories, a visitor for
    the files. *)

From S2P Require Import Prelude Effects.

(** ** Paths *)

Definition SLASH : ascii := "/"%char.

(** The position after the last ["/"]. *)
Fixpoint after_last_slash (p acc : str) : str :=
  match p with
  | [] => acc
  | c :: p' => after_last_slash p' (if decide (c = SLASH) then p' else acc)
  end.

(** [path::filename]: what follows the last separator. *)
Definition filename (p : str) : str := after_last_slash p p.

(** The last occurrence of a character. *)
Fixpoint rfind (c : ascii) (s : str) : option nat :=
  match s with
  | [] => None
  | c' :: s' =>
    match rfind c s' with
    | Some i => Some (S i)
    | None => if decide (c = c') then Some 0 else None
    end
  end.

(** [path::extension]: from the last dot of the filename, unless that is its
    first character or the filename is ["."] or [".."]. *)
Definition extension (p : str) : str :=
  let f := filename p in
  if decide (f = $".") then [] else if decide (f = $"..") then []
  else match rfind "."%char f with
       | None | Some 0 => []
       | Some i => drop i f
       end.

(** [operator/=]: an absolute right side replaces; a separator is added if the
    left side has a filename. *)
Definition path_append (p q : str) : str :=
  match q with
  | c :: _ => if decide (c = SLASH) then q
              else if decide (filename p = []) then p ++ q else p ++ SLASH :: q
  | [] => if decide (filename p = []) then p else p ++ [SLASH]
  end.

(** [path::parent_path] of a path with a filename, below the root directory:
    what precedes the separator before the filename. *)
Definition parent_path (p : str) : str :=
  match rfind SLASH p with
  | None => []
  | Some 0 => [SLASH]
  | Some i => take i p
  end.

(** ** The file system *)

Record FS : Type := mk_FS {
  fs_files : gmap str str;                      (** regular files *)
  fs_dirs : gmap str (list (str * bool));       (** name, [is_directory()] *)
  fs_writable : str → bool }.

(** [std::ifstream] and its whole contents; nothing if it does not open. *)
Definition read_stream (fs : FS) (p : str) : str := default [] (fs_files fs !! p).

(** [std::filesystem::file_size]. *)
Definition file_size (fs : FS) (p : str) : outcome nat :=
  match fs_files fs !! p with Some c => Ret (length c) | None => Throw filesystem_error end.

Definition write_file (p content : str) (fs : FS) : FS :=
  mk_FS (<[p := content]> (fs_files fs)) (fs_dirs fs) (fs_writable fs).

(** [std::filesystem::directory_iterator]. *)
Definition directory_iterator (fs : FS) (dir : str) : outcome (list (str * bool)) :=
  match fs_dirs fs !! dir with Some es => Ret es | None => Throw filesystem_error end.

(** What a directory stream never yields: empty names and names with a
    separator. *)
Definition name_ok (n : str) : Prop := n ≠ [] ∧ Forall (.≠ SLASH) n.
Definition FS_ok (fs : FS) : Prop :=
  map_Forall (λ d es, filename d ≠ [] ∧ Forall (λ e, name_ok e.1) es) (fs_dirs fs).

(** [directory_iterator] skips the entries ["."] and [".."]. *)
Definition FS_dotless (fs : FS) : Prop :=
  map_Forall (λ _ es, Forall (λ e : str * bool, e.1 ≠ $"." ∧ e.1 ≠ $"..") es) (fs_dirs fs).

(** ** Traversal *)

Section walk.
Context {S : Type}.
(** [visit dir name] handles a file. *)
Context (visit : str → str → M S ()).

(** The [for] loop over one directory: subdirectories are pushed. *)
Fixpoint walk_entries (dir : str) (es : list (str * bool)) (stack : list str) (s : S) :
    outcome (list str * S) :=
  match es with
  | [] => Ret (stack, s)
  | (n, is_directory) :: es =>
    if is_directory : bool then walk_entries dir es (path_append dir n :: stack) s
    else '(_, s) ← visit dir n s; walk_entries dir es stack s
  end.

(** The [while] loop over the stack of directories. *)
Fixpoint walk_loop (fuel : nat) (fs : FS) (stack : list str) (s : S) : outcome S :=
  match stack with
  | [] => Ret s
  | dir :: stack =>
    match fuel with
    | 0 => NoFuel
    | Datatypes.S fuel =>
      es ← directory_iterator fs dir;
      '(stack, s) ← walk_entries dir es stack s;
      walk_loop fuel fs stack s
    end
  end.
End walk.

(** The number of directories below a path, to a given depth. *)
Fixpoint tree_size (depth : nat) (fs : FS) (dir : str) : nat :=
  match depth with
  | 0 => 1
  | S depth =>
    match fs_dirs fs !! dir with
    | None => 1
    | Some es => S (sum_list_with (λ e : str * bool,
        if e.2 then tree_size depth fs (path_append dir e.1) else 0) es)
    end
  end.

(** No directory lies deeper than the longest path is long. *)
Definition max_path (fs : FS) : nat := max_list (length <$> (map_to_list (fs_dirs fs)).*1).

Definition walk {S} (visit : str → str → M S ()) (fs : FS) (root : str) (s : S) : outcome S :=
  walk_loop visit (tree_size (Datatypes.S (max_path fs)) fs root) fs [root] s.

(** ** What the traversal reaches *)

Inductive reachable_file (fs : FS) : str → str → str → Prop :=
  | reach_here dir es n :
      fs_dirs fs !! dir = Some es → (n, false) ∈ es → reachable_file fs dir dir n
  | reach_sub dir es n d f :
      fs_dirs fs !! dir = Some es → (n, true) ∈ es →
      reachable_file fs (path_append dir n) d f → reachable_file fs dir d f.

(** [p] is a file below [root]. *)
Definition file_below (fs : FS) (root p : str) : Prop :=
  ∃ dir n, reachable_file fs root dir n ∧ p = path_append dir n.

(** The paths of a list of files. *)
Definition visited (l : list (str * str)) : list str := (λ x, path_append x.1 x.2) <$> l.

(** Every directory entry can be listed. *)
Definition FS_closed (fs : FS) : Prop :=
  map_Forall (λ d es, Forall (λ e : str * bool,
    if e.2 then is_Some (fs_dirs fs !! path_append d e.1) else True) es) (fs_dirs fs).

(** ** Lemmas on paths *)

Lemma after_last_slash_name n acc : Forall (.≠ SLASH) n → after_last_slash n acc = acc.
Proof.
  intros H. revert acc. induction H as [|c n Hc _ IH]; intros acc; [done|].
  simpl. by rewrite decide_False.
Qed.

Lemma after_last_slash_app d n acc :
  Forall (.≠ SLASH) n → after_last_slash (d ++ SLASH :: n) acc = n.
Proof.
  intros H. revert acc. induction d as [|c d IH]; intros acc; simpl; [|done].
  by apply after_last_slash_name.
Qed.

Lemma filename_app d n : Forall (.≠ SLASH) n → filename (d ++ SLASH :: n) = n.
Proof. intros H. by apply after_last_slash_app. Qed.

Lemma path_append_name d n :
  filename d ≠ [] → name_ok n → path_append d n = d ++ SLASH :: n.
Proof.
  intros Hd [Hn Hs]. destruct n as [|c n]; [done|]. unfold path_append.
  apply Forall_cons in Hs as [Hc _]. by rewrite !decide_False.
Qed.

Lemma filename_append d n : filename d ≠ [] → name_ok n → filename (path_append d n) = n.
Proof. intros ? Hn. rewrite path_append_name by done. apply filename_app, Hn. Qed.

Lemma rfind_None c s : Forall (.≠ c) s → rfind c s = None.
Proof.
  induction 1 as [|c' s Hc _ IH]; [done|]. simpl. rewrite IH. by rewrite decide_False.
Qed.

Lemma rfind_app c s t : Forall (.≠ c) t → rfind c (s ++ c :: t) = Some (length s).
Proof.
  intros H. induction s as [|c' s IH]; simpl; [|by rewrite IH].
  rewrite rfind_None by done. by rewrite decide_True.
Qed.

Lemma parent_path_append d n :
  d ≠ [] → filename d ≠ [] → name_ok n → parent_path (path_append d n) = d.
Proof.
  intros Hd Hf Hn. rewrite path_append_name by done. unfold parent_path.
  rewrite rfind_app by apply Hn. destruct d as [|c d]; [done|]. cbn [length].
  apply (take_app_length (c :: d)).
Qed.

Lemma extension_name_app stem ext :
  stem ≠ [] → Forall (.≠ SLASH) stem → Forall (λ c, c ≠ SLASH ∧ c ≠ "."%char) ext →
  stem ++ "."%char :: ext ≠ $".." → extension (stem ++ "."%char :: ext) = "."%char :: ext.
Proof.
  intros Hne Hs He Hdd. unfold extension.
  assert (Hf : filename (stem ++ "."%char :: ext) = stem ++ "."%char :: ext).
  { apply after_last_slash_name, Forall_app. split; [done|]. constructor; [done|].
    eapply Forall_impl; [exact He|]. by intros ? [? _]. }
  rewrite Hf, decide_False, decide_False by (done || by destruct stem as [|? [|]]).
  rewrite rfind_app by (eapply Forall_impl; [exact He|]; by intros ? [_ ?]).
  destruct stem as [|c stem]; [done|]. cbn [length]. apply (drop_app_length (c :: stem)).
Qed.

(** The extension is the end of the path. *)
Lemma after_last_slash_suffix p acc :
  after_last_slash p acc = acc ∨ after_last_slash p acc `suffix_of` p.
Proof.
  revert acc. induction p as [|c p IH]; intros acc; [by left|]. cbn [after_last_slash].
  case_decide as Hc.
  - right. destruct (IH p) as [-> |H]; by apply suffix_cons_r.
  - destruct (IH acc) as [H|H]; [by left|right]. by apply suffix_cons_r.
Qed.

Lemma filename_suffix p : filename p `suffix_of` p.
Proof. by destruct (after_last_slash_suffix p p) as [H|H]; unfold filename; [rewrite H|]. Qed.

Lemma extension_suffix p : extension p `suffix_of` p.
Proof.
  unfold extension. repeat case_decide; [apply suffix_nil..|].
  destruct (rfind _ (filename p)) as [[|i]|]; [apply suffix_nil| |apply suffix_nil].
  etrans; [apply suffix_drop|apply filename_suffix].
Qed.

(** ** What the traversal does *)

Definition subdirs (dir : str) (es : list (str * bool)) : list str :=
  path_append dir <$> (filter (λ e : str * bool, e.2 = true) es).*1.
Definition dirfiles (dir : str) (es : list (str * bool)) : list (str * str) :=
  (λ n, (dir, n)) <$> (filter (λ e : str * bool, e.2 = false) es).*1.

Lemma in_subdirs dir es d : d ∈ subdirs dir es ↔ ∃ n, (n, true) ∈ es ∧ d = path_append dir n.
Proof.
  unfold subdirs. rewrite list_elem_of_fmap. split.
  - intros (n & -> & ([? [|]] & -> & [? ?]%list_elem_of_filter)%list_elem_of_fmap); naive_solver.
  - intros (n & Hn & ->). exists n. split; [done|]. apply list_elem_of_fmap. exists (n, true).
    split; [done|]. by apply list_elem_of_filter.
Qed.

Lemma in_dirfiles dir es d f : (d, f) ∈ dirfiles dir es ↔ d = dir ∧ (f, false) ∈ es.
Proof.
  unfold dirfiles. rewrite list_elem_of_fmap. split.
  - intros (n & [= -> ->] & ([? [|]] & -> & [? ?]%list_elem_of_filter)%list_elem_of_fmap);
      naive_solver.
  - intros (-> & Hn). exists f. split; [done|]. apply list_elem_of_fmap. exists (f, false).
    split; [done|]. by apply list_elem_of_filter.
Qed.

Section walk_lemmas.
Context {S : Type} (visit : str → str → M S ()).

(** Visiting a list of files in order. *)
Fixpoint visits (l : list (str * str)) (s : S) : outcome S :=
  match l with
  | [] => Ret s
  | (d, n) :: l => '(_, s) ← visit d n s; visits l s
  end.

Lemma visits_app l1 l2 s : visits (l1 ++ l2) s = visits l1 s ≫= visits l2.
Proof.
  revert s. induction l1 as [|[d n] l1 IH]; intros s; [done|]. cbn [app visits].
  destruct (visit d n s) as [[u s']| | | |]; [|done..]. cbn [mbind outcome_bind]. apply IH.
Qed.

Lemma walk_entries_spec dir es stack s :
  walk_entries visit dir es stack s =
  (s' ← visits (dirfiles dir es) s; Ret (reverse (subdirs dir es) ++ stack, s')).
Proof.
  revert stack s. induction es as [|[n [|]] es IH]; intros stack s; [done|..]; cbn [walk_entries].
  - rewrite IH. unfold subdirs, dirfiles. rewrite !filter_cons. simpl.
    by rewrite reverse_cons, <- (assoc_L (++)).
  - unfold subdirs, dirfiles in *. rewrite !filter_cons. simpl.
    destruct (visit dir n s) as [[u s']| | | |]; [|done..]. cbn [mbind outcome_bind]. by rewrite IH.
Qed.

(** A run that returns has visited exactly the files below its stack. *)
Lemma walk_loop_visits fs fuel stack s s' :
  walk_loop visit fuel fs stack s = Ret s' →
  ∃ l, visits l s = Ret s' ∧
    ∀ d f, (d, f) ∈ l ↔ ∃ root, root ∈ stack ∧ reachable_file fs root d f.
Proof.
  revert stack s. induction fuel as [|fuel IH]; intros [|dir stack] s; cbn [walk_loop]; try done.
  1-2: intros [= <-]; exists []; split; [done|]; intros d f;
    split; [by intros ?%not_elem_of_nil|by intros (? & ?%not_elem_of_nil & _)].
  intros (es & Hes & H)%outcome_bind_Ret_inv.
  apply outcome_bind_Ret_inv in H as ([stack' s1] & Hw & H).
  rewrite walk_entries_spec in Hw. apply outcome_bind_Ret_inv in Hw as (s2 & Hv & [= <- <-]).
  apply IH in H as (l & Hl & Hin). exists (dirfiles dir es ++ l). split.
  { by rewrite visits_app, Hv. }
  assert (Hd : fs_dirs fs !! dir = Some es).
  { unfold directory_iterator in Hes. by destruct (fs_dirs fs !! dir); simplify_eq. }
  intros d f. rewrite elem_of_app, in_dirfiles, Hin. split.
  - intros [[-> Hf]|(root & [Hr|Hr]%elem_of_app & Hreach)].
    + exists dir. split; [left|]. by eapply reach_here.
    + apply elem_of_reverse, in_subdirs in Hr as (n & Hn & ->).
      exists dir. split; [left|]. by eapply reach_sub.
    + exists root. split; [by right|done].
  - intros (root & [-> |Hr]%elem_of_cons & Hreach).
    + inversion Hreach; simplify_eq; [by left|]. right.
      eexists. split; [|done]. apply elem_of_app. left. apply elem_of_reverse, in_subdirs. eauto.
    + right. exists root. split; [|done]. apply elem_of_app. by right.
Qed.

(** From one directory, by paths. *)
Lemma walk_visits fs root s s' :
  walk visit fs root s = Ret s' →
  ∃ l, visits l s = Ret s' ∧ ∀ p, file_below fs root p ↔ p ∈ visited l.
Proof.
  intros (l & Hv & Hl)%walk_loop_visits. exists l. split; [done|]. intros p.
  unfold file_below, visited. rewrite list_elem_of_fmap. split.
  - intros (dir & n & Hr & ->). exists (dir, n). split; [done|]. apply Hl.
    exists root. split; [by left|done].
  - intros ([dir n] & -> & (r & Hr & Hreach)%Hl). apply list_elem_of_singleton in Hr as ->.
    by exists dir, n.
Qed.
End walk_lemmas.

(** ** The traversal ends *)

Lemma max_path_ge fs d es : fs_dirs fs !! d = Some es → length d ≤ max_path fs.
Proof.
  intros H. unfold max_path. apply max_list_elem_of_le, list_elem_of_fmap. exists d.
  split; [done|]. apply list_elem_of_fmap. exists (d, es). by rewrite elem_of_map_to_list.
Qed.

(** A stack whose directories carry depths that outlast the longest path. *)
Definition deep_enough (fs : FS) (stk : list (str * nat)) : Prop :=
  Forall (λ x, max_path fs < length x.1 + x.2) stk.

Definition stack_size (fs : FS) (stk : list (str * nat)) : nat :=
  sum_list_with (λ x, tree_size x.2 fs x.1) stk.

Lemma tree_size_pos k fs d : 1 ≤ tree_size k fs d.
Proof. destruct k; simpl; [lia|]. destruct (fs_dirs fs !! d); lia. Qed.

Lemma tree_size_subdirs fs d es k :
  fs_dirs fs !! d = Some es →
  tree_size (S k) fs d = S (sum_list_with (tree_size k fs) (subdirs d es)).
Proof.
  intros H. cbn [tree_size]. rewrite H. f_equal. clear H. unfold subdirs.
  induction es as [|[n [|]] es IH]; [done|..]; rewrite filter_cons; simpl; [by rewrite IH|done].
Qed.

Lemma sum_list_with_fmap {A B} (f : B → nat) (g : A → B) l :
  sum_list_with f (g <$> l) = sum_list_with (λ x, f (g x)) l.
Proof. induction l as [|x l IH]; [done|]. cbn. by rewrite IH. Qed.

Lemma stack_size_push fs d es k stk :
  fs_dirs fs !! d = Some es →
  S (stack_size fs (((., k) <$> reverse (subdirs d es)) ++ stk)) =
  stack_size fs ((d, S k) :: stk).
Proof.
  intros Hd. unfold stack_size. rewrite sum_list_with_app.
  cbn [sum_list_with fst snd]. rewrite (tree_size_subdirs _ _ es) by done.
  by rewrite <- (sum_list_with_reverse (tree_size k fs)), sum_list_with_fmap.
Qed.

Section walk_ends.
Context {S : Type} (visit : str → str → M S ()) (Q : exn → Prop) (fs : FS).
Context (Hvisit : ∀ d n s, exits_only Q (visit d n s)).
Context (HQ : Q filesystem_error) (Hfs : FS_ok fs).

Lemma exits_visits l s : exits_only Q (visits visit l s).
Proof using Hvisit.
  revert s. induction l as [|[d n] l IH]; intros s; [done|].
  apply exits_only_bind; [apply Hvisit|]. intros [u s'] _. apply IH.
Qed.

Lemma deep_enough_push d k es stk :
  fs_dirs fs !! d = Some es → deep_enough fs ((d, Datatypes.S k) :: stk) →
  deep_enough fs (((., k) <$> reverse (subdirs d es)) ++ stk).
Proof using Hfs.
  intros Hd [Hk Hstk]%Forall_cons. apply Forall_app. split; [|done].
  apply Forall_fmap, Forall_forall. intros p Hp.
  rewrite elem_of_reverse in Hp. apply in_subdirs in Hp as (n & Hn & ->). simpl in *.
  destruct (Hfs d es Hd) as [Hf Hes].
  pose proof (proj1 (Forall_forall _ _) Hes _ Hn) as Hok. simpl in Hok.
  rewrite path_append_name by done. rewrite length_app. simpl. lia.
Qed.

Lemma exits_walk_loop fuel stk s :
  deep_enough fs stk → stack_size fs stk ≤ fuel →
  exits_only Q (walk_loop visit fuel fs stk.*1 s).
Proof using Hvisit HQ Hfs.
  revert stk s. induction fuel as [|fuel IH]; intros [|[d k] stk] s Hdeep Hsize; try done.
  { unfold stack_size in Hsize. simpl in Hsize. pose proof (tree_size_pos k fs d). lia. }
  cbn [fmap list_fmap fst walk_loop]. unfold directory_iterator.
  destruct (fs_dirs fs !! d) as [es|] eqn:Hd; [|done]. cbn [mbind outcome_bind].
  rewrite walk_entries_spec.
  apply exits_only_bind; [apply exits_only_bind; [apply exits_visits|done]|].
  intros [stack' s'] (s'' & _ & [= <- <-])%outcome_bind_Ret_inv.
  assert (Hk : ∃ k', k = Datatypes.S k').
  { apply Forall_cons in Hdeep as [Hk _]. apply max_path_ge in Hd. simpl in Hk.
    destruct k as [|k']; [lia|eauto]. }
  destruct Hk as [k' ->].
  replace (reverse (subdirs d es) ++ stk.*1)
    with (((., k') <$> reverse (subdirs d es)) ++ stk).*1.
  - apply IH; [by apply deep_enough_push|].
    rewrite <- (stack_size_push fs d es) in Hsize by done. lia.
  - by rewrite fmap_app, <- list_fmap_compose, list_fmap_id.
Qed.

(** The fuel [walk] passes is enough: the traversal never runs out of it. *)
Lemma exits_walk root s : exits_only Q (walk visit fs root s).
Proof using Hvisit HQ Hfs.
  apply (exits_walk_loop _ [(root, Datatypes.S (max_path fs))]).
  - constructor; [simpl; lia|constructor].
  - unfold stack_size. simpl. lia.
Qed.

(** On a closed file system nothing throws if no visit of a file below the stack
    does; [P] is an invariant of the visits. *)
Lemma visits_return (P : S → Prop) l s :
  (∀ d n s, (d, n) ∈ l → P s → ∃ s', visit d n s = Ret ((), s') ∧ P s') → P s →
  ∃ s', visits visit l s = Ret s' ∧ P s'.
Proof using.
  clear. revert s. induction l as [|[d n] l IH]; intros s Hv Hs; [by exists s|]. cbn [visits].
  destruct (Hv d n s) as (s1 & -> & Hs1); [by left|done|]. cbn [mbind outcome_bind].
  apply IH; [|done]. intros d' n' s' Hin. apply Hv. by right.
Qed.

Lemma walk_loop_returns (P : S → Prop) fuel stack s :
  (∀ root d n s, root ∈ stack → reachable_file fs root d n → P s →
     ∃ s', visit d n s = Ret ((), s') ∧ P s') →
  FS_closed fs → Forall (λ d, is_Some (fs_dirs fs !! d)) stack → P s →
  walk_loop visit fuel fs stack s ≠ NoFuel → ∃ s', walk_loop visit fuel fs stack s = Ret s'.
Proof using.
  clear Hvisit HQ Hfs. intros Hv Hcl. revert stack s Hv.
  induction fuel as [|fuel IH]; intros [|d stack] s Hv Hst Hs; cbn [walk_loop]; eauto; [done|].
  apply Forall_cons in Hst as [[es Hd] Hst].
  unfold directory_iterator. rewrite Hd. cbn [mbind outcome_bind]. rewrite walk_entries_spec.
  destruct (visits_return P (dirfiles d es) s) as (s1 & -> & Hs1); [|done|].
  { intros d' n s' [-> Hn]%in_dirfiles. apply (Hv d); [by left|]. by eapply reach_here. }
  cbn [mbind outcome_bind]. apply IH; [| |done].
  - intros root d' n s' [Hr|Hr]%elem_of_app Hreach.
    + apply elem_of_reverse, in_subdirs in Hr as (m & Hm & ->).
      apply (Hv d); [by left|]. by eapply reach_sub.
    + apply (Hv root); [by right|done].
  - apply Forall_app. split; [|done]. apply Forall_forall. intros p Hp.
    rewrite elem_of_reverse in Hp. apply in_subdirs in Hp as (n & Hn & ->).
    exact (proj1 (Forall_forall _ _) (Hcl d es Hd) _ Hn).
Qed.
End walk_ends.

(** ** The shape of reachable paths *)

(** ["/a/b/c"] for the components a, b, c. *)
Definition components_path (ns : list str) : str := mjoin (cons SLASH <$> ns).

Definition component_ok (n : str) : Prop := name_ok n ∧ n ≠ $"." ∧ n ≠ $"..".

Lemma component_ok_entry fs d es n b :
  FS_ok fs → FS_dotless fs → fs_dirs fs !! d = Some es → (n, b) ∈ es →
  filename d ≠ [] ∧ component_ok n.
Proof.
  intros Hok Hdot Hd Hn. destruct (Hok d es Hd) as [Hf Hes]. split; [done|].
  pose proof (proj1 (Forall_forall _ _) Hes _ Hn) as Hname.
  pose proof (proj1 (Forall_forall _ _) (Hdot d es Hd) _ Hn) as [? ?]. done.
Qed.

Lemma reachable_components fs root d f :
  FS_ok fs → FS_dotless fs → reachable_file fs root d f →
  ∃ ns, ns ≠ [] ∧ Forall component_ok ns ∧ path_append d f = root ++ components_path ns.
Proof.
  intros Hok Hdot. induction 1 as [d es n Hd Hn|d es n d' f Hd Hn _ (ns & Hne & Hns & IH)].
  - destruct (component_ok_entry fs d es n false) as [Hf Hc]; [done..|].
    exists [n]. split_and!; [done|by constructor|].
    rewrite path_append_name by (done || apply Hc).
    unfold components_path. by rewrite mjoin_fmap_cons, app_nil_r.
  - destruct (component_ok_entry fs d es n true) as [Hf Hc]; [done..|].
    exists (n :: ns). split_and!; [done|by constructor|].
    rewrite IH, path_append_name by (done || apply Hc).
    unfold components_path. by rewrite mjoin_fmap_cons, <- !(assoc_L (++)).
Qed.

(** ** An example: a directory with a page, an image and a subdirectory *)

Definition example_fs : FS :=
  mk_FS (<[$"../webdir/a.html" := $"<p>hi</p>"]> {[$"../webdir/sub/b.css" := $"p{}"]})
    (<[$"../webdir" := [($"a.html", false); ($"sub", true)]]>
       {[$"../webdir/sub" := [($"b.css", false)]]})
    (λ _, true).

Lemma example_fs_ok : FS_ok example_fs.
Proof.
  apply map_Forall_insert_2; [|apply map_Forall_singleton]; (split; [done|]);
    repeat constructor; done.
Qed.

Lemma example_fs_dotless : FS_dotless example_fs.
Proof.
  apply map_Forall_insert_2; [|apply map_Forall_singleton]; repeat constructor; done.
Qed.

Lemma example_fs_closed : FS_closed example_fs.
Proof.
  apply map_Forall_insert_2; [|apply map_Forall_singleton]; repeat constructor; by eexists.
Qed.

Lemma example_files_readable root dir n :
  reachable_file example_fs root dir n → is_Some (fs_files example_fs !! path_append dir n).
Proof.
  assert (Hd : ∀ d es, fs_dirs example_fs !! d = Some es →
    (d = $"../webdir" ∧ es = [($"a.html", false); ($"sub", true)]) ∨
    (d = $"../webdir/sub" ∧ es = [($"b.css", false)])).
  { intros d es H. unfold example_fs in H. cbn [fs_dirs] in H.
    apply lookup_insert_Some in H as [[<- <-]|[_ [<- <-]%lookup_singleton_Some]]; auto. }
  induction 1 as [dir es n H Hn|]; [|done]. apply list_elem_of_In in Hn.
  destruct (Hd dir es H) as [[-> ->]|[-> ->]]; cbn in Hn; intuition simplify_eq; by eexists.
Qed.
