(* ===== verification/ContentCoding.v ===== *)
(** * Content coding

    [src/simpleserv/utility/content_coding.cpp]: compressing one file with
    Brotli, and every web file below a directory.  [BrotliEncoderCompress] is the
    encoder of libbrotli, a parameter: for an input and the size of the output
    buffer it fails or returns the buffer and the number of bytes it encoded. *)

From S2P Require Import Prelude Effects FileSystem.

Section content_coding.
Context (BrotliEncoderCompress : str → nat → option (str * nat)).

Definition write_to_file (output_path output_data : str) : M FS bool :=
  fs ← get;
  if fs_writable fs output_path then
    _ ← put (write_file output_path output_data fs); mret true
  else mret false.

(** [Brotli::encode]; the empty path is the failure. *)
Definition Brotli_encode (path : str) : M FS str :=
  fs ← get;
  _ ← liftO (file_size fs path);
  let input := read_stream fs path in
  match BrotliEncoderCompress input (length input) with
  | Some (output_data, output_size) =>
      let output_path := path ++ $".br" in
      ok ← write_to_file output_path output_data;
      if ok : bool then mret output_path else mret []
  | None => mret []
  end.

(** The body of the loop of [FileEncoder::encode_directory] for a file. *)
Definition encode_entry (current_directory name : str) : M FS () :=
  let ext := extension (path_append current_directory name) in
  if decide (ext = $".html" ∨ ext = $".css" ∨ ext = $".js") then
    _ ← Brotli_encode (path_append current_directory name); mret ()
  else mret ().

(** Directory listings are those of the call: the files written during it are not
    listed again (they would be skipped for their extension). *)
Definition encode_directory (path : str) : M FS () :=
  fs ← get; fs' ← liftO (walk encode_entry fs path fs); put fs'.
End content_coding.

(** The contract of [BrotliEncoderCompress]: the buffer keeps its size and the
    encoded bytes are a prefix of it. *)
Class BrotliSpec (compress : str → nat → option (str * nat)) : Prop :=
  brotli_buffer input cap buf size :
    compress input cap = Some (buf, size) → length buf = cap ∧ size ≤ cap.

Section properties.
Context (compress : str → nat → option (str * nat)).
Implicit Types (fs : FS) (p : str).

Lemma Brotli_encode_run fs p c :
  fs_files fs !! p = Some c →
  Brotli_encode compress p fs =
  match compress c (length c) with
  | Some (buf, _) =>
      if fs_writable fs (p ++ $".br") then Ret (p ++ $".br", write_file (p ++ $".br") buf fs)
      else Ret ([], fs)
  | None => Ret ([], fs)
  end.
Proof.
  intros H. unfold Brotli_encode, write_to_file, mbind, M_bind; simpl.
  unfold file_size, read_stream, liftO. rewrite H. cbn.
  destruct (compress c (length c)) as [[buf n]|]; [|done]. cbn.
  by destruct (fs_writable fs (p ++ _)).
Qed.

Lemma Brotli_encode_missing fs p :
  fs_files fs !! p = None → Brotli_encode compress p fs = Throw filesystem_error.
Proof.
  intros H. unfold Brotli_encode, mbind, M_bind; simpl.
  unfold file_size, liftO. by rewrite H.
Qed.
End properties.

(** Encoding a file writes the encoder's whole output buffer: the new file is as
    long as the original, whatever the encoder saved, and the encoded stream is
    only a prefix of it. *)
Lemma Brotli_encode_padded compress `{!BrotliSpec compress} (fs fs' : FS) (p q c : str) :
  fs_files fs !! p = Some c → Brotli_encode compress p fs = Ret (q, fs') → q ≠ [] →
  ∃ buf size, compress c (length c) = Some (buf, size) ∧ q = p ++ $".br" ∧
    fs_files fs' = <[q := buf]> (fs_files fs) ∧
    length buf = length c ∧ size ≤ length c ∧ buf = take size buf ++ drop size buf.
Proof.
  intros Hc. rewrite (Brotli_encode_run _ _ _ c) by done.
  destruct (compress c (length c)) as [[buf n]|] eqn:Hb; [|by intros [= <- <-]].
  destruct (fs_writable _ _); intros [= <- <-] Hq; [|done].
  destruct (brotli_buffer c _ _ _ Hb) as [Hlen Hn]. exists buf, n.
  by rewrite take_drop.
Qed.

(** An encoder that keeps to the contract, for the examples: it saves half. *)
Definition half_encoder (input : str) (cap : nat) : option (str * nat) :=
  Some (replicate cap "z"%char, Nat.div2 cap).

#[export] Instance half_encoder_spec : BrotliSpec half_encoder.
Proof.
  intros input cap buf size [= <- <-]. split; [apply length_replicate|apply Nat.div2_decr; lia].
Qed.

Lemma Brotli_encode_padded_witness :
  ∃ buf size, half_encoder ($"p{}") 3 = Some (buf, size) ∧ length buf = 3 ∧ size = 1 ∧
    fs_files (write_file ($"../webdir/sub/b.css.br") ($"zzz") example_fs) =
    <[$"../webdir/sub/b.css.br" := buf]> (fs_files example_fs).
Proof.
  destruct (Brotli_encode_padded half_encoder example_fs
    (write_file ($"../webdir/sub/b.css.br") ($"zzz") example_fs)
    ($"../webdir/sub/b.css") ($"../webdir/sub/b.css.br") ($"p{}"))
    as (buf & size & H & _ & Hf & Hl & _); [reflexivity|vm_compute; reflexivity|discriminate|].
  exists buf, size. split_and!; [exact H|exact Hl|by injection H as _ <-|exact Hf].
Defined.

(** ** Encoding a directory *)

(** The extensions [encode_directory] looks for. *)
Definition web_file (p : str) : Prop :=
  extension p = $".html" ∨ extension p = $".css" ∨ extension p = $".js".

#[export] Instance web_file_dec p : Decision (web_file p) := _.

(** What is written next to the file [p], if anything is. *)
Definition brotli_of (compress : str → nat → option (str * nat)) (fs : FS) (p : str) : option str :=
  if decide (web_file p) then
    c ← fs_files fs !! p;
    '(buf, _) ← compress c (length c);
    if fs_writable fs (p ++ $".br") then Some buf else None
  else None.

(** No output is an input. *)
Lemma web_file_not_br p q : web_file p → p ≠ q ++ $".br".
Proof.
  intros Hw ->. destruct (extension_suffix (q ++ $".br")) as [k Hk].
  assert (Hl : last (q ++ $".br") = last (extension (q ++ $".br"))).
  { rewrite Hk at 1. destruct Hw as [-> |[-> | ->]]; by rewrite last_app. }
  rewrite last_app in Hl. by destruct Hw as [E|[E|E]]; rewrite E in Hl.
Qed.

Section encode_directory.
Context (compress : str → nat → option (str * nat)) (fs : FS).

(** The files may differ from those of [fs] in the outputs. *)
Definition inputs_kept (s : FS) : Prop :=
  fs_dirs s = fs_dirs fs ∧ fs_writable s = fs_writable fs ∧
  ∀ p, web_file p → fs_files s !! p = fs_files fs !! p.

Lemma encode_entry_run dir n s :
  let p := path_append dir n in
  inputs_kept s → (web_file p → is_Some (fs_files fs !! p)) →
  encode_entry compress dir n s =
    Ret ((), match brotli_of compress fs p with Some buf => write_file (p ++ $".br") buf s | None => s end).
Proof.
  intros p (Hd & Hw & Hf) Hr. unfold encode_entry, brotli_of. fold p.
  destruct (decide (web_file p)) as [Hweb|Hweb].
  - destruct (Hr Hweb) as [c Hc]. rewrite decide_True by done. rewrite Hc. cbn [mbind option_bind].
    rewrite <- (Hf p Hweb) in Hc. unfold mbind at 1, M_bind. rewrite (Brotli_encode_run _ _ _ c Hc).
    destruct (compress c (length c)) as [[buf k]|]; [|done]. rewrite Hw.
    by destruct (fs_writable fs (p ++ $".br")).
  - by rewrite decide_False.
Qed.

Lemma inputs_kept_write p buf s : inputs_kept s → inputs_kept (write_file (p ++ $".br") buf s).
Proof.
  intros (Hd & Hw & Hf). split_and!; [done..|]. intros q Hq. cbn.
  rewrite lookup_insert_ne; [by apply Hf|]. intros E. by apply (web_file_not_br q p).
Qed.

Lemma encode_entry_kept dir n s :
  inputs_kept s → (web_file (path_append dir n) → is_Some (fs_files fs !! path_append dir n)) →
  ∃ s', encode_entry compress dir n s = Ret ((), s') ∧ inputs_kept s'.
Proof.
  intros Hs Hr. rewrite encode_entry_run by done. eexists. split; [done|].
  destruct (brotli_of _ _ _); [by apply inputs_kept_write|done].
Qed.

(** The files after a list of files has been visited. *)
Lemma visits_encode l s s' :
  inputs_kept s → (∀ p, p ∈ visited l → web_file p → is_Some (fs_files fs !! p)) →
  visits (encode_entry compress) l s = Ret s' →
  (∀ p buf, p ∈ visited l → brotli_of compress fs p = Some buf →
     fs_files s' !! (p ++ $".br") = Some buf) ∧
  (∀ q, (∀ p, p ∈ visited l → q = p ++ $".br" → brotli_of compress fs p = None) →
     fs_files s' !! q = fs_files s !! q).
Proof.
  revert s. induction l as [|[dir n] l IH]; intros s Hs Hr; cbn [visits].
  { intros [= <-]. split; [by intros p buf ?%not_elem_of_nil|done]. }
  rewrite encode_entry_run by (try apply Hr; (done || by left)). cbn [mbind outcome_bind].
  set (p0 := path_append dir n). set (s1 := match brotli_of _ _ _ with Some _ => _ | None => _ end).
  intros H. destruct (IH s1) as [Hin Hout]; [| |done|].
  { unfold s1. destruct (brotli_of _ _ _); [by apply inputs_kept_write|done]. }
  { intros p Hp. apply Hr. by right. }
  split.
  - intros p buf Hp Hb. destruct (decide (p ∈ visited l)) as [Hl|Hl]; [by apply Hin|].
    assert (p = p0) as -> by (by apply elem_of_cons in Hp as [?|?]).
    rewrite Hout. { unfold s1. fold p0. rewrite Hb. apply lookup_insert_eq. }
    by intros p Hp' <-%app_inv_tail.
  - intros q Hq. rewrite Hout by (intros p Hp; apply Hq; by right).
    unfold s1. fold p0. destruct (brotli_of compress fs p0) as [buf|] eqn:Hb; [|done].
    cbn. apply lookup_insert_ne. intros <-. rewrite Hq in Hb; [done|by left|done].
Qed.
End encode_directory.

(** A visit returns, or throws what [file_size] does. *)
Lemma exits_encode (Q : exn → Prop) compress d n s :
  Q filesystem_error → exits_only Q (encode_entry compress d n s).
Proof.
  intros HQ. unfold encode_entry. case_decide; [|done]. apply exits_only_M_bind; [|done].
  destruct (fs_files s !! path_append d n) as [c|] eqn:Hc.
  - rewrite (Brotli_encode_run _ _ _ c Hc). destruct (compress c (length c)) as [[]|]; [|done].
    by destruct (fs_writable _ _).
  - by rewrite Brotli_encode_missing.
Qed.

Lemma encode_directory_walk compress fs root :
  encode_directory compress root fs = (fs' ← walk (encode_entry compress) fs root fs; Ret ((), fs')).
Proof.
  unfold encode_directory, mbind at 1 2, M_bind, get, liftO. simpl mbind at 1.
  by destruct (walk (encode_entry compress) fs root fs).
Qed.

(** C25: [encode_directory] is totally correct.  On a file system whose
    directories can be listed and whose web files can be read it returns; for
    every html, css or js file below the directory, at any depth, that the encoder
    encodes, the encoder's buffer is then in the file with [.br] appended to its
    name, if that can be written; every other file is as it was, the encoded ones
    included. *)
Theorem encode_directory_correct compress (fs : FS) (root : str) :
  FS_ok fs → FS_closed fs → is_Some (fs_dirs fs !! root) →
  (∀ p, file_below fs root p → web_file p → is_Some (fs_files fs !! p)) →
  ∃ fs', encode_directory compress root fs = Ret ((), fs') ∧
    (∀ p buf, file_below fs root p → brotli_of compress fs p = Some buf →
       fs_files fs' !! (p ++ $".br") = Some buf) ∧
    (∀ q, (∀ p, file_below fs root p → q = p ++ $".br" → brotli_of compress fs p = None) →
       fs_files fs' !! q = fs_files fs !! q) ∧
    (∀ p, web_file p → fs_files fs' !! p = fs_files fs !! p).
Proof.
  intros Hok Hcl Hroot Hr. assert (Hk : inputs_kept fs fs) by done.
  assert (∃ fs', walk (encode_entry compress) fs root fs = Ret fs') as [fs' Hw].
  { apply (walk_loop_returns _ _ (inputs_kept fs)); [|done|by constructor|done|].
    - intros r d n s Hin Hreach Hs. apply encode_entry_kept; [done|]. apply Hr.
      apply list_elem_of_singleton in Hin as ->. by exists d, n.
    - intros Hfuel.
      pose proof (exits_walk (encode_entry compress) (λ _, True) fs
        (λ d n s, exits_encode _ compress d n s I) I Hok root fs) as He.
      unfold walk in He. by rewrite Hfuel in He. }
  exists fs'. rewrite encode_directory_walk, Hw. split; [done|].
  destruct (walk_visits _ _ _ _ _ Hw) as (l & Hv & Hl).
  destruct (visits_encode compress fs l fs fs' Hk) as [H1 H2]; [|done|].
  { intros p Hp. apply Hr. by apply Hl. }
  split_and!.
  - intros p buf Hp. apply H1. by apply Hl.
  - intros q Hq. apply H2. intros p Hp. apply Hq. by apply Hl.
  - intros p Hp. apply H2. intros p' _ E. by apply (web_file_not_br p p') in Hp.
Qed.

Lemma encode_directory_correct_witness :
  ∃ fs', encode_directory half_encoder ($"../webdir") example_fs = Ret ((), fs') ∧
    fs_files fs' !! ($"../webdir/a.html") = fs_files example_fs !! ($"../webdir/a.html").
Proof.
  destruct (encode_directory_correct half_encoder example_fs ($"../webdir")) as (fs' & H & _ & _ & Hf).
  - apply example_fs_ok.
  - apply example_fs_closed.
  - by eexists.
  - intros p (dir & n & Hr & ->) _. by eapply example_files_readable.
  - exists fs'. split; [exact H|]. apply Hf. left. vm_compute. reflexivity.
Defined.
