(* ===== verification/FileManager.v ===== *)
(** * The file manager

    [include/simpleserv/utility/file_manager.hpp] and
    [src/simpleserv/utility/file_manager.cpp]: file types and encodings, the
    fetcher that serves files from disk through its descriptors, the cache in
    front of it, and the manager that owns both.  The abstract class
    [FileFetcher<T,E>] is the type class [FileFetcher]; the cache is written and
    verified against it. *)

From S2P Require Import Prelude Effects Expected FileSystem ContentCoding.

(** ** Types and encodings *)

Module FileType.
Inductive t : Type :=
  | TEXT_HTML | TEXT_CSS | TEXT_JS | TEXT_PLAIN | IMAGE_PNG | IMAGE_SVG
  | FONT_TTF | FONT_WOFF | FONT_WOFF2.
#[global] Instance eq_dec : EqDecision t.
Proof. solve_decision. Defined.
End FileType.

Module FileEncoding.
Inductive t : Type := NONE | BROTLI | DEFLATE | GZIP.
#[global] Instance eq_dec : EqDecision t.
Proof. solve_decision. Defined.
Definition to_nat (e : t) : nat :=
  match e with NONE => 0 | BROTLI => 1 | DEFLATE => 2 | GZIP => 3 end.
Definition of_nat (n : nat) : t :=
  match n with 0 => NONE | 1 => BROTLI | 2 => DEFLATE | _ => GZIP end.
#[global] Program Instance countable : Countable t := inj_countable' to_nat of_nat _.
Next Obligation. by intros []. Qed.
End FileEncoding.

(** A constant [unordered_map]: [find] and [at] on its list of pairs. *)
Definition table_find {K V} `{EqDecision K} (k : K) (table : list (K * V)) : option V :=
  snd <$> head (filter (λ kv, kv.1 = k) table).

Definition file_type_map : list (FileType.t * str) :=
  [(FileType.TEXT_HTML, $"text/html"); (FileType.TEXT_CSS, $"text/css");
   (FileType.TEXT_JS, $"text/javascript"); (FileType.TEXT_PLAIN, $"text/plain");
   (FileType.IMAGE_PNG, $"image/png"); (FileType.IMAGE_SVG, $"image/svg+xml");
   (FileType.FONT_TTF, $"font/ttf"); (FileType.FONT_WOFF, $"font/woff");
   (FileType.FONT_WOFF2, $"font/woff2")].

Definition extension_map : list (str * FileType.t) :=
  [($".html", FileType.TEXT_HTML); ($".css", FileType.TEXT_CSS); ($".js", FileType.TEXT_JS);
   ($".png", FileType.IMAGE_PNG); ($".svg", FileType.IMAGE_SVG); ($".ttf", FileType.FONT_TTF);
   ($".woff", FileType.FONT_WOFF); ($".woff2", FileType.FONT_WOFF2)].

Definition file_encoding_map : list (FileEncoding.t * str) :=
  [(FileEncoding.NONE, []); (FileEncoding.BROTLI, $"br"); (FileEncoding.DEFLATE, $"deflate");
   (FileEncoding.GZIP, $"gzip")].

Definition encode_filetype (filename : str) : FileType.t :=
  let extension := extension filename in
  match table_find extension extension_map with Some t => t | None => FileType.TEXT_PLAIN end.

Definition decode_filetype (filetype : FileType.t) : str :=
  match table_find filetype file_type_map with Some s => s | None => $"text/plain" end.

Definition decode_file_encoding (file_encoding : FileEncoding.t) : str :=
  match table_find file_encoding file_encoding_map with Some s => s | None => [] end.

(** ** Descriptors and data *)

Record FileEntry : Type := mk_FileEntry { entry_path : str }.

Record FileDescriptor : Type := mk_FileDescriptor {
  fd_filename : str;
  fd_filetype : FileType.t;
  file_paths : gmap FileEncoding.t FileEntry }.

Record HTTPFileData : Type := mk_HTTPFileData {
  filetype : FileType.t; file_encoding : FileEncoding.t; content : str }.

Record CacheFileFetcherEntry (T : Type) : Type := mk_CacheEntry {
  ce_filename : str; ce_value : T }.
Arguments mk_CacheEntry {T} _ _.
Arguments ce_filename {T} _.
Arguments ce_value {T} _.

Definition create_file_cache_entry {T} (filename : str) (data : T) : CacheFileFetcherEntry T :=
  mk_CacheEntry filename data.
Definition from_file_cache_entry {T} (cache_entry : CacheFileFetcherEntry T) : T :=
  ce_value cache_entry.

Record FileManagerException : Type := mk_FileManagerException { message : str }.
Definition exception_what (e : FileManagerException) : str := message e.
Definition FileManagerNotFoundException (path : str) : FileManagerException :=
  mk_FileManagerException ($"Could not find the following file: " ++ path).

(** ** Fetchers *)

(** [FileFetcher<T,E>::get_file], on the files of the moment. *)
Class FileFetcher (F T E : Type) := get_file : FS → str → M F (expected T E).

(** A fetcher that always answers and that fetching does not change. *)
Class ReadOnlyFetcher (F T E : Type) `{FileFetcher F T E} : Prop :=
  get_file_read_only fs p (f : F) : ∃ r, get_file fs p f = Ret (r, f).

Record DiskFileFetcher : Type := mk_Disk { file_descriptors : gmap str FileDescriptor }.
Definition DiskFileFetcher_new : DiskFileFetcher := mk_Disk ∅.

(** The file of the loop of [construct_file_descriptors]. *)
Definition describe_entry (dir_path name : str) : M DiskFileFetcher () :=
  f ← get;
  let entry_path := path_append dir_path name in
  let filename := filename entry_path in
  let filetype := encode_filetype filename in
  put (mk_Disk (<[entry_path := mk_FileDescriptor filename filetype
         {[FileEncoding.NONE := mk_FileEntry entry_path]}]> (file_descriptors f))).

Definition construct_file_descriptors (fs : FS) (path : str) : M DiskFileFetcher () :=
  f ← get; f' ← liftO (walk describe_entry fs path f); put f'.

Section generate.
Context (BrotliEncoderCompress : str → nat → option (str * nat)).

Definition is_web_text (t : FileType.t) : Prop :=
  t = FileType.TEXT_HTML ∨ t = FileType.TEXT_CSS ∨ t = FileType.TEXT_JS.
#[global] Instance is_web_text_dec t : Decision (is_web_text t).
Proof. unfold is_web_text. apply _. Defined.

(** [file_descriptors\[path\].file_paths\[BROTLI\] = FileEntry{output_path}]. *)
Definition set_brotli (output_path : str) (d : FileDescriptor) : FileDescriptor :=
  mk_FileDescriptor (fd_filename d) (fd_filetype d)
    (<[FileEncoding.BROTLI := mk_FileEntry output_path]> (file_paths d)).

(** One round of the loop of [generate_encoded_files]. *)
Definition generate_encoded_file (path : str) : M (FS * DiskFileFetcher) () := λ '(fs, f),
  match file_descriptors f !! path with
  | None => Ret ((), (fs, f))
  | Some file_descriptor =>
    if decide (is_web_text (fd_filetype file_descriptor)) then
      let file_path := path_append (parent_path path) (fd_filename file_descriptor) in
      '(output_path, fs) ← Brotli_encode BrotliEncoderCompress file_path fs;
      if decide (output_path ≠ []) then
        Ret ((), (fs, mk_Disk (alter (set_brotli output_path) path (file_descriptors f))))
      else Ret ((), (fs, f))
    else Ret ((), (fs, f))
  end.

(** The loop, over the keys in the order [order] of the hash table. *)
Fixpoint generate_encoded_files (order : list str) : M (FS * DiskFileFetcher) () :=
  match order with
  | [] => mret ()
  | path :: order => _ ← generate_encoded_file path; generate_encoded_files order
  end.
End generate.

(** The path and the encoding a descriptor is served with; reading a missing
    [NONE] entry inserts an empty path into the local copy. *)
Definition choose_encoding (file_descriptor : FileDescriptor) : FileEncoding.t * str :=
  match file_paths file_descriptor !! FileEncoding.BROTLI with
  | Some e => (FileEncoding.BROTLI, entry_path e)
  | None =>
    (FileEncoding.NONE,
     match file_paths file_descriptor !! FileEncoding.NONE with
     | Some e => entry_path e | None => [] end)
  end.

#[export] Instance Disk_get_file : FileFetcher DiskFileFetcher HTTPFileData FileManagerException :=
  λ fs full_path f,
  match file_descriptors f !! full_path with
  | None => Ret (Unexpected (mk_FileManagerException ($"File not found: " ++ full_path)), f)
  | Some file_descriptor =>
    let '(file_encoding, actual_path) := choose_encoding file_descriptor in
    let content := read_stream fs actual_path in
    Ret (Expected (mk_HTTPFileData (fd_filetype file_descriptor) file_encoding content), f)
  end.

(** ** The cache *)

Record CacheFileFetcher (F T : Type) : Type := mk_Cache {
  file_fetcher : F; file_cache : gmap str (CacheFileFetcherEntry T) }.
Arguments mk_Cache {F T} _ _.
Arguments file_fetcher {F T} _.
Arguments file_cache {F T} _.

Definition max_cache_size_bytes : Z := 10000000.

#[export] Instance Cache_get_file {F T E} `{FileFetcher F T E} :
    FileFetcher (CacheFileFetcher F T) T E := λ fs full_path c,
  match file_cache c !! full_path with
  | Some file_cache_entry => Ret (Expected (from_file_cache_entry file_cache_entry), c)
  | None =>
    '(returned, f) ← get_file fs full_path (file_fetcher c);
    match returned with
    | Expected v =>
      let file_cache := <[full_path := create_file_cache_entry full_path v]> (file_cache c) in
      match file_cache !! full_path with
      | Some file_cache_entry =>
          Ret (Expected (from_file_cache_entry file_cache_entry), mk_Cache f file_cache)
      | None => Undef
      end
    | Unexpected e => Ret (Unexpected e, mk_Cache f (file_cache c))
    end
  end.

(** ** The manager *)

Abbreviation FileManager := (CacheFileFetcher DiskFileFetcher HTTPFileData).

Definition FileManager_new : FileManager := mk_Cache DiskFileFetcher_new ∅.

Definition FileManager_get_file (fs : FS) (full_path : str) :
    M FileManager (expected HTTPFileData FileManagerException) := get_file fs full_path.

Definition FileManager_get_file_in (fs : FS) (path filename : str) :
    M FileManager (expected HTTPFileData FileManagerException) := get_file fs (path ++ filename).

(** Members that forward to [file_fetcher.get_file_fetcher()]. *)
Definition FileManager_construct (fs : FS) (path : str) : M FileManager () := λ m,
  '(_, f) ← construct_file_descriptors fs path (file_fetcher m);
  Ret ((), mk_Cache f (file_cache m)).

Definition FileManager_generate compress (order : list str) : M (FS * FileManager) () :=
  λ '(fs, m),
  '(_, (fs, f)) ← generate_encoded_files compress order (fs, file_fetcher m);
  Ret ((), (fs, mk_Cache f (file_cache m))).

(** ** Extensions *)

Definition is_extension (s ext : str) : bool :=
  let len := length ext in
  if decide (length s < len) then false
  else bool_decide (take len (drop (length s - len) s) = ext).

Definition supported_extensions : list str :=
  [$".html"; $".js"; $".css"; $".png"; $".jpg"; $".svg"; $".ttf"; $".woff"; $".woff2"; $".ico"].

Definition is_supported_extension (s : str) : bool :=
  existsb (λ ext, is_extension s ext) supported_extensions.

(** ** The descriptors *)

(** The descriptor the traversal gives the file at [p]. *)
Definition descriptor_of (p : str) : FileDescriptor :=
  mk_FileDescriptor (filename p) (encode_filetype (filename p))
    {[FileEncoding.NONE := mk_FileEntry p]}.

Lemma choose_encoding_descriptor_of p :
  choose_encoding (descriptor_of p) = (FileEncoding.NONE, p).
Proof. done. Qed.

(** What a traversal does to descriptors: those of the files below [root] are
    set, the others kept. *)
Definition descriptors_set (P : str → Prop) (f f' : DiskFileFetcher) : Prop :=
  ∀ p d, file_descriptors f' !! p = Some d ↔
    (P p ∧ d = descriptor_of p) ∨ (¬ P p ∧ file_descriptors f !! p = Some d).

Lemma describe_entry_set dir n f :
  ∃ f', describe_entry dir n f = Ret ((), f') ∧ descriptors_set (.= path_append dir n) f f'.
Proof.
  exists (mk_Disk (<[path_append dir n := descriptor_of (path_append dir n)]>
    (file_descriptors f))).
  split; [done|]. intros p d. cbn [file_descriptors].
  destruct (decide (p = path_append dir n)) as [->|Hp].
  - rewrite lookup_insert_eq. naive_solver.
  - rewrite lookup_insert_ne by done. naive_solver.
Qed.

Lemma visits_describe l f :
  ∃ f', visits describe_entry l f = Ret f' ∧ descriptors_set (λ p, p ∈ visited l) f f'.
Proof.
  revert f. induction l as [|[dir n] l IH]; intros f; cbn [visits].
  { exists f. split; [done|]. intros p d. pose proof (not_elem_of_nil p). cbn. tauto. }
  destruct (describe_entry_set dir n f) as (f1 & -> & H1). cbn [mbind outcome_bind].
  destruct (IH f1) as (f' & Hf' & H'). exists f'. split; [done|].
  intros p d. rewrite (H' p d), (H1 p d). cbn. rewrite elem_of_cons.
  destruct (decide (p ∈ visited l)); destruct (decide (p = path_append dir n)); tauto.
Qed.

Lemma construct_file_descriptors_walk fs root f :
  construct_file_descriptors fs root f = (f' ← walk describe_entry fs root f; Ret ((), f')).
Proof.
  unfold construct_file_descriptors, mbind at 1 2, M_bind, get, liftO. simpl mbind at 1.
  by destruct (walk describe_entry fs root f).
Qed.

Lemma construct_file_descriptors_run fs root f f' :
  construct_file_descriptors fs root f = Ret ((), f') →
  descriptors_set (file_below fs root) f f'.
Proof.
  rewrite construct_file_descriptors_walk. intros (f1 & Hw & [= <-])%outcome_bind_Ret_inv.
  apply walk_visits in Hw as (l & Hv & Hl). destruct (visits_describe l f) as (f2 & Hf2 & Hset).
  rewrite Hv in Hf2. simplify_eq. intros p d. by rewrite (Hset p d), (Hl p).
Qed.

Lemma exits_describe Q d n f : exits_only Q (describe_entry d n f).
Proof. done. Qed.

(** C17: [construct_file_descriptors] is totally correct.  On a file system whose
    directories can be listed it returns, and the table then has, for every file
    below the root directory at any depth, the descriptor with the file's name,
    the type of its extension and its path as the [NONE] encoding; every other
    entry is the one it had. *)
Theorem construct_file_descriptors_correct fs root f :
  FS_ok fs → FS_closed fs → is_Some (fs_dirs fs !! root) →
  ∃ f', construct_file_descriptors fs root f = Ret ((), f') ∧
    descriptors_set (file_below fs root) f f'.
Proof.
  intros Hok Hcl Hroot.
  assert (∃ f', walk describe_entry fs root f = Ret f') as [f' Hw].
  { apply (walk_loop_returns _ _ (λ _, True)); [|done|by constructor|done|].
    { intros _ d n s _ _ _. destruct (describe_entry_set d n s) as (s' & ? & _). by exists s'. }
    intros Hfuel.
    pose proof (exits_walk describe_entry (λ _, True) fs (exits_describe _) I Hok root f) as He.
    unfold walk in He. by rewrite Hfuel in He. }
  assert (Hc : construct_file_descriptors fs root f = Ret ((), f')).
  { by rewrite construct_file_descriptors_walk, Hw. }
  exists f'. split; [done|]. by apply construct_file_descriptors_run.
Qed.

Lemma construct_file_descriptors_correct_witness :
  ∃ f', construct_file_descriptors example_fs ($"../webdir") DiskFileFetcher_new = Ret ((), f') ∧
    file_descriptors f' !! ($"../webdir/sub/b.css") = Some (descriptor_of ($"../webdir/sub/b.css")).
Proof.
  destruct (construct_file_descriptors_correct example_fs ($"../webdir") DiskFileFetcher_new)
    as (f' & Hf & Hset); [apply example_fs_ok|apply example_fs_closed|by eexists|].
  exists f'. split; [exact Hf|]. apply Hset. left. split; [|reflexivity].
  exists ($"../webdir/sub"), ($"b.css"). split; [|reflexivity].
  eapply (reach_sub _ _ _ ($"sub")); [reflexivity|right; left|].
  eapply reach_here; [reflexivity|left].
Defined.

(** Whatever the file system does, [construct_file_descriptors] ends: it
    returns or throws [std::filesystem::filesystem_error] for a directory that
    cannot be listed. *)
Lemma construct_file_descriptors_exits fs root f :
  FS_ok fs → exits_only (.= filesystem_error) (construct_file_descriptors fs root f).
Proof.
  intros Hok. rewrite construct_file_descriptors_walk. apply exits_only_bind; [|done].
  by apply exits_walk; [apply exits_describe|..].
Qed.

Lemma construct_file_descriptors_exits_witness :
  exits_only (.= filesystem_error)
    (construct_file_descriptors example_fs ($"../missing") DiskFileFetcher_new).
Proof. apply construct_file_descriptors_exits, example_fs_ok. Defined.

#[export] Instance Disk_read_only :
  ReadOnlyFetcher DiskFileFetcher HTTPFileData FileManagerException.
Proof.
  intros fs p f. unfold get_file, Disk_get_file. destruct (file_descriptors f !! p); [|by eexists].
  destruct (choose_encoding _). by eexists.
Qed.

(** ** The cache in front of any fetcher *)

Section cache.
Context {F T E : Type} `{!FileFetcher F T E}.
Implicit Types (fs : FS) (p : str) (c : CacheFileFetcher F T) (r : expected T E).

(** A sequence of requests, each made on the file system of its moment. *)
Fixpoint get_files (reqs : list (FS * str)) : M (CacheFileFetcher F T) (list (expected T E)) :=
  match reqs with
  | [] => mret []
  | (fs, p) :: reqs => r ← get_file fs p; rs ← get_files reqs; mret (r :: rs)
  end.

(** Every cached value is what the fetcher behind would answer. *)
Definition coherent fs c : Prop :=
  ∀ p e, file_cache c !! p = Some e →
    get_file fs p (file_fetcher c) = Ret (Expected (ce_value e), file_fetcher c).

Lemma get_file_hit fs p c e :
  file_cache c !! p = Some e → get_file fs p c = Ret (Expected (ce_value e), c).
Proof. intros H. unfold get_file, Cache_get_file. by rewrite H. Qed.

Lemma get_file_miss fs p c :
  file_cache c !! p = None →
  get_file fs p c =
  ('(returned, f) ← get_file fs p (file_fetcher c);
   match returned with
   | Expected v => Ret (Expected v, mk_Cache f (<[p := mk_CacheEntry p v]> (file_cache c)))
   | Unexpected e => Ret (Unexpected e, mk_Cache f (file_cache c))
   end).
Proof.
  intros H. unfold get_file at 1, Cache_get_file. rewrite H.
  destruct (get_file fs p (file_fetcher c)) as [[[v|e] f]| | | |]; [|done..].
  cbn [mbind outcome_bind]. by rewrite lookup_insert_eq.
Qed.

(** A call never removes an entry, and leaves an entry where it succeeds. *)
Lemma get_file_entries fs p c r c' :
  get_file fs p c = Ret (r, c') →
  (∀ q e, file_cache c !! q = Some e → file_cache c' !! q = Some e) ∧
  (∀ v, r = Expected v → ce_value <$> file_cache c' !! p = Some v).
Proof.
  destruct (file_cache c !! p) as [e|] eqn:Hp.
  - rewrite (get_file_hit _ _ _ e) by done. intros [= <- <-]. split; [done|].
    intros v [= <-]. by rewrite Hp.
  - rewrite get_file_miss by done.
    intros ([[v|e] f] & _ & [= <- <-])%outcome_bind_Ret_inv; simpl; split; try done.
    + intros q e Hq. rewrite lookup_insert_ne; [done|congruence].
    + intros v' [= <-]. by rewrite lookup_insert_eq.
Qed.

Lemma get_files_entries reqs c rs c' :
  get_files reqs c = Ret (rs, c') →
  ∀ q e, file_cache c !! q = Some e → file_cache c' !! q = Some e.
Proof.
  revert c rs. induction reqs as [|[fs p] reqs IH]; intros c rs.
  { by intros [= <- <-]. }
  cbn [get_files]. intros (r & c1 & H1 & H)%M_bind_Ret_inv q e Hq.
  apply M_bind_Ret_inv in H as (rs' & c2 & H2 & [= <- <-]).
  eapply IH; [exact H2|]. apply (get_file_entries _ _ _ _ _ H1), Hq.
Qed.
End cache.

(** Behind a fetcher that always answers, the cache always answers. *)
Lemma get_file_total {F T E} `{ReadOnlyFetcher F T E} (fs : FS) (p : str)
    (c : CacheFileFetcher F T) :
  ∃ (r : expected T E) c', get_file fs p c = Ret (r, c') ∧ file_fetcher c' = file_fetcher c ∧
    (∀ e, r = Unexpected e → c' = c).
Proof.
  destruct (file_cache c !! p) as [e|] eqn:Hp.
  { exists (Expected (ce_value e)), c. by rewrite (get_file_hit (E := E) _ _ _ e). }
  destruct (get_file_read_only (E := E) fs p (file_fetcher c)) as [[v|e] Hr];
    eexists _, _; rewrite (get_file_miss (E := E)), Hr by done; (split_and!; [done..|]); [done|].
  by destruct c.
Qed.

(** C18: behind the cache, the fetcher: on a coherent cache, [get_file] answers
    exactly what the fetcher it holds would answer, whatever the path, leaves that
    fetcher alone and keeps the cache coherent.  Errors are passed on and never
    cached. *)
Theorem cache_refines_fetcher {F T E} `{ReadOnlyFetcher F T E} (fs : FS) (p : str)
    (c : CacheFileFetcher F T) :
  coherent (E := E) fs c →
  ∃ (r : expected T E) c', get_file fs p c = Ret (r, c') ∧
    get_file fs p (file_fetcher c) = Ret (r, file_fetcher c) ∧
    file_fetcher c' = file_fetcher c ∧ coherent (E := E) fs c' ∧
    (∀ e, r = Unexpected e → file_cache c' = file_cache c).
Proof.
  intros Hc. destruct (get_file_read_only (E := E) fs p (file_fetcher c)) as [r Hr].
  exists r. destruct (file_cache c !! p) as [e|] eqn:Hp.
  { pose proof (Hc p e Hp) as He. rewrite Hr in He. simplify_eq. exists c.
    by rewrite (get_file_hit (E := E) _ _ _ e). }
  rewrite (get_file_miss (E := E)), Hr by done. cbn [mbind outcome_bind].
  destruct r as [v|e]; eexists; (split; [done|]); split_and!; try done.
  intros q e. simpl. intros [[<- <-]|[Hne Hq]]%lookup_insert_Some; [done|]. by apply Hc.
Qed.

(** A disk fetcher that knows one file. *)
Definition example_disk : DiskFileFetcher :=
  mk_Disk {[$"../webdir/a.html" := descriptor_of ($"../webdir/a.html")]}.

Lemma cache_refines_fetcher_witness :
  ∃ (r : expected HTTPFileData FileManagerException) c',
    get_file example_fs ($"../webdir/a.html") (mk_Cache example_disk ∅) = Ret (r, c') ∧
    get_file example_fs ($"../webdir/a.html") example_disk = Ret (r, example_disk) ∧
    coherent (E := FileManagerException) example_fs c'.
Proof.
  destruct (cache_refines_fetcher (E := FileManagerException) example_fs ($"../webdir/a.html")
    (mk_Cache (T := HTTPFileData) example_disk ∅)) as (r & c' & H1 & H2 & _ & H3 & _).
  - intros p e. simpl. by rewrite lookup_empty.
  - exists r, c'. split; [exact H1|]. split; [exact H2|exact H3].
Defined.

(** Nothing is ever evicted or refreshed.  Once [get_file] has answered a path
    with a value, it answers that path with that value after any further requests,
    on any later state of the files and for any fetcher behind the cache;
    [max_cache_size_bytes] plays no part. *)
Lemma cache_never_forgets {F T E} `{!FileFetcher F T E} (fs fs' : FS) (p : str) (v : T)
    (c c1 c2 : CacheFileFetcher F T) reqs (rs : list (expected T E)) :
  get_file (E := E) fs p c = Ret (Expected v, c1) → get_files reqs c1 = Ret (rs, c2) →
  get_file (E := E) fs' p c2 = Ret (Expected v, c2).
Proof.
  intros H1 H2. pose proof (proj2 (get_file_entries _ _ _ _ _ H1) v eq_refl) as Hv.
  destruct (file_cache c1 !! p) as [e|] eqn:Hp; simplify_eq/=.
  pose proof (get_files_entries _ _ _ _ H2 p e Hp). by apply get_file_hit.
Qed.

(** The cache after a page has been served, and after a later request. *)
Definition example_cache (c : CacheFileFetcher DiskFileFetcher HTTPFileData) (p : str) :
    CacheFileFetcher DiskFileFetcher HTTPFileData :=
  (result (get_file (E := FileManagerException) example_fs p c)
     (Unexpected (mk_FileManagerException []), c)).2.

Lemma cache_never_forgets_witness :
  let c1 := example_cache (mk_Cache example_disk ∅) ($"../webdir/a.html") in
  let c2 := example_cache c1 ($"../webdir/no.html") in
  get_file (E := FileManagerException) (mk_FS ∅ ∅ (λ _, false)) ($"../webdir/a.html") c2 =
  Ret (Expected (mk_HTTPFileData FileType.TEXT_HTML FileEncoding.NONE ($"<p>hi</p>")), c2).
Proof.
  intros c1 c2.
  apply (cache_never_forgets (E := FileManagerException) example_fs _ _ _
    (mk_Cache example_disk ∅) c1 c2 [(example_fs, $"../webdir/no.html")]
    [Unexpected (mk_FileManagerException ($"File not found: ../webdir/no.html"))]);
    vm_compute; reflexivity.
Defined.

(** ** Encoding the described files *)

(** A descriptor made by [construct_file_descriptors] for a listed file. *)
Definition descriptor_ok (p : str) (d : FileDescriptor) : Prop :=
  d = descriptor_of p ∧
  ∃ dir n, p = path_append dir n ∧ dir ≠ [] ∧ filename dir ≠ [] ∧ name_ok n.

Section encode.
Context (compress : str → nat → option (str * nat)).

(** The bytes [Brotli_encode] writes for the file at [p], if it does. *)
Definition encoded (fs : FS) (p : str) : option str :=
  c ← fs_files fs !! p;
  '(buf, _) ← compress c (length c);
  if fs_writable fs (p ++ $".br") then Some buf else None.

Lemma descriptor_ok_path p d :
  descriptor_ok p d → path_append (parent_path p) (fd_filename d) = p.
Proof.
  intros (-> & dir & n & -> & Hd & Hf & Hn). simpl.
  by rewrite parent_path_append, filename_append.
Qed.

Lemma br_not_web p d q e :
  descriptor_ok p d → descriptor_ok q e → is_web_text (fd_filetype e) → q ≠ p ++ $".br".
Proof.
  intros (-> & dir & n & -> & Hd & Hf & Hn) [-> _] Hw ->. revert Hw.
  cbn [fd_filetype descriptor_of]. rewrite path_append_name by done. rewrite <- (assoc_L (++)). cbn [app].
  assert (Forall (.≠ SLASH) (n ++ $".br")).
  { apply Forall_app. split; [apply Hn|]. by repeat constructor. }
  assert (He : extension (n ++ $".br") = $".br").
  { apply (extension_name_app n $"br"); [apply Hn|apply Hn|by repeat constructor|].
    intros E%(f_equal length). rewrite length_app in E. simpl in E.
    destruct n; [by destruct Hn|simpl in E; lia]. }
  rewrite filename_app by done. unfold encode_filetype. rewrite He. by intros [|[|]].
Qed.

Lemma Brotli_encode_encoded fs p c :
  fs_files fs !! p = Some c →
  Brotli_encode compress p fs =
  match encoded fs p with
  | Some buf => Ret (p ++ $".br", write_file (p ++ $".br") buf fs)
  | None => Ret ([], fs)
  end.
Proof.
  intros H. rewrite (Brotli_encode_run _ _ _ c) by done. unfold encoded. rewrite H. simpl.
  destruct (compress c (length c)) as [[buf n]|]; [|done]. simpl. by destruct (fs_writable _ _).
Qed.

(** One round on a web file. *)
Definition encode_one (p : str) '((fs, f) : FS * DiskFileFetcher) : FS * DiskFileFetcher :=
  match file_descriptors f !! p with
  | Some d =>
    if decide (is_web_text (fd_filetype d)) then
      match encoded fs p with
      | Some buf => (write_file (p ++ $".br") buf fs,
                     mk_Disk (alter (set_brotli (p ++ $".br")) p (file_descriptors f)))
      | None => (fs, f)
      end
    else (fs, f)
  | None => (fs, f)
  end.

Lemma generate_encoded_file_run fs f p :
  (∀ d, file_descriptors f !! p = Some d →
     descriptor_ok p d ∧ (is_web_text (fd_filetype d) → is_Some (fs_files fs !! p))) →
  generate_encoded_file compress p (fs, f) = Ret ((), encode_one p (fs, f)).
Proof.
  intros Hp. unfold generate_encoded_file, encode_one.
  destruct (file_descriptors f !! p) as [d|] eqn:Hd; [|done].
  destruct (Hp d eq_refl) as [Hok Hfile]. case_decide as Hw; [|done].
  destruct (Hfile Hw) as [c Hc].
  rewrite (descriptor_ok_path p d), (Brotli_encode_encoded _ _ c) by done.
  destruct (encoded fs p) as [buf|]; cbn [mbind outcome_bind]; [|done].
  rewrite decide_True; [done|]. by destruct p.
Qed.

(** [p] is a described web file that encodes to [buf]. *)
Definition encodes (fs : FS) (f : DiskFileFetcher) (p buf : str) : Prop :=
  ∃ d, file_descriptors f !! p = Some d ∧ is_web_text (fd_filetype d) ∧
    encoded fs p = Some buf.

(** The outcome of encoding the files of [ps], in no particular order. *)
Record encoded_all (ps : list str) (fs : FS) (f : DiskFileFetcher) (fs' : FS)
    (f' : DiskFileFetcher) : Prop := {
  enc_descriptor p buf : p ∈ ps → encodes fs f p buf →
    file_descriptors f' !! p = set_brotli (p ++ $".br") <$> file_descriptors f !! p;
  enc_other p : (∀ buf, p ∈ ps → ¬ encodes fs f p buf) →
    file_descriptors f' !! p = file_descriptors f !! p;
  enc_file p buf : p ∈ ps → encodes fs f p buf → fs_files fs' !! (p ++ $".br") = Some buf;
  enc_other_file q : (∀ p buf, p ∈ ps → encodes fs f p buf → q ≠ p ++ $".br") →
    fs_files fs' !! q = fs_files fs !! q }.

(** What [generate_encoded_files] expects of the table and the files. *)
Definition ready (fs : FS) (f : DiskFileFetcher) (p : str) : Prop :=
  ∀ d, file_descriptors f !! p = Some d →
    descriptor_ok p d ∧ (is_web_text (fd_filetype d) → is_Some (fs_files fs !! p)).

(** A round on [p] changes nothing the rounds on other paths look at. *)
Lemma encode_one_frame fs f p q fs' f' :
  ready fs f p → ready fs f q → p ≠ q → encode_one p (fs, f) = (fs', f') →
  ready fs' f' q ∧ (∀ buf, encodes fs' f' q buf ↔ encodes fs f q buf) ∧
  file_descriptors f' !! q = file_descriptors f !! q.
Proof.
  intros Hp Hq Hne. unfold encode_one.
  destruct (file_descriptors f !! p) as [d|] eqn:Hd; [|by intros [= <- <-]].
  case_decide as Hw; [|by intros [= <- <-]].
  destruct (encoded fs p) as [buf|] eqn:Hb; [|by intros [= <- <-]].
  intros [<- <-]%pair_equal_spec.
  assert (Hl : ∀ g, alter g p (file_descriptors f) !! q = file_descriptors f !! q).
  { intros g. by apply lookup_alter_ne. }
  assert (Hf : ∀ e, file_descriptors f !! q = Some e → is_web_text (fd_filetype e) →
    fs_files (write_file (p ++ $".br") buf fs) !! q = fs_files fs !! q).
  { intros e He Hwe. simpl. apply lookup_insert_ne. intros <-.
    by apply (br_not_web p d (p ++ $".br") e (proj1 (Hp d Hd)) (proj1 (Hq e He))). }
  split_and!; [| |apply Hl].
  - intros e. cbn [file_descriptors]. rewrite Hl. intros He.
    split; [exact (proj1 (Hq e He))|]. intros Hwe.
    rewrite (Hf e He Hwe). exact (proj2 (Hq e He) Hwe).
  - intros b. unfold encodes. cbn [file_descriptors]. rewrite Hl.
    split; intros (e & He & Hwe & Henc); exists e; split_and!; try done;
      unfold encoded in *; [rewrite (Hf e He Hwe) in Henc|rewrite (Hf e He Hwe)]; exact Henc.
Qed.

(** Encoding one file, then the others. *)
Lemma encoded_all_cons p ps fs f fs1 f1 fs' f' :
  p ∉ ps → ready fs f p → (∀ q, q ∈ ps → ready fs f q) →
  encode_one p (fs, f) = (fs1, f1) → encoded_all ps fs1 f1 fs' f' →
  encoded_all (p :: ps) fs f fs' f'.
Proof.
  intros Hnin Hp Hps H1 [D O G OG].
  assert (Hfr : ∀ q, q ∈ ps → (∀ buf, encodes fs1 f1 q buf ↔ encodes fs f q buf) ∧
    file_descriptors f1 !! q = file_descriptors f !! q).
  { intros q Hq. eapply encode_one_frame; [done|by apply Hps| |done]. by intros ->. }
  assert (Hother : ∀ q, (∀ buf, q ∈ p :: ps → ¬ encodes fs f q buf) →
    file_descriptors f1 !! q = file_descriptors f !! q).
  { intros q Hq. revert H1. unfold encode_one.
    destruct (file_descriptors f !! p) as [d|] eqn:Hd; [|by intros [= <- <-]].
    case_decide as Hw; [|by intros [= <- <-]].
    destruct (encoded fs p) as [buf|] eqn:Hb; intros [= <- <-]; [|done].
    simpl. apply lookup_alter_ne. intros <-. apply (Hq buf); [by left|]. by exists d. }
  split.
  - intros q buf [-> |Hq]%elem_of_cons Henc.
    + rewrite O by (by intros b ?). destruct Henc as (d & Hd & Hw & Hb).
      unfold encode_one in H1. rewrite Hd, decide_True, Hb in H1 by done. simplify_eq. simpl.
      by rewrite lookup_alter_eq.
    + destruct (Hfr q Hq) as [He <-]. apply (D q buf); [done|]. by apply He.
  - intros q Hq. rewrite O; [by apply Hother|].
    intros buf Hin He. apply (Hq buf); [by right|]. by apply (Hfr q Hin).
  - intros q buf [-> |Hq]%elem_of_cons Henc.
    + rewrite OG.
      * destruct Henc as (d & Hd & Hw & Hb). unfold encode_one in H1.
        rewrite Hd, decide_True, Hb in H1 by done. simplify_eq. cbn [fs_files write_file].
        by rewrite lookup_insert_eq.
      * intros q b Hq _ E. apply app_inv_tail in E as ->. done.
    + apply (G q buf); [done|]. by apply (Hfr q Hq).
  - intros q Hq. rewrite OG.
    + unfold encode_one in H1. destruct (file_descriptors f !! p) as [d|] eqn:Hd; [|by simplify_eq].
      case_decide as Hw; [|by simplify_eq].
      destruct (encoded fs p) as [buf|] eqn:Hb; simplify_eq; [|done]. cbn [fs_files write_file].
      apply lookup_insert_ne. intros <-. apply (Hq p buf); [by left|by exists d|done].
    + intros r b Hr He. apply (Hq r b); [by right|]. by apply (Hfr r Hr).
Qed.

Lemma generate_encoded_files_run ps fs f :
  NoDup ps → (∀ p, p ∈ ps → ready fs f p) →
  ∃ fs' f', generate_encoded_files compress ps (fs, f) = Ret ((), (fs', f')) ∧
    encoded_all ps fs f fs' f'.
Proof.
  revert fs f. induction ps as [|p ps IH]; intros fs f Hnd Hps.
  { exists fs, f. split; [done|]. split; try done; by intros ? ? ?%not_elem_of_nil. }
  apply NoDup_cons in Hnd as [Hnin Hnd].
  assert (Hp : ready fs f p) by (apply Hps; by left).
  cbn [generate_encoded_files].
  rewrite (M_bind_run _ _ _ () (encode_one p (fs, f))) by by apply generate_encoded_file_run.
  destruct (encode_one p (fs, f)) as [fs1 f1] eqn:E.
  destruct (IH fs1 f1) as (fs' & f' & Hg & Hall); [done| |].
  - intros q Hq. eapply encode_one_frame; [done| | |done]; [apply Hps; by right|by intros ->].
  - exists fs', f'. split; [done|]. eapply encoded_all_cons; [done|done| |done|done].
    intros q Hq. apply Hps. by right.
Qed.

Lemma encodes_dec fs f p : {buf | encodes fs f p buf} + {∀ buf, ¬ encodes fs f p buf}.
Proof.
  destruct (file_descriptors f !! p) as [d|] eqn:Hd; [|right; by intros ? (? & ? & _); simplify_eq].
  destruct (decide (is_web_text (fd_filetype d))); [|right; by intros ? (? & ? & ? & _); simplify_eq].
  destruct (encoded fs p) as [buf|] eqn:Hb; [|right; intros ? (? & ? & ? & ?); congruence].
  left. exists buf, d. done.
Defined.

Lemma br_file_dec (ps : list str) fs f q :
  (∃ p buf, p ∈ ps ∧ encodes fs f p buf ∧ q = p ++ $".br") ∨
  (∀ p buf, p ∈ ps → encodes fs f p buf → q ≠ p ++ $".br").
Proof.
  induction ps as [|p ps IH]; [right; by intros ? ? ?%not_elem_of_nil|].
  destruct IH as [(p' & buf & Hp' & ? & ?)|IH]; [left; exists p', buf; split; [by right|done]|].
  destruct (encodes_dec fs f p) as [[buf He]|He], (decide (q = p ++ $".br")) as [Hq|Hq].
  - left. exists p, buf. split; [by left|done].
  - right. intros ? ? [-> |?]%elem_of_cons ?; eauto.
  - right. intros ? b [-> |?]%elem_of_cons ?; [by destruct (He b)|eauto].
  - right. intros ? ? [-> |?]%elem_of_cons ?; eauto.
Qed.

(** The result of encoding is a function of the set of files. *)
Lemma encoded_all_unique (ps qs : list str) fs f fs1 f1 fs2 f2 :
  (∀ p, p ∈ ps ↔ p ∈ qs) → encoded_all ps fs f fs1 f1 → encoded_all qs fs f fs2 f2 →
  file_descriptors f1 = file_descriptors f2 ∧ fs_files fs1 = fs_files fs2.
Proof.
  intros Hpq [D1 O1 G1 OG1] [D2 O2 G2 OG2]. split; apply map_eq.
  - intros p. destruct (encodes_dec fs f p) as [[buf He]|He]; [|by rewrite O1, O2].
    destruct (decide (p ∈ ps)) as [Hp|Hp].
    + by rewrite (D1 p buf), (D2 p buf) by (done || by apply Hpq).
    + rewrite O1, O2; [done|..]; intros b Hb; [by rewrite Hpq in Hp|done].
  - intros q. destruct (br_file_dec ps fs f q) as [(p & buf & Hp & He & ->)|Hq].
    + by rewrite (G1 p buf), (G2 p buf) by (done || by apply Hpq).
    + rewrite OG1, OG2; [done| |done]. intros p b Hp. apply Hq. by apply Hpq.
Qed.
End encode.

(** C24: [generate_encoded_files], then [get_file]: with every described web file on
    disk, encoding returns and each HTML, CSS or JavaScript file is then served
    with its type: as the Brotli buffer under the encoding [BROTLI] if the encoder
    succeeded and the ["br"] file could be written, as it is on disk under [NONE]
    otherwise. *)
Theorem generate_encoded_files_served compress fs f (ps : list str) :
  NoDup ps → (∀ p, p ∈ ps ↔ is_Some (file_descriptors f !! p)) → (∀ p, ready fs f p) →
  ∃ fs' f', generate_encoded_files compress ps (fs, f) = Ret ((), (fs', f')) ∧
    ∀ p d, file_descriptors f !! p = Some d → is_web_text (fd_filetype d) →
      get_file fs' p f' = Ret (Expected (match encoded compress fs p with
        | Some buf => mk_HTTPFileData (fd_filetype d) FileEncoding.BROTLI buf
        | None => mk_HTTPFileData (fd_filetype d) FileEncoding.NONE (read_stream fs p)
        end), f').
Proof.
  intros Hnd Hps Hready.
  destruct (generate_encoded_files_run compress ps fs f) as (fs' & f' & Hg & [D O G OG]); [done..|].
  exists fs', f'. split; [done|]. intros p d Hd Hw. destruct (Hready p d Hd) as [[Hdesc Hok] _].
  assert (Hin : p ∈ ps) by (apply Hps; by eexists).
  unfold get_file, Disk_get_file. destruct (encoded compress fs p) as [buf|] eqn:Hb.
  - assert (He : encodes compress fs f p buf) by (exists d; done).
    rewrite (D p buf), Hd by done. unfold choose_encoding.
    cbn [fmap option_fmap option_map set_brotli file_paths fd_filetype].
    rewrite lookup_insert_eq. cbn [entry_path]. unfold read_stream. by rewrite (G p buf).
  - rewrite O, Hd by (intros buf _ (d' & _ & _ & ?); congruence). subst d.
    rewrite choose_encoding_descriptor_of. cbn [fd_filetype descriptor_of].
    unfold read_stream. rewrite OG; [done|]. intros q b Hq (d' & Hd' & _).
    by apply (br_not_web q d' p (descriptor_of p) (proj1 (Hready q d' Hd'))).
Qed.

(** The table after [construct_file_descriptors] of the example. *)
Definition example_table : DiskFileFetcher :=
  mk_Disk (<[$"../webdir/a.html" := descriptor_of ($"../webdir/a.html")]>
    {[$"../webdir/sub/b.css" := descriptor_of ($"../webdir/sub/b.css")]}).

Lemma example_table_ready p : ready example_fs example_table p.
Proof.
  intros d. unfold example_table. cbn [file_descriptors].
  intros [[<- <-]|[_ [<- <-]%lookup_singleton_Some]]%lookup_insert_Some.
  - split; [|by eexists]. split; [done|]. by exists ($"../webdir"), ($"a.html"); repeat constructor.
  - split; [|by eexists]. split; [done|]. by exists ($"../webdir/sub"), ($"b.css"); repeat constructor.
Qed.

Lemma generate_encoded_files_served_witness :
  ∃ fs' f', generate_encoded_files half_encoder [$"../webdir/sub/b.css"; $"../webdir/a.html"]
      (example_fs, example_table) = Ret ((), (fs', f')) ∧
    get_file fs' ($"../webdir/sub/b.css") f' =
    Ret (Expected (mk_HTTPFileData FileType.TEXT_CSS FileEncoding.BROTLI ($"zzz")), f').
Proof.
  destruct (generate_encoded_files_served half_encoder example_fs example_table
    [$"../webdir/sub/b.css"; $"../webdir/a.html"]) as (fs' & f' & H & Hs).
  - by apply (bool_decide_unpack _); vm_compute.
  - intros p. unfold example_table. cbn [file_descriptors].
    rewrite lookup_insert_is_Some, lookup_singleton_is_Some, !elem_of_cons, elem_of_nil.
    destruct (decide ($"../webdir/a.html" = p)); naive_solver.
  - apply example_table_ready.
  - exists fs', f'. split; [exact H|].
    rewrite (Hs ($"../webdir/sub/b.css") (descriptor_of ($"../webdir/sub/b.css")));
      [vm_compute; reflexivity|reflexivity|by right; left].
Defined.

(** The order in which the hash table is walked does not matter: any two orders
    of the same keys leave the same descriptors and the same files. *)
Lemma generate_encoded_files_order compress fs f ps qs fs1 f1 fs2 f2 :
  NoDup ps → ps ≡ₚ qs → (∀ p, ready fs f p) →
  generate_encoded_files compress ps (fs, f) = Ret ((), (fs1, f1)) →
  generate_encoded_files compress qs (fs, f) = Ret ((), (fs2, f2)) →
  file_descriptors f1 = file_descriptors f2 ∧ fs_files fs1 = fs_files fs2.
Proof.
  intros Hnd Hpq Hready H1 H2.
  destruct (generate_encoded_files_run compress ps fs f) as (? & ? & E1 & A1); [done..|].
  destruct (generate_encoded_files_run compress qs fs f) as (? & ? & E2 & A2);
    [by rewrite <- Hpq|done|].
  rewrite H1 in E1. rewrite H2 in E2. simplify_eq. eapply encoded_all_unique; [|done|done].
  intros p. by rewrite Hpq.
Qed.

Lemma generate_encoded_files_order_witness :
  let run order := (result (generate_encoded_files half_encoder order (example_fs, example_table))
    ((), (example_fs, example_table))).2 in
  let x := run [$"../webdir/sub/b.css"; $"../webdir/a.html"] in
  let y := run [$"../webdir/a.html"; $"../webdir/sub/b.css"] in
  file_descriptors x.2 = file_descriptors y.2 ∧ fs_files x.1 = fs_files y.1.
Proof.
  intros run x y.
  apply (generate_encoded_files_order half_encoder example_fs example_table
    [$"../webdir/sub/b.css"; $"../webdir/a.html"] [$"../webdir/a.html"; $"../webdir/sub/b.css"]).
  - by apply (bool_decide_unpack _); vm_compute.
  - apply perm_swap.
  - apply example_table_ready.
  - vm_compute; reflexivity.
  - vm_compute; reflexivity.
Defined.

Lemma extension_map_spec ext t :
  ("."%char :: ext, t) ∈ extension_map →
  table_find ("."%char :: ext) extension_map = Some t ∧
  Forall (λ c, c ≠ SLASH ∧ c ≠ "."%char) ext ∧ 2 ≤ length ext.
Proof.
  unfold extension_map at 1. rewrite !elem_of_cons, elem_of_nil. intros H.
  repeat (destruct H as [H|H]; [injection H as -> ->; split_and!;
    [reflexivity|by repeat constructor|simpl; lia]|]). done.
Qed.

(** The type of a file is that of its extension: a name with one of the eight
    known extensions has the matching type, whatever its stem, and every content
    type sent for a file comes from the table, [text/plain] included. *)
Lemma encode_filetype_correct stem ext :
  name_ok stem →
  (∀ t, ("."%char :: ext, t) ∈ extension_map →
    encode_filetype (stem ++ "."%char :: ext) = t) ∧
  ∀ name, (encode_filetype name, decode_filetype (encode_filetype name)) ∈ file_type_map.
Proof.
  intros [Hne Hs]. split.
  - intros t (Hf & Hext & Hlen)%extension_map_spec. unfold encode_filetype.
    rewrite extension_name_app, Hf; [done..|].
    intros E%(f_equal length). rewrite length_app in E. simpl in E. destruct stem; [done|].
    simpl in E. lia.
  - intros name. destruct (encode_filetype name); vm_compute; set_solver.
Qed.

Lemma encode_filetype_correct_witness :
  name_ok ($"index.min") ∧ encode_filetype ($"index.min" ++ $".html") = FileType.TEXT_HTML.
Proof.
  assert (H : name_ok ($"index.min")) by (split; [done|by repeat constructor]).
  split; [exact H|]. apply (proj1 (encode_filetype_correct ($"index.min") ($"html") H)). left.
Defined.
