(* ===== verification/Headers.v ===== *)
(** * The header registry

    [include/simpleserv/http/headers.hpp]: the constants of the header fields and
    the four lists of class [Headers].  (The [Header] of this file is another type
    than that of [parser.hpp], under the same name [http::Header].) *)

From S2P Require Import Prelude Effects StdMap Expected Http StringParser Message Parser.

Module HeaderRegistry.

Module FieldType.
Inductive t : Type := String.
#[global] Instance eq_dec : EqDecision t.
Proof. solve_decision. Defined.
End FieldType.

Record Header : Type := mk_Header { name : str; field : FieldType.t }.

#[global] Instance Header_eq_dec : EqDecision Header.
Proof. solve_decision. Defined.

Definition CacheControl : Header :=
mk_Header ($"Cache-Control") FieldType.String.
Definition Connection : Header :=
mk_Header ($"Connection") FieldType.String.
Definition Date : Header :=
mk_Header ($"Date") FieldType.String.
Definition Pragma : Header :=
mk_Header ($"Pragma") FieldType.String.
Definition Trailer : Header :=
mk_Header ($"Trailer") FieldType.String.
Definition TransferEncoding : Header :=
mk_Header ($"Transfer-Encoding") FieldType.String.
Definition Upgrade : Header :=
mk_Header ($"Upgrade") FieldType.String.
Definition Via : Header :=
mk_Header ($"Via") FieldType.String.
Definition Warning : Header :=
mk_Header ($"Warning") FieldType.String.
Definition Accept : Header :=
mk_Header ($"Accept") FieldType.String.
Definition AcceptCharset : Header :=
mk_Header ($"Accept-Charset") FieldType.String.
Definition AcceptEncoding : Header :=
mk_Header ($"Accept-Encoding") FieldType.String.
Definition AcceptLanguage : Header :=
mk_Header ($"Accept-Language") FieldType.String.
Definition Authorization : Header :=
mk_Header ($"Authorization") FieldType.String.
Definition Expect : Header :=
mk_Header ($"Expect") FieldType.String.
Definition From : Header :=
mk_Header ($"From") FieldType.String.
Definition Host : Header :=
mk_Header ($"Host") FieldType.String.
Definition IfMatch : Header :=
mk_Header ($"If-Match") FieldType.String.
Definition IfModifiedSince : Header :=
mk_Header ($"If-Modified-Since") FieldType.String.
Definition IfNoneMatch : Header :=
mk_Header ($"If-None-Match ") FieldType.String.
Definition IfRange : Header :=
mk_Header ($"If-Range") FieldType.String.
Definition IfUnmodifiedSince : Header :=
mk_Header ($"If-Unmodified-Since") FieldType.String.
Definition MaxForwards : Header :=
mk_Header ($"Max-Forwards") FieldType.String.
Definition ProxyAuthorization : Header :=
mk_Header ($"Proxy-Authorization") FieldType.String.
Definition Range : Header :=
mk_Header ($"Range") FieldType.String.
Definition Referer : Header :=
mk_Header ($"Referer") FieldType.String.
Definition TE : Header :=
mk_Header ($"TE") FieldType.String.
Definition UserAgent : Header :=
mk_Header ($"User-Agent") FieldType.String.
Definition AcceptRanges : Header :=
mk_Header ($"Accept-Ranges") FieldType.String.
Definition Age : Header :=
mk_Header ($"Age") FieldType.String.
Definition ETag : Header :=
mk_Header ($"ETag") FieldType.String.
Definition Location : Header :=
mk_Header ($"Date") FieldType.String.
Definition ProxyAuthenticate : Header :=
mk_Header ($"Proxy-Authenticate") FieldType.String.
Definition RetryAfter : Header :=
mk_Header ($"Retry-After") FieldType.String.
Definition Server : Header :=
mk_Header ($"Server") FieldType.String.
Definition Vary : Header :=
mk_Header ($"Vary") FieldType.String.
Definition WWWAuthenticate : Header :=
mk_Header ($"WWW-Authenticate") FieldType.String.
Definition Allow : Header :=
mk_Header ($"Allow") FieldType.String.
Definition ContentEncoding : Header :=
mk_Header ($"Content-Encoding") FieldType.String.
Definition ContentLanguage : Header :=
mk_Header ($"Content-Language") FieldType.String.
Definition ContentLength : Header :=
mk_Header ($"Content-Length") FieldType.String.
Definition ContentLocation : Header :=
mk_Header ($"Content-Location") FieldType.String.
Definition ContentMD5 : Header :=
mk_Header ($"Content-MD5") FieldType.String.
Definition ContentRange : Header :=
mk_Header ($"Content-Range") FieldType.String.
Definition ContentType : Header :=
mk_Header ($"Content-Type") FieldType.String.
Definition Expires : Header :=
mk_Header ($"Expires") FieldType.String.
Definition LastModified : Header :=
mk_Header ($"Last-Modified") FieldType.String.

Definition _general_headers : list Header :=
[CacheControl; Connection; Date; Pragma; Trailer;
 TransferEncoding; Upgrade; Via; Warning].

Definition _request_headers : list Header :=
[Accept; AcceptCharset; AcceptEncoding; AcceptLanguage; Authorization;
 Expect; From; IfMatch; IfModifiedSince; IfNoneMatch;
 IfRange; IfUnmodifiedSince; MaxForwards; ProxyAuthorization; Range;
 Referer; TE; UserAgent].

Definition _response_headers : list Header :=
[AcceptRanges; Age; ETag; Location; ProxyAuthenticate;
 RetryAfter; Server; Vary; WWWAuthenticate].

Definition _entity_headers : list Header :=
[Allow; ContentEncoding; ContentLanguage; ContentLength; ContentLocation;
 ContentMD5; ContentRange; ContentType; Expires; LastModified].

(** All constants of the file. *)
Definition constants : list Header :=
_general_headers ++ _request_headers ++ Host :: _response_headers ++ _entity_headers.

End HeaderRegistry.

(** ** Lemmas *)

Import HeaderRegistry.

#[export] Instance field_name_ok_dec k : Decision (field_name_ok k).
Proof. unfold field_name_ok. apply _. Defined.

(** A name that is no field name is the name of no header of a request. *)
Lemma bad_name_absent s k r :
  parse_http_request s = Ret (Expected r) → ¬ field_name_ok k →
  headers_ (req_message r) !! k = None.
Proof.
  intros (_ & _ & H & _)%parse_http_request_inv Hk.
  destruct (headers_ (req_message r) !! k) as [v|] eqn:E; [|done].
  destruct (H k v E) as [? _]. done.
Qed.

(** The registry against the parser.  The names of the constants are distinct
    and possible names of a parsed header, but for two slips: [Location] is named
    ["Date"], and the name of [IfNoneMatch] ends in a space, so that no request ever
    has that header; and [Host] is in none of the lists of class [Headers]. *)
Lemma header_registry_names :
  NoDup (name <$> filter (λ h, name h ≠ name Date) constants) ∧
  Forall (λ h, field_name_ok (name h) ∨ h = IfNoneMatch) constants ∧
  name Location = name Date ∧
  (∀ s r, parse_http_request s = Ret (Expected r) →
     headers_ (req_message r) !! name IfNoneMatch = None) ∧
  name Host ∉ name <$> (_general_headers ++ _request_headers ++ _response_headers ++ _entity_headers).
Proof.
  split_and!.
  - by apply (bool_decide_unpack _); vm_compute.
  - by apply (bool_decide_unpack _); vm_compute.
  - done.
  - intros s r Hp. apply (bad_name_absent s); [done|]. by apply (bool_decide_unpack _); vm_compute.
  - by apply (bool_decide_unpack _); vm_compute.
Qed.
