(* ===== verification/RequestHandler.v ===== *)
(** * Request handlers

    [include/simpleserv/http/request_handler.hpp] and
    [src/simpleserv/http/request_handler.cpp]: one function per method, each a
    template over a user's handler.  The abstract handler classes are type
    classes over the state [W] that the handlers read and write: [make] is the
    default constructor, the other method the pure virtual function. *)

From S2P Require Import Prelude Effects StdMap Expected Http StringParser Message Parser.

(** ** The handlers' results *)

Module GETResultState.
Inductive t : Type := OK | NOT_FOUND | ERROR | MOVED_PERMANENTLY.
End GETResultState.

Record GETResult : Type := mk_GETResult {
  get_state : GETResultState.t; get_body : str }.

Definition GETCondition : Type := option str.

Record GETConditionals : Type := mk_GETConditionals {
  modified_since : GETCondition;
  unmodified_since : GETCondition;
  match_ : GETCondition;
  none_match : GETCondition }.

Module POSTResultState.
Inductive t : Type := OK | CREATED | NO_CONTENT | SEE_OTHER | ERROR.
End POSTResultState.

Record POSTResult : Type := mk_POSTResult {
  post_state : POSTResultState.t; post_body : str }.

Module PUTResult.
Inductive t : Type := OK | NOT_FOUND | ERROR | MOVED_PERMANENTLY | UNIMPLEMENTED.
End PUTResult.

Module DELETEResult.
Inductive t : Type := DELETED | DELETE_ACCEPTED | NOT_FOUND | ERROR.
End DELETEResult.

(** ** The handlers' interfaces *)

Class IGETRequestHandler (W T : Type) := {
  get_make : M W T;
  get_get : T → str → GETConditionals → M W GETResult }.

Class IHEADRequestHandler (W T : Type) := {
  head_make : M W T;
  head_head : T → str → M W (gmap str str) }.

Class IPOSTRequestHandler (W T : Type) := {
  post_make : M W T;
  post_post : T → str → str → M W POSTResult }.

Class IPUTRequestHandler (W T : Type) := {
  put_make : M W T;
  put_put : T → str → str → M W PUTResult.t }.

Class IDELETERequestHandler (W T : Type) := {
  delete_make : M W T;
  delete_del : T → str → M W DELETEResult.t }.

(** ** The functions *)

Definition OPTIONS_allow : str := $"GET, HEAD, POST, PUT, DELETE, TRACE, OPTIONS".

Definition options_request (request : HTTPRequest) : HTTPResponse :=
  let response := HTTPResponse_new HTTPStatusCode.OK HTTPVersion.HTTP_1_1 in
  if decide (path_ request = $"*") then
    resp_with_message (SetHeader ($"Allow") OPTIONS_allow) response
  else response.

Definition find_if_exists {V} (map : gmap str V) (key : str) : option V :=
  match map !! key with None => None | Some v => Some v end.

Definition get_conditionals (headers : gmap str str) : GETConditionals :=
  mk_GETConditionals
    (find_if_exists headers ($"If-Modified-Since"))
    (find_if_exists headers ($"If-Unmodified-Since"))
    (find_if_exists headers ($"If-Match"))
    (find_if_exists headers ($"If-None-Match")).

Section requests.
Context {W T : Type}.

Definition get_request `{!IGETRequestHandler W T} (request : HTTPRequest) :
    M W HTTPResponse :=
  handler ← get_make;
  let path := path_ request in
  let headers := headers_ (req_message request) in
  let conditionals := get_conditionals headers in
  result ← get_get handler path conditionals;
  mret match get_state result with
       | GETResultState.OK =>
           resp_with_message (SetContent (get_body result))
             (HTTPResponse_new HTTPStatusCode.OK HTTPVersion.HTTP_1_1)
       | GETResultState.NOT_FOUND =>
           HTTPResponse_new HTTPStatusCode.NOT_FOUND HTTPVersion.HTTP_1_1
       | GETResultState.ERROR =>
           HTTPResponse_new HTTPStatusCode.INTERNAL_SERVER_ERROR HTTPVersion.HTTP_1_1
       | GETResultState.MOVED_PERMANENTLY =>
           HTTPResponse_new HTTPStatusCode.MOVED_PERMANENTLY HTTPVersion.HTTP_1_1
       end.

Definition head_request `{!IHEADRequestHandler W T} (request : HTTPRequest) :
    M W HTTPResponse :=
  handler ← head_make;
  result ← head_head handler (path_ request);
  let response := HTTPResponse_new HTTPStatusCode.OK HTTPVersion.HTTP_1_1 in
  mret (foldl (λ response kv, resp_with_message (SetHeader kv.1 kv.2) response)
          response (map_in_order result)).

Definition post_request `{!IPOSTRequestHandler W T} (request : HTTPRequest) :
    M W HTTPResponse :=
  handler ← post_make;
  let path := path_ request in
  let value := body_ (req_message request) in
  result ← post_post handler path value;
  mret match post_state result with
       | POSTResultState.OK =>
           resp_with_message (SetContent (post_body result))
             (HTTPResponse_new HTTPStatusCode.OK HTTPVersion.HTTP_1_1)
       | POSTResultState.CREATED =>
           resp_with_message (SetContent (post_body result))
             (HTTPResponse_new HTTPStatusCode.CREATED HTTPVersion.HTTP_1_1)
       | POSTResultState.NO_CONTENT =>
           HTTPResponse_new HTTPStatusCode.NO_CONTENT HTTPVersion.HTTP_1_1
       | POSTResultState.SEE_OTHER =>
           HTTPResponse_new HTTPStatusCode.SEE_OTHER HTTPVersion.HTTP_1_1
       | POSTResultState.ERROR =>
           HTTPResponse_new HTTPStatusCode.INTERNAL_SERVER_ERROR HTTPVersion.HTTP_1_1
       end.

Definition put_request `{!IPUTRequestHandler W T} (request : HTTPRequest) :
    M W HTTPResponse :=
  handler ← put_make;
  let path := path_ request in
  let value := body_ (req_message request) in
  result ← put_put handler path value;
  mret match result with
       | PUTResult.OK => HTTPResponse_new HTTPStatusCode.OK HTTPVersion.HTTP_1_1
       | PUTResult.NOT_FOUND =>
           HTTPResponse_new HTTPStatusCode.NOT_FOUND HTTPVersion.HTTP_1_1
       | PUTResult.ERROR =>
           HTTPResponse_new HTTPStatusCode.INTERNAL_SERVER_ERROR HTTPVersion.HTTP_1_1
       | PUTResult.MOVED_PERMANENTLY =>
           HTTPResponse_new HTTPStatusCode.MOVED_PERMANENTLY HTTPVersion.HTTP_1_1
       | PUTResult.UNIMPLEMENTED =>
           HTTPResponse_new HTTPStatusCode.NOT_IMPLEMENTED HTTPVersion.HTTP_1_1
       end.

Definition delete_request `{!IDELETERequestHandler W T} (request : HTTPRequest) :
    M W HTTPResponse :=
  handler ← delete_make;
  result ← delete_del handler (path_ request);
  mret match result with
       | DELETEResult.DELETED => HTTPResponse_new HTTPStatusCode.OK HTTPVersion.HTTP_1_1
       | DELETEResult.DELETE_ACCEPTED =>
           HTTPResponse_new HTTPStatusCode.ACCEPTED HTTPVersion.HTTP_1_1
       | DELETEResult.NOT_FOUND =>
           HTTPResponse_new HTTPStatusCode.NOT_FOUND HTTPVersion.HTTP_1_1
       | DELETEResult.ERROR =>
           HTTPResponse_new HTTPStatusCode.INTERNAL_SERVER_ERROR HTTPVersion.HTTP_1_1
       end.
End requests.

Definition trace_request (request : HTTPRequest) : HTTPResponse :=
  let response := HTTPResponse_new HTTPStatusCode.OK HTTPVersion.HTTP_1_1 in
  resp_with_message (SetContent (body_ (req_message request))) response.

(** ** Lemmas *)

(** The value of the last of the header lines with a name. *)
Definition last_line (kvs : list (str * str)) (name : str) : option str :=
  snd <$> last (filter (λ kv, kv.1 = name) kvs).

Lemma headers_last_line kvs name : assign_all kvs ∅ !! name = last_line kvs name.
Proof. rewrite assign_all_lookup_last. unfold last_line. by destruct (last _). Qed.

Lemma set_headers_fold kvs (r : HTTPResponse) :
  foldl (λ r kv, resp_with_message (SetHeader kv.1 kv.2) r) r kvs =
  mk_HTTPResponse (mk_HTTPMessage (version_ (resp_message r))
    (assign_all kvs (headers_ (resp_message r))) (body_ (resp_message r))) (status_code_ r).
Proof.
  revert r. induction kvs as [|kv kvs IH]; intros r; [by destruct r as [[] ?]|].
  cbn [foldl assign_all]. by rewrite IH.
Qed.

(** The text of a response without headers. *)
Lemma print_plain_response code body :
  HTTPResponse_to_string (resp_with_message (SetContent body)
    (HTTPResponse_new code HTTPVersion.HTTP_1_1)) =
  Ret ($"HTTP/1.1 " ++ status_code_to_string code ++ CRLF ++ CRLF ++ body).
Proof. done. Qed.

(** The codes that come without a body. *)
Definition bodyless (code : HTTPStatusCode.t) : Prop :=
  code ≠ HTTPStatusCode.OK ∧ code ≠ HTTPStatusCode.CREATED.

(** The condition headers of parsed header lines. *)
Lemma get_conditionals_lines kvs :
  get_conditionals (assign_all kvs ∅) =
  mk_GETConditionals (last_line kvs ($"If-Modified-Since")) (last_line kvs ($"If-Unmodified-Since"))
    (last_line kvs ($"If-Match")) (last_line kvs ($"If-None-Match")).
Proof.
  unfold get_conditionals, find_if_exists. rewrite !headers_last_line.
  by repeat match goal with |- context [match ?x with _ => _ end] => destruct x end.
Qed.

(** The text sent for each state of a GET result. *)
Definition get_response_text (result : GETResult) : str :=
  match get_state result with
  | GETResultState.OK => $"HTTP/1.1 200 OK" ++ CRLF ++ CRLF ++ get_body result
  | GETResultState.NOT_FOUND => $"HTTP/1.1 404 Not Found" ++ CRLF ++ CRLF
  | GETResultState.ERROR => $"HTTP/1.1 500 Internal Server Error" ++ CRLF ++ CRLF
  | GETResultState.MOVED_PERMANENTLY => $"HTTP/1.1 300 Moved Permanently" ++ CRLF ++ CRLF
  end.

Section properties.
Context {W T : Type}.
Implicit Types (w : W) (h : T) (r : HTTPRequest).

Lemma get_request_run `{!IGETRequestHandler W T} r w w1 w2 h result :
  get_make w = Ret (h, w1) →
  get_get h (path_ r) (get_conditionals (headers_ (req_message r))) w1 = Ret (result, w2) →
  ∃ response, get_request r w = Ret (response, w2) ∧
    HTTPResponse_to_string response = Ret (get_response_text result).
Proof.
  intros H1 H2. unfold get_request. rewrite (M_bind_run _ _ _ _ _ H1).
  cbv zeta. rewrite (M_bind_run _ _ _ _ _ H2).
  destruct result as [[] body]; eexists; (split; [done|]); done.
Qed.
End properties.

(** C29: from the bytes of a GET request to the bytes of its response: the handler is
    called once, with the path of the request line and, for each of the four
    condition headers, the value of its last line if it has one; its result becomes
    the status line and, for [OK] only, the body.  A handler that answers
    [MOVED_PERMANENTLY] is sent as ["300 Moved Permanently"]. *)
Theorem get_request_from_text {W T} `{!IGETRequestHandler W T} (ws1 p ws2 : str)
    (v : HTTPVersion.t) (kvs : list (str * str)) (body : str) (w w1 w2 : W) (h : T) result :
  Forall blank ws1 → path_ok p → Forall blank ws2 → supported v → Forall header_ok kvs →
  get_make w = Ret (h, w1) →
  get_get h p (mk_GETConditionals
    (last_line kvs ($"If-Modified-Since")) (last_line kvs ($"If-Unmodified-Since"))
    (last_line kvs ($"If-Match")) (last_line kvs ($"If-None-Match"))) w1 = Ret (result, w2) →
  ∃ r response,
    parse_http_request (request_text HTTPMethod.GET ws1 p ws2 v kvs body) = Ret (Expected r) ∧
    get_request r w = Ret (response, w2) ∧
    HTTPResponse_to_string response = Ret (get_response_text result).
Proof.
  intros ????? H1 H2. rewrite <- get_conditionals_lines in H2.
  destruct (get_request_run (mk_HTTPRequest (mk_HTTPMessage v (assign_all kvs ∅) body)
    HTTPMethod.GET p) w w1 w2 h result H1 H2) as (response & Hr & Ht).
  eexists _, response. split; [by apply parse_http_request_text|done].
Qed.

(** A handler that counts its calls and answers with the match condition. *)
#[local] Instance example_get : IGETRequestHandler nat () := {|
  get_make := mret ();
  get_get _ path c := λ n, Ret (mk_GETResult GETResultState.OK (default path (match_ c)), S n) |}.

Lemma get_request_from_text_witness :
  ∃ r response,
    parse_http_request ($"GET /a?b=c HTTP/1.1" ++ CRLF ++ $"If-Match: e" ++ CRLF ++ CRLF) =
      Ret (Expected r) ∧
    get_request r 0 = Ret (response, 1) ∧
    HTTPResponse_to_string response = Ret ($"HTTP/1.1 200 OK" ++ CRLF ++ CRLF ++ $"e").
Proof.
  apply (get_request_from_text [] ($"/a?b=c") [] HTTPVersion.HTTP_1_1 [($"If-Match", $"e")] []
    0 0 1 () (mk_GETResult GETResultState.OK ($"e"))).
  - constructor.
  - apply example_path_ok.
  - constructor.
  - by left.
  - by repeat constructor.
  - reflexivity.
  - vm_compute. reflexivity.
Defined.

(** [head_request] answers [200 OK] with exactly the header map its handler
    returned and no body, and does nothing else to the handler's state. *)
Lemma head_request_headers {W T} `{!IHEADRequestHandler W T} (r : HTTPRequest) (w w1 w2 : W)
    (h : T) (result : gmap str str) :
  head_make w = Ret (h, w1) → head_head h (path_ r) w1 = Ret (result, w2) →
  head_request r w =
    Ret (mk_HTTPResponse (mk_HTTPMessage HTTPVersion.HTTP_1_1 result []) HTTPStatusCode.OK, w2).
Proof.
  intros H1 H2. unfold head_request. rewrite (M_bind_run _ _ _ _ _ H1), (M_bind_run _ _ _ _ _ H2).
  cbv zeta. rewrite set_headers_fold.
  cbn [HTTPResponse_new resp_message version_ headers_ body_ status_code_ set_version
       SetContent HTTPMessage_new].
  by rewrite assign_all_in_order.
Qed.

#[local] Instance example_head : IHEADRequestHandler nat () := {|
  head_make := mret ();
  head_head _ path := λ n, Ret ({[$"ETag" := path]}, S n) |}.

Lemma head_request_headers_witness :
  ∃ r, head_request (HTTPRequest_new HTTPMethod.HEAD ($"/a") HTTPVersion.HTTP_1_1) 0 = Ret (r, 1) ∧
    headers_ (resp_message r) = {[$"ETag" := $"/a"]}.
Proof.
  exists (mk_HTTPResponse (mk_HTTPMessage HTTPVersion.HTTP_1_1 {[$"ETag" := $"/a"]} [])
    HTTPStatusCode.OK). split; [|reflexivity].
  apply (head_request_headers (HTTPRequest_new HTTPMethod.HEAD ($"/a") HTTPVersion.HTTP_1_1)
    0 0 1 () {[$"ETag" := $"/a"]}); reflexivity.
Defined.

(** The responses of [post_request], [put_request] and [delete_request] are
    HTTP/1.1, carry no header, and carry a body only with [200 OK] or
    [201 Created]. *)
Lemma responses_bodyless {W T} `{!IPOSTRequestHandler W T} `{!IPUTRequestHandler W T}
    `{!IDELETERequestHandler W T} (r : HTTPRequest) (w w' : W) response :
  post_request (T := T) r w = Ret (response, w') ∨ put_request (T := T) r w = Ret (response, w') ∨
  delete_request (T := T) r w = Ret (response, w') →
  version_ (resp_message response) = HTTPVersion.HTTP_1_1 ∧
  headers_ (resp_message response) = ∅ ∧
  (bodyless (status_code_ response) → body_ (resp_message response) = []).
Proof.
  intros [H|[H|H]]; unfold post_request, put_request, delete_request in H;
    apply M_bind_Ret_inv in H as (h & w1 & _ & H); cbv zeta in H;
    apply M_bind_Ret_inv in H as (result & w2 & _ & [= <- _]);
    repeat match goal with |- context [match ?x with _ => _ end] => destruct x end;
    split_and!; (done || by intros [? ?]).
Qed.
