(* ===== verification/HttpHandler.v ===== *)
(** * The HTTP handler

    [include/simpleserv/http/http_handler.hpp] and
    [src/simpleserv/http/http_handler.cpp]: from the bytes of a request to the
    bytes of its response, out of the files below [../webdir].  The file manager
    the handler uses is an object of its own translation unit; it is the state
    of the monad. *)

From S2P Require Import Prelude Effects StdMap Expected Http StringParser Message Parser.
From S2P Require Import FileSystem FileManager.

Definition capabilities : list Header :=
  [mk_Header ($"Age") ($"0"); mk_Header ($"Allow") ($"GET, HEAD, OPTIONS");
   mk_Header ($"Server") ($"SSRV/0.1")].

Definition remove_query (str_ : str) : str :=
  match find_idx (Ascii.eqb "?"%char) str_ with
  | Some query_index => take query_index str_
  | None => str_
  end.

Definition webdir : str := $"../webdir".

Definition convert_to_filedirectory (request_path : str) : str :=
  webdir ++ remove_query request_path.

Definition prepare_response (fs : FS) (request : HTTPRequest) : M FileManager HTTPResponse :=
  let response := HTTPResponse_new HTTPStatusCode.OK HTTPVersion.HTTP_1_1 in
  let path := convert_to_filedirectory (path_ request) in
  expected_file_data ← FileManager_get_file fs path;
  match expected_file_data with
  | Unexpected _ =>
      mret (HTTPResponse_new HTTPStatusCode.NOT_FOUND HTTPVersion.HTTP_1_1)
  | Expected file_data =>
      let response := resp_with_message
        (SetHeader ($"Content-Type") (decode_filetype (filetype file_data))) response in
      let response :=
        if decide (file_encoding file_data ≠ FileEncoding.NONE) then
          resp_with_message (SetHeader ($"Content-Encoding")
            (decode_file_encoding (file_encoding file_data))) response
        else response in
      let response :=
        if decide (method_ request ≠ HTTPMethod.HEAD) then
          resp_with_message (SetContent (content file_data)) response
        else response in
      mret response
  end.

(** [HTTPHandler::handle]; [None] is [std::nullopt]. *)
Definition handle (fs : FS) (str_ : str) : M FileManager (option str) :=
  result ← liftO (parse_http_request str_);
  match result with
  | Unexpected _ => mret None
  | Expected request =>
      response ← prepare_response fs request;
      text ← liftO (HTTPResponse_to_string response);
      mret (Some text)
  end.

(** ** The query *)

Lemma remove_query_app p q :
  Forall (.≠ "?"%char) p → remove_query (p ++ "?"%char :: q) = p.
Proof.
  intros Hp. unfold remove_query. rewrite find_idx_app_stop.
  - apply take_app_length.
  - eapply Forall_impl; [exact Hp|]. intros c Hc. by apply Ascii.eqb_neq.
  - apply Ascii.eqb_refl.
Qed.

Lemma remove_query_none p : Forall (.≠ "?"%char) p → remove_query p = p.
Proof.
  intros Hp. unfold remove_query.
  replace (find_idx (Ascii.eqb "?"%char) p) with (@None nat); [done|]. symmetry.
  apply find_idx_None. eapply Forall_impl; [exact Hp|]. intros c Hc. by apply Ascii.eqb_neq.
Qed.

(** ** Responses *)

(** The headers and the text of the response to a file. *)
Definition content_headers (data : HTTPFileData) : list (str * str) :=
  (if decide (file_encoding data = FileEncoding.NONE) then []
   else [($"Content-Encoding", decode_file_encoding (file_encoding data))]) ++
  [($"Content-Type", decode_filetype (filetype data))].

Definition ok_text (method : HTTPMethod.t) (data : HTTPFileData) : str :=
  $"HTTP/1.1 200 OK" ++ CRLF ++ mjoin (print_header <$> content_headers data) ++ CRLF ++
  (if decide (method = HTTPMethod.HEAD) then [] else content data).

Definition not_found_text : str := $"HTTP/1.1 404 Not Found" ++ CRLF ++ CRLF.

Definition file_response (request : HTTPRequest) (data : HTTPFileData) : HTTPResponse :=
  mk_HTTPResponse (mk_HTTPMessage HTTPVersion.HTTP_1_1
    (list_to_map (content_headers data))
    (if decide (method_ request = HTTPMethod.HEAD) then [] else content data))
    HTTPStatusCode.OK.

Lemma prepare_response_found fs r m data m' :
  FileManager_get_file fs (convert_to_filedirectory (path_ r)) m = Ret (Expected data, m') →
  prepare_response fs r m = Ret (file_response r data, m').
Proof.
  intros H. unfold prepare_response. cbv zeta. rewrite (M_bind_run _ _ _ _ _ H).
  unfold file_response, content_headers.
  repeat case_decide; try done; destruct data as [t e c]; simpl in *; subst; done.
Qed.

Lemma prepare_response_missing fs r m e m' :
  FileManager_get_file fs (convert_to_filedirectory (path_ r)) m = Ret (Unexpected e, m') →
  prepare_response fs r m =
  Ret (HTTPResponse_new HTTPStatusCode.NOT_FOUND HTTPVersion.HTTP_1_1, m').
Proof. intros H. unfold prepare_response. cbv zeta. by rewrite (M_bind_run _ _ _ _ _ H). Qed.

Lemma content_headers_sorted data :
  content_headers data = map_in_order (list_to_map (content_headers data)).
Proof.
  apply map_in_order_unique; [..|done]; unfold content_headers; case_decide; simpl.
  - apply NoDup_singleton.
  - by apply (bool_decide_unpack _); vm_compute.
  - by repeat constructor.
  - repeat constructor.
Qed.

Lemma file_response_text r data :
  HTTPResponse_to_string (file_response r data) = Ret (ok_text (method_ r) data).
Proof.
  unfold HTTPResponse_to_string, HTTPResponse_print. cbn [mbind outcome_bind array_at lookup
    list_lookup HTTP_VERSION_STRINGS HTTPVersion.to_nat file_response resp_message version_
    headers_ body_ status_code_ status_code_to_string].
  unfold print_headers. rewrite <- content_headers_sorted. unfold ok_text.
  by rewrite !(assoc_L (++)).
Qed.

Lemma not_found_response_text :
  HTTPResponse_to_string (HTTPResponse_new HTTPStatusCode.NOT_FOUND HTTPVersion.HTTP_1_1) =
  Ret not_found_text.
Proof. done. Qed.

Lemma handle_found fs s r m data m' :
  parse_http_request s = Ret (Expected r) →
  FileManager_get_file fs (convert_to_filedirectory (path_ r)) m = Ret (Expected data, m') →
  handle fs s m = Ret (Some (ok_text (method_ r) data), m').
Proof.
  intros Hs Hf. unfold handle. rewrite (M_bind_run _ _ _ _ _ (liftO_run _ m _ Hs)).
  cbv beta iota. rewrite (M_bind_run _ _ _ _ _ (prepare_response_found _ _ _ _ _ Hf)).
  by rewrite (M_bind_run _ _ _ _ _ (liftO_run _ m' _ (file_response_text r data))).
Qed.

Lemma handle_not_found fs s r m e m' :
  parse_http_request s = Ret (Expected r) →
  FileManager_get_file fs (convert_to_filedirectory (path_ r)) m = Ret (Unexpected e, m') →
  handle fs s m = Ret (Some not_found_text, m').
Proof.
  intros Hs Hf. unfold handle. rewrite (M_bind_run _ _ _ _ _ (liftO_run _ m _ Hs)).
  cbv beta iota. by rewrite (M_bind_run _ _ _ _ _ (prepare_response_missing _ _ _ _ _ Hf)).
Qed.

Lemma handle_parse_error fs s m e :
  parse_http_request s = Ret (Unexpected e) → handle fs s m = Ret (None, m).
Proof. intros Hs. unfold handle. by rewrite (M_bind_run _ _ _ _ _ (liftO_run _ m _ Hs)). Qed.

(** [handle] returns iff the parser does; the response is that of the file. *)
Lemma handle_run fs s m r :
  parse_http_request s = Ret (Expected r) →
  ∃ x m', FileManager_get_file fs (convert_to_filedirectory (path_ r)) m = Ret (x, m') ∧
    handle fs s m = Ret (Some match x with
      | Expected data => ok_text (method_ r) data | Unexpected _ => not_found_text end, m').
Proof.
  intros Hs. destruct (get_file_total (E := FileManagerException) fs
    (convert_to_filedirectory (path_ r)) m) as (x & m' & Hx & _).
  exists x, m'. split; [done|]. destruct x as [data|e]; [by apply handle_found|].
  by eapply handle_not_found.
Qed.

Lemma handle_exits fs s m Q :
  exits_only Q (parse_http_request s) → exits_only Q (handle fs s m).
Proof.
  intros H. destruct (parse_http_request s) as [[r|e]|e| | |] eqn:Hs.
  - destruct (handle_run fs s m r Hs) as (x & m' & _ & ->). done.
  - by rewrite (handle_parse_error _ _ _ e).
  - unfold handle. by rewrite (M_bind_Throw _ _ _ e) by (unfold liftO; by rewrite Hs).
  - done.
  - unfold handle. by rewrite M_bind_Undef by (unfold liftO; by rewrite Hs).
  - done.
Qed.

Lemma parse_empty : parse_http_request [] = Throw out_of_range.
Proof. done. Qed.

Lemma handle_empty fs m : handle fs [] m = Throw out_of_range.
Proof. unfold handle. by rewrite (M_bind_Throw _ _ _ out_of_range). Qed.

(** ** Serving a directory *)

(** The state of a manager that describes the files below [webdir] and caches
    what they contain. *)
Definition serving (fs : FS) (m : FileManager) : Prop :=
  descriptors_set (file_below fs webdir) DiskFileFetcher_new (file_fetcher m) ∧
  coherent (E := FileManagerException) fs m.

Lemma serving_descriptor fs m p d :
  serving fs m →
  file_descriptors (file_fetcher m) !! p = Some d ↔ file_below fs webdir p ∧ d = descriptor_of p.
Proof.
  intros [Hd _]. rewrite (Hd p d). simpl. rewrite lookup_empty. naive_solver.
Qed.

(** The data of a file on disk. *)
Definition file_data fs p : HTTPFileData :=
  mk_HTTPFileData (encode_filetype (filename p)) FileEncoding.NONE (read_stream fs p).

Lemma serving_get_file fs m p :
  serving fs m →
  ∃ x m', FileManager_get_file fs p m = Ret (x, m') ∧ serving fs m' ∧
    match x with
    | Expected data => file_below fs webdir p ∧ data = file_data fs p
    | Unexpected _ => ¬ file_below fs webdir p
    end.
Proof.
  intros Hs. pose proof Hs as [Hd Hc].
  destruct (cache_refines_fetcher (E := FileManagerException) fs p m Hc)
    as (x & m' & Hx & Hf & Hff & Hc' & _).
  exists x, m'. split; [done|]. split; [split; [by rewrite Hff|done]|].
  unfold get_file, Disk_get_file in Hf.
  destruct (file_descriptors (file_fetcher m) !! p) as [d|] eqn:Hp.
  - apply (serving_descriptor fs m p d Hs) in Hp as [Hb ->].
    rewrite choose_encoding_descriptor_of in Hf. by simplify_eq.
  - simplify_eq. intros Hb.
    pose proof (proj2 (serving_descriptor fs m p (descriptor_of p) Hs) (conj Hb eq_refl)) as E.
    by rewrite Hp in E.
Qed.

(** [handle] on a list of requests. *)
Fixpoint handle_all (fs : FS) (reqs : list str) : M FileManager (list (option str)) :=
  match reqs with
  | [] => mret []
  | s :: reqs => o ← handle fs s; os ← handle_all fs reqs; mret (o :: os)
  end.

Lemma handle_serving fs s m o m' :
  serving fs m → handle fs s m = Ret (o, m') → serving fs m'.
Proof.
  intros Hs H. destruct (parse_http_request s) as [[r|e]|e| | |] eqn:Hp;
    [|rewrite (handle_parse_error _ _ _ e) in H by done; by simplify_eq
     |by unfold handle, liftO, mbind, M_bind in H; rewrite Hp in H..].
  destruct (handle_run fs s m r Hp) as (x & m1 & Hx & Hh). rewrite Hh in H. simplify_eq.
  destruct (serving_get_file fs m (convert_to_filedirectory (path_ r)) Hs) as (? & ? & E & ? & _).
  rewrite Hx in E. by simplify_eq.
Qed.

Lemma handle_all_serving fs reqs m os m' :
  serving fs m → handle_all fs reqs m = Ret (os, m') → serving fs m'.
Proof.
  revert m os. induction reqs as [|s reqs IH]; intros m os Hs; [by intros [= <- <-]|].
  cbn [handle_all]. intros (o & m1 & H1 & H)%M_bind_Ret_inv.
  apply M_bind_Ret_inv in H as (os' & m2 & H2 & [= <- <-]).
  eapply IH; [|exact H2]. by eapply handle_serving.
Qed.

(** C1: the handler, end to end.  On a file manager that has described ["../webdir"]
    and answered any requests since, a request line whose path, without its query, names a file below
    [webdir] is answered with [200 OK], the content type of the file's extension
    and, unless the method is HEAD, exactly the file's bytes; any other path is
    answered with [404 Not Found]. *)
Theorem handle_serves_webdir (fs : FS) (reqs : list str) (m : HTTPMethod.t) (ws1 p ws2 : str)
    (v : HTTPVersion.t) (kvs : list (str * str)) (body : str) (mgr mgr' : FileManager) os :
  Forall blank ws1 → path_ok p → Forall blank ws2 → supported v → Forall header_ok kvs →
  FileManager_construct fs webdir FileManager_new = Ret ((), mgr) →
  handle_all fs reqs mgr = Ret (os, mgr') →
  let q := convert_to_filedirectory p in
  ∃ mgr'' text, handle fs (request_text m ws1 p ws2 v kvs body) mgr' = Ret (Some text, mgr'') ∧
    (file_below fs webdir q → text =
       $"HTTP/1.1 200 OK" ++ CRLF ++
       $"Content-Type: " ++ decode_filetype (encode_filetype (filename q)) ++ CRLF ++ CRLF ++
       (if decide (m = HTTPMethod.HEAD) then [] else read_stream fs q)) ∧
    (¬ file_below fs webdir q → text = $"HTTP/1.1 404 Not Found" ++ CRLF ++ CRLF).
Proof.
  intros ????? Hm Hall q. subst q. set (q := convert_to_filedirectory p).
  assert (Hs : serving fs mgr').
  { eapply handle_all_serving; [|exact Hall]. unfold FileManager_construct in Hm.
    apply outcome_bind_Ret_inv in Hm as ([[] f] & Hc & [= <-]). split.
    - by apply construct_file_descriptors_run.
    - intros k e. simpl. by rewrite lookup_empty. }
  pose proof (parse_http_request_text m ws1 p ws2 v kvs body) as Hp.
  destruct (handle_run fs _ mgr' _ (Hp ltac:(done) ltac:(done) ltac:(done) ltac:(done) ltac:(done)))
    as (x & m1 & Hx & Hh).
  destruct (serving_get_file fs mgr' q Hs) as (x' & m2 & Hx' & _ & Hspec).
  change (FileManager_get_file fs q mgr' = Ret (x, m1)) in Hx. rewrite Hx in Hx'.
  simplify_eq. eexists _, _. split; [exact Hh|].
  destruct x' as [data|e].
  - destruct Hspec as [Hb ->]. split; [intros _|done].
    unfold ok_text, content_headers. cbn [file_encoding file_data filetype content method_].
    rewrite decide_True by done. rewrite app_nil_l, mjoin_fmap_cons.
    change (mjoin (print_header <$> [])) with (@nil ascii).
    change ($"Content-Type: ") with ($"Content-Type" ++ $": ").
    rewrite app_nil_r. unfold print_header. cbn [fst snd].
    by rewrite <- !(assoc_L (++)).
  - split; [done|]. intros _. reflexivity.
Qed.

(** The manager after [construct_file_descriptors] of the example. *)
Definition example_manager : FileManager :=
  (result (FileManager_construct example_fs webdir FileManager_new) ((), FileManager_new)).2.

Lemma example_path : path_ok ($"/a.html?v=1").
Proof. split; [by repeat constructor|by eexists _, _]. Qed.

Lemma handle_serves_webdir_witness :
  ∃ mgr, handle example_fs ($"GET /a.html?v=1 HTTP/1.1" ++ CRLF ++ CRLF) example_manager =
    Ret (Some ($"HTTP/1.1 200 OK" ++ CRLF ++ $"Content-Type: text/html" ++ CRLF ++ CRLF ++
               $"<p>hi</p>"), mgr).
Proof.
  destruct (handle_serves_webdir example_fs [] HTTPMethod.GET [] ($"/a.html?v=1") []
    HTTPVersion.HTTP_1_1 [] [] example_manager example_manager []) as (mgr & text & H & Hok & _).
  - constructor.
  - apply example_path.
  - constructor.
  - by left.
  - constructor.
  - vm_compute. reflexivity.
  - reflexivity.
  - exists mgr. etrans; [exact H|]. rewrite Hok; [vm_compute; reflexivity|].
    exists webdir, ($"a.html"). split; [|reflexivity]. eapply reach_here; [reflexivity|left].
Defined.

(** C3: no path traversal.  On a manager in service, a request that is answered
    with [200 OK] has a path that is, up to the query, ["/"] and names separated by
    ["/"], none of them empty, ["."] or [".."]: whatever a client sends, only files
    that the walk from [webdir] reached are served. *)
Theorem no_path_traversal (fs : FS) (mgr mgr' : FileManager) (s rest : str) (r : HTTPRequest) :
  FS_ok fs → FS_dotless fs → serving fs mgr →
  parse_http_request s = Ret (Expected r) →
  handle fs s mgr = Ret (Some ($"HTTP/1.1 200 OK" ++ rest), mgr') →
  file_below fs webdir (convert_to_filedirectory (path_ r)) ∧
  ∃ ns, ns ≠ [] ∧ Forall component_ok ns ∧ remove_query (path_ r) = components_path ns.
Proof.
  intros Hok Hdot Hs Hp Hh. destruct (handle_run fs s mgr r Hp) as (x & m' & Hx & Hr).
  destruct (serving_get_file fs mgr (convert_to_filedirectory (path_ r)) Hs) as (x' & m2 & Hx' & _ & Hspec).
  rewrite Hx in Hx'. injection Hx' as <- <-. rewrite Hh in Hr. destruct x as [data|e]; [|done].
  destruct Hspec as [Hb _]. split; [done|]. destruct Hb as (d & n & Hreach & Hq).
  destruct (reachable_components fs _ _ _ Hok Hdot Hreach) as (ns & ? & ? & Hns).
  exists ns. split_and!; [done..|]. rewrite Hns in Hq.
  by apply app_inv_head in Hq.
Qed.

Lemma example_serving : serving example_fs example_manager.
Proof.
  split.
  2: { intros k e. replace (file_cache example_manager) with
         (∅ : gmap str (CacheFileFetcherEntry HTTPFileData)) by (vm_compute; reflexivity).
       by rewrite lookup_empty. }
  apply construct_file_descriptors_run. vm_compute. reflexivity.
Qed.

Lemma no_path_traversal_witness :
  ∃ ns, ns ≠ [] ∧ Forall component_ok ns ∧ remove_query ($"/a.html?v=1") = components_path ns.
Proof.
  apply (no_path_traversal example_fs example_manager
    (result (handle example_fs ($"GET /a.html?v=1 HTTP/1.1" ++ CRLF ++ CRLF) example_manager)
      (None, example_manager)).2
    ($"GET /a.html?v=1 HTTP/1.1" ++ CRLF ++ CRLF)
    (CRLF ++ $"Content-Type: text/html" ++ CRLF ++ CRLF ++ $"<p>hi</p>")
    (HTTPRequest_new HTTPMethod.GET ($"/a.html?v=1") HTTPVersion.HTTP_1_1)).
  - apply example_fs_ok.
  - apply example_fs_dotless.
  - apply example_serving.
  - vm_compute. reflexivity.
  - vm_compute. reflexivity.
Defined.

(** HEAD is GET without the body: on the same manager, a parsed request and its
    HEAD variant leave the same manager and get responses with the same version,
    status and headers; that of HEAD has no body. *)
Lemma head_is_get_without_body (fs : FS) (r : HTTPRequest) (mgr : FileManager) :
  method_ r ≠ HTTPMethod.HEAD →
  let head := mk_HTTPRequest (req_message r) HTTPMethod.HEAD (path_ r) in
  ∃ mgr' resp, prepare_response fs r mgr = Ret (resp, mgr') ∧
    prepare_response fs head mgr =
      Ret (mk_HTTPResponse (SetContent [] (resp_message resp)) (status_code_ resp), mgr').
Proof.
  intros Hm. destruct (get_file_total (E := FileManagerException) fs
    (convert_to_filedirectory (path_ r)) mgr) as ([data|e] & mgr' & Hx & _).
  - exists mgr', (file_response r data). split; [by apply prepare_response_found|].
    rewrite (prepare_response_found _ _ _ data mgr') by done. unfold file_response.
    by rewrite decide_True.
  - eexists mgr', _. split; [by eapply prepare_response_missing|].
    by erewrite prepare_response_missing.
Qed.

Lemma head_is_get_without_body_witness :
  ∃ mgr' resp,
    prepare_response example_fs (HTTPRequest_new HTTPMethod.GET ($"/a.html") HTTPVersion.HTTP_1_1)
      example_manager = Ret (resp, mgr') ∧
    prepare_response example_fs (HTTPRequest_new HTTPMethod.HEAD ($"/a.html") HTTPVersion.HTTP_1_1)
      example_manager =
      Ret (mk_HTTPResponse (SetContent [] (resp_message resp)) (status_code_ resp), mgr').
Proof.
  apply (head_is_get_without_body example_fs
    (HTTPRequest_new HTTPMethod.GET ($"/a.html") HTTPVersion.HTTP_1_1) example_manager).
  discriminate.
Defined.

(** What [handle] does about malformed input: a parse error is answered with
    nothing and leaves the manager alone; the only exception that can leave it is
    [std::out_of_range]; and the empty request throws it, which the caller does not
    catch. *)
Lemma handle_errors (fs : FS) (mgr : FileManager) :
  (∀ s e, parse_http_request s = Ret (Unexpected e) → handle fs s mgr = Ret (None, mgr)) ∧
  (∀ s, exits_only (.= out_of_range) (handle fs s mgr)) ∧
  handle fs [] mgr = Throw out_of_range.
Proof.
  split_and!.
  - intros s e. apply handle_parse_error.
  - intros s. apply handle_exits, exits_parse_http_request.
  - apply handle_empty.
Qed.
