(* ===== verification/LockFreeQueue.v ===== *)
(** * The lock-free queue

    [include/simpleserv/utility/lock_free_queue.hpp]: a ring of [capacity] slots
    with atomic head and tail indices, the job queue of the thread pool.  The
    operations are first written as the code composes them, for a single thread;
    then as the sequence of their atomic actions, for threads that interleave.
    Interleaving is sequentially consistent; [WeakQueue] has the weaker orders the
    code passes to its atomics. *)

From S2P Require Import Prelude Effects Http.

(** Arithmetic of [uint32_t]. *)
Definition w32 (z : Z) : Z := z `mod` 2 ^ 32.

Definition SMALL_INTEGER_OPTIMISATION_LIMIT : nat := 100.

(** The object; [next_arr] exists for capacities up to the limit only (for the
    others the class does not compile). *)
Record LockFreeQueue (T : Type) : Type := mk_Queue {
  arr_ : list T; head_ : Z; tail_ : Z; size_ : Z; next_arr : list Z }.
Arguments mk_Queue {T} _ _ _ _ _.
Arguments arr_ {T} _.
Arguments head_ {T} _.
Arguments tail_ {T} _.
Arguments size_ {T} _.
Arguments next_arr {T} _.

(** [std::array::operator\[\]] as an assignment. *)
Definition array_set {A} (i : nat) (x : A) (arr : list A) : outcome (list A) :=
  if decide (i < length arr) then Ret (<[i := x]> arr) else Undef.

Section queue.
Context {T : Type} (capacity : nat).
(** The default value of an element, and what a move leaves in its source. *)
Context (dflt : T) (moved : T → T).

(** The constructor's loop over [next_arr]. *)
Fixpoint fill_next (n i : nat) (arr : list Z) : outcome (list Z) :=
  match n with
  | 0 => Ret arr
  | S n => arr ← array_set i (w32 (Z.of_nat i + 1)) arr; fill_next n (S i) arr
  end.

Definition LockFreeQueue_new : outcome (LockFreeQueue T) :=
  arr ← fill_next capacity 0 (replicate capacity 0%Z);
  arr ← array_set (Z.to_nat (w32 (Z.of_nat capacity - 1))) 0%Z arr;
  Ret (mk_Queue (replicate capacity dflt) 0 0 0 arr).

Definition next (q : LockFreeQueue T) (current : Z) : outcome Z :=
  if decide (capacity < SMALL_INTEGER_OPTIMISATION_LIMIT) then
    array_at (next_arr q) (Z.to_nat current)
  else Ret (w32 (current + 1) `mod` Z.of_nat capacity)%Z.

(** *** The atomic actions *)

Definition write_slot (i : Z) (elem : T) : M (LockFreeQueue T) () := λ q,
  arr ← array_set (Z.to_nat i) elem (arr_ q);
  Ret ((), mk_Queue arr (head_ q) (tail_ q) (size_ q) (next_arr q)).

Definition store_tail (next_tail : Z) : M (LockFreeQueue T) () :=
  modify (λ q, mk_Queue (arr_ q) (head_ q) next_tail (size_ q) (next_arr q)).

Definition fetch_add_size (d : Z) : M (LockFreeQueue T) () :=
  modify (λ q, mk_Queue (arr_ q) (head_ q) (tail_ q) (w32 (size_ q + d)) (next_arr q)).

(** [compare_exchange_weak] on the head; it may fail spuriously. *)
Definition cas_head (spurious : bool) (expected desired : Z) : M (LockFreeQueue T) bool := λ q,
  if decide (head_ q = expected ∧ spurious = false) then
    Ret (true, mk_Queue (arr_ q) desired (tail_ q) (size_ q) (next_arr q))
  else Ret (false, q).

(** [std::move(arr_\[head\])]. *)
Definition take_slot (i : Z) : M (LockFreeQueue T) T := λ q,
  x ← array_at (arr_ q) (Z.to_nat i);
  arr ← array_set (Z.to_nat i) (moved x) (arr_ q);
  Ret (x, mk_Queue arr (head_ q) (tail_ q) (size_ q) (next_arr q)).

(** *** The operations *)

Definition push (elem : T) : M (LockFreeQueue T) bool :=
  q ← get;
  let tail := tail_ q in
  next_tail ← liftO (next q tail);
  _ ← write_slot tail elem;
  _ ← store_tail next_tail;
  _ ← fetch_add_size 1;
  mret true.

Definition pop (spurious : bool) : M (LockFreeQueue T) (option T) :=
  q ← get;
  let head := head_ q in
  if decide (head = tail_ q) then mret None
  else
    desired ← liftO (next q head);
    ok ← cas_head spurious head desired;
    if ok : bool then
      result ← take_slot head;
      _ ← fetch_add_size (-1);
      mret (Some result)
    else mret None.

Definition empty (q : LockFreeQueue T) : bool := bool_decide (head_ q = tail_ q).

Definition full (q : LockFreeQueue T) : outcome bool :=
  n ← next q (tail_ q); Ret (bool_decide (n = head_ q)).

(** *** Threads

    [pc] is what a thread in the middle of an operation holds.  The index in
    the [Pop] states is a ghost: how many elements had been taken when the
    thread read the head. *)
Inductive pc : Type :=
  | Idle
  | PushLoaded (elem : T) (tail next_tail : Z)
  | PushWritten (elem : T) (next_tail : Z)
  | PushStored
  | PopLoaded (head : Z) (c : nat)
  | PopChecked (head : Z) (c : nat)
  | PopWon (head : Z) (c : nat)
  | PopRead (result : T) (c : nat).

Inductive action : Type :=
  | StartPush (elem : T)      (** load the tail, compute its successor *)
  | StartPop                  (** load the head *)
  | Go (spurious : bool).     (** the next atomic action of the operation *)

(** The ghosts: the elements whose tail was stored, the number of elements
    taken, and what the calls of [pop] returned, with its number. *)
Record sys : Type := mk_sys {
  sq : LockFreeQueue T;
  threads : list pc;
  pushed : list T;
  taken : nat;
  returned : list (nat * T) }.

(** One action of a thread in state [p]: the queue, the thread, the ghosts. *)
Definition act (a : action) (p : pc) (s : sys) : outcome (pc * sys) :=
  let q := sq s in
  let upd q := mk_sys q (threads s) (pushed s) (taken s) (returned s) in
  match a, p with
  | StartPush elem, Idle => n ← next q (tail_ q); Ret (PushLoaded elem (tail_ q) n, s)
  | StartPop, Idle => Ret (PopLoaded (head_ q) (taken s), s)
  | Go _, PushLoaded elem tail n =>
      '(_, q) ← write_slot tail elem q; Ret (PushWritten elem n, upd q)
  | Go _, PushWritten elem n =>
      '(_, q) ← store_tail n q;
      Ret (PushStored, mk_sys q (threads s) (pushed s ++ [elem]) (taken s) (returned s))
  | Go _, PushStored => '(_, q) ← fetch_add_size 1 q; Ret (Idle, upd q)
  | Go _, PopLoaded head c =>
      if decide (head = tail_ q) then Ret (Idle, s) else Ret (PopChecked head c, s)
  | Go spurious, PopChecked head c =>
      desired ← next q head;
      '(ok, q) ← cas_head spurious head desired q;
      if ok : bool then
        Ret (PopWon head c, mk_sys q (threads s) (pushed s) (S (taken s)) (returned s))
      else Ret (Idle, upd q)
  | Go _, PopWon head c => '(x, q) ← take_slot head q; Ret (PopRead x c, upd q)
  | Go _, PopRead x c =>
      '(_, q) ← fetch_add_size (-1) q;
      Ret (Idle, mk_sys q (threads s) (pushed s) (taken s) (returned s ++ [(c, x)]))
  | _, _ => Ret (p, s)
  end.

(** Thread [t] takes action [a]; an action its state does not allow, or of a
    thread that does not exist, is a stutter. *)
Definition step (t : nat) (a : action) (s : sys) : outcome sys :=
  match threads s !! t with
  | None => Ret s
  | Some p =>
    '(p, s) ← act a p s;
    Ret (mk_sys (sq s) (<[t := p]> (threads s)) (pushed s) (taken s) (returned s))
  end.

Fixpoint run (sched : list (nat * action)) (s : sys) : outcome sys :=
  match sched with
  | [] => Ret s
  | (t, a) :: sched => s ← step t a s; run sched s
  end.

Definition start (n : nat) : outcome sys :=
  q ← LockFreeQueue_new; Ret (mk_sys q (replicate n Idle) [] 0 []).
End queue.

(** ** The successor of an index *)

Lemma mod_near n a b : a < b + n → b < a + n → a `mod` n = b `mod` n → a = b.
Proof.
  intros Hab Hba E. pose proof (Nat.div_mod_eq a n) as Ea. pose proof (Nat.div_mod_eq b n) as Eb.
  rewrite E in Ea. assert (a `div` n = b `div` n); [|congruence]. nia.
Qed.

Lemma succ_mod n a : n ≠ 0 → S (a `mod` n) `mod` n = S a `mod` n.
Proof. intros Hn. rewrite <- !Nat.add_1_l. by apply Nat.Div0.add_mod_idemp_r. Qed.

Lemma array_set_run {A} i (x : A) arr :
  i < length arr → array_set i x arr = Ret (<[i := x]> arr).
Proof. intros H. unfold array_set. by rewrite decide_True. Qed.

Lemma fill_next_spec n i arr :
  i + n ≤ length arr →
  ∃ arr', fill_next n i arr = Ret arr' ∧ length arr' = length arr ∧
    (∀ j, i ≤ j < i + n → arr' !! j = Some (w32 (Z.of_nat j + 1))) ∧
    (∀ j, j < i ∨ i + n ≤ j → arr' !! j = arr !! j).
Proof.
  revert i arr. induction n as [|n IH]; intros i arr Hn; cbn [fill_next].
  { exists arr. split_and!; [done..|lia|done]. }
  rewrite array_set_run by lia. cbn [mbind outcome_bind].
  destruct (IH (S i) (<[i := w32 (Z.of_nat i + 1)]> arr)) as (arr' & -> & Hl & Hin & Hout).
  { rewrite length_insert. lia. }
  exists arr'. rewrite length_insert in Hl. split_and!; [done..| |].
  - intros j Hj. destruct (decide (i = j)) as [->|]; [|apply Hin; lia].
    rewrite Hout by lia. by rewrite list_lookup_insert_eq by lia.
  - intros j Hj. rewrite Hout by lia. rewrite list_lookup_insert_ne by lia. done.
Qed.

Lemma w32_small z : (0 ≤ z < 2 ^ 32)%Z → w32 z = z.
Proof. intros H. by apply Z.mod_small. Qed.

Section next.
Context {T : Type} (capacity : nat) (dflt : T).
Context (Hcap : 0 < capacity ≤ SMALL_INTEGER_OPTIMISATION_LIMIT).

(** The table the constructor builds. *)
Definition next_table_ok (q : LockFreeQueue T) : Prop :=
  ∀ i, i < capacity → next_arr q !! i = Some (Z.of_nat (S i `mod` capacity)).

Lemma LockFreeQueue_new_run :
  ∃ arr, LockFreeQueue_new capacity dflt = Ret (mk_Queue (replicate capacity dflt) 0 0 0 arr) ∧
    next_table_ok (mk_Queue (replicate capacity dflt) 0 0 0 arr).
Proof using Hcap.
  unfold SMALL_INTEGER_OPTIMISATION_LIMIT in Hcap.
  unfold LockFreeQueue_new.
  destruct (fill_next_spec capacity 0 (replicate capacity 0%Z)) as (arr & -> & Hl & Hin & _).
  { by rewrite length_replicate. }
  rewrite length_replicate in Hl. cbn [mbind outcome_bind].
  rewrite w32_small by lia.
  replace (Z.to_nat (Z.of_nat capacity - 1)) with (capacity - 1) by lia.
  rewrite array_set_run by lia. eexists. split; [done|].
  intros i Hi. cbn [next_arr]. destruct (decide (i = capacity - 1)) as [->|Hne].
  - rewrite list_lookup_insert_eq by lia. replace (S (capacity - 1)) with capacity by lia.
    by rewrite Nat.Div0.mod_same.
  - rewrite list_lookup_insert_ne, Hin by lia. rewrite w32_small by lia.
    rewrite Nat.mod_small by lia. do 2 f_equal. lia.
Qed.

Lemma next_run (q : LockFreeQueue T) i :
  next_table_ok q → i < capacity →
  next capacity q (Z.of_nat i) = Ret (Z.of_nat (S i `mod` capacity)).
Proof using Hcap.
  unfold SMALL_INTEGER_OPTIMISATION_LIMIT in Hcap. intros Hq Hi. unfold next, array_at.
  case_decide; [by rewrite Nat2Z.id, Hq|]. rewrite w32_small by lia.
  rewrite Nat2Z.inj_mod. do 2 f_equal. lia.
Qed.

Lemma next_mod_run (q : LockFreeQueue T) n :
  next_table_ok q →
  next capacity q (Z.of_nat (n `mod` capacity)) = Ret (Z.of_nat (S n `mod` capacity)).
Proof using Hcap.
  intros Hq. rewrite next_run by (done || apply Nat.mod_upper_bound; lia).
  rewrite succ_mod by lia. done.
Qed.
End next.

(** ** One thread: a FIFO queue of [capacity - 1] elements *)

Section sequential.
Context {T : Type} (capacity : nat) (dflt : T) (moved : T → T).
Context (Hcap : 0 < capacity ≤ SMALL_INTEGER_OPTIMISATION_LIMIT).
Implicit Types (q : LockFreeQueue T) (l : list T) (x : T).

(** The slot of the [n]-th element that goes through the queue. *)
Definition slot (n : nat) : nat := n `mod` capacity.

Lemma slot_lt n : slot n < capacity.
Proof using Hcap. apply Nat.mod_upper_bound. lia. Qed.

Lemma next_slot q n :
  next_table_ok capacity q →
  next capacity q (Z.of_nat (slot n)) = Ret (Z.of_nat (slot (S n))).
Proof using Hcap. apply next_mod_run. done. Qed.

Lemma slot_inj a b : a < b + capacity → b < a + capacity → slot a = slot b → a = b.
Proof using. apply mod_near. Qed.

(** [q] holds the elements [l], the first of which is the [n]-th. *)
Record holds_at (n : nat) q l : Prop := {
  holds_head : head_ q = Z.of_nat (slot n);
  holds_tail : tail_ q = Z.of_nat (slot (n + length l));
  holds_length : length (arr_ q) = capacity;
  holds_next : next_table_ok capacity q;
  holds_bound : length l < capacity;
  holds_slot i x : l !! i = Some x → arr_ q !! slot (n + i) = Some x }.

Definition holds q l : Prop := ∃ n, holds_at n q l.

Lemma holds_new : ∃ q, LockFreeQueue_new capacity dflt = Ret q ∧ holds q [].
Proof using Hcap.
  destruct (LockFreeQueue_new_run capacity dflt Hcap) as (arr & Hn & Ht).
  eexists. split; [exact Hn|]. exists 0. split; simpl.
  - unfold slot. by rewrite Nat.Div0.mod_0_l.
  - unfold slot. by rewrite Nat.Div0.mod_0_l.
  - by rewrite length_replicate.
  - done.
  - lia.
  - done.
Qed.

Lemma holds_empty q l : holds q l → empty q = true ↔ l = [].
Proof using Hcap.
  intros [n [Hh Ht _ _ Hb _]]. unfold empty. rewrite bool_decide_eq_true, Hh, Ht. split.
  - intros E%Nat2Z.inj%slot_inj; [|lia..]. destruct l; simpl in E; [done|lia].
  - intros ->. simpl. by rewrite Nat.add_0_r.
Qed.

Lemma holds_full q l : holds q l → full capacity q = Ret (bool_decide (S (length l) = capacity)).
Proof using Hcap.
  intros [n [Hh Ht _ Hn Hb _]]. unfold full, slot in *. rewrite Ht, next_mod_run by done.
  cbn [mbind outcome_bind]. f_equal. apply bool_decide_ext. rewrite Hh.
  replace (S (n + length l)) with (n + S (length l)) by lia. split.
  - intros E%Nat2Z.inj. destruct (decide (S (length l) = capacity)) as [?|Hne]; [done|].
    apply mod_near in E; lia.
  - intros ->. by rewrite <- Nat.Div0.add_mod_idemp_r, Nat.Div0.mod_same, Nat.add_0_r.
Qed.

Lemma write_slot_run i x q :
  i < length (arr_ q) →
  write_slot (Z.of_nat i) x q =
  Ret ((), mk_Queue (<[i := x]> (arr_ q)) (head_ q) (tail_ q) (size_ q) (next_arr q)).
Proof using. intros H. unfold write_slot. by rewrite Nat2Z.id, array_set_run. Qed.

Lemma take_slot_run i x q :
  arr_ q !! i = Some x →
  take_slot moved (Z.of_nat i) q =
  Ret (x, mk_Queue (<[i := moved x]> (arr_ q)) (head_ q) (tail_ q) (size_ q) (next_arr q)).
Proof using.
  intros H. unfold take_slot, array_at. rewrite Nat2Z.id, H. cbn [mbind outcome_bind].
  by rewrite array_set_run by by eapply lookup_lt_Some.
Qed.

Lemma push_run n q l x :
  holds_at n q l →
  push capacity x q = Ret (true, mk_Queue (<[slot (n + length l) := x]> (arr_ q)) (head_ q)
    (Z.of_nat (slot (S (n + length l)))) (w32 (size_ q + 1)) (next_arr q)).
Proof using Hcap.
  intros [Hh Ht Hl Hn Hb Hs]. unfold push. rewrite (M_bind_run get _ q q q eq_refl).
  cbv beta zeta. rewrite Ht.
  erewrite M_bind_run by (by apply liftO_run, next_mod_run).
  erewrite M_bind_run by (apply write_slot_run; rewrite Hl; apply slot_lt).
  done.
Qed.

Lemma holds_push q l x :
  holds q l → S (length l) < capacity →
  ∃ q', push capacity x q = Ret (true, q') ∧ holds q' (l ++ [x]).
Proof using Hcap.
  intros [n H] Hlt. rewrite (push_run n q l x H). eexists. split; [done|].
  destruct H as [Hh Ht Hl Hn Hb Hs]. exists n. split; cbn.
  - done.
  - rewrite length_app. simpl. do 2 f_equal. lia.
  - by rewrite length_insert.
  - done.
  - rewrite length_app. simpl. lia.
  - intros i y [[Hi Hy]|[Hi [= <-]]]%lookup_snoc_Some.
    + rewrite list_lookup_insert_ne; [by apply Hs|]. intros E%slot_inj; lia.
    + rewrite Hi, list_lookup_insert_eq; [done|]. rewrite Hl. apply slot_lt.
Qed.

(** On a full queue the tail reaches the head. *)
Lemma holds_push_full q l x :
  holds q l → S (length l) = capacity →
  ∃ q', push capacity x q = Ret (true, q') ∧ holds q' [].
Proof using Hcap.
  intros [n H] Hf. rewrite (push_run n q l x H). eexists. split; [done|].
  destruct H as [Hh Ht Hl Hn Hb Hs]. exists n. split; cbn; [done| |by rewrite length_insert|done|lia|done].
  f_equal. unfold slot. replace (S (n + length l)) with (n + capacity) by lia.
  by rewrite <- Nat.Div0.add_mod_idemp_r, Nat.Div0.mod_same.
Qed.

(** [pop] fails on an empty queue, and when its exchange does. *)
Lemma holds_pop_fails q l spurious :
  holds q l → spurious = true ∨ l = [] → pop capacity moved spurious q = Ret (None, q).
Proof using Hcap.
  intros H Hor. pose proof (holds_empty q l H) as He. unfold empty in He.
  rewrite bool_decide_eq_true in He. destruct H as [n [Hh _ _ Hn _ _]].
  unfold pop. rewrite (M_bind_run get _ q q q eq_refl). cbv beta zeta.
  case_decide as Hd; [done|]. destruct Hor as [->| ->]; [|tauto].
  erewrite M_bind_run by (apply liftO_run; rewrite Hh; by apply next_mod_run).
  rewrite (M_bind_run _ _ q false q); [done|].
  unfold cas_head. rewrite decide_False; [done|]. by intros [_ ?].
Qed.

Lemma holds_pop q l x :
  holds q (x :: l) →
  ∃ q', pop capacity moved false q = Ret (Some x, q') ∧ holds q' l.
Proof using Hcap.
  intros [n [Hh Ht Hl Hn Hb Hs]]. simpl in Hb, Ht.
  unfold pop. rewrite (M_bind_run get _ q q q eq_refl). cbv beta zeta.
  rewrite decide_False.
  2: { rewrite Hh, Ht. intros E%Nat2Z.inj%slot_inj; lia. }
  erewrite M_bind_run by (apply liftO_run; rewrite Hh; by apply next_mod_run).
  unfold cas_head at 1. erewrite M_bind_run by by rewrite decide_True.
  pose proof (Hs 0 x eq_refl) as H0. rewrite Nat.add_0_r in H0.
  rewrite Hh. erewrite M_bind_run by by apply take_slot_run.
  erewrite M_bind_run by done.
  eexists. split; [done|]. exists (S n). split; cbn.
  - done.
  - rewrite Ht. do 2 f_equal. lia.
  - by rewrite length_insert.
  - done.
  - lia.
  - intros i y Hi. pose proof (lookup_lt_Some _ _ _ Hi).
    rewrite list_lookup_insert_ne by (intros E%slot_inj; lia).
    rewrite <- (Hs (S i) y Hi). do 2 f_equal. lia.
Qed.
End sequential.

(** The table of successors is the modulo: on every queue the constructor makes,
    for every capacity up to 100 and every index, the table [next_arr] holds
    [(index + 1) % capacity], so [next] gives the same result on both sides of its
    [if constexpr], without wrapping around. *)
Lemma next_arr_is_modulo {T} (capacity : nat) (dflt : T) :
  0 < capacity ≤ SMALL_INTEGER_OPTIMISATION_LIMIT →
  ∃ q, LockFreeQueue_new capacity dflt = Ret q ∧
    ∀ i, i < capacity →
      next_arr q !! i = Some ((Z.of_nat i + 1) `mod` Z.of_nat capacity)%Z ∧
      next capacity q (Z.of_nat i) = Ret ((Z.of_nat i + 1) `mod` Z.of_nat capacity)%Z.
Proof.
  intros Hcap. destruct (LockFreeQueue_new_run capacity dflt Hcap) as (arr & Hq & Ht).
  eexists. split; [exact Hq|]. intros i Hi. rewrite (next_run capacity Hcap) by done.
  rewrite (Ht i Hi), Nat2Z.inj_mod. replace (Z.of_nat (S i)) with (Z.of_nat i + 1)%Z by lia.
  done.
Qed.

Lemma next_arr_is_modulo_witness :
  ∃ q, LockFreeQueue_new 3 0 = Ret q ∧
    ∀ i, i < 3 →
      next_arr q !! i = Some ((Z.of_nat i + 1) `mod` 3)%Z ∧
      next 3 q (Z.of_nat i) = Ret ((Z.of_nat i + 1) `mod` 3)%Z.
Proof. apply (next_arr_is_modulo 3 0). unfold SMALL_INTEGER_OPTIMISATION_LIMIT. lia. Defined.

(** C16: used by one thread, the queue refines a FIFO list of at most [capacity - 1]
    elements: the constructor makes the empty list, [empty] and [full] answer for
    the list, [push] appends while there is room, [pop] takes the first element,
    fails on the empty list, and changes nothing when its exchange fails. *)
Theorem queue_refines_fifo {T} (capacity : nat) (dflt : T) (moved : T → T) :
  0 < capacity ≤ SMALL_INTEGER_OPTIMISATION_LIMIT →
  (∃ q, LockFreeQueue_new capacity dflt = Ret q ∧ holds capacity q []) ∧
  ∀ q l, holds capacity q l →
    empty q = bool_decide (l = []) ∧
    full capacity q = Ret (bool_decide (S (length l) = capacity)) ∧
    (∀ x, S (length l) < capacity →
       ∃ q', push capacity x q = Ret (true, q') ∧ holds capacity q' (l ++ [x])) ∧
    match l with
    | [] => ∀ spurious, pop capacity moved spurious q = Ret (None, q)
    | x :: l' =>
        pop capacity moved true q = Ret (None, q) ∧
        ∃ q', pop capacity moved false q = Ret (Some x, q') ∧ holds capacity q' l'
    end.
Proof.
  intros Hcap. split; [by apply holds_new|]. intros q l H. split_and!.
  - apply eq_true_iff_eq. rewrite (holds_empty capacity Hcap q l H). by rewrite bool_decide_eq_true.
  - by apply holds_full.
  - intros x. by apply holds_push.
  - destruct l as [|x l].
    + intros spurious. apply (holds_pop_fails capacity moved Hcap q [] spurious H). by right.
    + split; [|by apply holds_pop].
      apply (holds_pop_fails capacity moved Hcap q _ true H). by left.
Qed.

Lemma queue_refines_fifo_witness :
  ∃ q, LockFreeQueue_new 3 0 = Ret q ∧ holds 3 q [].
Proof. apply (queue_refines_fifo 3 0 id). unfold SMALL_INTEGER_OPTIMISATION_LIMIT. lia. Defined.

(** [push] does not look whether there is room.  On a queue that [full] reports
    full it still answers [true], and the queue is empty afterwards: all its
    elements and the new one are lost. *)
Lemma push_on_full_loses_all {T} (capacity : nat) (q : LockFreeQueue T) (l : list T) (x : T) :
  0 < capacity ≤ SMALL_INTEGER_OPTIMISATION_LIMIT →
  holds capacity q l → full capacity q = Ret true →
  ∃ q', push capacity x q = Ret (true, q') ∧ holds capacity q' [] ∧ empty q' = true.
Proof.
  intros Hcap H Hf. rewrite (holds_full capacity Hcap q l H) in Hf.
  injection Hf as Hf%bool_decide_eq_true.
  destruct (holds_push_full capacity Hcap q l x H Hf) as (q' & Hp & Hh).
  exists q'. split_and!; [done..|].
  by apply (holds_empty capacity Hcap q' []).
Qed.

(** A full queue of three slots. *)
Definition example_full : LockFreeQueue nat := mk_Queue [10; 11; 0] 0 2 2 [1; 2; 0]%Z.

Lemma example_full_holds : holds 3 example_full [10; 11].
Proof.
  exists 0. split; [done|done|done| |simpl; lia|].
  - intros [|[|[|i]]] Hi; [done..|lia].
  - by intros [|[|i]] x [=<-].
Qed.

Lemma push_on_full_loses_all_witness :
  ∃ q', push 3 12 example_full = Ret (true, q') ∧ holds 3 q' [] ∧ empty q' = true.
Proof.
  apply (push_on_full_loses_all 3 example_full [10; 11] 12).
  - unfold SMALL_INTEGER_OPTIMISATION_LIMIT. lia.
  - apply example_full_holds.
  - reflexivity.
Defined.

(** ** Several threads: every element is returned once, in turn

    The queue is correct for one producer and any number of consumers as long as
    the producer never laps a consumer: a push may start only if its element and
    the gap after it fit into the ring not only behind the head, but also behind
    the head that every consumer inside [pop] has read. *)

Section concurrent.
Context {T : Type} (capacity : nat) (dflt : T) (moved : T → T).
Context (Hcap : 0 < capacity ≤ SMALL_INTEGER_OPTIMISATION_LIMIT).
Abbreviation slot := (slot capacity).
Abbreviation pc := (@pc T).
Abbreviation sys := (@sys T).

(** Whether an operation is about to write a slot or the tail. *)
Definition pushing (p : pc) : option () :=
  match p with PushLoaded _ _ _ | PushWritten _ _ => Some () | _ => None end.

(** The element an operation has taken and not yet returned. *)
Definition owns (p : pc) : option nat :=
  match p with PopWon _ c | PopRead _ c => Some c | _ => None end.

(** The number of elements taken when a consumer read the head it may still
    use. *)
Definition lap (p : pc) : option nat :=
  match p with PopLoaded _ c | PopChecked _ c | PopWon _ c => Some c | _ => None end.

Definition may_push (s : sys) : Prop :=
  Forall (λ p, pushing p = None ∧
    match lap p with Some c => length (pushed s) + 1 < c + capacity | None => True end)
    (threads s) ∧
  length (pushed s) + 1 < taken s + capacity.

Fixpoint disciplined (sched : list (nat * action)) (s : sys) : Prop :=
  match sched with
  | [] => True
  | (t, a) :: sched =>
    match a with StartPush _ => may_push s | _ => True end ∧
    match step capacity moved t a s with Ret s' => disciplined sched s' | _ => True end
  end.

#[export] Instance may_push_dec s : Decision (may_push s).
Proof using.
  apply and_dec; [|apply _]. apply Forall_dec. intros p. apply and_dec; [apply _|].
  destruct (lap p); apply _.
Defined.

#[export] Instance disciplined_dec sched s : Decision (disciplined sched s).
Proof using.
  revert s. induction sched as [|[t a] sched IH]; intros s; [left; exact I|].
  apply and_dec; [destruct a; apply _|].
  destruct (step capacity moved t a s); [apply IH|left; exact I..].
Defined.

(** What a thread knows, given the elements pushed, the number taken, the slots
    and whether a push is under way. *)
Definition thread_ok (ps : list T) (tk : nat) (arr : list T) (pend : nat) (p : pc) : Prop :=
  match p with
  | Idle | PushStored => True
  | PushLoaded x tail n =>
      tail = Z.of_nat (slot (length ps)) ∧ n = Z.of_nat (slot (S (length ps))) ∧ pend = 1
  | PushWritten x n =>
      n = Z.of_nat (slot (S (length ps))) ∧ arr !! slot (length ps) = Some x ∧ pend = 1
  | PopLoaded h c =>
      h = Z.of_nat (slot c) ∧ c ≤ tk ∧ length ps + pend < c + capacity
  | PopChecked h c =>
      h = Z.of_nat (slot c) ∧ c ≤ tk ∧ length ps + pend < c + capacity ∧ c < length ps
  | PopWon h c =>
      h = Z.of_nat (slot c) ∧ c < tk ∧ length ps + pend < c + capacity ∧
      arr !! slot c = ps !! c
  | PopRead x c => c < tk ∧ ps !! c = Some x
  end.

(** The shared object. *)
Record queue_ok (ps : list T) (tk pend : nat) (q : LockFreeQueue T) : Prop := {
  q_length : length (arr_ q) = capacity;
  q_next : next_table_ok capacity q;
  q_head : head_ q = Z.of_nat (slot tk);
  q_tail : tail_ q = Z.of_nat (slot (length ps));
  q_le : tk ≤ length ps;
  q_room : length ps + pend < tk + capacity;
  q_slots i : tk ≤ i < length ps → arr_ q !! slot i = ps !! i }.

(** The elements returned. *)
Record returned_ok (ps : list T) (tk : nat) (ts : list pc) (rs : list (nat * T)) : Prop := {
  r_value i x : (i, x) ∈ rs → i < tk ∧ ps !! i = Some x;
  r_nodup : NoDup rs.*1;
  r_own t p : ts !! t = Some p → ∀ c, owns p = Some c → c ∉ rs.*1;
  r_all i : i < tk → i ∈ rs.*1 ∨ ∃ t p, ts !! t = Some p ∧ owns p = Some i }.

Record inv_at (pend : nat) (s : sys) : Prop := {
  i_queue : queue_ok (pushed s) (taken s) pend (sq s);
  i_thread t p : threads s !! t = Some p →
    thread_ok (pushed s) (taken s) (arr_ (sq s)) pend p;
  i_one t t' p p' u : threads s !! t = Some p → threads s !! t' = Some p' →
    pushing p = Some u → pushing p' = Some u → t = t';
  i_own t t' p p' c : threads s !! t = Some p → threads s !! t' = Some p' →
    owns p = Some c → owns p' = Some c → t = t';
  i_returned : returned_ok (pushed s) (taken s) (threads s) (returned s) }.

Definition inv (s : sys) : Prop := ∃ pend, inv_at pend s.

(** Replacing one thread's state: what must hold of the new one. *)
Lemma insert_threads (ts : list pc) t p (P : nat → pc → Prop) :
  (t < length ts → P t p) → (∀ t' p', t' ≠ t → ts !! t' = Some p' → P t' p') →
  ∀ t' p', <[t := p]> ts !! t' = Some p' → P t' p'.
Proof using.
  intros Hp Hts t' p' [(-> & -> & Hlt)|[Hne Hl]]%list_lookup_insert_Some; auto.
Qed.

Lemma insert_unique {A} (ts : list pc) t p0 p (f : pc → option A) :
  ts !! t = Some p0 →
  (∀ a, f p = Some a → f p0 = Some a ∨ ∀ t' p', ts !! t' = Some p' → f p' ≠ Some a) →
  (∀ t1 t2 p1 p2 a, ts !! t1 = Some p1 → ts !! t2 = Some p2 →
     f p1 = Some a → f p2 = Some a → t1 = t2) →
  ∀ t1 t2 p1 p2 a, <[t := p]> ts !! t1 = Some p1 → <[t := p]> ts !! t2 = Some p2 →
     f p1 = Some a → f p2 = Some a → t1 = t2.
Proof using.
  intros Ht Hp Hu t1 t2 p1 p2 a.
  intros [(-> & -> & _)|[Hne1 H1]]%list_lookup_insert_Some
         [(-> & -> & _)|[Hne2 H2]]%list_lookup_insert_Some E1 E2; [done|..].
  - destruct (Hp a E1) as [E0|Hn]; [by eapply Hu|by destruct (Hn t2 p2)].
  - destruct (Hp a E2) as [E0|Hn]; [by eapply Hu|by destruct (Hn t1 p1)].
  - by eapply Hu.
Qed.

Lemma returned_same ps tk ts rs t p0 p :
  ts !! t = Some p0 → owns p = owns p0 →
  returned_ok ps tk ts rs → returned_ok ps tk (<[t := p]> ts) rs.
Proof using.
  clear Hcap.
  intros Ht Hp [V N O A]. split; [done..| |].
  - apply (insert_threads ts t p (λ _ p, ∀ c, owns p = Some c → c ∉ rs.*1)); [|eauto].
    intros _ c. rewrite Hp. by eapply O.
  - intros i Hi. destruct (A i Hi) as [?|(t' & p' & Ht' & Ho)]; [by left|]. right.
    destruct (decide (t = t')) as [<-|Hne].
    + exists t, p. rewrite list_lookup_insert_eq by by eapply lookup_lt_Some.
      split; [done|]. rewrite Hp. congruence.
    + exists t', p'. by rewrite list_lookup_insert_ne.
Qed.

Lemma returned_push ps tk ts rs x : returned_ok ps tk ts rs → returned_ok (ps ++ [x]) tk ts rs.
Proof using.
  clear Hcap.
  intros [V N O A]. split; [|done..]. intros i y [? ?]%V. split; [done|].
  by apply lookup_app_l_Some.
Qed.

(** The thread [t] takes element [tk]. *)
Lemma returned_take ps tk ts rs t p0 p :
  ts !! t = Some p0 → owns p0 = None → owns p = Some tk →
  returned_ok ps tk ts rs → returned_ok ps (S tk) (<[t := p]> ts) rs.
Proof using.
  clear Hcap dflt moved.
  intros Ht Hp0 Hp [V N O A]. split; [| done| |].
  - intros i x [? ?]%V. split; [lia|done].
  - apply (insert_threads ts t p (λ _ p, ∀ c, owns p = Some c → c ∉ rs.*1)); [|eauto].
    intros _ c. rewrite Hp. intros [= <-] ([i x] & -> & Hin)%list_elem_of_fmap.
    apply V in Hin as [? _]. simpl in *. lia.
  - intros i Hi. pose proof (lookup_lt_Some _ _ _ Ht). destruct (decide (i = tk)) as [->|Hne].
    { right. exists t, p. by rewrite list_lookup_insert_eq. }
    destruct (A i) as [?|(t' & p' & Ht' & Ho)]; [lia|by left|]. right.
    exists t', p'. rewrite list_lookup_insert_ne; [done|]. intros ->. congruence.
Qed.

(** The thread [t] returns the element it owns. *)
Lemma returned_give ps tk ts rs t x c p :
  ts !! t = Some (PopRead x c) → owns p = None →
  (∀ t' p', ts !! t' = Some p' → owns p' = Some c → t = t') →
  c < tk → ps !! c = Some x →
  returned_ok ps tk ts rs → returned_ok ps tk (<[t := p]> ts) (rs ++ [(c, x)]).
Proof using.
  clear Hcap.
  intros Ht Hp Hu Hc Hx [V N O A].
  assert (Hin : ∀ i, i ∈ (rs ++ [(c, x)]).*1 ↔ i ∈ rs.*1 ∨ i = c).
  { intros i. rewrite fmap_app, elem_of_app. simpl. by rewrite list_elem_of_singleton. }
  split.
  - intros i y [?|E]%elem_of_app; [by apply V|]. by apply list_elem_of_singleton in E as [= -> ->].
  - rewrite fmap_app. apply NoDup_app. split_and!; [done| |apply NoDup_singleton].
    intros i Hi E. apply list_elem_of_singleton in E as ->. by apply (O t _ Ht c).
  - apply (insert_threads ts t p (λ _ p, ∀ i, owns p = Some i → i ∉ (rs ++ [(c, x)]).*1)).
    + intros _ i. by rewrite Hp.
    + intros t' p' Hne Ht' i Hi. rewrite Hin. intros [Hr| ->]; [by apply (O t' p' Ht' i)|].
      destruct Hne. symmetry. by apply (Hu t' p').
  - intros i Hi. rewrite Hin. destruct (A i Hi) as [?|(t' & p' & Ht' & Ho)]; [by left; left|].
    destruct (decide (t = t')) as [<-|Hne].
    + left. right. rewrite Ht in Ht'. by simplify_eq/=.
    + right. exists t', p'. by rewrite list_lookup_insert_ne.
Qed.

(** *** The object under each action *)

Lemma queue_size ps tk pend q n :
  queue_ok ps tk pend q →
  queue_ok ps tk pend (mk_Queue (arr_ q) (head_ q) (tail_ q) n (next_arr q)).
Proof using. by intros []. Qed.

Lemma queue_write ps tk q x :
  queue_ok ps tk 1 q →
  queue_ok ps tk 1 (mk_Queue (<[slot (length ps) := x]> (arr_ q)) (head_ q) (tail_ q)
    (size_ q) (next_arr q)).
Proof using Hcap.
  intros [L N H Tl Le R S]. split; cbn; try done; [by rewrite length_insert|].
  intros i Hi. rewrite list_lookup_insert_ne; [by apply S|]. intros E%slot_inj; lia.
Qed.

Lemma queue_store ps tk q x :
  queue_ok ps tk 1 q → arr_ q !! slot (length ps) = Some x →
  queue_ok (ps ++ [x]) tk 0 (mk_Queue (arr_ q) (head_ q) (Z.of_nat (slot (S (length ps))))
    (size_ q) (next_arr q)).
Proof using Hcap.
  intros [L N H Tl Le R S] Hx. split; cbn; rewrite ?length_app; cbn; try done; try lia.
  - f_equal. f_equal. lia.
  - intros i Hi. destruct (decide (i = length ps)) as [->|Hne].
    + by rewrite Hx, list_lookup_middle.
    + rewrite S by lia. symmetry. apply lookup_app_l. lia.
Qed.

Lemma queue_take ps tk pend q :
  queue_ok ps tk pend q → tk < length ps →
  queue_ok ps (S tk) pend (mk_Queue (arr_ q) (Z.of_nat (slot (S tk))) (tail_ q)
    (size_ q) (next_arr q)).
Proof using.
  clear Hcap dflt moved.
  intros [L N H Tl Le R S] Hlt. split; cbn; try done; try lia. intros i Hi. apply S. lia.
Qed.

Lemma queue_move ps tk pend q c x :
  queue_ok ps tk pend q → c < tk → length ps + pend < c + capacity →
  queue_ok ps tk pend (mk_Queue (<[slot c := x]> (arr_ q)) (head_ q) (tail_ q)
    (size_ q) (next_arr q)).
Proof using Hcap.
  intros [L N H Tl Le R S] Hc Hr. split; cbn; try done; [by rewrite length_insert|].
  intros i Hi. rewrite list_lookup_insert_ne; [by apply S|]. intros E%slot_inj; lia.
Qed.

(** *** The other threads under each action *)

Lemma thread_write ps tk arr x p :
  tk ≤ length ps → pushing p = None →
  thread_ok ps tk arr 1 p → thread_ok ps tk (<[slot (length ps) := x]> arr) 1 p.
Proof using Hcap.
  intros Hle Hp. destruct p; simpl in *; try done. intros (? & ? & ? & H).
  split_and!; try done. rewrite list_lookup_insert_ne; [done|]. intros E%slot_inj; lia.
Qed.

Lemma thread_store ps tk arr x p :
  tk ≤ length ps → pushing p = None →
  thread_ok ps tk arr 1 p → thread_ok (ps ++ [x]) tk arr 0 p.
Proof using Hcap.
  intros Hle Hp. destruct p; simpl in *; rewrite ?length_app; simpl; try done.
  - intros (? & ? & ?). split_and!; try done; lia.
  - intros (? & ? & ? & ?). split_and!; try done; lia.
  - intros (? & ? & ? & ->). split_and!; try done; try lia. symmetry. apply lookup_app_l. lia.
  - intros (? & ?). split; [done|]. by apply lookup_app_l_Some.
Qed.

Lemma thread_take ps tk arr pend p :
  thread_ok ps tk arr pend p → thread_ok ps (S tk) arr pend p.
Proof using.
  clear Hcap dflt moved. destruct p; simpl; intuition lia. Qed.

Lemma thread_move ps tk arr pend p c x :
  tk ≤ length ps → c < tk → length ps + pend < c + capacity → owns p ≠ Some c →
  thread_ok ps tk arr pend p → thread_ok ps tk (<[slot c := x]> arr) pend p.
Proof using Hcap.
  clear dflt moved.
  intros Hle Hc Hr Ho. destruct p as [| |y n| | |h c'|h c'|]; simpl in *; try done.
  - intros (? & ? & ->). split_and!; try done.
    rewrite list_lookup_insert_ne; [done|]. intros E%slot_inj; lia.
  - intros (? & ? & ? & ?). split_and!; try done.
    rewrite list_lookup_insert_ne; [done|]. intros E%slot_inj; [congruence|lia..].
Qed.

(** *** Every action keeps the invariant *)

Lemma inv_update pend pend' s t p0 p q' ps' tk' rs' :
  inv_at pend s → threads s !! t = Some p0 →
  queue_ok ps' tk' pend' q' → thread_ok ps' tk' (arr_ q') pend' p →
  (∀ t' p', t' ≠ t → threads s !! t' = Some p' →
     thread_ok (pushed s) (taken s) (arr_ (sq s)) pend p' →
     thread_ok ps' tk' (arr_ q') pend' p') →
  (∀ u, pushing p = Some u → pushing p0 = Some u ∨
     ∀ t' p', threads s !! t' = Some p' → pushing p' ≠ Some u) →
  (∀ c, owns p = Some c → owns p0 = Some c ∨
     ∀ t' p', threads s !! t' = Some p' → owns p' ≠ Some c) →
  returned_ok ps' tk' (<[t := p]> (threads s)) rs' →
  inv (mk_sys q' (<[t := p]> (threads s)) ps' tk' rs').
Proof using.
  intros [Q Th One Own _] Ht Hq Hp Hoth Hpu Hown Hr. exists pend'. split; cbn; [done| | | |done].
  - apply (insert_threads (threads s) t p (λ _, thread_ok ps' tk' (arr_ q') pend')); [done|].
    intros t' p' Hne Ht'. apply (Hoth t' p' Hne Ht'). by eapply Th.
  - by apply (insert_unique (threads s) t p0 p pushing).
  - by apply (insert_unique (threads s) t p0 p owns).
Qed.

(** The result of an action on thread [t]. *)
Definition acted (t : nat) (a : action) (p0 : pc) (s : sys) : Prop :=
  ∃ p s1, act capacity moved a p0 s = Ret (p, s1) ∧ threads s1 = threads s ∧
    inv (mk_sys (sq s1) (<[t := p]> (threads s)) (pushed s1) (taken s1) (returned s1)).

Lemma no_writer s t p0 pend :
  inv_at pend s → threads s !! t = Some p0 → pushing p0 = Some () →
  ∀ t' p', t' ≠ t → threads s !! t' = Some p' → pushing p' = None.
Proof using.
  intros I Ht Hp t' p' Hne Ht'. destruct (pushing p') as [[]|] eqn:E; [|done].
  destruct Hne. by apply (i_one _ _ I t' t p' p0 ()).
Qed.

Lemma act_idle s t p0 pend a :
  inv_at pend s → threads s !! t = Some p0 → act capacity moved a p0 s = Ret (p0, s) →
  acted t a p0 s.
Proof using.
  intros I Ht Ha. exists p0, s. split_and!; [done..|]. rewrite list_insert_id by done.
  exists pend. by destruct s.
Qed.

Lemma act_start_push s t pend x :
  inv_at pend s → threads s !! t = Some Idle → may_push s → acted t (StartPush x) Idle s.
Proof using Hcap.
  intros I Ht [Hall Hroom]. pose proof (i_queue _ _ I) as Q.
  unfold acted. cbn [act]. rewrite (q_tail _ _ _ _ Q).
  rewrite next_slot by (done || apply Q). cbn [mbind outcome_bind].
  eexists _, s. split_and!; [done..|].
  assert (Hpend : queue_ok (pushed s) (taken s) 1 (sq s)) by (destruct Q; by split).
  eapply (inv_update pend 1); [exact I|exact Ht|exact Hpend|done| | |done|].
  - intros t' p' _ Ht'. pose proof (proj1 (Forall_lookup _ _) Hall _ _ Ht') as [Hn Hl].
    clear -Hn Hl. destruct p'; simpl in *; try done; intuition lia.
  - intros u _. right. intros t' p' Ht'.
    pose proof (proj1 (Forall_lookup _ _) Hall _ _ Ht') as [Hn _]. by rewrite Hn.
  - eapply returned_same; [exact Ht|done|apply I].
Qed.

Lemma act_start_pop s t pend :
  inv_at pend s → threads s !! t = Some Idle → acted t StartPop Idle s.
Proof using Hcap.
  intros I Ht. pose proof (i_queue _ _ I) as Q. eexists _, s. split_and!; [done..|].
  eapply (inv_update pend pend); [exact I|exact Ht|exact Q| |done|done|done|].
  - cbn. split_and!; [apply Q|done|apply Q].
  - eapply returned_same; [exact Ht|done|apply I].
Qed.

Lemma act_push_loaded s t pend x tail n b :
  inv_at pend s → threads s !! t = Some (PushLoaded x tail n) →
  acted t (Go b) (PushLoaded x tail n) s.
Proof using Hcap.
  intros I Ht. pose proof (i_queue _ _ I) as Q.
  destruct (i_thread _ _ I t _ Ht) as (-> & -> & ->). unfold acted. cbn [act].
  rewrite write_slot_run by (rewrite (q_length _ _ _ _ Q); apply slot_lt; done).
  cbn [mbind outcome_bind]. eexists _, _. split_and!; [done..|]. cbn.
  pose proof (q_le _ _ _ _ Q).
  eapply (inv_update 1 1); [exact I|exact Ht|by apply queue_write| | |by left|done|].
  - cbn. rewrite list_lookup_insert_eq; [done|].
    rewrite (q_length _ _ _ _ Q). apply slot_lt. done.
  - intros t' p' Hne Ht'. apply thread_write; [done|].
    by apply (no_writer s t _ 1 I Ht eq_refl t').
  - eapply returned_same; [exact Ht|done|apply I].
Qed.

Lemma act_push_written s t pend x n b :
  inv_at pend s → threads s !! t = Some (PushWritten x n) →
  acted t (Go b) (PushWritten x n) s.
Proof using Hcap.
  intros I Ht. pose proof (i_queue _ _ I) as Q.
  destruct (i_thread _ _ I t _ Ht) as (-> & Hx & ->). eexists _, _. split_and!; [done..|]. cbn.
  pose proof (q_le _ _ _ _ Q).
  eapply (inv_update 1 0); [exact I|exact Ht|by apply queue_store|done| |done|done|].
  - intros t' p' Hne Ht'. apply thread_store; [done|].
    by apply (no_writer s t _ 1 I Ht eq_refl t').
  - eapply returned_same; [exact Ht|done|]. apply returned_push, I.
Qed.

Lemma act_size s t pend p0 d q' :
  inv_at pend s → threads s !! t = Some p0 → owns p0 = None →
  fetch_add_size d (sq s) = Ret ((), q') →
  inv (mk_sys q' (<[t := Idle]> (threads s)) (pushed s) (taken s) (returned s)).
Proof using Hcap.
  intros I Ht Hp [= <-]. pose proof (i_queue _ _ I) as Q.
  eapply (inv_update pend pend); [exact I|exact Ht|by apply queue_size|done|done|done|done|].
  eapply returned_same; [exact Ht|by rewrite Hp|apply I].
Qed.

(** A pop that goes back to [Idle] with nothing. *)
Lemma inv_give_up s t pend p0 :
  inv_at pend s → threads s !! t = Some p0 → owns p0 = None →
  inv (mk_sys (sq s) (<[t := Idle]> (threads s)) (pushed s) (taken s) (returned s)).
Proof using.
  intros I Ht Hp. eapply (inv_update pend pend); [exact I|exact Ht|apply I|done|done|done|done|].
  eapply returned_same; [exact Ht|by rewrite Hp|apply I].
Qed.

Lemma act_pop_loaded s t pend h c b :
  inv_at pend s → threads s !! t = Some (PopLoaded h c) → acted t (Go b) (PopLoaded h c) s.
Proof using Hcap.
  intros I Ht. pose proof (i_queue _ _ I) as Q.
  destruct (i_thread _ _ I t _ Ht) as (-> & Hc & Hr). unfold acted. cbn [act].
  case_decide as Hh; eexists _, s; (split_and!; [done..|]).
  { by eapply inv_give_up. }
  eapply (inv_update pend pend); [exact I|exact Ht|exact Q| |done|done|done|].
  - cbn. split_and!; [done..|]. pose proof (q_le _ _ _ _ Q).
    destruct (decide (c = length (pushed s))) as [->|]; [|lia].
    by rewrite (q_tail _ _ _ _ Q) in Hh.
  - eapply returned_same; [exact Ht|done|apply I].
Qed.

Lemma act_pop_checked s t pend h c b :
  inv_at pend s → threads s !! t = Some (PopChecked h c) → acted t (Go b) (PopChecked h c) s.
Proof using Hcap.
  intros I Ht. pose proof (i_queue _ _ I) as Q.
  destruct (i_thread _ _ I t _ Ht) as (-> & Hc & Hr & Hlt). unfold acted. cbn [act].
  rewrite next_slot by (done || apply Q). cbn [mbind outcome_bind]. unfold cas_head.
  pose proof (q_le _ _ _ _ Q).
  case_decide as Hh; cbn [outcome_bind]; eexists _, _; (split_and!; [done..|]); cbn;
    [|by eapply inv_give_up].
  destruct Hh as [Hh _]. rewrite (q_head _ _ _ _ Q) in Hh.
  apply Nat2Z.inj, slot_inj in Hh; [|lia..]. subst c.
  eapply (inv_update pend pend); [exact I|exact Ht|by apply queue_take| | |done| |].
  - cbn. split_and!; [done|lia|done|]. by apply (q_slots _ _ _ _ Q).
  - intros t' p' _ _. apply thread_take.
  - intros c [= <-]. right. intros t' p' Ht' Ho. pose proof (i_thread _ _ I t' p' Ht') as Hp'.
    destruct p'; simpl in Ho; simplify_eq; simpl in Hp'; lia.
  - eapply returned_take; [exact Ht|done|done|apply I].
Qed.

Lemma act_pop_won s t pend h c b :
  inv_at pend s → threads s !! t = Some (PopWon h c) → acted t (Go b) (PopWon h c) s.
Proof using Hcap.
  intros I Ht. pose proof (i_queue _ _ I) as Q. pose proof (q_le _ _ _ _ Q).
  destruct (i_thread _ _ I t _ Ht) as (-> & Hc & Hr & Hs).
  destruct (lookup_lt_is_Some_2 (pushed s) c) as [x Hx]; [lia|]. rewrite Hx in Hs.
  unfold acted. cbn [act]. rewrite (take_slot_run moved _ x) by done. cbn [mbind outcome_bind].
  eexists _, _. split_and!; [done..|]. cbn.
  eapply (inv_update pend pend); [exact I|exact Ht|by apply queue_move|done| |done|by left|].
  - intros t' p' Hne Ht'. apply thread_move; [done..|]. intros Ho. destruct Hne.
    by apply (i_own _ _ I t' t p' _ c Ht' Ht).
  - eapply returned_same; [exact Ht|done|apply I].
Qed.

Lemma act_pop_read s t pend x c b :
  inv_at pend s → threads s !! t = Some (PopRead x c) → acted t (Go b) (PopRead x c) s.
Proof using Hcap.
  intros I Ht. pose proof (i_queue _ _ I) as Q.
  destruct (i_thread _ _ I t _ Ht) as (Hc & Hx). eexists _, _. split_and!; [done..|]. cbn.
  eapply (inv_update pend pend); [exact I|exact Ht|by apply queue_size|done|done|done|done|].
  eapply returned_give; [exact Ht|done| |done|done|apply I].
  intros t' p' Ht' Ho. by apply (i_own _ _ I t t' _ p' c Ht Ht').
Qed.

(** No action is undefined, and the invariant is kept. *)
Lemma inv_step t a s :
  inv s → match a with StartPush _ => may_push s | _ => True end →
  ∃ s', step capacity moved t a s = Ret s' ∧ inv s'.
Proof using Hcap.
  intros [pend I] Hpush. unfold step. destruct (threads s !! t) as [p|] eqn:Ht.
  2: { exists s. split; [done|by exists pend]. }
  assert (Ha : acted t a p s).
  { destruct a as [x| |b], p; try (by eapply act_idle);
      eauto using act_start_push, act_start_pop, act_push_loaded, act_push_written,
        act_pop_loaded, act_pop_checked, act_pop_won, act_pop_read.
    eexists _, _. split_and!; [done..|]. cbn. by eapply (act_size s t pend _ 1). }
  destruct Ha as (p' & s1 & -> & Hts & Hinv). cbn [mbind outcome_bind]. rewrite Hts. eauto.
Qed.

Lemma inv_run sched s :
  inv s → disciplined sched s → ∃ s', run capacity moved sched s = Ret s' ∧ inv s'.
Proof using Hcap.
  revert s. induction sched as [|[t a] sched IH]; intros s I; cbn [run disciplined]; [eauto|].
  intros [Hp Hd]. destruct (inv_step t a s I Hp) as (s1 & H1 & I1). rewrite H1 in Hd |- *.
  cbn [mbind outcome_bind]. by apply IH.
Qed.

(** What the invariant says of the elements returned. *)
Lemma inv_delivers pend s :
  inv_at pend s →
  (∀ i x, (i, x) ∈ returned s → pushed s !! i = Some x) ∧
  NoDup (returned s).*1 ∧
  (Forall (.= Idle) (threads s) → (returned s).*1 ≡ₚ seq 0 (taken s)).
Proof using.
  clear Hcap. intros I. destruct (i_returned _ _ I) as [V N O A]. split_and!; [|done|].
  - intros i x Hi. by apply V.
  - intros Hidle. apply NoDup_Permutation; [done|apply NoDup_seq|]. intros i.
    rewrite elem_of_seq. split.
    + intros ([j x] & -> & Hj)%list_elem_of_fmap. apply V in Hj as [? _]. simpl. lia.
    + intros [_ Hi]. destruct (A i) as [?|(t & p & Ht & Ho)]; [lia|done|].
      apply (proj1 (Forall_lookup _ _) Hidle) in Ht as ->. done.
Qed.

Lemma inv_start n : ∃ s, start capacity dflt n = Ret s ∧ inv s.
Proof using Hcap.
  unfold start. destruct (LockFreeQueue_new_run capacity dflt Hcap) as (arr & -> & Ht).
  cbn [mbind outcome_bind]. eexists. split; [done|]. exists 0.
  assert (Hidle : ∀ t p, replicate n (@Idle T) !! t = Some p → p = Idle).
  { by intros t p [-> _]%lookup_replicate_1. }
  split; cbn.
  - split; cbn; try done; try lia; [by rewrite length_replicate|..];
      unfold LockFreeQueue.slot; by rewrite Nat.Div0.mod_0_l.
  - by intros t p ->%Hidle.
  - by intros t t' p p' u ->%Hidle.
  - by intros t t' p p' c ->%Hidle.
  - split; [by intros ? ? ?%not_elem_of_nil|constructor|by intros t p ->%Hidle|lia].
Qed.
End concurrent.

(** C5: the queue under concurrency.  With one producer that never laps a consumer
    (the schedules of [disciplined]), any number of consumers and any interleaving
    of their atomic actions: no access is out of range; what [pop] returns as the
    [i]-th taken element is the [i]-th element pushed; none is returned twice; and
    once all threads are idle the elements returned are exactly the first [taken]
    elements pushed, none lost. *)
Theorem queue_exactly_once {T} (capacity : nat) (dflt : T) (moved : T → T) (n : nat)
    (s0 : sys) (sched : list (nat * action)) :
  0 < capacity ≤ SMALL_INTEGER_OPTIMISATION_LIMIT →
  start capacity dflt n = Ret s0 → disciplined capacity moved sched s0 →
  ∃ s, run capacity moved sched s0 = Ret s ∧
    (∀ i x, (i, x) ∈ returned s → pushed s !! i = Some x) ∧
    NoDup (returned s).*1 ∧
    (Forall (.= Idle) (threads s) → (returned s).*1 ≡ₚ seq 0 (taken s)).
Proof.
  intros Hcap H0 Hd. destruct (inv_start capacity dflt Hcap n) as (s0' & H0' & I0).
  rewrite H0 in H0'. injection H0' as <-.
  destruct (inv_run capacity moved Hcap sched s0 I0 Hd) as (s & Hs & pend & I).
  exists s. split; [done|]. by apply (inv_delivers capacity pend).
Qed.

(** A producer and two consumers; one is suspended inside [pop] while the other
    takes the element. *)
Definition example_start : sys :=
  result (start 4 0 3) (mk_sys (mk_Queue [] 0 0 0 []) [] [] 0 []).
Definition example_schedule : list (nat * action) :=
  [(0, StartPush 10); (0, Go false); (1, StartPop); (0, Go false); (0, Go false);
   (2, StartPop); (2, Go false); (1, Go false); (2, Go false); (0, StartPush 11); (2, Go false);
   (1, Go false); (2, Go false); (0, Go false); (0, Go false); (0, Go false)].

Lemma queue_exactly_once_witness :
  ∃ s, run 4 id example_schedule example_start = Ret s ∧
    (∀ i x, (i, x) ∈ returned s → pushed s !! i = Some x) ∧ NoDup (returned s).*1 ∧
    (Forall (.= Idle) (threads s) → (returned s).*1 ≡ₚ seq 0 (taken s)).
Proof.
  apply (queue_exactly_once 4 0 id 3 example_start example_schedule).
  - unfold SMALL_INTEGER_OPTIMISATION_LIMIT. lia.
  - reflexivity.
  - by apply (bool_decide_unpack _); vm_compute.
Defined.

(** A schedule in which no push starts while [full] answers [true]. *)
Fixpoint polite {T} (capacity : nat) (moved : T → T) (sched : list (nat * action)) (s : sys) : Prop :=
  match sched with
  | [] => True
  | (t, a) :: sched =>
    match a with StartPush _ => full capacity (sq s) = Ret false | _ => True end ∧
    match step capacity moved t a s with Ret s' => polite capacity moved sched s' | _ => True end
  end.

(** The whole of a push and of a successful pop. *)
Definition push_all {T} (t : nat) (x : T) : list (nat * action) :=
  [(t, StartPush x); (t, Go false); (t, Go false); (t, Go false)].
Definition pop_all {T} (t : nat) : list (nat * @action T) :=
  [(t, StartPop); (t, Go false); (t, Go false); (t, Go false); (t, Go false)].

(** Room in the ring is not enough: [pop] suffers from ABA.  There is a schedule
    in which no push ever starts on a full queue, and a consumer that was
    suspended after its boundary check, while the others went once around the
    ring, takes an element from the empty queue: it returns an element that was
    returned before, and the head passes the tail. *)
Lemma queue_pop_aba :
  ∃ (s0 s : @sys nat) sched,
    start 3 0 3 = Ret s0 ∧ polite 3 id sched s0 ∧ run 3 id sched s0 = Ret s ∧
    Forall (.= Idle) (threads s) ∧ pushed s = [10; 11; 12] ∧
    snd <$> returned s = [10; 11; 12; 10] ∧ taken s = 4 ∧ empty (sq s) = false.
Proof.
  exists (match start 3 0 3 with Ret s => s | _ => mk_sys (mk_Queue [] 0 0 0 []) [] [] 0 [] end).
  eexists. exists (push_all 0 10 ++ [(1, StartPop); (1, Go false)] ++ pop_all 2 ++
    push_all 0 11 ++ pop_all 2 ++ push_all 0 12 ++ pop_all 2 ++
    [(1, Go false); (1, Go false); (1, Go false)]).
  split; [reflexivity|]. split; [vm_compute; tauto|]. split; [vm_compute; reflexivity|].
  split_and!; try reflexivity. by repeat constructor.
Qed.
