(* ===== verification/QueueProgress.v ===== *)
(** * The queue makes progress

    The operations of [include/simpleserv/utility/lock_free_queue.hpp] have no loop:
    [pop] tries its exchange once.  Hence every operation ends after a bounded
    number of actions of its own thread, whatever the other threads do between
    them, and a [pop] gives up in vain only when another thread took an element. *)

From S2P Require Import Prelude Effects LockFreeQueue.

(** The actions an operation has left, and the turns of a thread in a schedule. *)
Definition remaining {T} (p : @pc T) : nat :=
  match p with
  | Idle => 0
  | PushLoaded _ _ _ => 3 | PushWritten _ _ => 2 | PushStored => 1
  | PopLoaded _ _ => 4 | PopChecked _ _ => 3 | PopWon _ _ => 2 | PopRead _ _ => 1
  end.

Definition turns {T} (t : nat) (sched : list (nat * @action T)) : nat :=
  length (filter (λ ta, ta.1 = t) sched).

Lemma remaining_0 {T} (p : @pc T) : remaining p = 0 → p = Idle.
Proof. by destruct p. Qed.

Lemma turns_cons {T} t t' a (sched : list (nat * @action T)) :
  turns t ((t', a) :: sched) = (if decide (t' = t) then 1 else 0) + turns t sched.
Proof. unfold turns. rewrite filter_cons. cbn. by case_decide. Qed.

(** The thread only goes on with the operation it is in. *)
Definition goes_on {T} (t : nat) (sched : list (nat * @action T)) : Prop :=
  Forall (λ ta, ta.1 = t → ∃ b, ta.2 = Go b) sched.

Section progress.
Context {T : Type} (capacity : nat) (dflt : T) (moved : T → T).
Context (Hcap : 0 < capacity ≤ SMALL_INTEGER_OPTIMISATION_LIMIT).

(** An action of a thread brings it closer to the end of its operation. *)
Lemma act_remaining b p s p' s' :
  act capacity moved (Go b) p s = Ret (p', s') → remaining p' ≤ pred (remaining p).
Proof using.
  clear. destruct p; cbn [act].
  - intros [= <- _]. done.
  - intros ([? ?] & _ & [= <- _])%outcome_bind_Ret_inv. cbn. lia.
  - intros ([? ?] & _ & [= <- _])%outcome_bind_Ret_inv. cbn. lia.
  - intros ([? ?] & _ & [= <- _])%outcome_bind_Ret_inv. cbn. lia.
  - case_decide; intros [= <- _]; cbn; lia.
  - intros (d & _ & ([[] ?] & _ & [= <- _])%outcome_bind_Ret_inv)%outcome_bind_Ret_inv; cbn; lia.
  - intros ([? ?] & _ & [= <- _])%outcome_bind_Ret_inv. cbn. lia.
  - intros ([? ?] & _ & [= <- _])%outcome_bind_Ret_inv. cbn. lia.
Qed.

Lemma act_threads a p s p' s' :
  act capacity moved a p s = Ret (p', s') → threads s' = threads s.
Proof using.
  clear. destruct a as [x| |b], p; cbn [act]; try (by intros [= _ <-]).
  all: try (by intros (? & _ & [= _ <-])%outcome_bind_Ret_inv).
  all: try (by intros ([? ?] & _ & [= _ <-])%outcome_bind_Ret_inv).
  - by case_decide; intros [= _ <-].
  - by intros (d & _ & ([[] ?] & _ & [= _ <-])%outcome_bind_Ret_inv)%outcome_bind_Ret_inv.
Qed.

Lemma step_thread t a s s' p :
  step capacity moved t a s = Ret s' → threads s !! t = Some p →
  ∃ p' s1, act capacity moved a p s = Ret (p', s1) ∧ threads s' !! t = Some p'.
Proof using.
  clear. intros H Ht. unfold step in H. rewrite Ht in H.
  apply outcome_bind_Ret_inv in H as ([p' s1] & Ha & [= <-]). exists p', s1. split; [done|]. cbn.
  rewrite (act_threads _ _ _ _ _ Ha), list_lookup_insert_eq; [done|]. by eapply lookup_lt_Some.
Qed.

Lemma step_other t t' a s s' :
  step capacity moved t a s = Ret s' → t' ≠ t → threads s' !! t' = threads s !! t'.
Proof using.
  clear. intros H Hne. unfold step in H. destruct (threads s !! t) as [p|]; [|by injection H as <-].
  apply outcome_bind_Ret_inv in H as ([p' s1] & Ha & [= <-]). cbn.
  by rewrite (act_threads _ _ _ _ _ Ha), list_lookup_insert_ne.
Qed.

Lemma run_finishes t sched s s' p :
  run capacity moved sched s = Ret s' → goes_on t sched →
  threads s !! t = Some p → remaining p ≤ turns t sched →
  ∃ sched1 sched2 s1, sched = sched1 ++ sched2 ∧ run capacity moved sched1 s = Ret s1 ∧
    threads s1 !! t = Some Idle ∧ turns t sched1 ≤ remaining p.
Proof using.
  clear. revert s p. induction sched as [|[t' a] sched IH]; intros s p H Hg Ht Hr.
  { apply Nat.le_0_r, remaining_0 in Hr as ->. by exists [], [], s. }
  destruct (decide (remaining p = 0)) as [->%remaining_0|Hp]; [by exists [], ((t', a) :: sched), s|].
  cbn [run] in H. apply outcome_bind_Ret_inv in H as (s1 & H1 & H).
  apply Forall_cons in Hg as [Hg0 Hg]. rewrite turns_cons in Hr.
  assert (∃ p1, threads s1 !! t = Some p1 ∧ remaining p1 ≤ turns t sched ∧
    (if decide (t' = t) then 1 else 0) + remaining p1 ≤ remaining p) as (p1 & Ht1 & Hr1 & Hl1).
  { case_decide as Hd; [subst t'|].
    - destruct (Hg0 eq_refl) as [b E]. cbn in E. subst a. destruct (step_thread _ _ _ _ _ H1 Ht) as (p1 & sx & Ha & Ht1).
      apply act_remaining in Ha. exists p1. split; [done|lia].
    - exists p. rewrite (step_other _ _ _ _ _ H1) by congruence. split; [done|lia]. }
  destruct (IH s1 p1 H Hg Ht1 Hr1) as (sc1 & sc2 & s2 & -> & H2 & Hi & Hl).
  exists ((t', a) :: sc1), sc2, s2. rewrite turns_cons. split_and!; [done| |done|lia].
  cbn [run]. by rewrite H1.
Qed.

(** The ghosts only grow. *)
Lemma step_grows t a s s' :
  step capacity moved t a s = Ret s' →
  taken s ≤ taken s' ∧ length (pushed s) ≤ length (pushed s').
Proof using.
  clear. unfold step. destruct (threads s !! t) as [p|]; [|by intros [= <-]].
  intros ([p' s1] & Ha & [= <-])%outcome_bind_Ret_inv. cbn. revert Ha.
  destruct a as [x| |b], p; cbn [act]; try (by intros [= _ <-]).
  all: try (by intros (? & _ & [= _ <-])%outcome_bind_Ret_inv).
  all: try (by intros ([? ?] & _ & [= _ <-])%outcome_bind_Ret_inv; cbn; rewrite ?length_app; lia).
  - by case_decide; intros [= _ <-].
  - intros (d & _ & ([[] ?] & _ & [= _ <-])%outcome_bind_Ret_inv)%outcome_bind_Ret_inv; cbn; lia.
Qed.

(** A [pop] that has read the head when [c] elements had been taken is under way,
    with an element for it, or one more has been taken. *)
Definition pop_progress (t c : nat) (s : @sys T) : Prop :=
  c < taken s ∨
  c < length (pushed s) ∧
  ∃ h, threads s !! t = Some (PopLoaded h c) ∨ threads s !! t = Some (PopChecked h c).

Lemma step_pop_progress pend t c t' a s s' :
  inv_at capacity pend s → step capacity moved t' a s = Ret s' →
  (t' = t → a = Go false) → pop_progress t c s → pop_progress t c s'.
Proof using Hcap.
  clear dflt. intros I Hs Ha Hp. destruct (step_grows _ _ _ _ Hs) as [Hg1 Hg2].
  destruct Hp as [Hp|(Hl & h & Ht)]; [left; lia|].
  destruct (decide (t' = t)) as [->|Hne].
  2: { right. split; [lia|]. exists h. by rewrite (step_other _ _ _ _ _ Hs) by congruence. }
  rewrite (Ha eq_refl) in Hs. pose proof (i_queue _ _ _ I) as Q. pose proof (q_le _ _ _ _ _ Q).
  destruct Ht as [Ht|Ht]; destruct (step_thread _ _ _ _ _ Hs Ht) as (p' & s1 & Hact & Hp');
    cbn [act] in Hact.
  - destruct (i_thread _ _ _ I t _ Ht) as (-> & Hc & Hr).
    case_decide as Hh; injection Hact as <- <-; [|right; split; [lia|eauto]].
    rewrite (q_tail _ _ _ _ _ Q) in Hh. apply Nat2Z.inj, slot_inj in Hh; lia.
  - destruct (i_thread _ _ _ I t _ Ht) as (-> & Hc & Hr & _).
    unfold step in Hs. rewrite Ht in Hs. cbn [act] in Hs. rewrite next_slot in Hs by (done || apply Q).
    cbn [mbind outcome_bind] in Hs. unfold cas_head in Hs. rewrite (q_head _ _ _ _ _ Q) in Hs.
    left. case_decide as Hh; injection Hs as <-; cbn.
    + destruct Hh as [Hh%Nat2Z.inj _]. apply slot_inj in Hh; lia.
    + destruct (decide (c = taken s)) as [->|]; [by destruct Hh|lia].
Qed.

Lemma run_pop_progress t c sched s s' :
  inv capacity s → disciplined capacity moved sched s → run capacity moved sched s = Ret s' →
  Forall (λ ta, ta.1 = t → ta.2 = Go false) sched →
  pop_progress t c s → pop_progress t c s'.
Proof using Hcap.
  clear dflt. revert s. induction sched as [|[t' a] sched IH]; intros s I Hd H Hf Hp; cbn [run] in H.
  { by injection H as <-. }
  cbn [disciplined] in Hd. destruct Hd as [Hd0 Hd]. apply Forall_cons in Hf as [Hf0 Hf].
  destruct (inv_step capacity moved Hcap t' a s I Hd0) as (s1 & H1 & I1). rewrite H1 in H, Hd.
  apply (IH s1 I1 Hd H Hf). destruct I as [pend I].
  by apply (step_pop_progress pend t c t' a s s1).
Qed.

Lemma disciplined_app sched sched' s s' :
  run capacity moved sched s = Ret s' → disciplined capacity moved (sched ++ sched') s →
  disciplined capacity moved sched s ∧ disciplined capacity moved sched' s'.
Proof using.
  clear. revert s. induction sched as [|[t a] sched IH]; intros s; cbn [run app disciplined].
  { by intros [= <-]. }
  intros (s1 & -> & H)%outcome_bind_Ret_inv [Hd0 Hd]. destruct (IH s1 H Hd). auto.
Qed.
End progress.

(** C26: the queue makes progress.  Under the discipline of the queue, and
    whatever the other threads do, an operation ends with its thread's fourth
    action at the latest: no operation waits for another thread.  And a [pop] that
    began on a queue with an element, its exchange not failing spuriously, ends
    only when an element has been taken since it read the head, by itself or by
    another consumer: the consumers cannot all fail. *)
Theorem queue_progress {T} (capacity : nat) (dflt : T) (moved : T → T) (n t : nat)
    (s0 s : sys) (p : pc) (sched0 sched : list (nat * action)) :
  0 < capacity ≤ SMALL_INTEGER_OPTIMISATION_LIMIT →
  start capacity dflt n = Ret s0 → run capacity moved sched0 s0 = Ret s →
  disciplined capacity moved (sched0 ++ sched) s0 → threads s !! t = Some p →
  goes_on t sched → remaining p ≤ turns t sched →
  remaining p ≤ 4 ∧
  ∃ sched1 sched2 s1, sched = sched1 ++ sched2 ∧ run capacity moved sched1 s = Ret s1 ∧
    threads s1 !! t = Some Idle ∧ turns t sched1 ≤ remaining p ∧
    (∀ h c, p = PopLoaded h c → c < length (pushed s) →
       Forall (λ ta, ta.1 = t → ta.2 = Go false) sched1 → c < taken s1).
Proof.
  intros Hcap H0 Hs Hd Ht Hg Hr. split; [destruct p; cbn; lia|].
  destruct (disciplined_app _ _ _ _ _ _ Hs Hd) as [Hd1 Hd2].
  destruct (inv_start capacity dflt Hcap n) as (x & Hx & I0). rewrite H0 in Hx. injection Hx as <-.
  destruct (inv_run capacity moved Hcap sched0 s0 I0 Hd1) as (x & Hx & I).
  rewrite Hs in Hx. injection Hx as <-.
  destruct (inv_run capacity moved Hcap sched s I Hd2) as (s' & Hs' & _).
  destruct (run_finishes capacity moved t sched s s' p Hs' Hg Ht Hr)
    as (sc1 & sc2 & s1 & -> & H1 & Hi & Hl).
  exists sc1, sc2, s1. split_and!; [done..|]. intros h c -> Hc Hf.
  destruct (disciplined_app _ _ _ _ _ _ H1 Hd2) as [Hd3 _].
  destruct (run_pop_progress capacity moved Hcap t c sc1 s s1 I Hd3 H1 Hf) as [?|(_ & h' & Hp)]; [|done|].
  - right. eauto.
  - by destruct Hp; congruence.
Qed.

(** A consumer that has read the head is overtaken by another. *)
Definition example_before : list (nat * @action nat) := push_all 0 10 ++ [(1, StartPop)].
Definition example_after : list (nat * @action nat) :=
  [(2, StartPop); (1, Go false); (2, Go false); (2, Go false); (0, StartPush 11); (1, Go false);
   (1, Go false); (0, Go false); (1, Go false)].

Lemma queue_progress_witness :
  ∃ sched1 sched2 s1, example_after = sched1 ++ sched2 ∧
    run 4 id sched1 (result (run 4 id example_before example_start) example_start) = Ret s1 ∧
    threads s1 !! 1 = Some Idle.
Proof.
  destruct (queue_progress 4 0 id 3 1 example_start
    (result (run 4 id example_before example_start) example_start) (PopLoaded 0 0)
    example_before example_after) as (_ & sc1 & sc2 & s1 & ? & ? & ? & _).
  - unfold SMALL_INTEGER_OPTIMISATION_LIMIT. lia.
  - reflexivity.
  - reflexivity.
  - by apply (bool_decide_unpack _); vm_compute.
  - reflexivity.
  - unfold goes_on, example_after. repeat constructor; cbn; try discriminate; eauto.
  - vm_compute. lia.
  - by exists sc1, sc2, s1.
Defined.
