(* ===== verification/Connections.v ===== *)
(** * Connections and the thread pool

    [include/simpleserv/request_processing/]: what a worker thread does with a
    connection, over any handler, sender and closer; the TCP and the TLS senders
    and closers; the pool of workers around the job queue.  System calls are
    recorded in a trace, their results are given by the environment. *)

From S2P Require Import Prelude Effects Expected Http StringParser FileSystem FileManager.
From S2P Require Import Parser Message HttpHandler LockFreeQueue.

(** ** System calls *)

Inductive io : Type :=
  | Io_send (fd : Z) (data : str)            (** the bytes the kernel took *)
  | Io_close (fd : Z)
  | Io_ssl_write (ssl : nat) (data : str)    (** one call of [wolfSSL_write] *)
  | Io_ssl_shutdown (ssl : nat)
  | Io_ssl_free (ssl : nat).

(** What a worker works on: the handler's file manager and the calls made. *)
Record world : Type := mk_world { w_manager : FileManager; w_trace : list io }.

Definition call (e : io) : M world () :=
  modify (λ w, mk_world (w_manager w) (w_trace w ++ [e])).

(** ** The interfaces of the connection handler *)

(** [server::IHandler]. *)
Class IHandler (W : Type) := handler_handle : str → M W (option str).
Class ISender (W C : Type) := SendMsg : C → str → M W ().
(** [request_processing::ICloser]. *)
Class ICloser (W C : Type) := CloseConnection : C → M W ().
Class IConnectionObject (C : Type) := conn_request : C → str.

(** Destroying [std::thread]s, given whether each is joinable: one that has been
    neither joined nor detached terminates the process. *)
Definition destroy_threads (joinable : list bool) : outcome () :=
  if existsb id joinable then Terminate else Ret ().

Section handler.
Context {W C : Type} `{!IHandler W, !ISender W C, !ICloser W C, !IConnectionObject C}.

Definition handle_connection (conn_obj : C) : M W () :=
  response ← handler_handle (conn_request conn_obj);
  _ ← match response with
      | Some text => SendMsg conn_obj text
      | None => mret ()
      end;
  CloseConnection conn_obj.

(** The handler object: its pointer to a queue, which the default constructor
    leaves without a value, and whether it is ready. *)
Inductive queue_ptr : Type := Uninitialised | Null | PoolQueue.
Record ThreadpoolConnectionHandler : Type := mk_Handler { queue_ : queue_ptr; ready : bool }.

Definition Handler_default : ThreadpoolConnectionHandler := mk_Handler Uninitialised false.
Definition Handler_new (queue : queue_ptr) : ThreadpoolConnectionHandler := mk_Handler queue true.

(** One round of the loop of [Start]. *)
Definition worker_round (moved : C → C) (spurious : bool) : M (LockFreeQueue C * W) () :=
  λ '(q, w),
  '(obj, q) ← pop 100 moved spurious q;
  match obj with
  | Some conn_obj => '(_, w) ← handle_connection conn_obj w; Ret ((), (q, w))
  | None => Ret ((), (q, w))
  end.

(** The loop never ends by itself: its rounds for a sequence of exchanges. *)
Fixpoint worker_rounds (moved : C → C) (oracle : list bool) : M (LockFreeQueue C * W) () :=
  match oracle with
  | [] => mret ()
  | spurious :: oracle => _ ← worker_round moved spurious; worker_rounds moved oracle
  end.

(** [Start]; it is the function of a thread, so that an exception terminates.
    The program is built in release mode, where [assert] is empty. *)
Definition worker_Start (h : ThreadpoolConnectionHandler) (moved : C → C) (oracle : list bool)
    (s : LockFreeQueue C * W) : outcome (() * (LockFreeQueue C * W)) :=
  noexcept (
    if ready h then
      match queue_ h with
      | PoolQueue => worker_rounds moved oracle s
      | Uninitialised | Null => Undef
      end
    else Throw (runtime_error ($"Threadpool worker lacks a job queue to take jobs from."))).

(** The pool: its queue, its threads (whether each is joinable) and a handler on
    the queue for each. *)
Record Threadpool : Type := mk_Threadpool {
  pool_queue : LockFreeQueue C;
  pool_threads : list bool;
  pool_handlers : list ThreadpoolConnectionHandler }.

(** The constructor starts the threads. *)
Definition Threadpool_new (num_threads : nat) (dflt : C) : outcome Threadpool :=
  q ← LockFreeQueue_new 100 dflt;
  Ret (mk_Threadpool q (replicate num_threads true)
         (replicate num_threads (Handler_new PoolQueue))).

Definition Threadpool_destroy (p : Threadpool) : outcome () := destroy_threads (pool_threads p).

(** [join]: [std::thread::join] on each thread in turn, given whether it ends.  It
    waits for a thread that does not, and throws [std::system_error] for one that is
    not joinable. *)
Fixpoint join_threads (ends : list bool) (joinable : list bool) : outcome (list bool) :=
  match joinable with
  | [] => Ret []
  | false :: _ => Throw (runtime_error ($"Invalid argument"))
  | true :: joinable =>
    match ends with
    | true :: ends => js ← join_threads ends joinable; Ret (false :: js)
    | _ => NoFuel
    end
  end.

Definition Threadpool_join (ends : list bool) (p : Threadpool) : outcome Threadpool :=
  js ← join_threads ends (pool_threads p);
  Ret (mk_Threadpool (pool_queue p) js (pool_handlers p)).

Definition add_task (obj : C) : M (LockFreeQueue C) () :=
  _ ← push 100 obj; mret ().
End handler.

(** Joining a pool whose threads end makes it safe to destroy, once; but its threads
    are loops that do not end, so that [join] would wait for the first. *)
Lemma Threadpool_join_spec {C} (dflt : C) (n : nat) (p : @Threadpool C) :
  Threadpool_new n dflt = Ret p →
  (∃ p', Threadpool_join (replicate n true) p = Ret p' ∧ Threadpool_destroy p' = Ret ()) ∧
  (n ≠ 0 → Threadpool_join (replicate n false) p = NoFuel ∧ Threadpool_destroy p = Terminate).
Proof.
  unfold Threadpool_new. intros (q & _ & [= <-])%outcome_bind_Ret_inv. unfold Threadpool_join. cbn.
  assert (H : join_threads (replicate n true) (replicate n true) = Ret (replicate n false)).
  { induction n as [|n IH]; [done|]. cbn. by rewrite IH. }
  split.
  - rewrite H. eexists. split; [done|]. unfold Threadpool_destroy, destroy_threads. cbn.
    clear H. by induction n.
  - intros Hn. by destruct n.
Qed.

(** ** TCP *)

Record HTTPConnectionObject : Type := mk_HTTPConnection {
  http_client_fd : Z; http_request : str }.

Definition HTTPConnectionObject_default : HTTPConnectionObject := mk_HTTPConnection (-1) [].

(** What [send] does: it takes some of the bytes, fails, or finds the connection
    reset by the peer and raises SIGPIPE. *)
Inductive send_result : Type := Took (n : nat) | Send_failed | Broken_pipe.

(** The result of [send] is not looked at.  It is called without [MSG_NOSIGNAL],
    and the program leaves SIGPIPE to its default action, the end of the process. *)
Definition TCP_SendMsg (kernel : str → send_result) (conn_obj : HTTPConnectionObject)
    (response : str) : M world () :=
  match kernel response with
  | Took n => call (Io_send (http_client_fd conn_obj) (take n response))
  | Send_failed => mret ()
  | Broken_pipe => λ _, Terminate
  end.

Definition TCP_CloseConnection (conn_obj : HTTPConnectionObject) : M world () :=
  call (Io_close (http_client_fd conn_obj)).

(** ** TLS *)

Record HTTPSConnectionObject : Type := mk_HTTPSConnection {
  https_client_fd : Z; https_ssl : option nat; https_request : str }.

Definition HTTPSConnectionObject_default : HTTPSConnectionObject := mk_HTTPSConnection (-1) None [].

Definition WOLFSSL_ERROR_WANT_READ : Z := 2.
Definition WOLFSSL_ERROR_WANT_WRITE : Z := 3.

(** The loop of [SendMsg]: every call of [wolfSSL_write] is given the whole
    response; [errs] are the answers of [wolfSSL_get_error]. *)
Fixpoint TLS_send_loop (errs : list Z) (ssl : nat) (response : str) : M world () :=
  match errs with
  | [] => λ _, NoFuel
  | err :: errs =>
    _ ← call (Io_ssl_write ssl response);
    if decide (err = WOLFSSL_ERROR_WANT_WRITE) then TLS_send_loop errs ssl response else mret ()
  end.

Definition TLS_SendMsg (errs : list Z) (conn_obj : HTTPSConnectionObject) (response : str) :
    M world () :=
  match https_ssl conn_obj with
  | Some ssl => TLS_send_loop errs ssl response
  | None => mret ()   (* [wolfSSL_write] on a null object fails *)
  end.

Definition TLS_CloseConnection (conn_obj : HTTPSConnectionObject) : M world () :=
  _ ← call (Io_close (https_client_fd conn_obj));
  match https_ssl conn_obj with
  | Some ssl => _ ← call (Io_ssl_shutdown ssl); call (Io_ssl_free ssl)
  | None => mret ()
  end.

(** ** The instances of the servers *)

Section instances.
Context (fs : FS).

#[local] Instance http_handler : IHandler world := λ text w,
  '(o, m) ← handle fs text (w_manager w); Ret (o, mk_world m (w_trace w)).

#[local] Instance http_object : IConnectionObject HTTPConnectionObject := http_request.
#[local] Instance https_object : IConnectionObject HTTPSConnectionObject := https_request.

Definition handle_http (kernel : str → send_result) (c : HTTPConnectionObject) : M world () :=
  handle_connection (ISender0 := TCP_SendMsg kernel) (ICloser0 := TCP_CloseConnection) c.

Definition handle_https (errs : list Z) (c : HTTPSConnectionObject) : M world () :=
  handle_connection (ISender0 := TLS_SendMsg errs) (ICloser0 := TLS_CloseConnection) c.

Definition http_worker (kernel : str → send_result) (moved : HTTPConnectionObject → HTTPConnectionObject)
    (h : ThreadpoolConnectionHandler) (oracle : list bool) :=
  worker_Start (ISender0 := TCP_SendMsg kernel) (ICloser0 := TCP_CloseConnection) h moved oracle.
End instances.

(** ** What a worker does with a connection *)

(** The send of a response. *)
Definition sent (kernel : str → send_result) (fd : Z) (response : option str) : list io :=
  match response with
  | Some text => match kernel text with Took n => [Io_send fd (take n text)] | _ => [] end
  | None => []
  end.

(** Whether sending a response raises SIGPIPE. *)
Definition broken (kernel : str → send_result) (response : option str) : Prop :=
  match response with Some text => kernel text = Broken_pipe | None => False end.

#[export] Instance send_result_eq_dec : EqDecision send_result.
Proof. solve_decision. Defined.
#[export] Instance broken_dec kernel response : Decision (broken kernel response).
Proof. unfold broken. destruct response; apply _. Defined.

Lemma handle_http_run fs kernel c w response m' :
  ¬ broken kernel response →
  handle fs (http_request c) (w_manager w) = Ret (response, m') →
  handle_http fs kernel c w =
  Ret ((), mk_world m' (w_trace w ++ sent kernel (http_client_fd c) response ++
    [Io_close (http_client_fd c)])).
Proof.
  intros Hb H. unfold handle_http, handle_connection.
  rewrite (M_bind_run _ _ w response (mk_world m' (w_trace w))).
  2: { unfold handler_handle, http_handler, conn_request, http_object. by rewrite H. }
  destruct response as [text|]; [|done]. unfold sent, broken, SendMsg, TCP_SendMsg in *.
  destruct (kernel text) as [n| |]; [|done..].
  unfold mbind at 1, M_bind, call, modify, CloseConnection, TCP_CloseConnection, call, modify.
  cbn. by rewrite <- (assoc_L (++)).
Qed.

Lemma handle_http_broken fs kernel c w response m' :
  broken kernel response →
  handle fs (http_request c) (w_manager w) = Ret (response, m') →
  handle_http fs kernel c w = Terminate.
Proof.
  intros Hb H. unfold handle_http, handle_connection.
  rewrite (M_bind_run _ _ w response (mk_world m' (w_trace w))).
  2: { unfold handler_handle, http_handler, conn_request, http_object. by rewrite H. }
  destruct response as [text|]; [|done]. unfold broken, SendMsg, TCP_SendMsg in *.
  by rewrite Hb.
Qed.

Lemma handle_http_Throw fs kernel c w e :
  handle fs (http_request c) (w_manager w) = Throw e → handle_http fs kernel c w = Throw e.
Proof.
  intros H. unfold handle_http, handle_connection. apply M_bind_Throw.
  unfold handler_handle, http_handler, conn_request, http_object. by rewrite H.
Qed.

(** C23: a TCP connection is answered at most once and then closed, exactly once and
    last: with the first bytes of the handler's response, as many as one call of
    [send] takes (the rest is never sent), and with nothing if the request does
    not parse.  If the handler throws, as it does for an empty request, the
    exception passes through and the connection is not closed; if the peer has reset the connection, SIGPIPE ends
    the process. *)
Theorem connection_answered_then_closed fs kernel (c : HTTPConnectionObject) (w : world) :
  (∀ response m', handle fs (http_request c) (w_manager w) = Ret (response, m') →
     handle_http fs kernel c w =
     if decide (broken kernel response) then Terminate else
     Ret ((), mk_world m' (w_trace w ++ sent kernel (http_client_fd c) response ++
       [Io_close (http_client_fd c)]))) ∧
  (∀ e, parse_http_request (http_request c) = Ret (Unexpected e) →
     handle_http fs kernel c w =
     Ret ((), mk_world (w_manager w) (w_trace w ++ [Io_close (http_client_fd c)]))) ∧
  (∀ e, handle fs (http_request c) (w_manager w) = Throw e → handle_http fs kernel c w = Throw e) ∧
  ((∀ text, kernel text ≠ Broken_pipe) → exits_only (.= out_of_range) (handle_http fs kernel c w)) ∧
  (http_request c = [] → handle_http fs kernel c w = Throw out_of_range).
Proof.
  split_and!.
  - intros response m' H. case_decide; [by eapply handle_http_broken|by apply handle_http_run].
  - intros e He.
    rewrite (handle_http_run _ _ _ _ None (w_manager w)); [done|by intros []|].
    by eapply handle_parse_error.
  - intros e He. by apply handle_http_Throw.
  - intros Hk. pose proof (handle_exits fs (http_request c) (w_manager w) _
      (exits_parse_http_request (http_request c))) as H.
    destruct (handle fs (http_request c) (w_manager w)) as [[o m']|e| | |] eqn:E; try done.
    + rewrite (handle_http_run _ _ _ _ o m'); [done| |done].
      destruct o as [text|]; [apply Hk|by intros []].
    + by rewrite (handle_http_Throw _ _ _ _ e).
    + unfold handle_http, handle_connection. rewrite M_bind_Undef; [done|].
      unfold handler_handle, http_handler, conn_request, http_object. by rewrite E.
  - intros Hc. apply handle_http_Throw. rewrite Hc. apply handle_empty.
Qed.

(** ** The TLS sender *)

Definition writes (n ssl : nat) (response : str) : list io := replicate n (Io_ssl_write ssl response).

Lemma TLS_send_loop_run errs ssl response w :
  TLS_send_loop errs ssl response w =
  match find_idx (λ e, bool_decide (e ≠ WOLFSSL_ERROR_WANT_WRITE)) errs with
  | Some n => Ret ((), mk_world (w_manager w) (w_trace w ++ writes (S n) ssl response))
  | None => NoFuel
  end.
Proof.
  revert w. induction errs as [|err errs IH]; intros w; [done|]. cbn [TLS_send_loop find_idx].
  rewrite (M_bind_run _ _ w () (mk_world (w_manager w) (w_trace w ++ [Io_ssl_write ssl response])))
    by done.
  case_decide as He; rewrite ?(bool_decide_eq_true_2 (err ≠ _)) by done; [|done].
  rewrite (bool_decide_eq_false_2 (err ≠ _)) by (by intros []). rewrite IH.
  destruct (find_idx _ errs) as [n|]; [|done]. cbn. by rewrite <- (assoc_L (++)).
Qed.

(** The TLS sender repeats the whole response until wolfSSL no longer asks to
    write: after [n] answers [WANT_WRITE] and one other it has made [n + 1] calls,
    each with all the bytes, and returned; while every answer is [WANT_WRITE] it
    does not return. *)
Lemma TLS_SendMsg_retries (n : nat) (err : Z) (errs : list Z) (fd : Z) (ssl : nat)
    (request response : str) (w : world) :
  let c := mk_HTTPSConnection fd (Some ssl) request in
  (err ≠ WOLFSSL_ERROR_WANT_WRITE →
   TLS_SendMsg (replicate n WOLFSSL_ERROR_WANT_WRITE ++ err :: errs) c response w =
   Ret ((), mk_world (w_manager w) (w_trace w ++ writes (S n) ssl response))) ∧
  TLS_SendMsg (replicate n WOLFSSL_ERROR_WANT_WRITE) c response w = NoFuel.
Proof.
  assert (Hr : Forall (λ e, bool_decide (e ≠ WOLFSSL_ERROR_WANT_WRITE) = false)
    (replicate n WOLFSSL_ERROR_WANT_WRITE)).
  { apply Forall_replicate. by apply bool_decide_eq_false_2; intros []. }
  intros c. split.
  - intros He. unfold TLS_SendMsg. cbn [c https_ssl]. rewrite TLS_send_loop_run, find_idx_app_stop; [|done|by apply bool_decide_eq_true_2].
    by rewrite length_replicate.
  - unfold TLS_SendMsg. cbn [c https_ssl]. rewrite TLS_send_loop_run. by rewrite (proj2 (find_idx_None _ _)).
Qed.

(** ** A worker thread *)

Definition ready_handler : ThreadpoolConnectionHandler := Handler_new PoolQueue.

Lemma worker_first_round fs kernel moved q l c w :
  holds 100 q (c :: l) →
  ∃ q', holds 100 q' l ∧ ∀ oracle,
    http_worker fs kernel moved ready_handler (false :: oracle) (q, w) =
    noexcept ('(_, w) ← handle_http fs kernel c w;
              worker_rounds (IHandler0 := http_handler fs) (ISender0 := TCP_SendMsg kernel)
                (ICloser0 := TCP_CloseConnection) (IConnectionObject0 := http_object)
                moved oracle (q', w)).
Proof.
  intros H. destruct (holds_pop 100 moved ltac:(unfold SMALL_INTEGER_OPTIMISATION_LIMIT; lia) q l c H)
    as (q' & Hp & Hq'). exists q'. split; [done|]. intros oracle.
  unfold http_worker, worker_Start. cbn [queue_ ready ready_handler Handler_new worker_rounds].
  f_equal. unfold mbind at 1, M_bind, worker_round. rewrite Hp. cbn [mbind outcome_bind].
  unfold handle_http. by destruct (handle_connection c w) as [[]| | | |].
Qed.
