(* ===== verification/WeakQueue.v ===== *)
(** * The queue and its memory orders

    [LockFreeQueue] lets the threads interleave as if memory were sequentially
    consistent.  The code asks for less: [pop] loads the head relaxed, its exchange
    releases and does not acquire, and the slots are no atomics at all.  Here the
    actions of [include/simpleserv/utility/lock_free_queue.hpp] run on the memory
    of C++, in the operational form in which a load may return any store that is
    not older than one the thread knows of, acquiring what a release store
    publishes, and in which an access to a slot that does not happen after an
    earlier one of another thread is a data race: undefined behaviour.

    The state of [LockFreeQueue] stays underneath: it has the last value of each
    atomic in its modification order, and the slots. *)

From S2P Require Import Prelude Effects Expected Http FileSystem FileManager HttpHandler.
From S2P Require Import LockFreeQueue QueueProgress Connections.

(** ** Memory *)

Inductive memory_order : Type := Relaxed | Acquire.

#[export] Instance memory_order_eq_dec : EqDecision memory_order.
Proof. solve_decision. Defined.

(** The atomics that are loaded; nothing loads the size. *)
Inductive atomic : Type := Head | Tail.

(** What a thread knows: for each atomic the latest store it knows of, by its
    position in the modification order, and the accesses to slots that happened
    before. *)
Record view : Type := mk_view { v_head : nat; v_tail : nat; seen : gset nat }.

Definition no_view : view := mk_view 0 0 ∅.

Definition time (x : atomic) (v : view) : nat :=
  match x with Head => v_head v | Tail => v_tail v end.

Definition advance (x : atomic) (ts : nat) (v : view) : view :=
  match x with
  | Head => mk_view (v_head v `max` ts) (v_tail v) (seen v)
  | Tail => mk_view (v_head v) (v_tail v `max` ts) (seen v)
  end.

Definition join (v w : view) : view :=
  mk_view (v_head v `max` v_head w) (v_tail v `max` v_tail w) (seen v ∪ seen w).

(** A store and the view it releases. *)
Record message : Type := mk_message { m_value : Z; m_view : view }.

(** Every slot access so far (its number is its position): thread and index. *)
Abbreviation accesses_t := (list (nat * Z)).

(** Whether an access to slot [i] by a thread with view [v] races. *)
Definition races (i : Z) (v : view) (log : accesses_t) : Prop :=
  Exists (λ x, x.2.2 = i ∧ x.1 ∉ seen v) (imap pair log).

#[export] Instance races_dec i v log : Decision (races i v log).
Proof. unfold races. apply _. Defined.

Section weak.
Context {T : Type} (capacity : nat) (dflt : T) (moved : T → T).
(** The order of the load of the head in [pop]. *)
Context (head_load : memory_order).

Record weak : Type := mk_weak {
  shared : @sys T;
  heads : list message;
  tails : list message;
  accesses : accesses_t;
  views : list view }.

Definition history (x : atomic) (s : weak) : list message :=
  match x with Head => heads s | Tail => tails s end.

(** A load of [x] that returns the store [ts], if it may. *)
Definition load (o : memory_order) (x : atomic) (ts : nat) (v : view) (s : weak) : option (Z * view) :=
  m ← history x s !! ts;
  if decide (time x v ≤ ts) then
    let v' := advance x ts v in
    Some (m_value m, match o with Acquire => join v' (m_view m) | Relaxed => v' end)
  else None.

(** A slot access. *)
Definition touch (t : nat) (i : Z) (v : view) (s : weak) : outcome (view * weak) :=
  if decide (races i v (accesses s)) then Undef
  else
    let v' := mk_view (v_head v) (v_tail v) ({[length (accesses s)]} ∪ seen v) in
    Ret (v', mk_weak (shared s) (heads s) (tails s) (accesses s ++ [(t, i)]) (views s)).

(** A release store to the tail, and a successful exchange of the head: its load
    is relaxed, its store releases, and it continues the release sequence of the
    store it replaces. *)
Definition store_release (value : Z) (v : view) (s : weak) : view * weak :=
  let v' := advance Tail (length (tails s)) v in
  (v', mk_weak (shared s) (heads s) (tails s ++ [mk_message value v']) (accesses s) (views s)).

Definition exchange_release (value : Z) (v : view) (s : weak) : view * weak :=
  let v' := advance Head (length (heads s)) v in
  let released := default no_view (m_view <$> last (heads s)) in
  (v', mk_weak (shared s) (heads s ++ [mk_message value (join v' released)]) (tails s)
         (accesses s) (views s)).

(** ** Threads *)

(** The actions of [LockFreeQueue], with the store a load returns. *)
Inductive waction : Type :=
  | WPush (elem : T) (ts : nat)
  | WPop (ts : nat)
  | WGo (ts : nat) (spurious : bool).

Definition with_shared (sh : @sys T) (s : weak) : weak :=
  mk_weak sh (heads s) (tails s) (accesses s) (views s).

(** One action of thread [t]: its state, its view, the memory.  What an action
    other than a load does to the object is [act]'s. *)
Definition wact (t : nat) (a : waction) (p : @pc T) (v : view) (s : weak) : outcome (@pc T * view * weak) :=
  let stutter := Ret (p, v, s) in
  match a, p with
  | WPush elem ts, Idle =>
    match load Acquire Tail ts v s with
    | Some (tail, v) => n ← next capacity (sq (shared s)) tail; Ret (PushLoaded elem tail n, v, s)
    | None => stutter
    end
  | WPop ts, Idle =>
    match load head_load Head ts v s with
    | Some (head, v) => Ret (PopLoaded head ts, v, s)
    | None => stutter
    end
  | WGo ts _, PopLoaded head c =>
    match load Acquire Tail ts v s with
    | Some (tail, v) => Ret (if decide (head = tail) then Idle else PopChecked head c, v, s)
    | None => stutter
    end
  | WGo ts spurious, PopChecked head c =>
    desired ← next capacity (sq (shared s)) head;
    '(p', sh) ← act capacity moved (Go spurious) p (shared s);
    match p' with
    | PopWon _ _ =>
      let '(v, s) := exchange_release desired v s in Ret (p', v, with_shared sh s)
    | _ =>
      match load Relaxed Head ts v s with
      | Some (_, v) => Ret (p', v, with_shared sh s)
      | None => stutter
      end
    end
  | WGo _ _, PushLoaded _ i _ | WGo _ _, PopWon i _ =>
    '(v, s) ← touch t i v s;
    '(p', sh) ← act capacity moved (Go false) p (shared s);
    Ret (p', v, with_shared sh s)
  | WGo _ _, PushWritten _ n =>
    '(p', sh) ← act capacity moved (Go false) p (shared s);
    let '(v, s) := store_release n v s in Ret (p', v, with_shared sh s)
  | WGo _ _, PushStored | WGo _ _, PopRead _ _ =>
    '(p', sh) ← act capacity moved (Go false) p (shared s); Ret (p', v, with_shared sh s)
  | _, _ => stutter
  end.

Definition set_thread (t : nat) (p : @pc T) (s : @sys T) : @sys T :=
  mk_sys (sq s) (<[t := p]> (threads s)) (pushed s) (taken s) (returned s).

Definition wstep (t : nat) (a : waction) (s : weak) : outcome weak :=
  match threads (shared s) !! t, views s !! t with
  | Some p, Some v =>
    '(p, v, s) ← wact t a p v s;
    Ret (mk_weak (set_thread t p (shared s)) (heads s) (tails s) (accesses s) (<[t := v]> (views s)))
  | _, _ => Ret s
  end.

Fixpoint wrun (sched : list (nat * waction)) (s : weak) : outcome weak :=
  match sched with
  | [] => Ret s
  | (t, a) :: sched => s ← wstep t a s; wrun sched s
  end.

(** What the constructor does happens before the threads start. *)
Definition wstart (n : nat) : outcome weak :=
  s ← start capacity dflt n;
  Ret (mk_weak s [mk_message 0 no_view] [mk_message 0 no_view] [] (replicate n no_view)).

(** Thread 0 pushes, the others pop. *)
Definition role (ta : nat * waction) : Prop :=
  match ta.2 with WPush _ _ => ta.1 = 0 | WPop _ => ta.1 ≠ 0 | WGo _ _ => True end.

#[export] Instance role_dec ta : Decision (role ta).
Proof. unfold role. destruct ta as [t [| |]]; apply _. Defined.

(** The elements a schedule starts to push. *)
Fixpoint pushes (sched : list (nat * waction)) : nat :=
  match sched with
  | [] => 0
  | (_, WPush _ _) :: sched => S (pushes sched)
  | _ :: sched => pushes sched
  end.
End weak.
Arguments waction : clear implicits.
Arguments weak : clear implicits.

Lemma races_spec i v log :
  races i v log ↔ ∃ id t, log !! id = Some (t, i) ∧ id ∉ seen v.
Proof.
  unfold races. rewrite Exists_exists. split.
  - intros ([id [t j]] & (n & y & [= <- <-] & Hy)%elem_of_lookup_imap & [Hj Hs]). cbn in *. subst j. eauto.
  - intros (id & t & Hl & Hs). exists (id, (t, i)). split; [by apply elem_of_lookup_imap_2|done].
Qed.

(** ** The first lap

    As long as no slot is used twice, slot [k] is for the [k]-th element, which is
    published by store [k + 1] to the tail. *)

Section views.
Context {T : Type} (capacity : nat).
Abbreviation slot := (slot capacity).
Abbreviation pc := (@pc T).
Abbreviation sys := (@sys T).
Abbreviation weak := (weak T).

Lemma slot_small k : k < capacity → slot k = k.
Proof. apply Nat.mod_small. Qed.

(** *** Views *)

(** A view of the state after [ps] pushes and [tk] exchanges: it has seen the
    writes of the elements before the tail it knows of. *)
Record view_ok (ps tk : nat) (log : accesses_t) (v : view) : Prop := {
  v_head_le : v_head v ≤ tk;
  v_tail_le : v_tail v ≤ ps;
  v_writes id k : log !! id = Some (0, Z.of_nat k) → k < v_tail v → id ∈ seen v }.

(** The stores to an atomic, [n] after the first. *)
Record messages_ok (n ps tk : nat) (log : accesses_t) (ms : list message) : Prop := {
  ms_length : length ms = S n;
  ms_message k m : ms !! k = Some m →
    m_value m = Z.of_nat (slot k) ∧ view_ok ps tk log (m_view m) ∧ k ≤ v_tail (m_view m) }.

(** Nothing is written again in the part of the ring that was published. *)
Definition extends (ps : nat) (log log' : accesses_t) : Prop :=
  ∀ id k, log' !! id = Some (0, Z.of_nat k) → k < ps → log !! id = Some (0, Z.of_nat k).

Lemma view_ok_mono ps tk log ps' tk' log' v :
  ps ≤ ps' → tk ≤ tk' → extends ps log log' → view_ok ps tk log v → view_ok ps' tk' log' v.
Proof.
  intros Hp Ht He [H1 H2 H3]. split; [lia|lia|]. intros id k Hk Hlt. apply (H3 id k); [|done].
  apply He; [done|lia].
Qed.

Lemma view_ok_no ps tk log : view_ok ps tk log no_view.
Proof. split; cbn; [lia|lia|]. intros id k _ Hk. lia. Qed.

Lemma view_ok_join ps tk log v w :
  view_ok ps tk log v → view_ok ps tk log w → view_ok ps tk log (join v w).
Proof.
  intros [V1 V2 V3] [W1 W2 W3]. split; cbn; [lia|lia|]. intros id k Hk Hlt. apply elem_of_union.
  destruct (decide (k < v_tail v)); [left; eauto|right; apply (W3 id k); [done|lia]].
Qed.

Lemma view_ok_advance_head ps tk log v ts :
  ts ≤ tk → view_ok ps tk log v → view_ok ps tk log (advance Head ts v).
Proof. intros Ht [V1 V2 V3]. split; cbn; [lia|done|done]. Qed.

Lemma messages_mono n ps tk log ps' tk' log' ms :
  ps ≤ ps' → tk ≤ tk' → extends ps log log' →
  messages_ok n ps tk log ms → messages_ok n ps' tk' log' ms.
Proof.
  intros Hp Ht He [L M]. split; [done|]. intros k m (? & ? & ?)%M. split_and!; [done| |done].
  by eapply view_ok_mono.
Qed.

Lemma messages_snoc n ps tk log ms m :
  messages_ok n ps tk log ms → m_value m = Z.of_nat (slot (S n)) →
  view_ok ps tk log (m_view m) → S n ≤ v_tail (m_view m) →
  messages_ok (S n) ps tk log (ms ++ [m]).
Proof.
  intros [L M] H1 H2 H3. split; [rewrite length_app; cbn; lia|].
  intros k m' [[_ Hk]|[-> [= <-]]]%lookup_snoc_Some; [by apply M|]. by rewrite L.
Qed.

(** A load that acquires: the value is that of the store, whose tail is known
    afterwards. *)
Lemma load_acquire x ts v (s : weak) z v' n ps tk :
  load Acquire x ts v s = Some (z, v') → messages_ok n ps tk (accesses s) (history x s) →
  view_ok ps tk (accesses s) v → (x = Head → n ≤ tk) →
  z = Z.of_nat (slot ts) ∧ ts ≤ n ∧ time x v ≤ ts ∧ view_ok ps tk (accesses s) v' ∧
  ts ≤ v_tail v' ∧ v_head v ≤ v_head v' ∧ seen v ⊆ seen v'.
Proof.
  intros H [L M] V Hn. unfold load in H. destruct (history x s !! ts) as [m|] eqn:E; [|done].
  cbn in H. case_decide as Hts; [|done]. injection H as <- <-.
  destruct (M ts m E) as (Hz & Hm & Htl). pose proof (lookup_lt_Some _ _ _ E).
  split_and!; [done|lia|done| |..].
  - destruct x.
    + apply view_ok_join; [|done]. apply view_ok_advance_head; [|done]. specialize (Hn eq_refl). lia.
    + destruct (view_ok_join _ _ _ _ _ V Hm) as [J1 J2 J3]. cbn in *. split; cbn; [done|lia|].
      intros id k Hk Hlt. apply (J3 id k); [done|lia].
  - destruct x; cbn; lia.
  - destruct x; cbn; lia.
  - destruct x; cbn; set_solver.
Qed.

Lemma load_relaxed ts v (s : weak) z v' ps tk :
  load Relaxed Head ts v s = Some (z, v') → messages_ok tk ps tk (accesses s) (heads s) →
  view_ok ps tk (accesses s) v →
  z = Z.of_nat (slot ts) ∧ ts ≤ tk ∧ v_head v ≤ ts ∧ view_ok ps tk (accesses s) v' ∧
  v_tail v' = v_tail v ∧ v_head v' = ts.
Proof.
  intros H [L M] V. unfold load in H. cbn in H. destruct (heads s !! ts) as [m|] eqn:E; [|done].
  cbn in H. case_decide as Hts; [|done]. injection H as <- <-. cbn.
  destruct (M ts m E) as (Hz & _). pose proof (lookup_lt_Some _ _ _ E).
  split_and!; [done|lia|done| |done|lia]. apply (view_ok_advance_head _ _ _ _ ts); [lia|done].
Qed.

End views.

(** *** The invariant *)

Section first_lap.
Context {T : Type} (capacity : nat) (dflt : T) (moved : T → T) (head_load : memory_order).
Context (Hcap : 0 < capacity ≤ SMALL_INTEGER_OPTIMISATION_LIMIT).
Abbreviation slot := (slot capacity).
Abbreviation pc := (@pc T).
Abbreviation sys := (@sys T).
Abbreviation weak := (weak T).

Definition writing (p : pc) : bool :=
  match p with PushLoaded _ _ _ | PushWritten _ _ => true | _ => false end.

(** Whether a push is under way. *)
Definition inflight (s : sys) : nat :=
  if default false (writing <$> threads s !! 0) then 1 else 0.

(** The accesses: the producer's to the slots it has written, the consumers' to
    the slots of the elements they have moved out. *)
Record log_ok (s : sys) (log : accesses_t) : Prop := {
  l_producer id i : log !! id = Some (0, i) → ∃ k, i = Z.of_nat k ∧
    (k < length (pushed s) ∨
     k = length (pushed s) ∧ ∃ x n, threads s !! 0 = Some (PushWritten x n));
  l_consumer id t i : log !! id = Some (t, i) → t ≠ 0 → ∃ k, i = Z.of_nat k ∧ k < taken s ∧
    ∀ t' h, threads s !! t' ≠ Some (PopWon h k) }.

Definition role_ok (t : nat) (p : pc) : Prop :=
  if decide (t = 0) then lap p = None ∧ owns p = None else pushing p = None.

(** What a thread's view knows: the producer all it has done itself, a consumer the
    tail that it compared with. *)
Definition knows (ps : nat) (log : accesses_t) (t : nat) (p : pc) (v : view) : Prop :=
  if decide (t = 0) then v_tail v = ps ∧ ∀ id i, log !! id = Some (0, i) → id ∈ seen v
  else match p with
       | PopLoaded _ c => c ≤ v_tail v
       | PopChecked _ c | PopWon _ c => c < v_tail v
       | _ => True
       end.

(** Either the head is acquired, or thread 1 is the only consumer. *)
Definition mode_ok (s : sys) (vs : list view) : Prop :=
  head_load = Acquire ∨
  (∀ t p, threads s !! t = Some p → 2 ≤ t → p = Idle) ∧
  (∀ v, vs !! 1 = Some v → v_head v = taken s ∧ taken s ≤ v_tail v).

(** [b] more pushes may start. *)
Record winv (b : nat) (s : weak) : Prop := {
  w_sys : inv_at capacity (inflight (shared s)) (shared s);
  w_room : length (pushed (shared s)) + inflight (shared s) + b < capacity;
  w_role t p : threads (shared s) !! t = Some p → role_ok t p;
  w_view t v : views s !! t = Some v →
    view_ok (length (pushed (shared s))) (taken (shared s)) (accesses s) v;
  w_knows t p v : threads (shared s) !! t = Some p → views s !! t = Some v →
    knows (length (pushed (shared s))) (accesses s) t p v;
  w_heads : messages_ok capacity (taken (shared s)) (length (pushed (shared s))) (taken (shared s))
    (accesses s) (heads s);
  w_tails : messages_ok capacity (length (pushed (shared s))) (length (pushed (shared s)))
    (taken (shared s)) (accesses s) (tails s);
  w_log : log_ok (shared s) (accesses s);
  w_mode : mode_ok (shared s) (views s) }.

(** *** Keeping the invariant *)

Lemma inv_inflight (sh : sys) :
  inv capacity sh → (∀ t p, threads sh !! t = Some p → role_ok t p) →
  inv_at capacity (inflight sh) sh.
Proof using Hcap.
  intros [pend I] Hr. unfold inflight. destruct (default false (writing <$> threads sh !! 0)) eqn:E.
  - destruct (threads sh !! 0) as [p|] eqn:Hp; [|done]. cbn in E.
    pose proof (i_thread _ _ _ I 0 p Hp) as Hok.
    destruct p; try done; cbn in Hok; destruct Hok as (_ & _ & ->); exact I.
  - assert (Hn : ∀ t p, threads sh !! t = Some p → pushing p = None).
    { intros t p Ht. pose proof (Hr t p Ht) as H. unfold role_ok in H.
      case_decide; [subst t|done]. rewrite Ht in E. by destruct p. }
    destruct I as [[Q1 Q2 Q3 Q4 Q5 Q6 Q7] Th One Own R].
    split; [split; try done; lia| |done..]. intros t p Ht. pose proof (Th t p Ht) as Hok.
    specialize (Hn t p Ht). clear -Hok Hn. destruct p; simpl in *; try done; intuition lia.
Qed.

Lemma inflight_producer (sh : sys) q p0 p ps tk rs :
  threads sh !! 0 = Some p0 →
  inflight (mk_sys q (<[0 := p]> (threads sh)) ps tk rs) = if writing p then 1 else 0.
Proof using.
  intros Ht%lookup_lt_Some. unfold inflight. cbn. by rewrite list_lookup_insert_eq.
Qed.

Lemma inflight_consumer (sh : sys) q t p ps tk rs :
  t ≠ 0 → inflight (mk_sys q (<[t := p]> (threads sh)) ps tk rs) = inflight sh.
Proof using. intros Ht. unfold inflight. cbn. by rewrite list_lookup_insert_ne. Qed.

Lemma mode_update (sh sh' : sys) vs t p0 p v :
  mode_ok sh vs → threads sh !! t = Some p0 → threads sh' = <[t := p]> (threads sh) →
  head_load = Acquire ∨ (t = 0 ∧ taken sh' = taken sh) ∨
    (t = 1 ∧ v_head v = taken sh' ∧ taken sh' ≤ v_tail v) →
  mode_ok sh' (<[t := v]> vs).
Proof using Hcap.
  intros [?|[M1 M2]] Ht E Hc; [by left|]. destruct Hc as [?|Hc]; [by left|]. right. split.
  - intros t' p' Ht' Hle. rewrite E in Ht'.
    rewrite list_lookup_insert_ne in Ht' by (destruct Hc as [[-> _]|[-> _]]; lia). by eapply M1.
  - intros v' [(-> & -> & _)|[Hne Hv]]%list_lookup_insert_Some.
    + destruct Hc as [[? _]|(_ & ? & ?)]; done.
    + destruct Hc as [[-> ->]|(-> & _)]; [|done]. by apply M2.
Qed.

Lemma winv_update b b' (s : weak) t p0 v0 p v (sh' : sys) hs tl log' :
  winv b s → threads (shared s) !! t = Some p0 → views s !! t = Some v0 →
  threads sh' = <[t := p]> (threads (shared s)) → inv capacity sh' →
  length (pushed (shared s)) ≤ length (pushed sh') → taken (shared s) ≤ taken sh' →
  (t ≠ 0 → pushed sh' = pushed (shared s)) →
  extends (length (pushed (shared s))) (accesses s) log' →
  (t ≠ 0 → ∀ id i, log' !! id = Some (0, i) → accesses s !! id = Some (0, i)) →
  length (pushed sh') + inflight sh' + b' < capacity →
  role_ok t p → view_ok (length (pushed sh')) (taken sh') log' v →
  knows (length (pushed sh')) log' t p v →
  messages_ok capacity (taken sh') (length (pushed sh')) (taken sh') log' hs →
  messages_ok capacity (length (pushed sh')) (length (pushed sh')) (taken sh') log' tl →
  log_ok sh' log' → mode_ok sh' (<[t := v]> (views s)) →
  winv b' (mk_weak sh' hs tl log' (<[t := v]> (views s))).
Proof using Hcap.
  intros W Ht Hv Eth Hinv Hps Htk Hsame Hext Hown Hroom Hrole Hview Hknows Hhs Htl Hlog Hmode.
  assert (Hroles : ∀ t' p', threads sh' !! t' = Some p' → role_ok t' p').
  { rewrite Eth. apply (insert_threads (threads (shared s)) t p role_ok); [done|].
    intros t' p' _ Ht'. by eapply (w_role _ _ W). }
  split; cbn; try done.
  - by apply inv_inflight.
  - intros t' v' [(<- & <- & _)|[Hne Hv']]%list_lookup_insert_Some; [done|].
    eapply view_ok_mono; [exact Hps|exact Htk|exact Hext|]. by eapply (w_view _ _ W).
  - intros t' p' v' Hp' Hv'. rewrite Eth in Hp'.
    apply list_lookup_insert_Some in Hp' as [(<- & <- & _)|[Hne Hp']].
    { rewrite list_lookup_insert_eq in Hv' by by eapply lookup_lt_Some. congruence. }
    rewrite list_lookup_insert_ne in Hv' by done.
    pose proof (w_knows _ _ W t' p' v' Hp' Hv') as Hk. unfold knows in *. case_decide; [|done].
    subst t'. rewrite Hsame by done. destruct Hk as [? Hk]. split; [done|].
    intros id i Hid. apply (Hk id i). by apply Hown.
Qed.

(** The log under a step without an access. *)
Lemma log_ok_update (sh sh' : sys) log t p0 p :
  log_ok sh log → threads sh !! t = Some p0 → threads sh' = <[t := p]> (threads sh) →
  length (pushed sh) ≤ length (pushed sh') → taken sh ≤ taken sh' →
  (∀ x n, p0 = PushWritten x n → length (pushed sh) < length (pushed sh')) →
  (∀ h k, p = PopWon h k → taken sh ≤ k) → log_ok sh' log.
Proof using Hcap.
  intros [L1 L2] Ht E Hps Htk Hw Hwon. split.
  - intros id i (k & -> & Hk)%L1. exists k. split; [done|].
    destruct Hk as [?|(-> & x & n & H0)]; [left; lia|].
    destruct (decide (t = 0)) as [->|Hne].
    + left. rewrite Ht in H0. injection H0 as ->. by eapply Hw.
    + destruct (decide (length (pushed sh) < length (pushed sh'))); [by left|right].
      split; [lia|]. exists x, n. by rewrite E, list_lookup_insert_ne.
  - intros id t' i Hid Hne. destruct (L2 id t' i Hid Hne) as (k & -> & Hk & Hn).
    exists k. split_and!; [done|lia|]. intros t1 h. rewrite E.
    intros [(_ & Hp & _)|[_ H1]]%list_lookup_insert_Some; [|by eapply Hn].
    specialize (Hwon h k Hp). lia.
Qed.

(** The log under an access. *)
Lemma log_ok_snoc (sh : sys) log t k :
  log_ok sh log →
  (t = 0 → k = length (pushed sh) ∧ ∃ x n, threads sh !! 0 = Some (PushWritten x n)) →
  (t ≠ 0 → k < taken sh ∧ ∀ t' h, threads sh !! t' ≠ Some (PopWon h k)) →
  log_ok sh (log ++ [(t, Z.of_nat k)]).
Proof using Hcap.
  intros [L1 L2] H0 H1. split.
  - intros id i [[_ Hi]|[_ E]]%lookup_snoc_Some; [by apply (L1 id)|].
    exists k. split; [congruence|]. right. apply H0. congruence.
  - intros id t' i [[_ Hi]|[_ E]]%lookup_snoc_Some Hne; [by apply (L2 id t')|].
    exists k. split; [congruence|]. apply H1. congruence.
Qed.

Lemma winv_weaken b b' (s : weak) : b ≤ b' → winv b' s → winv b s.
Proof using. clear. intros Hb [? R ? ? ? ? ? ? ?]. split; try done. lia. Qed.

Definition stepped (b : nat) (t : nat) (a : waction T) (s : weak) : Prop :=
  ∃ s', wstep capacity moved head_load t a s = Ret s' ∧ winv b s'.

Lemma wstep_run t a (s : weak) p v p' v' s' :
  threads (shared s) !! t = Some p → views s !! t = Some v →
  wact capacity moved head_load t a p v s = Ret (p', v', s') →
  wstep capacity moved head_load t a s =
  Ret (mk_weak (set_thread t p' (shared s')) (heads s') (tails s') (accesses s') (<[t := v']> (views s'))).
Proof using Hcap. intros Hp Hv H. unfold wstep. by rewrite Hp, Hv, H. Qed.

Lemma wstep_stutter b t a (s : weak) p v :
  winv b s → threads (shared s) !! t = Some p → views s !! t = Some v →
  wact capacity moved head_load t a p v s = Ret (p, v, s) → stepped b t a s.
Proof using Hcap.
  intros W Hp Hv H. eexists. split; [by apply (wstep_run t a s p v)|].
  unfold set_thread. rewrite !list_insert_id by done. destruct s as [[] ? ? ? ?]. exact W.
Qed.

Lemma extends_refl ps log : extends ps log log.
Proof using. clear. by intros id k. Qed.

(** *** The producer *)

Lemma step_push b x ts (s : weak) v0 :
  winv (S b) s → threads (shared s) !! 0 = Some Idle → views s !! 0 = Some v0 →
  stepped b 0 (WPush x ts) s.
Proof using Hcap.
  intros W Ht Hv. pose proof (w_sys _ _ W) as I. pose proof (i_queue _ _ _ I) as Q.
  destruct (load Acquire Tail ts v0 s) as [[z v]|] eqn:El.
  2: { apply (winv_weaken b (S b)) in W; [|lia].
       eapply (wstep_stutter b); [done|done|exact Hv|cbn; by rewrite El]. }
  pose proof (w_room _ _ W) as Hroom.
  assert (Hi : inflight (shared s) = 0) by (unfold inflight; by rewrite Ht). rewrite Hi in *.
  destruct (load_acquire capacity _ _ _ _ _ _ _ _ _ El (w_tails _ _ W) (w_view _ _ W _ _ Hv))
    as (-> & Hts & Hle & Hok & Hkn & Hhd & Hmono); [done|].
  destruct (w_knows _ _ W 0 _ _ Ht Hv) as [Hv0 Hseen]. cbn in Hle. assert (ts = length (pushed (shared s))) as -> by lia.
  assert (Hmay : may_push capacity (shared s)).
  { split; [|lia]. apply Forall_lookup. intros t p Hp. pose proof (w_role _ _ W t p Hp) as Hr.
    unfold role_ok in Hr. case_decide as H0; [subst t; rewrite Ht in Hp; by injection Hp as <-|].
    split; [done|]. destruct (lap p); [lia|done]. }
  destruct (act_start_push capacity moved Hcap (shared s) 0 _ x I Ht Hmay) as (p & s1 & Ha & Hth & Hinv).
  cbn [act] in Ha. rewrite (q_tail _ _ _ _ _ Q), next_slot in Ha by (done || apply Q).
  cbn [mbind outcome_bind] in Ha. injection Ha as <- <-.
  eexists. split.
  { apply (wstep_run 0 _ s Idle v0); [done..|]. cbn [wact]. rewrite El.
    by rewrite next_slot by (done || apply Q). }
  eapply (winv_update (S b) b s 0 Idle v0); try done; try exact (w_heads _ _ W); try exact (w_tails _ _ W); try apply extends_refl.
  - unfold set_thread. rewrite (inflight_producer _ _ _ _ _ _ _ Ht). cbn. lia.
  - destruct Hok. split; [cbn; lia|]. intros id i Hid. by apply Hmono, (Hseen id i).
  - eapply log_ok_update; [apply W|exact Ht|done..].
  - eapply mode_update; [apply W|exact Ht|done|]. right. by left.
Qed.

(** An access that races with none. *)
Lemma touch_run t i v (s : weak) :
  (∀ id t', accesses s !! id = Some (t', i) → id ∈ seen v) →
  touch t i v s = Ret (mk_view (v_head v) (v_tail v) ({[length (accesses s)]} ∪ seen v),
    mk_weak (shared s) (heads s) (tails s) (accesses s ++ [(t, i)]) (views s)).
Proof using.
  clear. intros H. unfold touch. rewrite decide_False; [done|].
  intros (id & t' & Hl & Hn)%races_spec. by apply Hn, (H id t').
Qed.

(** What the views know stays true when [t] accesses slot [k]. *)
Lemma extends_snoc ps log t k :
  (t = 0 → ps ≤ k) → extends ps log (log ++ [(t, Z.of_nat k)]).
Proof using.
  clear. intros Ht id k' [[_ ?]|[_ E]]%lookup_snoc_Some Hlt; [done|].
  simplify_eq. lia.
Qed.

Lemma view_ok_touch ps tk log v t k :
  view_ok ps tk log v →
  view_ok ps tk (log ++ [(t, Z.of_nat k)]) (mk_view (v_head v) (v_tail v) ({[length log]} ∪ seen v)).
Proof using.
  clear. intros [V1 V2 V3]. split; cbn; [done|done|].
  intros id k' [[_ Hk]|[-> _]]%lookup_snoc_Some Hlt; apply elem_of_union; [right; eauto|left].
  by apply elem_of_singleton.
Qed.

Lemma step_write b ts spurious x i n (s : weak) v0 :
  winv b s → threads (shared s) !! 0 = Some (PushLoaded x i n) → views s !! 0 = Some v0 →
  stepped b 0 (WGo ts spurious) s.
Proof using Hcap.
  intros W Ht Hv. pose proof (w_sys _ _ W) as I. pose proof (i_queue _ _ _ I) as Q.
  pose proof (w_room _ _ W) as Hroom. pose proof (q_le _ _ _ _ _ Q) as Hle.
  destruct (w_log _ _ W) as [L1 L2].
  destruct (i_thread _ _ _ I 0 _ Ht) as (-> & -> & _).
  assert (Hi : inflight (shared s) = 1) by (unfold inflight; by rewrite Ht). rewrite Hi in *.
  rewrite slot_small in Ht by lia.
  destruct (act_push_loaded capacity moved Hcap (shared s) 0 _ x _ _ false I Ht) as (p & s1 & Ha & Hth & Hinv).
  pose proof Ha as Ha'. cbn [act] in Ha'.
  apply outcome_bind_Ret_inv in Ha' as ([[] q] & Hq & [= <- <-]). cbn in Hinv.
  eexists. split.
  { eapply (wstep_run 0 _ s _ v0); [done..|]. cbn [wact]. rewrite touch_run.
    { cbn [mbind outcome_bind shared]. by rewrite Ha. }
    intros id t' Hid. destruct (decide (t' = 0)) as [->|Hne].
    - apply L1 in Hid as (k & Ek & [Hk|(_ & y & m & H0)]); [lia|congruence].
    - destruct (L2 id t' _ Hid Hne) as (k & Ek & Hk & _). lia. }
  cbn [shared heads tails accesses views with_shared].
  assert (Hext : extends (length (pushed (shared s))) (accesses s)
    (accesses s ++ [(0, Z.of_nat (length (pushed (shared s))))])) by by apply extends_snoc.
  eapply (winv_update b b s 0 _ v0); try done.
  - unfold set_thread. cbn [threads]. rewrite (inflight_producer _ _ _ _ _ _ _ Ht). cbn. lia.
  - cbn. apply view_ok_touch. by apply (w_view _ _ W 0).
  - destruct (w_knows _ _ W 0 _ v0 Ht Hv) as [Hv0 Hseen]. split; [done|]. cbn.
    intros id i [[_ Hid]|[-> _]]%lookup_snoc_Some; [specialize (Hseen id i Hid)|]; set_solver.
  - by eapply messages_mono; [| | |exact (w_heads _ _ W)].
  - by eapply messages_mono; [| | |exact (w_tails _ _ W)].
  - apply log_ok_snoc; [|intros _; split; [done|]|done].
    + eapply log_ok_update; [apply (w_log _ _ W)|exact Ht|done..].
    + cbn. rewrite list_lookup_insert_eq by by eapply lookup_lt_Some. eauto.
  - eapply mode_update; [apply (w_mode _ _ W)|exact Ht|done|]. right. by left.
Qed.

Lemma step_store b ts spurious x n (s : weak) v0 :
  winv b s → threads (shared s) !! 0 = Some (PushWritten x n) → views s !! 0 = Some v0 →
  stepped b 0 (WGo ts spurious) s.
Proof using Hcap.
  intros W Ht Hv. pose proof (w_sys _ _ W) as I. pose proof (i_queue _ _ _ I) as Q.
  pose proof (w_room _ _ W) as Hroom.
  destruct (i_thread _ _ _ I 0 _ Ht) as (-> & _ & _).
  assert (Hi : inflight (shared s) = 1) by (unfold inflight; by rewrite Ht). rewrite Hi in *.
  destruct (act_push_written capacity moved Hcap (shared s) 0 _ x _ false I Ht) as (p & s1 & Ha & Hth & Hinv).
  cbn [act] in Ha. apply outcome_bind_Ret_inv in Ha as ([[] q] & [= <-] & [= <- <-]). cbn in Hinv.
  pose proof (w_view _ _ W 0 v0 Hv) as Hok. pose proof (w_knows _ _ W 0 _ v0 Ht Hv) as Hkn.
  destruct Hkn as [Hv0 Hseen].
  pose proof (ms_length _ _ _ _ _ _ (w_tails _ _ W)) as Hlt.
  eexists. split; [by eapply (wstep_run 0 _ s _ v0)|].
  cbn [shared heads tails accesses views with_shared].
  set (n := length (pushed (shared s))) in *.
  assert (Hps : length (pushed (shared s) ++ [x]) = S n) by (rewrite length_app; cbn; lia).
  assert (Hnew : view_ok (S n) (taken (shared s)) (accesses s) (advance Tail (length (tails s)) v0)).
  { destruct Hok as [V1 V2 V3]. split; cbn; [done|lia|]. intros id k Hid Hk.
    by apply (Hseen id _ Hid). }
  eapply (winv_update b b s 0 _ v0); try done; cbn [set_thread pushed taken]; rewrite ?Hps; try apply extends_refl.
  - lia.
  - unfold set_thread. rewrite (inflight_producer _ _ _ _ _ _ _ Ht). cbn. lia.
  - exact Hnew.
  - split; [cbn; lia|done].
  - eapply messages_mono; [| | |exact (w_heads _ _ W)]; [lia|done|apply extends_refl].
  - apply messages_snoc; [|done|done|cbn; lia].
    eapply messages_mono; [| | |exact (w_tails _ _ W)]; [lia|done|apply extends_refl].
  - eapply log_ok_update; [apply (w_log _ _ W)|exact Ht|done|cbn; lia|done|intros; cbn; lia|done].
  - eapply mode_update; [apply (w_mode _ _ W)|exact Ht|done|]. right. by left.
Qed.

(** *** The consumers *)

Lemma role_consumer b (s : weak) t p :
  winv b s → threads (shared s) !! t = Some p → lap p ≠ None ∨ owns p ≠ None → t ≠ 0.
Proof using.
  clear. intros W Ht Hp ->. pose proof (w_role _ _ W 0 p Ht) as [? ?]. tauto.
Qed.

(** A consumer inside [pop] acquires the head, or is the only one. *)
Definition alone (tk t : nat) (v : view) : Prop :=
  head_load = Acquire ∨ t = 1 ∧ v_head v = tk ∧ tk ≤ v_tail v.

Lemma mode_alone b (s : weak) t p v :
  winv b s → threads (shared s) !! t = Some p → views s !! t = Some v → t ≠ 0 →
  p ≠ Idle ∨ head_load = Acquire ∨ t = 1 → alone (taken (shared s)) t v.
Proof using.
  clear. intros W Ht Hv H0 Hp. destruct (w_mode _ _ W) as [?|[M1 M2]]; [by left|].
  destruct (decide (t = 1)) as [->|H1]; [right; split; [done|by apply M2]|].
  destruct Hp as [Hp|[?|?]]; [|by left|done]. destruct Hp. apply (M1 t p Ht). lia.
Qed.

(** A consumer's step that neither accesses a slot nor stores. *)
Lemma step_local b t a p0 p v0 v (s : weak) :
  winv b s → threads (shared s) !! t = Some p0 → views s !! t = Some v0 → t ≠ 0 →
  wact capacity moved head_load t a p0 v0 s = Ret (p, v, s) →
  inv capacity (set_thread t p (shared s)) → pushing p = None → (∀ h k, p ≠ PopWon h k) →
  view_ok (length (pushed (shared s))) (taken (shared s)) (accesses s) v →
  knows (length (pushed (shared s))) (accesses s) t p v →
  alone (taken (shared s)) t v → stepped b t a s.
Proof using Hcap.
  intros W Ht Hv Hne Ha Hinv Hpush Hwon Hview Hknows Hal. pose proof (w_room _ _ W) as Hroom.
  pose proof (w_role _ _ W t p0 Ht) as Hr0. unfold role_ok in Hr0. rewrite decide_False in Hr0 by done.
  eexists. split; [by apply (wstep_run t a s p0 v0)|].
  eapply (winv_update b b s t _ v0); try done; cbn [set_thread pushed taken]; try apply extends_refl.
  - unfold set_thread. by rewrite inflight_consumer.
  - unfold role_ok. by rewrite decide_False.
  - apply (w_heads _ _ W).
  - apply (w_tails _ _ W).
  - eapply log_ok_update; [apply (w_log _ _ W)|exact Ht|done..| |].
    + intros x n ->. done.
    + intros h k Hk. by destruct (Hwon h k).
  - eapply mode_update; [apply (w_mode _ _ W)|exact Ht|done|].
    destruct Hal as [?|(-> & ? & ?)]; [by left|]. right. by right.
Qed.

Lemma step_pop b t ts (s : weak) v0 :
  winv b s → threads (shared s) !! t = Some Idle → views s !! t = Some v0 →
  t ≠ 0 → head_load = Acquire ∨ t = 1 → stepped b t (WPop ts) s.
Proof using Hcap.
  intros W Ht Hv Hne Hmode. pose proof (w_sys _ _ W) as I. pose proof (i_queue _ _ _ I) as Q.
  pose proof (w_room _ _ W) as Hroom. pose proof (w_view _ _ W t v0 Hv) as Hok.
  assert (Hal : alone (taken (shared s)) t v0) by (eapply mode_alone; eauto).
  destruct (load head_load Head ts v0 s) as [[z v]|] eqn:El.
  2: { eapply (wstep_stutter b); [done|done|exact Hv|cbn; by rewrite El]. }
  assert (Hl : z = Z.of_nat (slot ts) ∧ ts ≤ taken (shared s) ∧
    view_ok (length (pushed (shared s))) (taken (shared s)) (accesses s) v ∧ ts ≤ v_tail v ∧
    alone (taken (shared s)) t v).
  { destruct head_load eqn:Eo.
    - destruct Hal as [|(-> & Hh & Htl)]; [congruence|].
      destruct (load_relaxed capacity _ _ _ _ _ _ _ El (w_heads _ _ W) Hok) as (? & ? & ? & ? & E1 & E2).
      split_and!; [done..|lia|]. right. split_and!; [done|lia|lia].
    - destruct (load_acquire capacity _ _ _ _ _ _ _ _ _ El (w_heads _ _ W) Hok) as (? & ? & _ & ? & ? & _);
        [done|]. split_and!; try done. by left. }
  destruct Hl as (-> & Hts & Hok' & Htl & Hal').
  eapply (step_local b t _ Idle _ v0 v); try done.
  - cbn. by rewrite El.
  - eapply (inv_update capacity _ _); [exact I|exact Ht|exact Q| |done|done|done|].
    + cbn. split_and!; [done|done|]. lia.
    + eapply returned_same; [exact Ht|done|apply I].
  - reflexivity.
  - done.
  - unfold knows. by rewrite decide_False.
Qed.

Lemma step_check b t ts spurious h c (s : weak) v0 :
  winv b s → threads (shared s) !! t = Some (PopLoaded h c) → views s !! t = Some v0 →
  stepped b t (WGo ts spurious) s.
Proof using Hcap.
  intros W Ht Hv. pose proof (w_sys _ _ W) as I. pose proof (i_queue _ _ _ I) as Q.
  pose proof (w_room _ _ W) as Hroom. pose proof (w_view _ _ W t v0 Hv) as Hok.
  assert (Hne : t ≠ 0) by (eapply role_consumer; [done|exact Ht|by left]).
  assert (Hal : alone (taken (shared s)) t v0) by (eapply mode_alone; eauto; by left).
  destruct (i_thread _ _ _ I t _ Ht) as (-> & Hc & Hr).
  pose proof (w_knows _ _ W t _ v0 Ht Hv) as Hkn. unfold knows in Hkn. rewrite decide_False in Hkn by done.
  destruct (load Acquire Tail ts v0 s) as [[z v]|] eqn:El.
  2: { eapply (wstep_stutter b); [done|done|exact Hv|cbn; by rewrite El]. }
  destruct (load_acquire capacity _ _ _ _ _ _ _ _ _ El (w_tails _ _ W) Hok)
    as (-> & Hts & Hle & Hok' & Htl & Hhd & _); [done|]. cbn in Hle.
  assert (Hal' : alone (taken (shared s)) t v).
  { destruct Hal as [?|(-> & ? & ?)]; [by left|]. right. destruct Hok'. split_and!; [done|lia|lia]. }
  assert (Ha : wact capacity moved head_load t (WGo ts spurious) (PopLoaded (Z.of_nat (slot c)) c) v0 s =
    Ret (if decide (Z.of_nat (slot c) = Z.of_nat (slot ts)) then Idle
         else PopChecked (Z.of_nat (slot c)) c, v, s)) by (cbn; by rewrite El).
  case_decide as Hd; eapply (step_local b t _ _ _ v0 v); try done.
  - by eapply inv_give_up.
  - unfold knows. by rewrite decide_False.
  - eapply (inv_update capacity _ _); [exact I|exact Ht|exact Q| |done|done|done|].
    + cbn. split_and!; [done..|]. destruct (decide (c = ts)) as [->|]; [done|]. lia.
    + eapply returned_same; [exact Ht|done|apply I].
  - unfold knows. rewrite decide_False by done. destruct (decide (c = ts)) as [->|]; [done|]. lia.
Qed.

(** A successful exchange publishes the next head, with a tail beyond it. *)
Lemma exchange_message n ps tk log hs v d :
  messages_ok capacity tk ps tk log hs → view_ok ps tk log v → n = S tk → tk < v_tail v →
  d = Z.of_nat (slot n) →
  let v' := advance Head (length hs) v in
  view_ok ps n log v' ∧ v_head v' = n ∧
  messages_ok capacity n ps n log
    (hs ++ [mk_message d (join v' (default no_view (m_view <$> last hs)))]).
Proof using.
  clear. intros M Hok -> Htl -> v'. pose proof (ms_length _ _ _ _ _ _ M) as Hl.
  destruct Hok as [V1 V2 V3].
  assert (Hv : view_ok ps (S tk) log v') by (split; cbn; [lia|done|done]).
  split_and!; [done|cbn; lia|]. apply messages_snoc; [|done| |cbn; lia].
  - eapply messages_mono; [| | |exact M]; [lia|lia|by intros id k].
  - apply view_ok_join; [done|]. destruct (last hs) as [m|] eqn:E; [|apply view_ok_no].
    rewrite last_lookup in E. destruct (ms_message _ _ _ _ _ _ M _ _ E) as (_ & Hm & _).
    eapply view_ok_mono; [| | |exact Hm]; [lia|lia|by intros id k].
Qed.

Lemma step_exchange b t ts spurious h c (s : weak) v0 :
  winv b s → threads (shared s) !! t = Some (PopChecked h c) → views s !! t = Some v0 →
  stepped b t (WGo ts spurious) s.
Proof using Hcap.
  intros W Ht Hv. pose proof (w_sys _ _ W) as I. pose proof (i_queue _ _ _ I) as Q.
  pose proof (w_room _ _ W) as Hroom. pose proof (w_view _ _ W t v0 Hv) as Hok.
  pose proof (q_le _ _ _ _ _ Q) as Hle.
  assert (Hne : t ≠ 0) by (eapply role_consumer; [done|exact Ht|by left]).
  assert (Hal : alone (taken (shared s)) t v0) by (eapply mode_alone; eauto; by left).
  pose proof (i_thread _ _ _ I t _ Ht) as (-> & Hc & Hr & Hlt).
  pose proof (w_knows _ _ W t _ v0 Ht Hv) as Hkn. unfold knows in Hkn. rewrite decide_False in Hkn by done.
  destruct (act_pop_checked capacity moved Hcap (shared s) t _ _ c spurious I Ht) as (p & s1 & Ha & Hth & Hinv).
  pose proof Ha as Ha'. cbn [act] in Ha'. rewrite next_slot in Ha' by (done || apply Q).
  cbn [mbind outcome_bind] in Ha'. unfold cas_head in Ha'. case_decide as Hd.
  - (* the exchange succeeds *)
    destruct Hd as [Hd _]. rewrite (q_head _ _ _ _ _ Q) in Hd.
    apply Nat2Z.inj, slot_inj in Hd; [|lia..]. subst c.
    injection Ha' as <- <-. cbn in Hinv.
    destruct (exchange_message (S (taken (shared s))) _ _ _ _ v0 _ (w_heads _ _ W) Hok eq_refl Hkn eq_refl)
      as (Hv' & Hh' & Hm').
    eexists. split.
    { eapply (wstep_run t _ s _ v0); [done..|]. cbn [wact].
      rewrite next_slot by (done || apply Q). cbn [mbind outcome_bind]. by rewrite Ha. }
    cbn [shared heads tails accesses views with_shared].
    eapply (winv_update b b s t _ v0); try done; cbn [set_thread pushed taken]; try apply extends_refl; try lia.
    + unfold set_thread. by rewrite inflight_consumer.
    + unfold role_ok. by rewrite decide_False.
    + unfold knows. rewrite decide_False by done. done.
    + eapply messages_mono; [| | |exact (w_tails _ _ W)]; [done|lia|apply extends_refl].
    + eapply log_ok_update; [apply (w_log _ _ W)|exact Ht|done|done|cbn; lia|done|].
      by intros h k [= _ <-].
    + eapply mode_update; [apply (w_mode _ _ W)|exact Ht|done|].
      destruct Hal as [?|(-> & ? & ?)]; [by left|]. right. right. cbn. cbn in Hh'. split_and!; [done|done|lia].
  - (* it fails *)
    injection Ha' as <- <-.
    destruct (load Relaxed Head ts v0 s) as [[z v]|] eqn:El.
    2: { eapply (wstep_stutter b); [done|exact Ht|exact Hv|]. cbn [wact].
         rewrite next_slot by (done || apply Q). cbn [mbind outcome_bind]. rewrite Ha.
         cbn [mbind outcome_bind]. by rewrite El. }
    destruct (load_relaxed capacity _ _ _ _ _ _ _ El (w_heads _ _ W) Hok) as (_ & Hts & Hge & Hok' & E1 & E2).
    eapply (step_local b t _ _ Idle v0 v); [done|exact Ht|done|done| | |done|done|done| |].
    + cbn [wact]. rewrite next_slot by (done || apply Q). cbn [mbind outcome_bind]. rewrite Ha.
      cbn [mbind outcome_bind]. rewrite El. unfold with_shared. by destruct s as [[] ? ? ? ?].
    + by destruct s as [[] ? ? ? ?].
    + unfold knows. by rewrite decide_False.
    + destruct Hal as [?|(-> & ? & ?)]; [by left|]. right. split_and!; [done|lia|lia].
Qed.

Lemma step_take b t ts spurious h c (s : weak) v0 :
  winv b s → threads (shared s) !! t = Some (PopWon h c) → views s !! t = Some v0 →
  stepped b t (WGo ts spurious) s.
Proof using Hcap.
  intros W Ht Hv. pose proof (w_sys _ _ W) as I. pose proof (i_queue _ _ _ I) as Q.
  pose proof (w_room _ _ W) as Hroom. pose proof (w_view _ _ W t v0 Hv) as Hok.
  pose proof (q_le _ _ _ _ _ Q) as Hle. destruct (w_log _ _ W) as [L1 L2].
  assert (Hne : t ≠ 0) by (eapply role_consumer; [done|exact Ht|by left]).
  assert (Hal : alone (taken (shared s)) t v0) by (eapply mode_alone; eauto; by left).
  pose proof (i_thread _ _ _ I t _ Ht) as (-> & Hc & Hr & Hx).
  pose proof (w_knows _ _ W t _ v0 Ht Hv) as Hkn. unfold knows in Hkn. rewrite decide_False in Hkn by done.
  assert (Hs : slot c = c) by (apply slot_small; lia). rewrite Hs in *.
  destruct (act_pop_won capacity moved Hcap (shared s) t _ _ c false I Ht) as (p & s1 & Ha & Hth & Hinv).
  pose proof Ha as Ha'. cbn [act] in Ha'.
  apply outcome_bind_Ret_inv in Ha' as ([x q] & Hq & [= <- <-]). cbn in Hinv.
  eexists. split.
  { eapply (wstep_run t _ s _ v0); [done..|]. cbn [wact]. rewrite touch_run.
    { cbn [mbind outcome_bind shared]. by rewrite Ha. }
    intros id t' Hid. destruct (decide (t' = 0)) as [->|Ht']; [by apply (v_writes _ _ _ _ Hok id c)|].
    destruct (L2 id t' _ Hid Ht') as (k & <-%Nat2Z.inj & _ & Hn). by destruct (Hn t (Z.of_nat c)). }
  cbn [shared heads tails accesses views with_shared].
  assert (Hext : extends (length (pushed (shared s))) (accesses s) (accesses s ++ [(t, Z.of_nat c)]))
    by by apply extends_snoc.
  eapply (winv_update b b s t _ v0); try done; cbn [set_thread pushed taken]; try apply extends_refl; try lia.
  - intros _ id i [[_ ?]|[_ [= E _]]]%lookup_snoc_Some; [done|]. by destruct Hne.
  - unfold set_thread. by rewrite inflight_consumer.
  - unfold role_ok. by rewrite decide_False.
  - by apply view_ok_touch.
  - unfold knows. by rewrite decide_False.
  - by eapply messages_mono; [| | |exact (w_heads _ _ W)].
  - by eapply messages_mono; [| | |exact (w_tails _ _ W)].
  - apply log_ok_snoc; [|done|intros _; split; [done|]].
    + eapply log_ok_update; [apply (w_log _ _ W)|exact Ht|done..].
    + intros t' h. cbn. intros [(_ & ? & _)|[Hne' H']]%list_lookup_insert_Some; [done|].
      destruct Hne'. by apply (i_own _ _ _ I t t' _ _ c Ht H').
  - eapply mode_update; [apply (w_mode _ _ W)|exact Ht|done|].
    destruct Hal as [?|(-> & ? & ?)]; [by left|]. right. by right.
Qed.

Lemma step_return b t ts spurious x c (s : weak) v0 :
  winv b s → threads (shared s) !! t = Some (PopRead x c) → views s !! t = Some v0 →
  stepped b t (WGo ts spurious) s.
Proof using Hcap.
  intros W Ht Hv. pose proof (w_sys _ _ W) as I. pose proof (w_room _ _ W) as Hroom.
  assert (Hne : t ≠ 0) by (eapply role_consumer; [done|exact Ht|by right]).
  assert (Hal : alone (taken (shared s)) t v0) by (eapply mode_alone; eauto; by left).
  destruct (act_pop_read capacity moved Hcap (shared s) t _ x c false I Ht) as (p & s1 & Ha & Hth & Hinv).
  cbn [act] in Ha. apply outcome_bind_Ret_inv in Ha as ([[] q] & [= <-] & [= <- <-]). cbn in Hinv.
  eexists. split; [by eapply (wstep_run t _ s _ v0)|].
  cbn [shared heads tails accesses views with_shared].
  eapply (winv_update b b s t _ v0); try done; cbn [set_thread pushed taken]; try apply extends_refl.
  - unfold set_thread. by rewrite inflight_consumer.
  - unfold role_ok. by rewrite decide_False.
  - by apply (w_view _ _ W t).
  - unfold knows. by rewrite decide_False.
  - apply (w_heads _ _ W).
  - apply (w_tails _ _ W).
  - eapply log_ok_update; [apply (w_log _ _ W)|exact Ht|done..].
  - eapply mode_update; [apply (w_mode _ _ W)|exact Ht|done|].
    destruct Hal as [?|(-> & ? & ?)]; [by left|]. right. by right.
Qed.

(** The update of the size: it is not loaded, and tells nothing. *)
Lemma step_stored b t ts spurious (s : weak) v0 :
  winv b s → threads (shared s) !! t = Some PushStored → views s !! t = Some v0 →
  stepped b t (WGo ts spurious) s.
Proof using Hcap.
  intros W Ht Hv. pose proof (w_sys _ _ W) as I. pose proof (w_room _ _ W) as Hroom.
  pose proof (w_knows _ _ W t _ v0 Ht Hv) as Hkn. pose proof (w_role _ _ W t _ Ht) as Hr.
  assert (Hi : inflight (set_thread t Idle (shared s)) ≤ inflight (shared s)).
  { destruct (decide (t = 0)) as [->|Hne].
    - unfold set_thread. rewrite (inflight_producer _ _ _ _ _ _ _ Ht). cbn. lia.
    - unfold set_thread. by rewrite inflight_consumer. }
  eexists. split; [by eapply (wstep_run t _ s _ v0)|].
  cbn [shared heads tails accesses views with_shared].
  eapply (winv_update b b s t _ v0); try done; cbn [set_thread pushed taken]; try apply extends_refl.
  - by apply (act_size capacity Hcap (shared s) t _ PushStored 1 _ I).
  - change (inflight (set_thread t Idle _)) with (inflight (set_thread t Idle (shared s))). lia.
  - by apply (w_view _ _ W t).
  - apply (w_heads _ _ W).
  - apply (w_tails _ _ W).
  - eapply log_ok_update; [apply (w_log _ _ W)|exact Ht|done..].
  - eapply mode_update; [apply (w_mode _ _ W)|exact Ht|done|].
    destruct (decide (t = 0)) as [->|Hne]; [right; by left|].
    destruct (mode_alone b s t _ v0 W Ht Hv Hne) as [?|(-> & ? & ?)]; [by left|by left|].
    right. by right.
Qed.

(** *** Runs *)

(** Consumers: any, if they acquire the head; one otherwise. *)
Definition may_pop (ta : nat * waction T) : Prop :=
  head_load = Acquire ∨ match ta.2 with WPop _ => ta.1 = 1 | _ => True end.

#[export] Instance may_pop_dec ta : Decision (may_pop ta).
Proof using. unfold may_pop. destruct ta as [t [| |]]; apply _. Defined.

Lemma winv_step b t a (s : weak) :
  winv (pushes [(t, a)] + b) s → role (t, a) → may_pop (t, a) → stepped b t a s.
Proof using Hcap.
  intros W Hr Hm.
  assert (Hst : ∀ p v, threads (shared s) !! t = Some p → views s !! t = Some v →
    wact capacity moved head_load t a p v s = Ret (p, v, s) → stepped b t a s).
  { intros p v Ht Hv Ha. apply (wstep_stutter b t a s p v); try done.
    eapply winv_weaken; [|exact W]. lia. }
  destruct (threads (shared s) !! t) as [p|] eqn:Ht, (views s !! t) as [v|] eqn:Hv.
  2-4: exists s; unfold wstep; rewrite Ht, ?Hv; split; [done|]; eapply winv_weaken; [|exact W]; lia.
  destruct a as [x ts|ts|ts spurious].
  - unfold role in Hr. cbn in Hr. subst t. destruct p; try by apply (Hst _ _ eq_refl eq_refl).
    by eapply step_push.
  - unfold role in Hr. cbn in Hr. destruct p; try by apply (Hst _ _ eq_refl eq_refl).
    by eapply step_pop.
  - cbn in W. destruct p; try by apply (Hst _ _ eq_refl eq_refl).
    + pose proof (w_role _ _ W t _ Ht) as H0. unfold role_ok in H0. case_decide; [subst t|done].
      by eapply step_write.
    + pose proof (w_role _ _ W t _ Ht) as H0. unfold role_ok in H0. case_decide; [subst t|done].
      by eapply step_store.
    + by eapply step_stored.
    + by eapply step_check.
    + by eapply step_exchange.
    + by eapply step_take.
    + by eapply step_return.
Qed.

Lemma winv_run sched (s : weak) :
  winv (pushes sched) s → Forall role sched → Forall may_pop sched →
  ∃ s', wrun capacity moved head_load sched s = Ret s' ∧ winv 0 s'.
Proof using Hcap.
  revert s. induction sched as [|[t a] sched IH]; intros s W Hr Hm; cbn [wrun]; [eauto|].
  apply Forall_cons in Hr as [Hr0 Hr]. apply Forall_cons in Hm as [Hm0 Hm].
  destruct (winv_step (pushes sched) t a s) as (s1 & -> & W1); [|done|done|].
  { cbn [pushes] in *. by destruct a. }
  cbn [mbind outcome_bind]. by apply IH.
Qed.

Lemma winv_start b n :
  b < capacity → ∃ s, wstart capacity dflt n = Ret s ∧ winv b s.
Proof using Hcap.
  intros Hb. unfold wstart, start. destruct (inv_start capacity dflt Hcap n) as (s0 & H0 & I0).
  unfold start in H0. destruct (LockFreeQueue_new capacity dflt) as [q| | | |]; try done.
  injection H0 as <-. cbn [mbind outcome_bind]. eexists. split; [done|].
  assert (Hidle : ∀ t p, replicate n (@Idle T) !! t = Some p → p = Idle).
  { by intros t p [-> _]%lookup_replicate_1. }
  assert (Hrole : ∀ t p, replicate n (@Idle T) !! t = Some p → role_ok t p).
  { intros t p ->%Hidle. unfold role_ok. by case_decide. }
  assert (Hi : ∀ ths, (∀ t p, ths !! t = Some p → p = Idle) →
    ∀ q ps tk rs, inflight (mk_sys q ths ps tk rs) = 0).
  { intros ths Hths q' ps tk rs. unfold inflight. cbn. destruct (ths !! 0) as [p|] eqn:E; [|done].
    by rewrite (Hths 0 p E). }
  assert (Hm : messages_ok capacity 0 0 0 [] [mk_message 0 no_view]).
  { split; [done|]. intros [|k] m; [|done]. intros [= <-]. cbn. unfold LockFreeQueue.slot.
    rewrite Nat.Div0.mod_0_l. split_and!; [done|apply view_ok_no|done]. }
  split; cbn; try done.
  - by apply inv_inflight.
  - rewrite Hi by done. lia.
  - intros t v [-> _]%lookup_replicate_1. apply view_ok_no.
  - intros t p v ->%Hidle [-> _]%lookup_replicate_1. unfold knows. by case_decide.
  - right. split; [by intros t p ->%Hidle|]. by intros v [-> _]%lookup_replicate_1.
Qed.
End first_lap.

(** ** Using a slot again *)

Section reuse.
Context {T : Type} (capacity : nat) (dflt : T) (moved : T → T) (head_load : memory_order).
Abbreviation weak := (weak T).

(** The accesses seen are the producer's. *)
Definition own (log : accesses_t) (v : view) : Prop :=
  ∀ id, id ∈ seen v → ∃ i, log !! id = Some (0, i).

Lemma own_app log log' v : own log v → own (log ++ log') v.
Proof. intros H id (i & Hi)%H. exists i. by apply lookup_app_l_Some. Qed.

(** Nothing flows from the consumers to the producer: the only stores it acquires
    are its own. *)
Record producer_alone (s : weak) : Prop := {
  pa_view v : views s !! 0 = Some v → own (accesses s) v;
  pa_tails : Forall (λ m, own (accesses s) (m_view m)) (tails s);
  pa_push t p : threads (shared s) !! t = Some p → t ≠ 0 → pushing p = None;
  pa_length : length (views s) = length (threads (shared s)) }.

(** What one action does to the views of the producer and of the tail. *)
Definition acts_alone (t : nat) (s : weak) (r : outcome (@pc T * view * weak)) : Prop :=
  match r with
  | Ret (p', v', s') =>
    threads (shared s') = threads (shared s) ∧ views s' = views s ∧
    (∃ l, accesses s' = accesses s ++ l) ∧
    (t = 0 → own (accesses s') v') ∧
    Forall (λ m, own (accesses s') (m_view m)) (tails s') ∧
    (t ≠ 0 → pushing p' = None)
  | _ => True
  end.

Lemma load_own x ts v (s : weak) z v' o :
  load o x ts v s = Some (z, v') → own (accesses s) v →
  (o = Acquire → Forall (λ m, own (accesses s) (m_view m)) (history x s)) → own (accesses s) v'.
Proof.
  intros H Hv Hm. unfold load in H. destruct (history x s !! ts) as [m|] eqn:E; [|done]. cbn in H.
  case_decide; [|done]. injection H as _ <-.
  assert (Ha : own (accesses s) (advance x ts v)) by by destruct x.
  destruct o; [done|]. specialize (Hm eq_refl).
  pose proof (proj1 (Forall_lookup _ _) Hm ts m E) as Hme. intros id [Hi|Hi]%elem_of_union; auto.
Qed.

Lemma acts_alone_intro t (s : weak) p' v' sh hs tl l :
  producer_alone s → threads sh = threads (shared s) →
  (t = 0 → own (accesses s ++ l) v') →
  (tl = tails s ∨ ∃ m, tl = tails s ++ [m] ∧ own (accesses s ++ l) (m_view m)) →
  (t ≠ 0 → pushing p' = None) →
  acts_alone t s (Ret (p', v', mk_weak sh hs tl (accesses s ++ l) (views s))).
Proof.
  intros [Pv Pt Pp _] Hsh Hv Htl Hp. split_and!; try done; [by eexists|]. cbn.
  assert (Hold : Forall (λ m, own (accesses s ++ l) (m_view m)) (tails s)).
  { eapply Forall_impl; [exact Pt|]. intros m. apply own_app. }
  destruct Htl as [->|(m & -> & Hm)]; [done|]. apply Forall_app. split; [done|]. by constructor.
Qed.

(** The same without an access or a store to the tail. *)
Lemma acts_alone_local t (s : weak) p' v' sh hs :
  producer_alone s → threads sh = threads (shared s) → (t = 0 → own (accesses s) v') →
  (t ≠ 0 → pushing p' = None) →
  acts_alone t s (Ret (p', v', mk_weak sh hs (tails s) (accesses s) (views s))).
Proof.
  intros P Hsh Hv Hp. pose proof (acts_alone_intro t s p' v' sh hs (tails s) [] P Hsh) as H.
  rewrite app_nil_r in H. apply H; auto.
Qed.

Lemma weak_eta (s : weak) : s = mk_weak (shared s) (heads s) (tails s) (accesses s) (views s).
Proof. by destruct s. Qed.

(** The access to a slot, and what [act] makes of it. *)
Lemma touch_alone t i p p1 v (s : weak) :
  producer_alone s → (t = 0 → own (accesses s) v) →
  (∀ sh p' sh', act capacity moved (Go false) p sh = Ret (p', sh') →
     t ≠ 0 → pushing p' = None) → p1 = p →
  acts_alone t s
    ('(v, s) ← touch t i v s;
     '(p', sh) ← act capacity moved (Go false) p1 (shared s); Ret (p', v, with_shared sh s)).
Proof.
  intros P Hv Hp ->. unfold touch. case_decide; [done|]. cbn [mbind outcome_bind shared].
  destruct (act capacity moved (Go false) p (shared s)) as [[p' sh]| | | |] eqn:Ha; try done.
  cbn [mbind outcome_bind]. unfold with_shared. cbn [heads tails accesses views].
  apply acts_alone_intro; try done; [by eapply act_threads| |by left|by eapply Hp].
  intros ->. intros id [->%elem_of_singleton|Hi]%elem_of_union.
  - exists i. by rewrite list_lookup_middle.
  - by apply (own_app _ _ v (Hv eq_refl) id).
Qed.

Lemma act_idle_push p p' sh sh' b :
  act capacity moved (Go b) p sh = Ret (p', sh') → pushing p = None → pushing p' = None.
Proof.
  destruct p; cbn [act]; try done.
  all: try (by intros [= <- _]).
  all: try (by intros ([? ?] & _ & [= <- _])%outcome_bind_Ret_inv).
  - case_decide; by intros [= <- _].
  - by intros (d & _ & ([[] ?] & _ & [= <- _])%outcome_bind_Ret_inv)%outcome_bind_Ret_inv.
Qed.

Lemma wact_alone t a p v (s : weak) :
  producer_alone s → role (t, a) → threads (shared s) !! t = Some p → views s !! t = Some v →
  acts_alone t s (wact capacity moved head_load t a p v s).
Proof.
  intros P Hr Ht Hv. unfold role in Hr. cbn in Hr.
  assert (Hown : t = 0 → own (accesses s) v) by (intros ->; by apply P).
  assert (Hpush : t ≠ 0 → pushing p = None) by by apply (pa_push _ P t p).
  assert (Hnext : ∀ b sh p' sh', act capacity moved (Go b) p sh = Ret (p', sh') → t ≠ 0 → pushing p' = None).
  { intros b sh p' sh' Ha Hne. eapply act_idle_push; [exact Ha|auto]. }
  assert (Hst : acts_alone t s (Ret (p, v, s))).
  { rewrite (weak_eta s) at 2. by apply acts_alone_local. }
  assert (Hload : ∀ o x ts z v', load o x ts v s = Some (z, v') → (x = Head → o = Acquire → t ≠ 0) →
    t = 0 → own (accesses s) v').
  { intros o x ts z v' El Hx Ht0. eapply load_own; [exact El|auto|]. intros Ho.
    destruct x; [by destruct (Hx eq_refl Ho)|apply P]. }
  destruct a as [x ts|ts|ts spurious].
  - destruct p; try done. cbn [wact]. destruct (load Acquire Tail ts v s) as [[z v']|] eqn:El; [|done].
    destruct (next capacity (sq (shared s)) z); try done. cbn [mbind outcome_bind].
    rewrite (weak_eta s) at 2. apply acts_alone_local; try done. by eapply Hload.
  - destruct p; try done. cbn [wact]. destruct (load head_load Head ts v s) as [[z v']|] eqn:El; [|done].
    rewrite (weak_eta s) at 2. by apply acts_alone_local.
  - destruct p; try done; cbn [wact].
    + eapply touch_alone; [done..|apply Hnext|done].
    + destruct (act _ _ _ _ _) as [[p' sh]| | | |] eqn:Ha; try done. cbn [mbind outcome_bind].
      unfold store_release. cbv beta iota zeta. unfold with_shared. cbn [heads tails accesses views].
      rewrite <- (app_nil_r (accesses s)) at 1.
      apply acts_alone_intro; [done|by eapply act_threads|..]; rewrite ?app_nil_r; [done| |by eapply Hnext].
      right. eexists. split; [done|]. cbn. apply Hown.
      destruct (decide (t = 0)); [done|]. by specialize (Hpush ltac:(done)).
    + destruct (load Acquire Tail ts v s) as [[z v']|] eqn:El; [|done].
      rewrite (weak_eta s) at 2. apply acts_alone_local; [done..| |by case_decide]. by eapply Hload.
    + destruct (next capacity (sq (shared s)) head); try done. cbn [mbind outcome_bind].
      destruct (act _ _ _ _ _) as [[p' sh]| | | |] eqn:Ha; try done. cbn [mbind outcome_bind].
      pose proof (act_threads capacity moved _ _ _ _ _ Ha) as Hth.
      assert (Hf : acts_alone t s (match load Relaxed Head ts v s with
        | Some (_, v) => Ret (p', v, with_shared sh s) | None => Ret (PopChecked head c, v, s) end)).
      { destruct (load Relaxed Head ts v s) as [[z v']|] eqn:El; [|done].
        unfold with_shared. apply acts_alone_local; [done|done| |by eapply Hnext]. by eapply Hload. }
      destruct p'; try exact Hf. unfold exchange_release, with_shared. cbv beta iota zeta. cbn [heads tails accesses views].
      apply acts_alone_local; [done|done|exact Hown|done].
    + eapply touch_alone; [done..|apply Hnext|done].
Qed.

Lemma wstep_alone t a (s s' : weak) :
  producer_alone s → role (t, a) → wstep capacity moved head_load t a s = Ret s' → producer_alone s'.
Proof.
  intros P Hr H. unfold wstep in H.
  destruct (threads (shared s) !! t) as [p|] eqn:Ht; [|by injection H as <-].
  destruct (views s !! t) as [v|] eqn:Hv; [|by injection H as <-].
  pose proof (wact_alone t a p v s P Hr Ht Hv) as Ha.
  destruct (wact _ _ _ _ _ _ _ _) as [[[p' v'] s1]| | | |]; try done. injection H as <-.
  destruct Ha as (Hth & Hvs & [l Hl] & Hown & Htl & Hp). split; cbn; [|done| |].
  - intros w. rewrite Hvs. intros [(-> & <- & _)|[Hne Hw]]%list_lookup_insert_Some; [by apply Hown|].
    rewrite Hl. by apply own_app, P.
  - rewrite Hth. apply (insert_threads (threads (shared s)) t p' (λ t p, t ≠ 0 → pushing p = None)); [done|].
    intros t' q _ Hq Hne. by apply (pa_push _ P t' q).
  - rewrite Hth, Hvs, !length_insert. apply P.
Qed.

Lemma wrun_alone sched (s s' : weak) :
  producer_alone s → Forall role sched → wrun capacity moved head_load sched s = Ret s' → producer_alone s'.
Proof.
  intros P Hr. revert s P. induction Hr as [|[t a] sched Hr _ IH]; intros s P; cbn [wrun].
  { by intros [= <-]. }
  intros (s1 & H1 & H)%outcome_bind_Ret_inv. apply (IH s1); [|done]. by eapply wstep_alone.
Qed.

Lemma wstart_alone n (s : weak) : wstart capacity dflt n = Ret s → producer_alone s.
Proof.
  unfold wstart, start. intros (s0 & (q & _ & [= <-])%outcome_bind_Ret_inv & [= <-])%outcome_bind_Ret_inv.
  split; cbn.
  - by intros v [-> _]%lookup_replicate_1 id Hi%elem_of_empty.
  - constructor; [|constructor]. by intros id Hi%elem_of_empty.
  - by intros t p [-> _]%lookup_replicate_1.
  - by rewrite !length_replicate.
Qed.

(** The whole of a push, and of a pop by thread [t], with the loads up to date. *)
Definition wpush_all (x : T) (ts : nat) : list (nat * waction T) :=
  [(0, WPush x ts); (0, WGo 0 false); (0, WGo 0 false); (0, WGo 0 false)].
Definition wpop_all (t hts tts : nat) : list (nat * waction T) :=
  [(t, WPop hts); (t, WGo tts false); (t, WGo 0 false); (t, WGo 0 false); (t, WGo 0 false)].

(** [n] elements, each popped before the next is pushed. *)
Definition rounds (n : nat) (x : T) : list (nat * waction T) :=
  mjoin ((λ k, wpush_all x k ++ wpop_all 1 k (S k)) <$> seq 0 n).

(** The pool's queue under [n] such rounds. *)
Definition pool_rounds (n : nat) (x : T) : outcome weak :=
  s ← wstart 100 dflt 2; wrun 100 moved head_load (rounds n x) s.

End reuse.

Lemma pool_100_rounds {T} (dflt : T) moved head_load x :
  ∃ s, pool_rounds dflt moved head_load 100 x = Ret s.
Proof.
  assert (H : match pool_rounds dflt moved head_load 100 x with Ret _ => true | _ => false end = true).
  { destruct head_load; vm_compute; reflexivity. }
  destruct (pool_rounds dflt moved head_load 100 x) as [s| | | |]; try done. by exists s.
Qed.

Lemma pool_101_rounds {T} (dflt : T) moved head_load x :
  pool_rounds dflt moved head_load 101 x = Undef.
Proof. destruct head_load; vm_compute; reflexivity. Qed.

(** ** Theorems *)

(** C7: what the memory orders do guarantee.  In its first lap, with one producer
    and one consumer, or with any number of consumers if [pop] acquired the head,
    the queue is correct under the memory orders of the code: whatever stores the
    loads return and however the threads interleave, there is no data race, each
    element taken is the one pushed in its turn, none is taken twice, and once all
    threads are idle none is missing. *)
Theorem weak_first_lap {T} (capacity : nat) (dflt : T) (moved : T → T) (head_load : memory_order)
    (n : nat) (s0 : weak T) (sched : list (nat * waction T)) :
  0 < capacity ≤ SMALL_INTEGER_OPTIMISATION_LIMIT →
  wstart capacity dflt n = Ret s0 → Forall role sched → Forall (may_pop head_load) sched →
  pushes sched < capacity →
  ∃ s, wrun capacity moved head_load sched s0 = Ret s ∧
    (∀ i x, (i, x) ∈ returned (shared s) → pushed (shared s) !! i = Some x) ∧
    NoDup (returned (shared s)).*1 ∧
    (Forall (.= Idle) (threads (shared s)) →
     (returned (shared s)).*1 ≡ₚ seq 0 (taken (shared s))).
Proof.
  intros Hcap H0 Hr Hm Hp.
  destruct (winv_start capacity dflt head_load Hcap (pushes sched) n Hp) as (s0' & H0' & W0).
  rewrite H0 in H0'. injection H0' as <-.
  destruct (winv_run capacity moved head_load Hcap sched s0 W0 Hr Hm) as (s & Hs & W).
  exists s. split; [done|]. eapply inv_delivers, W.
Qed.

(** A consumer that reads an old tail finds the queue empty, and a later one. *)
Definition example_weak_start : weak nat :=
  result (wstart 4 0 2) (mk_weak (mk_sys (mk_Queue [] 0 0 0 []) [] [] 0 []) [] [] [] []).

Lemma weak_first_lap_witness :
  ∃ s, wrun 4 id Relaxed
      (wpush_all 7 0 ++ [(1, WPop 0); (1, WGo 0 false)] ++ wpush_all 8 1 ++ wpop_all 1 0 2 ++ wpop_all 1 1 2)
      example_weak_start = Ret s ∧ NoDup (returned (shared s)).*1.
Proof.
  destruct (weak_first_lap 4 0 id Relaxed 2 example_weak_start
    (wpush_all 7 0 ++ [(1, WPop 0); (1, WGo 0 false)] ++ wpush_all 8 1 ++ wpop_all 1 0 2 ++ wpop_all 1 1 2))
    as (s & Hs & _ & Hn & _).
  - unfold SMALL_INTEGER_OPTIMISATION_LIMIT. lia.
  - reflexivity.
  - by apply (bool_decide_unpack _); vm_compute.
  - by apply (bool_decide_unpack _); vm_compute.
  - cbn. lia.
  - exists s. split; [exact Hs|exact Hn].
Defined.

(** C6: two consumers are too many.  [pop] loads the head without acquiring it, and
    its exchange does not acquire either; so a worker can read the head that
    another has moved, and a tail older than it, and take a slot that nothing was
    pushed to.  In the pool of a server, after one connection: the second worker
    gets a default connection, whose empty request the handler throws on, which
    ends the process; the head has passed the tail; and the next push writes the
    slot that worker has read, a data race. *)
Theorem weak_pop_unpublished (c c' : HTTPConnectionObject)
    (moved : HTTPConnectionObject → HTTPConnectionObject) :
  ∃ s0 sched s, wstart 100 HTTPConnectionObject_default 3 = Ret s0 ∧ Forall role sched ∧
    wrun 100 moved Relaxed sched s0 = Ret s ∧ Forall (.= Idle) (threads (shared s)) ∧
    pushed (shared s) = [c] ∧
    (returned (shared s)).*2 = [c; HTTPConnectionObject_default] ∧
    empty (sq (shared s)) = false ∧
    (∀ fs kernel w, handle_http fs kernel HTTPConnectionObject_default w = Throw out_of_range) ∧
    wrun 100 moved Relaxed (wpush_all c' 1) s = Undef.
Proof.
  eexists _, (wpush_all c 0 ++ wpop_all 1 0 1 ++ wpop_all 2 1 0), _.
  split; [vm_compute; reflexivity|]. split; [by apply (bool_decide_unpack _); vm_compute|].
  split; [vm_compute; reflexivity|]. split_and!.
  - repeat constructor.
  - reflexivity.
  - reflexivity.
  - reflexivity.
  - intros fs kernel w. apply handle_http_Throw, handle_empty.
  - vm_compute. reflexivity.
Qed.

(** C8: a slot can be used once.  The only stores the producer acquires are its own:
    nothing of what a consumer does happens before anything the producer does.
    So, whatever the threads have done, how many there are and how long ago it was,
    writing a slot that a consumer has moved an element out of is a data race; in
    the pool of a server the 101st connection is undefined behaviour even if each
    is taken out before the next is queued. *)
Theorem weak_reuse_races {T} (capacity : nat) (dflt : T) (moved : T → T) (head_load : memory_order)
    (n t : nat) (s0 s : weak T) (sched : list (nat * waction T)) (x : T) (i m : Z) :
  wstart capacity dflt n = Ret s0 → Forall role sched →
  wrun capacity moved head_load sched s0 = Ret s →
  threads (shared s) !! 0 = Some (PushLoaded x i m) → t ≠ 0 → (t, i) ∈ accesses s →
  (∀ ts spurious, wstep capacity moved head_load 0 (WGo ts spurious) s = Undef) ∧
  ∀ c : T, (∃ p, pool_rounds dflt moved head_load 100 c = Ret p) ∧
    pool_rounds dflt moved head_load 101 c = Undef.
Proof.
  intros H0 Hr Hs Ht Hne Hin. split.
  - intros ts spurious. pose proof (wstart_alone _ _ _ _ H0) as P.
    apply (wrun_alone capacity moved head_load sched s0 s) in P; [|done..].
    destruct (lookup_lt_is_Some_2 (views s) 0) as [v Hv].
    { rewrite (pa_length _ P). by eapply lookup_lt_Some. }
    unfold wstep. rewrite Ht, Hv. cbn [wact]. unfold touch. rewrite decide_True; [done|].
    apply list_elem_of_lookup in Hin as [id Hid]. apply races_spec. exists id, t. split; [done|].
    intros (i' & Hi')%(pa_view _ P v Hv). congruence.
  - intros c. split; [apply pool_100_rounds|apply pool_101_rounds].
Qed.

(** Three slots, each used once, and a fourth push. *)
Definition example_reuse : list (nat * waction nat) := rounds 3 7 ++ [(0, WPush 8 3)].

Definition example_reused : weak nat :=
  result (s ← wstart 3 0 2; wrun 3 id Relaxed example_reuse s)
    (mk_weak (mk_sys (mk_Queue [] 0 0 0 []) [] [] 0 []) [] [] [] []).

Definition example_fresh : weak nat :=
  result (wstart 3 0 2) (mk_weak (mk_sys (mk_Queue [] 0 0 0 []) [] [] 0 []) [] [] [] []).

Lemma weak_reuse_races_witness :
  wstep 3 id Relaxed 0 (WGo 0 false) example_reused = Undef.
Proof.
  refine (proj1 (weak_reuse_races 3 0 id Relaxed 2 1 example_fresh example_reused example_reuse 8 0 1
    _ _ _ _ _ _) 0 false).
  - vm_compute. reflexivity.
  - by apply (bool_decide_unpack _); vm_compute.
  - vm_compute. reflexivity.
  - vm_compute. reflexivity.
  - discriminate.
  - by apply (bool_decide_unpack _); vm_compute.
Defined.
