(* ===== verification/QueueAdequacy.v ===== *)
(** * The two models of the queue

    [WeakQueue] runs the actions of [LockFreeQueue] on a weaker memory.  Nothing is
    lost: if every load returns the latest store, the weak memory does what the
    sequentially consistent one does, up to data races. *)

From S2P Require Import Prelude Effects LockFreeQueue QueueProgress WeakQueue.

Section adequacy.
Context {T : Type} (capacity : nat) (dflt : T) (moved : T → T) (head_load : memory_order).

(** The latest store. *)
Definition latest (x : atomic) (s : weak T) : nat := pred (length (history x s)).

(** The action that loads it. *)
Definition up_to_date (a : @action T) (p : @pc T) (s : weak T) : waction T :=
  match a, p with
  | StartPush elem, _ => WPush elem (latest Tail s)
  | StartPop, _ => WPop (latest Head s)
  | Go spurious, PopLoaded _ _ => WGo (latest Tail s) spurious
  | Go spurious, _ => WGo (latest Head s) spurious
  end.

(** What a view knows has been stored. *)
Definition bounded (s : weak T) (v : view) : Prop :=
  v_head v < length (heads s) ∧ v_tail v < length (tails s).

(** The latest stores are the values of the atomics. *)
Record synced (s : weak T) : Prop := {
  y_head : m_value <$> last (heads s) = Some (head_ (sq (shared s)));
  y_tail : m_value <$> last (tails s) = Some (tail_ (sq (shared s)));
  y_taken : length (heads s) = S (taken (shared s));
  y_messages : Forall (bounded s ∘ m_view) (heads s ++ tails s);
  y_views : Forall (bounded s) (views s);
  y_threads : length (views s) = length (threads (shared s)) }.

Lemma last_message (ms : list message) (z : Z) (P : view → Prop) :
  m_value <$> last ms = Some z → Forall (P ∘ m_view) ms →
  ∃ m, last ms = Some m ∧ m_value m = z ∧ P (m_view m).
Proof.
  rewrite Forall_forall. intros H HP. destruct (last ms) as [m|] eqn:E; [|done]. injection H as <-.
  exists m. split_and!; [done..|]. apply HP. rewrite last_lookup in E. by eapply list_elem_of_lookup_2.
Qed.

(** A load of the latest store. *)
Lemma load_latest o x v (s : weak T) :
  synced s → bounded s v →
  ∃ v', load o x (latest x s) v s =
      Some (match x with Head => head_ | Tail => tail_ end (sq (shared s)), v') ∧ bounded s v'.
Proof.
  intros [Yh Yt _ [Yhm Ytm]%Forall_app _ _] [B1 B2].
  assert (Hl : ∃ m, history x s !! latest x s = Some m ∧
    m_value m = match x with Head => head_ | Tail => tail_ end (sq (shared s)) ∧ bounded s (m_view m)).
  { unfold latest. rewrite <- last_lookup.
    destruct x; [apply (last_message _ _ _ Yh Yhm)|apply (last_message _ _ _ Yt Ytm)]. }
  destruct Hl as (m & Hm & Hz & [M1 M2]). unfold load. rewrite Hm. cbn [mbind option_bind].
  rewrite decide_True by (unfold latest; destruct x; cbn; lia). rewrite Hz.
  eexists. split; [done|]. unfold latest, bounded in *. destruct o, x; cbn; lia.
Qed.

(** What an action of thread [t] leaves. *)
Definition acted (s : weak T) (p : @pc T) (sh : @sys T) (r : outcome (@pc T * view * weak T)) : Prop :=
  r = Undef ∨ ∃ v' s', r = Ret (p, v', s') ∧ shared s' = sh ∧ views s' = views s ∧
    synced s' ∧ bounded s' v' ∧ ∀ v, bounded s v → bounded s' v.

Lemma acted_local p v (s : weak T) :
  synced s → bounded s v → acted s p (shared s) (Ret (p, v, s)).
Proof. intros Y B. right. by exists v, s. Qed.

(** The actions that change neither atomic. *)
Lemma synced_shared sh (s : weak T) :
  synced s → head_ (sq sh) = head_ (sq (shared s)) → tail_ (sq sh) = tail_ (sq (shared s)) →
  taken sh = taken (shared s) → threads sh = threads (shared s) → synced (with_shared sh s).
Proof. intros [Yh Yt Yk Ym Yv Yl] Eh Et Ek El. by split; cbn; rewrite ?Eh, ?Et, ?Ek, ?El. Qed.

Lemma acted_shared p v sh (s s1 : weak T) :
  synced s → bounded s v → shared s1 = shared s → heads s1 = heads s → tails s1 = tails s →
  views s1 = views s → head_ (sq sh) = head_ (sq (shared s)) → tail_ (sq sh) = tail_ (sq (shared s)) →
  taken sh = taken (shared s) → threads sh = threads (shared s) →
  acted s p sh (Ret (p, v, with_shared sh s1)).
Proof.
  intros Y B Es Eh Et Ev H1 H2 H3 H4. right. exists v, (with_shared sh s1).
  pose proof (synced_shared sh s Y H1 H2 H3 H4) as [Yh Yt Yk Ym Yv Yl].
  destruct s, s1. cbn in *. subst. by split_and!.
Qed.

(** A slot access races, or leaves the atomics alone. *)
Lemma acted_touch t i v (s : weak T) p sh :
  synced s → bounded s v → head_ (sq sh) = head_ (sq (shared s)) → tail_ (sq sh) = tail_ (sq (shared s)) →
  taken sh = taken (shared s) → threads sh = threads (shared s) →
  acted s p sh ('(v, s) ← touch t i v s; Ret (p, v, with_shared sh s)).
Proof.
  intros Y B H1 H2 H3 H4. unfold touch. case_decide; [by left|]. by apply (acted_shared p _ sh s).
Qed.

(** A new store to the tail, and to the head. *)
Lemma acted_store p v sh z (s : weak T) :
  synced s → bounded s v → head_ (sq sh) = head_ (sq (shared s)) → tail_ (sq sh) = z →
  taken sh = taken (shared s) → threads sh = threads (shared s) →
  acted s p sh (let '(v, s) := store_release z v s in Ret (p, v, with_shared sh s)).
Proof.
  intros [Yh Yt Yk Ym Yv Yl] [B1 B2] H1 H2 H3 H4. right. eexists _, _. split; [done|].
  assert (Hm : ∀ w, bounded s w → bounded (with_shared sh (store_release z v s).2) w).
  { intros w [? ?]. split; cbn; rewrite ?length_app; cbn; lia. }
  assert (Hv : bounded (with_shared sh (store_release z v s).2) (store_release z v s).1).
  { split; cbn; rewrite ?length_app; cbn; lia. }
  split_and!; [done..| |exact Hv|exact Hm]. split; cbn; rewrite ?last_snoc, ?H1, ?H2, ?H3, ?H4; try done.
  - rewrite (assoc_L (++)), Forall_app, Forall_singleton. split; [|exact Hv].
    eapply Forall_impl; [exact Ym|intros ?; apply Hm].
  - eapply Forall_impl; [exact Yv|intros ?; apply Hm].
Qed.

Lemma acted_exchange p v sh z (s : weak T) :
  synced s → bounded s v → head_ (sq sh) = z → tail_ (sq sh) = tail_ (sq (shared s)) →
  taken sh = S (taken (shared s)) → threads sh = threads (shared s) →
  acted s p sh (let '(v, s) := exchange_release z v s in Ret (p, v, with_shared sh s)).
Proof.
  intros [Yh Yt Yk Ym Yv Yl] [B1 B2] H1 H2 H3 H4. right. eexists _, _. split; [done|].
  assert (Hm : ∀ w, bounded s w → bounded (with_shared sh (exchange_release z v s).2) w).
  { intros w [? ?]. split; cbn; rewrite ?length_app; cbn; lia. }
  assert (Hv : bounded (with_shared sh (exchange_release z v s).2) (exchange_release z v s).1).
  { split; cbn; rewrite ?length_app; cbn; lia. }
  split_and!; [done..| |exact Hv|exact Hm].
  apply Forall_app in Ym as [Ymh Ymt].
  destruct (last_message _ _ _ Yh Ymh) as (m & Hlast & _ & M1 & M2).
  split; cbn; rewrite ?last_snoc, ?H1, ?H2, ?H3, ?H4, ?length_app; cbn; try done; [lia|..].
  - rewrite !Forall_app, Forall_singleton. split_and!.
    + eapply Forall_impl; [exact Ymh|intros ?; apply Hm].
    + split; cbn; rewrite ?length_app, ?Hlast; cbn; lia.
    + eapply Forall_impl; [exact Ymt|intros ?; apply Hm].
  - eapply Forall_impl; [exact Yv|intros ?; apply Hm].
Qed.

(** The queue's own actions on the atomics. *)
Lemma write_slot_atomics i x (q q' : LockFreeQueue T) :
  write_slot i x q = Ret ((), q') → head_ q' = head_ q ∧ tail_ q' = tail_ q.
Proof. unfold write_slot. by intros (arr & _ & [= <-])%outcome_bind_Ret_inv. Qed.

Lemma take_slot_atomics i x (q q' : LockFreeQueue T) :
  take_slot moved i q = Ret (x, q') → head_ q' = head_ q ∧ tail_ q' = tail_ q.
Proof.
  unfold take_slot. by intros (y & _ & (arr & _ & [= _ <-])%outcome_bind_Ret_inv)%outcome_bind_Ret_inv.
Qed.

(** An action and the same one with up-to-date loads. *)
Lemma wact_up_to_date t a p v (s : weak T) p' sh :
  synced s → bounded s v → act capacity moved a p (shared s) = Ret (p', sh) →
  acted s p' sh (wact capacity moved head_load t (up_to_date a p s) p v s).
Proof.
  intros Y B Ha. destruct a as [x| |b], p; cbn [up_to_date wact].
  all: try (injection Ha as <- <-; by apply acted_local).
  - destruct (load_latest Acquire Tail v s Y B) as (v' & -> & B').
    cbn [act] in Ha. apply outcome_bind_Ret_inv in Ha as (n & Hn & [= <- <-]). rewrite Hn.
    by apply acted_local.
  - destruct (load_latest head_load Head v s Y B) as (v' & -> & B'). injection Ha as <- <-.
    unfold latest. cbn [history]. rewrite (y_taken _ Y). by apply acted_local.
  - (* the slot is written *)
    cbn [act] in Ha. pose proof Ha as Ha'.
    apply outcome_bind_Ret_inv in Ha' as ([[] q] & Hq%write_slot_atomics & [= <- <-]). destruct Hq as [Hh Ht].
    unfold touch. case_decide; [by left|]. cbn [mbind outcome_bind shared act]. rewrite Ha.
    by apply (acted_shared _ _ _ s).
  - (* the tail is stored *)
    cbn [act] in Ha |- *. injection Ha as <- <-. by apply acted_store.
  - injection Ha as <- <-. by apply (acted_shared _ _ _ s).
  - destruct (load_latest Acquire Tail v s Y B) as (v' & -> & B'). cbn [act] in Ha.
    case_decide; injection Ha as <- <-; by apply acted_local.
  - (* the exchange *)
    pose proof Ha as Ha'. cbn [act] in Ha'. apply outcome_bind_Ret_inv in Ha' as (d & Hd & Ha').
    rewrite Hd. cbn [mbind outcome_bind]. rewrite Ha. unfold cas_head in Ha'. cbn [mbind outcome_bind].
    case_decide; cbn in Ha'; injection Ha' as <- <-.
    + by apply acted_exchange.
    + destruct (load_latest Relaxed Head v s Y B) as (v' & -> & B'). by apply (acted_shared _ _ _ s).
  - (* the slot is read *)
    cbn [act] in Ha. pose proof Ha as Ha'.
    apply outcome_bind_Ret_inv in Ha' as ([x q] & Hq%take_slot_atomics & [= <- <-]). destruct Hq as [Hh Ht].
    unfold touch. case_decide; [by left|]. cbn [mbind outcome_bind shared act]. rewrite Ha.
    by apply (acted_shared _ _ _ s).
  - injection Ha as <- <-. by apply (acted_shared _ _ _ s).
Qed.

Lemma wstep_up_to_date t a (s : weak T) sh :
  synced s → step capacity moved t a (shared s) = Ret sh →
  ∃ wa, wstep capacity moved head_load t wa s = Undef ∨
    ∃ s', wstep capacity moved head_load t wa s = Ret s' ∧ shared s' = sh ∧ synced s'.
Proof.
  intros Y H. unfold step in H. destruct (threads (shared s) !! t) as [p|] eqn:Ht.
  2: { injection H as <-. exists (WPop 0). right. exists s. unfold wstep. by rewrite Ht. }
  apply outcome_bind_Ret_inv in H as ([p' sh1] & Ha & [= <-]).
  destruct (lookup_lt_is_Some_2 (views s) t) as [v Hv].
  { rewrite (y_threads _ Y). by eapply lookup_lt_Some. }
  exists (up_to_date a p s). unfold wstep. rewrite Ht, Hv.
  destruct (wact_up_to_date t a p v s p' sh1 Y) as [->|(v' & s' & -> & <- & Evs & Y' & B' & _)]; [|done|by left|].
  { by apply (Forall_lookup_1 _ _ _ _ (y_views _ Y) Hv). }
  right. eexists. split; [done|]. split; [done|]. destruct Y' as [Yh Yt Yk Ym Yv Yl].
  split; cbn; try done.
  - by apply Forall_insert.
  - by rewrite !length_insert.
Qed.

Lemma wstart_synced n (s : weak T) : wstart capacity dflt n = Ret s → synced s.
Proof.
  unfold wstart, start, LockFreeQueue_new.
  intros (s0 & (q & Hq & [= <-])%outcome_bind_Ret_inv & [= <-])%outcome_bind_Ret_inv.
  apply outcome_bind_Ret_inv in Hq as (arr & _ & Hq).
  apply outcome_bind_Ret_inv in Hq as (arr' & _ & [= <-]).
  split; cbn; try done.
  - repeat constructor; cbn; lia.
  - apply Forall_replicate. split; cbn; lia.
  - by rewrite !length_replicate.
Qed.

(** Every run under sequential consistency is one under the memory orders of the
    code, with the same threads in the same order, unless that is a data race. *)
Lemma run_is_weak n sched sh (s0 : weak T) :
  wstart capacity dflt n = Ret s0 → run capacity moved sched (shared s0) = Ret sh →
  ∃ wsched, (wrun capacity moved head_load wsched s0 = Undef ∨
      wsched.*1 = sched.*1 ∧
      ∃ s, wrun capacity moved head_load wsched s0 = Ret s ∧ shared s = sh).
Proof.
  intros Y%wstart_synced. revert s0 Y. induction sched as [|[t a] sched IH]; intros s0 Y H; cbn [run] in H.
  { injection H as <-. exists []. right. split; [done|]. by exists s0. }
  apply outcome_bind_Ret_inv in H as (sh1 & H1 & H).
  destruct (wstep_up_to_date t a s0 sh1 Y H1) as [wa [Hu|(s1 & Hs & <- & Y1)]].
  { exists [(t, wa)]. left. cbn [wrun]. by rewrite Hu. }
  destruct (IH s1 Y1 H) as [wsched Hw]. exists ((t, wa) :: wsched). cbn [wrun fmap list_fmap]. rewrite Hs.
  destruct Hw as [Hu|(E & s & Hr & <-)]; [by left|]. right. rewrite E. split; [done|]. by exists s.
Qed.
End adequacy.
