(* ===== verification/Servers.v ===== *)
(** * The TCP and TLS servers

    [include/simpleserv/server/]: starting a server, the loop that accepts a
    connection, reads one request and queues it for the workers, and stopping.
    What the system calls answer is given by the environment, one record for a
    round of the loop. *)

From S2P Require Import Prelude Effects FileSystem FileManager HttpHandler LockFreeQueue Connections.

Definition MAXBUFLEN : nat := Z.to_nat 4096.
Definition HTTP_PORT : Z := 80.
Definition HTTPS_PORT : Z := 443.

Definition EAGAIN : Z := 11.
Definition EXIT_FAILURE : Z := 1.

(** ** Starting and stopping *)

Inductive server_call : Type :=
  | Call_getaddrinfo (port : str) | Call_socket | Call_fcntl (fd : Z) | Call_bind (fd : Z)
  | Call_listen (fd : Z) (backlog : nat) | Call_wolfSSL_Init | Call_CTX_new
  | Call_use_certificate | Call_use_key | Call_pool_start
  | Call_close (fd : Z) | Call_CTX_free | Call_Cleanup.

(** The results of the calls of [Start]. *)
Record start_env : Type := mk_start_env {
  env_gai : Z; env_socket : Z; env_bind : Z; env_listen : Z;
  env_ctx : bool; env_certificate : bool; env_key : bool }.

(** The calls made, and the code of [quick_exit] if it was reached. *)
Definition start_result : Type := list server_call * option Z.

Definition after (calls : list server_call) (r : start_result) : start_result :=
  (calls ++ r.1, r.2).

(** Up to [listen], the same for both servers; [k] is what follows. *)
Definition listen_on (port : Z) (env : start_env) (k : start_result) : start_result :=
  after [Call_getaddrinfo (to_string port)]
    (if decide (env_gai env ≠ 0%Z) then ([], Some EXIT_FAILURE)
     else
       let sockfd := env_socket env in
       after [Call_socket; Call_fcntl sockfd]
         (if decide (sockfd = (-1)%Z) then ([], Some 1%Z)
          else after [Call_bind sockfd]
            (if decide (env_bind env = (-1)%Z) then ([], Some 1%Z)
             else after [Call_listen sockfd MAXBUFLEN]
               (if decide (env_listen env = (-1)%Z) then ([], Some 1%Z) else k)))).

Definition TCPServer_Start (port : Z) (env : start_env) : start_result :=
  listen_on port env ([Call_pool_start], None).

Definition TLSServer_Start (port : Z) (env : start_env) : start_result :=
  listen_on port env
    (after [Call_wolfSSL_Init; Call_CTX_new]
      (if env_ctx env then
         after [Call_use_certificate]
           (if env_certificate env then
              after [Call_use_key]
                (if env_key env then ([Call_pool_start], None) else ([], Some EXIT_FAILURE))
            else ([], Some EXIT_FAILURE))
       else ([], Some EXIT_FAILURE))).

Definition TCPServer_Stop (client_fd sockfd : Z) : list server_call :=
  [Call_close client_fd; Call_close sockfd].

Definition TLSServer_Stop (client_fd sockfd : Z) : list server_call :=
  [Call_close client_fd; Call_close sockfd; Call_CTX_free; Call_Cleanup].

(** ** Reading a request *)

Definition NUL : ascii := "000"%char.

(** [std::string{buf.data()}]: up to the first zero byte. *)
Fixpoint c_string (buf : str) : str :=
  match buf with
  | [] => []
  | c :: buf => if decide (c = NUL) then [] else c :: c_string buf
  end.

(** [buf.at(numbytes) = 0] after reading [data]; the request text. *)
Definition terminate_buffer (data : str) : outcome str :=
  if decide (length data < MAXBUFLEN) then Ret (c_string data) else Throw out_of_range.

(** ** The TCP accept loop *)

Inductive recv_result : Type :=
  | Received (data : str)      (** what the peer sent; empty if it has closed *)
  | RecvFailed (errno : Z).

Record tcp_env : Type := mk_tcp_env {
  stop_requested : bool;
  accept4 : Z;
  accept_errno : Z → Z;        (** [errno] after the call, from that before *)
  recvs : list recv_result }.

Record tcp_state : Type := mk_tcp {
  errno_ : Z; client_fd : Z; jobs : LockFreeQueue HTTPConnectionObject }.

(** [recv], again as long as it fails with [EAGAIN]; [None] for another error.
    The kernel hands over [MAXBUFLEN - 1] bytes at most. *)
Fixpoint recv_loop (rs : list recv_result) : M Z (option str) :=
  match rs with
  | [] => λ _, NoFuel
  | Received data :: _ => mret (Some (take (MAXBUFLEN - 1) data))
  | RecvFailed e :: rs =>
    _ ← put e; if decide (e = EAGAIN) then recv_loop rs else mret None
  end.

(** One round up to the task it queues, on [errno] and [client_fd]: whether the
    function goes on, and the task. *)
Definition tcp_incoming (env : tcp_env) : M (Z * Z) (bool * option HTTPConnectionObject) :=
  λ '(errno, fd),
  if stop_requested env then Ret ((false, None), (errno, fd))
  else
    let fd := accept4 env in
    let errno := accept_errno env errno in
    if decide (fd ≠ (-1)%Z ∧ errno ≠ EAGAIN) then
      '(numbytes, errno) ← recv_loop (recvs env) errno;
      match numbytes with
      | None => Ret ((false, None), (errno, fd))
      | Some data =>
        request_str ← terminate_buffer data;
        Ret ((true, Some (mk_HTTPConnection fd request_str)), (errno, fd))
      end
    else Ret ((true, None), (errno, fd)).

(** One round; [false] when the function returns. *)
Definition tcp_round (env : tcp_env) : M tcp_state bool := λ s,
  '((go, task), (errno, fd)) ← tcp_incoming env (errno_ s, client_fd s);
  match task with
  | Some task => '(_, q) ← add_task task (jobs s); Ret (go, mk_tcp errno fd q)
  | None => Ret (go, mk_tcp errno fd (jobs s))
  end.

(** The rounds for a list of environments; [false] if the loop was left. *)
Fixpoint tcp_AcceptIncoming (envs : list tcp_env) : M tcp_state bool :=
  match envs with
  | [] => mret true
  | env :: envs =>
    go ← tcp_round env; if go : bool then tcp_AcceptIncoming envs else mret false
  end.

(** ** The TLS accept loop *)

(** A call of [wolfSSL_read]: its result, the bytes, the error it leaves. *)
Record read_result : Type := mk_read { read_ret : Z; read_data : str; read_error : Z }.

Record tls_env : Type := mk_tls_env {
  tls_stop_requested : bool;
  tls_accept4 : Z;
  tls_accept_errno : Z → Z;
  tls_ssl : option nat;        (** [wolfSSL_new] *)
  tls_accept_ret : Z;          (** [wolfSSL_accept] *)
  tls_reads : list read_result }.

Record tls_state : Type := mk_tls {
  tls_errno : Z; tls_client_fd : Z; tls_jobs : LockFreeQueue HTTPSConnectionObject }.

Section tls.
(** [wolfSSL_get_error] for a return value and the error of the last call. *)
Context (wolfSSL_get_error : Z → Z → Z).

(** The loop that reads; the error is asked for the result [ret] of
    [wolfSSL_accept], not for that of the read. *)
Fixpoint tls_read_loop (ret : Z) (rs : list read_result) : outcome read_result :=
  match rs with
  | [] => NoFuel
  | r :: rs =>
    if decide (wolfSSL_get_error ret (read_error r) = WOLFSSL_ERROR_WANT_READ)
    then tls_read_loop ret rs else Ret r
  end.

Definition tls_incoming (env : tls_env) : M (Z * Z) (bool * option HTTPSConnectionObject) :=
  λ '(errno, fd),
  if tls_stop_requested env then Ret ((false, None), (errno, fd))
  else
    let fd := tls_accept4 env in
    let errno := tls_accept_errno env errno in
    if decide (fd ≠ (-1)%Z ∧ errno ≠ EAGAIN) then
      r ← tls_read_loop (tls_accept_ret env) (tls_reads env);
      if decide (read_ret r < 0)%Z then Ret ((false, None), (errno, fd))
      else
        request_str ← terminate_buffer (take (Z.to_nat (read_ret r)) (read_data r));
        Ret ((true, Some (mk_HTTPSConnection fd (tls_ssl env) request_str)), (errno, fd))
    else Ret ((true, None), (errno, fd)).

Definition tls_round (env : tls_env) : M tls_state bool := λ s,
  '((go, task), (errno, fd)) ← tls_incoming env (tls_errno s, tls_client_fd s);
  match task with
  | Some task => '(_, q) ← add_task task (tls_jobs s); Ret (go, mk_tls errno fd q)
  | None => Ret (go, mk_tls errno fd (tls_jobs s))
  end.

Fixpoint tls_AcceptIncoming (envs : list tls_env) : M tls_state bool :=
  match envs with
  | [] => mret true
  | env :: envs =>
    go ← tls_round env; if go : bool then tls_AcceptIncoming envs else mret false
  end.
End tls.

(** What the documentation of wolfSSL says of [wolfSSL_get_error]: no error for a
    positive return value, the error of the last call otherwise. *)
Class WolfSSLSpec (get_error : Z → Z → Z) : Prop := {
  get_error_ok ret e : (0 < ret)%Z → get_error ret e = 0%Z;
  get_error_last ret e : (ret ≤ 0)%Z → get_error ret e = e }.

(** ** Lemmas *)

Lemma capacity_100 : 0 < 100 ≤ SMALL_INTEGER_OPTIMISATION_LIMIT.
Proof. unfold SMALL_INTEGER_OPTIMISATION_LIMIT. lia. Qed.

Lemma MAXBUFLEN_4096 : Z.of_nat MAXBUFLEN = 4096%Z.
Proof. unfold MAXBUFLEN. lia. Qed.

Lemma terminate_buffer_run data :
  terminate_buffer (take (MAXBUFLEN - 1) data) = Ret (c_string (take (MAXBUFLEN - 1) data)).
Proof.
  unfold terminate_buffer. rewrite decide_True; [done|]. rewrite length_take.
  unfold MAXBUFLEN. lia.
Qed.

#[global] Opaque MAXBUFLEN.

Lemma recv_loop_run n data rs errno :
  ∃ errno', recv_loop (replicate n (RecvFailed EAGAIN) ++ Received data :: rs) errno =
    Ret (Some (take (MAXBUFLEN - 1) data), errno').
Proof.
  revert errno. induction n as [|n IH]; intros errno; [by eexists|].
  destruct (IH EAGAIN) as [e He]. exists e. cbn [replicate app recv_loop].
  rewrite (M_bind_run _ _ errno () EAGAIN) by done. by rewrite decide_True.
Qed.

Lemma recv_loop_error n e rs errno :
  e ≠ EAGAIN →
  recv_loop (replicate n (RecvFailed EAGAIN) ++ RecvFailed e :: rs) errno = Ret (None, e).
Proof.
  intros He. revert errno. induction n as [|n IH]; intros errno; cbn [replicate app recv_loop].
  - rewrite (M_bind_run _ _ errno () e) by done. by rewrite decide_False.
  - rewrite (M_bind_run _ _ errno () EAGAIN) by done. rewrite decide_True by done. apply IH.
Qed.

(** A queue with room takes a job at its end. *)
Lemma add_task_run {C} (obj : C) q l :
  holds 100 q l → S (length l) < 100 →
  ∃ q', add_task obj q = Ret ((), q') ∧ holds 100 q' (l ++ [obj]).
Proof.
  intros H Hl. destruct (holds_push 100 capacity_100 q l obj H Hl) as (q' & Hq & H').
  exists q'. split; [|done]. unfold add_task. by rewrite (M_bind_run _ _ _ _ _ Hq).
Qed.

(** The rounds, without the tuples. *)
Lemma tcp_round_unfold env s :
  tcp_round env s =
  if stop_requested env then Ret (false, s)
  else
    let fd := accept4 env in
    let errno := accept_errno env (errno_ s) in
    if decide (fd ≠ (-1)%Z ∧ errno ≠ EAGAIN) then
      '(numbytes, errno) ← recv_loop (recvs env) errno;
      match numbytes with
      | None => Ret (false, mk_tcp errno fd (jobs s))
      | Some data =>
        request_str ← terminate_buffer data;
        '(_, q) ← add_task (mk_HTTPConnection fd request_str) (jobs s);
        Ret (true, mk_tcp errno fd q)
      end
    else Ret (true, mk_tcp errno fd (jobs s)).
Proof.
  destruct s as [errno fd q]. unfold tcp_round, tcp_incoming. cbn [errno_ client_fd jobs].
  destruct (stop_requested env); [done|]. cbv zeta. case_decide; [|done].
  destruct (recv_loop _ _) as [[[data|] e]| | | |]; try done. cbn [mbind outcome_bind].
  by destruct (terminate_buffer data).
Qed.

Lemma tls_round_unfold get_error env s :
  tls_round get_error env s =
  if tls_stop_requested env then Ret (false, s)
  else
    let fd := tls_accept4 env in
    let errno := tls_accept_errno env (tls_errno s) in
    if decide (fd ≠ (-1)%Z ∧ errno ≠ EAGAIN) then
      r ← tls_read_loop get_error (tls_accept_ret env) (tls_reads env);
      if decide (read_ret r < 0)%Z then Ret (false, mk_tls errno fd (tls_jobs s))
      else
        request_str ← terminate_buffer (take (Z.to_nat (read_ret r)) (read_data r));
        '(_, q) ← add_task (mk_HTTPSConnection fd (tls_ssl env) request_str) (tls_jobs s);
        Ret (true, mk_tls errno fd q)
    else Ret (true, mk_tls errno fd (tls_jobs s)).
Proof.
  destruct s as [errno fd q]. unfold tls_round, tls_incoming. cbn [tls_errno tls_client_fd tls_jobs].
  destruct (tls_stop_requested env); [done|]. cbv zeta. case_decide; [|done].
  destruct (tls_read_loop _ _ _) as [r| | | |]; try done. cbn [mbind outcome_bind].
  case_decide; [done|]. by destruct (terminate_buffer _).
Qed.

(** An accepted connection whose request arrives. *)
Lemma tcp_round_queued env s l data text e :
  stop_requested env = false → accept4 env ≠ (-1)%Z →
  accept_errno env (errno_ s) ≠ EAGAIN →
  recv_loop (recvs env) (accept_errno env (errno_ s)) = Ret (Some data, e) →
  terminate_buffer data = Ret text →
  holds 100 (jobs s) l → S (length l) < 100 →
  ∃ q, tcp_round env s = Ret (true, mk_tcp e (accept4 env) q) ∧
    holds 100 q (l ++ [mk_HTTPConnection (accept4 env) text]).
Proof.
  intros Hs Ha He Hr Ht Hq Hl. rewrite tcp_round_unfold. rewrite Hs, decide_True, Hr by done.
  cbn [mbind outcome_bind]. rewrite Ht. cbn [mbind outcome_bind].
  destruct (add_task_run (mk_HTTPConnection (accept4 env) text) (jobs s) l Hq Hl) as (q' & Hq' & H').
  rewrite Hq'. cbn [outcome_bind]. by exists q'.
Qed.

Lemma tcp_round_received env s l n data rs :
  stop_requested env = false → accept4 env ≠ (-1)%Z →
  accept_errno env (errno_ s) ≠ EAGAIN →
  recvs env = replicate n (RecvFailed EAGAIN) ++ Received data :: rs →
  holds 100 (jobs s) l → S (length l) < 100 →
  ∃ s', tcp_round env s = Ret (true, s') ∧
    holds 100 (jobs s') (l ++ [mk_HTTPConnection (accept4 env)
      (c_string (take (MAXBUFLEN - 1) data))]).
Proof.
  intros Hs Ha He Hr Hq Hl. destruct (recv_loop_run n data rs (accept_errno env (errno_ s))) as [e H].
  rewrite <- Hr in H.
  destruct (tcp_round_queued env s l _ _ e Hs Ha He H (terminate_buffer_run data) Hq Hl) as (q & Hq1 & Hq2).
  eexists. split; [exact Hq1|exact Hq2].
Qed.

(** C21: reading a request.  A connection that is accepted with [errno] not [EAGAIN],
    however often [recv] has to be repeated, is queued, behind the jobs that wait if
    they are fewer than 99, with the first 4095 bytes received, cut at the first
    zero byte; [buf.at] is never out of range.  Any other
    error of [recv] ends the accept loop for good, whatever comes after. *)
Theorem tcp_accept_reads (env : tcp_env) (envs : list tcp_env) (s : tcp_state) l n data e rs :
  stop_requested env = false → accept4 env ≠ (-1)%Z → accept_errno env (errno_ s) ≠ EAGAIN →
  (recvs env = replicate n (RecvFailed EAGAIN) ++ Received data :: rs →
   holds 100 (jobs s) l → S (length l) < 100 →
   ∃ s', tcp_AcceptIncoming (env :: envs) s = tcp_AcceptIncoming envs s' ∧
     holds 100 (jobs s') (l ++ [mk_HTTPConnection (accept4 env)
       (c_string (take (MAXBUFLEN - 1) data))])) ∧
  (e ≠ EAGAIN → recvs env = replicate n (RecvFailed EAGAIN) ++ RecvFailed e :: rs →
   ∃ s', tcp_AcceptIncoming (env :: envs) s = Ret (false, s') ∧ jobs s' = jobs s).
Proof.
  intros Hs Ha He. split.
  - intros Hr Hq Hl. destruct (tcp_round_received env s l n data rs) as (s' & H & H'); [done..|].
    exists s'. split; [|done]. cbn [tcp_AcceptIncoming]. by rewrite (M_bind_run _ _ _ _ _ H).
  - intros Hne Hr. exists (mk_tcp e (accept4 env) (jobs s)). split; [|done].
    cbn [tcp_AcceptIncoming]. rewrite (M_bind_run _ _ s false (mk_tcp e (accept4 env) (jobs s))); [done|].
    rewrite tcp_round_unfold. rewrite Hs, decide_True, Hr by done. by rewrite recv_loop_error.
Qed.

(** A queue without jobs, and a connection whose request arrives at the second
    attempt. *)
Definition example_jobs : LockFreeQueue HTTPConnectionObject :=
  result (LockFreeQueue_new 100 HTTPConnectionObject_default) (mk_Queue [] 0 0 0 []).

Lemma example_jobs_holds : holds 100 example_jobs [].
Proof.
  destruct (holds_new 100 HTTPConnectionObject_default capacity_100) as (q & Hq & H).
  unfold example_jobs. by rewrite Hq.
Qed.

Definition example_env (rs : list recv_result) : tcp_env :=
  mk_tcp_env false 7 id (RecvFailed EAGAIN :: rs).

Lemma tcp_accept_reads_witness :
  ∃ s', tcp_AcceptIncoming [example_env [Received ($"GET")]] (mk_tcp 0 (-1) example_jobs) =
      tcp_AcceptIncoming [] s' ∧
    holds 100 (jobs s') [mk_HTTPConnection 7 (c_string (take (MAXBUFLEN - 1) ($"GET")))].
Proof.
  apply (tcp_accept_reads (example_env [Received ($"GET")]) [] (mk_tcp 0 (-1) example_jobs) []
    1 ($"GET") 104 []).
  - reflexivity.
  - discriminate.
  - discriminate.
  - reflexivity.
  - apply example_jobs_holds.
  - simpl. lia.
Defined.

(** What Linux does: a call of [accept4] that succeeds leaves [errno] alone; on the
    non-blocking socket a call that finds no connection sets [EAGAIN]. *)
Definition linux_accept (env : tcp_env) : Prop :=
  (accept4 env ≠ (-1)%Z → ∀ e, accept_errno env e = e) ∧
  (accept4 env = (-1)%Z → ∀ e, accept_errno env e = EAGAIN).

(** C20: the stale [errno].  [errno] is tested after successful calls too.  Once one
    call of [accept4] has found no connection, then, as long as the calls find a
    connection or none, every connection is accepted and dropped: nothing is ever
    queued, and the loop goes on until it is stopped. *)
Theorem tcp_accept_stale_errno (env : tcp_env) (envs : list tcp_env) (s : tcp_state) :
  accept4 env = (-1)%Z → stop_requested env = false → Forall linux_accept (env :: envs) →
  ∃ go s', tcp_AcceptIncoming (env :: envs) s = Ret (go, s') ∧ jobs s' = jobs s ∧
    (Forall (λ env, stop_requested env = false) envs → go = true).
Proof.
  intros Ha Hs [Hl Hls]%Forall_cons.
  assert (Hrest : ∀ s, errno_ s = EAGAIN → ∃ go s', tcp_AcceptIncoming envs s = Ret (go, s') ∧
    jobs s' = jobs s ∧ (Forall (λ env, stop_requested env = false) envs → go = true)).
  { clear env Ha Hs Hl. induction Hls as [|env envs Hl _ IH]; intros s0 H0; [by exists true, s0|].
    cbn [tcp_AcceptIncoming]. destruct (stop_requested env) eqn:Hs.
    { exists false, s0. split_and!; [|done|by intros [? _]%Forall_cons; congruence].
      rewrite (M_bind_run _ _ s0 false s0); [done|]. rewrite tcp_round_unfold. by rewrite Hs. }
    assert (He : accept_errno env (errno_ s0) = EAGAIN).
    { destruct (decide (accept4 env = (-1)%Z)) as [E|E]; [by apply Hl|].
      rewrite (proj1 Hl E). done. }
    destruct (IH (mk_tcp EAGAIN (accept4 env) (jobs s0)) eq_refl) as (go & s' & H & Hj & Hg).
    exists go, s'. split_and!; [|done|by intros [_ ?]%Forall_cons; auto].
    rewrite (M_bind_run _ _ s0 true (mk_tcp EAGAIN (accept4 env) (jobs s0))); [done|].
    rewrite tcp_round_unfold. rewrite Hs, He. by rewrite decide_False by (by intros [_ []]). }
  destruct (Hrest (mk_tcp EAGAIN (-1) (jobs s)) eq_refl) as (go & s' & H & Hj & Hg).
  exists go, s'. split_and!; [|done|done]. cbn [tcp_AcceptIncoming].
  rewrite (M_bind_run _ _ s true (mk_tcp EAGAIN (-1) (jobs s))); [done|].
  rewrite tcp_round_unfold. rewrite Hs, Ha, (proj2 Hl Ha). by rewrite decide_False by (by intros [? _]).
Qed.

(** Two calls of [accept4] on Linux: one finds no connection, the next finds one. *)
Definition example_none : tcp_env := mk_tcp_env false (-1) (λ _, EAGAIN) [].
Definition example_one : tcp_env := mk_tcp_env false 7 id [Received ($"GET")].

Lemma tcp_accept_stale_errno_witness :
  ∃ go s', tcp_AcceptIncoming [example_none; example_one] (mk_tcp 0 (-1) example_jobs) =
      Ret (go, s') ∧ jobs s' = example_jobs ∧
    (Forall (λ env, stop_requested env = false) [example_one] → go = true).
Proof.
  apply (tcp_accept_stale_errno example_none [example_one] (mk_tcp 0 (-1) example_jobs)).
  - reflexivity.
  - reflexivity.
  - by repeat constructor; intros.
Defined.

(** C19: a client that connects and closes without sending anything ends the server.
    Its connection is queued with the empty request; the worker that takes it calls
    a handler that throws [std::out_of_range], nothing catches it, and the process
    is terminated, in any state of the files and of the file manager. *)
Theorem silent_client_terminates (env : tcp_env) (s : tcp_state) n rs :
  stop_requested env = false → accept4 env ≠ (-1)%Z → accept_errno env (errno_ s) ≠ EAGAIN →
  recvs env = replicate n (RecvFailed EAGAIN) ++ Received [] :: rs →
  holds 100 (jobs s) [] →
  ∃ s', tcp_round env s = Ret (true, s') ∧
    ∀ fs kernel moved oracle w,
      http_worker fs kernel moved ready_handler (false :: oracle) (jobs s', w) = Terminate.
Proof.
  intros Hs Ha He Hr Hq.
  destruct (tcp_round_received env s [] n [] rs) as (s' & H & H'); [done..|simpl; lia|].
  exists s'. split; [done|]. intros fs kernel moved oracle w.
  destruct (worker_first_round fs kernel moved _ _ _ w H') as (q' & _ & ->).
  rewrite (handle_http_Throw _ _ _ _ out_of_range); [done|].
  cbn [http_request]. rewrite take_nil. cbn [c_string]. apply handle_empty.
Qed.

Lemma silent_client_terminates_witness :
  ∃ s', tcp_round (example_env [Received []]) (mk_tcp 0 (-1) example_jobs) = Ret (true, s') ∧
    http_worker example_fs (λ _, Send_failed) id ready_handler [false]
      (jobs s', mk_world FileManager_new []) = Terminate.
Proof.
  destruct (silent_client_terminates (example_env [Received []]) (mk_tcp 0 (-1) example_jobs) 1 [])
    as (s' & H & Ht).
  - reflexivity.
  - discriminate.
  - discriminate.
  - reflexivity.
  - apply example_jobs_holds.
  - exists s'. split; [exact H|]. apply Ht.
Defined.

(** C33: the TLS server asks for the error of the wrong call.  If the handshake has
    succeeded and the request is not there yet ([wolfSSL_read] answers a negative
    number and [WANT_READ]), the read is not repeated and the accept loop returns:
    the server accepts no further connection.  Only if [wolfSSL_accept] has not
    succeeded is the read repeated until the data is there, and the request
    queued, if fewer than 99 jobs wait. *)
Theorem tls_accept_reads get_error `{!WolfSSLSpec get_error} (env : tls_env) (s : tls_state)
    (n : nat) (r : read_result) (rs : list read_result) (want : read_result) l :
  tls_stop_requested env = false → tls_accept4 env ≠ (-1)%Z →
  tls_accept_errno env (tls_errno s) ≠ EAGAIN →
  read_error want = WOLFSSL_ERROR_WANT_READ → (read_ret want < 0)%Z →
  (∀ envs, (0 < tls_accept_ret env)%Z → tls_reads env = want :: rs →
     ∃ s', tls_AcceptIncoming get_error (env :: envs) s = Ret (false, s') ∧
       tls_jobs s' = tls_jobs s) ∧
  ((tls_accept_ret env ≤ 0)%Z → tls_reads env = replicate n want ++ r :: rs →
   read_error r ≠ WOLFSSL_ERROR_WANT_READ → (0 ≤ read_ret r < 4096)%Z →
   holds 100 (tls_jobs s) l → S (length l) < 100 →
   ∃ s', tls_round get_error env s = Ret (true, s') ∧
     holds 100 (tls_jobs s') (l ++ [mk_HTTPSConnection (tls_accept4 env) (tls_ssl env)
       (c_string (take (Z.to_nat (read_ret r)) (read_data r)))])).
Proof.
  intros Hs Ha He Hw Hneg. split.
  - intros envs Hret Hr. eexists. cbn [tls_AcceptIncoming].
    rewrite (M_bind_run _ _ s false (mk_tls (tls_accept_errno env (tls_errno s))
      (tls_accept4 env) (tls_jobs s))); [done|].
    rewrite tls_round_unfold. rewrite Hs, decide_True, Hr by done. cbn [tls_read_loop].
    rewrite get_error_ok by done. rewrite decide_False by done. cbn [mbind outcome_bind].
    by rewrite decide_True.
  - intros Hret Hr Hne Hb Hq Hl. rewrite tls_round_unfold. rewrite Hs, decide_True, Hr by done.
    assert (Hloop : tls_read_loop get_error (tls_accept_ret env) (replicate n want ++ r :: rs) = Ret r).
    { clear Hr. induction n as [|n IH]; cbn [replicate app tls_read_loop]; rewrite get_error_last by done.
      - by rewrite decide_False.
      - rewrite Hw, decide_True by done. by apply IH. }
    rewrite Hloop. cbn [mbind outcome_bind]. rewrite decide_False by lia.
    unfold terminate_buffer. rewrite decide_True.
    2: { rewrite length_take. pose proof MAXBUFLEN_4096. lia. }
    cbn [mbind outcome_bind].
    destruct (add_task_run (mk_HTTPSConnection (tls_accept4 env) (tls_ssl env)
      (c_string (take (Z.to_nat (read_ret r)) (read_data r)))) (tls_jobs s) l Hq Hl)
      as (q' & Hq' & H').
    rewrite Hq'. cbn [outcome_bind]. eexists. by split.
Qed.

(** [wolfSSL_get_error] as its documentation has it, and a client whose request
    has not arrived when the handshake is done. *)
Definition example_get_error (ret e : Z) : Z := if decide (0 < ret)%Z then 0%Z else e.

#[export] Instance example_get_error_spec : WolfSSLSpec example_get_error.
Proof. split; intros ret e H; unfold example_get_error; case_decide; (done || lia). Qed.

Lemma tls_accept_reads_witness :
  let want := mk_read (-1) [] WOLFSSL_ERROR_WANT_READ in
  let s := mk_tls 0 (-1) (mk_Queue [] 0 0 0 []) in
  ∃ s', tls_AcceptIncoming example_get_error
      [mk_tls_env false 7 id (Some 1) 1 [want]] s = Ret (false, s') ∧
    tls_jobs s' = tls_jobs s.
Proof.
  intros want s.
  apply (tls_accept_reads example_get_error (mk_tls_env false 7 id (Some 1) 1 [want]) s 0 want []
    want []).
  - reflexivity.
  - discriminate.
  - discriminate.
  - reflexivity.
  - reflexivity.
  - reflexivity.
  - reflexivity.
Defined.

(** Every call up to [listen] succeeds. *)
Definition bound (env : start_env) : Prop :=
  env_gai env = 0%Z ∧ env_socket env ≠ (-1)%Z ∧ env_bind env ≠ (-1)%Z ∧ env_listen env ≠ (-1)%Z.

Lemma listen_on_spec port env k :
  (bound env ∧ ∃ pre, listen_on port env k = after pre k) ∨
  (¬ bound env ∧ (listen_on port env k).2 = Some 1%Z).
Proof.
  unfold listen_on, bound.
  case_decide as Hg; [right; split; [by intros [? _]|done]|].
  case_decide as Hso; [right; split; [by intros (_ & ? & _)|done]|].
  case_decide as Hb; [right; split; [by intros (_ & _ & ? & _)|done]|].
  case_decide as Hl; [right; split; [by intros (_ & _ & _ & ?)|done]|].
  left. split; [done|]. exists [Call_getaddrinfo (to_string port); Call_socket;
    Call_fcntl (env_socket env); Call_bind (env_socket env); Call_listen (env_socket env) MAXBUFLEN].
  unfold after. cbn [fst snd app]. done.
Qed.

(** Starting.  A server starts its pool, as the last thing it does, if every
    call succeeds, the TLS server's certificate and key included; otherwise the
    process exits with code 1. *)
Lemma servers_start (port : Z) (env : start_env) :
  let started (r : start_result) := r.2 = None ∧ last r.1 = Some Call_pool_start in
  let failed (r : start_result) := r.2 = Some 1%Z in
  let tls := env_ctx env = true ∧ env_certificate env = true ∧ env_key env = true in
  (bound env → started (TCPServer_Start port env)) ∧
  (¬ bound env → failed (TCPServer_Start port env)) ∧
  (bound env ∧ tls → started (TLSServer_Start port env)) ∧
  (¬ (bound env ∧ tls) → failed (TLSServer_Start port env)).
Proof.
  intros started failed tls. unfold started, failed, tls, TCPServer_Start, TLSServer_Start.
  split_and!.
  - intros Hb. destruct (listen_on_spec port env ([Call_pool_start], None)) as [[_ [pre ->]]|[? _]]; [|done].
    unfold after. cbn [fst snd]. by rewrite last_snoc.
  - intros Hb. by destruct (listen_on_spec port env ([Call_pool_start], None)) as [[? _]|[_ ?]].
  - intros (Hb & -> & -> & ->). edestruct (listen_on_spec port env) as [[_ [pre ->]]|[? _]]; [|done].
    unfold after. cbn [fst snd app]. by rewrite last_app.
  - intros Hn. edestruct (listen_on_spec port env) as [[Hb [pre ->]]|[_ E]]; [|exact E].
    unfold after. destruct (env_ctx env), (env_certificate env), (env_key env); try done.
    by destruct Hn.
Qed.
