(* ===== verification/History.v ===== *)
(** * Histories of a server

    Runs of a step relation whose steps are observed, and the observations of a
    server: the connections its accept loop has read a request from, and those its
    workers have got from the queue.  What is to wait in the queue and what an
    overflow drops follows from the observations alone. *)

From S2P Require Import Prelude.

(** ** Observed runs *)

Section runs.
Context {S L : Type}.
Implicit Types (s : S) (l : list L).

Inductive runs (step : S → list L → S → Prop) : S → list L → S → Prop :=
  | runs_nil s : runs step s [] s
  | runs_snoc s1 l s2 l' s3 :
      runs step s1 l s2 → step s2 l' s3 → runs step s1 (l ++ l') s3.

Lemma runs_cons step s1 l s2 l' s3 :
  step s1 l s2 → runs step s2 l' s3 → runs step s1 (l ++ l') s3.
Proof.
  intros H Hs. revert H. induction Hs as [s2|s2 l1 s3 l2 s4 _ IH H']; intros H.
  - rewrite app_nil_r. by eapply (runs_snoc step s1 [] s1); [constructor|].
  - rewrite (assoc_L (++)). eapply runs_snoc; [by apply IH|done].
Qed.

(** An invariant of what has been observed and of the state. *)
Lemma runs_invariant step (P : list L → S → Prop) s0 l s :
  (∀ l s l' s', P l s → step s l' s' → P (l ++ l') s') →
  P [] s0 → runs step s0 l s → P l s.
Proof. intros HP H0 Hs. induction Hs; [done|]. by eapply HP; [apply IHHs|]. Qed.
End runs.

(** A simulation step by step, with the same observations. *)
Lemma runs_simulation {S S' L} (step : S → list L → S → Prop) (step' : S' → list L → S' → Prop)
    (R : S → S' → Prop) s l s1 a :
  (∀ s l s1 a, step s l s1 → R s a → ∃ a1, step' a l a1 ∧ R s1 a1) →
  runs step s l s1 → R s a → ∃ a1, runs step' a l a1 ∧ R s1 a1.
Proof.
  intros Hstep Hs. induction Hs as [s|s l s1 l' s2 _ IH H]; intros Ha; [exists a; split; [constructor|done]|].
  destruct (IH Ha) as (a1 & H1 & R1). destruct (Hstep _ _ _ _ H R1) as (a2 & H2 & R2).
  exists a2. split; [by eapply runs_snoc|done].
Qed.

(** ** What is observed of a server *)

(** A request has been read for a connection; a worker has got it from the queue. *)
Inductive label (C : Type) : Type := Accepted (c : C) | Taken (c : C).
Arguments Accepted {C} c.
Arguments Taken {C} c.

Section labels.
Context {C : Type}.
Implicit Types (p : list C) (ls : list (label C)).

Definition accepted_in ls : list C := omap (λ l, match l with Accepted c => Some c | _ => None end) ls.
Definition taken_in ls : list C := omap (λ l, match l with Taken c => Some c | _ => None end) ls.

(** What waits in a queue that has 99 places, after [p]: a connection that is
    accepted is the last, and the one for which there is no room drops all; the
    one that is taken is the first. *)
Definition wait_after p (l : label C) : list C :=
  match l with
  | Accepted c => if decide (S (length p) = 100) then [] else p ++ [c]
  | Taken _ => tail p
  end.
Definition waiting p ls : list C := foldl wait_after p ls.

(** What the overflows drop. *)
Fixpoint dropped p ls : list C :=
  match ls with
  | [] => []
  | l :: ls =>
    match l with
    | Accepted c => if decide (S (length p) = 100) then p ++ [c] else []
    | Taken _ => []
    end ++ dropped (wait_after p l) ls
  end.

(** Whoever takes a connection takes the first that waits. *)
Fixpoint in_turn p ls : Prop :=
  match ls with
  | [] => True
  | l :: ls => match l with Accepted _ => True | Taken c => head p = Some c end ∧ in_turn (wait_after p l) ls
  end.

Lemma waiting_app p ls ls' : waiting p (ls ++ ls') = waiting (waiting p ls) ls'.
Proof. apply foldl_app. Qed.

Lemma in_turn_app p ls ls' : in_turn p (ls ++ ls') ↔ in_turn p ls ∧ in_turn (waiting p ls) ls'.
Proof.
  revert p. induction ls as [|l ls IH]; intros p; cbn [in_turn app]; [naive_solver|].
  rewrite IH. cbn. naive_solver.
Qed.

Lemma accepted_in_app ls ls' : accepted_in (ls ++ ls') = accepted_in ls ++ accepted_in ls'.
Proof. apply omap_app. Qed.
Lemma taken_in_app ls ls' : taken_in (ls ++ ls') = taken_in ls ++ taken_in ls'.
Proof. apply omap_app. Qed.

(** Those taken are taken in the order of acceptance, and before those that wait. *)
Lemma taken_in_order p ls :
  in_turn p ls → taken_in ls ++ waiting p ls `sublist_of` p ++ accepted_in ls.
Proof.
  revert p. induction ls as [|[c|c] ls IH]; intros p; cbn [in_turn].
  { intros _. cbn. by rewrite app_nil_r. }
  - intros [_ H%IH]. cbn -[decide] in H |- *. case_decide; cbn in H.
    + by apply sublist_inserts_l, sublist_cons.
    + by rewrite <- (assoc_L (++)) in H.
  - intros [Hp H%IH]. destruct p as [|c' p]; [done|]. injection Hp as ->. cbn in H |- *.
    by apply sublist_skip.
Qed.

(** None is lost: what is accepted is taken, dropped, or waits; each once. *)
Lemma none_lost p ls :
  in_turn p ls → p ++ accepted_in ls ≡ₚ taken_in ls ++ dropped p ls ++ waiting p ls.
Proof.
  revert p. induction ls as [|[c|c] ls IH]; intros p; cbn [in_turn].
  { intros _. cbn. by rewrite app_nil_r. }
  - intros [_ H%IH]. cbn -[decide] in H |- *. case_decide; cbn in H |- *.
    + rewrite (cons_middle c p), (assoc_L (++)), H, (assoc_L (++)), (assoc_L (++)).
      rewrite (Permutation_app_comm (p ++ [c])). by rewrite <- !(assoc_L (++)).
    + rewrite <- H. by rewrite <- (assoc_L (++)).
  - intros [Hp H%IH]. destruct p as [|c' p]; [done|]. injection Hp as ->. cbn in H |- *. by rewrite H.
Qed.

Lemma none_dropped p ls :
  in_turn p ls → dropped p ls = [] → p ++ accepted_in ls = taken_in ls ++ waiting p ls.
Proof.
  revert p. induction ls as [|[c|c] ls IH]; intros p; cbn [in_turn dropped].
  { intros _ _. cbn. by rewrite app_nil_r. }
  - intros [_ H] [Hd Hn]%app_nil. apply IH in H; [|done]. cbn -[decide] in H, Hd |- *.
    case_decide; [by destruct p|].
    rewrite (cons_middle c p), (assoc_L (++)). exact H.
  - intros [Hp H] Hn. apply IH in H; [|exact Hn]. destruct p as [|c' p]; [done|]. injection Hp as ->.
    cbn in H |- *. by f_equal.
Qed.

(** A history that is in order, in plain words: connections are taken in the order
    of their acceptance and at most once each; the others have been dropped by an
    overflow or wait. *)
Definition fifo_history ls : Prop :=
  in_turn [] ls ∧
  taken_in ls ++ waiting [] ls `sublist_of` accepted_in ls ∧
  accepted_in ls ≡ₚ taken_in ls ++ dropped [] ls ++ waiting [] ls ∧
  (dropped [] ls = [] → accepted_in ls = taken_in ls ++ waiting [] ls).

Lemma in_turn_fifo ls : in_turn [] ls → fifo_history ls.
Proof.
  intros H. split_and!; [done|by apply (taken_in_order [])|by apply (none_lost [])|by apply (none_dropped [])].
Qed.
End labels.
