(* ===== verification/System.v ===== *)
(** * A running server

    One server at work: the accept loop of [include/simpleserv/server/tcp_server.hpp]
    or [tls_server.hpp] and the workers of its pool
    ([include/simpleserv/request_processing/]) around the job queue they share.
    The rounds of the threads interleave.  The accept loop enters through the class
    [Acceptor], which [TCPServer] and [TLSServer] implement; what the server does
    with its connections is specified by [spec_step], and every step of the server
    is one of the specification with the same observations: what the accept loop has
    read off a socket, and what a worker has got from the queue.  The rounds are taken to be atomic; in [Overlap]
    their parts interleave. *)

From stdpp Require Import relations.
From S2P Require Import Prelude Effects Expected Http StringParser FileSystem FileManager.
From S2P Require Import Parser Message HttpHandler LockFreeQueue Connections Servers.
From S2P Require Import History.

(** ** The interface of an accept loop *)

(** A round up to the task it queues, on [errno] and [client_fd], which does not
    touch the queue: whether the function goes on, and the task.  [incoming_env] is
    what its environment respects, [incoming_delivers] what is true of the task. *)
Class Incoming (Env C : Type) := {
  incoming : Env → M (Z * Z) (bool * option C);
  incoming_env : Env → Prop;
  incoming_delivers : C → Prop }.

(** It neither throws nor is undefined, and goes on after a task. *)
Class IncomingSpec (Env C : Type) `{!Incoming Env C} : Prop := {
  incoming_ok env l :
    incoming_env env →
    match incoming env l with
    | Ret ((go, Some c), _) => go = true ∧ incoming_delivers c
    | Ret ((_, None), _) | NoFuel => True
    | _ => False
    end }.

(** A whole round, on the state of the loop, which has the job queue in it. *)
Class Acceptor (Env St C : Type) `{!Incoming Env C} := {
  accept_round : Env → M St bool;
  accept_locals : St → Z * Z;
  job_queue : St → LockFreeQueue C;
  acc_state : Z * Z → LockFreeQueue C → St }.

(** It queues the task, if there is one. *)
Class AcceptorSpec (Env St C : Type) `{!Incoming Env C, !Acceptor Env St C} : Prop := {
  acceptor_incoming :: IncomingSpec Env C;
  accept_round_eq env s :
    accept_round env s =
    '((go, task), l) ← incoming env (accept_locals s);
    match task with
    | Some c => '(_, q) ← add_task c (job_queue s); Ret (go, acc_state l q)
    | None => Ret (go, acc_state l (job_queue s))
    end;
  job_queue_state l q : job_queue (acc_state l q) = q }.

(** The task that leaves no free slot drops those that wait, and itself. *)
Lemma add_task_full {C} (c : C) q l :
  holds 100 q l → S (length l) = 100 → ∃ q', add_task c q = Ret ((), q') ∧ holds 100 q' [].
Proof.
  intros Hq Hf. destruct (holds_push_full 100 capacity_100 q l c Hq Hf) as (q' & Hp & Hh). exists q'.
  split; [|done]. unfold add_task. by rewrite (M_bind_run _ _ _ _ _ Hp).
Qed.

Lemma add_task_returns {C} (c : C) q l :
  holds 100 q l → ∃ q', add_task c q = Ret ((), q').
Proof.
  intros Hq. assert (length l < 100) by (destruct Hq as [n Hq]; apply Hq).
  destruct (decide (S (length l) = 100)) as [Hf|Hf].
  - destruct (add_task_full c q l Hq Hf) as (q' & Hp & _). by exists q'.
  - destruct (add_task_run c q l Hq) as (q' & Hp & _); [lia|]. by exists q'.
Qed.

Section server.
Context {W C Env St : Type}.
Context `{!IHandler W, !ICloser W C, !IConnectionObject C, !Incoming Env C, !Acceptor Env St C}.
(** The senders: the answers of the environment to the calls of one [SendMsg]. *)
Context (sender : ISender W C → Prop).

(** ** The server *)

(** The accept loop (whether it is still running, and its state) and what the
    workers work on. *)
Record server : Type := mk_server { accepting : bool; acc : St; worker_world : W }.

Inductive event : Type :=
  | Accept (env : Env)
  | Work (snd : ISender W C) (moved : C → C) (spurious : bool).

(** A round of the accept loop, or of a worker.  A loop that has been left does
    nothing. *)
Definition do_event (ev : event) : M server () := λ s,
  match ev with
  | Accept env =>
    if accepting s then
      '(go, st) ← accept_round env (acc s); Ret ((), mk_server go st (worker_world s))
    else Ret ((), s)
  | Work snd moved spurious =>
    '(_, (q, w)) ← worker_round moved spurious (job_queue (acc s), worker_world s);
    Ret ((), mk_server (accepting s) (acc_state (accept_locals (acc s)) q) w)
  end.

Fixpoint do_events (evs : list event) : M server () :=
  match evs with
  | [] => mret ()
  | ev :: evs => _ ← do_event ev; do_events evs
  end.

Definition allowed (ev : event) : Prop :=
  match ev with Accept env => incoming_env env | Work snd _ _ => sender snd end.

(** What is observed of a round: the task that the accept loop has read, whatever
    becomes of it, and the connection that [pop] gives the worker. *)
Definition observe (ev : event) (s : server) : list (label C) :=
  match ev with
  | Accept env =>
    if accepting s then
      match incoming env (accept_locals (acc s)) with
      | Ret ((_, Some c), _) => [Accepted c]
      | _ => []
      end
    else []
  | Work _ moved spurious =>
    match pop 100 moved spurious (job_queue (acc s)) with
    | Ret (Some c, _) => [Taken c]
    | _ => []
    end
  end.

Fixpoint observe_all (evs : list event) (s : server) : list (label C) :=
  match evs with
  | [] => []
  | ev :: evs =>
    observe ev s ++ match do_event ev s with Ret (_, s) => observe_all evs s | _ => [] end
  end.

(** Accept loops and workers are the functions of threads: an exception that
    leaves them terminates.  A round that waits ([NoFuel]) is not a step. *)
Inductive server_step : outcome server → list (label C) → outcome server → Prop :=
  | step_event ev s o :
      allowed ev → do_event ev s = o → o ≠ NoFuel →
      server_step (Ret s) (observe ev s) (noexcept (snd <$> o)).

(** ** What a server does *)

(** Whether connections are accepted, those waiting, and the world. *)
Record spec : Type := mk_spec { sp_accepting : bool; sp_pending : list C; sp_world : W }.

Inductive spec_step : outcome spec → list (label C) → outcome spec → Prop :=
  | spec_idle a : spec_step (Ret a) [] (Ret a)
  | spec_leave p w : spec_step (Ret (mk_spec true p w)) [] (Ret (mk_spec false p w))
  | spec_accept c p w :
      incoming_delivers c → S (length p) < 100 →
      spec_step (Ret (mk_spec true p w)) [Accepted c] (Ret (mk_spec true (p ++ [c]) w))
  | spec_overflow c p w :
      incoming_delivers c → S (length p) = 100 →
      spec_step (Ret (mk_spec true p w)) [Accepted c] (Ret (mk_spec true [] w))
  | spec_serve `{!ISender W C} c p go w o :
      sender _ → handle_connection c w = o → o ≠ NoFuel →
      spec_step (Ret (mk_spec go (c :: p) w)) [Taken c]
        (noexcept ((λ x, mk_spec go p x.2) <$> o)).

Definition spec_start (w : W) : spec := mk_spec true [] w.

(** The server and its specification: the queue holds the pending connections. *)
Definition implements (o : outcome server) (a : outcome spec) : Prop :=
  match o, a with
  | Ret s, Ret a => accepting s = sp_accepting a ∧ worker_world s = sp_world a ∧
                    holds 100 (job_queue (acc s)) (sp_pending a)
  | Terminate, Terminate | Undef, Undef => True
  | _, _ => False
  end.

(** ** Rounds of a worker *)

Lemma worker_round_serves `{!ISender W C} moved q c l w :
  holds 100 q (c :: l) →
  ∃ q', holds 100 q' l ∧
    worker_round moved false (q, w) =
    '(_, w') ← handle_connection c w; Ret ((), (q', w')).
Proof.
  intros H. destruct (holds_pop 100 moved capacity_100 q l c H) as (q' & Hp & Hq').
  exists q'. split; [done|]. unfold worker_round. by rewrite Hp.
Qed.

Lemma worker_round_idle `{!ISender W C} moved spurious q l w :
  holds 100 q l → spurious = true ∨ l = [] →
  worker_round moved spurious (q, w) = Ret ((), (q, w)).
Proof. intros H Hor. unfold worker_round. by rewrite (holds_pop_fails 100 moved capacity_100 q l spurious H Hor). Qed.

(** ** Refinement *)

Lemma implements_accept `{!AcceptorSpec Env St C} env s a :
  implements (Ret s) (Ret a) → incoming_env env → do_event (Accept env) s ≠ NoFuel →
  ∃ a', spec_step (Ret a) (observe (Accept env) s) a' ∧
    implements (noexcept (snd <$> do_event (Accept env) s)) a'.
Proof.
  destruct s as [go st w], a as [go' p w']. intros (E1 & E2 & Hq) Henv. cbn in E1, E2, Hq.
  subst go' w'. cbn [do_event observe accepting acc worker_world].
  destruct go; [|intros _; by exists (Ret (mk_spec false p w)); split; [constructor|]].
  rewrite accept_round_eq. pose proof (incoming_ok env (accept_locals st) Henv) as Hr.
  destruct (incoming env (accept_locals st)) as [[[go [c|]] l]| | | |]; try done; cbn [mbind outcome_bind].
  - destruct Hr as [-> Hdel]. intros _.
    assert (Hb : length p < 100) by (destruct Hq as [n Hq]; apply Hq).
    destruct (decide (S (length p) = 100)) as [Hf|Hf].
    + destruct (add_task_full c _ p Hq Hf) as (q' & -> & Hh).
      exists (Ret (mk_spec true [] w)). split; [by apply spec_overflow|]. cbn. by rewrite job_queue_state.
    + destruct (add_task_run c _ p Hq) as (q' & -> & Hh); [lia|].
      exists (Ret (mk_spec true (p ++ [c]) w)). split; [apply spec_accept; [done|lia]|]. cbn.
      by rewrite job_queue_state.
  - intros _. exists (Ret (mk_spec go p w)). split; [destruct go; constructor|]. cbn.
    by rewrite job_queue_state.
Qed.

Lemma implements_work `{!AcceptorSpec Env St C} snd moved spurious s a :
  implements (Ret s) (Ret a) → sender snd → do_event (Work snd moved spurious) s ≠ NoFuel →
  ∃ a', spec_step (Ret a) (observe (Work snd moved spurious) s) a' ∧
    implements (noexcept (Datatypes.snd <$> do_event (Work snd moved spurious) s)) a'.
Proof.
  destruct s as [go st w], a as [go' p w']. intros (E1 & E2 & Hq) Hsnd. cbn in E1, E2, Hq.
  subst go' w'. cbn [do_event observe accepting acc worker_world].
  destruct (decide (spurious = true ∨ p = [])) as [Hor|Hor].
  - rewrite (worker_round_idle moved spurious _ p w Hq Hor).
    rewrite (holds_pop_fails 100 moved capacity_100 _ p spurious Hq Hor). intros _.
    exists (Ret (mk_spec go p w)). split; [constructor|].
    cbn. by rewrite job_queue_state.
  - destruct p as [|c p]; [tauto|]. destruct spurious; [tauto|].
    destruct (holds_pop 100 moved capacity_100 _ p c Hq) as (q0 & -> & _).
    destruct (worker_round_serves moved _ c p w Hq) as (q' & Hq' & ->).
    destruct (handle_connection c w) as [[[] w']| e | | |] eqn:Hh; cbn; intros Hn; try done.
    all: eexists; split; [by eapply spec_serve|].
    all: cbn; rewrite ?job_queue_state; done.
Qed.

Lemma implements_start st w :
  holds 100 (job_queue st) [] → implements (Ret (mk_server true st w)) (Ret (spec_start w)).
Proof. intros Hq. split_and!; [reflexivity..|exact Hq]. Qed.

Lemma implements_step `{!AcceptorSpec Env St C} o ls o' a :
  server_step o ls o' → implements o a → ∃ a', spec_step a ls a' ∧ implements o' a'.
Proof.
  intros [ev s ? Hal <- Hn] Hi. destruct a as [a| | | |]; try done. destruct ev as [env|snd moved sp].
  - by apply implements_accept.
  - by apply implements_work.
Qed.

Lemma implements_runs `{!AcceptorSpec Env St C} st w ls o :
  holds 100 (job_queue st) [] → runs server_step (Ret (mk_server true st w)) ls o →
  ∃ a, runs spec_step (Ret (spec_start w)) ls a ∧ implements o a.
Proof.
  intros Hq Hs. eapply runs_simulation; [|done|by apply implements_start].
  intros o1 l o2 a Hstep. by apply implements_step.
Qed.

Lemma do_events_runs evs s s' :
  Forall allowed evs → do_events evs s = Ret ((), s') →
  runs server_step (Ret s) (observe_all evs s) (Ret s').
Proof.
  intros Hal. revert s. induction Hal as [|ev evs Hev _ IH]; intros s; cbn [do_events observe_all].
  { intros [= <-]. constructor. }
  intros ([] & s1 & H1 & H)%M_bind_Ret_inv. rewrite H1. eapply runs_cons; [|by apply IH].
  pose proof (step_event ev s _ Hev H1) as Hs. cbn in Hs. by apply Hs.
Qed.

End server.

(** ** The specification keeps order *)

(** The observations determine what waits; what is taken is the first of it. *)
Definition spec_ok {W C} (deliv : C → Prop) (ls : list (label C)) (o : outcome (@spec W C)) : Prop :=
  in_turn [] ls ∧ Forall deliv (accepted_in ls) ∧
  match o with Ret a => sp_pending a = waiting [] ls | _ => True end.

Lemma spec_step_ok {W C Env} `{!IHandler W, !ICloser W C, !IConnectionObject C}
    `{!Incoming Env C} (sender : ISender W C → Prop) ls o l o' :
  spec_ok incoming_delivers ls o → spec_step sender o l o' → spec_ok incoming_delivers (ls ++ l) o'.
Proof.
  intros (Ht & Hd & Hp) Hs. unfold spec_ok. rewrite in_turn_app, accepted_in_app, waiting_app, Forall_app.
  destruct Hs as [a|p w|c p w Hc Hl|c p w Hc Hl|snd c p go w o Hsnd Ho Hn]; cbn -[decide] in *;
    rewrite <- Hp.
  - by split_and!.
  - by split_and!.
  - rewrite decide_False by lia. split_and!; [done..|by constructor|done].
  - rewrite decide_True by done. split_and!; [done..|by constructor|done].
  - split_and!; [done..|]. by destruct o as [[[] w']| | | |].
Qed.

Lemma spec_runs_ok {W C Env} `{!IHandler W, !ICloser W C, !IConnectionObject C}
    `{!Incoming Env C} (sender : ISender W C → Prop) w ls a :
  runs (spec_step sender) (Ret (spec_start w)) ls a → spec_ok incoming_delivers ls a.
Proof.
  apply (runs_invariant _ (λ ls o, spec_ok incoming_delivers ls o)); [|by split_and!; [|constructor|]].
  intros. by eapply spec_step_ok.
Qed.

(** ** What a server has done, by its trace *)

Section history.
Context (fs : FS) {C Env St : Type}.
Context `{!IConnectionObject C, !ICloser world C, !Incoming Env C, !Acceptor Env St C}.
Context (sender : ISender world C → Prop).
#[local] Instance history_handler : IHandler world := http_handler fs.

(** What is done with a connection whose handler has answered [response]. *)
Context (performs : C → option str → list io → Prop).

Definition handler_performs : Prop := ∀ snd c w w',
  sender snd → handle_connection (ISender0 := snd) c w = Ret ((), w') →
  ∃ response m' l, handle fs (conn_request c) (w_manager w) = Ret (response, m') ∧
    performs c response l ∧ w' = mk_world m' (w_trace w ++ l).

(** The trace is the answers to the connections that have been taken.  [Inv] holds
    of the file manager, [answers] of what is done for a connection. *)
Definition trace_ok (Inv : FileManager → Prop) (answers : C → list io → Prop)
    (w : world) (ls : list (label C)) (o : outcome (@spec world C)) : Prop :=
  match o with
  | Ret a => Inv (w_manager (sp_world a)) ∧ ∃ ans, Forall2 answers (taken_in ls) ans ∧
      w_trace (sp_world a) = w_trace w ++ mjoin ans
  | _ => True
  end.

(** Handling a connection keeps [Inv] and makes an answer. *)
Definition handling (Inv : FileManager → Prop) (answers : C → list io → Prop) : Prop :=
  ∀ c m response m' l, Inv m → handle fs (conn_request c) m = Ret (response, m') →
    performs c response l → Inv m' ∧ answers c l.

Lemma spec_step_trace_ok Inv answers w ls o l o' :
  handler_performs → handling Inv answers →
  trace_ok Inv answers w ls o → spec_step sender o l o' → trace_ok Inv answers w (ls ++ l) o'.
Proof.
  intros HP HI Ht Hs. unfold trace_ok in *. rewrite taken_in_app.
  destruct Hs as [| | | |snd c p go w1 o Hsnd Ho Hn]; [by rewrite app_nil_r..|].
  destruct Ht as (Hm & ans & Ha & Ht). destruct o as [[[] w']| | | |]; try done. cbn in *.
  destruct (HP snd c w1 w' Hsnd Ho) as (response & m' & l & Hh & Hl & ->).
  destruct (HI c (w_manager w1) response m' l Hm Hh Hl) as [Hm' Hans]. split; [done|].
  exists (ans ++ [l]). split; [apply Forall2_app; [exact Ha|by constructor]|].
  cbn. rewrite Ht, join_app. cbn. by rewrite app_nil_r, <- !(assoc_L (++)).
Qed.

Lemma spec_runs_trace_ok Inv answers w ls a :
  handler_performs → handling Inv answers → Inv (w_manager w) →
  runs (spec_step sender) (Ret (spec_start w)) ls a → trace_ok Inv answers w ls a.
Proof.
  intros HP HI Hw. apply (runs_invariant _ (λ ls o, trace_ok Inv answers w ls o)).
  - intros. by eapply spec_step_trace_ok.
  - split; [done|]. exists []. split; [constructor|]. cbn. by rewrite app_nil_r.
Qed.

(** A state reached with the observations [ls]: they are in order, the queue holds
    what is to wait after them, and the trace is the answers to the connections
    taken, one after the other. *)
Definition served_history (answers : C → list io → Prop) (w : world) (ls : list (label C))
    (s : @server world St) : Prop :=
  fifo_history ls ∧ Forall incoming_delivers (accepted_in ls) ∧
  holds 100 (job_queue (acc s)) (waiting [] ls) ∧
  ∃ ans, Forall2 answers (taken_in ls) ans ∧ w_trace (worker_world s) = w_trace w ++ mjoin ans.

Lemma reached_history `{!AcceptorSpec Env St C} Inv answers st w ls o :
  handler_performs → handling Inv answers → Inv (w_manager w) →
  holds 100 (job_queue st) [] → runs (server_step sender) (Ret (mk_server true st w)) ls o →
  o = Terminate ∨ o = Undef ∨ ∃ s, o = Ret s ∧ served_history answers w ls s.
Proof.
  intros HP HI Hm Hq Hs. destruct (implements_runs _ _ _ _ _ Hq Hs) as (a & Ha & Hi).
  destruct (spec_runs_ok _ _ _ _ Ha) as (Hord & Hdel & Hp).
  pose proof (spec_runs_trace_ok _ _ _ _ _ HP HI Hm Ha) as Ht.
  destruct o as [s|e| | |], a as [a|e'| | |]; try done; [|by left|by right; left].
  destruct Hi as (_ & Hw & Hh), Ht as (_ & ans & Hf & Ht). right. right. exists s. split; [done|].
  rewrite Hp in Hh. split_and!; [by apply in_turn_fifo|done..|]. exists ans. by rewrite Hw.
Qed.
End history.

(** ** The TCP server *)

#[export] Instance tcp_loop : Incoming tcp_env HTTPConnectionObject := {|
  incoming := tcp_incoming;
  incoming_env _ := True;
  incoming_delivers c :=
    http_client_fd c ≠ (-1)%Z ∧ length (http_request c) < 4096 ∧ NUL ∉ http_request c |}.

#[export] Instance tcp_acceptor : Acceptor tcp_env tcp_state HTTPConnectionObject := {|
  accept_round := tcp_round;
  accept_locals s := (errno_ s, client_fd s);
  job_queue := jobs;
  acc_state l q := mk_tcp l.1 l.2 q |}.

Lemma recv_loop_outcome rs errno :
  match recv_loop rs errno with
  | Ret (Some data, _) => ∃ d, data = take (MAXBUFLEN - 1) d
  | Ret (None, _) | NoFuel => True
  | _ => False
  end.
Proof.
  revert errno. induction rs as [|[data|e] rs IH]; intros errno; [done|by exists data|].
  cbn [recv_loop]. rewrite (M_bind_run _ _ errno () e) by done. case_decide; [apply IH|done].
Qed.

Lemma c_string_spec s : (NUL ∉ c_string s) ∧ length (c_string s) ≤ length s.
Proof.
  induction s as [|c s [IH1 IH2]]; cbn; [split; [apply not_elem_of_nil|lia]|].
  case_decide as Hc; cbn; [split; [apply not_elem_of_nil|lia]|]. split; [|lia].
  intros [Hn|Hn]%elem_of_cons; [by apply Hc|by apply IH1].
Qed.

#[export] Instance tcp_loop_spec : IncomingSpec tcp_env HTTPConnectionObject.
Proof.
  split. intros env [errno fd] _. cbn [incoming tcp_loop]. unfold tcp_incoming.
  destruct (stop_requested env); [done|]. case_decide as Ha; [|done].
  pose proof (recv_loop_outcome (recvs env) (accept_errno env errno)) as Hr.
  destruct (recv_loop _ _) as [[[data|] e]| | | |]; cbn [mbind outcome_bind]; try done.
  destruct Hr as [d ->]. rewrite terminate_buffer_run. split; [done|].
  destruct (c_string_spec (take (MAXBUFLEN - 1) d)) as [H1 H2]. cbn. split_and!; [tauto| |done].
  rewrite length_take in H2. pose proof MAXBUFLEN_4096. lia.
Qed.

#[export] Instance tcp_acceptor_spec : AcceptorSpec tcp_env tcp_state HTTPConnectionObject.
Proof.
  split; [apply _| |done]. intros env s. cbn [accept_round incoming accept_locals job_queue acc_state tcp_loop tcp_acceptor].
  unfold tcp_round. by destruct (tcp_incoming _ _) as [[[go [c|]] [e fd]]| | | |].
Qed.

Section tcp.
Context (fs : FS).
#[local] Existing Instance http_object.
#[local] Instance tcp_handler : IHandler world := http_handler fs.
#[local] Instance tcp_closer : ICloser world HTTPConnectionObject := TCP_CloseConnection.

(** Each call of [send] is answered by the kernel in some way. *)
Definition tcp_sender (snd : ISender world HTTPConnectionObject) : Prop :=
  ∃ kernel, snd = TCP_SendMsg kernel.

Definition tcp_server : Type := @server world tcp_state.
Definition tcp_start (st : tcp_state) (w : world) : tcp_server := mk_server true st w.

(** What is done for a connection: one response at most, then the close. *)
Definition http_answer (c : HTTPConnectionObject) (l : list io) : Prop :=
  ∃ m response m' kernel, handle fs (http_request c) m = Ret (response, m') ∧
    l = sent kernel (http_client_fd c) response ++ [Io_close (http_client_fd c)].

Lemma handle_http_inv kernel c w w' :
  handle_http fs kernel c w = Ret ((), w') →
  ∃ response m', handle fs (http_request c) (w_manager w) = Ret (response, m') ∧
    w' = mk_world m' (w_trace w ++ sent kernel (http_client_fd c) response ++
      [Io_close (http_client_fd c)]).
Proof.
  intros H. destruct (handle fs (http_request c) (w_manager w)) as [[o m']|e| | |] eqn:E.
  - destruct (decide (broken kernel o)) as [Hb|Hb].
    + by rewrite (handle_http_broken _ _ _ _ o m' Hb E) in H.
    + rewrite (handle_http_run _ _ _ _ o m' Hb E) in H. injection H as <-. by exists o, m'.
  - by rewrite (handle_http_Throw _ _ _ _ e E) in H.
  - unfold handle_http, handle_connection, handler_handle, http_handler, conn_request, http_object in H.
    unfold mbind at 1, M_bind in H. by rewrite E in H.
  - unfold handle_http, handle_connection in H. rewrite M_bind_Undef in H; [done|].
    unfold handler_handle, http_handler, conn_request, http_object. by rewrite E.
  - unfold handle_http, handle_connection, handler_handle, http_handler, conn_request, http_object in H.
    unfold mbind at 1, M_bind in H. by rewrite E in H.
Qed.

(** One send at most, then the close. *)
Definition http_performs (c : HTTPConnectionObject) (response : option str) (l : list io) : Prop :=
  ∃ kernel, l = sent kernel (http_client_fd c) response ++ [Io_close (http_client_fd c)].

Lemma http_handler_performs : handler_performs fs tcp_sender http_performs.
Proof.
  intros snd c w w' [kernel ->] H.
  destruct (handle_http_inv kernel c w w' H) as (response & m' & Hh & ->).
  exists response, m', (sent kernel (http_client_fd c) response ++ [Io_close (http_client_fd c)]).
  split_and!; [done| |done]. by exists kernel.
Qed.

(** Whatever the manager. *)
Lemma handling_any : handling fs http_performs (λ _, True) http_answer.
Proof. intros c m response m' l _ H [kernel ->]. split; [done|]. by exists m, response, m', kernel. Qed.

(** ** Progress *)

(** Rounds that return: [recv] answers at last, and no connection is reset. *)
Definition event_ok (ev : @event world HTTPConnectionObject tcp_env) : Prop :=
  match ev with
  | Accept env => Exists (.≠ RecvFailed EAGAIN) (recvs env)
  | Work snd _ _ => ∃ kernel, snd = TCP_SendMsg kernel ∧ ∀ text, kernel text ≠ Broken_pipe
  end.

(** The parser returns: the request is answered or rejected. *)
Definition answerable (c : HTTPConnectionObject) : Prop :=
  ∃ r, parse_http_request (http_request c) = Ret r.

(** The number of accept rounds, and of rounds whose exchange succeeds. *)
Fixpoint accepts (evs : list (@event world HTTPConnectionObject tcp_env)) : nat :=
  match evs with [] => 0 | Accept _ :: evs => S (accepts evs) | _ :: evs => accepts evs end.
Fixpoint exchanges (evs : list (@event world HTTPConnectionObject tcp_env)) : nat :=
  match evs with
  | [] => 0 | Work _ _ false :: evs => S (exchanges evs) | _ :: evs => exchanges evs
  end.

Lemma handle_http_answers kernel c w :
  answerable c → (∀ text, kernel text ≠ Broken_pipe) →
  ∃ w', handle_http fs kernel c w = Ret ((), w').
Proof.
  intros [r Hr] Hk.
  assert (∃ o m', handle fs (http_request c) (w_manager w) = Ret (o, m')) as (o & m' & Ho).
  { destruct r as [r|e].
    - destruct (handle_run fs (http_request c) (w_manager w) r Hr) as (x & m' & _ & ->). eauto.
    - eexists _, _. by apply (handle_parse_error fs (http_request c) (w_manager w) e). }
  eexists. apply (handle_http_run _ _ _ _ o m'); [|done].
  destruct o as [text|]; [apply Hk|by intros []].
Qed.

Lemma recv_loop_returns rs errno :
  Exists (.≠ RecvFailed EAGAIN) rs → recv_loop rs errno ≠ NoFuel.
Proof.
  intros H. revert errno. induction H as [r rs Hr|r rs Hr IH]; intros errno.
  - destruct r as [data|e]; [done|]. cbn [recv_loop]. rewrite (M_bind_run _ _ errno () e) by done.
    rewrite decide_False by congruence. done.
  - destruct r as [data|e]; [done|]. cbn [recv_loop]. rewrite (M_bind_run _ _ errno () e) by done.
    case_decide; [apply IH|done].
Qed.

Lemma tcp_round_returns env st l :
  Exists (.≠ RecvFailed EAGAIN) (recvs env) → holds 100 (jobs st) l → tcp_round env st ≠ NoFuel.
Proof.
  intros Henv Hq. rewrite tcp_round_unfold. cbv zeta. destruct (stop_requested env); [done|]. case_decide; [|done].
  intros [Hn|([[data|] e] & _ & Hn)]%outcome_bind_NoFuel_inv; [by apply recv_loop_returns in Hn| |done].
  apply outcome_bind_NoFuel_inv in Hn as [Hn|(text & _ & Hn)].
  { unfold terminate_buffer in Hn. by case_decide. }
  apply outcome_bind_NoFuel_inv in Hn as [Hn|([[] q] & _ & Hn)]; [|done].
  destruct (add_task_returns (mk_HTTPConnection (accept4 env) text) (jobs st) l Hq) as [q' Hq'].
  by rewrite Hq' in Hn.
Qed.

(** A round of the accept loop returns, with at most one connection more. *)
Lemma do_accept env (s : tcp_server) l :
  Exists (.≠ RecvFailed EAGAIN) (recvs env) →
  holds 100 (jobs (acc s)) l → S (length l) < 100 →
  ∃ s' new, do_event (Accept env) s = Ret ((), s') ∧ length new ≤ 1 ∧
    holds 100 (jobs (acc s')) (l ++ new) ∧ worker_world s' = worker_world s.
Proof.
  intros Henv Hq Hl. destruct s as [go st w]. cbn [acc] in Hq. cbn [do_event accepting acc worker_world].
  destruct go; [|exists (mk_server false st w), []; rewrite app_nil_r; repeat split; cbn; auto].
  pose proof (incoming_ok env (accept_locals st) I) as Hr. pose proof (tcp_round_returns env st l Henv Hq) as Hn.
  change (tcp_round env st) with (accept_round env st) in Hn. rewrite accept_round_eq in *.
  destruct (incoming env (accept_locals st)) as [[[go [c|]] ls]| | | |]; try done; cbn [mbind outcome_bind] in *.
  - destruct (add_task_run c _ l Hq Hl) as (q' & Hq' & Hh). cbn [job_queue tcp_acceptor]. rewrite Hq'.
    exists (mk_server go (acc_state ls q') w), [c]. split_and!; [done|cbn; lia|done..].
  - exists (mk_server go (acc_state ls (job_queue st)) w), []. rewrite app_nil_r. by split_and!; [|cbn; lia| |].
Qed.

(** A round of a worker. *)
Lemma do_work kernel moved (s : tcp_server) c l :
  holds 100 (jobs (acc s)) (c :: l) → answerable c → (∀ text, kernel text ≠ Broken_pipe) →
  ∃ s' answer, do_event (Work (TCP_SendMsg kernel) moved false) s = Ret ((), s') ∧
    holds 100 (jobs (acc s')) l ∧ http_answer c answer ∧
    w_trace (worker_world s') = w_trace (worker_world s) ++ answer.
Proof.
  intros Hq Hc Hk. destruct s as [go st w]. cbn [acc] in Hq.
  destruct (handle_http_answers kernel c w Hc Hk) as [w' Hw].
  destruct (handle_http_inv kernel c w w' Hw) as (response & m' & Ha & ->).
  destruct (worker_round_serves (ISender0 := TCP_SendMsg kernel) moved (jobs st) c l w Hq)
    as (q' & Hq' & Hr).
  unfold handle_http in Hw. cbn [do_event accepting acc worker_world job_queue tcp_acceptor].
  unfold tcp_handler, tcp_closer in *. rewrite Hr, Hw. cbn [mbind outcome_bind].
  eexists _, _. split; [done|]. cbn. split_and!; [done| |done].
  by exists (w_manager w), response, m', kernel.
Qed.

Lemma do_events_served evs (s : tcp_server) l :
  holds 100 (jobs (acc s)) l → Forall event_ok evs → exchanges evs ≤ length l →
  Forall answerable (take (exchanges evs) l) → length l + accepts evs < 100 →
  ∃ s' answers new, do_events evs s = Ret ((), s') ∧
    holds 100 (jobs (acc s')) (drop (exchanges evs) l ++ new) ∧
    Forall2 http_answer (take (exchanges evs) l) answers ∧
    w_trace (worker_world s') = w_trace (worker_world s) ++ mjoin answers.
Proof.
  intros Hq Hev. revert s l Hq. induction Hev as [|ev evs Hev _ IH]; intros s l Hq He Ha Hl.
  { exists s, [], []. rewrite !app_nil_r. repeat split; auto. }
  destruct ev as [env|snd moved [|]]; cbn [exchanges accepts] in *.
  - destruct (do_accept env s l Hev Hq) as (s1 & new1 & H1 & Hn & Hq1 & Hw1); [lia|].
    destruct (IH s1 (l ++ new1) Hq1) as (s2 & answers & new & H2 & Hq2 & Hf & Ht).
    { rewrite length_app. lia. }
    { by rewrite take_app_le. }
    { rewrite length_app. lia. }
    exists s2, answers, (new1 ++ new). rewrite drop_app_le, take_app_le in * by lia.
    cbn [do_events]. rewrite (M_bind_run _ _ _ _ _ H1). split; [done|].
    rewrite (assoc_L (++)). split_and!; [done..|]. by rewrite Ht, Hw1.
  - destruct s as [go st w]. cbn [do_events]. erewrite M_bind_run.
    2: { cbn [do_event accepting acc worker_world job_queue tcp_acceptor].
         rewrite (worker_round_idle (ISender0 := snd) moved true _ l w Hq); [|by left]. done. }
    destruct (IH (mk_server go (acc_state (accept_locals st) (jobs st)) w) l) as (s' & answers & new & H); [done..|].
    by exists s', answers, new.
  - destruct l as [|c l]; cbn [length] in He; [lia|]. cbn [take drop] in *.
    apply Forall_cons in Ha as [Hc Ha]. destruct Hev as (kernel & -> & Hk).
    destruct (do_work kernel moved s c l Hq Hc Hk) as (s1 & answer & H1 & Hq1 & Hans & Ht1).
    destruct (IH s1 l Hq1) as (s2 & answers & new & H2 & Hq2 & Hf & Ht); [lia|done|cbn in Hl; lia|].
    exists s2, (answer :: answers), new. cbn [do_events]. rewrite (M_bind_run _ _ _ _ _ H1).
    split_and!; [done..|by constructor|]. rewrite Ht, Ht1. cbn. by rewrite (assoc_L (++)).
Qed.

(** Statements about the server of a file system. *)
Definition tcp_step : outcome tcp_server → list (label HTTPConnectionObject) → outcome tcp_server → Prop :=
  server_step tcp_sender.
Definition tcp_events (evs : list (@event world HTTPConnectionObject tcp_env)) :
    M tcp_server () := do_events evs.

Lemma tcp_reached Inv answers st w ls o :
  handling fs http_performs Inv answers → Inv (w_manager w) →
  holds 100 (jobs st) [] → runs tcp_step (Ret (tcp_start st w)) ls o →
  o = Terminate ∨ o = Undef ∨ ∃ s, o = Ret s ∧ served_history answers w ls s.
Proof.
  intros HI Hm Hq Hs. by apply (reached_history (Acceptor0 := tcp_acceptor) fs tcp_sender http_performs Inv answers st w ls o
    http_handler_performs HI Hm Hq Hs).
Qed.
End tcp.

(** ** The TLS server *)

Section tls.
Context (get_error : Z → Z → Z).

(** [wolfSSL_read] is asked for 4095 bytes and answers no more. *)
#[export] Instance tls_loop : Incoming tls_env HTTPSConnectionObject := {|
  incoming := tls_incoming get_error;
  incoming_env env := Forall (λ r, (read_ret r < 4096)%Z) (tls_reads env);
  incoming_delivers c :=
    https_client_fd c ≠ (-1)%Z ∧ length (https_request c) < 4096 ∧ NUL ∉ https_request c |}.

#[export] Instance tls_acceptor : Acceptor tls_env tls_state HTTPSConnectionObject := {|
  accept_round := tls_round get_error;
  accept_locals s := (tls_errno s, tls_client_fd s);
  job_queue := tls_jobs;
  acc_state l q := mk_tls l.1 l.2 q |}.

Lemma tls_read_loop_outcome (Q : read_result → Prop) ret rs :
  Forall Q rs → match (tls_read_loop get_error ret rs) with Ret r => Q r | NoFuel => True | _ => False end.
Proof. intros H. induction H as [|r rs Hr _ IH]; [done|]. cbn [tls_read_loop]. by case_decide. Qed.

#[export] Instance tls_loop_spec : IncomingSpec tls_env HTTPSConnectionObject.
Proof.
  split. intros env [errno fd] Henv. cbn [incoming incoming_env tls_loop] in *.
  unfold tls_incoming. destruct (tls_stop_requested env); [done|]. case_decide as Ha; [|done].
  pose proof (tls_read_loop_outcome _ (tls_accept_ret env) _ Henv) as Hr.
  destruct (tls_read_loop _ _ _) as [r| | | |]; cbn [mbind outcome_bind]; try done.
  case_decide; [done|]. set (text := take _ _).
  assert (Hlen : (Z.of_nat (length text) < 4096)%Z) by (unfold text; rewrite length_take; lia).
  unfold terminate_buffer. pose proof MAXBUFLEN_4096. rewrite decide_True by lia. split; [done|].
  destruct (c_string_spec text) as [H1 H2]. cbn. split_and!; [tauto|lia|done].
Qed.

#[export] Instance tls_acceptor_spec : AcceptorSpec tls_env tls_state HTTPSConnectionObject.
Proof.
  split; [apply _| |done]. intros env s. cbn [accept_round incoming accept_locals job_queue acc_state tls_loop tls_acceptor].
  unfold tls_round. by destruct (tls_incoming _ _ _) as [[[go [c|]] [e fd]]| | | |].
Qed.
End tls.

(** ** The server and its specification *)

(** C13: the server implements its specification.  However the rounds of the accept
    loop and of the workers interleave, a run of a server started with no job is a
    run of the specification with the same observations: the connections whose
    requests the accept loop reads off its sockets and those that the queue gives
    the workers.  In the specification a connection that is read waits in a FIFO
    queue while there is room, and the first that waits is the one a worker gets and
    handles; the connection that would fill the queue drops all that wait, and
    itself; an uncaught exception terminates, undefined behaviour of the handler
    stays.  So the connections that were read are taken in the order in which they
    were, none twice, and each has been taken, or dropped by an overflow, or waits.
    Both accept loops are instances. *)
Theorem server_refines_spec {W C Env St : Type} `{!IHandler W, !ICloser W C, !IConnectionObject C}
    `{!Incoming Env C, !Acceptor Env St C, !AcceptorSpec Env St C} (sender : ISender W C → Prop)
    (st : St) (w : W) (ls : list (label C)) (o : outcome server) :
  holds 100 (job_queue st) [] →
  runs (server_step sender) (Ret (mk_server true st w)) ls o →
  fifo_history ls ∧ Forall incoming_delivers (accepted_in ls) ∧
  ∃ a, runs (spec_step sender) (Ret (spec_start w)) ls a ∧ implements o a ∧
    match a with Ret a => sp_pending a = waiting [] ls | _ => True end.
Proof.
  intros Hq Hs. destruct (implements_runs sender st w ls o Hq Hs) as (a & Ha & Hi).
  destruct (spec_runs_ok sender w ls a Ha) as (Ht & Hd & Hp).
  split_and!; [by apply in_turn_fifo|done|]. by exists a.
Qed.

(** A connection is accepted on the descriptor 7 and served. *)
Definition example_events (fs : FS) : list (@event world HTTPConnectionObject tcp_env) :=
  [Accept (example_env [Received ($"GET /a.html HTTP/1.1" ++ CRLF ++ CRLF)]);
   Work (TCP_SendMsg (λ _, Took 30)) id false].

Definition example_server : tcp_server :=
  tcp_start (mk_tcp 0 (-1) example_jobs) (mk_world FileManager_new []).

Definition example_served : tcp_server :=
  (result (tcp_events example_fs (example_events example_fs) example_server) ((), example_server)).2.

Definition example_job : HTTPConnectionObject :=
  mk_HTTPConnection 7 ($"GET /a.html HTTP/1.1" ++ CRLF ++ CRLF).

Lemma example_served_reached :
  runs (tcp_step example_fs) (Ret example_server) [Accepted example_job; Taken example_job]
    (Ret example_served).
Proof.
  replace [Accepted example_job; Taken example_job]
    with (observe_all (IHandler0 := tcp_handler example_fs) (ICloser0 := tcp_closer)
      (IConnectionObject0 := http_object) (example_events example_fs) example_server)
    by (vm_compute; reflexivity).
  apply (do_events_runs _ (example_events example_fs)).
  - repeat constructor. by eexists.
  - vm_compute. reflexivity.
Qed.

Lemma server_refines_spec_witness :
  let ls := [Accepted example_job; Taken example_job] in
  fifo_history ls ∧ Forall incoming_delivers (accepted_in ls) ∧
  ∃ a, runs (spec_step (IHandler0 := tcp_handler example_fs) (ICloser0 := tcp_closer)
              (IConnectionObject0 := http_object) tcp_sender)
         (Ret (spec_start (mk_world FileManager_new []))) ls a ∧
    implements (Ret example_served) a ∧ match a with Ret a => sp_pending a = waiting [] ls | _ => True end.
Proof.
  intros ls.
  apply (server_refines_spec (IHandler0 := tcp_handler example_fs) (ICloser0 := tcp_closer)
    (IConnectionObject0 := http_object) tcp_sender (mk_tcp 0 (-1) example_jobs)
    (mk_world FileManager_new []) ls).
  - exact example_jobs_holds.
  - exact example_served_reached.
Defined.

(** C11: the history of the TCP server.  Take any run of it that is not terminated
    (or undefined), with the connections it has accepted, those whose request the
    accept loop has read, and those its workers have got from the queue.  They are
    got in the order of their acceptance and none twice; each of the others has
    been dropped by an overflow or is in the queue.  The bytes sent and the
    descriptors closed are exactly those for the connections got, one after the
    other: for each the beginning of the handler's response to its request, at most,
    and then one close.  A connection had a descriptor, and a request of at most
    4095 bytes without zeros.  One that is dropped is never closed. *)
Theorem tcp_server_history (fs : FS) (st : tcp_state) (w : world)
    (ls : list (label HTTPConnectionObject)) (o : outcome tcp_server) :
  holds 100 (jobs st) [] →
  runs (tcp_step fs) (Ret (tcp_start st w)) ls o →
  o = Terminate ∨ o = Undef ∨ ∃ s, o = Ret s ∧ served_history (http_answer fs) w ls s.
Proof. by apply (tcp_reached fs (λ _, True)); [apply handling_any|]. Qed.

Lemma tcp_server_history_witness :
  served_history (http_answer example_fs) (mk_world FileManager_new [])
    [Accepted example_job; Taken example_job] example_served.
Proof.
  pose proof example_served_reached as Hs. revert Hs. generalize example_served. intros x Hs.
  destruct (tcp_server_history example_fs (mk_tcp 0 (-1) example_jobs) (mk_world FileManager_new [])
    [Accepted example_job; Taken example_job] (Ret x)) as [|[|(s & [= <-] & H)]].
  - exact example_jobs_holds.
  - exact Hs.
  - discriminate.
  - discriminate.
  - exact H.
Defined.

(** C14: every connection is served in its turn.  Let a connection [c] wait behind
    those of [p], their requests and its own being such that the parser returns.
    Whatever the rounds [evs] do, once as many have taken a job as wait up to [c],
    [c] has been answered and closed, after those of [p]: provided that [recv]
    does not answer [EAGAIN] for ever, that no peer resets its connection, and
    that the connections accepted meanwhile do not fill the queue. *)
Theorem tcp_connection_served (fs : FS) (s : tcp_server) p c l evs :
  holds 100 (jobs (acc s)) (p ++ c :: l) →
  Forall answerable (p ++ [c]) → Forall event_ok evs →
  exchanges evs = S (length p) → length (p ++ c :: l) + accepts evs < 100 →
  ∃ s' answers answer new, tcp_events fs evs s = Ret ((), s') ∧
    Forall2 (http_answer fs) p answers ∧ http_answer fs c answer ∧
    w_trace (worker_world s') = w_trace (worker_world s) ++ mjoin answers ++ answer ∧
    holds 100 (jobs (acc s')) (l ++ new).
Proof.
  intros Hq Ha Hev He Hl. assert (Ht : take (exchanges evs) (p ++ c :: l) = p ++ [c]).
  { rewrite He, (cons_middle c p l), (assoc_L (++)). apply take_app_length'. rewrite length_app. cbn. lia. }
  assert (Hd : drop (exchanges evs) (p ++ c :: l) = l).
  { rewrite He, (cons_middle c p l), (assoc_L (++)). apply drop_app_length'. rewrite length_app. cbn. lia. }
  destruct (do_events_served fs evs s (p ++ c :: l)) as (s' & answers & new & H & Hh & Hf & Htr); [done..| | |done|].
  { rewrite He, length_app. cbn. lia. }
  { by rewrite Ht. }
  rewrite Ht in Hf. rewrite Hd in Hh.
  apply Forall2_app_inv_l in Hf as (an & an' & Hp & Hc & ->).
  apply Forall2_cons_inv_l in Hc as (answer & nil & Hc & ->%Forall2_nil_inv_l & ->).
  exists s', an, answer, new. split_and!; [done..| |done].
  rewrite Htr, join_app. cbn. by rewrite app_nil_r.
Qed.

(** A server with one job: a round that accepts a second connection, an attempt
    that fails spuriously, and one that does not. *)
Definition example_waiting : tcp_server :=
  tcp_start (mk_tcp 0 (-1) (result (add_task example_job example_jobs) ((), example_jobs)).2)
    (mk_world FileManager_new []).

Lemma example_waiting_holds : holds 100 (jobs (acc example_waiting)) [example_job].
Proof.
  destruct (add_task_run example_job example_jobs [] example_jobs_holds) as (q' & Hq & H); [cbn; lia|].
  unfold example_waiting, tcp_start. cbn [acc jobs]. by rewrite Hq.
Qed.

Lemma tcp_connection_served_witness :
  ∃ s' answers answer new,
    tcp_events example_fs
      [Accept (example_env [Received ($"GET")]); Work (TCP_SendMsg (λ _, Send_failed)) id true;
       Work (TCP_SendMsg (λ _, Took 30)) id false] example_waiting = Ret ((), s') ∧
    Forall2 (http_answer example_fs) [] answers ∧ http_answer example_fs example_job answer ∧
    w_trace (worker_world s') = [] ++ mjoin answers ++ answer ∧
    holds 100 (jobs (acc s')) ([] ++ new).
Proof.
  apply (tcp_connection_served example_fs example_waiting [] example_job []).
  - exact example_waiting_holds.
  - constructor; [|constructor]. eexists. vm_compute. reflexivity.
  - repeat constructor; try discriminate; by eexists.
  - reflexivity.
  - cbn. lia.
Defined.
