(* ===== verification/SystemTls.v ===== *)
(** * The TLS server at work

    The server of [include/simpleserv/server/tls_server.hpp] as an instance of
    [System]: its workers send through wolfSSL and take down the session of each
    connection ([include/simpleserv/request_processing/tls_connection.hpp]). *)

From stdpp Require Import relations.
From S2P Require Import Prelude Effects Expected Http StringParser FileSystem FileManager.
From S2P Require Import Parser Message HttpHandler LockFreeQueue Connections Servers History System.

(** The calls of [wolfSSL_write] for a response: [n + 1] of them, unless there is
    no session. *)
Definition tls_sent (n : nat) (ssl : option nat) (response : option str) : list io :=
  match response, ssl with
  | Some text, Some ssl => writes (S n) ssl text
  | _, _ => []
  end.

(** What [TLS_CloseConnection] does: the descriptor is closed before the session
    is shut down. *)
Definition tls_closed (c : HTTPSConnectionObject) : list io :=
  Io_close (https_client_fd c) ::
  match https_ssl c with Some ssl => [Io_ssl_shutdown ssl; Io_ssl_free ssl] | None => [] end.

Definition https_performs (c : HTTPSConnectionObject) (response : option str) (l : list io) : Prop :=
  ∃ n, l = tls_sent n (https_ssl c) response ++ tls_closed c.

Lemma TLS_SendMsg_inv errs c text w w' :
  TLS_SendMsg errs c text w = Ret ((), w') →
  ∃ n, w' = mk_world (w_manager w) (w_trace w ++ tls_sent n (https_ssl c) (Some text)).
Proof.
  unfold TLS_SendMsg. destruct (https_ssl c) as [ssl|].
  - rewrite TLS_send_loop_run. destruct (find_idx _ errs) as [n|]; [|done]. intros [= <-]. by exists n.
  - intros [= <-]. exists 0. cbn. rewrite app_nil_r. by destruct w.
Qed.

Lemma TLS_CloseConnection_run c w :
  TLS_CloseConnection c w = Ret ((), mk_world (w_manager w) (w_trace w ++ tls_closed c)).
Proof.
  unfold TLS_CloseConnection, tls_closed. rewrite (M_bind_run _ _ w () (mk_world (w_manager w)
    (w_trace w ++ [Io_close (https_client_fd c)]))) by done.
  destruct (https_ssl c) as [ssl|]; [|done].
  erewrite M_bind_run by done. unfold call, modify. cbn. by rewrite <- !(assoc_L (++)).
Qed.

Section tls.
Context (fs : FS) (get_error : Z → Z → Z).
#[local] Existing Instance https_object.
#[local] Instance tls_handler : IHandler world := http_handler fs.
#[local] Instance tls_closer : ICloser world HTTPSConnectionObject := TLS_CloseConnection.
#[local] Instance the_tls_loop : Incoming tls_env HTTPSConnectionObject := tls_loop get_error.
#[local] Instance the_tls_acceptor : Acceptor tls_env tls_state HTTPSConnectionObject :=
  tls_acceptor get_error.

(** Each call of [wolfSSL_get_error] is answered in some way. *)
Definition tls_sender (snd : ISender world HTTPSConnectionObject) : Prop :=
  ∃ errs, snd = TLS_SendMsg errs.

Definition tls_server : Type := @server world tls_state.
Definition tls_start (st : tls_state) (w : world) : tls_server := mk_server true st w.
Definition tls_step : outcome tls_server → list (label HTTPSConnectionObject) → outcome tls_server → Prop :=
  server_step tls_sender.
Definition tls_events (evs : list (@event world HTTPSConnectionObject tls_env)) :
    M tls_server () := do_events evs.

Lemma https_handler_performs : handler_performs fs tls_sender https_performs.
Proof.
  intros snd c w w' [errs ->] H. unfold handle_connection in H.
  apply M_bind_Ret_inv in H as (response & w1 & H1 & H).
  apply M_bind_Ret_inv in H as ([] & w2 & H2 & H).
  unfold CloseConnection, tls_closer in H. rewrite TLS_CloseConnection_run in H. injection H as <-.
  unfold handler_handle, history_handler, http_handler in H1.
  apply outcome_bind_Ret_inv in H1 as ([o m'] & Hh & [= <- <-]).
  exists o, m'. destruct o as [text|].
  - apply TLS_SendMsg_inv in H2 as (n & ->). exists (tls_sent n (https_ssl c) (Some text) ++ tls_closed c).
    split_and!; [done|by exists n|]. cbn. by rewrite (assoc_L (++)).
  - injection H2 as <-. exists (tls_closed c). split_and!; [done| |done]. exists 0. by destruct (https_ssl c).
Qed.

(** What is done for a connection. *)
Definition https_answer (c : HTTPSConnectionObject) (l : list io) : Prop :=
  ∃ m response m' n, handle fs (https_request c) m = Ret (response, m') ∧
    l = tls_sent n (https_ssl c) response ++ tls_closed c.

Lemma tls_handling_any : handling fs https_performs (λ _, True) https_answer.
Proof. intros c m response m' l _ H [n ->]. split; [done|]. by exists m, response, m', n. Qed.
End tls.

(** C12: the history of the TLS server.  Take any run of it that is not terminated
    (or undefined), with the connections it has accepted, those whose request the
    accept loop has read, and those its workers have got from the queue.  They are
    got in the order of their acceptance and none twice; each of the others has
    been dropped by an overflow or is in the queue.  The calls made are exactly
    those for the connections got, one after the other: the handler's response,
    whole, in every call of [wolfSSL_write]; the close of the descriptor; and only
    then the shutdown of the session that writes to it.  One that is dropped is
    never taken down. *)
Theorem tls_server_history (fs : FS) (get_error : Z → Z → Z) (st : tls_state) (w : world)
    (ls : list (label HTTPSConnectionObject)) (o : outcome tls_server) :
  holds 100 (tls_jobs st) [] →
  runs (tls_step fs get_error) (Ret (tls_start st w)) ls o →
  o = Terminate ∨ o = Undef ∨
  ∃ s, o = Ret s ∧
    served_history (Incoming0 := tls_loop get_error) (Acceptor0 := tls_acceptor get_error)
      (https_answer fs) w ls s ∧
    ∀ c l ssl, https_answer fs c l → https_ssl c = Some ssl →
      ∃ l1 l2, l = l1 ++ Io_close (https_client_fd c) :: l2 ∧ Io_ssl_shutdown ssl ∈ l2.
Proof.
  intros Hq Hs.
  destruct (reached_history (Incoming0 := tls_loop get_error) (Acceptor0 := tls_acceptor get_error) fs
    tls_sender https_performs (λ _, True) (https_answer fs) st w ls o
    (https_handler_performs fs) (tls_handling_any fs) I Hq Hs)
    as [?|[?|(s & ? & Hh)]]; [by left|by right; left|].
  right. right. exists s. split_and!; [done..|]. intros c l ssl (m & response & m' & n & _ & ->) Hssl.
  unfold tls_closed. rewrite Hssl. eexists _, _. split; [done|]. by left.
Qed.

(** A connection is accepted on the descriptor 7 with the session 1 and served; the
    first write is to be repeated. *)
Definition example_tls_jobs : LockFreeQueue HTTPSConnectionObject :=
  match LockFreeQueue_new 100 HTTPSConnectionObject_default with
  | Ret q => q | _ => mk_Queue [] 0 0 0 []
  end.

Lemma example_tls_jobs_holds : holds 100 example_tls_jobs [].
Proof.
  destruct (holds_new 100 HTTPSConnectionObject_default capacity_100) as (q & Hq & H).
  unfold example_tls_jobs. by rewrite Hq.
Qed.

Definition example_tls_request : str := $"GET /a.html HTTP/1.1" ++ CRLF ++ CRLF.

Definition example_tls_events : list (@event world HTTPSConnectionObject tls_env) :=
  [Accept (mk_tls_env false 7 id (Some 1) 1 [mk_read 24 example_tls_request 0]);
   Work (TLS_SendMsg [WOLFSSL_ERROR_WANT_WRITE; 0%Z]) id false].

Definition example_tls_server : tls_server :=
  tls_start (mk_tls 0 (-1) example_tls_jobs) (mk_world FileManager_new []).

Definition example_tls_served : tls_server :=
  (result (tls_events example_fs example_get_error example_tls_events example_tls_server)
    ((), example_tls_server)).2.

Definition example_tls_job : HTTPSConnectionObject := mk_HTTPSConnection 7 (Some 1) example_tls_request.

Lemma example_tls_served_reached :
  runs (tls_step example_fs example_get_error) (Ret example_tls_server)
    [Accepted example_tls_job; Taken example_tls_job] (Ret example_tls_served).
Proof.
  replace [Accepted example_tls_job; Taken example_tls_job]
    with (observe_all (IHandler0 := tls_handler example_fs) (ICloser0 := tls_closer)
      (IConnectionObject0 := https_object) (Incoming0 := tls_loop example_get_error)
      (Acceptor0 := tls_acceptor example_get_error) example_tls_events example_tls_server)
    by (vm_compute; reflexivity).
  apply (do_events_runs _ example_tls_events).
  - repeat constructor. by eexists.
  - vm_compute. reflexivity.
Qed.

Lemma tls_server_history_witness :
  served_history (Incoming0 := tls_loop example_get_error) (Acceptor0 := tls_acceptor example_get_error)
    (https_answer example_fs) (mk_world FileManager_new [])
    [Accepted example_tls_job; Taken example_tls_job] example_tls_served.
Proof.
  pose proof example_tls_served_reached as Hs. revert Hs. generalize example_tls_served. intros x Hs.
  destruct (tls_server_history example_fs example_get_error (mk_tls 0 (-1) example_tls_jobs)
    (mk_world FileManager_new []) [Accepted example_tls_job; Taken example_tls_job] (Ret x)) as [|[|(s & [= <-] & H & _)]].
  - exact example_tls_jobs_holds.
  - exact Hs.
  - discriminate.
  - discriminate.
  - exact H.
Defined.
