(* ===== verification/Overlap.v ===== *)
(** * A server whose threads overlap

    [System] lets the rounds of a server's threads interleave; here their parts do.
    The accept loop ([include/simpleserv/server/tcp_server.hpp], [tls_server.hpp])
    and the workers ([include/simpleserv/request_processing/connection_handler.hpp])
    share the job queue at the level of its atomic actions, and a worker that has
    taken a connection calls the handler, sends the response and closes in three
    steps, between which the other threads run.  The queue's memory is sequentially
    consistent ([WeakQueue] has its memory orders), and a call of the handler is one
    step ([Races] has the accesses inside it). *)

From stdpp Require Import relations.
From S2P Require Import Prelude Effects Expected Http StringParser FileSystem FileManager.
From S2P Require Import Parser Message HttpHandler LockFreeQueue QueueProgress Connections Servers System.
From S2P Require Import SystemTls.

Section overlap.
Context {W C Env : Type}.
Context `{!IHandler W, !ICloser W C, !IConnectionObject C, !Incoming Env C}.
Context (moved : C → C) (sender : ISender W C → Prop).

(** ** The server *)

(** What a worker is doing: it is in the queue, or has taken the [i]-th connection
    and is about to call the handler, to send what it answered, or to close. *)
Inductive duty : Type :=
  | Free
  | Handling (i : nat) (c : C)
  | Sending (i : nat) (c : C) (response : option str)
  | Closing (i : nat) (c : C).

(** The accept loop (whether it is running, [errno] and [client_fd]), the queue with
    the positions of the threads in it (thread 0 is the accept loop, thread [S k] the
    worker [k]), and the workers.  What the workers work on is beside it. *)
Record running : Type := mk_running {
  accepting : bool;
  locals : Z * Z;
  queue : @sys C;
  duties : list duty }.

Definition started (n : nat) (l : Z * Z) (q : @sys C) : running :=
  mk_running true l q (replicate n Free).

Inductive turn : Type :=
  | Loop (env : Env)
  | Worker (k : nat) (snd : ISender W C) (spurious : bool).

(** A turn of the accept loop: a round up to its first action on the queue, or the
    next action. *)
Definition loop_turn (env : Env) : M (running * W) () := λ '(s, w),
  match threads (queue s) !! 0 with
  | Some Idle =>
    if accepting s then
      '((go, task), l) ← incoming env (locals s);
      q ← match task with
          | Some c => step 100 moved 0 (StartPush c) (queue s)
          | None => Ret (queue s)
          end;
      Ret ((), (mk_running go l q (duties s), w))
    else Ret ((), (s, w))
  | _ =>
    q ← step 100 moved 0 (Go false) (queue s);
    Ret ((), (mk_running (accepting s) (locals s) q (duties s), w))
  end.

(** What a worker does next with its connection. *)
Definition serve (snd : ISender W C) (d : duty) : M W duty :=
  match d with
  | Free => mret Free
  | Handling i c => response ← handler_handle (conn_request c); mret (Sending i c response)
  | Sending i c response =>
    _ ← match response with Some text => SendMsg c text | None => mret () end;
    mret (Closing i c)
  | Closing i c => _ ← CloseConnection c; mret Free
  end.

(** Its next action on the queue: the first of another [pop], or the next of the
    one under way; the last gives it a connection. *)
Definition queue_action (spurious : bool) (p : @pc C) : @action C :=
  match p with Idle => StartPop | _ => Go spurious end.
Definition popped (p : @pc C) : duty :=
  match p with PopRead c i => Handling i c | _ => Free end.

Definition worker_turn (k : nat) (snd : ISender W C) (spurious : bool) : M (running * W) () :=
  λ '(s, w),
  match duties s !! k, threads (queue s) !! S k with
  | Some Free, Some p =>
    q ← step 100 moved (S k) (queue_action spurious p) (queue s);
    Ret ((), (mk_running (accepting s) (locals s) q (<[k := popped p]> (duties s)), w))
  | Some d, Some _ =>
    '(d, w) ← serve snd d w;
    Ret ((), (mk_running (accepting s) (locals s) (queue s) (<[k := d]> (duties s)), w))
  | _, _ => Ret ((), (s, w))
  end.

Definition take_turn (t : turn) : M (running * W) () :=
  match t with Loop env => loop_turn env | Worker k snd spurious => worker_turn k snd spurious end.

Fixpoint take_turns (ts : list turn) : M (running * W) () :=
  match ts with
  | [] => mret ()
  | t :: ts => _ ← take_turn t; take_turns ts
  end.

(** The turns that are considered: an accept round starts only while the push it may
    end in does not lap a worker. *)
Definition turn_ok (t : turn) (s : running) : Prop :=
  match t with
  | Loop env => incoming_env env ∧ (threads (queue s) !! 0 = Some Idle → may_push 100 (queue s))
  | Worker _ snd _ => sender snd
  end.

(** All threads are functions of [std::thread]s. *)
Inductive turn_step : outcome (running * W) → outcome (running * W) → Prop :=
  | step_turn t s w o :
      turn_ok t s → take_turn t (s, w) = o → o ≠ NoFuel → turn_step (Ret (s, w)) (noexcept (snd <$> o)).

(** The three steps of a worker are [handle_connection]. *)
Lemma serve_handles `{!ISender W C} i c w :
  (d ← serve _ (Handling i c); d ← serve _ d; serve _ d) w =
  (_ ← handle_connection c; mret Free) w.
Proof.
  unfold handle_connection, serve, mbind, M_bind. cbn.
  destruct (handler_handle _ w) as [[[text|] w1]| | | |]; cbn; try done.
  - destruct (SendMsg c text w1) as [[[] w2]| | | |]; cbn; try done.
Qed.
End overlap.

(** ** The threads in the queue *)

(** Where the accept loop can be, and a worker; the connection being queued. *)
Definition producing {C} (p : @pc C) : bool :=
  match p with Idle | PushLoaded _ _ _ | PushWritten _ _ | PushStored => true | _ => false end.
Definition consuming {C} (p : @pc C) : bool :=
  match p with Idle | PopLoaded _ _ | PopChecked _ _ | PopWon _ _ | PopRead _ _ => true | _ => false end.
Definition queueing {C} (p : @pc C) : option C :=
  match p with PushLoaded c _ _ | PushWritten c _ => Some c | _ => None end.

(** What an action adds to the history of the queue. *)
Definition new_pushed {C} (a : @action C) (p : @pc C) : list C :=
  match a, p with Go _, PushWritten c _ => [c] | _, _ => [] end.
Definition new_returned {C} (a : @action C) (p : @pc C) : list (nat * C) :=
  match a, p with Go _, PopRead c i => [(i, c)] | _, _ => [] end.

Section queue_steps.
Context {C : Type} (moved : C → C).

(** The cases of an action that returns. *)
Ltac act_cases H :=
  cbn [act] in H; repeat (apply outcome_bind_Ret_inv in H as ([? ?] & ? & H) ||
    (apply outcome_bind_Ret_inv in H as (? & ? & H)) || case_match || case_decide); simplify_eq/=.

Lemma act_history a (p : @pc C) s p' s' :
  act 100 moved a p s = Ret (p', s') →
  pushed s' = pushed s ++ new_pushed a p ∧ returned s' = returned s ++ new_returned a p.
Proof. intros H. destruct a as [x| |b], p; act_cases H; rewrite ?app_nil_r; done. Qed.

Lemma act_producing a (p : @pc C) s p' s' :
  act 100 moved a p s = Ret (p', s') → producing p = true → a ≠ StartPop →
  producing p' = true ∧ ∀ c, queueing p' = Some c → queueing p = Some c ∨ a = StartPush c.
Proof.
  intros H Hp Ha. destruct a as [x| |b], p; try done; act_cases H; (split; [done|]); intros c; cbn;
    naive_solver.
Qed.

Lemma act_consuming a (p : @pc C) s p' s' :
  act 100 moved a p s = Ret (p', s') → consuming p = true → (∀ c, a ≠ StartPush c) →
  consuming p' = true ∧ (new_returned a p ≠ [] → p' = Idle).
Proof.
  intros H Hp Ha. destruct a as [x| |b], p; try done; try (by destruct (Ha x)); act_cases H; by split.
Qed.

(** An action of thread [t], from its position. *)
Lemma step_effect t a (s s' : @sys C) p :
  step 100 moved t a s = Ret s' → threads s !! t = Some p →
  ∃ p' s1, act 100 moved a p s = Ret (p', s1) ∧ threads s' = <[t := p']> (threads s) ∧
    pushed s' = pushed s ++ new_pushed a p ∧ returned s' = returned s ++ new_returned a p.
Proof.
  intros H Ht. unfold step in H. rewrite Ht in H. apply outcome_bind_Ret_inv in H as ([p' s1] & Ha & [= <-]).
  destruct (act_history _ _ _ _ _ Ha) as [H1 H2]. exists p', s1.
  by rewrite (act_threads _ _ _ _ _ _ _ Ha).
Qed.
End queue_steps.

(** ** What the workers have done *)

(** The connection a worker has in hand. *)
Definition busy {C} (d : @duty C) : option (nat * C) :=
  match d with
  | Free => None | Handling i c | Sending i c _ | Closing i c => Some (i, c)
  end.

(** The calls among [log] that are marked [a]. *)
Section calls.
Context {A : Type} `{EqDecision A}.
Implicit Types (a : A) (log : list (A * io)).

Definition calls_for a log : list io := (filter (λ x, x.1 = a) log).*2.

Lemma calls_for_app a log log' : calls_for a (log ++ log') = calls_for a log ++ calls_for a log'.
Proof. unfold calls_for. by rewrite filter_app, fmap_app. Qed.

Lemma calls_for_own a (l : list io) : calls_for a (pair a <$> l) = l.
Proof.
  unfold calls_for. induction l as [|x l IH]; [done|]. cbn [fmap list_fmap].
  rewrite filter_cons_True by done. cbn. by rewrite IH.
Qed.

Lemma calls_for_other a b (l : list io) : a ≠ b → calls_for a (pair b <$> l) = [].
Proof.
  intros Hne. unfold calls_for. induction l as [|x l IH]; [done|]. cbn [fmap list_fmap].
  rewrite filter_cons_False by (cbn; congruence). exact IH.
Qed.

Lemma calls_for_none a log : a ∉ log.*1 → calls_for a log = [].
Proof.
  intros Hi. unfold calls_for. induction log as [|[b x] log IH]; [done|].
  cbn in Hi. apply not_elem_of_cons in Hi as [Hj Hi].
  rewrite filter_cons_False by (cbn; congruence). by apply IH.
Qed.

Lemma marked_snd a (l : list io) : (pair a <$> l).*2 = l.
Proof. induction l as [|x l IH]; [done|]. cbn. by f_equal. Qed.

Lemma marked_fst a b (l : list io) : b ∈ (pair a <$> l).*1 → b = a.
Proof. intros ([? ?] & -> & (? & [= <- <-] & _)%list_elem_of_fmap)%list_elem_of_fmap. done. Qed.
End calls.

Section overlapping.
Context (fs : FS) {C Env : Type}.
Context `{!ICloser world C, !IConnectionObject C, !Incoming Env C, !IncomingSpec Env C}.
Context (moved : C → C) (dflt : C) (sender : ISender world C → Prop).
(** How the calls for the [i]-th connection are marked. *)
Context {A : Type} `{!EqDecision A} (tag : nat → A) `{!Inj (=) (=) tag}.
(** What is true of the file manager. *)
Context (Inv : FileManager → Prop).
#[local] Instance overlapping_handler : IHandler world := http_handler fs.
Abbreviation running := (@running C).
Abbreviation duty := (@duty C).

(** What the sender and the closer do. *)
Context (sends : C → option str → list io → Prop) (closes : C → list io).

Record io_spec : Prop := {
  io_send snd c text w w' : sender snd → SendMsg (ISender := snd) c text w = Ret ((), w') →
    ∃ l, sends c (Some text) l ∧ w' = mk_world (w_manager w) (w_trace w ++ l);
  io_nothing c : sends c None [];
  io_closes c w : CloseConnection c w = Ret ((), mk_world (w_manager w) (w_trace w ++ closes c));
  io_manager c m response m' : Inv m → handle fs (conn_request c) m = Ret (response, m') → Inv m' }.

(** All that is done for a connection. *)
Definition answer (c : C) (l : list io) : Prop :=
  ∃ m response m' l1, Inv m ∧ handle fs (conn_request c) m = Ret (response, m') ∧
    sends c response l1 ∧ l = l1 ++ closes c.

(** What has been done of it. *)
Definition done_so_far (d : duty) (l : list io) : Prop :=
  match d with
  | Free => True
  | Handling _ _ => l = []
  | Sending _ c response => l = [] ∧ ∃ m m', Inv m ∧ handle fs (conn_request c) m = Ret (response, m')
  | Closing _ c => ∃ m response m', Inv m ∧ handle fs (conn_request c) m = Ret (response, m') ∧
      sends c response l
  end.

Lemma serve_does snd d i c w d' w' l :
  io_spec → sender snd → Inv (w_manager w) → busy d = Some (i, c) → serve snd d w = Ret (d', w') →
  done_so_far d l →
  ∃ l', w_trace w' = w_trace w ++ l' ∧ Inv (w_manager w') ∧
    (busy d' = Some (i, c) ∧ done_so_far d' (l ++ l') ∨ d' = Free ∧ answer c (l ++ l')).
Proof using.
  intros [S N L Keep] Hsnd Hi Hb H Hd.
  destruct d as [|j c0|j c0 response|j c0]; [done|..]; injection Hb as -> ->;
    cbn [serve] in H; cbn [done_so_far] in Hd.
  - apply M_bind_Ret_inv in H as (response & w1 & H1 & [= <- <-]).
    unfold handler_handle, overlapping_handler, http_handler in H1.
    apply outcome_bind_Ret_inv in H1 as ([o m'] & Hh & [= <- <-]).
    exists []. rewrite !app_nil_r. split_and!; [done|by eapply Keep|]. left. split; [done|].
    split; [done|]. by exists (w_manager w), m'.
  - destruct Hd as [-> (m & m' & Hm & Hh)]. apply M_bind_Ret_inv in H as ([] & w1 & H1 & [= <- <-]).
    destruct response as [text|].
    + destruct (S snd c text w w1 Hsnd H1) as (l' & Hl & ->). exists l'. split_and!; [done..|]. left.
      split; [done|]. by exists m, (Some text), m'.
    + injection H1 as <-. exists []. split_and!; [by rewrite app_nil_r|done|]. left. split; [done|].
      by exists m, None, m'.
  - destruct Hd as (m & response & m' & Hm & Hh & Hs). rewrite (M_bind_run _ _ _ _ _ (L c w)) in H.
    injection H as <- <-. exists (closes c). split_and!; [done..|]. right. split; [done|].
    by exists m, response, m', l.
Qed.

(** *** The invariant *)

(** What is true of the calls made so far, [log]. *)
Record calls_ok (q : @sys C) (ds : list duty) (log : list (A * io)) : Prop := {
  c_taken i : tag i ∈ log.*1 → i ∈ (returned q).*1;
  c_busy k d i c : ds !! k = Some d → busy d = Some (i, c) → done_so_far d (calls_for (tag i) log);
  c_done i c : (i, c) ∈ returned q → (∀ k d, ds !! k = Some d → busy d ≠ Some (i, c)) →
    answer c (calls_for (tag i) log) }.

Record overlap_ok (log : list (A * io)) (s : running) : Prop := {
  o_queue : inv 100 (queue s);
  o_length : length (threads (queue s)) = S (length (duties s));
  o_loop p : threads (queue s) !! 0 = Some p →
    producing p = true ∧ ∀ c, queueing p = Some c → incoming_delivers c;
  o_workers k p : threads (queue s) !! S k = Some p → consuming p = true;
  o_idle k d : duties s !! k = Some d → d = Free ∨ threads (queue s) !! S k = Some Idle;
  o_pushed : Forall incoming_delivers (pushed (queue s));
  o_busy k d i c : duties s !! k = Some d → busy d = Some (i, c) → (i, c) ∈ returned (queue s);
  o_one k k' d d' i c c' : duties s !! k = Some d → duties s !! k' = Some d' →
    busy d = Some (i, c) → busy d' = Some (i, c') → k = k';
  o_calls : calls_ok (queue s) (duties s) log }.

(** Calls with a mark of something else do not matter. *)
Lemma overlap_foreign log s a l :
  (∀ i, tag i ≠ a) → overlap_ok log s → overlap_ok (log ++ (pair a <$> l)) s.
Proof using.
  intros Ha O. destruct O as [? ? ? ? ? ? ? ? [T1 T2 T3]]. split; try done.
  split.
  - intros i. rewrite fmap_app, elem_of_app. intros [Hi|Hi%marked_fst]; [by apply T1|by destruct (Ha i)].
  - intros k d i c Hk Hd. rewrite calls_for_app, calls_for_other, app_nil_r by done. by eapply T2.
  - intros i c Hi Hf. rewrite calls_for_app, calls_for_other, app_nil_r by done. by apply T3.
Qed.

(** An action of the accept loop keeps it. *)
Lemma loop_action_ok log go l a (s : running) p q :
  overlap_ok log s → threads (queue s) !! 0 = Some p → a ≠ StartPop →
  (∀ c, a = StartPush c → incoming_delivers c) → inv 100 q →
  step 100 moved 0 a (queue s) = Ret q → overlap_ok log (mk_running go l q (duties s)).
Proof using.
  intros O Ht Ha Hdel Hinv H. destruct (step_effect moved 0 a _ _ p H Ht) as (p' & s1 & Hact & Hth & Hps & Hrs).
  destruct (o_loop _ _ O p Ht) as [Hp Hq]. destruct (act_producing _ _ _ _ _ _ Hact Hp Ha) as [Hp' Hq'].
  assert (Hnew : new_returned a p = []) by (destruct a, p; done). rewrite Hnew, app_nil_r in Hrs.
  assert (Hlt : 0 < length (threads (queue s))) by by eapply lookup_lt_Some.
  split; cbn [queue duties]; rewrite ?Hth, ?Hrs; try apply O; try done.
  - by rewrite length_insert, (o_length _ _ O).
  - intros p1. rewrite list_lookup_insert_eq by done. intros [= <-]. split; [done|].
    intros c [Hc|Hc]%Hq'; [by apply Hq|by apply Hdel].
  - intros k p1. rewrite list_lookup_insert_ne by done. apply O.
  - intros k d Hd. rewrite list_lookup_insert_ne by done. by apply O.
  - rewrite Hps. apply Forall_app. split; [apply O|].
    destruct a, p; cbn; try constructor; [|constructor]. by apply Hq.
  - destruct (o_calls _ _ O) as [T1 T2 T3]. split; rewrite ?Hrs; done.
Qed.

Lemma loop_turn_ok log env (s : running) (w : world) :
  overlap_ok log s → turn_ok sender (Loop env) s → loop_turn moved env (s, w) ≠ NoFuel →
  ∃ s', loop_turn moved env (s, w) = Ret ((), (s', w)) ∧ overlap_ok log s'.
Proof using All.
  intros O [Henv Hmay] Hn. unfold loop_turn in *.
  destruct (lookup_lt_is_Some_2 (threads (queue s)) 0) as [p Hp]; [rewrite (o_length _ _ O); lia|].
  assert (Hgo : ∃ s', (q ← step 100 moved 0 (Go false) (queue s);
      Ret ((), (mk_running (accepting s) (locals s) q (duties s), w))) = Ret ((), (s', w)) ∧ overlap_ok log s').
  { destruct (inv_step 100 moved capacity_100 0 (Go false) (queue s) (o_queue _ _ O) I) as (q & Hq & Iq).
    rewrite Hq. eexists. split; [done|]. by apply (loop_action_ok log _ _ (Go false) s p). }
  rewrite Hp in *. destruct p; try exact Hgo. destruct (accepting s); [|by exists s].
  pose proof (incoming_ok env (locals s) Henv) as Hi.
  destruct (incoming env (locals s)) as [[[go [c|]] l]| | | |]; try done; cbn [mbind outcome_bind] in *.
  - destruct Hi as [-> Hdel].
    destruct (inv_step 100 moved capacity_100 0 (StartPush c) (queue s) (o_queue _ _ O) (Hmay eq_refl)) as (q & Hq & Iq).
    rewrite Hq. eexists. split; [done|].
    apply (loop_action_ok log _ _ (StartPush c) s Idle); try done. by intros ? [= <-].
  - eexists. split; [done|]. destruct O. by split.
Qed.

(** An action of a worker in the queue. *)
Lemma new_popped b (p : @pc C) :
  new_returned (queue_action b p) p = match busy (popped p) with Some ic => [ic] | None => [] end.
Proof using. by destruct p. Qed.

(** A duty that changes from or to [Free], or stays with its connection. *)
Lemma busy_insert (ds : list duty) k d0 d j dj i c :
  ds !! k = Some d0 → <[k := d]> ds !! j = Some dj → busy dj = Some (i, c) →
  j = k ∧ dj = d ∨ j ≠ k ∧ ds !! j = Some dj.
Proof using. intros H0 [(-> & -> & _)|[? ?]]%list_lookup_insert_Some _; [by left|right]. by split. Qed.

Lemma worker_action_ok log k b (s : running) p q :
  overlap_ok log s → duties s !! k = Some Free → threads (queue s) !! S k = Some p →
  step 100 moved (S k) (queue_action b p) (queue s) = Ret q → inv 100 q →
  overlap_ok log (mk_running (accepting s) (locals s) q (<[k := popped p]> (duties s))).
Proof using.
  intros O Hk Ht H Hinv.
  destruct (step_effect moved (S k) _ _ _ p H Ht) as (p' & s1 & Hact & Hth & Hps & Hrs).
  destruct (act_consuming _ _ _ _ _ _ Hact (o_workers _ _ O k p Ht)) as [Hp' Hidle].
  { intros c. by destruct p. }
  rewrite new_popped in *. pose proof (lookup_lt_Some _ _ _ Hk) as Hlt.
  pose proof (o_workers _ _ O k p Ht) as Hp.
  assert (Hps' : pushed q = pushed (queue s)).
  { rewrite Hps. destruct p; try done; apply app_nil_r. }
  assert (Hfresh : ∀ i c, busy (popped p) = Some (i, c) → i ∉ (returned (queue s)).*1).
  { intros i c E. destruct (o_queue _ _ O) as [pend I]. destruct p; try done. injection E as <- <-.
    by apply (r_own _ _ _ _ (i_returned _ _ _ I) (S k) _ Ht). }
  assert (Hret : ∀ i c, (i, c) ∈ returned q ↔ (i, c) ∈ returned (queue s) ∨ busy (popped p) = Some (i, c)).
  { intros i c. rewrite Hrs, elem_of_app. destruct (busy (popped p)) as [ic|].
    - rewrite list_elem_of_singleton. naive_solver.
    - rewrite elem_of_nil. naive_solver. }
  split; cbn [queue duties].
  - done.
  - rewrite Hth, !length_insert. apply O.
  - intros p1. rewrite Hth, list_lookup_insert_ne by done. apply O.
  - intros j p1. rewrite Hth. intros [([= <-] & -> & _)|[_ Hj]]%list_lookup_insert_Some; [done|by eapply O].
  - intros j d. rewrite Hth. intros [(<- & <- & _)|[Hne Hj]]%list_lookup_insert_Some.
    + destruct p; try (by left). right. rewrite list_lookup_insert_eq by (rewrite (o_length _ _ O); lia).
      by rewrite Hidle.
    + rewrite list_lookup_insert_ne by congruence. by apply O.
  - rewrite Hps'. apply O.
  - intros j d i c Hj Hd. apply Hret.
    destruct (busy_insert _ _ _ _ _ _ _ _ Hk Hj Hd) as [[-> ->]|[_ Hj']]; [by right|left]. by eapply O.
  - intros j j' d d' i c c' Hj Hj' Hd Hd'.
    destruct (busy_insert _ _ _ _ _ _ _ _ Hk Hj Hd) as [[-> ->]|[_ H1]],
      (busy_insert _ _ _ _ _ _ _ _ Hk Hj' Hd') as [[-> ->]|[_ H2]]; [done|..].
    + destruct (Hfresh i c Hd). apply list_elem_of_fmap. exists (i, c'). split; [done|]. by eapply (o_busy _ _ O).
    + destruct (Hfresh i c' Hd'). apply list_elem_of_fmap. exists (i, c). split; [done|]. by eapply (o_busy _ _ O).
    + by eapply (o_one _ _ O).
  - destruct (o_calls _ _ O) as [T1 T2 T3]. split.
    + intros i Hi. rewrite Hrs, fmap_app, elem_of_app. left. by apply T1.
    + intros j d i c Hj Hd.
      destruct (busy_insert _ _ _ _ _ _ _ _ Hk Hj Hd) as [[-> ->]|[_ Hj']]; [|by eapply T2].
      rewrite calls_for_none by (intros Hi; by apply (Hfresh i c Hd), T1). by destruct p.
    + intros i c [Hi|Hi]%Hret Hfree.
      * apply T3; [done|]. intros j d Hj. destruct (decide (j = k)) as [->|Hne].
        { rewrite Hk in Hj. by injection Hj as <-. }
        apply (Hfree j). by rewrite list_lookup_insert_ne.
      * destruct (Hfree k (popped p)); [by apply list_lookup_insert_eq|done].
Qed.

(** A number is that of one connection. *)
Lemma returned_once log (s : running) i c c' :
  overlap_ok log s → (i, c) ∈ returned (queue s) → (i, c') ∈ returned (queue s) → c = c'.
Proof using.
  intros O H1 H2. destruct (o_queue _ _ O) as [pend I]. pose proof (i_returned _ _ _ I) as R.
  destruct (r_value _ _ _ _ R _ _ H1) as [_ E1], (r_value _ _ _ _ R _ _ H2) as [_ E2]. congruence.
Qed.

(** A step with the connection in hand. *)
Lemma worker_serve_ok log k d snd (s : running) (w : world) d' w' :
  io_spec → sender snd → Inv (w_manager w) → overlap_ok log s → duties s !! k = Some d → d ≠ Free →
  serve snd d w = Ret (d', w') →
  ∃ i l, Inv (w_manager w') ∧ w_trace w' = w_trace w ++ l ∧
    overlap_ok (log ++ (pair (tag i) <$> l))
      (mk_running (accepting s) (locals s) (queue s) (<[k := d']> (duties s))).
Proof using Inj0.
  intros IO Hsnd Hm O Hk Hne H. destruct (o_calls _ _ O) as [T1 T2 T3].
  assert (∃ i c, busy d = Some (i, c)) as (i & c & Hd) by (destruct d; by eauto).
  destruct (serve_does snd d i c _ _ _ _ IO Hsnd Hm Hd H (T2 k d i c Hk Hd)) as (l & Hl & Hm' & Hor).
  pose proof (o_busy _ _ O k d i c Hk Hd) as Hin. pose proof (lookup_lt_Some _ _ _ Hk) as Hlt.
  assert (Hb : ∀ j c', busy d' = Some (j, c') → j = i ∧ c' = c).
  { intros j c' E. destruct Hor as [[E' _]|[-> _]]; [|done]. rewrite E in E'. by injection E'. }
  exists i, l. split_and!; [done..|]. split; cbn [queue duties]; try apply O.
  - rewrite length_insert. apply O.
  - intros j d1 [(<- & <- & _)|[_ Hj]]%list_lookup_insert_Some; [|by apply O].
    right. by destruct (o_idle _ _ O k d Hk) as [->|].
  - intros j d1 j' c' Hj Hd1. destruct (busy_insert _ _ _ _ _ _ _ _ Hk Hj Hd1) as [[-> ->]|[_ Hj']]; [|by eapply O].
    by apply Hb in Hd1 as [-> ->].
  - intros j j' d1 d2 i' c1 c2 Hj Hj' Hd1 Hd2.
    destruct (busy_insert _ _ _ _ _ _ _ _ Hk Hj Hd1) as [[-> ->]|[_ H1]],
      (busy_insert _ _ _ _ _ _ _ _ Hk Hj' Hd2) as [[-> ->]|[_ H2]]; [done|..].
    + apply Hb in Hd1 as [-> ->]. by eapply (o_one _ _ O).
    + apply Hb in Hd2 as [-> ->]. by eapply (o_one _ _ O).
    + by eapply (o_one _ _ O).
  - split.
    + intros j. rewrite fmap_app, elem_of_app. intros [Hj|Hj%marked_fst%(inj tag)]; [by apply T1|].
      subst j. apply list_elem_of_fmap. by exists (i, c).
    + intros j d1 i' c' Hj Hd1. rewrite calls_for_app.
      destruct (busy_insert _ _ _ _ _ _ _ _ Hk Hj Hd1) as [[-> ->]|[Hjk Hj']].
      * destruct (Hb _ _ Hd1) as [-> ->]. rewrite calls_for_own. by destruct Hor as [[_ ?]|[-> _]].
      * rewrite calls_for_other, app_nil_r; [by eapply T2|].
        intros ->%(inj tag). destruct Hjk. by eapply (o_one _ _ O).
    + intros i' c' Hi' Hfree. rewrite calls_for_app. destruct (decide (i' = i)) as [->|Hne'].
      * rewrite calls_for_own. assert (c' = c) as -> by by eapply (returned_once log s).
        destruct Hor as [[E _]|[_ Ha]]; [|done].
        destruct (Hfree k d'); [by apply list_lookup_insert_eq|done].
      * rewrite calls_for_other, app_nil_r by (by intros ?%(inj tag)). apply T3; [done|]. intros j d1 Hj Hd1.
        destruct (decide (j = k)) as [->|Hjk]; [|by apply (Hfree j d1); [rewrite list_lookup_insert_ne|]].
        congruence.
Qed.
(** The process ends because of a connection: the handler throws or is undefined on
    its request, or a call made for it ends the process. *)
Definition fails {B} (s : running) (w : world) (o : outcome B) : Prop :=
  ∃ k d snd, duties s !! k = Some d ∧ d ≠ Free ∧ sender snd ∧
    match serve snd d w with
    | Ret _ | NoFuel => False
    | Throw _ | Terminate => o = Terminate
    | Undef => o = Undef
    end.

Lemma fails_impl {B B'} s w (o : outcome B) (o' : outcome B') :
  fails s w o → (o = Terminate → o' = Terminate) → (o = Undef → o' = Undef) → fails s w o'.
Proof using.
  intros (k & d & snd & Hk & Hd & Hs & Hf) Ht Hu. exists k, d, snd. split_and!; [done..|].
  destruct (serve snd d w); auto.
Qed.

(** What a turn leaves: the calls it makes, [l], are for one connection. *)
Definition turned (log : list (A * io)) (w : world) (r : outcome (() * (running * world))) : Prop :=
  ∃ s' w' i l, r = Ret ((), (s', w')) ∧ Inv (w_manager w') ∧ w_trace w' = w_trace w ++ l ∧
    overlap_ok (log ++ (pair (tag i) <$> l)) s'.

Lemma turned_quiet log s w : Inv (w_manager w) → overlap_ok log s → turned log w (Ret ((), (s, w))).
Proof using. intros Hm O. exists s, w, 0, []. cbn. by rewrite !app_nil_r. Qed.

Lemma worker_turn_ok log k snd b (s : running) (w : world) :
  io_spec → Inv (w_manager w) → overlap_ok log s → sender snd → worker_turn moved k snd b (s, w) ≠ NoFuel →
  turned log w (worker_turn moved k snd b (s, w)) ∨
  fails s w (noexcept (Datatypes.snd <$> worker_turn moved k snd b (s, w))).
Proof using Inj0.
  intros IO Hm O Hsnd Hn. unfold worker_turn in *.
  destruct (duties s !! k) as [d|] eqn:Hk; [|left; by apply turned_quiet].
  destruct (lookup_lt_is_Some_2 (threads (queue s)) (S k)) as [p Hp].
  { rewrite (o_length _ _ O). apply lookup_lt_Some in Hk. lia. }
  rewrite Hp in *. assert (Hd : d = Free ∨ d ≠ Free) by (destruct d; auto). destruct Hd as [->|Hne].
  - destruct (inv_step 100 moved capacity_100 (S k) (queue_action b p) (queue s) (o_queue _ _ O)) as (q & Hq & Iq).
    { pose proof (o_workers _ _ O k p Hp). by destruct p. }
    rewrite Hq. left. apply turned_quiet; [done|]. by apply (worker_action_ok log k b s p q).
  - set (r := '(d, w) ← serve snd d w;
      Ret ((), (mk_running (accepting s) (locals s) (queue s) (<[k := d]> (duties s)), w))).
    assert (Hr : r ≠ NoFuel → turned log w r ∨ fails s w (noexcept (Datatypes.snd <$> r))).
    { unfold r. intros Hr. destruct (serve snd d w) as [[d' w']|e| | |] eqn:H; [left|right..|done].
      - destruct (worker_serve_ok log k d snd s w d' w' IO Hsnd Hm O Hk Hne H) as (i & l & ? & ? & ?).
        by eexists _, _, i, l.
      - exists k, d, snd. by rewrite H.
      - exists k, d, snd. by rewrite H.
      - exists k, d, snd. by rewrite H. }
    destruct d; try done; by apply Hr.
Qed.

Lemma take_turn_ok log t (s : running) (w : world) :
  io_spec → Inv (w_manager w) → overlap_ok log s → turn_ok sender t s → take_turn moved t (s, w) ≠ NoFuel →
  turned log w (take_turn moved t (s, w)) ∨ fails s w (noexcept (Datatypes.snd <$> take_turn moved t (s, w))).
Proof using All.
  intros IO Hm O Hok Hn. destruct t as [env|k snd b]; cbn [take_turn] in *.
  - left. destruct (loop_turn_ok log env s w O Hok Hn) as (s' & -> & O'). by apply turned_quiet.
  - by apply worker_turn_ok.
Qed.

Lemma overlap_start n l q : start 100 dflt (S n) = Ret q → overlap_ok [] (started n l q).
Proof using.
  intros Hq. destruct (inv_start 100 dflt capacity_100 (S n)) as (q' & Hq' & Iq).
  rewrite Hq in Hq'. injection Hq' as <-. unfold start in Hq.
  apply outcome_bind_Ret_inv in Hq as (lq & _ & [= <-]).
  split; cbn; try done.
  - by rewrite !length_replicate.
  - by intros p [= <-].
  - by intros k p [-> _]%lookup_replicate_1.
  - intros k d [-> _]%lookup_replicate_1. by left.
  - by intros k d i c [-> _]%lookup_replicate_1.
  - by intros k k' d d' i c c' [-> _]%lookup_replicate_1.
  - split; [by intros i Hi%elem_of_nil| |by intros i c Hi%elem_of_nil].
    by intros k d i c [-> _]%lookup_replicate_1.
Qed.

(** Until 99 connections have been accepted, the next can be. *)
Lemma first_turns_ok log env (s : running) :
  overlap_ok log s → incoming_env env → length (pushed (queue s)) < 99 → turn_ok sender (Loop env) s.
Proof using.
  intros O Henv Hl. split; [done|]. intros H0. split; [|lia]. apply Forall_lookup. intros [|k] p Hp.
  - rewrite H0 in Hp. by injection Hp as <-.
  - pose proof (o_workers _ _ O k p Hp). split; [by destruct p|]. destruct (lap p); [lia|done].
Qed.

(** ** What has been served *)

(** The connections accepted are numbered in the order of their acceptance.  Those
    taken are some of them, each taken once.  A call marked as made for the [i]-th
    connection is for one that was taken; the calls for a connection are the whole
    of its answer, or the beginning of it by the worker that has it in hand.  When
    no thread is in the queue, none is missing of those that have left it. *)
Definition served_overlapping (s : running) (log : list (A * io)) : Prop :=
  Forall incoming_delivers (pushed (queue s)) ∧
  NoDup (returned (queue s)).*1 ∧
  (∀ i, tag i ∈ log.*1 → i ∈ (returned (queue s)).*1) ∧
  (∀ i c, (i, c) ∈ returned (queue s) → pushed (queue s) !! i = Some c ∧
     (answer c (calls_for (tag i) log) ∨
      ∃ k d, duties s !! k = Some d ∧ busy d = Some (i, c) ∧ done_so_far d (calls_for (tag i) log))) ∧
  (Forall (.= Idle) (threads (queue s)) → (returned (queue s)).*1 ≡ₚ seq 0 (taken (queue s))).

Lemma overlap_served log (s : running) : overlap_ok log s → served_overlapping s log.
Proof using.
  intros O. destruct (o_calls _ _ O) as [T1 T2 T3], (o_queue _ _ O) as [pend I].
  destruct (inv_delivers _ _ _ I) as (D1 & D2 & D3). split_and!; try done; [apply O|].
  intros i c Hi. split; [by apply D1|].
  destruct (decide (Exists (λ d, fst <$> busy d = Some i) (duties s)))
    as [(d & [k Hk]%list_elem_of_lookup & Hd)%Exists_exists|Hno].
  - right. destruct (busy d) as [[i' c']|] eqn:E; [|done]. injection Hd as ->.
    assert (c' = c) as -> by by eapply (returned_once log s); [done|eapply (o_busy _ _ O)|].
    exists k, d. split_and!; [done..|by eapply T2].
  - left. apply T3; [done|]. intros k d Hk Hd. apply Hno, Exists_exists. exists d.
    split; [by eapply list_elem_of_lookup_2|by rewrite Hd].
Qed.

(** A state of a server alone, with the calls made since [w]. *)
Definition reached_ok (w : world) (o : outcome (running * world)) : Prop :=
  ∃ s w' log, o = Ret (s, w') ∧ Inv (w_manager w') ∧ w_trace w' = w_trace w ++ log.*2 ∧ overlap_ok log s.

Lemma overlap_reached n l w q o :
  io_spec → Inv (w_manager w) → start 100 dflt (S n) = Ret q →
  rtc (turn_step moved sender) (Ret (started n l q, w)) o →
  reached_ok w o ∨
  ∃ s w', rtc (turn_step moved sender) (Ret (started n l q, w)) (Ret (s, w')) ∧
    reached_ok w (Ret (s, w')) ∧ fails s w' o.
Proof using All.
  intros IO Hm Hq. pose proof (overlap_start n l q Hq) as O. clear Hq. revert o. apply rtc_ind_r.
  { left. exists (started n l q), w, []. cbn. by rewrite app_nil_r. }
  intros o1 o2 Hs Hstep [Hr|(s & w' & _ & _ & k & d & snd & _ & _ & _ & Hf)].
  - inversion Hstep as [t s1 w1 o' Hok Ht Hn]; subst. pose proof Hr as (s & w' & log & [= <- <-] & Hm1 & Htr & O1).
    destruct (take_turn_ok log t s1 w1 IO Hm1 O1 Hok Hn) as [(s' & w' & i & l' & -> & Hm' & Ht & O')|Hf].
    + left. exists s', w', (log ++ (pair (tag i) <$> l')). split_and!; [done..| |done].
      by rewrite Ht, Htr, fmap_app, marked_snd, (assoc_L (++)).
    + right. exists s1, w1. exact (conj Hs (conj Hr Hf)).
  - inversion Hstep; subst. by destruct (serve snd d _).
Qed.
End overlapping.

(** Schedules, run. *)
Section schedules.
Context {C Env : Type} `{!IHandler world, !ICloser world C, !IConnectionObject C, !Incoming Env C}.
Context (moved : C → C) (sender : ISender world C → Prop).

(** A push that may start has room. *)
Definition roomy (t : @turn world C Env) (s : @running C) : bool :=
  match t, threads (queue s) !! 0 with
  | Loop _, Some Idle => bool_decide (may_push 100 (queue s))
  | _, _ => true
  end.

Lemma roomy_ok t (s : @running C) :
  match t with Loop env => incoming_env env | Worker _ snd _ => sender snd end →
  roomy t s = true → turn_ok sender t s.
Proof.
  destruct t as [env|]; [|done]. cbn. intros Henv Hm. split; [done|]. intros H0. rewrite H0 in Hm.
  by apply bool_decide_eq_true in Hm.
Qed.

(** Every turn returns, and every push has room. *)
Fixpoint orderly (ts : list turn) (s : running * world) : bool :=
  match ts with
  | [] => true
  | t :: ts =>
    roomy t s.1 && match take_turn moved t s with Ret (_, s) => orderly ts s | _ => false end
  end.

Lemma orderly_steps ts (s s' : running * world) :
  Forall (λ t, match t with Loop env => incoming_env env | Worker _ snd _ => sender snd end) ts →
  orderly ts s = true → take_turns moved ts s = Ret ((), s') →
  rtc (turn_step moved sender) (Ret s) (Ret s').
Proof.
  intros Hts. revert s. induction Hts as [|t ts Ht _ IH]; intros [s w]; cbn [orderly take_turns].
  { by intros _ [= <-]. }
  intros [Hm Hs]%andb_true_iff ([] & [s1 w1] & H1 & H)%M_bind_Ret_inv. rewrite H1 in Hs.
  apply (rtc_l _ _ (Ret (s1, w1))); [|by apply IH].
  pose proof (step_turn moved sender t s w _ (roomy_ok t s Ht Hm) H1) as Hstep. cbn in Hstep. by apply Hstep.
Qed.
End schedules.

(** ** The TCP and the TLS server *)

Definition tcp_sends (c : HTTPConnectionObject) (response : option str) (l : list io) : Prop :=
  ∃ kernel, l = sent kernel (http_client_fd c) response.
Definition tcp_closes (c : HTTPConnectionObject) : list io := [Io_close (http_client_fd c)].

Definition tls_sends (c : HTTPSConnectionObject) (response : option str) (l : list io) : Prop :=
  ∃ n, l = tls_sent n (https_ssl c) response.

#[local] Existing Instance http_object.
#[local] Existing Instance https_object.
#[local] Instance overlap_tcp_closer : ICloser world HTTPConnectionObject := TCP_CloseConnection.
#[local] Instance overlap_tls_closer : ICloser world HTTPSConnectionObject := TLS_CloseConnection.

Lemma tcp_io_spec fs (Inv : FileManager → Prop) :
  (∀ str_ m response m', Inv m → handle fs str_ m = Ret (response, m') → Inv m') →
  io_spec fs tcp_sender Inv tcp_sends tcp_closes.
Proof.
  intros Hi. split.
  - intros snd c text w w' [kernel ->] H. unfold SendMsg, TCP_SendMsg in H.
    exists (sent kernel (http_client_fd c) (Some text)). split; [by exists kernel|]. unfold sent.
    destruct (kernel text); try done; injection H as <-; [done|]. rewrite app_nil_r. by destruct w.
  - intros c. by exists (λ _, Send_failed).
  - done.
  - intros c. apply Hi.
Qed.

Lemma tls_io_spec fs (Inv : FileManager → Prop) :
  (∀ str_ m response m', Inv m → handle fs str_ m = Ret (response, m') → Inv m') →
  io_spec fs tls_sender Inv tls_sends tls_closed.
Proof.
  intros Hi. split.
  - intros snd c text w w' [errs ->] (n & ->)%TLS_SendMsg_inv. eexists. split; [by exists n|done].
  - intros c. exists 0. unfold tls_sent. by destruct (https_ssl c).
  - apply TLS_CloseConnection_run.
  - intros c. apply Hi.
Qed.

(** What is shown of a server alone, in a state reached from [w]. *)
Definition served_alone {C Env} `{!IConnectionObject C, !Incoming Env C} (fs : FS)
    (sends : C → option str → list io → Prop) (closes : C → list io)
    (w : world) (s : @running C) (w' : world) : Prop :=
  ∃ log, w_trace w' = w_trace w ++ log.*2 ∧ served_overlapping fs id (λ _, True) sends closes s log.

(** C10: the TCP server with all its threads at once.  The accept loop and any number
    [n] of workers take turns at the queue's atomic actions, at calling the handler,
    sending and closing.  In every state that is reached, as long as no push laps a
    worker, each connection taken from the queue is one that was accepted, and was
    taken once; the calls made are those for connections taken, each call for one
    of them; for every connection no worker has in hand they are the whole answer to
    its own request, in order: one response at most, then one close; for the others
    the beginning of it; and when no thread is in the queue, all that have left it
    have been taken.  If the process ends, then because the handler or the sender
    failed on a connection a worker had in hand.  For the first 99 connections there
    is always room. *)
Theorem overlapping_threads_serve (fs : FS) (moved : HTTPConnectionObject → HTTPConnectionObject)
    (n : nat) (l : Z * Z) (w : world) (q : @sys HTTPConnectionObject) (o : outcome (running * world)) :
  let s0 := (started n l q, w) in
  let step := turn_step (IHandler0 := http_handler fs) moved tcp_sender in
  let served := served_alone fs tcp_sends tcp_closes w in
  start 100 HTTPConnectionObject_default (S n) = Ret q → rtc step (Ret s0) o →
  (∃ s w', o = Ret (s, w') ∧ served s w' ∧
     ∀ env, length (pushed (queue s)) < 99 → turn_ok tcp_sender (Loop env) s) ∨
  ∃ s w', rtc step (Ret s0) (Ret (s, w')) ∧ served s w' ∧ fails fs tcp_sender s w' o.
Proof.
  intros s0 step served Hq Hs.
  destruct (overlap_reached fs moved HTTPConnectionObject_default tcp_sender id (λ _, True) tcp_sends tcp_closes
    n l w q o (tcp_io_spec fs _ (λ _ _ _ _ _ _, I)) I Hq Hs) as [(s & w' & log & Ho & _ & Ht & O)|(s & w' & Hs' & Hr & Hf)];
    clear Hq; [left|right]; exists s, w'.
  - split_and!; [done|exists log; split; [done|by apply overlap_served]|].
    intros env Hl. by eapply first_turns_ok.
  - split_and!; [done| |done]. destruct Hr as (s1 & w1 & log & [= <- <-] & _ & Ht & O). exists log.
    split; [done|by apply overlap_served].
Qed.

(** Two connections and two workers: both are taken before either is answered, and
    the second is answered and closed while the first waits to be closed. *)
Definition example_request (fd : Z) : turn (W := world) (Env := tcp_env) (C := HTTPConnectionObject) :=
  Loop (mk_tcp_env false fd id [Received ($"GET /a.html HTTP/1.1" ++ CRLF ++ CRLF)]).
Definition example_worker (k : nat) : turn (W := world) (Env := tcp_env) :=
  Worker k (TCP_SendMsg (λ _, Took 12)) false.

Definition example_turns : list turn :=
  replicate 4 (example_request 7) ++ replicate 4 (example_request 8) ++
  replicate 5 (example_worker 0) ++ replicate 5 (example_worker 1) ++
  [example_worker 0; example_worker 1; example_worker 1; example_worker 0; example_worker 1].

Definition example_sys : @sys HTTPConnectionObject :=
  result (start 100 HTTPConnectionObject_default 3) (mk_sys (mk_Queue [] 0 0 0 []) [] [] 0 []).

Definition example_overlapped : running * world :=
  (result (take_turns (IHandler0 := http_handler example_fs) id example_turns
     (started 2 (0, -1)%Z example_sys, mk_world FileManager_new []))
   ((), (started 0 (0, 0)%Z example_sys, mk_world FileManager_new []))).2.

Example example_overlapped_trace :
  (λ c, match c with Io_send fd _ => Some fd | Io_close fd => Some fd | _ => None end) <$>
    w_trace example_overlapped.2 = [Some 8; Some 7; Some 8]%Z.
Proof. vm_compute. reflexivity. Qed.

Lemma example_overlapped_reached :
  rtc (turn_step (IHandler0 := http_handler example_fs) id tcp_sender)
    (Ret (started 2 (0, -1)%Z example_sys, mk_world FileManager_new [])) (Ret example_overlapped).
Proof.
  apply (orderly_steps _ _ example_turns).
  - repeat (constructor; [done || by eexists|]). constructor.
  - vm_compute. reflexivity.
  - vm_compute. reflexivity.
Qed.

Lemma overlapping_threads_serve_witness :
  served_alone example_fs tcp_sends tcp_closes (mk_world FileManager_new [])
    example_overlapped.1 example_overlapped.2.
Proof.
  pose proof example_overlapped_reached as Hs. revert Hs. generalize example_overlapped. intros [x y] Hs.
  destruct (overlapping_threads_serve example_fs id 2 (0, -1)%Z (mk_world FileManager_new []) example_sys (Ret (x, y)))
    as [(s & w' & [= <- <-] & H & _)|(s & w' & _ & _ & k & d & snd & _ & _ & _ & H)].
  - vm_compute. reflexivity.
  - exact Hs.
  - exact H.
  - exfalso. destruct (serve snd d _); [destruct H|discriminate|discriminate|discriminate|destruct H].
Defined.

(** So does the TLS server. *)
Lemma overlapping_threads_serve_tls (fs : FS) get_error
    (moved : HTTPSConnectionObject → HTTPSConnectionObject) (dflt : HTTPSConnectionObject)
    (n : nat) (l : Z * Z) (w : world) (q : @sys HTTPSConnectionObject) (o : outcome (running * world)) :
  let s0 := (started n l q, w) in
  let step := turn_step (IHandler0 := http_handler fs) (Incoming0 := tls_loop get_error) moved tls_sender in
  let served := served_alone fs tls_sends tls_closed (Incoming0 := tls_loop get_error) w in
  start 100 dflt (S n) = Ret q → rtc step (Ret s0) o →
  (∃ s w', o = Ret (s, w') ∧ served s w') ∨
  ∃ s w', rtc step (Ret s0) (Ret (s, w')) ∧ served s w' ∧ fails fs tls_sender s w' o.
Proof.
  intros s0 step served Hq Hs.
  destruct (overlap_reached (Incoming0 := tls_loop get_error) fs moved dflt tls_sender id (λ _, True)
    tls_sends tls_closed n l w q o (tls_io_spec fs _ (λ _ _ _ _ _ _, I)) I Hq Hs)
    as [(s & w' & log & Ho & _ & Ht & O)|(s & w' & Hs' & Hr & Hf)]; clear Hq; [left|right]; exists s, w'.
  - split; [done|exists log; split; [done|by apply overlap_served]].
  - split_and!; [done| |done]. destruct Hr as (s1 & w1 & log & [= <- <-] & _ & Ht & O). exists log.
    split; [done|by apply overlap_served].
Qed.
