(* ===== verification/Races.v ===== *)
(** * Data races in the file manager

    The workers of a server call [get_file] of one file manager at the same time
    ([src/simpleserv/utility/file_manager.cpp]); the mutexes of the manager and of
    its cache are locked nowhere.  Here [get_file] is a sequence of accesses to the two
    hash tables, interleaved with those of other threads.  As the standard has
    it, [find], [end] and [size] read a container and [operator\[\]] of a hash table writes
    it; two threads race when their next accesses conflict. *)

From stdpp Require Import relations.
From S2P Require Import Prelude Effects Expected FileSystem FileManager.

(** ** Accesses *)

Inductive container : Type := File_cache | File_descriptors.
Inductive access_kind : Type := Reads | Writes.

#[export] Instance container_eq_dec : EqDecision container.
Proof. solve_decision. Defined.
#[export] Instance access_kind_eq_dec : EqDecision access_kind.
Proof. solve_decision. Defined.

Definition access : Type := container * access_kind.

(** Two accesses conflict if they are to one container and one of them writes. *)
Definition conflict (a b : access) : Prop := a.1 = b.1 ∧ (a.2 = Writes ∨ b.2 = Writes).

#[export] Instance conflict_dec a b : Decision (conflict a b) := _.

(** ** [get_file] in steps *)

Abbreviation answer := (expected HTTPFileData FileManagerException).

(** What a thread inside [get_file] is about to do. *)
Inductive call : Type :=
  | Find_cached (p : str)                        (** [file_cache.find(full_path)] *)
  | Find_described (p : str)                     (** [file_descriptors.find(full_path)] *)
  | Copy_descriptor (p : str)                    (** [file_descriptors\[full_path\]] *)
  | Store_cached (p : str) (data : HTTPFileData) (** [file_cache\[full_path\] = ...] *)
  | Load_cached (p : str)                        (** [... = file_cache\[full_path\]] *)
  | Returned (r : answer).

Definition next_access (c : call) : option access :=
  match c with
  | Find_cached _ => Some (File_cache, Reads)
  | Find_described _ => Some (File_descriptors, Reads)
  | Copy_descriptor _ => Some (File_descriptors, Writes)
  | Store_cached _ _ | Load_cached _ => Some (File_cache, Writes)
  | Returned _ => None
  end.

(** One access, and what the thread does up to the next, reading the file
    included. *)
Definition call_step (fs : FS) (c : call) : M FileManager call := λ m,
  match c with
  | Find_cached p =>
    Ret (match file_cache m !! p with None => Find_described p | Some _ => Load_cached p end, m)
  | Find_described p =>
    Ret (match file_descriptors (file_fetcher m) !! p with
         | None => Returned (Unexpected (mk_FileManagerException ($"File not found: " ++ p)))
         | Some _ => Copy_descriptor p
         end, m)
  | Copy_descriptor p =>
    match file_descriptors (file_fetcher m) !! p with
    | None => Undef   (* a default descriptor, with an indeterminate type *)
    | Some d =>
      let '(file_encoding, actual_path) := choose_encoding d in
      Ret (Store_cached p (mk_HTTPFileData (fd_filetype d) file_encoding (read_stream fs actual_path)), m)
    end
  | Store_cached p data =>
    Ret (Load_cached p,
         mk_Cache (file_fetcher m) (<[p := create_file_cache_entry p data]> (file_cache m)))
  | Load_cached p =>
    match file_cache m !! p with
    | None => Undef   (* the same *)
    | Some e => Ret (Returned (Expected (from_file_cache_entry e)), m)
    end
  | Returned r => Ret (Returned r, m)
  end.

(** A thread that runs alone. *)
Fixpoint call_run (fuel : nat) (fs : FS) (c : call) : M FileManager answer :=
  match c with
  | Returned r => mret r
  | _ => match fuel with
         | 0 => λ _, NoFuel
         | S fuel => c ← call_step fs c; call_run fuel fs c
         end
  end.

(** ** Threads *)

Record callers : Type := mk_callers { manager : FileManager; calls : list call }.

(** A thread takes its next step, or, having returned, calls [get_file] again. *)
Inductive callers_step (fs : FS) : callers → callers → Prop :=
  | step_call m m' cs i c c' :
      cs !! i = Some c → call_step fs c m = Ret (c', m') →
      callers_step fs (mk_callers m cs) (mk_callers m' (<[i := c']> cs))
  | step_again m cs i r p :
      cs !! i = Some (Returned r) →
      callers_step fs (mk_callers m cs) (mk_callers m (<[i := Find_cached p]> cs)).

Definition race (s : callers) : Prop :=
  ∃ i j c d a b, i ≠ j ∧ calls s !! i = Some c ∧ calls s !! j = Some d ∧
    next_access c = Some a ∧ next_access d = Some b ∧ conflict a b.

(** ** Theorems *)

Lemma call_run_returned fuel fs r m : call_run fuel fs (Returned r) m = Ret (r, m).
Proof. by destruct fuel. Qed.

Lemma call_run_step fuel fs c c' m m' :
  call_step fs c m = Ret (c', m') → call_run (S fuel) fs c m = call_run fuel fs c' m'.
Proof.
  intros H. destruct c; try (unfold call_run at 1; fold call_run; by rewrite (M_bind_run _ _ _ _ _ H)).
  cbn in H. injection H as <- <-. by rewrite !call_run_returned.
Qed.

(** Alone, the accesses are [get_file]: a thread that is not disturbed makes five
    accesses at most and returns what [FileManager::get_file] returns, with the
    same manager. *)
Lemma call_run_is_get_file (fs : FS) (p : str) (m : FileManager) (fuel : nat) :
  5 ≤ fuel → call_run fuel fs (Find_cached p) m = FileManager_get_file fs p m.
Proof.
  intros Hf. do 5 (destruct fuel as [|fuel]; [lia|]). clear Hf.
  unfold FileManager_get_file, get_file, Cache_get_file, get_file, Disk_get_file.
  destruct (file_cache m !! p) as [e|] eqn:E.
  - rewrite (call_run_step _ _ _ (Load_cached p) m m) by (cbn; by rewrite E).
    rewrite (call_run_step _ _ _ (Returned (Expected (from_file_cache_entry e))) m m) by (cbn; by rewrite E).
    apply call_run_returned.
  - rewrite (call_run_step _ _ _ (Find_described p) m m) by (cbn; by rewrite E).
    destruct (file_descriptors (file_fetcher m) !! p) as [d|] eqn:Hd.
    + rewrite (call_run_step _ _ _ (Copy_descriptor p) m m) by (cbn; by rewrite Hd).
      destruct (choose_encoding d) as [enc path] eqn:He.
      erewrite call_run_step by (cbn; by rewrite Hd, He). erewrite call_run_step by done.
      erewrite call_run_step by (cbn; by rewrite lookup_insert_eq).
      rewrite call_run_returned. cbn. by rewrite lookup_insert_eq.
    + erewrite call_run_step by (cbn; by rewrite Hd). rewrite call_run_returned. by destruct m.
Qed.

Lemma call_run_is_get_file_witness :
  call_run 5 example_fs (Find_cached ($"x")) FileManager_new =
  FileManager_get_file example_fs ($"x") FileManager_new.
Proof. apply call_run_is_get_file. lia. Defined.

(** ** The linked program *)

(** The manager is empty, and no thread is beyond the searches. *)
Definition unfilled (s : callers) : Prop :=
  manager s = FileManager_new ∧
  Forall (λ c, match c with Find_cached _ | Find_described _ | Returned _ => True | _ => False end)
    (calls s).

Lemma unfilled_step fs s s' : callers_step fs s s' → unfilled s → unfilled s'.
Proof.
  intros Hs [Hm Hc]. destruct Hs as [m m' cs i c c' Hi Hstep|m cs i r p Hi]; cbn in *; subst m.
  - pose proof (proj1 (Forall_lookup _ _) Hc i c Hi) as Hok.
    destruct c; try done; cbn in Hstep; injection Hstep as <- <-; (split; [done|]; by apply Forall_insert).
  - split; [done|]. by apply Forall_insert.
Qed.

Lemma unfilled_no_race s : unfilled s → ¬ race s.
Proof.
  intros [_ Hc] (i & j & c & d & a & b & _ & Hi & Hj & Ha & Hb & _ & Hw).
  pose proof (proj1 (Forall_lookup _ _) Hc i c Hi) as Hci.
  pose proof (proj1 (Forall_lookup _ _) Hc j d Hj) as Hdj.
  destruct c, d; try done; cbn in *; simplify_eq; by destruct Hw.
Qed.

(** The manager the handler asks is never filled, and so it never races: any
    number of threads that call [get_file], again and again and for whatever
    files, reach only states without a race. *)
Lemma unfilled_manager_never_races (fs : FS) (paths : list str) (s : callers) :
  rtc (callers_step fs) (mk_callers FileManager_new (Find_cached <$> paths)) s → ¬ race s.
Proof.
  intros Hs. apply unfilled_no_race.
  assert (H0 : unfilled (mk_callers FileManager_new (Find_cached <$> paths))).
  { split; [done|]. by apply Forall_fmap, Forall_true. }
  induction Hs as [|s s1 s2 H1 _ IH]; [done|]. by eapply IH, unfilled_step.
Qed.

(** Two threads, one run of which ends at their first accesses. *)
Lemma unfilled_manager_never_races_witness :
  ¬ race (mk_callers FileManager_new [Find_described ($"a"); Find_cached ($"b")]).
Proof.
  apply (unfilled_manager_never_races example_fs [$"a"; $"b"]).
  eapply rtc_l; [|apply rtc_refl].
  by apply (step_call example_fs FileManager_new FileManager_new [Find_cached ($"a"); Find_cached ($"b")]
    0 (Find_cached ($"a")) (Find_described ($"a"))).
Defined.

(** ** The program as it is meant *)

Lemma callers_step_app fs m c c' m' rest :
  call_step fs c m = Ret (c', m') →
  callers_step fs (mk_callers m (c :: rest)) (mk_callers m' (c' :: rest)).
Proof. intros H. by apply (step_call fs m m' (c :: rest) 0 c c'). Qed.

Lemma race_2 m c d a b :
  next_access c = Some a → next_access d = Some b → conflict a b → race (mk_callers m [c; d]).
Proof. intros Ha Hb Hc. by exists 0, 1, c, d, a, b. Qed.

(** C27: with a manager that has been filled, as [main] means it to be, two
    workers race: as soon as two of them ask for files that are described and not
    cached, one can be about to write the table of descriptors, by [operator\[\]],
    while the other searches it, and, a step later, about to write the cache while
    the other searches that.  The outcome is undefined behaviour. *)
Theorem filled_manager_races (fs : FS) (m : FileManager) (p q : str) d :
  file_cache m !! p = None → file_cache m !! q = None →
  file_descriptors (file_fetcher m) !! p = Some d →
  (∃ s, rtc (callers_step fs) (mk_callers m [Find_cached p; Find_cached q]) s ∧
     race s ∧ next_access <$> calls s =
       [Some (File_descriptors, Writes); Some (File_descriptors, Reads)]) ∧
  (∃ s, rtc (callers_step fs) (mk_callers m [Find_cached p; Find_cached q]) s ∧
     race s ∧ next_access <$> calls s = [Some (File_cache, Writes); Some (File_cache, Reads)]).
Proof.
  intros Hp Hq Hd.
  assert (H1 : call_step fs (Find_cached p) m = Ret (Find_described p, m)) by (cbn; by rewrite Hp).
  assert (H2 : call_step fs (Find_described p) m = Ret (Copy_descriptor p, m)) by (cbn; by rewrite Hd).
  destruct (choose_encoding d) as [enc path] eqn:He.
  assert (H3 : call_step fs (Copy_descriptor p) m =
    Ret (Store_cached p (mk_HTTPFileData (fd_filetype d) enc (read_stream fs path)), m)).
  { cbn. by rewrite Hd, He. }
  assert (Hq' : callers_step fs (mk_callers m [Find_cached p; Find_cached q])
    (mk_callers m [Find_cached p; Find_described q])).
  { apply (step_call fs m m [Find_cached p; Find_cached q] 1 (Find_cached q)); [done|].
    cbn. by rewrite Hq. }
  split.
  - exists (mk_callers m [Copy_descriptor p; Find_described q]). split_and!; [|eapply race_2; [done..|by split; [|left]]|done].
    eapply rtc_l; [exact Hq'|]. do 2 (eapply rtc_l; [by eapply callers_step_app|]). apply rtc_refl.
  - eexists (mk_callers m [Store_cached p _; Find_cached q]). split_and!; [|eapply race_2; [done..|by split; [|left]]|done].
    do 3 (eapply rtc_l; [by eapply callers_step_app|]). apply rtc_refl.
Qed.

(** The example site, with its files described. *)
Definition example_filled : FileManager :=
  (result (FileManager_construct example_fs ($"../webdir") FileManager_new) ((), FileManager_new)).2.

Lemma filled_manager_races_witness :
  ∃ s, rtc (callers_step example_fs)
      (mk_callers example_filled [Find_cached ($"../webdir/a.html"); Find_cached ($"../webdir/sub/b.css")]) s ∧
    race s.
Proof.
  destruct (filled_manager_races example_fs example_filled ($"../webdir/a.html") ($"../webdir/sub/b.css")
    (descriptor_of ($"../webdir/a.html"))) as [(s & H & Hr & _) _].
  - vm_compute. reflexivity.
  - vm_compute. reflexivity.
  - vm_compute. reflexivity.
  - by exists s.
Defined.
