(* ===== verification/Process.v ===== *)
(** * The process: server manager, translation units, main

    [include/simpleserv/server/server_manager.hpp],
    [include/simpleserv/server/server.hpp], [src/serverexec/main.cpp] and
    [include/simpleserv/debug_flags.hpp].  The file manager is a [static] variable
    of a header: every translation unit that includes it has an object of its own.
    The state of the process therefore holds two of them, that of [main.cpp] and
    that of [http_handler.cpp]. *)

From S2P Require Import Prelude Effects Expected Http StringParser Message Parser.
From S2P Require Import FileSystem ContentCoding FileManager HttpHandler.
From S2P Require Import LockFreeQueue Connections Servers.

(** ** Debug flags *)

Definition ss_debug : bool := true.
Definition ss_debug_file_manager : bool := true.
Definition ss_debug_file_manager_cache_miss : bool := ss_debug_file_manager || true.
Definition ss_debug_threadpool_worker : bool := true.

Definition debug_all (flags : list bool) : bool := forallb id flags && ss_debug.

(** ** The server manager *)

Module ServerType.
Inductive t : Type := HTTP | HTTPS.
End ServerType.

Record ServerConfig : Type := mk_ServerConfig {
  config_name : str; serverType : ServerType.t; config_port : Z }.

(** The member [ctx] of a TLS server. *)
Inductive ctx_state : Type := Ctx_null | Ctx_live | Ctx_freed.

(** A server: its type, its port, its [ctx], and the threads of its pool (whether
    each is joinable).  [Threadpool::join] is called nowhere, so that they stay so. *)
Record Server : Type := mk_Server {
  server_type : ServerType.t; port_ : Z; ctx : ctx_state; pool_joinable : list bool }.

Record ServerUnit : Type := mk_ServerUnit { unit_name : str; unit_server : Server }.

(** The units, and the unit that each thread of [server_threads] runs. *)
Record ServerManager : Type := mk_ServerManager {
  servers : list ServerUnit; server_threads : list nat }.

Inductive manager_event : Type :=
  | Ev_call (server : nat) (c : server_call)
  | Ev_open (server : nat)               (** a thread starts [Open] *)
  | Ev_request_stop (thread : nat)
  | Ev_join (thread : nat).

(** The template argument of the pools of both servers. *)
Definition POOL_THREADS : nat := 4.

(** Constructing a server constructs its pool, which starts the threads. *)
Definition configure_server (config : ServerConfig) : Server :=
  mk_Server (serverType config) (config_port config) Ctx_null (replicate POOL_THREADS true).

Definition Server_Start (s : Server) (env : start_env) : start_result :=
  match server_type s with
  | ServerType.HTTP => TCPServer_Start (port_ s) env
  | ServerType.HTTPS => TLSServer_Start (port_ s) env
  end.

(** A server that has started: a TLS server has its [ctx]. *)
Definition started_server (s : Server) : Server :=
  match server_type s with
  | ServerType.HTTP => s
  | ServerType.HTTPS => mk_Server (server_type s) (port_ s) Ctx_live (pool_joinable s)
  end.

Definition stopped_server (s : Server) : Server :=
  match server_type s, ctx s with
  | ServerType.HTTPS, Ctx_live => mk_Server (server_type s) (port_ s) Ctx_freed (pool_joinable s)
  | _, _ => s
  end.

(** Stopping a server that holds the descriptors [fds], the client's and its own:
    the calls, and the server.  [ctx] is not reset: a second [wolfSSL_CTX_free] is
    given a context that has been freed. *)
Definition Server_Stop (fds : Z * Z) (s : Server) : list server_call * outcome Server :=
  match server_type s with
  | ServerType.HTTP => (TCPServer_Stop fds.1 fds.2, Ret s)
  | ServerType.HTTPS =>
    match ctx s with
    | Ctx_freed => ([Call_close fds.1; Call_close fds.2; Call_CTX_free], Undef)
    | _ => (TLSServer_Stop fds.1 fds.2, Ret (stopped_server s))
    end
  end.

(** The destructors of both servers call [Stop], then the pool is destroyed. *)
Definition Server_destroy (fds : Z * Z) (s : Server) : list server_call * outcome () :=
  let '(calls, o) := Server_Stop fds s in (calls, s ← o; destroy_threads (pool_joinable s)).

(** [Start]: one server after the other; a failure exits the process.  The events,
    and the exit code or the servers started. *)
Fixpoint manager_Start (i : nat) (units : list ServerUnit) (env : nat → start_env) :
    list manager_event * (Z + list ServerUnit) :=
  match units with
  | [] => ([], inr [])
  | u :: units =>
    let '(calls, exit) := Server_Start (unit_server u) (env i) in
    match exit with
    | Some code => (Ev_call i <$> calls, inl code)
    | None =>
      let '(evs, rest) := manager_Start (S i) units env in
      ((Ev_call i <$> calls) ++ evs,
       match rest with
       | inl code => inl code
       | inr units => inr (mk_ServerUnit (unit_name u) (started_server (unit_server u)) :: units)
       end)
    end
  end.

(** [Open]: a thread for every server. *)
Definition manager_Open (m : ServerManager) : list manager_event * ServerManager :=
  let ids := seq 0 (length (servers m)) in
  (Ev_open <$> ids, mk_ServerManager (servers m) (server_threads m ++ ids)).

(** The constructor; [None] for the manager if the process has exited. *)
Definition ServerManager_new (configs : list ServerConfig) (env : nat → start_env) :
    list manager_event * option ServerManager :=
  let units := (λ c, mk_ServerUnit (config_name c) (configure_server c)) <$> configs in
  let '(evs, started) := manager_Start 0 units env in
  match started with
  | inl _ => (evs, None)
  | inr units =>
    let '(evs', m) := manager_Open (mk_ServerManager units []) in
    (evs ++ evs', Some m)
  end.

(** Joining every thread in turn; [ends] says of a thread whether its function
    returns once it has been asked to stop.  The accept loop looks at the stop token
    between rounds only, so that it need not.  The destructor is taken to run on
    none of these threads. *)
Fixpoint join_servers (ends : nat → bool) (ids : list nat) : list manager_event * outcome () :=
  match ids with
  | [] => ([], Ret ())
  | t :: ids =>
    if ends t then let '(evs, o) := join_servers ends ids in (Ev_join t :: evs, o)
    else ([Ev_join t], NoFuel)
  end.

(** [Stop] on every server in turn, the first of which has number [i]. *)
Fixpoint stop_servers (fds : nat → Z * Z) (i : nat) (units : list ServerUnit) :
    list manager_event * outcome (list ServerUnit) :=
  match units with
  | [] => ([], Ret [])
  | u :: units =>
    let '(calls, o) := Server_Stop (fds i) (unit_server u) in
    match o with
    | Ret s =>
      let '(evs, o) := stop_servers fds (S i) units in
      ((Ev_call i <$> calls) ++ evs, units ← o; Ret (mk_ServerUnit (unit_name u) s :: units))
    | _ => (Ev_call i <$> calls, Undef)
    end
  end.

(** The destructor of the vector destroys its servers in turn. *)
Fixpoint destroy_servers (fds : nat → Z * Z) (i : nat) (units : list ServerUnit) :
    list manager_event * outcome () :=
  match units with
  | [] => ([], Ret ())
  | u :: units =>
    let '(calls, o) := Server_destroy (fds i) (unit_server u) in
    match o with
    | Ret _ => let '(evs, o) := destroy_servers fds (S i) units in ((Ev_call i <$> calls) ++ evs, o)
    | o => (Ev_call i <$> calls, o)
    end
  end.

(** The destructor: its body, then the members, [servers] first; [fds] are the
    descriptors each server holds once its thread has ended. *)
Definition ServerManager_destroy (ends : nat → bool) (fds : nat → Z * Z) (m : ServerManager) :
    list manager_event * outcome () :=
  let '(joins, o) := join_servers ends (server_threads m) in
  let evs := (Ev_request_stop <$> server_threads m) ++ joins in
  match o with
  | Ret _ =>
    let '(stops, o) := stop_servers fds 0 (servers m) in
    match o with
    | Ret units => let '(devs, o) := destroy_servers fds 0 units in (evs ++ stops ++ devs, o)
    | _ => (evs ++ stops, Undef)
    end
  | _ => (evs, NoFuel)
  end.

(** The default constructor, and move assignment over such a manager: the vectors
    change hands, so that [*this] is the manager assigned and nothing is left in
    the other. *)
Definition ServerManager_default : ServerManager := mk_ServerManager [] [].
Definition ServerManager_move_assign (rhs : ServerManager) : ServerManager * ServerManager :=
  (rhs, ServerManager_default).

(** The handler of SIGINT, SIGABRT and SIGTERM: the events, and the exit code if
    [quick_exit] is reached. *)
Definition signal_handler (ends : nat → bool) (fds : nat → Z * Z) (signum : Z) (m : ServerManager) :
    list manager_event * outcome Z :=
  let '(evs, o) := ServerManager_destroy ends fds m in (evs, _ ← o; Ret signum).

Definition main_configs : list ServerConfig :=
  [mk_ServerConfig ($"HTTP") ServerType.HTTP HTTP_PORT;
   mk_ServerConfig ($"HTTPS") ServerType.HTTPS HTTPS_PORT].

(** ** The process *)

Record process : Type := mk_process {
  p_fs : FS;
  main_file_manager : FileManager;       (** of [main.cpp] *)
  handler_file_manager : FileManager }.  (** of [http_handler.cpp] *)

Definition process_new (fs : FS) : process := mk_process fs FileManager_new FileManager_new.

Section main.
Context (compress : str → nat → option (str * nat)).

(** The first two statements of [main]; [order] is the order of the hash table. *)
Definition main_setup (order : list str) : M process () := λ p,
  '(_, m) ← FileManager_construct (p_fs p) webdir (main_file_manager p);
  '(_, (fs, m)) ← FileManager_generate compress order (p_fs p, m);
  Ret ((), mk_process fs m (handler_file_manager p)).

(** [HTTPHandler::handle], called by a worker. *)
Definition process_handle (str_ : str) : M process (option str) := λ p,
  '(o, m) ← handle (p_fs p) str_ (handler_file_manager p);
  Ret (o, mk_process (p_fs p) (main_file_manager p) m).

Fixpoint process_handle_all (reqs : list str) : M process (list (option str)) :=
  match reqs with
  | [] => mret []
  | s :: reqs => o ← process_handle s; os ← process_handle_all reqs; mret (o :: os)
  end.
End main.

(** ** Lemmas *)

Lemma new_manager_get_file fs p :
  ∃ e, FileManager_get_file fs p FileManager_new = Ret (Unexpected e, FileManager_new).
Proof. eexists. done. Qed.

Lemma new_manager_handle fs s :
  (∃ e, parse_http_request s = Ret (Unexpected e)) ∧ handle fs s FileManager_new = Ret (None, FileManager_new) ∨
  (∃ r, parse_http_request s = Ret (Expected r)) ∧
    handle fs s FileManager_new = Ret (Some not_found_text, FileManager_new) ∨
  (∀ x, parse_http_request s ≠ Ret x) ∧ (∀ x, handle fs s FileManager_new ≠ Ret x).
Proof.
  destruct (parse_http_request s) as [[r|e]|e| | |] eqn:Hs.
  - right. left. split; [by eexists|].
    destruct (new_manager_get_file fs (convert_to_filedirectory (path_ r))) as [e He].
    by eapply handle_not_found.
  - left. split; [by eexists|]. by eapply handle_parse_error.
  - right. right. split; [done|]. intros x. unfold handle.
    by rewrite (M_bind_Throw _ _ _ e) by (unfold liftO; by rewrite Hs).
  - right. right. split; [done|]. intros x. unfold handle, mbind, M_bind, liftO. by rewrite Hs.
  - right. right. split; [done|]. intros x. unfold handle.
    by rewrite M_bind_Undef by (unfold liftO; by rewrite Hs).
  - right. right. split; [done|]. intros x. unfold handle, mbind, M_bind, liftO. by rewrite Hs.
Qed.

Lemma main_setup_handler compress order p p' :
  main_setup compress order p = Ret ((), p') → handler_file_manager p' = handler_file_manager p.
Proof.
  unfold main_setup. intros ([[] m] & _ & H)%outcome_bind_Ret_inv.
  by apply outcome_bind_Ret_inv in H as ([[] [fs m']] & _ & [= <-]).
Qed.

Lemma process_handle_unserved s p o p' :
  handler_file_manager p = FileManager_new → process_handle s p = Ret (o, p') →
  handler_file_manager p' = FileManager_new ∧
  ((∃ r, parse_http_request s = Ret (Expected r)) → o = Some not_found_text) ∧
  ((∃ e, parse_http_request s = Ret (Unexpected e)) → o = None).
Proof.
  intros Hp. unfold process_handle. rewrite Hp. intros ([o' m] & Hh & [= <- <-])%outcome_bind_Ret_inv.
  destruct (new_manager_handle (p_fs p) s) as [[[e He] E]|[[[r Hr] E]|[_ Hn]]].
  - rewrite Hh in E. simplify_eq/=. split_and!; [done| |done]. intros [r Hr]. by rewrite He in Hr.
  - rewrite Hh in E. simplify_eq/=. split_and!; [done|done|]. intros [e He]. by rewrite Hr in He.
  - by destruct (Hn _ Hh).
Qed.

(** C4: the two file managers.  [main] describes and encodes the files of [webdir] in
    the file manager of its own translation unit; the handler asks that of
    [http_handler.cpp], which nothing ever fills.  Whatever files there are and
    whatever has been requested before, every request that parses is answered with
    [404 Not Found]. *)
Theorem every_request_not_found compress (order : list str) (fs : FS) (p p' : process)
    (reqs : list str) (os : list (option str)) :
  main_setup compress order (process_new fs) = Ret ((), p) →
  process_handle_all reqs p = Ret (os, p') →
  handler_file_manager p' = FileManager_new ∧
  Forall2 (λ s o, ((∃ r, parse_http_request s = Ret (Expected r)) → o = Some not_found_text) ∧
                  ((∃ e, parse_http_request s = Ret (Unexpected e)) → o = None)) reqs os.
Proof.
  intros Hm%main_setup_handler. simpl in Hm. revert p Hm os.
  induction reqs as [|s reqs IH]; intros p Hp os; [by intros [= <- <-]|].
  cbn [process_handle_all]. intros (o & p1 & H1 & H)%M_bind_Ret_inv.
  apply M_bind_Ret_inv in H as (os' & p2 & H2 & [= <- <-]).
  destruct (process_handle_unserved s p o p1 Hp H1) as (Hp1 & Ho).
  destruct (IH p1 Hp1 os' H2) as [? ?]. split; [done|]. by constructor.
Qed.

(** The process after the first statements of [main], on the example site. *)
Definition example_process : process :=
  (result (main_setup half_encoder [$"../webdir/a.html"; $"../webdir/sub/b.css"]
    (process_new example_fs)) ((), process_new example_fs)).2.

Lemma every_request_not_found_witness :
  Forall2 (λ s o, ((∃ r, parse_http_request s = Ret (Expected r)) → o = Some not_found_text) ∧
                  ((∃ e, parse_http_request s = Ret (Unexpected e)) → o = None))
    [$"GET /a.html HTTP/1.1" ++ CRLF ++ CRLF] [Some not_found_text].
Proof.
  apply (every_request_not_found half_encoder [$"../webdir/a.html"; $"../webdir/sub/b.css"]
    example_fs example_process
    (result (process_handle_all [$"GET /a.html HTTP/1.1" ++ CRLF ++ CRLF] example_process)
      ([], example_process)).2
    [$"GET /a.html HTTP/1.1" ++ CRLF ++ CRLF] [Some not_found_text]).
  - vm_compute. reflexivity.
  - vm_compute. reflexivity.
Defined.

(** ** The life of the manager *)

(** The calls made on server [i], in order. *)
Fixpoint calls_of (i : nat) (evs : list manager_event) : list server_call :=
  match evs with
  | [] => []
  | Ev_call j c :: evs => if decide (i = j) then c :: calls_of i evs else calls_of i evs
  | _ :: evs => calls_of i evs
  end.

Lemma calls_of_app i evs evs' : calls_of i (evs ++ evs') = calls_of i evs ++ calls_of i evs'.
Proof.
  induction evs as [|[j c| | |] evs IH]; [done|..]; cbn; [|done..]. case_decide; [|done].
  by rewrite IH.
Qed.

Lemma calls_of_calls i j l : calls_of i (Ev_call j <$> l) = if decide (i = j) then l else [].
Proof. induction l as [|c l IH]; cbn; case_decide; [done..| |done]. f_equal. exact IH. Qed.

Lemma calls_of_other {A} i (f : A → manager_event) l :
  (∀ a j c, f a ≠ Ev_call j c) → calls_of i (f <$> l) = [].
Proof.
  intros Hf. induction l as [|a l IH]; [done|]. cbn.
  destruct (f a) eqn:E; [by destruct (Hf _ _ _ E)|exact IH..].
Qed.

(** Stopping servers that have just been started. *)
Lemma stop_servers_started fds i us :
  Forall (λ u, ctx (unit_server u) ≠ Ctx_freed) us →
  ∃ evs us', stop_servers fds i us = (evs, Ret us') ∧
    unit_server <$> us' = stopped_server ∘ unit_server <$> us ∧
    ∀ j, calls_of j evs =
      if decide (j < i) then [] else
      match us !! (j - i) with Some u => (Server_Stop (fds j) (unit_server u)).1 | None => [] end.
Proof.
  intros Hus. revert i. induction Hus as [|u us Hu _ IH]; intros i; cbn [stop_servers].
  { eexists _, _. split_and!; [done..|]. intros j. by case_decide. }
  destruct (IH (S i)) as (evs & us' & -> & Hs & Hc).
  assert (Hstop : (Server_Stop (fds i) (unit_server u)).2 = Ret (stopped_server (unit_server u))).
  { unfold Server_Stop, stopped_server. destruct u as [name [ty p cx l]]; cbn in *. by destruct ty, cx. }
  destruct (Server_Stop (fds i) (unit_server u)) as [calls o] eqn:E. cbn in Hstop. subst o.
  eexists _, _. split_and!; [done|cbn; by rewrite Hs|]. intros j.
  rewrite calls_of_app, calls_of_calls, Hc. destruct (decide (j = i)) as [->|Hne].
  - rewrite Nat.sub_diag. rewrite decide_True, decide_False by lia. cbn. by rewrite app_nil_r, E.
  - cbn [app]. repeat case_decide; try lia; [done|].
    replace (j - i) with (S (j - S i)) by lia. done.
Qed.

Lemma manager_Start_all us n env evs us' :
  manager_Start n us env = (evs, inr us') →
  (unit_server <$> us' = started_server ∘ unit_server <$> us) ∧
  ∀ i u, us !! i = Some u → (Server_Start (unit_server u) (env (n + i))).2 = None.
Proof.
  revert n evs us'. induction us as [|v us IH]; intros n evs us' H; [by injection H as <- <-|].
  cbn [manager_Start] in H.
  destruct (Server_Start (unit_server v) (env n)) as [calls [code|]] eqn:E; [done|].
  destruct (manager_Start (S n) us env) as [evs2 [code|us2]] eqn:E2; [done|].
  injection H as <- <-. destruct (IH _ _ _ E2) as [H1 H2]. split; [cbn; by rewrite H1|].
  intros [|i] u Hi; [simplify_eq/=; by rewrite Nat.add_0_r, E|].
  rewrite Nat.add_succ_r. by apply (H2 i).
Qed.

Lemma join_servers_all ends ids :
  (∀ t, t ∈ ids → ends t = true) → join_servers ends ids = (Ev_join <$> ids, Ret ()).
Proof.
  induction ids as [|t ids IH]; intros H; [done|]. cbn [join_servers]. rewrite (H t) by by left.
  rewrite IH; [done|]. intros t' Ht. apply H. by right.
Qed.

Lemma join_servers_stuck ends ids t :
  t ∈ ids → ends t = false → ∃ evs, join_servers ends ids = (evs, NoFuel) ∧ ∀ i, calls_of i evs = [].
Proof.
  induction ids as [|t' ids IH]; [by intros []%elem_of_nil|]. intros Ht He. cbn [join_servers].
  destruct (ends t') eqn:E; [|by eexists].
  destruct IH as (evs & -> & H); [|done|by eexists].
  apply elem_of_cons in Ht as [->|]; [congruence|done].
Qed.

(** Only the first server is destroyed: its pool has joinable threads, or its context
    has been freed. *)
Lemma destroy_servers_first fds i s u us :
  unit_server u = stopped_server (started_server (configure_server s)) →
  destroy_servers fds i (u :: us) =
  (Ev_call i <$> (Server_Stop (fds i) (unit_server u)).1,
   match serverType s with ServerType.HTTP => Terminate | ServerType.HTTPS => Undef end).
Proof.
  intros Hu. cbn [destroy_servers]. rewrite Hu. by destruct s as [name [|] port].
Qed.

(** The threads that [Open] starts: while [recv] answers [EAGAIN], or [wolfSSL_read]
    is told to read again, the accept loop does not look at the stop token. *)
Lemma silent_client_keeps_loop n env envs s :
  stop_requested env = false → accept4 env ≠ (-1)%Z → accept_errno env (errno_ s) ≠ EAGAIN →
  recvs env = replicate n (RecvFailed EAGAIN) → tcp_AcceptIncoming (env :: envs) s = NoFuel.
Proof.
  intros Hs Ha He Hr. cbn [tcp_AcceptIncoming]. unfold mbind at 1, M_bind. rewrite tcp_round_unfold, Hs, Hr.
  cbv zeta. rewrite decide_True by done.
  assert (H : ∀ e, recv_loop (replicate n (RecvFailed EAGAIN)) e = NoFuel).
  { clear Hr. induction n as [|n IH]; intros e; [done|]. cbn [replicate recv_loop].
    rewrite (M_bind_run _ _ e () EAGAIN) by done. rewrite decide_True by done. apply IH. }
  by rewrite H.
Qed.

Lemma silent_client_keeps_tls_loop get_error n r env envs s :
  tls_stop_requested env = false → tls_accept4 env ≠ (-1)%Z → tls_accept_errno env (tls_errno s) ≠ EAGAIN →
  get_error (tls_accept_ret env) (read_error r) = WOLFSSL_ERROR_WANT_READ →
  tls_reads env = replicate n r → tls_AcceptIncoming get_error (env :: envs) s = NoFuel.
Proof.
  intros Hs Ha He Hg Hr. cbn [tls_AcceptIncoming]. unfold mbind at 1, M_bind. rewrite tls_round_unfold, Hs, Hr.
  cbv zeta. rewrite decide_True by done.
  assert (H : tls_read_loop get_error (tls_accept_ret env) (replicate n r) = NoFuel).
  { clear Hr. induction n as [|n IH]; [done|]. cbn [replicate tls_read_loop]. by rewrite decide_True. }
  by rewrite H.
Qed.

(** Destroying a manager that has servers of its own making. *)
Lemma manager_destroy_stuck ends fds m t :
  t ∈ server_threads m → ends t = false →
  ∃ evs, ServerManager_destroy ends fds m = (evs, NoFuel) ∧ ∀ i, calls_of i evs = [].
Proof.
  intros Ht He. unfold ServerManager_destroy. destruct (join_servers_stuck ends _ t Ht He) as (evs & -> & H).
  eexists. split; [done|]. intros i. by rewrite calls_of_app, H, calls_of_other.
Qed.

Lemma manager_destroy_ends ends fds m c cs :
  unit_server <$> servers m = started_server ∘ configure_server <$> c :: cs →
  (∀ t, t ∈ server_threads m → ends t = true) →
  ∃ joins calls, ServerManager_destroy ends fds m =
      (joins ++ calls, match serverType c with ServerType.HTTP => Terminate | ServerType.HTTPS => Undef end) ∧
    (∀ i, calls_of i joins = []) ∧ (∀ t, t ∈ server_threads m → Ev_join t ∈ joins) ∧
    ∀ i u, servers m !! i = Some u →
      calls_of i calls = (Server_Stop (fds i) (unit_server u)).1 ++
        if decide (i = 0) then (Server_Stop (fds i) (stopped_server (unit_server u))).1 else [].
Proof.
  intros Hm He. unfold ServerManager_destroy. rewrite join_servers_all by done.
  destruct (stop_servers_started fds 0 (servers m)) as (stops & us & -> & Hus & Hc).
  { apply Forall_lookup. intros i u Hu. assert (Hl : (unit_server <$> servers m) !! i = Some (unit_server u)).
    { by rewrite list_lookup_fmap, Hu. }
    rewrite Hm, list_lookup_fmap in Hl. destruct ((c :: cs) !! i) as [s|]; [|done].
    injection Hl as <-. by destruct s as [name [|] port]. }
  destruct us as [|u us]; [by destruct (servers m)|]. destruct (servers m) as [|v vs] eqn:Hv; [done|].
  cbn in Hm, Hus. injection Hm as Hv0 _. injection Hus as Hu0 _.
  rewrite (destroy_servers_first fds 0 c u us) by by rewrite Hu0, Hv0.
  eexists _, _. split; [done|]. split_and!.
  - intros i. by rewrite calls_of_app, !calls_of_other.
  - intros t Ht. apply elem_of_app. right. by apply list_elem_of_fmap_2.
  - intros i w Hw. rewrite calls_of_app, Hc, Nat.sub_0_r, Hw, decide_False by lia. f_equal.
    rewrite calls_of_calls. case_decide; [|done]. subst i. injection Hw as <-. by rewrite Hu0.
Qed.


(** An environment in which every call succeeds. *)
Definition example_start_env : start_env := mk_start_env 0 5 0 0 true true true.

