(* ===== verification/Program.v ===== *)
(** * The program

    [main] of [src/serverexec/main.cpp] from its first statement to the end of the
    process, and the HTTP server it runs, with the file manager the linker gives its
    workers. *)

From stdpp Require Import relations.
From S2P Require Import Prelude Effects Expected Http StringParser Message Parser.
From S2P Require Import FileSystem ContentCoding FileManager HttpHandler LockFreeQueue Connections Servers.
From S2P Require Import History System Process.

(** ** [main] *)

(** The signals that [main] handles, and that of a broken pipe, which it does not;
    the default action of each ends the process. *)
Inductive sig : Type := SIGINT | SIGABRT | SIGTERM | SIGPIPE.

#[export] Instance sig_eq_dec : EqDecision sig.
Proof. solve_decision. Defined.

Definition signum (s : sig) : Z :=
  match s with SIGINT => 2 | SIGABRT => 6 | SIGTERM => 15 | SIGPIPE => 13 end.

(** The calls of [signal], in order. *)
Definition handled_signals : list sig := [SIGINT; SIGABRT; SIGTERM].

(** What happens to the process while its servers run: a signal, an exception that
    leaves a worker, or a spurious wake-up, since the wait has no predicate. *)
Inductive main_event : Type := Signal (s : sig) | Uncaught | Wake_up.

(** [main] makes its next call of [signal] (or goes on waiting), or something
    happens. *)
Inductive moment : Type := Proceeds | Happens (ev : main_event).

Inductive process_end : Type := Exited (code : Z) | Killed (number : Z).

Section main_end.
Context (ends : nat → bool) (fds : nat → Z * Z).

(** A signal when the handler is installed for [installed].  [alive] is the manager
    as long as no destructor of it has been called; calling one again, before the
    first has returned or after, is undefined.  If the destructor calls
    [std::terminate], its abort raises SIGABRT. *)
Definition on_signal (installed : list sig) (alive : option ServerManager) (s : sig) : outcome process_end :=
  if decide (s ∈ installed) then
    match alive with
    | None => Undef
    | Some m =>
      match (signal_handler ends fds (signum s) m).2 with
      | Ret code => Ret (Exited code)
      | Terminate | Throw _ => if decide (SIGABRT ∈ installed) then Undef else Ret (Killed (signum SIGABRT))
      | Undef => Undef
      | NoFuel => NoFuel
      end
    end
  else Ret (Killed (signum s)).

(** [return 0]: the static objects are destroyed, the manager among them. *)
Definition on_return (installed : list sig) (alive : option ServerManager) : outcome process_end :=
  match alive with
  | None => Undef
  | Some m =>
    match (ServerManager_destroy ends fds m).2 with
    | Ret _ => Ret (Exited 0)
    | Terminate | Throw _ => on_signal installed None SIGABRT
    | Undef => Undef
    | NoFuel => NoFuel
    end
  end.

(** [std::terminate] aborts. *)
Definition on_event (installed : list sig) (alive : option ServerManager) (ev : main_event) :
    outcome process_end :=
  match ev with
  | Signal s => on_signal installed alive s
  | Uncaught => on_signal installed alive SIGABRT
  | Wake_up => on_return installed alive
  end.

(** The rest of [main] once the servers run, with the calls of [signal] it has still
    to make.  A destructor that waits for a thread leaves the process to the next
    event; before the wait there is nothing to wake up from. *)
Fixpoint main_wait (todo installed : list sig) (alive : option ServerManager) (ms : list moment) :
    outcome process_end :=
  match ms with
  | [] => NoFuel
  | Proceeds :: ms =>
    match todo with
    | [] => main_wait [] installed alive ms
    | s :: todo => main_wait todo (installed ++ [s]) alive ms
    end
  | Happens ev :: ms =>
    match ev, todo with
    | Wake_up, _ :: _ => main_wait todo installed alive ms
    | _, _ =>
      match on_event installed alive ev with
      | NoFuel => main_wait todo installed None ms
      | o => o
      end
    end
  end.
End main_end.

(** The whole of [main].  [early] is a signal that arrives before the servers run.
    An exception that leaves [main] before the handlers are installed terminates,
    and the abort has its default action.  The manager is moved out of a temporary,
    which is then destroyed. *)
Definition main (compress : str → nat → option (str * nat)) (order : list str) (fs : FS)
    (env : nat → start_env) (ends : nat → bool) (fds : nat → Z * Z)
    (early : option sig) (ms : list moment) : outcome process_end :=
  match early with
  | Some s => Ret (Killed (signum s))
  | None =>
    match noexcept (main_setup compress order (process_new fs)) with
    | Ret _ =>
      match ServerManager_new main_configs env with
      | (_, None) => Ret (Exited 1)                 (* [quick_exit] in [Start] *)
      | (_, Some m) =>
        let '(server_manager, temporary) := ServerManager_move_assign m in
        _ ← (ServerManager_destroy ends fds temporary).2;
        main_wait ends fds handled_signals [] (Some server_manager) ms
      end
    | Throw _ | Terminate => Ret (Killed (signum SIGABRT))
    | Undef => Undef
    | NoFuel => NoFuel
    end
  end.

(** Every server can start. *)
Definition servers_can_start (env : nat → start_env) : Prop :=
  bound (env 0) ∧ bound (env 1) ∧
  env_ctx (env 1) = true ∧ env_certificate (env 1) = true ∧ env_key (env 1) = true.

#[export] Instance bound_dec env : Decision (bound env).
Proof. unfold bound. apply _. Defined.

Lemma main_manager env :
  (servers_can_start env → ∃ evs m, ServerManager_new main_configs env = (evs, Some m) ∧
     unit_server <$> servers m = started_server ∘ configure_server <$> main_configs ∧
     server_threads m = [0; 1]) ∧
  (¬ servers_can_start env → ∃ evs, ServerManager_new main_configs env = (evs, None)).
Proof.
  pose proof (servers_start HTTP_PORT (env 0)) as (T1 & T2 & _).
  pose proof (servers_start HTTPS_PORT (env 1)) as (_ & _ & L1 & L2).
  unfold ServerManager_new, main_configs. cbn [fmap list_fmap manager_Start unit_server].
  unfold Server_Start. cbn [configure_server server_type port_ serverType config_port].
  destruct (TCPServer_Start HTTP_PORT (env 0)) as [c1 o1], (TLSServer_Start HTTPS_PORT (env 1)) as [c2 o2].
  cbn in T1, T2, L1, L2. split.
  - intros (B0 & B1 & Htls). destruct (T1 B0) as [-> _], (L1 (conj B1 Htls)) as [-> _].
    by eexists _, _.
  - intros Hn. destruct o1 as [code|]; [by eexists|]. destruct o2 as [code|]; [by eexists|].
    destruct Hn. unfold servers_can_start.
    destruct (decide (bound (env 0))) as [B0|B0]; [|by specialize (T2 B0)].
    destruct (decide (bound (env 1) ∧ env_ctx (env 1) = true ∧ env_certificate (env 1) = true ∧
      env_key (env 1) = true)) as [B1|B1]; [tauto|by specialize (L2 B1)].
Qed.

(** ** How the process ends *)

Section ends.
Context (ends : nat → bool) (fds : nat → Z * Z) (m : ServerManager).
Context (Hm : unit_server <$> servers m = started_server ∘ configure_server <$> main_configs).
Context (Hids : server_threads m = [0; 1]).

(** The destructor never returns. *)
Lemma main_destroy :
  (ServerManager_destroy ends fds m).2 = if ends 0 && ends 1 then Terminate else NoFuel.
Proof using Hm Hids.
  destruct (ends 0) eqn:H0; [destruct (ends 1) eqn:H1|].
  - destruct (manager_destroy_ends ends fds m _ _ Hm) as (joins & calls & -> & _); [|done].
    rewrite Hids. intros t. rewrite !elem_of_cons, elem_of_nil. naive_solver.
  - destruct (manager_destroy_stuck ends fds m 1) as (joins & -> & _); [|done|done].
    rewrite Hids. right. left.
  - destruct (manager_destroy_stuck ends fds m 0) as (joins & -> & _); [|done|done].
    rewrite Hids. left.
Qed.

Lemma main_handler n :
  (signal_handler ends fds n m).2 = if ends 0 && ends 1 then Terminate else NoFuel.
Proof using Hm Hids.
  pose proof main_destroy as H. unfold signal_handler. destruct (ServerManager_destroy ends fds m) as [evs o].
  cbn in H |- *. subst o. by destruct (_ && _).
Qed.

(** No exit code is ever given. *)
Lemma main_event_end installed alive ev :
  alive = Some m ∨ alive = None →
  ∀ code, on_event ends fds installed alive ev ≠ Ret (Exited code).
Proof using Hm Hids.
  intros Ha code.
  assert (Hs : ∀ s, on_signal ends fds installed alive s ≠ Ret (Exited code)).
  { intros s. unfold on_signal. case_decide; [|done]. destruct Ha as [-> | ->]; [|done].
    rewrite main_handler. destruct (_ && _); [by case_decide|done]. }
  destruct ev as [s| |]; [apply Hs..|]. cbn [on_event]. unfold on_return. destruct Ha as [-> | ->]; [|done].
  rewrite main_destroy. destruct (_ && _); [|done]. unfold on_signal. by case_decide.
Qed.

Lemma main_wait_end todo installed alive ms :
  alive = Some m ∨ alive = None →
  ∀ code, main_wait ends fds todo installed alive ms ≠ Ret (Exited code).
Proof using Hm Hids.
  revert todo installed alive. induction ms as [|[|ev] ms IH]; intros todo installed alive Ha code; [done|..].
  - cbn [main_wait]. destruct todo; by apply IH.
  - cbn [main_wait]. pose proof (main_event_end installed alive ev Ha code) as He.
    assert (Hn : main_wait ends fds todo installed None ms ≠ Ret (Exited code)) by (apply IH; by right).
    destruct ev, todo; try (by apply IH); by destruct (on_event ends fds installed alive _).
Qed.
End ends.

(** After [k] calls of [signal]. *)
Lemma main_wait_proceeds ends fds k todo installed alive ms :
  main_wait ends fds todo installed alive (replicate k Proceeds ++ ms) =
  main_wait ends fds (drop k todo) (installed ++ take k todo) alive ms.
Proof.
  revert todo installed. induction k as [|k IH]; intros todo installed; [by rewrite drop_0, take_0, app_nil_r|].
  cbn [replicate app main_wait]. destruct todo as [|s todo].
  - rewrite IH. by rewrite drop_nil, take_nil.
  - rewrite IH. cbn [drop take]. by rewrite <- (assoc_L (++)).
Qed.

(** C28: how the process ends.  A signal that arrives before the servers run kills
    it.  If a file system error leaves the set-up, [main] aborts; if a server cannot
    start the exit code is 1.  Once the servers run there is no run with an exit
    code, neither 0 nor the number of a signal.  [main] then installs its handler
    for three signals, one after the other, and waits.  Take the first event after
    [k] of these calls.  A signal without the handler kills the process, and so
    does, before SIGABRT is handled, an exception that leaves a worker.  Where the
    handler is reached, or [main] returns after a spurious wake-up, the manager is
    destroyed.  If both accept loops return, that terminates the process: if only
    SIGINT is handled yet this is an abort, otherwise the handler of SIGABRT
    destroys the manager again, which is undefined behaviour.  If an accept loop
    does not return the destructor waits for it, and the next event for which the
    handler is called is undefined behaviour. *)
Theorem main_outcomes compress order (fs : FS) (env : nat → start_env) (ends : nat → bool)
    (fds : nat → Z * Z) (k : nat) (ev : main_event) (ms : list moment) :
  let setup := main_setup compress order (process_new fs) in
  let run := main compress order fs env ends fds in
  let installed := take k handled_signals in
  (∀ s, run (Some s) ms = Ret (Killed (signum s))) ∧
  (∀ e, setup = Throw e → run None ms = Ret (Killed (signum SIGABRT))) ∧
  ∀ p, setup = Ret ((), p) →
    (¬ servers_can_start env → run None ms = Ret (Exited 1)) ∧
    (servers_can_start env →
     let handles s := s ∈ installed in
     let first := run None (replicate k Proceeds ++ Happens ev :: ms) in
     (∀ code, run None ms ≠ Ret (Exited code)) ∧
     run None (replicate k Proceeds) = NoFuel ∧
     (∀ s, ev = Signal s → ¬ handles s → first = Ret (Killed (signum s))) ∧
     (ev = Uncaught → ¬ handles SIGABRT → first = Ret (Killed (signum SIGABRT))) ∧
     ((∃ s, ev = Signal s ∧ handles s) ∨ ev = Uncaught ∧ handles SIGABRT ∨ ev = Wake_up ∧ 3 ≤ k →
      (ends 0 = true → ends 1 = true →
       first = if decide (handles SIGABRT) then Undef else Ret (Killed (signum SIGABRT))) ∧
      (ends 0 = false ∨ ends 1 = false →
       first = main_wait ends fds (drop k handled_signals) installed None ms ∧
       ∀ s ms', ms = Happens (Signal s) :: ms' → handles s → first = Undef))).
Proof.
  intros setup run installed. unfold run, main. fold setup.
  split_and!; [done|by intros e ->|]. intros p ->. cbn [noexcept].
  destruct (main_manager env) as [H1 H2]. split; [by intros (calls & ->)%H2|].
  intros (calls & m & -> & Hm & Hids)%H1. cbn [ServerManager_move_assign].
  change ((ServerManager_destroy ends fds ServerManager_default).2) with (Ret () : outcome ()).
  cbn [mbind outcome_bind]. rewrite main_wait_proceeds. cbn [app].
  assert (Hrep : replicate k Proceeds = replicate k Proceeds ++ []) by by rewrite app_nil_r.
  rewrite Hrep, main_wait_proceeds. clear Hrep. cbn [app].
  fold installed.
  assert (Hfirst : (∃ s, ev = Signal s) ∨ ev = Uncaught ∨ ev = Wake_up ∧ 3 ≤ k →
    main_wait ends fds (drop k handled_signals) installed (Some m) (Happens ev :: ms) =
    match on_event ends fds installed (Some m) ev with
    | NoFuel => main_wait ends fds (drop k handled_signals) installed None ms | o => o end).
  { intros [[s ->]|[->|[-> Hk]]]; [done..|]. cbn [main_wait].
    replace (drop k handled_signals) with (@nil sig); [done|]. symmetry. by apply drop_ge. }
  split_and!.
  - by eapply main_wait_end; [..|left].
  - done.
  - intros s -> Hs. rewrite Hfirst by eauto. cbn [on_event]. unfold on_signal. by rewrite decide_False.
  - intros -> Hs. rewrite Hfirst by auto. cbn [on_event]. unfold on_signal. by rewrite decide_False.
  - intros Hev.
    assert (Hon : on_event ends fds installed (Some m) ev =
      if ends 0 && ends 1 then
        if decide (SIGABRT ∈ installed) then Undef else Ret (Killed (signum SIGABRT))
      else NoFuel).
    { destruct Hev as [(s & -> & Hs)|[[-> Hs]|[-> Hk]]]; cbn [on_event].
      1,2: unfold on_signal; rewrite decide_True by done; rewrite main_handler by done; by destruct (_ && _).
      unfold on_return. rewrite main_destroy by done. by destruct (_ && _). }
    rewrite Hfirst by naive_solver. rewrite Hon. split.
    + intros -> ->. cbn [andb]. by case_decide.
    + intros He. replace (ends 0 && ends 1) with false by (by destruct He as [-> | ->]; rewrite ?andb_false_r).
      split; [done|]. intros s ms' -> Hs. cbn [main_wait on_event]. unfold on_signal. by rewrite decide_True.
Qed.

(** A SIGINT once all three handlers are installed; and one before any is. *)
Lemma main_outcomes_witness :
  let run := main half_encoder [$"../webdir/a.html"; $"../webdir/sub/b.css"] example_fs
    (λ _, example_start_env) (λ _, true) (λ _, (7, 5)%Z) None in
  run [Proceeds; Proceeds; Proceeds; Happens (Signal SIGINT)] = Undef ∧
  run [Happens (Signal SIGINT)] = Ret (Killed 2).
Proof.
  intros run.
  assert (Hs : servers_can_start (λ _, example_start_env)).
  { unfold servers_can_start, bound. repeat split; discriminate. }
  assert (Hp : main_setup half_encoder [$"../webdir/a.html"; $"../webdir/sub/b.css"] (process_new example_fs) =
    Ret ((), example_process)) by (vm_compute; reflexivity).
  destruct (main_outcomes half_encoder [$"../webdir/a.html"; $"../webdir/sub/b.css"] example_fs
    (λ _, example_start_env) (λ _, true) (λ _, (7, 5)%Z) 3 (Signal SIGINT) []) as (_ & _ & H).
  destruct (main_outcomes half_encoder [$"../webdir/a.html"; $"../webdir/sub/b.css"] example_fs
    (λ _, example_start_env) (λ _, true) (λ _, (7, 5)%Z) 0 (Signal SIGINT) []) as (_ & _ & H').
  destruct (H _ Hp) as [_ (_ & _ & _ & _ & H3)]; [exact Hs|]. destruct (H' _ Hp) as [_ (_ & _ & H0 & _)]; [exact Hs|].
  split.
  - destruct H3 as [H3 _]; [left; exists SIGINT; split; [done|left]|]. exact (H3 eq_refl eq_refl).
  - apply (H0 SIGINT); [done|]. apply not_elem_of_nil.
Defined.

(** ** The HTTP server of the process *)

(** Nothing but the text of [404 Not Found], to a request that parses. *)
Definition answer_404 (c : HTTPConnectionObject) (l : list io) : Prop :=
  ∃ kernel response, l = sent kernel (http_client_fd c) response ++ [Io_close (http_client_fd c)] ∧
    ((∃ r, parse_http_request (http_request c) = Ret (Expected r)) ∧ response = Some not_found_text ∨
     (∃ e, parse_http_request (http_request c) = Ret (Unexpected e)) ∧ response = None).

Lemma handling_404 fs : handling (IConnectionObject0 := http_object) fs http_performs (.= FileManager_new) answer_404.
Proof.
  intros c m response m' l -> H [kernel ->]. unfold conn_request, http_object in H.
  destruct (new_manager_handle fs (http_request c)) as [[He E]|[[Hr E]|[_ Hn]]].
  - rewrite H in E. simplify_eq. split; [done|]. exists kernel, None. auto.
  - rewrite H in E. simplify_eq. split; [done|]. exists kernel, (Some not_found_text). auto.
  - by destruct (Hn _ H).
Qed.

(** The server of the process, end to end.  After the set-up of [main], with
    the file manager that the workers have, in every state the HTTP server
    reaches, however its threads interleave and whatever files there are, what has
    been sent is for each connection served, in the order of their acceptance, a
    beginning of the one response [404 Not Found] if the request parses, nothing
    if it does not, and then one close. *)
Lemma program_serves_404 compress order (fs : FS) (p : process) (st : tcp_state)
    (ls : list (label HTTPConnectionObject)) (o : outcome tcp_server) :
  main_setup compress order (process_new fs) = Ret ((), p) →
  holds 100 (jobs st) [] →
  runs (tcp_step (p_fs p)) (Ret (tcp_start st (mk_world (handler_file_manager p) []))) ls o →
  o = Terminate ∨ o = Undef ∨
  ∃ s, o = Ret s ∧ served_history answer_404 (mk_world FileManager_new []) ls s.
Proof.
  intros Hm%main_setup_handler. cbn in Hm. rewrite Hm.
  by apply (tcp_reached (p_fs p) (.= FileManager_new)); [apply handling_404|].
Qed.

(** The example site: its first page is asked for, and not found. *)
Definition example_run : tcp_server :=
  (result (tcp_events (p_fs example_process) (example_events (p_fs example_process)) example_server)
    ((), example_server)).2.

Lemma example_run_reached :
  runs (tcp_step (p_fs example_process)) (Ret example_server) [Accepted example_job; Taken example_job]
    (Ret example_run).
Proof.
  replace [Accepted example_job; Taken example_job]
    with (observe_all (IHandler0 := tcp_handler (p_fs example_process)) (ICloser0 := tcp_closer)
      (IConnectionObject0 := http_object) (example_events (p_fs example_process)) example_server)
    by (vm_compute; reflexivity).
  apply (do_events_runs _ (example_events (p_fs example_process))).
  - repeat constructor. by eexists.
  - vm_compute. reflexivity.
Qed.

Lemma program_serves_404_witness :
  served_history answer_404 (mk_world FileManager_new [])
    [Accepted example_job; Taken example_job] example_run.
Proof.
  pose proof example_run_reached as Hs. revert Hs. generalize example_run. intros x Hs.
  destruct (program_serves_404 half_encoder [$"../webdir/a.html"; $"../webdir/sub/b.css"]
    example_fs example_process (mk_tcp 0 (-1) example_jobs)
    [Accepted example_job; Taken example_job] (Ret x)) as [|[|(s & [= <-] & H)]].
  - vm_compute. reflexivity.
  - exact example_jobs_holds.
  - exact Hs.
  - discriminate.
  - discriminate.
  - exact H.
Defined.
