(* ===== verification/ProcessRun.v ===== *)
(** * The process at work

    The two servers that [main] starts
    ([src/serverexec/main.cpp], [include/simpleserv/server/server_manager.hpp]),
    running at once: the threads of both take turns as in [Overlap], and share the
    file manager of [http_handler.cpp] and the system they call. *)

From stdpp Require Import relations.
From S2P Require Import Prelude Effects Expected Http StringParser FileSystem ContentCoding FileManager.
From S2P Require Import Parser Message HttpHandler LockFreeQueue Connections Servers System SystemTls.
From S2P Require Import Overlap Process.

(** ** The two servers *)

Abbreviation http_running := (@running HTTPConnectionObject).
Abbreviation https_running := (@running HTTPSConnectionObject).

Section servers.
Context (fs : FS) (get_error : Z → Z → Z).
Context (moved : HTTPConnectionObject → HTTPConnectionObject).
Context (moved_tls : HTTPSConnectionObject → HTTPSConnectionObject).
#[local] Existing Instance http_object.
#[local] Existing Instance https_object.
#[local] Instance process_tcp_closer : ICloser world HTTPConnectionObject := TCP_CloseConnection.
#[local] Instance process_tls_closer : ICloser world HTTPSConnectionObject := TLS_CloseConnection.
#[local] Instance process_handler : IHandler world := http_handler fs.
#[local] Instance process_tls_loop : Incoming tls_env HTTPSConnectionObject := tls_loop get_error.
#[local] Instance process_tls_loop_spec : IncomingSpec tls_env HTTPSConnectionObject := tls_loop_spec get_error.

(** A turn of a thread of one of them. *)
Definition turn_of : Type :=
  @turn world HTTPConnectionObject tcp_env + @turn world HTTPSConnectionObject tls_env.

Definition process_turn (t : turn_of) : M (http_running * https_running * world) () := λ '(a, b, w),
  match t with
  | inl t => '(_, (a, w)) ← take_turn moved t (a, w); Ret ((), (a, b, w))
  | inr t => '(_, (b, w)) ← take_turn moved_tls t (b, w); Ret ((), (a, b, w))
  end.

Fixpoint process_turns (ts : list turn_of) : M (http_running * https_running * world) () :=
  match ts with
  | [] => mret ()
  | t :: ts => _ ← process_turn t; process_turns ts
  end.

Definition process_turn_ok (t : turn_of) (a : http_running) (b : https_running) : Prop :=
  match t with inl t => turn_ok tcp_sender t a | inr t => turn_ok tls_sender t b end.

Inductive process_step : outcome (http_running * https_running * world) →
    outcome (http_running * https_running * world) → Prop :=
  | step_process t a b w o :
      process_turn_ok t a b → process_turn t (a, b, w) = o → o ≠ NoFuel →
      process_step (Ret (a, b, w)) (noexcept (snd <$> o)).

(** The process ends because of a connection that one of its workers has in hand. *)
Definition process_fails {B} (a : http_running) (b : https_running) (w : world) (o : outcome B) : Prop :=
  fails fs tcp_sender a w o ∨ fails fs tls_sender b w o.

(** ** What is kept *)

(** The calls made for the connections of the one server and of the other. *)
Abbreviation mark := (nat + nat)%type.

Definition both_ok (log : list (mark * io)) (a : http_running) (b : https_running) : Prop :=
  overlap_ok fs inl (.= FileManager_new) tcp_sends tcp_closes log a ∧
  overlap_ok fs inr (.= FileManager_new) tls_sends tls_closed log b.

Definition process_ok (w0 : world) (o : outcome (http_running * https_running * world)) : Prop :=
  ∃ a b w log, o = Ret (a, b, w) ∧ w_manager w = FileManager_new ∧
    w_trace w = w_trace w0 ++ log.*2 ∧ both_ok log a b.

Lemma new_manager_kept str_ m response m' :
  m = FileManager_new → handle fs str_ m = Ret (response, m') → m' = FileManager_new.
Proof using.
  intros -> H. destruct (new_manager_handle fs str_) as [[_ E]|[[_ E]|[_ Hn]]]; [congruence..|].
  by destruct (Hn _ H).
Qed.

(** A turn of one server, as [Overlap] has it. *)
Lemma http_turn_ok log t a w :
  w_manager w = FileManager_new → overlap_ok fs inl (.= FileManager_new) tcp_sends tcp_closes log a →
  turn_ok tcp_sender t a → take_turn moved t (a, w) ≠ NoFuel →
  turned (A := mark) fs inl (.= FileManager_new) tcp_sends tcp_closes log w (take_turn moved t (a, w)) ∨
  fails fs tcp_sender a w (noexcept (snd <$> take_turn moved t (a, w))).
Proof using.
  intros Hm Ha Hok Hn.
  refine (take_turn_ok fs moved HTTPConnectionObject_default tcp_sender inl _ _ _ log t a w _ Hm Ha Hok Hn).
  apply tcp_io_spec, new_manager_kept.
Qed.

Lemma https_turn_ok log t b w :
  w_manager w = FileManager_new → overlap_ok fs inr (.= FileManager_new) tls_sends tls_closed log b →
  turn_ok tls_sender t b → take_turn moved_tls t (b, w) ≠ NoFuel →
  turned (A := mark) fs inr (.= FileManager_new) tls_sends tls_closed log w (take_turn moved_tls t (b, w)) ∨
  fails fs tls_sender b w (noexcept (snd <$> take_turn moved_tls t (b, w))).
Proof using.
  intros Hm Hb Hok Hn.
  refine (take_turn_ok fs moved_tls HTTPSConnectionObject_default tls_sender inr _ _ _ log t b w _ Hm Hb Hok Hn).
  apply tls_io_spec, new_manager_kept.
Qed.

Lemma process_step_ok w0 a b w o :
  process_ok w0 (Ret (a, b, w)) → process_step (Ret (a, b, w)) o →
  process_ok w0 o ∨ process_fails a b w o.
Proof using.
  intros (? & ? & ? & log & [= <- <- <-] & Hm & Htr & Ha & Hb) Hstep.
  inversion Hstep as [t a1 b1 w1 o' Hok Ht Hn]; subst. destruct t as [t|t]; cbn in Hok, Hn |- *.
  - pose proof (http_turn_ok log t a w Hm Ha Hok) as H.
    specialize (H ltac:(intros E; apply Hn; by rewrite E)).
    destruct (take_turn moved t (a, w)) as [[[] [s1 w1]]| | | |];
      destruct H as [(s' & w' & i & l & E & Hm' & Htr' & O)|Hf]; try done; try (right; left; by apply (fails_impl _ _ _ _ _ _ Hf)).
    left. injection E as -> ->. exists s', b, w', (log ++ (pair (inl i) <$> l)).
    split_and!; [done..|by rewrite Htr', Htr, fmap_app, marked_snd, (assoc_L (++))|].
    split; [done|]. by apply overlap_foreign.
  - pose proof (https_turn_ok log t b w Hm Hb Hok) as H.
    specialize (H ltac:(intros E; apply Hn; by rewrite E)).
    destruct (take_turn moved_tls t (b, w)) as [[[] [s1 w1]]| | | |];
      destruct H as [(s' & w' & i & l & E & Hm' & Htr' & O)|Hf]; try done; try (right; right; by apply (fails_impl _ _ _ _ _ _ Hf)).
    left. injection E as -> ->. exists a, s', w', (log ++ (pair (inr i) <$> l)).
    split_and!; [done..|by rewrite Htr', Htr, fmap_app, marked_snd, (assoc_L (++))|].
    split; [|done]. by apply overlap_foreign.
Qed.

Lemma process_reached s0 w o :
  process_ok w (Ret (s0, w)) → rtc process_step (Ret (s0, w)) o →
  process_ok w o ∨
  ∃ a b w', rtc process_step (Ret (s0, w)) (Ret (a, b, w')) ∧ process_ok w (Ret (a, b, w')) ∧
    process_fails a b w' o.
Proof using All.
  intros H0. revert o. apply rtc_ind_r; [by left|].
  intros o1 o2 Hs Hstep [Hr|(a & b & w' & _ & _ & Hf)].
  - inversion Hstep as [t a1 b1 w1 o' Hok Ht Hn]; subst.
    destruct (process_step_ok w a1 b1 w1 _ Hr Hstep) as [?|?]; [by left|right]. by exists a1, b1, w1.
  - inversion Hstep; subst. destruct Hf as [(k & d & snd & _ & _ & _ & Hf)|(k & d & snd & _ & _ & _ & Hf)];
      by destruct (serve snd d _).
Qed.
End servers.

(** ** What is answered *)

(** What the process replies to the text of a request. *)
Definition reply_404 (request : str) (response : option str) : Prop :=
  (∃ r, parse_http_request request = Ret (Expected r)) ∧ response = Some not_found_text ∨
  (∃ e, parse_http_request request = Ret (Unexpected e)) ∧ response = None.

(** The connections of a server that have been taken, with the calls made for each:
    the reply and the close, or, while a worker has it in hand, no call yet or the
    reply.  A connection is taken once, and is the one that was accepted under its
    number; no call is made for another.  When no thread is in the queue, none is
    missing of those that have left it. *)
Definition serves_404 {C} `{!IConnectionObject C} {A} `{!EqDecision A} (tag : nat → A)
    (sends : C → option str → list io → Prop) (closes : C → list io)
    (s : @running C) (log : list (A * io)) : Prop :=
  NoDup (returned (queue s)).*1 ∧
  (∀ i, tag i ∈ log.*1 → i ∈ (returned (queue s)).*1) ∧
  (∀ i c, (i, c) ∈ returned (queue s) → pushed (queue s) !! i = Some c ∧
    ((∃ response l, reply_404 (conn_request c) response ∧ sends c response l ∧
        calls_for (tag i) log = l ++ closes c) ∨
     (∃ k d, duties s !! k = Some d ∧ busy d = Some (i, c) ∧
        (calls_for (tag i) log = [] ∨
         ∃ response, reply_404 (conn_request c) response ∧ sends c response (calls_for (tag i) log))))) ∧
  (Forall (.= Idle) (threads (queue s)) → (returned (queue s)).*1 ≡ₚ seq 0 (taken (queue s))).

Lemma new_manager_reply fs str_ response m' :
  handle fs str_ FileManager_new = Ret (response, m') → reply_404 str_ response.
Proof.
  intros H. destruct (new_manager_handle fs str_) as [[He E]|[[Hr E]|[_ Hn]]].
  - right. by rewrite H in E; simplify_eq.
  - left. by rewrite H in E; simplify_eq.
  - by destruct (Hn _ H).
Qed.

Lemma overlap_serves_404 {C Env} `{!IConnectionObject C, !Incoming Env C} {A} `{!EqDecision A}
    fs (tag : nat → A) sends closes log (s : @running C) :
  overlap_ok fs tag (.= FileManager_new) sends closes log s → serves_404 tag sends closes s log.
Proof.
  intros (_ & H1 & H2 & H3 & H4)%overlap_served. split_and!; [done..| |done].
  intros i c Hi. destruct (H3 i c Hi) as [Hp [Ha|(k & d & Hk & Hb & Hd)]]; (split; [done|]); [left|right].
  - destruct Ha as (m & response & m' & l & -> & Hh & Hs & ->). exists response, l.
    split_and!; [by eapply new_manager_reply|done..].
  - exists k, d. split_and!; [done..|]. destruct d as [|j c0|j c0 response|j c0]; [done|left..|right].
    + done.
    + by destruct Hd.
    + injection Hb as -> ->. destruct Hd as (m & response & m' & -> & Hh & Hs). exists response.
      split; [by eapply new_manager_reply|done].
Qed.

(** Both servers, as their threads have started. *)
Definition process_start (l l' : Z * Z) (q : @sys HTTPConnectionObject) (q' : @sys HTTPSConnectionObject) :
    http_running * https_running :=
  (started POOL_THREADS l q, started POOL_THREADS l' q').

Definition HTTPConnection_sys : outcome (@sys HTTPConnectionObject) :=
  start 100 HTTPConnectionObject_default (S POOL_THREADS).
Definition HTTPSConnection_sys : outcome (@sys HTTPSConnectionObject) :=
  start 100 HTTPSConnectionObject_default (S POOL_THREADS).

(** C9: the process, end to end and with all its threads at once: the two accept
    loops and the four workers of each server, after the set-up of [main], with the
    file manager that the handler has.  In every state that is reached, as long as
    no push laps a worker, all calls made are those for connections taken; for each
    connection that no worker has in hand they are the reply, [404 Not Found] if its
    request parses and nothing if not, and then one close; and no connection is
    taken twice or answered by the other server.  If the process ends, it is a
    connection in hand that ends it. *)
Theorem process_serves_404 compress order (fs : FS) (get_error : Z → Z → Z)
    (moved : HTTPConnectionObject → HTTPConnectionObject)
    (moved_tls : HTTPSConnectionObject → HTTPSConnectionObject)
    (p : process) (l l' : Z * Z) q q' (o : outcome (http_running * https_running * world)) :
  let w0 := mk_world (handler_file_manager p) [] in
  let s0 := Ret (process_start l l' q q', w0) in
  let step := process_step (p_fs p) get_error moved moved_tls in
  let served (a : http_running) (b : https_running) (w : world) :=
    ∃ log, w_trace w = log.*2 ∧
      serves_404 (IConnectionObject0 := http_object) inl tcp_sends tcp_closes a log ∧
      serves_404 (IConnectionObject0 := https_object) inr tls_sends tls_closed b log in
  main_setup compress order (process_new fs) = Ret ((), p) →
  HTTPConnection_sys = Ret q → HTTPSConnection_sys = Ret q' →
  rtc step s0 o →
  (∃ a b w, o = Ret (a, b, w) ∧ served a b w) ∨
  ∃ a b w, rtc step s0 (Ret (a, b, w)) ∧ served a b w ∧ process_fails (p_fs p) a b w o.
Proof.
  intros w0 s0 step served Hm Hq Hq' Hs.
  assert (Hserved : ∀ o, process_ok (p_fs p) get_error w0 o → ∃ a b w, o = Ret (a, b, w) ∧ served a b w).
  { intros o1 (a & b & w & log & -> & _ & Ht & Ha & Hb). exists a, b, w. split; [done|].
    exists log. split_and!; [done|by apply (overlap_serves_404 (p_fs p))|].
    by apply (overlap_serves_404 (Incoming0 := tls_loop get_error) (p_fs p)). }
  assert (H0 : process_ok (p_fs p) get_error w0 s0).
  { eexists _, _, w0, []. split_and!; [done|by apply (main_setup_handler _ _ _ _ Hm)|done|].
    split; [by apply (overlap_start _ HTTPConnectionObject_default)|].
    by apply (overlap_start _ HTTPSConnectionObject_default). }
  clear Hq Hq'. destruct (process_reached _ _ _ _ _ _ _ H0 Hs) as [Ho|(a & b & w & Hr & Ho & Hf)].
  - left. by apply Hserved.
  - right. exists a, b, w. destruct (Hserved _ Ho) as (a1 & b1 & w1 & [= <- <- <-] & ?). done.
Qed.

(** ** A run *)

Section schedules.
Context (fs : FS) (get_error : Z → Z → Z).
Context (moved : HTTPConnectionObject → HTTPConnectionObject).
Context (moved_tls : HTTPSConnectionObject → HTTPSConnectionObject).

(** Every turn returns, and every push has room. *)
Fixpoint process_orderly (ts : list turn_of) (s : http_running * https_running * world) : bool :=
  match ts with
  | [] => true
  | t :: ts =>
    match t with
    | inl t => roomy t s.1.1
    | inr t => roomy t s.1.2
    end &&
    match process_turn fs get_error moved moved_tls t s with
    | Ret (_, s) => process_orderly ts s | _ => false
    end
  end.

(** What remains to be said of a turn. *)
Definition turn_allowed (t : turn_of) : Prop :=
  match t with
  | inl (Loop _) => True
  | inl (Worker _ snd _) => tcp_sender snd
  | inr (Loop env) => incoming_env (Incoming := tls_loop get_error) env
  | inr (Worker _ snd _) => tls_sender snd
  end.

Lemma process_orderly_steps ts s s' :
  Forall turn_allowed ts → process_orderly ts s = true →
  process_turns fs get_error moved moved_tls ts s = Ret ((), s') →
  rtc (process_step fs get_error moved moved_tls) (Ret s) (Ret s').
Proof.
  intros Hts. revert s. induction Hts as [|t ts Ht _ IH]; intros [[a b] w]; cbn [process_orderly process_turns].
  { by intros _ [= <-]. }
  intros [Hm Hs]%andb_true_iff ([] & s1 & H1 & H)%M_bind_Ret_inv. rewrite H1 in Hs.
  apply (rtc_l _ _ (Ret s1)); [|by apply IH].
  assert (Hok : process_turn_ok get_error t a b).
  { destruct t as [t|t]; (apply roomy_ok; [|exact Hm]); by destruct t. }
  pose proof (step_process fs get_error moved moved_tls t a b w _ Hok H1) as Hstep. cbn in Hstep. by apply Hstep.
Qed.
End schedules.

(** A connection to each server, and one more to the first whose request does not
    parse; the workers of both take theirs before any is answered. *)
Definition example_http (request : str) (fd : Z) : turn_of :=
  inl (Loop (mk_tcp_env false fd id [Received request])).
Definition example_https : turn_of :=
  inr (Loop (mk_tls_env false 9 id (Some 1) 1 [mk_read 24 example_tls_request 0])).
Definition example_http_worker (k : nat) : turn_of := inl (Worker k (TCP_SendMsg (λ _, Took 24)) false).
Definition example_https_worker (k : nat) : turn_of :=
  inr (Worker k (TLS_SendMsg [WOLFSSL_ERROR_WANT_WRITE; 0%Z]) false).

Definition example_process_turns : list turn_of :=
  mjoin (replicate 4 [example_http ($"GET /a.html HTTP/1.1" ++ CRLF ++ CRLF) 7; example_https]) ++
  replicate 4 (example_http ($"PUT" ++ CRLF) 8) ++
  mjoin (replicate 5 [example_https_worker 3; example_http_worker 0]) ++ replicate 5 (example_http_worker 2) ++
  [example_http_worker 2; example_http_worker 0; example_https_worker 3; example_http_worker 2;
   example_https_worker 3; example_http_worker 0; example_http_worker 2; example_http_worker 0].

Definition no_queue {C} : @sys C := mk_sys (mk_Queue [] 0 0 0 []) [] [] 0 [].
Definition example_q : @sys HTTPConnectionObject := result HTTPConnection_sys no_queue.
Definition example_q' : @sys HTTPSConnectionObject := result HTTPSConnection_sys no_queue.

Definition example_process_start : http_running * https_running * world :=
  (process_start (0, -1)%Z (0, -1)%Z example_q example_q', mk_world (handler_file_manager example_process) []).

Definition example_process_run : http_running * https_running * world :=
  (result (process_turns (p_fs example_process) example_get_error id id example_process_turns example_process_start)
    ((), example_process_start)).2.

Example example_process_trace :
  w_trace example_process_run.2 =
    [Io_ssl_write 1 not_found_text; Io_ssl_write 1 not_found_text; Io_send 7 (take 24 not_found_text);
     Io_close 8; Io_close 7].
Proof. vm_compute. reflexivity. Qed.

Lemma example_process_reached :
  rtc (process_step (p_fs example_process) example_get_error id id) (Ret example_process_start)
    (Ret example_process_run).
Proof.
  apply (process_orderly_steps _ _ _ _ example_process_turns).
  - repeat (constructor; [done || by eexists|| by repeat constructor|]). constructor.
  - vm_compute. reflexivity.
  - vm_compute. reflexivity.
Qed.

Lemma process_serves_404_witness :
  ∃ log, w_trace example_process_run.2 = log.*2 ∧
    serves_404 (IConnectionObject0 := http_object) inl tcp_sends tcp_closes example_process_run.1.1 log ∧
    serves_404 (IConnectionObject0 := https_object) inr tls_sends tls_closed example_process_run.1.2 log.
Proof.
  pose proof example_process_reached as Hs. revert Hs. generalize example_process_run. intros [[x y] z] Hs.
  destruct (process_serves_404 half_encoder [$"../webdir/a.html"; $"../webdir/sub/b.css"] example_fs
    example_get_error id id example_process (0, -1)%Z (0, -1)%Z example_q example_q' (Ret (x, y, z)))
    as [(a & b & w & [= <- <- <-] & H)|(a & b & w & _ & _ &
          [(k & d & snd & _ & _ & _ & H)|(k & d & snd & _ & _ & _ & H)])].
  - vm_compute. reflexivity.
  - vm_compute. reflexivity.
  - vm_compute. reflexivity.
  - exact Hs.
  - exact H.
  - exfalso. destruct (serve snd d _); [destruct H|discriminate|discriminate|discriminate|destruct H].
  - exfalso. destruct (serve snd d _); [destruct H|discriminate|discriminate|discriminate|destruct H].
Defined.
